(* ===== verification/_CoqProject ===== *)
-Q . S2P
Prelude.v
CommonCodec.v
Floats.v
Text.v
Scalar.v
Schema.v
TupleCodec.v
TablePage.v
IndexPage.v
IndexPageCodec.v
Replacer.v
DiskPages.v
DiskManager.v
BufferPool.v
PageStore.v
TableHeap.v
Index.v
Tree.v
TreePages.v
IndexSteps.v
IndexInsert.v
IndexScan.v
IndexSpec.v
Catalog.v
Expressions.v
LogicalPlan.v
Ast.v
SqlPlanner.v
Operators.v
Meaning.v
Typing.v
Optimizer.v
Execution.v
Planner.v
Streams.v
Pipeline.v
Grouping.v
Aggregation.v
Joining.v
Scans.v
ExecutionSpec.v
SqlSpec.v
Journal.v
Transactions.v
Progress.v
Database.v
DatabaseSpec.v
Writes.v
InsertSpec.v
UpdateSpec.v
CreateSpec.v
IndexQuery.v
IndexCreate.v
Printing.v
Session.v
FrontEnds.v
