(* ===== verification/Prelude.v ===== *)
(** * BustubX: a verification development

    BustubX is a small relational database in Rust ([bustubx/src]). A statement is
    parsed and planned, and its operators read and write tuples in table heaps and B+
    tree indexes, whose pages live in a buffer pool over a disk manager. A transaction
    manager gives each transaction a private copy of the database and publishes it at
    commit, through a journal file.

    This library models the storage engine, the transactions, and the query engine from
    the syntax trees of statements on, as executable definitions in the shape of the
    code, and proves that each layer keeps its promise to the layer above.

    ** The files, from the bottom up

    - [Prelude] (this file): the error type ([error.rs]), results, machine integers and
      slices, the monad [SR] of methods that change a state and may fail, automation.
    - [CommonCodec] ([storage/codec/common.rs]): big-endian integers, strings, floats.
    - [Floats], [Text], [Scalar] ([catalog/data_type.rs], [common/scalar.rs]): data types
      and scalar values, casts, equality, order and printing. Floats are bit patterns;
      [Text] is what the code uses of the printing and parsing of the standard library.
    - [Schema] ([common/table_ref.rs], [catalog/column.rs], [catalog/schema.rs],
      [storage/tuple.rs]): name resolution, schemas, tuples and their order.
    - [TupleCodec] ([common/bitmap.rs], [storage/codec/{scalar,tuple}.rs]).
    - [TablePage] ([storage/page/table_page.rs] and its codec): slotted pages.
    - [IndexPage], [IndexPageCodec] ([storage/page/index_page.rs] and its codec): leaf
      and internal pages of the B+ tree.
    - [Replacer] ([buffer/replacer.rs]): LRU-K eviction.
    - [DiskPages] ([storage/page/{meta,freelist}_page.rs] and their codecs),
      [DiskManager] ([storage/disk_manager.rs]): the database file, page allocation and
      the chain of free list pages. The class [Disk] with [DiskLaws] is what the buffer
      pool uses of a disk; [disk_manager_Disk] implements it.
    - [BufferPool] ([buffer/{buffer_pool,page}.rs]): frames, pins, eviction with
      write-back, over any [Disk]. [PageStore]: the contract of the pool, a store of
      pages with reference counts, and the proof that the pool refines it.
    - [TableHeap] ([storage/table_heap.rs]): tables as linked lists of table pages in
      the pool, and their iterator, proved against [PageStore]; its contract is the
      relation [HeapRows.step] on lists of pages of rows.
    - [Index] ([storage/index.rs]): the B+ tree over the pool, its operations and its
      range iterator. [Tree]: what its pages stand for, a tree of entries with the way to
      a subtree; [TreePages]: the pages of a tree under insertion. [IndexSteps],
      [IndexInsert] and [IndexScan] run search, insertion and the iterator over
      [PageStore] on such a tree, and [IndexSpec] is the contract: an ordered map on
      pages of its own.
    - [Catalog] ([catalog/catalog.rs], [catalog/information.rs]): schemas, tables and
      indexes by name, with the table heaps and indexes they name, over one pool, and
      their rows in the information schema.
    - [Expressions] ([expression], [function]): evaluation and typing of expressions,
      and the accumulators of the aggregate functions.
    - [LogicalPlan] ([planner/logical_plan]), [Optimizer] ([optimizer]): query plans
      and the limit rules.
    - [Ast]: the syntax trees of the sqlparser package, as far as the planner matches
      them, and its parser as the class [Sqlparser]; the SQL types of
      [catalog/data_type.rs]. [SqlPlanner] ([planner/logical_planner]): from syntax trees
      to logical plans.
    - [Operators] ([execution/parallel.rs], and what the files of
      [execution/physical_plan] compute without touching the state): the worker batches,
      and the functions on tuples of each operator.
    - [Meaning]: the specification of queries. [means tables p o]: the rows of the
      tables being given, the logical plan [p] may compute the outcome [o], a list of
      rows followed by the end, an error or a panic.
    - [Typing]: well typed plans, whose rows have the schemas of their nodes.
    - [Execution] ([execution]): the operators with their states, and the engine.
      [Planner] ([planner/physical_planner]): from logical to physical plans.
    - [Streams], [Pipeline], [Grouping], [Aggregation], [Joining], [Scans]: the calls of
      [next] of each operator against [Meaning]. [Streams.starts] says that [init] starts
      the answers of an outcome; a lemma for each operator takes it from the inputs to
      the operator. [ExecutionSpec]: the plan of a query as a whole. [SqlSpec]: the plans
      that [SqlPlanner] makes of queries.
    - [Journal] ([transaction/recovery.rs]): the commit journal and crash recovery.
    - [Transactions] ([transaction/{lock_manager,transaction_manager,transaction}.rs]):
      locks, snapshots and commit over any database with the interface [Database].
      [Progress]: endless histories of a manager.
    - [Database] ([database.rs], the loading functions of [catalog/information.rs]): from
      the text of a statement to its tuples, and opening a database file, which reads the
      information schema by running statements. [DatabaseSpec]: what [run] returns for a
      query. [Writes]: changing one table of a database. [InsertSpec]: inserting rows,
      [UpdateSpec]: rewriting them in place, [CreateSpec]: creating tables.
      [IndexQuery]: scanning a table by an index, [IndexCreate]: creating indexes, and
      the theorems on both. [Session]: whole sessions, evaluated.
    - [Printing] ([common/util.rs]): plans, tuples and indexes as text. [FrontEnds]
      ([bustubx-cli], [bustubx-wasm], [tests/sqllogictest]): the loops that run the lines
      they read.

    A record [t] of a Module is the struct of that name; a definition has the name of
    the Rust function it models, and returns the new state where the function takes
    [&mut self] or changes shared state. A helper without a counterpart is a block of
    the function named in its comment.

    ** What the theorems show

    - Data: tuples, pages and index pages survive their byte encodings; values of a
      type and tuples of a schema are totally ordered; a cast gives a value of its
      target type, in the range of that type; an unambiguous schema resolves each of its columns by name.
    - Pages: a table page behaves as a bounded list of rows, when deleted rows are not
      restored; a leaf page as a finite map with sorted keys, when the keys that are
      inserted are new, and splitting it cuts the map; an internal page routes a
      key to the child of its range.
    - Storage: the disk manager hands out fresh zeroed pages and keeps the others, in
      any state of its free list, and reopens what it created; the replacer evicts the
      frame with the largest backward k-distance whatever the order of its hash map;
      the buffer pool refines its store and [flush_all_pages] makes it durable; a table
      heap refines a list of pages of rows and a scan visits each row once; a B+ tree
      index finds the keys it has, an insertion of a new key splits pages up to a new root
      and changes pages of the index only, and a range scan ends and lists the keys between
      its bounds in order (and one entry where there is none, [RangeFacts.listed_range]).
    - Queries: evaluating an expression does not panic and, without aggregate functions,
      gives a value of the type the planner announced; a comparison of integers compares
      them as numbers; counts merged from chunks are the counts of the whole, and averages
      have their counts and sums up to the bracketing of the additions; an optimized plan
      means what the plan means, unless a limit is below a join; the rows of a well typed plan have its schema. The
      plan that is built of a query, executed over the buffer pool with any number of
      workers, returns the rows or the error of an outcome the query means, and without
      an aggregation the number of workers makes no difference. The plans that
      the planner returns are well typed, and [Database.run] on the text of a query composes all of this: it
      returns what the plan of the query means, or the planner's refusal. An insert of
      values without a list of columns appends its rows to its table, and an update rewrites the rows it selects
      in place, up to the first that fails, and no other table changes; a created table
      is empty, on a page of its own, and described in the information schema. Creating
      an index on rows with different keys gives it an entry for each row; a table with one
      index is scanned by it: all its rows, in the order of the entries, which is that of
      their keys until a key is updated.
    - Transactions: the databases that a manager publishes are those of a serial execution
      of the committed transactions in commit order ([ManagerRun.serial]): each starts on a
      copy of the database that the one before it published; serializable transactions follow strict two-phase
      locking; a commit publishes everything or nothing; after a crash at any byte, the
      journal recovers the bytes of the database published last; clients that end their transactions find the
      locks free again and again.

    ** Bounds and fuel

    Machine integers are [Z] with their width written out; arithmetic that the
    development profile checks is [checked] and an overflow is [Panic], casts are
    [wrap] and [to_signed]. Loops that are not structural take fuel: a binary search
    takes the width of its range ([search_fuel]), the free list chain one step for
    each page of the file ([chain_fuel]; a cyclic chain, on which the code would not
    return, is [Panic] here, and well-formed files have none), the reader of the
    journal one step for each byte of the file, the heap's [insert_loop] two rounds,
    since a new page without room is an assertion failure, a descent of the B+ tree
    [TREE_FUEL], 64, one for each level ([TreeFacts.tree_height]: there are at most
    33). Loops over the rows of a table or of a query take the number of rounds as an
    argument, [fuel], and enough of it is shown where a theorem says that they end:
    [QueryBounds.rounds] computes it for a query, from [max_rows]. The refinement
    theorems show [Panic] is not reached. Theorems over the pool assume a clock below
    2^63, of which a query takes [QueryBounds.ticks], and that a disk has room for one
    more page id. The theorems on the execution of queries assume that threads start,
    that the tables have no index, and that no aggregation is on the right side of a
    join: [RestartDemo] shows what the code does with one. Those on indexes assume that
    the keys of the rows differ; a row takes at most 40 new pages of the tree and 2003
    ticks.

    ** What is not modelled

    The parser of the sqlparser package is not in the sources: a statement is planned
    from what [Sqlparser.parse_sql] answers. Nor is the comfy_table package, which
    draws tables ([ComfyTable]). The line editor of the command line and its history,
    logging, and the deletion of temporary directories are input and output around the
    engine. Hashing of values only serves hash maps, whose order is given
    by [Platform]. Text is bytes, and the white space [trim] removes is that of ASCII.
    Inside the storage layer the locks and the concurrent map are used by one thread
    at a time, as the mutex of the transaction manager makes them. The workers of the
    parallel operators are modelled by their effect, since they share read-only data
    and are joined in order: reading pages is done by the thread that calls [next],
    and a worker decodes, filters or evaluates a batch of its own.

    The theorems on transactions hold of any [Database], whatever saving, opening and
    running statements do: they speak of the database values that the manager has and of
    the calls that made them, and need no law of them. [disk_Database] is the instance for
    [database.rs], and [Session] applies two of them to it. That a saved database opens as
    what it was is not claimed, and is not quite so: the columns of a table that is opened
    again have no relation ([Session.qualified_name_lost]). The tables and rows of a
    session are there again ([Session.session_reopens]). *)
From stdpp Require Export base numbers list gmap strings option sorting.
From Stdlib Require Export ZArith Lia.

(** ** Errors (bustubx/src/error.rs)

    The variants of [BustubxError]. A message built by [format!] is kept as its
    format template; the arguments are not part of the model. *)
Inductive BustubxError :=
  | Transaction (msg : string)
  | NotSupport (msg : string)
  | Internal (msg : string)
  | Io (msg : string)
  | Parser (msg : string)
  | Plan (msg : string)
  | Execution (msg : string)
  | Storage (msg : string).

(** ** Results

    A Rust computation returns a value, returns an error, or panics. Panics are
    those of the development profile: explicit [panic!]/[assert!]/[unwrap],
    slice and index bounds, [debug_assert!] and integer overflow. *)
Inductive result (A : Type) :=
  | Ok (a : A)
  | Err (e : BustubxError)
  | Panic.
Arguments Ok {A} a.
Arguments Err {A} e.
Arguments Panic {A}.

#[export] Instance BustubxError_eq_dec : EqDecision BustubxError.
Proof. solve_decision. Defined.

#[export] Instance result_eq_dec `{EqDecision A} : EqDecision (result A).
Proof. solve_decision. Defined.

#[export] Instance result_ret : MRet result := λ A a, Ok a.

#[export] Instance result_bind : MBind result := λ A B f r,
  match r with
  | Ok a => f a
  | Err e => Err e
  | Panic => Panic
  end.

#[export] Instance result_fmap : FMap result := λ A B f r,
  match r with
  | Ok a => Ok (f a)
  | Err e => Err e
  | Panic => Panic
  end.

(** [Option::ok_or] and [Option::unwrap]. *)
Definition ok_or {A} (o : option A) (e : BustubxError) : result A :=
  match o with Some a => Ok a | None => Err e end.

Definition unwrap {A} (o : option A) : result A :=
  match o with Some a => Ok a | None => Panic end.

(** [assert!(b)]. *)
Definition assert_true (b : bool) : result unit := if b then Ok tt else Panic.

Definition is_ok {A} (r : result A) : bool :=
  match r with Ok _ => true | _ => false end.

(** [Iterator::map(f).collect::<BustubxResult<Vec<_>>>()]: left to right, stops
    at the first failure. *)
Fixpoint mapR {A B} (f : A → result B) (l : list A) : result (list B) :=
  match l with
  | [] => Ok []
  | x :: l' => y ← f x; ys ← mapR f l'; Ok (y :: ys)
  end.

#[global] Arguments Nat.div : simpl never.
#[global] Arguments Nat.modulo : simpl never.

(** ** Machine integers

    A machine integer is a [Z] in its range. [wrap w] is the cast to an unsigned
    type of [w] bits, [to_signed w] the cast to a signed one. *)
Definition wrap (w : Z) (z : Z) : Z := z `mod` 2 ^ w.
Definition to_signed (w : Z) (z : Z) : Z := (z + 2 ^ (w - 1)) `mod` 2 ^ w - 2 ^ (w - 1).
Definition unsigned_ok (w : Z) (z : Z) : Prop := (0 ≤ z < 2 ^ w)%Z.
Definition signed_ok (w : Z) (z : Z) : Prop := (- 2 ^ (w - 1) ≤ z < 2 ^ (w - 1))%Z.

(** Overflow-checked arithmetic: out of range panics. *)
Definition checked (w : Z) (z : Z) : result Z :=
  if ((0 <=? z) && (z <? 2 ^ w))%Z then Ok z else Panic.

Definition checked_signed (w : Z) (z : Z) : result Z :=
  if ((- 2 ^ (w - 1) <=? z) && (z <? 2 ^ (w - 1)))%Z then Ok z else Panic.

(** [usize] subtraction, on lengths and offsets. *)
Definition usub (a b : nat) : result nat := if b <=? a then Ok (a - b) else Panic.

(** ** Slices: [&l[off..]], [&l[lo..hi]] and indexing, which panic out of range. *)
Definition slice_from {A} (l : list A) (off : nat) : result (list A) :=
  if off <=? length l then Ok (drop off l) else Panic.

Definition slice {A} (l : list A) (lo hi : nat) : result (list A) :=
  if (lo <=? hi) && (hi <=? length l) then Ok (take (hi - lo) (drop lo l)) else Panic.

Definition index {A} (l : list A) (i : nat) : result A := unwrap (l !! i).

(** [l[off..off + src.len()].copy_from_slice(src)]. *)
Definition copy_at {A} (l : list A) (off : nat) (src : list A) : result (list A) :=
  if off + length src <=? length l
  then Ok (take off l ++ src ++ drop (off + length src) l)
  else Panic.

(** [Vec::remove] and [Vec::split_off], which panic out of range. *)
Definition vec_remove {A} (l : list A) (i : nat) : result (A * list A) :=
  x ← index l i; Ok (x, delete i l).

Definition vec_split_off {A} (l : list A) (at_ : nat) : result (list A * list A) :=
  if at_ <=? length l then Ok (take at_ l, drop at_ l) else Panic.

(** [l[i as usize]] with a signed [i]: a negative one is out of range. *)
Definition index_z {A} (l : list A) (i : Z) : result A :=
  if (i <? 0)%Z then Panic else index l (Z.to_nat i).

(** [Iterator::position]. *)
Fixpoint position {A} (p : A → bool) (l : list A) : option nat :=
  match l with
  | [] => None
  | x :: l' => if p x then Some 0 else S <$> position p l'
  end.

(** [for x in l] with an early return on error, threading a state. *)
Fixpoint foldR {A B} (f : A → B → result A) (a : A) (l : list B) : result A :=
  match l with
  | [] => Ok a
  | x :: l' => a' ← f a x; foldR f a' l'
  end.

(** ** State and results

    A method that changes a state and may fail: the new state comes back with the
    result, so the effects before an error or a panic are kept. *)
Definition SR (S A : Type) : Type := S → S * result A.

#[export] Instance SR_ret {S} : MRet (SR S) := λ A a s, (s, Ok a).

#[export] Instance SR_bind {S} : MBind (SR S) := λ A B f m s,
  let '(s', r) := m s in
  match r with
  | Ok a => f a s'
  | Err e => (s', Err e)
  | Panic => (s', Panic)
  end.

Definition gets {S A} (f : S → A) : SR S A := λ s, (s, Ok (f s)).
Definition modify {S} (f : S → S) : SR S unit := λ s, (f s, Ok tt).
Definition lift {S A} (r : result A) : SR S A := λ s, (s, r).
Definition ret {S A} (a : A) : SR S A := λ s, (s, Ok a).
Definition fail {S A} (e : BustubxError) : SR S A := λ s, (s, Err e).

Lemma SR_bind_Ok {S A B} (m : SR S A) (f : A → SR S B) s s' a :
  m s = (s', Ok a) → (m ≫= f) s = f a s'.
Proof. intros H. unfold mbind, SR_bind. by rewrite H. Qed.

Lemma SR_bind_Err {S A B} (m : SR S A) (f : A → SR S B) s s' e :
  m s = (s', Err e) → (m ≫= f) s = (s', Err e).
Proof. intros H. unfold mbind, SR_bind. by rewrite H. Qed.

(** ** Lemmas on results *)
Lemma bind_Ok_inv {A B} (r : result A) (f : A → result B) b :
  r ≫= f = Ok b → ∃ a, r = Ok a ∧ f a = Ok b.
Proof. destruct r; naive_solver. Qed.

Lemma bind_ret_r {A} (r : result A) : (x ← r; Ok x) = r.
Proof. by destruct r. Qed.

Lemma bind_assoc {A B C} (r : result A) (f : A → result B) (g : B → result C) :
  (r ≫= f) ≫= g = r ≫= (λ x, f x ≫= g).
Proof. by destruct r. Qed.

Lemma mapR_Ok {A B} (f : A → result B) l ys :
  mapR f l = Ok ys ↔ Forall2 (λ x y, f x = Ok y) l ys.
Proof.
  revert ys. induction l as [|x l IH]; intros ys; simpl.
  - split; [by intros [= <-]|by inversion 1].
  - split.
    + intros (y & Hy & (ys' & Hys & [= <-])%bind_Ok_inv)%bind_Ok_inv.
      constructor; [done|by apply IH].
    + inversion 1 as [|? y ? ys' Hy Hys]; subst. rewrite Hy. simpl.
      apply IH in Hys. by rewrite Hys.
Qed.

Lemma mapR_length {A B} (f : A → result B) l ys : mapR f l = Ok ys → length ys = length l.
Proof. rewrite mapR_Ok. intros H. symmetry. by eapply Forall2_length. Qed.

(** What exists for each element exists as a list. *)
Lemma Forall_choice {A B} (P : A → B → Prop) l :
  Forall (λ x, ∃ y, P x y) l → ∃ k, Forall2 P l k.
Proof.
  induction 1 as [|x l (y & Hy) _ (k & Hk)]; [exists []; constructor|]. exists (y :: k). by constructor.
Qed.

Lemma mapR_is_ok {A B} (f : A → result B) l :
  Forall (λ x, is_ok (f x) = true) l → ∃ ys, mapR f l = Ok ys.
Proof.
  intros H. setoid_rewrite mapR_Ok. apply Forall_choice. eapply Forall_impl; [done|].
  intros x Hx. cbv beta in Hx. destruct (f x) as [y| |]; [by exists y|done..].
Qed.

(** ** Lemmas on slices *)
Section slices.
Context {A : Type}.
Implicit Types (l k s : list A).

Lemma slice_from_Ok l off : off ≤ length l → slice_from l off = Ok (drop off l).
Proof. intros H. unfold slice_from. by rewrite (proj2 (Nat.leb_le _ _) H). Qed.

Lemma slice_from_app l k off : off = length l → slice_from (l ++ k) off = Ok k.
Proof.
  intros ->. rewrite slice_from_Ok by (rewrite length_app; lia).
  by rewrite drop_app_length.
Qed.

Lemma slice_Ok l lo hi :
  lo ≤ hi → hi ≤ length l → slice l lo hi = Ok (take (hi - lo) (drop lo l)).
Proof.
  intros H1 H2. unfold slice.
  by rewrite (proj2 (Nat.leb_le _ _) H1), (proj2 (Nat.leb_le _ _) H2).
Qed.

Lemma slice_Ok_inv l lo hi s :
  slice l lo hi = Ok s → lo ≤ hi ≤ length l ∧ s = take (hi - lo) (drop lo l).
Proof.
  unfold slice. destruct (Nat.leb_spec lo hi), (Nat.leb_spec hi (length l)); simpl;
    naive_solver lia.
Qed.

Lemma slice_app l k hi : hi = length l → slice (l ++ k) 0 hi = Ok l.
Proof.
  intros ->. rewrite slice_Ok by (rewrite ?length_app; lia).
  by rewrite Nat.sub_0_r, drop_0, take_app_length.
Qed.

(** The slice between two parts of a concatenation. *)
Lemma slice_app3 l s k lo hi :
  lo = length l → hi = length l + length s → slice (l ++ s ++ k) lo hi = Ok s.
Proof.
  intros -> ->. rewrite slice_Ok by (rewrite ?length_app; lia).
  rewrite drop_app_length, Nat.add_sub', take_app_length. done.
Qed.

Lemma copy_at_Ok l off s :
  off + length s ≤ length l →
  copy_at l off s = Ok (take off l ++ s ++ drop (off + length s) l).
Proof. intros H. unfold copy_at. by rewrite (proj2 (Nat.leb_le _ _) H). Qed.

Lemma copy_at_length l off s l' : copy_at l off s = Ok l' → length l' = length l.
Proof.
  unfold copy_at. case_match eqn:H; [|done]. apply Nat.leb_le in H.
  intros [= <-]. rewrite !length_app, length_take, length_drop. lia.
Qed.

(** Reading back what was written, and a range outside the written one. *)
Lemma slice_copy_at_same l off s l' :
  copy_at l off s = Ok l' → slice l' off (off + length s) = Ok s.
Proof.
  intros H. pose proof (copy_at_length _ _ _ _ H) as Hlen. revert H. unfold copy_at.
  case_match eqn:H; [|done]. apply Nat.leb_le in H. intros [= <-].
  apply slice_app3; rewrite length_take; lia.
Qed.

Lemma slice_copy_at_other l off s l' lo hi :
  copy_at l off s = Ok l' → hi ≤ off ∨ off + length s ≤ lo →
  slice l' lo hi = slice l lo hi.
Proof.
  intros H Hd. pose proof (copy_at_length _ _ _ _ H) as Hlen.
  unfold slice. rewrite Hlen. case_match eqn:Hb; [|done].
  apply andb_true_iff in Hb as [Hb1%Nat.leb_le Hb2%Nat.leb_le]. f_equal.
  revert H. unfold copy_at. case_match eqn:Hc; [|done]. apply Nat.leb_le in Hc.
  intros [= <-]. apply list_eq. intros i.
  destruct (decide (i < hi - lo)) as [Hi|Hi].
  2:{ by rewrite !lookup_take_ge by lia. }
  rewrite !lookup_take_lt, !lookup_drop by lia.
  destruct Hd as [Hd|Hd].
  - rewrite lookup_app_l by (rewrite length_take; lia). by rewrite lookup_take_lt by lia.
  - rewrite lookup_app_r by (rewrite length_take; lia). rewrite length_take.
    rewrite lookup_app_r by lia. rewrite lookup_drop. f_equal. lia.
Qed.

Lemma index_Ok l i x : l !! i = Some x → index l i = Ok x.
Proof. unfold index. by intros ->. Qed.

Lemma index_Ok_inv l i x : index l i = Ok x → l !! i = Some x.
Proof. unfold index, unwrap. by case_match; intros [= <-]. Qed.

Lemma usub_Ok a b : b ≤ a → usub a b = Ok (a - b).
Proof. intros H. unfold usub. by rewrite (proj2 (Nat.leb_le _ _) H). Qed.

End slices.

Lemma checked_Ok w z : unsigned_ok w z → checked w z = Ok z.
Proof.
  intros [H1 H2]. unfold checked.
  by rewrite (proj2 (Z.leb_le _ _) H1), (proj2 (Z.ltb_lt _ _) H2).
Qed.

Lemma checked_Ok_inv w z z' : checked w z = Ok z' → z' = z ∧ unsigned_ok w z.
Proof.
  unfold checked, unsigned_ok.
  destruct (Z.leb_spec 0 z), (Z.ltb_spec z (2 ^ w)); simpl; intros [= <-]; auto.
Qed.

Lemma checked_signed_Ok w z : signed_ok w z → checked_signed w z = Ok z.
Proof.
  intros [H1 H2]. unfold checked_signed.
  by rewrite (proj2 (Z.leb_le _ _) H1), (proj2 (Z.ltb_lt _ _) H2).
Qed.

Lemma index_z_Ok {A} (l : list A) i x :
  (0 ≤ i)%Z → l !! Z.to_nat i = Some x → index_z l i = Ok x.
Proof. intros Hi Hx. unfold index_z. rewrite (proj2 (Z.ltb_ge _ _) Hi). by apply index_Ok. Qed.

Lemma vec_remove_Ok {A} (l : list A) i x :
  l !! i = Some x → vec_remove l i = Ok (x, delete i l).
Proof. intros Hx. unfold vec_remove. by rewrite (index_Ok _ _ _ Hx). Qed.

Lemma vec_split_off_Ok {A} (l : list A) i :
  i ≤ length l → vec_split_off l i = Ok (take i l, drop i l).
Proof. intros Hi. unfold vec_split_off. by rewrite (proj2 (Nat.leb_le _ _) Hi). Qed.

Lemma position_Some {A} (p : A → bool) l i :
  position p l = Some i ↔
  ∃ x, l !! i = Some x ∧ p x = true ∧ ∀ j y, j < i → l !! j = Some y → p y = false.
Proof.
  revert i. induction l as [|x l IH]; intros i; simpl.
  { split; [done|]. intros (y & Hy & _). by rewrite lookup_nil in Hy. }
  destruct (p x) eqn:Hp.
  - split.
    + intros [= <-]. exists x. split_and!; [done..|lia].
    + intros (y & Hy & Hpy & Hmin). destruct i as [|i]; [done|].
      specialize (Hmin 0 x). rewrite Hmin in Hp; [done|lia|done].
  - destruct i as [|i]; simpl.
    + split; [by destruct (position p l)|]. intros (y & [= <-] & Hpy & _). congruence.
    + split.
      * destruct (position p l) as [k|]; simpl; [|done]. intros [= ->].
        destruct (proj1 (IH i) eq_refl) as (y & Hy & Hpy & Hmin). exists y. split_and!; [done..|].
        intros [|j] z Hj Hz; simpl in Hz; [congruence|]. apply (Hmin j); [lia|done].
      * intros (y & Hy & Hpy & Hmin). rewrite (proj2 (IH i)); [done|].
        exists y. split_and!; [done..|]. intros j z Hj Hz. apply (Hmin (S j)); [lia|done].
Qed.

Lemma position_None {A} (p : A → bool) l :
  position p l = None ↔ ∀ x, x ∈ l → p x = false.
Proof.
  induction l as [|x l IH]; simpl.
  { split; [|done]. intros _ y Hy. by apply not_elem_of_nil in Hy. }
  setoid_rewrite elem_of_cons. destruct (p x) eqn:Hp.
  - split; [done|]. intros H. rewrite H in Hp; [done|by left].
  - destruct (position p l) as [k|]; simpl.
    + split; [done|]. intros H. enough (Some k = None) by done. apply IH. intros y Hy. apply H. by right.
    + split; [|done]. intros _ y [->|Hy]; [done|]. by apply IH.
Qed.

(** ** Machine integer casts *)
Lemma wrap_range w z : (0 < w)%Z → unsigned_ok w (wrap w z).
Proof. intros. unfold wrap, unsigned_ok. apply Z.mod_pos_bound. lia. Qed.

Lemma wrap_small w z : unsigned_ok w z → wrap w z = z.
Proof. intros. by apply Z.mod_small. Qed.

Lemma pow2_half w : (0 < w)%Z → (2 ^ w = 2 * 2 ^ (w - 1))%Z.
Proof. intros. rewrite <- Z.pow_succ_r by lia. f_equal. lia. Qed.

Lemma to_signed_range w z : (0 < w)%Z → signed_ok w (to_signed w z).
Proof.
  intros Hw. unfold to_signed, signed_ok.
  pose proof (Z.mod_pos_bound (z + 2 ^ (w - 1)) (2 ^ w)) as Hb.
  pose proof (pow2_half w Hw). lia.
Qed.

Lemma to_signed_small w z : (0 < w)%Z → signed_ok w z → to_signed w z = z.
Proof.
  intros Hw [H1 H2]. unfold to_signed. pose proof (pow2_half w Hw).
  rewrite Z.mod_small by lia. lia.
Qed.

(** Casting down and back up depends only on the low bits. *)
Lemma to_signed_wrap w z : (0 < w)%Z → to_signed w (wrap w z) = to_signed w z.
Proof. intros. unfold to_signed, wrap. by rewrite Zplus_mod_idemp_l. Qed.

Lemma to_signed_mod w z : (0 < w)%Z → to_signed w (z `mod` 2 ^ w) = to_signed w z.
Proof. apply to_signed_wrap. Qed.

Lemma wrap_to_signed w z : (0 < w)%Z → wrap w (to_signed w z) = wrap w z.
Proof.
  intros. unfold to_signed, wrap. rewrite Zminus_mod_idemp_l. f_equal. lia.
Qed.

#[global] Opaque wrap to_signed.

(** ** Laws of a comparison function

    A total order on the values satisfying [P], given by a comparison function
    whose [Eq] case is equality. *)
Record cmp_laws {A} (P : A → Prop) (cmp : A → A → comparison) : Prop := CmpLaws {
  cmp_refl x : P x → cmp x x = Eq;
  cmp_opp x y : P x → P y → cmp y x = CompOpp (cmp x y);
  cmp_Eq x y : P x → P y → cmp x y = Eq → x = y;
  cmp_Lt_trans x y z : P x → P y → P z → cmp x y = Lt → cmp y z = Lt → cmp x z = Lt;
}.

(** Consequences, on the weak order [cmp x y ≠ Gt]. *)
Section cmp_order.
Context {A : Type} (P : A → Prop) (cmp : A → A → comparison) (L : cmp_laws P cmp).

Lemma cmp_Gt_Lt x y : P x → P y → cmp x y = Gt ↔ cmp y x = Lt.
Proof using L.
  intros Hx Hy. rewrite (cmp_opp _ _ L x y Hx Hy). by destruct (cmp x y).
Qed.

Lemma cmp_Eq_iff x y : P x → P y → cmp x y = Eq ↔ x = y.
Proof using L.
  intros Hx Hy. split; [by apply L|]. intros ->. by apply L.
Qed.

Lemma cmp_le_lt_trans x y z :
  P x → P y → P z → cmp x y ≠ Gt → cmp y z = Lt → cmp x z = Lt.
Proof using L.
  intros Hx Hy Hz Hxy Hyz. destruct (cmp x y) eqn:E; [|by eapply (cmp_Lt_trans _ _ L x y z)|done].
  apply cmp_Eq_iff in E as ->; done.
Qed.

Lemma cmp_lt_le_trans x y z :
  P x → P y → P z → cmp x y = Lt → cmp y z ≠ Gt → cmp x z = Lt.
Proof using L.
  intros Hx Hy Hz Hxy Hyz. destruct (cmp y z) eqn:E; [|by eapply (cmp_Lt_trans _ _ L x y z)|done].
  apply cmp_Eq_iff in E as ->; done.
Qed.

Lemma cmp_le_trans x y z :
  P x → P y → P z → cmp x y ≠ Gt → cmp y z ≠ Gt → cmp x z ≠ Gt.
Proof using L.
  intros Hx Hy Hz Hxy Hyz. destruct (cmp y z) eqn:E; [| |done].
  2:{ pose proof (cmp_le_lt_trans x y z Hx Hy Hz Hxy E). congruence. }
  apply cmp_Eq_iff in E as ->; done.
Qed.

End cmp_order.

(** ** Automation

    [res] is the hint database of the functional lemmas (a call returns [Ok]);
    [inv_res] inverts a chain of binds that returned [Ok]. *)
Create HintDb res.
Create Rewrite HintDb res_rw.
#[export] Hint Rewrite @slice_from_Ok @slice_Ok @copy_at_Ok @checked_Ok @usub_Ok
  using first [assumption | lia] : res_rw.

Ltac inv_res :=
  repeat match goal with
  | H : (_ ≫= _) = Ok _ |- _ =>
      let a := fresh "a" in let Ha := fresh "Ha" in
      apply bind_Ok_inv in H as (a & Ha & H)
  | H : Ok _ = Ok _ |- _ => injection H as H
  | H : Err _ = Ok _ |- _ => discriminate H
  | H : Panic = Ok _ |- _ => discriminate H
  | H : (let '(_, _) := ?p in _) = Ok _ |- _ => destruct p
  end; simplify_eq.
