(* ===== verification/CommonCodec.v ===== *)
(** * CommonCodec: big-endian encodings of the primitive types

    Models [bustubx/src/storage/codec/common.rs]. A byte is a [Z] between 0 and
    255, a byte buffer a [list Z]. A Rust [String] is a [string] holding its
    UTF-8 bytes; [f32] and [f64] values are represented by their bit patterns
    ([to_bits]), which is all the codec looks at. *)
From Stdlib Require Import Ascii.
From S2P Require Import Prelude.
Local Open Scope Z_scope.

(** data + consumed offset (codec/mod.rs) *)
Definition DecodedData (T : Type) : Type := T * nat.

(** ** Byte conversions of the standard library *)

(** [to_be_bytes] of an [n]-byte integer, signed or not. *)
Fixpoint to_be_bytes (n : nat) (z : Z) : list Z :=
  match n with
  | O => []
  | S m => (z / 2 ^ (8 * Z.of_nat m)) `mod` 256 :: to_be_bytes m z
  end.

Definition of_be_bytes (bytes : list Z) : Z :=
  foldl (λ acc b, acc * 256 + b) 0 bytes.

Definition byte_ok (b : Z) : Prop := 0 ≤ b < 256.

(** [str::as_bytes] and the bytes of a [String]. *)
Definition byte_of_ascii (a : ascii) : Z := Z.of_N (Ascii.N_of_ascii a).
Definition ascii_of_byte (b : Z) : ascii := Ascii.ascii_of_N (Z.to_N b).

Fixpoint string_bytes (s : string) : list Z :=
  match s with
  | EmptyString => []
  | String a s' => byte_of_ascii a :: string_bytes s'
  end.

Fixpoint bytes_string (bytes : list Z) : string :=
  match bytes with
  | [] => EmptyString
  | b :: bytes' => String (ascii_of_byte b) (bytes_string bytes')
  end.

(** Well-formed UTF-8 byte sequences (Unicode, table 3-7), the check of
    [String::from_utf8]. *)
Definition in_range (lo hi b : Z) : bool := (lo <=? b) && (b <=? hi).

Fixpoint utf8_valid (bytes : list Z) : bool :=
  match bytes with
  | [] => true
  | b0 :: r0 =>
      if in_range 0x00 0x7F b0 then utf8_valid r0
      else if in_range 0xC2 0xDF b0 then
        match r0 with
        | b1 :: r1 => in_range 0x80 0xBF b1 && utf8_valid r1
        | _ => false
        end
      else if in_range 0xE0 0xEF b0 then
        match r0 with
        | b1 :: b2 :: r2 =>
            (if b0 =? 0xE0 then in_range 0xA0 0xBF b1
             else if b0 =? 0xED then in_range 0x80 0x9F b1
             else in_range 0x80 0xBF b1) &&
            in_range 0x80 0xBF b2 && utf8_valid r2
        | _ => false
        end
      else if in_range 0xF0 0xF4 b0 then
        match r0 with
        | b1 :: b2 :: b3 :: r3 =>
            (if b0 =? 0xF0 then in_range 0x90 0xBF b1
             else if b0 =? 0xF4 then in_range 0x80 0x8F b1
             else in_range 0x80 0xBF b1) &&
            in_range 0x80 0xBF b2 && in_range 0x80 0xBF b3 && utf8_valid r3
        | _ => false
        end
      else false
  end.

(** ** The codec *)
Definition short_error {A} : result A := Err (Storage "bytes length {} is less than {}").

Definition encode_bool (data : bool) : list Z := if data then [1] else [0].

Definition decode_bool (bytes : list Z) : result (DecodedData bool) :=
  match bytes with
  | [] => short_error
  | b :: _ => Ok (negb (b =? 0), 1%nat)
  end.

(** The shape shared by the fixed-width decoders: a length check, then
    [from_be_bytes] of the first [n] bytes. *)
Definition decode_uint (n : nat) (bytes : list Z) : result (DecodedData Z) :=
  if (length bytes <? n)%nat then short_error
  else Ok (of_be_bytes (take n bytes), n).

Definition decode_sint (n : nat) (bytes : list Z) : result (DecodedData Z) :=
  if (length bytes <? n)%nat then short_error
  else Ok (to_signed (8 * Z.of_nat n) (of_be_bytes (take n bytes)), n).

Definition encode_u8 (data : Z) : list Z := to_be_bytes 1 data.
Definition decode_u8 (bytes : list Z) : result (DecodedData Z) := decode_uint 1 bytes.
Definition encode_u16 (data : Z) : list Z := to_be_bytes 2 data.
Definition decode_u16 (bytes : list Z) : result (DecodedData Z) := decode_uint 2 bytes.
Definition encode_u32 (data : Z) : list Z := to_be_bytes 4 data.
Definition decode_u32 (bytes : list Z) : result (DecodedData Z) := decode_uint 4 bytes.
Definition encode_u64 (data : Z) : list Z := to_be_bytes 8 data.
Definition decode_u64 (bytes : list Z) : result (DecodedData Z) := decode_uint 8 bytes.

Definition encode_i8 (data : Z) : list Z := to_be_bytes 1 data.
Definition decode_i8 (bytes : list Z) : result (DecodedData Z) := decode_sint 1 bytes.
Definition encode_i16 (data : Z) : list Z := to_be_bytes 2 data.
Definition decode_i16 (bytes : list Z) : result (DecodedData Z) := decode_sint 2 bytes.
Definition encode_i32 (data : Z) : list Z := to_be_bytes 4 data.
Definition decode_i32 (bytes : list Z) : result (DecodedData Z) := decode_sint 4 bytes.
Definition encode_i64 (data : Z) : list Z := to_be_bytes 8 data.
Definition decode_i64 (bytes : list Z) : result (DecodedData Z) := decode_sint 8 bytes.

Definition encode_f32 (data : Z) : list Z := to_be_bytes 4 data.
Definition decode_f32 (bytes : list Z) : result (DecodedData Z) := decode_uint 4 bytes.
Definition encode_f64 (data : Z) : list Z := to_be_bytes 8 data.
Definition decode_f64 (bytes : list Z) : result (DecodedData Z) := decode_uint 8 bytes.

Definition encode_string (data : string) : list Z := string_bytes data.

Definition decode_string (bytes : list Z) : result (DecodedData string) :=
  if utf8_valid bytes then Ok (bytes_string bytes, length bytes)
  else Err (Storage "Failed to decode string {}").

(** ** Byte conversions *)
Lemma to_be_bytes_length n z : length (to_be_bytes n z) = n.
Proof. induction n; simpl; auto. Qed.

Lemma to_be_bytes_ok n z : Forall byte_ok (to_be_bytes n z).
Proof.
  induction n; simpl; constructor; [|done].
  unfold byte_ok. apply Z.mod_pos_bound. lia.
Qed.

Lemma foldl_be_bytes acc l :
  foldl (λ acc b, acc * 256 + b) acc l
  = acc * 2 ^ (8 * Z.of_nat (length l)) + of_be_bytes l.
Proof.
  revert acc. induction l as [|b l IH]; intros acc.
  { unfold of_be_bytes. simpl. lia. }
  cbn [foldl length]. rewrite IH. unfold of_be_bytes at 2. cbn [foldl]. rewrite IH.
  rewrite Nat2Z.inj_succ.
  replace (8 * Z.succ (Z.of_nat (length l))) with (8 + 8 * Z.of_nat (length l)) by lia.
  rewrite Z.pow_add_r by lia. change (2 ^ 8) with 256. ring.
Qed.

Lemma of_be_bytes_cons b l :
  of_be_bytes (b :: l) = b * 2 ^ (8 * Z.of_nat (length l)) + of_be_bytes l.
Proof. unfold of_be_bytes at 1. cbn [foldl]. rewrite foldl_be_bytes. lia. Qed.

Lemma of_be_bytes_range l :
  Forall byte_ok l → unsigned_ok (8 * Z.of_nat (length l)) (of_be_bytes l).
Proof.
  unfold unsigned_ok. induction 1 as [|b l Hb Hl IH].
  { unfold of_be_bytes. simpl. lia. }
  rewrite of_be_bytes_cons. simpl length. rewrite Nat2Z.inj_succ.
  replace (8 * Z.succ (Z.of_nat (length l))) with (8 + 8 * Z.of_nat (length l)) by lia.
  rewrite Z.pow_add_r by lia. change (2 ^ 8) with 256. unfold byte_ok in Hb. nia.
Qed.

Lemma of_to_be_bytes n z : of_be_bytes (to_be_bytes n z) = z `mod` 2 ^ (8 * Z.of_nat n).
Proof.
  induction n as [|n IH]; [by rewrite Z.mod_1_r|].
  simpl to_be_bytes. rewrite of_be_bytes_cons, to_be_bytes_length, IH.
  rewrite Nat2Z.inj_succ.
  replace (8 * Z.succ (Z.of_nat n)) with (8 * Z.of_nat n + 8) by lia.
  rewrite Z.pow_add_r by lia. change (2 ^ 8) with 256.
  pose proof (Z.pow_pos_nonneg 2 (8 * Z.of_nat n)) as Hp.
  rewrite Z.rem_mul_r by lia. lia.
Qed.

Lemma of_be_bytes_inj l k :
  Forall byte_ok l → Forall byte_ok k → length l = length k →
  of_be_bytes l = of_be_bytes k → l = k.
Proof.
  intros Hl. revert k. induction Hl as [|b l Hb Hl IH]; intros [|c k] Hk Hlen Heq;
    try done.
  inversion Hk as [|?? Hc Hk']; subst. simpl in Hlen. injection Hlen as Hlen.
  rewrite !of_be_bytes_cons in Heq. rewrite Hlen in Heq.
  pose proof (of_be_bytes_range l Hl) as Hr1. pose proof (of_be_bytes_range k Hk') as Hr2.
  unfold unsigned_ok in *. rewrite Hlen in Hr1.
  assert (b = c) as -> by nia.
  f_equal. apply IH; [done..|]. lia.
Qed.

Lemma to_of_be_bytes l :
  Forall byte_ok l → to_be_bytes (length l) (of_be_bytes l) = l.
Proof.
  intros H. apply of_be_bytes_inj; [apply to_be_bytes_ok|done|apply to_be_bytes_length|].
  rewrite of_to_be_bytes, Z.mod_small; [done|]. by apply of_be_bytes_range.
Qed.

(** ** Strings as bytes *)
Lemma string_bytes_ok s : Forall byte_ok (string_bytes s).
Proof.
  induction s as [|a s IH]; simpl; constructor; [|done].
  unfold byte_ok, byte_of_ascii. pose proof (Ascii.N_ascii_bounded a). lia.
Qed.

Lemma bytes_string_bytes s : bytes_string (string_bytes s) = s.
Proof.
  induction s as [|a s IH]; simpl; [done|]. rewrite IH. f_equal.
  unfold ascii_of_byte, byte_of_ascii. rewrite N2Z.id. apply Ascii.ascii_N_embedding.
Qed.

Lemma string_bytes_string bs : Forall byte_ok bs → string_bytes (bytes_string bs) = bs.
Proof.
  induction 1 as [|b bs Hb _ IH]; simpl; [done|]. rewrite IH. f_equal.
  unfold ascii_of_byte, byte_of_ascii, byte_ok in *.
  rewrite Ascii.N_ascii_embedding by lia. lia.
Qed.

(** ** Round trips

    Each decoder applied to an encoding followed by any further bytes returns
    the value and the number of bytes of the encoding. *)
Lemma decode_uint_app n z rest :
  unsigned_ok (8 * Z.of_nat n) z →
  decode_uint n (to_be_bytes n z ++ rest) = Ok (z, n).
Proof.
  intros Hz. unfold decode_uint.
  rewrite length_app, to_be_bytes_length.
  rewrite (proj2 (Nat.ltb_ge _ _)) by lia.
  rewrite take_app_length' by (by rewrite to_be_bytes_length).
  by rewrite of_to_be_bytes, Z.mod_small.
Qed.

Lemma decode_sint_app n z rest :
  (0 < n)%nat → signed_ok (8 * Z.of_nat n) z →
  decode_sint n (to_be_bytes n z ++ rest) = Ok (z, n).
Proof.
  intros Hn Hz. unfold decode_sint.
  rewrite length_app, to_be_bytes_length.
  rewrite (proj2 (Nat.ltb_ge _ _)) by lia.
  rewrite take_app_length' by (by rewrite to_be_bytes_length).
  rewrite of_to_be_bytes, to_signed_mod by lia. by rewrite to_signed_small by (done || lia).
Qed.

Lemma decode_u8_app z rest :
  unsigned_ok 8 z → decode_u8 (encode_u8 z ++ rest) = Ok (z, 1%nat).
Proof. apply (decode_uint_app 1). Qed.

Lemma decode_i8_app z rest :
  signed_ok 8 z → decode_i8 (encode_i8 z ++ rest) = Ok (z, 1%nat).
Proof. apply (decode_sint_app 1). lia. Qed.

Lemma decode_u16_app z rest :
  unsigned_ok 16 z → decode_u16 (encode_u16 z ++ rest) = Ok (z, 2%nat).
Proof. apply (decode_uint_app 2). Qed.

Lemma decode_i16_app z rest :
  signed_ok 16 z → decode_i16 (encode_i16 z ++ rest) = Ok (z, 2%nat).
Proof. apply (decode_sint_app 2). lia. Qed.

Lemma decode_u32_app z rest :
  unsigned_ok 32 z → decode_u32 (encode_u32 z ++ rest) = Ok (z, 4%nat).
Proof. apply (decode_uint_app 4). Qed.

Lemma decode_i32_app z rest :
  signed_ok 32 z → decode_i32 (encode_i32 z ++ rest) = Ok (z, 4%nat).
Proof. apply (decode_sint_app 4). lia. Qed.

Lemma decode_u64_app z rest :
  unsigned_ok 64 z → decode_u64 (encode_u64 z ++ rest) = Ok (z, 8%nat).
Proof. apply (decode_uint_app 8). Qed.

Lemma decode_i64_app z rest :
  signed_ok 64 z → decode_i64 (encode_i64 z ++ rest) = Ok (z, 8%nat).
Proof. apply (decode_sint_app 8). lia. Qed.

Lemma decode_f32_app z rest :
  unsigned_ok 32 z → decode_f32 (encode_f32 z ++ rest) = Ok (z, 4%nat).
Proof. apply (decode_uint_app 4). Qed.

Lemma decode_f64_app z rest :
  unsigned_ok 64 z → decode_f64 (encode_f64 z ++ rest) = Ok (z, 8%nat).
Proof. apply (decode_uint_app 8). Qed.

Lemma decode_bool_app b rest : decode_bool (encode_bool b ++ rest) = Ok (b, 1%nat).
Proof. by destruct b. Qed.

Lemma decode_string_encode s :
  utf8_valid (string_bytes s) = true →
  decode_string (encode_string s) = Ok (s, length (string_bytes s)).
Proof. intros H. unfold decode_string, encode_string. by rewrite H, bytes_string_bytes. Qed.

(** ** Inversion: what a successful decoding says of the bytes *)
Lemma decode_uint_Ok_inv n bytes z off :
  decode_uint n bytes = Ok (z, off) →
  (n ≤ length bytes)%nat ∧ off = n ∧ z = of_be_bytes (take n bytes).
Proof.
  unfold decode_uint. case_match eqn:H; [done|]. apply Nat.ltb_ge in H. naive_solver.
Qed.

Lemma decode_uint_short n bytes :
  (length bytes < n)%nat → decode_uint n bytes = short_error.
Proof. intros H. unfold decode_uint. by rewrite (proj2 (Nat.ltb_lt _ _) H). Qed.

Lemma decode_uint_no_panic n bytes : decode_uint n bytes ≠ Panic.
Proof. intros H. unfold decode_uint in H. by case_match. Qed.

(** The lengths of the fixed-width encodings. *)
Lemma encode_u8_length z : length (encode_u8 z) = 1%nat.
Proof. done. Qed.
Lemma encode_u16_length z : length (encode_u16 z) = 2%nat.
Proof. done. Qed.
Lemma encode_u32_length z : length (encode_u32 z) = 4%nat.
Proof. done. Qed.
Lemma encode_u64_length z : length (encode_u64 z) = 8%nat.
Proof. done. Qed.
Lemma encode_i8_length z : length (encode_i8 z) = 1%nat.
Proof. done. Qed.
Lemma encode_i16_length z : length (encode_i16 z) = 2%nat.
Proof. done. Qed.
Lemma encode_i32_length z : length (encode_i32 z) = 4%nat.
Proof. done. Qed.
Lemma encode_i64_length z : length (encode_i64 z) = 8%nat.
Proof. done. Qed.
Lemma encode_f32_length z : length (encode_f32 z) = 4%nat.
Proof. done. Qed.
Lemma encode_f64_length z : length (encode_f64 z) = 8%nat.
Proof. done. Qed.
Lemma encode_bool_length b : length (encode_bool b) = 1%nat.
Proof. by destruct b. Qed.

(** From here on the encodings are used through these lemmas only. *)
#[global] Opaque encode_bool encode_u8 encode_u16 encode_u32 encode_u64
  encode_i8 encode_i16 encode_i32 encode_i64 encode_f32 encode_f64
  decode_bool decode_u8 decode_u16 decode_u32 decode_u64
  decode_i8 decode_i16 decode_i32 decode_i64 decode_f32 decode_f64.

(** [codec] rewrites a decoder applied to the matching encoding. *)
Create Rewrite HintDb codec.
#[export] Hint Rewrite decode_u8_app decode_u16_app decode_u32_app decode_u64_app
  decode_i8_app decode_i16_app decode_i32_app decode_i64_app
  decode_f32_app decode_f64_app decode_bool_app using done : codec.

Create Rewrite HintDb codec_length.
#[export] Hint Rewrite encode_u8_length encode_u16_length encode_u32_length
  encode_u64_length encode_i8_length encode_i16_length encode_i32_length encode_i64_length
  encode_f32_length encode_f64_length encode_bool_length @length_app : codec_length.

(** Runs a decoder on the concatenation of the encodings it reads: each primitive
    decoder is rewritten on its encoding, then the slice after it is taken. *)
Ltac decode_steps :=
  repeat first
    [ progress (autorewrite with codec; cbn [mbind result_bind])
    | rewrite slice_from_app by (autorewrite with codec_length; done);
      cbn [mbind result_bind] ].

(** The bytes consumed, at the end of a decoder. *)
Ltac decode_consumed :=
  rewrite usub_Ok by (autorewrite with codec_length; lia);
  cbn [mbind result_bind]; do 2 f_equal; autorewrite with codec_length; lia.
