(* ===== verification/Floats.v ===== *)
(** * Floats: IEEE-754 values by their bit patterns

    The [f32] and [f64] operations of the standard library the engine uses:
    [as] casts, [total_cmp], addition and division. A float is its bit pattern
    ([to_bits]); arithmetic goes through [SpecFloat], the specification of IEEE-754
    arithmetic of the Rocq standard library. The bit pattern of a NaN
    produced by a cast or an operation is left unspecified by Rust; here it is the
    positive quiet NaN. *)
From Stdlib Require Import SpecFloat.
From S2P Require Import Prelude.
Local Open Scope Z_scope.

(** A format: [fw] fraction bits and [ew] exponent bits. *)
Record float_format := FloatFormat { fw : Z; ew : Z }.
Definition f32_format : float_format := FloatFormat 23 8.
Definition f64_format : float_format := FloatFormat 52 11.

Section format.
Context (fmt : float_format).

Definition float_width : Z := 1 + ew fmt + fw fmt.
Definition float_prec : Z := fw fmt + 1.
Definition float_emax : Z := 2 ^ (ew fmt - 1).
Definition float_emin : Z := 3 - float_emax - float_prec.

Definition sign_bit (s : bool) : Z := if s then 2 ^ (float_width - 1) else 0.

(** [to_bits] *)
Definition float_to_bits (x : spec_float) : Z :=
  match x with
  | S754_zero s => sign_bit s
  | S754_infinity s => sign_bit s + (2 ^ ew fmt - 1) * 2 ^ fw fmt
  | S754_nan => (2 ^ ew fmt - 1) * 2 ^ fw fmt + 2 ^ (fw fmt - 1)
  | S754_finite s m e =>
      if Z.pos m <? 2 ^ fw fmt then sign_bit s + Z.pos m
      else sign_bit s + (e - float_emin + 1) * 2 ^ fw fmt + (Z.pos m - 2 ^ fw fmt)
  end.

(** [from_bits] *)
Definition float_of_bits (b : Z) : spec_float :=
  let s := Z.testbit b (float_width - 1) in
  let e := (b / 2 ^ fw fmt) `mod` 2 ^ ew fmt in
  let f := b `mod` 2 ^ fw fmt in
  if e =? 2 ^ ew fmt - 1 then (if f =? 0 then S754_infinity s else S754_nan)
  else if e =? 0 then
    match f with Z.pos m => S754_finite s m float_emin | _ => S754_zero s end
  else
    match f + 2 ^ fw fmt with
    | Z.pos m => S754_finite s m (e - 1 + float_emin)
    | _ => S754_nan
    end.

(** [i as fN]: round to nearest, ties to even. *)
Definition float_of_int (i : Z) : Z :=
  float_to_bits (binary_normalize float_prec float_emax i 0 false).

Definition float_add (a b : Z) : Z :=
  float_to_bits (SFadd float_prec float_emax (float_of_bits a) (float_of_bits b)).

Definition float_div (a b : Z) : Z :=
  float_to_bits (SFdiv float_prec float_emax (float_of_bits a) (float_of_bits b)).

(** [total_cmp]: the sign-magnitude pattern as a two's complement integer, then
    integer comparison. *)
Definition total_key (b : Z) : Z :=
  let s := to_signed float_width b in
  if s <? 0 then Z.lxor s (2 ^ (float_width - 1) - 1) else s.

Definition total_cmp (a b : Z) : comparison := total_key a ?= total_key b.
End format.

(** [x as f32] for [x : f64]: rounded to the narrower format. *)
Definition f32_of_f64 (b : Z) : Z :=
  float_to_bits f32_format
    match float_of_bits f64_format b with
    | S754_finite s m e =>
        binary_normalize (float_prec f32_format) (float_emax f32_format)
          (if s then Z.neg m else Z.pos m) e s
    | x => x
    end.

Definition f32_of_int : Z → Z := float_of_int f32_format.
Definition f64_of_int : Z → Z := float_of_int f64_format.
Definition f64_add : Z → Z → Z := float_add f64_format.
Definition f64_div : Z → Z → Z := float_div f64_format.

(** ** Checks on known bit patterns *)
Example f32_one : f32_of_int 1 = 0x3F800000.
Proof. reflexivity. Qed.
Example f64_minus_two : f64_of_int (-2) = 0xC000000000000000.
Proof. reflexivity. Qed.
Example f32_of_i64_rounds : f32_of_int 16777217 = f32_of_int 16777216.
Proof. reflexivity. Qed.
Example f64_ten_div_four : f64_div (f64_of_int 10) (f64_of_int 4) = 0x4004000000000000.
Proof. reflexivity. Qed.
Example f32_of_f64_third : f32_of_f64 0x3FD5555555555555 = 0x3EAAAAAB.
Proof. reflexivity. Qed.
Example f64_small_sum : f64_add 0x3FB999999999999A 0x3FC999999999999A = 0x3FD3333333333334.
Proof. reflexivity. Qed.

(** ** [total_cmp] is a total order on bit patterns *)
Lemma lxor_ones_neg k s :
  0 ≤ k → - 2 ^ k ≤ s < 0 → Z.lxor s (2 ^ k - 1) = - s - 1 - 2 ^ k.
Proof.
  intros Hk Hs.
  replace (2 ^ k - 1) with (Z.ones k) by (rewrite Z.ones_equiv; lia).
  replace (- s - 1 - 2 ^ k) with (Z.lnot (s + 2 ^ k)) by (unfold Z.lnot; lia).
  assert (s + 2 ^ k = Z.land s (Z.ones k)) as ->.
  { rewrite Z.land_ones by lia. apply Z.mod_unique with (-1); lia. }
  apply Z.bits_inj'. intros n Hn.
  rewrite Z.lnot_spec, Z.lxor_spec, Z.land_spec by lia.
  destruct (Z.ltb_spec n k).
  - rewrite Z.ones_spec_low by lia. by destruct (Z.testbit s n).
  - rewrite Z.ones_spec_high by lia.
    assert (Z.testbit s n = true) as ->; [|done].
    destruct (decide (s = -1)) as [->|]; [by apply Z.bits_m1|].
    apply Z.bits_above_log2_neg; [lia|].
    apply Z.lt_le_trans with k; [|lia]. apply Z.log2_lt_pow2; lia.
Qed.

Lemma total_key_inj fmt a b :
  0 < float_width fmt →
  unsigned_ok (float_width fmt) a → unsigned_ok (float_width fmt) b →
  total_key fmt a = total_key fmt b → a = b.
Proof.
  intros Hw Ha Hb. unfold total_key.
  pose proof (to_signed_range (float_width fmt) a Hw) as Ra.
  pose proof (to_signed_range (float_width fmt) b Hw) as Rb.
  unfold signed_ok in *.
  assert (Heq : to_signed (float_width fmt) a = to_signed (float_width fmt) b → a = b).
  { intros H. apply (f_equal (wrap (float_width fmt))) in H.
    rewrite !wrap_to_signed, !wrap_small in H by done. done. }
  destruct (Z.ltb_spec (to_signed (float_width fmt) a) 0),
    (Z.ltb_spec (to_signed (float_width fmt) b) 0);
    rewrite ?lxor_ones_neg by lia; intros; apply Heq; lia.
Qed.

(** ** Casts give bit patterns of the width of the format *)

(** A float of a format: below the precision, between the exponents. *)
Definition in_format (fmt : float_format) (x : spec_float) : Prop :=
  match x with
  | S754_finite _ m e =>
      Z.pos m < 2 ^ float_prec fmt ∧ float_emin fmt ≤ e ≤ float_emax fmt - float_prec fmt
  | _ => True
  end.

Lemma digits2_bound m : Z.pos m < 2 ^ Z.pos (digits2_pos m).
Proof.
  induction m as [m IH|m IH|]; cbn [digits2_pos]; [| |done];
    rewrite Pos2Z.inj_succ, Z.pow_succ_r by lia; lia.
Qed.

Lemma shr_1_div mrs : 0 ≤ shr_m mrs → shr_m (shr_1 mrs) = shr_m mrs / 2.
Proof.
  destruct mrs as [[|[p|p|]|p] r s]; simpl; intros Hm; try done.
  - rewrite (Pos2Z.inj_xI p), Z.mul_comm, Z.add_comm, Z.div_add by done. done.
  - rewrite (Pos2Z.inj_xO p), Z.mul_comm, Z.div_mul by done. done.
Qed.

Lemma iter_shr_div n : ∀ mrs, 0 ≤ shr_m mrs → shr_m (SpecFloat.iter_pos shr_1 n mrs) = shr_m mrs / 2 ^ Z.pos n.
Proof.
  induction n as [n IH|n IH|]; intros mrs Hm; cbn [SpecFloat.iter_pos].
  - assert (0 ≤ shr_m (shr_1 mrs)) as H1 by (rewrite shr_1_div by done; by apply Z.div_pos).
    rewrite IH, IH, shr_1_div by (rewrite ?IH by done; first [done | apply Z.div_pos; lia]).
    rewrite !Z.div_div by lia. f_equal. rewrite (Pos2Z.inj_xI n), Z.pow_add_r, Z.pow_twice_r by lia. lia.
  - rewrite IH, IH by (rewrite ?IH by done; first [done | apply Z.div_pos; lia]).
    rewrite Z.div_div by lia. f_equal. by rewrite (Pos2Z.inj_xO n), Z.pow_twice_r.
  - by rewrite shr_1_div.
Qed.

(** A shift to the precision. *)
Lemma shr_fexp_bound prec emax m e l :
  0 < prec → 0 ≤ m → let '(mrs, e') := shr_fexp prec emax m e l in
  0 ≤ shr_m mrs < 2 ^ prec ∧ emin prec emax ≤ e'.
Proof.
  intros Hp Hm. unfold shr_fexp, shr.
  assert (shr_m (shr_record_of_loc m l) = m) as Hr by (by destruct l as [|[]]).
  assert (m < 2 ^ Zdigits2 m ∧ 0 ≤ Zdigits2 m) as [Hd Hd0]
    by (destruct m as [|p|p]; [done|split; [apply digits2_bound|done]|lia]).
  destruct (fexp prec emax (Zdigits2 m + e) - e) as [|n|n] eqn:Hn; unfold fexp in Hn; rewrite ?iter_shr_div, Hr by (by rewrite Hr).
  1,3: split; [|lia]; split; [done|]; eapply Z.lt_le_trans; [exact Hd|]; apply Z.pow_le_mono_r; lia.
  split; [|lia]. split; [by apply Z.div_pos; lia|]. apply Z.div_lt_upper_bound; [lia|].
  rewrite <- Z.pow_add_r by lia. eapply Z.lt_le_trans; [exact Hd|]. apply Z.pow_le_mono_r; lia.
Qed.

Lemma round_even_pos m l : 0 ≤ m → 0 ≤ round_nearest_even m l.
Proof. intros Hm. destruct l as [|[]]; simpl; [lia| |lia|lia]. destruct (Z.even m); lia. Qed.

Section cast.
Context (fmt : float_format) (Hfw : 0 < fw fmt).

Lemma binary_round_in_format s m e :
  in_format fmt (binary_round_aux (float_prec fmt) (float_emax fmt) s (Z.pos m) e loc_Exact).
Proof using Hfw.
  unfold binary_round_aux.
  pose proof (shr_fexp_bound (float_prec fmt) (float_emax fmt) (Z.pos m) e loc_Exact) as H1.
  destruct (shr_fexp _ _ (Z.pos m) e loc_Exact) as [mrs e1].
  destruct H1 as [[H1 _] _]; [unfold float_prec; lia|lia|].
  pose proof (shr_fexp_bound (float_prec fmt) (float_emax fmt)
    (round_nearest_even (shr_m mrs) (loc_of_shr_record mrs)) e1 loc_Exact) as H2.
  destruct (shr_fexp _ _ (round_nearest_even _ _) e1 loc_Exact) as [mrs2 e2].
  destruct H2 as [[H2 H3] H4]; [unfold float_prec; lia|by apply round_even_pos|].
  destruct (shr_m mrs2) as [|m2|m2]; [done| |done].
  destruct (Z.leb_spec e2 (float_emax fmt - float_prec fmt)); [|done].
  split; [done|]. split; [|done]. exact H4.
Qed.

Lemma normalize_in_format m e s :
  in_format fmt (binary_normalize (float_prec fmt) (float_emax fmt) m e s).
Proof using Hfw.
  destruct m as [|m|m]; simpl; [done|..]; unfold binary_round;
    destruct (shl_align _ _ _); apply binary_round_in_format.
Qed.

Lemma float_to_bits_range x :
  0 < ew fmt → in_format fmt x → unsigned_ok (float_width fmt) (float_to_bits fmt x).
Proof using Hfw.
  intros Hew Hx. unfold unsigned_ok, float_to_bits.
  assert (2 ^ float_width fmt = 2 * (2 ^ ew fmt * 2 ^ fw fmt)) as Hw.
  { unfold float_width. rewrite !Z.pow_add_r by lia. lia. }
  assert (∀ s, sign_bit fmt s = 0 ∨ sign_bit fmt s = 2 ^ ew fmt * 2 ^ fw fmt) as Hs.
  { intros []; [right|by left]. unfold sign_bit, float_width.
    replace (1 + ew fmt + fw fmt - 1) with (ew fmt + fw fmt) by lia. by rewrite Z.pow_add_r by lia. }
  assert (2 ^ fw fmt = 2 * 2 ^ (fw fmt - 1)) as Hf by (rewrite <- Z.pow_succ_r by lia; f_equal; lia).
  assert (2 ^ ew fmt = 2 * 2 ^ (ew fmt - 1)) as He by (rewrite <- Z.pow_succ_r by lia; f_equal; lia).
  assert (0 < 2 ^ (fw fmt - 1) ∧ 0 < 2 ^ (ew fmt - 1)) as [Hf0 He0] by (split; apply Z.pow_pos_nonneg; lia).
  destruct x as [s|s| |s m e]; rewrite ?Hw.
  - specialize (Hs s). nia.
  - specialize (Hs s). nia.
  - nia.
  - destruct Hx as [Hm [Hlo Hhi]]. unfold float_emin, float_emax, float_prec in *.
    rewrite Z.pow_add_r in Hm by lia. specialize (Hs s).
    destruct (Z.ltb_spec (Z.pos m) (2 ^ fw fmt)); nia.
Qed.

End cast.

Lemma f32_of_int_range i : unsigned_ok 32 (f32_of_int i).
Proof. apply (float_to_bits_range f32_format); [done..|]. by apply normalize_in_format. Qed.

Lemma f64_of_int_range i : unsigned_ok 64 (f64_of_int i).
Proof. apply (float_to_bits_range f64_format); [done..|]. by apply normalize_in_format. Qed.

Lemma f32_of_f64_range b : unsigned_ok 32 (f32_of_f64 b).
Proof.
  apply (float_to_bits_range f32_format); [done..|].
  destruct (float_of_bits f64_format b) as [s|s| |s m e]; [done..|]. by apply normalize_in_format.
Qed.
