(* ===== verification/Text.v ===== *)
(** * Text: numbers as text

    The printing and parsing of the standard library that the engine uses: [Display] of
    integers and floats, [str::parse] to [i64] and to [f64], [eq_ignore_ascii_case],
    [split] at a comma and [trim], of ASCII white space. *)
From Stdlib Require Import SpecFloat Ascii.
From stdpp Require Export pretty.
From S2P Require Import Prelude CommonCodec Floats.
Local Open Scope Z_scope.

(** ** Characters *)
Module Text.

Definition to_lower (c : ascii) : ascii :=
  let n := nat_of_ascii c in
  if ((65 <=? n) && (n <=? 90))%nat then ascii_of_nat (n + 32) else c.

Fixpoint map_string (f : ascii → ascii) (s : string) : string :=
  match s with EmptyString => EmptyString | String c s' => String (f c) (map_string f s') end.

Definition eq_ignore_ascii_case (a b : string) : bool :=
  String.eqb (map_string to_lower a) (map_string to_lower b).

Definition is_space (c : ascii) : bool :=
  let n := nat_of_ascii c in (n =? 32)%nat || ((9 <=? n) && (n <=? 13))%nat.

Fixpoint trim_start (s : string) : string :=
  match s with
  | String c s' => if is_space c then trim_start s' else s
  | EmptyString => EmptyString
  end.

Fixpoint trim_end (s : string) : string :=
  match s with
  | String c s' =>
      match trim_end s' with
      | EmptyString => if is_space c then EmptyString else String c EmptyString
      | t => String c t
      end
  | EmptyString => EmptyString
  end.

Definition trim (s : string) : string := trim_end (trim_start s).

(** [s.split(",")]: [n] commas make [n + 1] parts. *)
Fixpoint split_comma (s : string) : list string :=
  match s with
  | EmptyString => [EmptyString]
  | String c s' =>
      match split_comma s' with
      | part :: parts =>
          if Ascii.eqb c ","%char then EmptyString :: part :: parts else String c part :: parts
      | [] => [String c EmptyString]
      end
  end.

(** ** Digits *)
Definition digit (c : ascii) : option Z :=
  let n := nat_of_ascii c in
  if ((48 <=? n) && (n <=? 57))%nat then Some (Z.of_nat n - 48) else None.

(** The digits at the start of a string: the number they add to [acc], how many there
    are, and the rest. *)
Fixpoint digits (s : string) (acc : Z) (n : nat) : Z * nat * string :=
  match s with
  | String c s' =>
      match digit c with
      | Some d => digits s' (10 * acc + d) (S n)
      | None => (acc, n, s)
      end
  | EmptyString => (acc, n, s)
  end.

(** A sign at the start: is it negative, and the rest. *)
Definition sign (s : string) : bool * string :=
  match s with
  | String "-" s' => (true, s')
  | String "+" s' => (false, s')
  | _ => (false, s)
  end.

(** [s.parse::<i64>()] *)
Definition parse_i64 (s : string) : option Z :=
  let '(negative, s) := sign s in
  match digits s 0 0 with
  | (n, S _, EmptyString) =>
      let z := if negative : bool then - n else n in
      if (- 2 ^ 63 <=? z) && (z <? 2 ^ 63) then Some z else None
  | _ => None
  end.

(** ** Floats *)

(** The float nearest to [m * 10 ^ e], ties to even. *)
Definition float_of_decimal (fmt : float_format) (negative : bool) (m e : Z) : Z :=
  let prec := float_prec fmt in
  let emax := float_emax fmt in
  float_to_bits fmt
    match m with
    | Zpos _ =>
        if 0 <=? e then binary_normalize prec emax ((if negative then -1 else 1) * m * 10 ^ e) 0 negative
        else let '(q, e', l) := SFdiv_core_binary prec emax m 0 (10 ^ (- e)) 0 in
             binary_round_aux prec emax negative q e' l
    | _ => S754_zero negative
    end.

(** The exponent of a decimal number: none is 0. *)
Definition parse_exponent (s : string) : option Z :=
  match s with
  | EmptyString => Some 0
  | String c s' =>
      if Ascii.eqb (to_lower c) "e"%char then
        let '(negative, s') := sign s' in
        match digits s' 0 0 with
        | (n, S _, EmptyString) => Some (if negative : bool then - n else n)
        | _ => None
        end
      else None
  end.

(** [s.parse::<f64>()], as its bit pattern. *)
Definition parse_f64 (s : string) : option Z :=
  let '(negative, s) := sign s in
  let '(m, n, rest) := digits s 0 0 in
  let '(m, k, rest) := match rest with
                       | String "." rest' => digits rest' m 0
                       | _ => (m, 0%nat, rest)
                       end in
  if (0 <? n + k)%nat then
    e ← parse_exponent rest; Some (float_of_decimal f64_format negative m (e - Z.of_nat k))
  else if eq_ignore_ascii_case s "nan" then Some (float_to_bits f64_format S754_nan)
  else if eq_ignore_ascii_case s "inf" || eq_ignore_ascii_case s "infinity"
  then Some (float_to_bits f64_format (S754_infinity negative))
  else None.

(** *** Display of a float: the shortest decimal digits that read back as it

    A positive float is [mant / scale * 10 ^ k], below [10 ^ k]; the floats next to it
    are half a step further than [minus / scale] below and [plus / scale] above. *)
Section shortest.
Context (inclusive : bool).

Definition within (a b : Z) : bool := if inclusive then a <=? b else a <? b.

(** The digits one by one, until those so far, or one more in the last place, are
    within the interval: the number they make, and how many there are. *)
Fixpoint shortest_digits (fuel : nat) (mant scale minus plus acc : Z) (n : nat) : Z * nat :=
  let mant := 10 * mant in
  let minus := 10 * minus in
  let plus := 10 * plus in
  let acc := 10 * acc + mant / scale in
  let rest := mant `mod` scale in
  let down := within rest minus in
  let up := within scale (rest + plus) in
  match fuel with
  | S fuel' =>
      if down || up
      then (if up && (negb down || (scale <=? 2 * rest)) then acc + 1 else acc, S n)
      else shortest_digits fuel' rest scale minus plus acc (S n)
  | O => (acc, S n)
  end.

(** Is [mant / scale] below [10 ^ k], or at most that? *)
Definition below (k mant scale : Z) : bool :=
  let a := mant * 10 ^ Z.max 0 (- k) in
  let b := scale * 10 ^ Z.max 0 k in
  if inclusive then a <? b else a <=? b.

(** The least such [k] from [k] on. *)
Fixpoint find_scale (fuel : nat) (k mant scale : Z) : Z :=
  match fuel with
  | S fuel' => if below k mant scale then k else find_scale fuel' (k + 1) mant scale
  | O => k
  end.
End shortest.

(** The decimal digits [d] and the power [k] of a float [m * 2 ^ e]: it prints as
    [0.d * 10 ^ k]. The float below a power of two is only half a step away. *)
Definition shortest (fmt : float_format) (m e : Z) : Z * nat * Z :=
  let subnormal := m <? 2 ^ fw fmt in
  let boundary := m =? 2 ^ fw fmt in
  let inclusive := subnormal || Z.even m in
  let '(mant, plus, e) := if boundary then (4 * m, 2, e - 2) else (2 * m, 1, e - 1) in
  let up := 2 ^ Z.max 0 e in
  let scale := 2 ^ Z.max 0 (- e) in
  let k := find_scale inclusive 800 (-400) ((mant + plus) * up) scale in
  let pow := 10 ^ Z.max 0 (- k) in
  let '(d, n) := shortest_digits inclusive 20 (mant * up * pow) (scale * 10 ^ Z.max 0 k)
                   (up * pow) (plus * up * pow) 0 0 in
  (d, n, k).

Fixpoint zeros (n : nat) : string :=
  match n with O => EmptyString | S n' => String "0" (zeros n') end.

(** [n] digits of [d], with the decimal point after the first [k] of them. *)
Definition show_digits (d : Z) (n : nat) (k : Z) : string :=
  let s := pretty d in
  let s := (zeros (n - String.length s) +:+ s)%string in
  let len := Z.of_nat (String.length s) in
  let k := k + (len - Z.of_nat n) in
  if k <=? 0 then "0." +:+ zeros (Z.to_nat (- k)) +:+ s
  else if k <? len
  then String.substring 0 (Z.to_nat k) s +:+ "." +:+ String.substring (Z.to_nat k) (Z.to_nat (len - k)) s
  else s +:+ zeros (Z.to_nat (k - len)).

(** [Display] of a float given by its bit pattern. *)
Definition show_float (fmt : float_format) (b : Z) : string :=
  let minus (s : bool) := if s then "-"%string else ""%string in
  match float_of_bits fmt b with
  | S754_nan => "NaN"
  | S754_infinity s => minus s +:+ "inf"
  | S754_zero s => minus s +:+ "0"
  | S754_finite s m e => let '(d, n, k) := shortest fmt (Z.pos m) e in minus s +:+ show_digits d n k
  end.

Definition show_f32 : Z → string := show_float f32_format.
Definition show_f64 : Z → string := show_float f64_format.

Definition show_bool (b : bool) : string := if b then "true" else "false".

End Text.

(** ** Checks *)
Module TextExamples.
Import Text.

Example parse_i64_limits :
  parse_i64 "9223372036854775807" = Some (2 ^ 63 - 1) ∧ parse_i64 "9223372036854775808" = None ∧
  parse_i64 "-007" = Some (-7) ∧ parse_i64 "" = None ∧ parse_i64 "+" = None ∧ parse_i64 "1 " = None.
Proof. done. Qed.

Example parse_f64_values :
  parse_f64 "0.1" = Some 0x3FB999999999999A ∧ parse_f64 "1e23" = Some 0x44B52D02C7E14AF6 ∧
  parse_f64 "-2." = Some (f64_of_int (-2)) ∧ parse_f64 ".5E+1" = Some (f64_of_int 5) ∧
  parse_f64 "4.9e-324" = Some 1 ∧ parse_f64 "1e400" = parse_f64 "Infinity" ∧
  parse_f64 "." = None ∧ parse_f64 "1e" = None.
Proof. vm_compute. done. Qed.

Example show_f64_values :
  show_f64 0x3FB999999999999A = "0.1" ∧ show_f64 (f64_of_int (-25)) = "-25" ∧
  show_f64 0x44B52D02C7E14AF6 = "100000000000000000000000" ∧
  show_f64 0x3FF8000000000000 = "1.5" ∧ show_f64 (2 ^ 63) = "-0" ∧
  show_f64 0x3FD5555555555555 = "0.3333333333333333" ∧ show_f32 0x3EAAAAAB = "0.33333334" ∧
  show_f64 0x4340000000000000 = "9007199254740992".
Proof. vm_compute. done. Qed.

Example trim_split :
  trim <$> split_comma "a, b c ,,d" = ["a"; "b c"; ""; "d"]%string.
Proof. done. Qed.

Example eq_ignore_case : eq_ignore_ascii_case "Count" "cOUNT" = true.
Proof. done. Qed.

End TextExamples.
