(* ===== verification/Scalar.v ===== *)
(** * Scalar: data types and scalar values

    Models [DataType] of [bustubx/src/catalog/data_type.rs] (the coercion used by
    comparisons) and [ScalarValue] of [bustubx/src/common/scalar.rs]: construction,
    type, nullness, casts, equality and order. Integers are [Z] in the range of
    their type, floats are bit patterns ([Floats]), strings are UTF-8 byte strings. *)
From Stdlib Require Import Ascii.
From S2P Require Import Prelude CommonCodec Floats Text.
Local Open Scope Z_scope.

Module DataType.

Inductive t :=
  | Boolean
  | Int8
  | Int16
  | Int32
  | Int64
  | UInt8
  | UInt16
  | UInt32
  | UInt64
  | Float32
  | Float64
  | Varchar (len : option Z).

#[global] Instance eq_dec : EqDecision t.
Proof. solve_decision. Defined.

(** [DataType::comparison_numeric_coercion]; the arms in source order. *)
Definition comparison_numeric_coercion (l r : t) : result t :=
  if decide (l = r) then Ok l else
  match l, r with
  | Float64, _ | _, Float64 => Ok Float64
  | _, Float32 | Float32, _ => Ok Float32
  | Int64, _ | _, Int64
  | UInt64, Int8 | Int8, UInt64
  | UInt64, Int16 | Int16, UInt64
  | UInt64, Int32 | Int32, UInt64
  | UInt32, Int8 | Int8, UInt32
  | UInt32, Int16 | Int16, UInt32
  | UInt32, Int32 | Int32, UInt32 => Ok Int64
  | UInt64, _ | _, UInt64 => Ok UInt64
  | Int32, _ | _, Int32
  | UInt16, Int16 | Int16, UInt16
  | UInt16, Int8 | Int8, UInt16 => Ok Int32
  | UInt32, _ | _, UInt32 => Ok UInt32
  | Int16, _ | _, Int16 | Int8, UInt8 | UInt8, Int8 => Ok Int16
  | UInt16, _ | _, UInt16 => Ok UInt16
  | Int8, _ | _, Int8 => Ok Int8
  | UInt8, _ | _, UInt8 => Ok UInt8
  | _, _ => Err (Internal "Cannot coerce {} and {} for comparison")
  end.

(** [Display] *)
Definition display (self : t) : string :=
  match self with
  | Boolean => "Boolean"
  | Int8 => "Int8"
  | Int16 => "Int16"
  | Int32 => "Int32"
  | Int64 => "Int64"
  | UInt8 => "UInt8"
  | UInt16 => "UInt16"
  | UInt32 => "UInt32"
  | UInt64 => "UInt64"
  | Float32 => "Float32"
  | Float64 => "Float64"
  | Varchar (Some len) => "Varchar(" +:+ pretty len +:+ ")"
  | Varchar None => "Varchar"
  end.

End DataType.

Module ScalarValue.

Inductive t :=
  | Boolean (v : option bool)
  | Int8 (v : option Z)
  | Int16 (v : option Z)
  | Int32 (v : option Z)
  | Int64 (v : option Z)
  | UInt8 (v : option Z)
  | UInt16 (v : option Z)
  | UInt32 (v : option Z)
  | UInt64 (v : option Z)
  | Float32 (v : option Z)
  | Float64 (v : option Z)
  | Varchar (v : option string).

Definition new_empty (data_type : DataType.t) : t :=
  match data_type with
  | DataType.Boolean => Boolean None
  | DataType.Int8 => Int8 None
  | DataType.Int16 => Int16 None
  | DataType.Int32 => Int32 None
  | DataType.Int64 => Int64 None
  | DataType.UInt8 => UInt8 None
  | DataType.UInt16 => UInt16 None
  | DataType.UInt32 => UInt32 None
  | DataType.UInt64 => UInt64 None
  | DataType.Float32 => Float32 None
  | DataType.Float64 => Float64 None
  | DataType.Varchar _ => Varchar None
  end.

Definition data_type (self : t) : DataType.t :=
  match self with
  | Boolean _ => DataType.Boolean
  | Int8 _ => DataType.Int8
  | Int16 _ => DataType.Int16
  | Int32 _ => DataType.Int32
  | Int64 _ => DataType.Int64
  | UInt8 _ => DataType.UInt8
  | UInt16 _ => DataType.UInt16
  | UInt32 _ => DataType.UInt32
  | UInt64 _ => DataType.UInt64
  | Float32 _ => DataType.Float32
  | Float64 _ => DataType.Float64
  | Varchar _ => DataType.Varchar None
  end.

Definition is_none {A} (o : option A) : bool :=
  match o with Some _ => false | None => true end.

Definition is_null (self : t) : bool :=
  match self with
  | Boolean v => is_none v
  | Varchar v => is_none v
  | Int8 v | Int16 v | Int32 v | Int64 v | UInt8 v | UInt16 v | UInt32 v | UInt64 v
  | Float32 v | Float64 v => is_none v
  end.

(** [ScalarValue::cast_to]. The [as] casts between integers truncate to the low
    bits ([wrap], [to_signed]); casts to floats round. *)
Definition cast_to (self : t) (dt : DataType.t) : result t :=
  let error := Err (NotSupport "Failed to cast {:?} to {} type") in
  if decide (data_type self = dt) then Ok self else
  match dt with
  | DataType.Int8 =>
      match self with
      | Int64 v => Ok (Int8 (to_signed 8 <$> v))
      | _ => error
      end
  | DataType.Int16 =>
      match self with
      | Int8 v => Ok (Int16 (to_signed 16 <$> v))
      | Int64 v => Ok (Int16 (to_signed 16 <$> v))
      | _ => error
      end
  | DataType.Int32 =>
      match self with
      | Int8 v => Ok (Int32 (to_signed 32 <$> v))
      | Int64 v => Ok (Int32 (to_signed 32 <$> v))
      | _ => error
      end
  | DataType.Int64 =>
      match self with
      | Int8 v => Ok (Int64 (to_signed 64 <$> v))
      | Int32 v => Ok (Int64 (to_signed 64 <$> v))
      | _ => error
      end
  | DataType.UInt8 =>
      match self with
      | Int8 v => Ok (UInt8 (wrap 8 <$> v))
      | Int64 v => Ok (UInt8 (wrap 8 <$> v))
      | _ => error
      end
  | DataType.UInt16 =>
      match self with
      | Int8 v => Ok (UInt16 (wrap 16 <$> v))
      | Int64 v => Ok (UInt16 (wrap 16 <$> v))
      | _ => error
      end
  | DataType.UInt32 =>
      match self with
      | Int8 v => Ok (UInt32 (wrap 32 <$> v))
      | Int64 v => Ok (UInt32 (wrap 32 <$> v))
      | _ => error
      end
  | DataType.UInt64 =>
      match self with
      | Int8 v => Ok (UInt64 (wrap 64 <$> v))
      | Int64 v => Ok (UInt64 (wrap 64 <$> v))
      | _ => error
      end
  | DataType.Float32 =>
      match self with
      | Int8 v => Ok (Float32 (f32_of_int <$> v))
      | Int64 v => Ok (Float32 (f32_of_int <$> v))
      | Float64 v => Ok (Float32 (f32_of_f64 <$> v))
      | _ => error
      end
  | DataType.Float64 =>
      match self with
      | Int8 v => Ok (Float64 (f64_of_int <$> v))
      | Int32 v => Ok (Float64 (f64_of_int <$> v))
      | Int64 v => Ok (Float64 (f64_of_int <$> v))
      | _ => error
      end
  | DataType.Varchar _ =>
      match self with
      | Int8 v => Ok (Varchar (pretty <$> v))
      | _ => error
      end
  | _ => error
  end.

Definition as_boolean (self : t) : result (option bool) :=
  match self with
  | Boolean v => Ok v
  | _ => Err (Internal "Cannot treat {:?} as boolean")
  end.

(** [PartialEq]: same variant and equal contents; floats by bit pattern. *)
Definition option_eqb {A} (eqb : A → A → bool) (a b : option A) : bool :=
  match a, b with
  | Some x, Some y => eqb x y
  | None, None => true
  | _, _ => false
  end.

Definition eqb (self other : t) : bool :=
  match self, other with
  | Boolean v1, Boolean v2 => option_eqb Bool.eqb v1 v2
  | Int8 v1, Int8 v2 => option_eqb Z.eqb v1 v2
  | Int16 v1, Int16 v2 => option_eqb Z.eqb v1 v2
  | Int32 v1, Int32 v2 => option_eqb Z.eqb v1 v2
  | Int64 v1, Int64 v2 => option_eqb Z.eqb v1 v2
  | UInt8 v1, UInt8 v2 => option_eqb Z.eqb v1 v2
  | UInt16 v1, UInt16 v2 => option_eqb Z.eqb v1 v2
  | UInt32 v1, UInt32 v2 => option_eqb Z.eqb v1 v2
  | UInt64 v1, UInt64 v2 => option_eqb Z.eqb v1 v2
  | Float32 v1, Float32 v2 => option_eqb Z.eqb v1 v2
  | Float64 v1, Float64 v2 => option_eqb Z.eqb v1 v2
  | Varchar v1, Varchar v2 => option_eqb String.eqb v1 v2
  | _, _ => false
  end.

(** [Option::partial_cmp]: [None] is least. *)
Definition option_cmp {A} (cmp : A → A → comparison) (a b : option A) : comparison :=
  match a, b with
  | None, None => Eq
  | None, Some _ => Lt
  | Some _, None => Gt
  | Some x, Some y => cmp x y
  end.

Definition partial_cmp (self other : t) : option comparison :=
  match self, other with
  | Boolean v1, Boolean v2 => Some (option_cmp Bool.compare v1 v2)
  | Int8 v1, Int8 v2 => Some (option_cmp Z.compare v1 v2)
  | Int16 v1, Int16 v2 => Some (option_cmp Z.compare v1 v2)
  | Int32 v1, Int32 v2 => Some (option_cmp Z.compare v1 v2)
  | Int64 v1, Int64 v2 => Some (option_cmp Z.compare v1 v2)
  | UInt8 v1, UInt8 v2 => Some (option_cmp Z.compare v1 v2)
  | UInt16 v1, UInt16 v2 => Some (option_cmp Z.compare v1 v2)
  | UInt32 v1, UInt32 v2 => Some (option_cmp Z.compare v1 v2)
  | UInt64 v1, UInt64 v2 => Some (option_cmp Z.compare v1 v2)
  | Float32 v1, Float32 v2 => Some (option_cmp (total_cmp f32_format) v1 v2)
  | Float64 v1, Float64 v2 => Some (option_cmp (total_cmp f64_format) v1 v2)
  | Varchar v1, Varchar v2 => Some (option_cmp String.compare v1 v2)
  | _, _ => None
  end.

(** [Display] *)
Definition display (self : t) : string :=
  match self with
  | Boolean (Some v) => Text.show_bool v
  | Int8 (Some v) | Int16 (Some v) | Int32 (Some v) | Int64 (Some v)
  | UInt8 (Some v) | UInt16 (Some v) | UInt32 (Some v) | UInt64 (Some v) => pretty v
  | Float32 (Some v) => Text.show_f32 v
  | Float64 (Some v) => Text.show_f64 v
  | Varchar (Some v) => v
  | _ => "NULL"
  end.

(** The invariant of a value: its contents are in the range of its type and a
    string is valid UTF-8. *)
Definition ok (v : t) : Prop :=
  match v with
  | Int8 (Some z) => signed_ok 8 z
  | Int16 (Some z) => signed_ok 16 z
  | Int32 (Some z) => signed_ok 32 z
  | Int64 (Some z) => signed_ok 64 z
  | UInt8 (Some z) => unsigned_ok 8 z
  | UInt16 (Some z) => unsigned_ok 16 z
  | UInt32 (Some z) => unsigned_ok 32 z
  | UInt64 (Some z) => unsigned_ok 64 z
  | Float32 (Some z) => unsigned_ok 32 z
  | Float64 (Some z) => unsigned_ok 64 z
  | Varchar (Some s) => utf8_valid (string_bytes s) = true
  | _ => True
  end.

(** The type of a column up to the declared length of a varchar: what
    [Tuple::new] compares. *)
Definition erase (dt : DataType.t) : DataType.t := data_type (new_empty dt).

End ScalarValue.

(** ** Types and casts *)
Module ScalarValueFacts.
Import ScalarValue.

Lemma option_eqb_eq {A} (f : A → A → bool) (o1 o2 : option A) :
  (∀ x y, f x y = true ↔ x = y) → option_eqb f o1 o2 = true ↔ o1 = o2.
Proof.
  intros Hf. destruct o1 as [x|], o2 as [y|]; simpl; rewrite ?Hf; split; congruence.
Qed.

Lemma eqb_eq v1 v2 : eqb v1 v2 = true ↔ v1 = v2.
Proof.
  destruct v1, v2; simpl;
    rewrite ?option_eqb_eq by auto using Z.eqb_eq, String.eqb_eq, Bool.eqb_true_iff;
    split; congruence.
Qed.

#[global] Instance scalar_eq_dec : EqDecision t.
Proof.
  intros v1 v2. destruct (eqb v1 v2) eqn:H.
  - left. by apply eqb_eq.
  - right. rewrite <- eqb_eq. by rewrite H.
Defined.

Lemma data_type_new_empty dt : is_null (new_empty dt) = true.
Proof. by destruct dt. Qed.

Lemma new_empty_ok dt : ok (new_empty dt).
Proof. by destruct dt. Qed.

Lemma is_null_new_empty v : is_null v = true → v = new_empty (data_type v).
Proof. by destruct v as [[]|[]|[]|[]|[]|[]|[]|[]|[]|[]|[]|[]]. Qed.

Lemma erase_data_type v : erase (data_type v) = data_type v.
Proof. by destruct v. Qed.

Lemma new_empty_erase dt : new_empty (erase dt) = new_empty dt.
Proof. by destruct dt. Qed.

(** Every [i8] prints as ASCII. *)
Lemma pretty_i8_utf8 z : signed_ok 8 z → utf8_valid (string_bytes (pretty z)) = true.
Proof.
  intros [H1 H2]. change (2 ^ (8 - 1)) with 128 in *.
  assert (Hall : forallb (λ i, utf8_valid (string_bytes (pretty i))) (seqZ (-128) 256) = true)
    by (vm_compute; reflexivity).
  rewrite forallb_forall in Hall. apply Hall, list_elem_of_In, elem_of_seqZ. lia.
Qed.

Lemma cast_to_data_type v dt v' :
  cast_to v dt = Ok v' → erase (data_type v') = erase dt ∧ is_null v' = is_null v.
Proof.
  unfold cast_to. destruct (decide (data_type v = dt)) as [<-|_].
  { intros [= <-]. done. }
  destruct dt, v as [[]|[]|[]|[]|[]|[]|[]|[]|[]|[]|[]|[]]; simpl; intros; simplify_eq; done.
Qed.

Lemma cast_to_ok v dt v' :
  cast_to v dt = Ok v' → ok v → ok v'.
Proof.
  unfold cast_to. destruct (decide (data_type v = dt)) as [<-|_].
  { by intros [= <-]. }
  destruct dt, v as [[]|[]|[]|[]|[]|[]|[]|[]|[]|[]|[]|[]]; simpl; intros; simplify_eq;
    simpl in *; try done;
    first [ by apply to_signed_range | by apply wrap_range | by apply pretty_i8_utf8
          | apply f32_of_int_range | apply f64_of_int_range | apply f32_of_f64_range ].
Qed.

(** ** The order on values of one type *)
Lemma Z_cmp_laws : cmp_laws (λ _, True) Z.compare.
Proof.
  split; intros.
  - apply Z.compare_refl.
  - apply Z.compare_antisym.
  - by apply Z.compare_eq.
  - rewrite Z.compare_lt_iff in *. lia.
Qed.

Lemma bool_cmp_laws : cmp_laws (λ _, True) Bool.compare.
Proof. split; intros; repeat case_match; repeat match goal with b : bool |- _ => destruct b end; done. Qed.

Lemma ascii_cmp_laws : cmp_laws (λ _, True) Ascii.compare.
Proof.
  unfold Ascii.compare. split; intros.
  - apply N.compare_refl.
  - apply N.compare_antisym.
  - rewrite <- (Ascii.ascii_N_embedding x), <- (Ascii.ascii_N_embedding y).
    f_equal. by apply N.compare_eq.
  - rewrite !N.compare_lt_iff in *. lia.
Qed.

Lemma string_cmp_laws : cmp_laws (λ _, True) String.compare.
Proof.
  destruct ascii_cmp_laws as [Hr Ho He Ht]. split.
  - intros x _. induction x as [|a x IH]; simpl; [done|]. by rewrite Hr, IH.
  - intros x y _ _. apply String.compare_antisym.
  - intros x y _ _. apply String.compare_eq_iff.
  - intros x y z _ _ _. revert y z.
    induction x as [|a x IH]; intros [|b y] [|c z]; simpl; try done.
    destruct (Ascii.compare a b) eqn:Hab; [apply He in Hab as ->; [|done..]| |done];
      destruct (Ascii.compare b c) eqn:Hbc; try done.
    + apply IH.
    + apply He in Hbc as ->; [|done..]. by rewrite Hab.
    + by rewrite (Ht _ _ _ I I I Hab Hbc).
Qed.

Lemma total_cmp_laws fmt :
  0 < float_width fmt → cmp_laws (unsigned_ok (float_width fmt)) (total_cmp fmt).
Proof.
  intros Hw. unfold total_cmp. split; intros.
  - apply Z.compare_refl.
  - apply Z.compare_antisym.
  - apply (total_key_inj fmt); [done..|]. by apply Z.compare_eq.
  - rewrite Z.compare_lt_iff in *. lia.
Qed.

Lemma option_cmp_laws {A} (P : A → Prop) (cmp : A → A → comparison) :
  cmp_laws P cmp → cmp_laws (from_option P True) (option_cmp cmp).
Proof.
  intros [Hr Ho He Ht]. split.
  - intros [x|]; simpl; auto.
  - intros [x|] [y|]; simpl; auto.
  - intros [x|] [y|]; simpl; try done. intros. f_equal. auto.
  - intros [x|] [y|] [z|]; simpl; eauto; done.
Qed.

(** [partial_cmp] is defined exactly between values of the same variant, and there
    it is a total order. *)
Lemma partial_cmp_Some v1 v2 :
  is_Some (partial_cmp v1 v2) ↔ data_type v1 = data_type v2.
Proof. destruct v1, v2; simpl; rewrite is_Some_alt; done. Qed.

Definition cmp (v1 v2 : t) : comparison := default Eq (partial_cmp v1 v2).

Definition typed (dt : DataType.t) (v : t) : Prop := data_type v = erase dt ∧ ok v.

Lemma typed_cmp_Some dt v1 v2 :
  typed dt v1 → typed dt v2 → partial_cmp v1 v2 = Some (cmp v1 v2).
Proof.
  intros [H1 _] [H2 _]. unfold cmp.
  destruct (proj2 (partial_cmp_Some v1 v2)) as [c ->]; [congruence|done].
Qed.

Lemma cmp_laws_map {A B} (f : A → B) (P : A → Prop) (Q : B → Prop) cA cB :
  cmp_laws P cA → (∀ y, Q y → ∃ x, y = f x ∧ P x) →
  (∀ x1 x2, cB (f x1) (f x2) = cA x1 x2) → cmp_laws Q cB.
Proof.
  intros [Hr Ho He Ht] HQ Hc. split.
  - intros y (x & -> & Hx)%HQ. rewrite Hc. auto.
  - intros y1 y2 (x1 & -> & H1)%HQ (x2 & -> & H2)%HQ. rewrite !Hc. auto.
  - intros y1 y2 (x1 & -> & H1)%HQ (x2 & -> & H2)%HQ. rewrite !Hc. intros. f_equal. auto.
  - intros y1 y2 y3 (x1 & -> & H1)%HQ (x2 & -> & H2)%HQ (x3 & -> & H3)%HQ.
    rewrite !Hc. eauto.
Qed.

Ltac solve_typed :=
  intros [] [Ht Ho]; simplify_eq/=; eexists; (split; [reflexivity|]);
  match goal with o : option _ |- _ => by destruct o end.

Lemma scalar_cmp_laws dt : cmp_laws (typed dt) cmp.
Proof.
  pose proof (option_cmp_laws _ _ Z_cmp_laws) as HZ.
  destruct dt; unfold typed, erase; simpl.
  - apply (cmp_laws_map Boolean _ _ _ _ (option_cmp_laws _ _ bool_cmp_laws)); [solve_typed|done].
  - apply (cmp_laws_map Int8 _ _ _ _ HZ); [solve_typed|done].
  - apply (cmp_laws_map Int16 _ _ _ _ HZ); [solve_typed|done].
  - apply (cmp_laws_map Int32 _ _ _ _ HZ); [solve_typed|done].
  - apply (cmp_laws_map Int64 _ _ _ _ HZ); [solve_typed|done].
  - apply (cmp_laws_map UInt8 _ _ _ _ HZ); [solve_typed|done].
  - apply (cmp_laws_map UInt16 _ _ _ _ HZ); [solve_typed|done].
  - apply (cmp_laws_map UInt32 _ _ _ _ HZ); [solve_typed|done].
  - apply (cmp_laws_map UInt64 _ _ _ _ HZ); [solve_typed|done].
  - apply (cmp_laws_map Float32 _ _ _ _ (option_cmp_laws _ _ (total_cmp_laws f32_format eq_refl)));
      [solve_typed|done].
  - apply (cmp_laws_map Float64 _ _ _ _ (option_cmp_laws _ _ (total_cmp_laws f64_format eq_refl)));
      [solve_typed|done].
  - apply (cmp_laws_map Varchar _ _ _ _ (option_cmp_laws _ _ string_cmp_laws));
      [solve_typed|done].
Qed.

End ScalarValueFacts.

(** ** Properties *)
Module ScalarSpec.
Import ScalarValue ScalarValueFacts.

(** C36: a cast gives a value of the target type. Whenever [cast_to] succeeds on a value
    whose payload is in the range of its type, the result has the target type (the
    declared length of a varchar aside), is null exactly when the argument is, and its
    payload is in the range of the target type: the narrowing integer casts wrap rather
    than overflow, and the casts to floats round to a bit pattern of the 32 or 64 bits of
    the format, an infinity included. *)
Theorem cast_to_typed v dt v' :
  cast_to v dt = Ok v' → ok v →
  data_type v' = erase dt ∧ is_null v' = is_null v ∧ ok v'.
Proof.
  intros Hc Hv. destruct (cast_to_data_type v dt v' Hc) as [Ht Hn].
  split_and!; [|done|by eapply cast_to_ok]. rewrite <- Ht. by rewrite erase_data_type.
Qed.

Lemma cast_to_typed_witness :
  cast_to (Int64 (Some 300)) DataType.Int8 = Ok (Int8 (Some 44)) ∧ ok (Int8 (Some 44)) ∧
  ok (Float32 (Some (f32_of_int (2 ^ 62 + 1)))).
Proof.
  assert (cast_to (Int64 (Some 300)) DataType.Int8 = Ok (Int8 (Some 44))) as Hc
    by (vm_compute; reflexivity).
  destruct (cast_to_typed (Int64 (Some 300)) DataType.Int8 (Int8 (Some 44)) Hc) as (_ & _ & H);
    [done|]. split; [done|]. split; [exact H|].
  destruct (cast_to_typed (Int64 (Some (2 ^ 62 + 1))) DataType.Float32 (Float32 (Some (f32_of_int (2 ^ 62 + 1)))))
    as (_ & _ & H32); [reflexivity|done|]. exact H32.
Defined.

(** C34: [partial_cmp] and [==] on values agree and are total within a type: values
    are comparable exactly when they have the same variant, they compare [Equal]
    exactly when [==] holds, swapping the arguments reverses the order, and the
    order is transitive; floats are ordered by [total_cmp], a null comes before
    every value. *)
Theorem scalar_order_total dt v1 v2 v3 :
  typed dt v1 → typed dt v2 → typed dt v3 →
  ∃ c, partial_cmp v1 v2 = Some c ∧ partial_cmp v2 v1 = Some (CompOpp c) ∧
    (c = Eq ↔ eqb v1 v2 = true) ∧
    (c = Lt → partial_cmp v2 v3 = Some Lt → partial_cmp v1 v3 = Some Lt) ∧
    (is_null v1 = true → is_null v2 = false → c = Lt).
Proof.
  intros H1 H2 H3. destruct (scalar_cmp_laws dt) as [Hr Ho He Ht].
  exists (cmp v1 v2). rewrite !(typed_cmp_Some dt) by done.
  split_and!; [done|by rewrite (Ho v1 v2)| | |].
  - rewrite eqb_eq. split; [by apply He|intros ->; by apply Hr].
  - intros H12 [= H23]. f_equal. by eapply (Ht v1 v2 v3).
  - destruct H1 as [H1 _], H2 as [H2 _]. unfold cmp. rewrite <- H2 in H1. clear -H1.
    destruct v1 as [[]|[]|[]|[]|[]|[]|[]|[]|[]|[]|[]|[]],
      v2 as [[]|[]|[]|[]|[]|[]|[]|[]|[]|[]|[]|[]]; done.
Qed.

Lemma scalar_order_total_witness :
  partial_cmp (Varchar None) (Varchar (Some "a")) = Some Lt ∧
  partial_cmp (Varchar None) (Varchar (Some "b")) = Some Lt.
Proof.
  destruct (scalar_order_total (DataType.Varchar None) (Varchar None) (Varchar (Some "a"))
    (Varchar (Some "b"))) as (c & Hc & _ & _ & Ht & Hnull); [done..|].
  rewrite (Hnull eq_refl eq_refl) in *. split; [done|]. by apply Ht.
Defined.

End ScalarSpec.
