(* ===== verification/Schema.v ===== *)
(** * Schema: table references, columns, schemas and tuples

    Models [bustubx/src/common/table_ref.rs], [bustubx/src/catalog/column.rs],
    [bustubx/src/catalog/schema.rs] and [bustubx/src/storage/tuple.rs]. The [Arc]s
    around schemas and columns share immutable data and are not modelled. *)
From S2P Require Import Prelude CommonCodec Floats Scalar.

Module TableReference.

Inductive t :=
  | Bare (table : string)
  | Partial (schema : string) (table : string)
  | Full (catalog : string) (schema : string) (table : string).

#[global] Instance eq_dec : EqDecision t.
Proof. solve_decision. Defined.

Definition table (self : t) : string :=
  match self with Bare table | Partial _ table | Full _ _ table => table end.

Definition schema (self : t) : option string :=
  match self with
  | Full _ schema _ | Partial schema _ => Some schema
  | _ => None
  end.

Definition catalog (self : t) : option string :=
  match self with Full catalog _ _ => Some catalog | _ => None end.

(** [o.map_or(true, |s| s == x)] *)
Definition none_or_eq (o : option string) (x : string) : bool :=
  match o with None => true | Some s => String.eqb s x end.

Definition resolved_eq (self other : t) : bool :=
  match self with
  | Bare tbl => String.eqb tbl (table other)
  | Partial sch tbl => String.eqb tbl (table other) && none_or_eq (schema other) sch
  | Full cat sch tbl =>
      String.eqb tbl (table other) && none_or_eq (schema other) sch &&
      none_or_eq (catalog other) cat
  end.

(** [Display] *)
Definition display (self : t) : string :=
  match self with
  | Bare table => table
  | Partial schema table => schema +:+ "." +:+ table
  | Full catalog schema table => catalog +:+ "." +:+ schema +:+ "." +:+ table
  end.

End TableReference.

Module Column.

Record t := Mk {
  relation : option TableReference.t;
  name : string;
  data_type : DataType.t;
  nullable : bool;
}.

#[global] Instance eq_dec : EqDecision t.
Proof. solve_decision. Defined.

Definition new (name : string) (data_type : DataType.t) (nullable : bool) : t :=
  Mk None name data_type nullable.

Definition with_relation (relation : option TableReference.t) (self : t) : t :=
  Mk relation (name self) (data_type self) (nullable self).

(** [PartialEq for Column]: the relation and nullability are ignored. *)
Definition eqb (self other : t) : bool :=
  String.eqb (name self) (name other) && bool_decide (data_type self = data_type other).

End Column.

Module Schema.

Record t := Mk { columns : list Column.t }.

#[global] Instance eq_dec : EqDecision t.
Proof. solve_decision. Defined.

(** The assertion of [new_with_check] on two columns: [true] when they clash. *)
Definition clash (col1 col2 : Column.t) : bool :=
  match Column.relation col1, Column.relation col2 with
  | Some rel1, Some rel2 =>
      TableReference.resolved_eq rel1 rel2 && String.eqb (Column.name col1) (Column.name col2)
  | None, None => String.eqb (Column.name col1) (Column.name col2)
  | _, _ => false
  end.

Fixpoint no_clash (columns : list Column.t) : bool :=
  match columns with
  | [] => true
  | col1 :: rest => forallb (λ col2, negb (clash col1 col2)) rest && no_clash rest
  end.

Definition new_with_check (columns : list Column.t) : result t :=
  if no_clash columns then Ok (Mk columns) else Panic.

Definition new (columns : list Column.t) : result t := new_with_check columns.

Definition empty : t := Mk [].

Definition try_merge (schemas : list t) : result t :=
  new_with_check (schemas ≫= columns).

Definition column_with_index (self : t) (index : nat) : result Column.t :=
  ok_or (columns self !! index) (Plan "Unable to get column with index {index}").

Definition project (self : t) (indices : list nat) : result t :=
  new_columns ← mapR (column_with_index self) indices;
  new_with_check new_columns.

(** Does a column answer to [relation].[name]? *)
Definition column_matches (relation : option TableReference.t) (name : string)
    (col : Column.t) : bool :=
  match relation, Column.relation col with
  | Some rel, Some col_rel =>
      TableReference.resolved_eq rel col_rel && String.eqb name (Column.name col)
  | Some _, None => false
  | None, _ => String.eqb name (Column.name col)
  end.

Fixpoint find_from (i : nat) (p : Column.t → bool) (cols : list Column.t) : option nat :=
  match cols with
  | [] => None
  | c :: cols' => if p c then Some i else find_from (S i) p cols'
  end.

Definition index_of (self : t) (relation : option TableReference.t) (name : string) : result nat :=
  ok_or (find_from 0 (column_matches relation name) (columns self))
    (Plan "Unable to get column named {name}").

Definition column_with_name (self : t) (relation : option TableReference.t) (name : string) :
    result Column.t :=
  i ← index_of self relation name;
  index (columns self) i.

Definition column_count (self : t) : nat := length (columns self).

(** The derived [PartialEq], through [Column]'s. *)
Fixpoint columns_eqb (l k : list Column.t) : bool :=
  match l, k with
  | [], [] => true
  | c :: l', d :: k' => Column.eqb c d && columns_eqb l' k'
  | _, _ => false
  end.

Definition eqb (self other : t) : bool := columns_eqb (columns self) (columns other).

End Schema.

Module Tuple.

Record t := Mk { schema : Schema.t; data : list ScalarValue.t }.

(** The assertions of [Tuple::new]: one value per column, of the column's type. *)
Definition types_match (cols : list Column.t) (data : list ScalarValue.t) : bool :=
  forallb (λ '(col, val),
    bool_decide (ScalarValue.data_type (ScalarValue.new_empty (Column.data_type col))
                 = ScalarValue.data_type val)) (zip cols data).

Definition new (schema : Schema.t) (data : list ScalarValue.t) : result t :=
  _ ← assert_true (length (Schema.columns schema) =? length data);
  _ ← assert_true (types_match (Schema.columns schema) data);
  Ok (Mk schema data).

Definition project_with_schema (self : t) (projected_schema : Schema.t) : result t :=
  indices ← mapR (λ col, Schema.index_of (schema self) (Column.relation col) (Column.name col))
              (Schema.columns projected_schema);
  projected_data ← mapR (index (data self)) indices;
  new projected_schema projected_data.

Definition empty (schema : Schema.t) : result t :=
  new schema ((λ col, ScalarValue.new_empty (Column.data_type col)) <$> Schema.columns schema).

Definition try_merge (tuples : list t) : result t :=
  '(merged_schema, d) ← foldR (λ '(sch, d) tuple,
      sch' ← Schema.try_merge [sch; schema tuple];
      Ok (sch', d ++ data tuple)) (Schema.empty, []) tuples;
  new merged_schema d.

Definition is_null (self : t) : bool := forallb ScalarValue.is_null (data self).

Definition value (self : t) (index : nat) : result ScalarValue.t :=
  ok_or (data self !! index) (Internal "Not found column data at {} in tuple: {:?}").

Definition value_by_name (self : t) (relation : option TableReference.t) (name : string) :
    result ScalarValue.t :=
  idx ← Schema.index_of (schema self) relation name;
  value self idx.

(** The derived [PartialEq]. *)
Fixpoint values_eqb (l k : list ScalarValue.t) : bool :=
  match l, k with
  | [], [] => true
  | v :: l', w :: k' => ScalarValue.eqb v w && values_eqb l' k'
  | _, _ => false
  end.

Definition eqb (self other : t) : bool :=
  Schema.eqb (schema self) (schema other) && values_eqb (data self) (data other).

(** [PartialOrd]: the columns of [self] in order, up to the first difference. *)
Fixpoint cmp_columns (self other : t) (idxs : list nat) : option comparison :=
  match idxs with
  | [] => Some Eq
  | idx :: idxs' =>
      match data self !! idx, data other !! idx with
      | Some v, Some w =>
          match ScalarValue.partial_cmp v w with
          | Some Eq => cmp_columns self other idxs'
          | o => o
          end
      | _, _ => None
      end
  end.

Definition partial_cmp (self other : t) : option comparison :=
  cmp_columns self other (seq 0 (Schema.column_count (schema self))).

(** A tuple of a schema: the invariant [Tuple::new] establishes, with values in
    the range of their type. *)
Definition ok (s : Schema.t) (tuple : t) : Prop :=
  schema tuple = s ∧
  Forall2 (λ col v, ScalarValueFacts.typed (Column.data_type col) v)
    (Schema.columns s) (data tuple).

End Tuple.

(** ** Facts *)
Module SchemaFacts.

(** Two optional names are compatible unless both are given and differ. *)
Definition compatible (o1 o2 : option string) : Prop :=
  ∀ x y, o1 = Some x → o2 = Some y → x = y.

Lemma none_or_eq_true o x :
  TableReference.none_or_eq o x = true ↔ compatible (Some x) o.
Proof.
  unfold compatible. destruct o as [s|]; simpl; [rewrite String.eqb_eq|]; split; try done.
  - intros -> ?? [= <-] [= <-]. done.
  - intros H. symmetry. by apply H.
Qed.

Lemma resolved_eq_true r1 r2 :
  TableReference.resolved_eq r1 r2 = true ↔
  TableReference.table r1 = TableReference.table r2 ∧
  compatible (TableReference.schema r1) (TableReference.schema r2) ∧
  compatible (TableReference.catalog r1) (TableReference.catalog r2).
Proof.
  destruct r1; simpl; rewrite ?andb_true_iff, ?none_or_eq_true, String.eqb_eq;
    unfold compatible; naive_solver.
Qed.

Lemma compatible_sym o1 o2 : compatible o1 o2 ↔ compatible o2 o1.
Proof. split; intros H x y ??; symmetry; by apply H. Qed.

Lemma resolved_eq_sym r1 r2 :
  TableReference.resolved_eq r1 r2 = TableReference.resolved_eq r2 r1.
Proof.
  apply Bool.eq_true_iff_eq. rewrite !resolved_eq_true.
  rewrite (compatible_sym (TableReference.schema r1)).
  rewrite (compatible_sym (TableReference.catalog r1)). split; intros (-> & ?); done.
Qed.

Lemma column_eqb_refl c : Column.eqb c c = true.
Proof. unfold Column.eqb. rewrite String.eqb_refl. by rewrite bool_decide_true. Qed.

Lemma schema_eqb_refl s : Schema.eqb s s = true.
Proof.
  unfold Schema.eqb. induction (Schema.columns s) as [|c l IH]; simpl; [done|].
  by rewrite column_eqb_refl.
Qed.

Lemma values_eqb_eq l k : Tuple.values_eqb l k = true ↔ l = k.
Proof.
  revert k. induction l as [|v l IH]; intros [|w k]; simpl; try (split; congruence).
  rewrite andb_true_iff, ScalarValueFacts.eqb_eq, IH. split; [intros [-> ->]|intros [= -> ->]]; done.
Qed.

Lemma tuple_eqb_refl t : Tuple.eqb t t = true.
Proof. unfold Tuple.eqb. rewrite schema_eqb_refl. by apply values_eqb_eq. Qed.

(** Between tuples of one schema, [==] is equality. *)
Lemma tuple_eqb_ok s t1 t2 :
  Tuple.ok s t1 → Tuple.ok s t2 → Tuple.eqb t1 t2 = true ↔ t1 = t2.
Proof.
  intros [H1 _] [H2 _]. split; [|intros ->; apply tuple_eqb_refl].
  unfold Tuple.eqb. rewrite andb_true_iff, values_eqb_eq. intros [_ Hd].
  destruct t1, t2; simpl in *; congruence.
Qed.

(** [index_of] finds the first matching column. *)
Lemma find_from_spec i p cols k :
  Schema.find_from i p cols = Some k ↔
  ∃ j c, k = i + j ∧ cols !! j = Some c ∧ p c = true ∧
    ∀ j' c', j' < j → cols !! j' = Some c' → p c' = false.
Proof.
  revert i. induction cols as [|c cols IH]; intros i; simpl.
  { split; [done|]. intros (j & c & _ & H & _). by rewrite lookup_nil in H. }
  destruct (p c) eqn:Hp.
  - split.
    + intros [= <-]. exists 0, c. split_and!; [lia|done|done|lia].
    + intros ([|j] & c' & -> & Hc & Hpc & Hmin); [f_equal; lia|].
      specialize (Hmin 0 c). rewrite Hmin in Hp; [done|lia|done].
  - rewrite IH. split.
    + intros (j & c' & -> & Hc & Hpc & Hmin).
      exists (S j), c'. split_and!; [lia|done|done|].
      intros [|j'] c'' Hj Hc''; [by simplify_eq/=|]. apply (Hmin j'); [lia|done].
    + intros ([|j] & c' & -> & Hc & Hpc & Hmin); [by simplify_eq/=; congruence|].
      exists j, c'. split_and!; [lia|done|done|].
      intros j' c'' Hj Hc''. apply (Hmin (S j')); [lia|done].
Qed.

Lemma no_clash_lookup cols i j ci cj :
  Schema.no_clash cols = true → i < j →
  cols !! i = Some ci → cols !! j = Some cj → Schema.clash ci cj = false.
Proof.
  revert i j. induction cols as [|c cols IH]; intros i j Hn Hij Hi Hj; [done|].
  simpl in Hn. apply andb_true_iff in Hn as [Hf Hn].
  destruct i as [|i], j as [|j]; simpl in *; try lia; simplify_eq.
  - rewrite forallb_forall in Hf. apply negb_true_iff, Hf.
    apply list_elem_of_In. by eapply list_elem_of_lookup_2.
  - eapply (IH i j); [done|lia|done..].
Qed.

(** The columns of a table all carry a relation or all carry none. *)
Definition uniform (s : Schema.t) : Prop :=
  ∀ c, c ∈ Schema.columns s → Column.relation c = None →
  ∀ c', c' ∈ Schema.columns s → Column.relation c' = None.

Lemma index_of_self s i c :
  Schema.no_clash (Schema.columns s) = true → uniform s →
  Schema.columns s !! i = Some c →
  Schema.index_of s (Column.relation c) (Column.name c) = Ok i.
Proof.
  intros Hn Hu Hc. unfold Schema.index_of.
  rewrite (proj2 (find_from_spec 0 _ _ i)); [done|].
  exists i, c. split_and!; [done|done| |].
  - unfold Schema.column_matches. destruct (Column.relation c) as [r|] eqn:Hr.
    + rewrite String.eqb_refl, andb_true_r.
      destruct r; simpl; rewrite ?String.eqb_refl; done.
    + apply String.eqb_refl.
  - intros j c' Hj Hc'. pose proof (no_clash_lookup _ _ _ _ _ Hn Hj Hc' Hc) as Hcl.
    unfold Schema.clash in Hcl. unfold Schema.column_matches.
    destruct (Column.relation c) as [r|] eqn:Hr.
    + destruct (Column.relation c') as [r'|] eqn:Hr'; [|done].
      rewrite resolved_eq_sym, String.eqb_sym. done.
    + destruct (Column.relation c') as [r'|] eqn:Hr'.
      * exfalso. apply list_elem_of_lookup_2 in Hc, Hc'.
        pose proof (Hu _ Hc Hr _ Hc'). congruence.
      * by rewrite String.eqb_sym.
Qed.

(** [Tuple::new] on well-typed data. *)
Lemma types_match_typed cols d :
  Forall2 (λ col v, ScalarValueFacts.typed (Column.data_type col) v) cols d →
  Tuple.types_match cols d = true.
Proof.
  unfold Tuple.types_match. induction 1 as [|c v cols d [Ht _] _ IH]; simpl; [done|].
  rewrite IH, andb_true_r. by apply bool_decide_true.
Qed.

Lemma tuple_new_Ok s d :
  Forall2 (λ col v, ScalarValueFacts.typed (Column.data_type col) v) (Schema.columns s) d →
  Tuple.new s d = Ok (Tuple.Mk s d) ∧ Tuple.ok s (Tuple.Mk s d).
Proof.
  intros H. unfold Tuple.new, assert_true.
  rewrite (Forall2_length _ _ _ H), Nat.eqb_refl, types_match_typed by done. done.
Qed.

Lemma tuple_empty_Ok s :
  ∃ t, Tuple.empty s = Ok t ∧ Tuple.ok s t ∧ Tuple.is_null t = true.
Proof.
  unfold Tuple.empty. eexists. split; [apply tuple_new_Ok|split].
  2: apply tuple_new_Ok.
  1,2: apply Forall2_fmap_r, Forall_Forall2_diag, Forall_true; intros c;
    split; [done|apply ScalarValueFacts.new_empty_ok].
  unfold Tuple.is_null. simpl. apply forallb_forall. intros v Hv.
  apply list_elem_of_In, list_elem_of_fmap in Hv as (c & -> & _).
  apply ScalarValueFacts.data_type_new_empty.
Qed.

(** ** The order on tuples of one schema is total *)
Definition tuple_cmp (t1 t2 : Tuple.t) : comparison := default Eq (Tuple.partial_cmp t1 t2).

Fixpoint values_cmp (l k : list ScalarValue.t) : comparison :=
  match l, k with
  | v :: l', w :: k' =>
      match ScalarValueFacts.cmp v w with Eq => values_cmp l' k' | c => c end
  | _, _ => Eq
  end.

Definition values_ok (cols : list Column.t) (d : list ScalarValue.t) : Prop :=
  Forall2 (λ col v, ScalarValueFacts.typed (Column.data_type col) v) cols d.

Lemma cmp_columns_values t1 t2 cols pre1 d1 pre2 d2 :
  Tuple.data t1 = pre1 ++ d1 → Tuple.data t2 = pre2 ++ d2 → length pre1 = length pre2 →
  values_ok cols d1 → values_ok cols d2 →
  Tuple.cmp_columns t1 t2 (seq (length pre1) (length cols)) = Some (values_cmp d1 d2).
Proof.
  intros H1 H2 Hlen Hd1. revert pre1 pre2 d2 H1 H2 Hlen.
  induction Hd1 as [|c v cols d1 Hv Hd1 IH]; intros pre1 pre2 d2 H1 H2 Hlen Hd2.
  { by inversion Hd2; subst. }
  inversion Hd2 as [|? w ? d2' Hw Hd2']; subst. simpl.
  rewrite H1, H2, list_lookup_middle by done. rewrite Hlen, list_lookup_middle by done.
  rewrite (ScalarValueFacts.typed_cmp_Some _ _ _ Hv Hw).
  destruct (ScalarValueFacts.cmp v w); [|done..].
  replace (S (length pre2)) with (length (pre1 ++ [v])) by (rewrite length_app; simpl; lia).
  apply (IH (pre1 ++ [v]) (pre2 ++ [w]) d2'); [by rewrite <- app_assoc..| |done].
  rewrite !length_app. simpl. lia.
Qed.

Lemma partial_cmp_ok s t1 t2 :
  Tuple.ok s t1 → Tuple.ok s t2 →
  Tuple.partial_cmp t1 t2 = Some (values_cmp (Tuple.data t1) (Tuple.data t2)).
Proof.
  intros [Hs1 H1] [Hs2 H2]. unfold Tuple.partial_cmp, Schema.column_count. rewrite Hs1.
  by apply (cmp_columns_values _ _ _ [] _ [] _).
Qed.

Lemma tuple_partial_cmp_Some s t1 t2 :
  Tuple.ok s t1 → Tuple.ok s t2 → Tuple.partial_cmp t1 t2 = Some (tuple_cmp t1 t2).
Proof. intros H1 H2. unfold tuple_cmp. by rewrite (partial_cmp_ok s t1 t2 H1 H2). Qed.

Lemma values_cmp_laws cols : cmp_laws (values_ok cols) values_cmp.
Proof.
  unfold values_ok. split.
  - intros d H. induction H as [|c v cols d Hv _ IH]; simpl; [done|].
    destruct (ScalarValueFacts.scalar_cmp_laws (Column.data_type c)) as [Hr _ _ _].
    by rewrite Hr.
  - intros d1 d2 H. revert d2. induction H as [|c v cols d Hv _ IH]; intros d2 H2;
      inversion H2 as [|? w ? d2' Hw]; subst; simpl; [done|].
    destruct (ScalarValueFacts.scalar_cmp_laws (Column.data_type c)) as [_ Ho _ _].
    rewrite (Ho v w) by done. destruct (ScalarValueFacts.cmp v w); simpl; auto.
  - intros d1 d2 H. revert d2. induction H as [|c v cols d Hv _ IH]; intros d2 H2;
      inversion H2 as [|? w ? d2' Hw]; subst; simpl; [done|].
    destruct (ScalarValueFacts.scalar_cmp_laws (Column.data_type c)) as [_ _ He _].
    destruct (ScalarValueFacts.cmp v w) eqn:Hc; try done. apply He in Hc as ->; [|done..].
    intros. f_equal. auto.
  - intros d1 d2 d3 H. revert d2 d3. induction H as [|c v cols d Hv _ IH]; intros d2 d3 H2 H3;
      inversion H2 as [|? w ? d2' Hw]; inversion H3 as [|? u ? d3' Hu]; subst; simpl; [done|].
    destruct (ScalarValueFacts.scalar_cmp_laws (Column.data_type c)) as [_ _ He Ht].
    destruct (ScalarValueFacts.cmp v w) eqn:Hvw; [apply He in Hvw as ->; [|done..]| |done];
      destruct (ScalarValueFacts.cmp w u) eqn:Hwu; try done.
    + eauto.
    + apply He in Hwu as ->; [|done..]. by rewrite Hvw.
    + by rewrite (Ht _ _ _ Hv Hw Hu Hvw Hwu).
Qed.

Lemma tuple_cmp_laws s : cmp_laws (Tuple.ok s) tuple_cmp.
Proof.
  apply (ScalarValueFacts.cmp_laws_map (Tuple.Mk s) (values_ok (Schema.columns s)) (Tuple.ok s)
    (λ d1 d2, tuple_cmp (Tuple.Mk s d1) (Tuple.Mk s d2)) tuple_cmp).
  - pose proof (values_cmp_laws (Schema.columns s)) as [Hr Ho He Ht].
    assert (Hc : ∀ d1 d2, values_ok (Schema.columns s) d1 → values_ok (Schema.columns s) d2 →
      tuple_cmp (Tuple.Mk s d1) (Tuple.Mk s d2) = values_cmp d1 d2).
    { intros d1 d2 H1 H2. unfold tuple_cmp. by rewrite (partial_cmp_ok s). }
    split; intros *; repeat intros ?%id; rewrite ?Hc in * by done; eauto.
  - intros [s' d] [Hs Hd]. simpl in *. subst. eauto.
  - done.
Qed.

End SchemaFacts.

(** ** Properties *)
Module SchemaSpec.
Import SchemaFacts.

(** C33: the comparison of tuples that B+ tree search and [ORDER BY] rely on is a
    total order: between tuples of one schema [partial_cmp] is always defined, it is
    reflexive, antisymmetric in the sense of [Ordering::reverse] and transitive, and
    two tuples compare equal only if they are the same tuple (floats by their bits). *)
Theorem tuple_partial_cmp_total s t1 t2 t3 :
  Tuple.ok s t1 → Tuple.ok s t2 → Tuple.ok s t3 →
  ∃ c, Tuple.partial_cmp t1 t2 = Some c ∧ Tuple.partial_cmp t2 t1 = Some (CompOpp c) ∧
    (c = Eq ↔ t1 = t2) ∧
    (c = Lt → Tuple.partial_cmp t2 t3 = Some Lt → Tuple.partial_cmp t1 t3 = Some Lt).
Proof.
  intros H1 H2 H3. destruct (tuple_cmp_laws s) as [Hr Ho He Ht].
  exists (tuple_cmp t1 t2). rewrite !(tuple_partial_cmp_Some s) by done.
  split_and!; [done|by rewrite (Ho t1 t2)| |].
  - split; [by apply He|intros ->; by apply Hr].
  - intros H12 [= H23]. f_equal. by eapply (Ht t1 t2 t3).
Qed.

Definition demo_schema : Schema.t :=
  Schema.Mk [Column.new "a" DataType.Int8 true; Column.new "b" DataType.Float32 true].

Definition demo_tuple (a b : Z) : Tuple.t :=
  Tuple.Mk demo_schema [ScalarValue.Int8 (Some a); ScalarValue.Float32 (Some b)].

Lemma demo_tuple_ok a b : signed_ok 8 a → unsigned_ok 32 b → Tuple.ok demo_schema (demo_tuple a b).
Proof. intros Ha Hb. split; [done|]. repeat (apply Forall2_cons; split; [done|]). done. Qed.

Lemma tuple_partial_cmp_total_witness :
  Tuple.partial_cmp (demo_tuple (-1) 0x80000000) (demo_tuple (-1) 0) = Some Lt ∧
  Tuple.partial_cmp (demo_tuple (-1) 0x80000000) (demo_tuple 2 7) = Some Lt.
Proof.
  destruct (tuple_partial_cmp_total demo_schema (demo_tuple (-1) 0x80000000)
    (demo_tuple (-1) 0) (demo_tuple 2 7)) as (c & Hc & _ & _ & Ht);
    [apply demo_tuple_ok; done..|].
  vm_compute in Hc. injection Hc as <-. split; [done|]. by apply Ht.
Defined.

(** Name resolution finds the column it names. In a schema that passed the
    ambiguity check of [Schema::new_with_check] and whose columns all carry a relation
    or all carry none, looking a column up by its own relation and name returns its
    position; so each column of a table is addressable. *)
Theorem schema_index_of_column s i c :
  Schema.new (Schema.columns s) = Ok s → uniform s → Schema.columns s !! i = Some c →
  Schema.index_of s (Column.relation c) (Column.name c) = Ok i ∧
  Schema.column_with_name s (Column.relation c) (Column.name c) = Ok c.
Proof.
  intros Hn Hu Hc. assert (Schema.no_clash (Schema.columns s) = true) as Hcl.
  { unfold Schema.new, Schema.new_with_check in Hn. by destruct (Schema.no_clash _). }
  assert (Schema.index_of s (Column.relation c) (Column.name c) = Ok i) as Hi
    by (by apply index_of_self).
  split; [done|]. unfold Schema.column_with_name. rewrite Hi. by apply index_Ok.
Qed.

Lemma schema_index_of_column_witness :
  Schema.index_of demo_schema None "b" = Ok 1.
Proof.
  apply (schema_index_of_column demo_schema 1 (Column.new "b" DataType.Float32 true)).
  - done.
  - intros c Hc _ c' Hc'. simpl in Hc'. rewrite !elem_of_cons in Hc'.
    destruct Hc' as [->|[->|H]]; [done..|by apply not_elem_of_nil in H].
  - done.
Defined.

End SchemaSpec.
