(* ===== verification/TupleCodec.v ===== *)
(** * TupleCodec: null bitmap, scalar values and tuples as bytes

    Models [bustubx/src/common/bitmap.rs], [bustubx/src/storage/codec/scalar.rs] and
    [bustubx/src/storage/codec/tuple.rs]. *)
From S2P Require Import Prelude CommonCodec Floats Scalar Schema.

Module DynamicBitmap.

(** [map: Vec<u8>]; bit [i] is bit [7 - i mod 8] of byte [i / 8]. *)
Record t := Mk { map : list Z }.

Definition new : t := Mk [].

Definition set (self : t) (idx : nat) (value : bool) : result t :=
  let byte_idx := Nat.shiftr idx 3 in
  let m := if length (map self) <=? byte_idx
           then map self ++ replicate (byte_idx - length (map self) + 1) 0%Z
           else map self in
  let offset := Nat.land idx 7 in
  byte ← index m byte_idx;
  let curval := Z.land (Z.shiftr byte (7 - Z.of_nat offset)) 1 in
  let mask := if value then Z.lxor 1 curval else curval in
  let byte' := Z.lxor byte (Z.shiftl mask (7 - Z.of_nat offset)) in
  Ok (Mk (<[byte_idx := byte']> m)).

Definition get (self : t) (idx : nat) : result (option bool) :=
  if Nat.shiftl (length (map self)) 8 <=? idx then Ok None
  else
    let byte_idx := Nat.shiftr idx 3 in
    let offset := Nat.land idx 7 in
    byte ← index (map self) byte_idx;
    Ok (Some (Z.eqb (Z.land (Z.shiftr byte (7 - Z.of_nat offset)) 1) 1)).

Definition to_bytes (self : t) : list Z := map self.
Definition from_bytes (bytes : list Z) : t := Mk bytes.

End DynamicBitmap.

Module ScalarValueCodec.

Definition encode (value : ScalarValue.t) : result (list Z) :=
  match value with
  | ScalarValue.Boolean (Some v) => Ok (encode_bool v)
  | ScalarValue.Int8 (Some v) => Ok (encode_i8 v)
  | ScalarValue.Int16 (Some v) => Ok (encode_i16 v)
  | ScalarValue.Int32 (Some v) => Ok (encode_i32 v)
  | ScalarValue.Int64 (Some v) => Ok (encode_i64 v)
  | ScalarValue.UInt8 (Some v) => Ok (encode_u8 v)
  | ScalarValue.UInt16 (Some v) => Ok (encode_u16 v)
  | ScalarValue.UInt32 (Some v) => Ok (encode_u32 v)
  | ScalarValue.UInt64 (Some v) => Ok (encode_u64 v)
  | ScalarValue.Float32 (Some v) => Ok (encode_f32 v)
  | ScalarValue.Float64 (Some v) => Ok (encode_f64 v)
  | ScalarValue.Varchar (Some v) =>
      let len := Z.of_nat (length (string_bytes v)) in
      if (65535 <? len)%Z then Panic
      else Ok (encode_u16 len ++ encode_string v)
  | _ => Ok []
  end.

Definition decode (bytes : list Z) (data_type : DataType.t) :
    result (DecodedData ScalarValue.t) :=
  match data_type with
  | DataType.Boolean =>
      '(value, offset) ← decode_bool bytes; Ok (ScalarValue.Boolean (Some value), offset)
  | DataType.Int8 =>
      '(value, offset) ← decode_i8 bytes; Ok (ScalarValue.Int8 (Some value), offset)
  | DataType.Int16 =>
      '(value, offset) ← decode_i16 bytes; Ok (ScalarValue.Int16 (Some value), offset)
  | DataType.Int32 =>
      '(value, offset) ← decode_i32 bytes; Ok (ScalarValue.Int32 (Some value), offset)
  | DataType.Int64 =>
      '(value, offset) ← decode_i64 bytes; Ok (ScalarValue.Int64 (Some value), offset)
  | DataType.UInt8 =>
      '(value, offset) ← decode_u8 bytes; Ok (ScalarValue.UInt8 (Some value), offset)
  | DataType.UInt16 =>
      '(value, offset) ← decode_u16 bytes; Ok (ScalarValue.UInt16 (Some value), offset)
  | DataType.UInt32 =>
      '(value, offset) ← decode_u32 bytes; Ok (ScalarValue.UInt32 (Some value), offset)
  | DataType.UInt64 =>
      '(value, offset) ← decode_u64 bytes; Ok (ScalarValue.UInt64 (Some value), offset)
  | DataType.Float32 =>
      '(value, offset) ← decode_f32 bytes; Ok (ScalarValue.Float32 (Some value), offset)
  | DataType.Float64 =>
      '(value, offset) ← decode_f64 bytes; Ok (ScalarValue.Float64 (Some value), offset)
  | DataType.Varchar _ =>
      '(len, offset) ← decode_u16 bytes;
      left_bytes ← slice_from bytes offset;
      str_bytes ← slice left_bytes 0 (Z.to_nat len);
      '(value, offset) ← decode_string str_bytes;
      left_bytes ← slice_from left_bytes offset;
      consumed ← usub (length bytes) (length left_bytes);
      Ok (ScalarValue.Varchar (Some value), consumed)
  end.

End ScalarValueCodec.

Module TupleCodec.

(** The loop of [encode]: the null map and the attribute bytes so far. *)
Fixpoint encode_values (idx : nat) (values : list ScalarValue.t)
    (null_map : DynamicBitmap.t) (attributes : list Z) : result (DynamicBitmap.t * list Z) :=
  match values with
  | [] => Ok (null_map, attributes)
  | value :: values' =>
      null_map ← DynamicBitmap.set null_map idx (ScalarValue.is_null value);
      if ScalarValue.is_null value then encode_values (S idx) values' null_map attributes
      else
        bytes ← ScalarValueCodec.encode value;
        encode_values (S idx) values' null_map (attributes ++ bytes)
  end.

Definition encode (tuple : Tuple.t) : result (list Z) :=
  '(null_map, attributes) ← encode_values 0 (Tuple.data tuple) DynamicBitmap.new [];
  Ok (DynamicBitmap.to_bytes null_map ++ attributes).

(** The loop of [decode]: the values so far, the offset and the remaining bytes. *)
Fixpoint decode_columns (idx : nat) (cols : list Column.t) (null_map : DynamicBitmap.t)
    (data : list ScalarValue.t) (total_offset : nat) (bytes : list Z) :
    result (list ScalarValue.t * nat) :=
  match cols with
  | [] => Ok (data, total_offset)
  | col :: cols' =>
      o ← DynamicBitmap.get null_map idx;
      null ← ok_or o
        (Internal "null map size should be greater than or equal to col count");
      if (null : bool) then
        decode_columns (S idx) cols' null_map
          (data ++ [ScalarValue.new_empty (Column.data_type col)]) total_offset bytes
      else
        '(value, offset) ← ScalarValueCodec.decode bytes (Column.data_type col);
        bytes ← slice_from bytes offset;
        decode_columns (S idx) cols' null_map (data ++ [value]) (total_offset + offset) bytes
  end.

Definition null_map_len (schema : Schema.t) : nat := (Schema.column_count schema + 7) / 8.

Definition decode (bytes : list Z) (schema : Schema.t) : result (DecodedData Tuple.t) :=
  let null_map_bytes := null_map_len schema in
  nm ← slice bytes 0 null_map_bytes;
  rest ← slice_from bytes null_map_bytes;
  '(data, total_offset) ←
    decode_columns 0 (Schema.columns schema) (DynamicBitmap.from_bytes nm) [] null_map_bytes rest;
  tuple ← Tuple.new schema data;
  Ok (tuple, total_offset).

End TupleCodec.

(** ** The bitmap as a function from positions to bits *)
Module BitmapFacts.
Import DynamicBitmap.

Definition bit (m : list Z) (i : nat) : bool :=
  match m !! (i / 8) with
  | Some byte => Z.testbit byte (7 - Z.of_nat (i `mod` 8))
  | None => false
  end.

Lemma shiftr_3 i : Nat.shiftr i 3 = i / 8.
Proof. by rewrite Nat.shiftr_div_pow2. Qed.

Lemma land_7 i : Nat.land i 7 = i `mod` 8.
Proof. change 7 with (Nat.ones 3). by rewrite Nat.land_ones. Qed.

Lemma land_shiftr_1 b n : (0 ≤ n)%Z → Z.land (Z.shiftr b n) 1 = Z.b2z (Z.testbit b n).
Proof.
  intros. change (Z.land (Z.shiftr b n) 1) with (Z.land (Z.shiftr b n) (Z.ones 1)).
  rewrite Z.land_ones by lia. by rewrite Z.testbit_spec', Z.shiftr_div_pow2.
Qed.

(** Flipping one bit of a byte sets it to [v]. *)
Lemma testbit_flip b n v k :
  (0 ≤ n)%Z → (0 ≤ k)%Z →
  let curval := Z.land (Z.shiftr b n) 1 in
  Z.testbit (Z.lxor b (Z.shiftl (if v : bool then Z.lxor 1 curval else curval) n)) k
  = if (k =? n)%Z then v else Z.testbit b k.
Proof.
  intros Hn Hk curval. subst curval. rewrite land_shiftr_1 by done.
  assert ((if v then Z.lxor 1 (Z.b2z (Z.testbit b n)) else Z.b2z (Z.testbit b n))
    = Z.b2z (xorb v (Z.testbit b n))) as -> by (by destruct v, (Z.testbit b n)).
  rewrite Z.lxor_spec, Z.shiftl_spec by done.
  destruct (Z.eqb_spec k n) as [->|Hne].
  - rewrite Z.sub_diag.
    by destruct v, (Z.testbit b n).
  - assert (Z.testbit (Z.b2z (xorb v (Z.testbit b n))) (k - n) = false) as ->.
    { destruct (Z.ltb_spec (k - n) 0); [by apply Z.testbit_neg_r|].
      destruct (xorb _ _); simpl Z.b2z; [|apply Z.testbit_0_l].
      apply Z.bits_above_log2; simpl; lia. }
    apply xorb_false_r.
Qed.

(** Padding with zero bytes leaves the bits. *)
Lemma bit_pad m n i : bit (m ++ replicate n 0%Z) i = bit m i.
Proof.
  unfold bit. destruct (decide (i / 8 < length m)) as [Hi|Hi].
  - by rewrite lookup_app_l.
  - rewrite lookup_app_r, (proj2 (lookup_ge_None m _)) by lia.
    destruct (replicate n 0%Z !! _) as [b|] eqn:Hb; [|done].
    apply lookup_replicate in Hb as [-> _]. apply Z.testbit_0_l.
Qed.

Lemma div_mod_8_eq i j : i / 8 = j / 8 → i `mod` 8 = j `mod` 8 → i = j.
Proof. pose proof (Nat.div_mod_eq i 8). pose proof (Nat.div_mod_eq j 8). lia. Qed.

Lemma bit_insert m k byte i :
  k < length m →
  bit (<[k:=byte]> m) i
  = if i / 8 =? k then Z.testbit byte (7 - Z.of_nat (i `mod` 8)) else bit m i.
Proof.
  intros Hk. unfold bit. destruct (Nat.eqb_spec (i / 8) k) as [->|Hne].
  - by rewrite list_lookup_insert_eq.
  - by rewrite list_lookup_insert_ne.
Qed.

Lemma set_spec m idx v :
  ∃ m', set (Mk m) idx v = Ok (Mk m') ∧ length m' = length m `max` (idx / 8 + 1) ∧
    ∀ j, bit m' j = if j =? idx then v else bit m j.
Proof.
  unfold set. simpl map. rewrite shiftr_3, land_7.
  set (p := if length m <=? idx / 8 then _ else m).
  assert (Hp : length p = length m `max` (idx / 8 + 1) ∧ ∀ j, bit p j = bit m j).
  { subst p. destruct (Nat.leb_spec (length m) (idx / 8)).
    - rewrite length_app, length_replicate. split; [lia|]. intros. apply bit_pad.
    - split; [lia|done]. }
  destruct Hp as [Hlen Hbit].
  destruct (lookup_lt_is_Some_2 p (idx / 8)) as [byte Hbyte]; [lia|].
  rewrite (index_Ok _ _ _ Hbyte). eexists. split; [reflexivity|].
  rewrite length_insert. split; [done|]. intros j.
  rewrite bit_insert by lia. rewrite <- Hbit.
  pose proof (Nat.mod_upper_bound idx 8). pose proof (Nat.mod_upper_bound j 8).
  destruct (Nat.eqb_spec (j / 8) (idx / 8)) as [Hj|Hj].
  - rewrite testbit_flip by lia. unfold bit at 1. rewrite Hj, Hbyte.
    destruct (Nat.eqb_spec j idx) as [->|Hne]; [by rewrite Z.eqb_refl|].
    destruct (Z.eqb_spec (7 - Z.of_nat (j `mod` 8)) (7 - Z.of_nat (idx `mod` 8))); [|done].
    exfalso. apply Hne, div_mod_8_eq; lia.
  - destruct (Nat.eqb_spec j idx); [congruence|done].
Qed.

Lemma get_spec m idx : idx / 8 < length m → get (Mk m) idx = Ok (Some (bit m idx)).
Proof.
  intros Hi. unfold get. simpl map. rewrite shiftr_3, land_7, Nat.shiftl_mul_pow2.
  rewrite (proj2 (Nat.leb_gt _ _)).
  2:{ pose proof (Nat.div_mod_eq idx 8). pose proof (Nat.mod_upper_bound idx 8).
      change (2 ^ 8) with 256. lia. }
  destruct (lookup_lt_is_Some_2 m (idx / 8)) as [byte Hbyte]; [lia|].
  rewrite (index_Ok _ _ _ Hbyte). unfold bit. rewrite Hbyte. simpl.
  rewrite land_shiftr_1 by (pose proof (Nat.mod_upper_bound idx 8); lia).
  by destruct (Z.testbit _ _).
Qed.

(** The bound of [get] is [len << 8] where it should be [len << 3]: between the
    two, the byte is out of range and [get] panics instead of returning [None]. *)
Lemma get_out_of_range m idx :
  length m ≤ idx / 8 → get (Mk m) idx = if length m * 256 <=? idx then Ok None else Panic.
Proof.
  intros Hi. unfold get. simpl map. rewrite shiftr_3, land_7, Nat.shiftl_mul_pow2.
  change (2 ^ 8) with 256. destruct (Nat.leb_spec (length m * 256) idx); [done|].
  unfold index. by rewrite (proj2 (lookup_ge_None m _)).
Qed.

End BitmapFacts.

(** ** Round trips *)
Module TupleCodecFacts.
Import BitmapFacts.

(** A value [ScalarValueCodec::encode] accepts: varchars fit a [u16] length. *)
Definition encodable (v : ScalarValue.t) : Prop :=
  match v with
  | ScalarValue.Varchar (Some s) => (Z.of_nat (length (string_bytes s)) ≤ 65535)%Z
  | _ => True
  end.

Lemma scalar_round_trip v dt :
  ScalarValueFacts.typed dt v → encodable v → ScalarValue.is_null v = false →
  ∃ bs, ScalarValueCodec.encode v = Ok bs ∧
    ∀ rest, ScalarValueCodec.decode (bs ++ rest) dt = Ok (v, length bs).
Proof.
  intros [Ht Hok] Henc Hnull.
  destruct dt, v as [[b|]|[z|]|[z|]|[z|]|[z|]|[z|]|[z|]|[z|]|[z|]|[z|]|[z|]|[s|]];
    try discriminate Hnull; try discriminate Ht; simpl in Hok;
    try (eexists; split; [reflexivity|]; intros rest;
      cbv beta iota delta [ScalarValueCodec.decode]; autorewrite with codec;
      cbn [mbind result_bind]; by rewrite ?encode_bool_length).
  simpl in Henc. unfold ScalarValueCodec.encode, ScalarValueCodec.decode.
  cbn -[to_be_bytes]. rewrite (proj2 (Z.ltb_ge _ _)) by lia. eexists. split; [reflexivity|]. intros rest.
  rewrite <- app_assoc.
  rewrite decode_u16_app by (unfold unsigned_ok; lia). cbn -[to_be_bytes].
  rewrite slice_from_app by done. cbn -[to_be_bytes].
  rewrite slice_app by (unfold encode_string; lia). cbn -[to_be_bytes].
  rewrite decode_string_encode by done. cbn -[to_be_bytes].
  rewrite slice_from_app by done. cbn -[to_be_bytes].
  rewrite usub_Ok by (rewrite !length_app; lia). cbn -[to_be_bytes].
  do 2 f_equal. rewrite !length_app. lia.
Qed.

Definition nulls_at (nm : list Z) (idx : nat) (values : list ScalarValue.t) : Prop :=
  ∀ k v, values !! k = Some v → bit nm (idx + k) = ScalarValue.is_null v.

Lemma nulls_at_cons nm idx v values :
  nulls_at nm idx (v :: values) ↔
  bit nm idx = ScalarValue.is_null v ∧ nulls_at nm (S idx) values.
Proof.
  unfold nulls_at. split.
  - intros H. split; [rewrite <- (Nat.add_0_r idx); by apply H|].
    intros k w Hk. rewrite Nat.add_succ_comm. by apply H.
  - intros [Hv H] [|k] w Hk; simplify_eq/=; [by rewrite Nat.add_0_r|].
    rewrite <- Nat.add_succ_comm. by apply H.
Qed.

Lemma encode_decode_values cols values :
  SchemaFacts.values_ok cols values → Forall encodable values →
  ∀ idx m attrs, length m = (idx + 7) / 8 →
  ∃ m' bs,
    TupleCodec.encode_values idx values (DynamicBitmap.Mk m) attrs
      = Ok (DynamicBitmap.Mk m', attrs ++ bs) ∧
    length m' = (idx + length values + 7) / 8 ∧
    (∀ j, j < idx → bit m' j = bit m j) ∧ nulls_at m' idx values ∧
    ∀ nm data off rest, nulls_at nm idx values → idx + length values ≤ 8 * length nm →
      TupleCodec.decode_columns idx cols (DynamicBitmap.Mk nm) data off (bs ++ rest)
      = Ok (data ++ values, off + length bs).
Proof.
  induction 1 as [|col v cols values Hv Hvs IH]; intros Henc idx m attrs Hm.
  { exists m, []. simpl. rewrite !app_nil_r, Nat.add_0_r.
    split_and!; [done..|by intros ? ? H; rewrite lookup_nil in H|].
    intros. by rewrite app_nil_r, Nat.add_0_r. }
  apply Forall_cons in Henc as [He Henc]. simpl.
  destruct (set_spec m idx (ScalarValue.is_null v)) as (m1 & -> & Hlen & Hbit). simpl.
  assert (Hm1 : length m1 = (S idx + 7) / 8).
  { rewrite Hlen, Hm. replace (S idx + 7) with (idx + 1 * 8) by lia.
    rewrite Nat.div_add by lia. apply Nat.max_r.
    rewrite <- Nat.div_add by lia. apply Nat.Div0.div_le_mono. lia. }
  assert (Hget : ∀ nm, nulls_at nm idx (v :: values) →
    idx + S (length values) ≤ 8 * length nm →
    DynamicBitmap.get (DynamicBitmap.Mk nm) idx = Ok (Some (ScalarValue.is_null v))).
  { intros nm Hn Hl. apply nulls_at_cons in Hn as [<- _]. apply get_spec.
    apply Nat.Div0.div_lt_upper_bound. lia. }
  assert (Hend : ∀ m' : list Z, (∀ j, j < S idx → bit m' j = bit m1 j) →
    nulls_at m' (S idx) values →
    (∀ j, j < idx → bit m' j = bit m j) ∧ nulls_at m' idx (v :: values)).
  { intros m' Hlow Hn. split.
    - intros j Hj. rewrite Hlow, Hbit by lia. by rewrite (proj2 (Nat.eqb_neq _ _)) by lia.
    - apply nulls_at_cons. split; [|done]. rewrite Hlow, Hbit by lia. by rewrite Nat.eqb_refl. }
  destruct (ScalarValue.is_null v) eqn:Hnull.
  - destruct (IH Henc (S idx) m1 attrs Hm1) as (m' & bs & -> & Hl & Hlow & Hn & Hdec).
    exists m', bs. split_and!; [done|by rewrite Hl, Nat.add_succ_comm|by apply Hend..|].
    intros nm data off rest Hnm Hle. rewrite Hget by done. simpl.
    rewrite Hdec; [|by apply nulls_at_cons in Hnm as []|lia].
    rewrite <- app_assoc. simpl. do 4 f_equal. destruct Hv as [Ht _].
    rewrite <- ScalarValueFacts.new_empty_erase, <- Ht. symmetry.
    by apply ScalarValueFacts.is_null_new_empty.
  - destruct (scalar_round_trip v _ Hv He Hnull) as (b & -> & Hd). simpl.
    destruct (IH Henc (S idx) m1 (attrs ++ b) Hm1) as (m' & bs & -> & Hl & Hlow & Hn & Hdec).
    exists m', (b ++ bs).
    split_and!; [by rewrite app_assoc|by rewrite Hl, Nat.add_succ_comm|by apply Hend..|].
    intros nm data off rest Hnm Hle. rewrite Hget by done. simpl.
    rewrite <- app_assoc, Hd. simpl. rewrite slice_from_app by done. simpl.
    rewrite Hdec; [|by apply nulls_at_cons in Hnm as []|lia].
    rewrite <- app_assoc, length_app. simpl. do 2 f_equal. lia.
Qed.

(** The bytes of a tuple decode, with its schema, to the tuple, whatever
    follows them. *)
Lemma tuple_round_trip s t :
  Tuple.ok s t → Forall encodable (Tuple.data t) →
  ∃ bs, TupleCodec.encode t = Ok bs ∧
    ∀ rest, TupleCodec.decode (bs ++ rest) s = Ok (t, length bs).
Proof.
  intros [Hs Hd] Henc.
  destruct (encode_decode_values _ _ Hd Henc 0 [] [] eq_refl)
    as (m & attrs & Hval & Hlen & _ & Hn & Hdec). simpl in Hval, Hlen.
  unfold TupleCodec.encode, DynamicBitmap.new. rewrite Hval. simpl. eexists. split; [reflexivity|].
  intros rest. unfold TupleCodec.decode, TupleCodec.null_map_len, Schema.column_count.
  unfold DynamicBitmap.to_bytes. simpl.
  rewrite (Forall2_length _ _ _ Hd), <- Hlen, <- app_assoc.
  rewrite slice_app by done. simpl. rewrite slice_from_app by done. simpl.
  unfold DynamicBitmap.from_bytes. rewrite Hdec; [|done|].
  2:{ rewrite Hlen. pose proof (Nat.div_mod_eq (length (Tuple.data t) + 7) 8).
      pose proof (Nat.mod_upper_bound (length (Tuple.data t) + 7) 8). lia. }
  simpl. destruct (SchemaFacts.tuple_new_Ok s (Tuple.data t) Hd) as [-> _]. simpl.
  rewrite length_app. destruct t; simpl in *; subst. done.
Qed.

End TupleCodecFacts.

(** ** Properties *)
Module TupleCodecSpec.
Import TupleCodecFacts.

(** C32: a tuple round trips through its bytes. For a tuple that satisfies the
    [Tuple::new] invariant of its schema and whose varchars fit the [u16] length
    prefix, [TupleCodec::encode] does not panic, and [TupleCodec::decode] of the
    bytes, whatever bytes follow them, returns the same tuple (nulls, varchars and
    every numeric type included) and the number of bytes of the encoding. *)
Theorem tuple_codec_round_trip s t rest :
  Tuple.ok s t → Forall encodable (Tuple.data t) →
  ∃ bs, TupleCodec.encode t = Ok bs ∧ TupleCodec.decode (bs ++ rest) s = Ok (t, length bs).
Proof.
  intros Ht He. destruct (tuple_round_trip s t Ht He) as (bs & Hb & Hd). by exists bs.
Qed.

Definition demo_schema : Schema.t :=
  Schema.Mk [Column.new "a" DataType.Int8 true; Column.new "b" (DataType.Varchar None) true;
             Column.new "c" DataType.UInt64 true].

Lemma tuple_codec_round_trip_witness :
  let t := Tuple.Mk demo_schema
    [ScalarValue.Int8 (Some (-3)%Z); ScalarValue.Varchar (Some "hi"); ScalarValue.UInt64 None] in
  ∃ bs, TupleCodec.encode t = Ok bs ∧ bs = [32; 253; 0; 2; 104; 105]%Z ∧
    TupleCodec.decode (bs ++ [9; 9]%Z) demo_schema = Ok (t, 6).
Proof.
  intros t. destruct (tuple_codec_round_trip demo_schema t [9; 9]%Z) as (bs & He & Hd).
  - split; [done|]. repeat (apply Forall2_cons; split; [done|]). done.
  - repeat (apply Forall_cons; split; [done|]). done.
  - exists bs. assert (bs = [32; 253; 0; 2; 104; 105]%Z) as ->.
    { vm_compute in He. by injection He. }
    split_and!; done.
Defined.

(** The dynamic bitmap implements a growing bit set. [set] never panics, grows
    the map to the byte of the index and no further, writes that bit and leaves every
    other one; [get] inside the map returns the bit. *)
Theorem bitmap_set_get m idx v :
  ∃ m', DynamicBitmap.set (DynamicBitmap.Mk m) idx v = Ok (DynamicBitmap.Mk m') ∧
    length m' = length m `max` (idx / 8 + 1) ∧
    DynamicBitmap.get (DynamicBitmap.Mk m') idx = Ok (Some v) ∧
    ∀ j, j / 8 < length m → j ≠ idx →
      DynamicBitmap.get (DynamicBitmap.Mk m') j = DynamicBitmap.get (DynamicBitmap.Mk m) j.
Proof.
  destruct (BitmapFacts.set_spec m idx v) as (m' & Hs & Hl & Hb).
  exists m'. split_and!; [done..| |].
  - rewrite BitmapFacts.get_spec by lia. by rewrite Hb, Nat.eqb_refl.
  - intros j Hj Hne. rewrite !BitmapFacts.get_spec by lia.
    by rewrite Hb, (proj2 (Nat.eqb_neq _ _)).
Qed.

End TupleCodecSpec.
