(* ===== verification/TablePage.v ===== *)
(** * TablePage: slotted table pages

    Models [bustubx/src/storage/page/table_page.rs] and
    [bustubx/src/storage/codec/table_page.rs]: the header and the tuple slots of a
    page, the operations on it and its byte layout. [rep] relates a page to the list
    of rows it stores; the lemmas show each operation against that list. *)
From S2P Require Import Prelude CommonCodec Floats Scalar Schema TupleCodec.
Local Open Scope Z_scope.

(** buffer/page.rs *)
Definition BUSTUBX_PAGE_SIZE : nat := 4096.
Definition INVALID_PAGE_ID : Z := 0.

Module TupleMeta.
Record t := Mk { insert_txn_id : Z; delete_txn_id : Z; is_deleted : bool }.

#[global] Instance eq_dec : EqDecision t.
Proof. solve_decision. Defined.
End TupleMeta.

Definition EMPTY_TUPLE_META : TupleMeta.t := TupleMeta.Mk 0 0 false.

Module TupleInfo.
Record t := Mk { offset : Z; size : Z; meta : TupleMeta.t }.
End TupleInfo.

Definition EMPTY_TUPLE_INFO : TupleInfo.t := TupleInfo.Mk 0 0 EMPTY_TUPLE_META.

Module RecordId.
Record t := Mk { page_id : Z; slot_num : Z }.

#[global] Instance eq_dec : EqDecision t.
Proof. solve_decision. Defined.
End RecordId.

Definition INVALID_RID : RecordId.t := RecordId.Mk INVALID_PAGE_ID 0.

Module TablePageHeader.
Record t := Mk {
  next_page_id : Z;
  num_tuples : Z;
  num_deleted_tuples : Z;
  tuple_infos : list TupleInfo.t;
}.
End TablePageHeader.

(** ** Header codecs *)
Module TablePageHeaderTupleInfoCodec.

Definition encode (tuple_info : TupleInfo.t) : list Z :=
  encode_u16 (TupleInfo.offset tuple_info) ++
  encode_u16 (TupleInfo.size tuple_info) ++
  encode_u64 (TupleMeta.insert_txn_id (TupleInfo.meta tuple_info)) ++
  encode_u64 (TupleMeta.delete_txn_id (TupleInfo.meta tuple_info)) ++
  encode_bool (TupleMeta.is_deleted (TupleInfo.meta tuple_info)).

Definition decode (bytes : list Z) : result (DecodedData TupleInfo.t) :=
  '(tuple_offset, offset) ← decode_u16 bytes;
  left_bytes ← slice_from bytes offset;
  '(size, offset) ← decode_u16 left_bytes;
  left_bytes ← slice_from left_bytes offset;
  '(insert_txn_id, offset) ← decode_u64 left_bytes;
  left_bytes ← slice_from left_bytes offset;
  '(delete_txn_id, offset) ← decode_u64 left_bytes;
  left_bytes ← slice_from left_bytes offset;
  '(is_deleted, offset) ← decode_bool left_bytes;
  left_bytes ← slice_from left_bytes offset;
  consumed ← usub (length bytes) (length left_bytes);
  Ok (TupleInfo.Mk tuple_offset size
        (TupleMeta.Mk insert_txn_id delete_txn_id is_deleted), consumed).

End TablePageHeaderTupleInfoCodec.

Module TablePageHeaderCodec.

Definition encode (header : TablePageHeader.t) : list Z :=
  encode_u32 (TablePageHeader.next_page_id header) ++
  encode_u16 (TablePageHeader.num_tuples header) ++
  encode_u16 (TablePageHeader.num_deleted_tuples header) ++
  flat_map TablePageHeaderTupleInfoCodec.encode (TablePageHeader.tuple_infos header).

(** [for _ in 0..num_tuples]: the infos so far and the bytes left. *)
Fixpoint decode_infos (n : nat) (tuple_infos : list TupleInfo.t) (left_bytes : list Z) :
    result (list TupleInfo.t * list Z) :=
  match n with
  | O => Ok (tuple_infos, left_bytes)
  | S n' =>
      '(tuple_info, offset) ← TablePageHeaderTupleInfoCodec.decode left_bytes;
      left_bytes ← slice_from left_bytes offset;
      decode_infos n' (tuple_infos ++ [tuple_info]) left_bytes
  end.

Definition decode (bytes : list Z) : result (DecodedData TablePageHeader.t) :=
  '(next_page_id, offset) ← decode_u32 bytes;
  left_bytes ← slice_from bytes offset;
  '(num_tuples, offset) ← decode_u16 left_bytes;
  left_bytes ← slice_from left_bytes offset;
  '(num_deleted_tuples, offset) ← decode_u16 left_bytes;
  left_bytes ← slice_from left_bytes offset;
  '(tuple_infos, left_bytes) ← decode_infos (Z.to_nat num_tuples) [] left_bytes;
  consumed ← usub (length bytes) (length left_bytes);
  Ok (TablePageHeader.Mk next_page_id num_tuples num_deleted_tuples tuple_infos, consumed).

End TablePageHeaderCodec.

Module RidCodec.

Definition encode (rid : RecordId.t) : list Z :=
  encode_u32 (RecordId.page_id rid) ++ encode_u32 (RecordId.slot_num rid).

Definition decode (bytes : list Z) : result (DecodedData RecordId.t) :=
  '(page_id, offset) ← decode_u32 bytes;
  left_bytes ← slice_from bytes offset;
  '(slot_num, offset) ← decode_u32 left_bytes;
  left_bytes ← slice_from left_bytes offset;
  consumed ← usub (length bytes) (length left_bytes);
  Ok (RecordId.Mk page_id slot_num, consumed).

End RidCodec.

(** ** The page

    An operation on [&mut self] returns the new page; on an error the page is
    unchanged, since every early return precedes the first write. *)
Module TablePage.
Import TablePageHeader.

Record t := Mk { schema : Schema.t; header : TablePageHeader.t; data : list Z }.

Definition new (schema : Schema.t) (next_page_id : Z) : t :=
  Mk schema (TablePageHeader.Mk next_page_id 0 0 []) (replicate BUSTUBX_PAGE_SIZE 0).

Definition no_space_error {A} : result A := Err (Storage "No enough space to store tuple").
Definition out_of_range_error {A} : result A := Err (Storage "tuple_id {} out of range").

Definition next_tuple_offset (self : t) (tuple : Tuple.t) : result Z :=
  slot_end_offset ←
    (if 0 <? num_tuples (header self) then
       last ← index (tuple_infos (header self)) (Z.to_nat (num_tuples (header self) - 1));
       Ok (TupleInfo.offset last)
     else Ok (Z.of_nat BUSTUBX_PAGE_SIZE));
  tuple_bytes ← TupleCodec.encode tuple;
  let tuple_len := Z.of_nat (length tuple_bytes) in
  if slot_end_offset <? tuple_len then no_space_error
  else
    let tuple_offset := slot_end_offset - tuple_len in
    let min_tuple_offset :=
      Z.of_nat (length (TablePageHeaderCodec.encode (header self)) +
                length (TablePageHeaderTupleInfoCodec.encode EMPTY_TUPLE_INFO)) in
    if tuple_offset <? min_tuple_offset then no_space_error
    else Ok tuple_offset.

Definition insert_tuple (self : t) (meta : TupleMeta.t) (tuple : Tuple.t) : result (t * Z) :=
  tuple_offset ← next_tuple_offset self tuple;
  let tuple_id := num_tuples (header self) in
  tuple_bytes ← TupleCodec.encode tuple;
  let len := Z.of_nat (length tuple_bytes) in
  _ ← assert_true (len <? 65535);
  let infos := tuple_infos (header self) ++
    [TupleInfo.Mk (wrap 16 tuple_offset) (wrap 16 len) meta] in
  last ← checked 16 (wrap 16 (Z.of_nat (length infos)) - 1);
  _ ← assert_true (tuple_id =? last);
  num_tuples ← checked 16 (num_tuples (header self) + 1);
  num_deleted_tuples ←
    (if TupleMeta.is_deleted meta then checked 16 (num_deleted_tuples (header self) + 1)
     else Ok (num_deleted_tuples (header self)));
  data ← copy_at (data self) (Z.to_nat tuple_offset) tuple_bytes;
  Ok (Mk (schema self)
        (TablePageHeader.Mk (next_page_id (header self)) num_tuples num_deleted_tuples infos)
        data, tuple_id).

Definition update_tuple_meta (self : t) (meta : TupleMeta.t) (slot_num : Z) : result t :=
  if num_tuples (header self) <=? slot_num then out_of_range_error
  else
    info ← index (tuple_infos (header self)) (Z.to_nat slot_num);
    num_deleted_tuples ←
      (if TupleMeta.is_deleted meta && negb (TupleMeta.is_deleted (TupleInfo.meta info))
       then checked 16 (num_deleted_tuples (header self) + 1)
       else Ok (num_deleted_tuples (header self)));
    let info' := TupleInfo.Mk (TupleInfo.offset info) (TupleInfo.size info) meta in
    Ok (Mk (schema self)
          (TablePageHeader.Mk (next_page_id (header self)) (num_tuples (header self))
             num_deleted_tuples
             (<[Z.to_nat slot_num := info']> (tuple_infos (header self))))
          (data self)).

(** The bytes of a slot: [&self.data[offset..(offset + size)]], with the [u16] sum. *)
Definition slot_bytes (self : t) (info : TupleInfo.t) : result (list Z) :=
  hi ← checked 16 (TupleInfo.offset info + TupleInfo.size info);
  slice (data self) (Z.to_nat (TupleInfo.offset info)) (Z.to_nat hi).

Definition read_slot (self : t) (info : TupleInfo.t) : result (TupleMeta.t * Tuple.t) :=
  bytes ← slot_bytes self info;
  '(tuple, _) ← TupleCodec.decode bytes (schema self);
  Ok (TupleInfo.meta info, tuple).

Definition insert_row (page : t) (row : TupleMeta.t * Tuple.t) : result t :=
  '(page, _) ← insert_tuple page row.1 row.2; Ok page.

Definition update_tuple (self : t) (tuple : Tuple.t) (slot_num : Z) : result t :=
  if num_tuples (header self) <=? slot_num then out_of_range_error
  else
    info ← index (tuple_infos (header self)) (Z.to_nat slot_num);
    tuple_bytes ← TupleCodec.encode tuple;
    if Z.of_nat (length tuple_bytes) =? TupleInfo.size info then
      data ← copy_at (data self) (Z.to_nat (TupleInfo.offset info)) tuple_bytes;
      Ok (Mk (schema self) (header self) data)
    else
      full_tuples ← mapR (read_slot self) (tuple_infos (header self));
      row ← index full_tuples (Z.to_nat slot_num);
      let full_tuples := <[Z.to_nat slot_num := (row.1, tuple)]> full_tuples in
      new_page ← foldR insert_row (new (schema self) (next_page_id (header self))) full_tuples;
      Ok (Mk (schema self) (header new_page) (data new_page)).

Definition tuple (self : t) (slot_num : Z) : result (TupleMeta.t * Tuple.t) :=
  if num_tuples (header self) <=? slot_num then out_of_range_error
  else
    info ← index (tuple_infos (header self)) (Z.to_nat slot_num);
    read_slot self info.

Definition tuple_meta (self : t) (slot_num : Z) : result TupleMeta.t :=
  if num_tuples (header self) <=? slot_num then out_of_range_error
  else
    info ← index (tuple_infos (header self)) (Z.to_nat slot_num);
    Ok (TupleInfo.meta info).

Definition get_next_rid (self : t) (rid : RecordId.t) : result (option RecordId.t) :=
  next ← checked 32 (RecordId.slot_num rid + 1);
  if num_tuples (header self) <=? next then Ok None
  else Ok (Some (RecordId.Mk (RecordId.page_id rid) next)).

End TablePage.

Module TablePageCodec.

Definition encode (page : TablePage.t) : result (list Z) :=
  copy_at (TablePage.data page) 0 (TablePageHeaderCodec.encode (TablePage.header page)).

Definition decode (bytes : list Z) (schema : Schema.t) : result (DecodedData TablePage.t) :=
  if negb (length bytes =? BUSTUBX_PAGE_SIZE)%nat then
    Err (Storage "Table page size is not {} instead of {}")
  else
    '(header, _) ← TablePageHeaderCodec.decode bytes;
    data ← slice bytes 0 BUSTUBX_PAGE_SIZE;
    Ok (TablePage.Mk schema header data, BUSTUBX_PAGE_SIZE).

End TablePageCodec.

(** ** Facts *)
Module TablePageFacts.
Import TablePageHeader TablePage.

Definition meta_ok (m : TupleMeta.t) : Prop :=
  unsigned_ok 64 (TupleMeta.insert_txn_id m) ∧ unsigned_ok 64 (TupleMeta.delete_txn_id m).

Definition info_ok (i : TupleInfo.t) : Prop :=
  unsigned_ok 16 (TupleInfo.offset i) ∧ unsigned_ok 16 (TupleInfo.size i) ∧
  meta_ok (TupleInfo.meta i).

Lemma info_length i : length (TablePageHeaderTupleInfoCodec.encode i) = 21%nat.
Proof. unfold TablePageHeaderTupleInfoCodec.encode. by autorewrite with codec_length. Qed.

Lemma header_length h :
  length (TablePageHeaderCodec.encode h) = (8 + 21 * length (tuple_infos h))%nat.
Proof.
  unfold TablePageHeaderCodec.encode. autorewrite with codec_length.
  induction (tuple_infos h) as [|i l IH]; [done|].
  cbn [flat_map length]. rewrite length_app, info_length. lia.
Qed.

Lemma info_round_trip i rest :
  info_ok i →
  TablePageHeaderTupleInfoCodec.decode (TablePageHeaderTupleInfoCodec.encode i ++ rest)
  = Ok (i, 21%nat).
Proof.
  destruct i as [o s [a b d]]. intros (Ho & Hs & Ha & Hb); simpl in *.
  unfold TablePageHeaderTupleInfoCodec.decode, TablePageHeaderTupleInfoCodec.encode.
  cbn [TupleInfo.offset TupleInfo.size TupleInfo.meta TupleMeta.insert_txn_id
    TupleMeta.delete_txn_id TupleMeta.is_deleted].
  rewrite <- !app_assoc. decode_steps. decode_consumed.
Qed.

Lemma infos_round_trip infos acc rest :
  Forall info_ok infos →
  TablePageHeaderCodec.decode_infos (length infos) acc
    (flat_map TablePageHeaderTupleInfoCodec.encode infos ++ rest)
  = Ok (acc ++ infos, rest).
Proof.
  intros H. revert acc. induction H as [|i infos Hi _ IH]; intros acc.
  { simpl. by rewrite app_nil_r. }
  cbn [flat_map length TablePageHeaderCodec.decode_infos].
  rewrite <- app_assoc, info_round_trip by done. cbn [mbind result_bind].
  rewrite slice_from_app by (by rewrite info_length). cbn [mbind result_bind].
  by rewrite IH, <- app_assoc.
Qed.

Definition header_ok (h : TablePageHeader.t) : Prop :=
  unsigned_ok 32 (next_page_id h) ∧ unsigned_ok 16 (num_tuples h) ∧
  unsigned_ok 16 (num_deleted_tuples h) ∧
  num_tuples h = Z.of_nat (length (tuple_infos h)) ∧ Forall info_ok (tuple_infos h).

Lemma header_round_trip h rest :
  header_ok h →
  TablePageHeaderCodec.decode (TablePageHeaderCodec.encode h ++ rest)
  = Ok (h, length (TablePageHeaderCodec.encode h)).
Proof.
  destruct h as [p n d infos]. intros (Hp & Hn & Hd & Hlen & Hi); simpl in *.
  unfold TablePageHeaderCodec.decode, TablePageHeaderCodec.encode.
  cbn [next_page_id num_tuples num_deleted_tuples tuple_infos].
  rewrite <- !app_assoc. decode_steps.
  rewrite Hlen, Nat2Z.id, infos_round_trip by done. cbn [mbind result_bind app].
  decode_consumed.
Qed.

Lemma rid_round_trip rid rest :
  unsigned_ok 32 (RecordId.page_id rid) → unsigned_ok 32 (RecordId.slot_num rid) →
  RidCodec.decode (RidCodec.encode rid ++ rest) = Ok (rid, 8%nat).
Proof.
  destruct rid as [p s]. intros Hp Hs; simpl in *. unfold RidCodec.decode, RidCodec.encode.
  cbn [RecordId.page_id RecordId.slot_num].
  rewrite <- app_assoc. decode_steps. decode_consumed.
Qed.

(** ** The rows of a page

    The slots are packed downwards from [hi], the end of the page: the first ends
    at [hi] and each next one ends where the previous starts. *)
Fixpoint packed (hi : Z) (infos : list TupleInfo.t) : Prop :=
  match infos with
  | [] => True
  | i :: infos' =>
      TupleInfo.offset i + TupleInfo.size i = hi ∧
      0 ≤ TupleInfo.offset i ∧ 0 ≤ TupleInfo.size i ∧ packed (TupleInfo.offset i) infos'
  end.

(** The end of the free space. *)
Fixpoint free_end (hi : Z) (infos : list TupleInfo.t) : Z :=
  match infos with
  | [] => hi
  | i :: infos' => free_end (TupleInfo.offset i) infos'
  end.

Definition slot_lo (i : TupleInfo.t) : nat := Z.to_nat (TupleInfo.offset i).
Definition slot_hi (i : TupleInfo.t) : nat := Z.to_nat (TupleInfo.offset i + TupleInfo.size i).

Lemma packed_bounds hi infos :
  0 ≤ hi → packed hi infos →
  0 ≤ free_end hi infos ≤ hi ∧
  ∀ k i, infos !! k = Some i →
    free_end hi infos ≤ TupleInfo.offset i ∧ 0 ≤ TupleInfo.size i ∧
    TupleInfo.offset i + TupleInfo.size i ≤ hi.
Proof.
  revert hi. induction infos as [|j infos IH]; intros hi Hhi; simpl; [done|].
  intros (Hj & H0 & H1 & Hp). destruct (IH _ H0 Hp) as [Hf Hk]. split; [lia|].
  intros [|k] i Hi; simpl in Hi; [injection Hi as <-; lia|].
  specialize (Hk _ _ Hi). lia.
Qed.

Lemma packed_disjoint hi infos k1 k2 i1 i2 :
  0 ≤ hi → packed hi infos → (k1 < k2)%nat →
  infos !! k1 = Some i1 → infos !! k2 = Some i2 →
  TupleInfo.offset i2 + TupleInfo.size i2 ≤ TupleInfo.offset i1.
Proof.
  revert hi k1 k2. induction infos as [|j infos IH]; intros hi k1 k2 Hhi; simpl; [done|].
  intros (Hj & H0 & H1 & Hp) Hlt Hk1 Hk2.
  destruct k1 as [|k1], k2 as [|k2]; simpl in *; try lia; [|apply (IH _ k1 k2 H0); [done|lia|done..]].
  injection Hk1 as <-. destruct (packed_bounds _ _ H0 Hp) as [_ Hb]. by apply Hb in Hk2 as (_ & _ & ?).
Qed.

Lemma packed_snoc hi infos i :
  packed hi (infos ++ [i]) ↔
  packed hi infos ∧ TupleInfo.offset i + TupleInfo.size i = free_end hi infos ∧
  0 ≤ TupleInfo.offset i ∧ 0 ≤ TupleInfo.size i.
Proof.
  revert hi. induction infos as [|j infos IH]; intros hi; simpl; [tauto|].
  rewrite IH. tauto.
Qed.

Lemma free_end_snoc hi infos i : free_end hi (infos ++ [i]) = TupleInfo.offset i.
Proof. revert hi. by induction infos as [|j infos IH]; intros; simpl. Qed.

Notation row := (TupleMeta.t * Tuple.t)%type.

Definition row_ok (s : Schema.t) (r : row) : Prop :=
  meta_ok r.1 ∧ Tuple.ok s r.2 ∧ Forall TupleCodecFacts.encodable (Tuple.data r.2).

(** Slot [i] holds row [r]. *)
Definition stored (data : list Z) (i : TupleInfo.t) (r : row) : Prop :=
  TupleInfo.meta i = r.1 ∧
  ∃ bs, TupleCodec.encode r.2 = Ok bs ∧ TupleInfo.size i = Z.of_nat (length bs) ∧
    slice data (slot_lo i) (slot_hi i) = Ok bs.

(** The bytes a row takes: its slot and its 21-byte entry in the header. *)
Definition row_space (r : row) : Z :=
  match TupleCodec.encode r.2 with Ok bs => 21 + Z.of_nat (length bs) | _ => 21 end.

Definition space (rows : list row) : Z := 8 + foldr (λ r n, row_space r + n) 0 rows.

Definition deleted_count (rows : list row) : Z :=
  foldr (λ r n, (if TupleMeta.is_deleted r.1 then 1 else 0) + n) 0 rows.

Definition page_end : Z := Z.of_nat BUSTUBX_PAGE_SIZE.

Record rep (p : t) (rows : list row) : Prop := Rep {
  rep_data : length (data p) = BUSTUBX_PAGE_SIZE;
  rep_next : unsigned_ok 32 (next_page_id (header p));
  rep_num : num_tuples (header p) = Z.of_nat (length (tuple_infos (header p)));
  rep_deleted : num_deleted_tuples (header p) = deleted_count rows;
  rep_packed : packed page_end (tuple_infos (header p));
  rep_free : 8 + 21 * Z.of_nat (length (tuple_infos (header p)))
             ≤ free_end page_end (tuple_infos (header p));
  rep_rows : Forall (row_ok (schema p)) rows;
  rep_stored : Forall2 (stored (data p)) (tuple_infos (header p)) rows;
}.

Lemma page_end_eq : page_end = 4096.
Proof. done. Qed.

Lemma row_ok_encode s r :
  row_ok s r →
  ∃ bs, TupleCodec.encode r.2 = Ok bs ∧ row_space r = 21 + Z.of_nat (length bs) ∧
    ∀ rest, TupleCodec.decode (bs ++ rest) s = Ok (r.2, length bs).
Proof.
  intros (_ & Ht & He). destruct (TupleCodecFacts.tuple_round_trip s r.2 Ht He) as (bs & Hb & Hd).
  exists bs. unfold row_space. by rewrite Hb.
Qed.

Lemma space_snoc rows r : space (rows ++ [r]) = space rows + row_space r.
Proof.
  unfold space. induction rows as [|r' rows IH]; simpl; lia.
Qed.

Lemma row_space_pos r : 21 ≤ row_space r.
Proof. unfold row_space. case_match; lia. Qed.

Lemma space_ge rows : 8 + 21 * Z.of_nat (length rows) ≤ space rows.
Proof.
  unfold space. induction rows as [|r rows IH]; simpl; [lia|].
  pose proof (row_space_pos r). lia.
Qed.

Lemma deleted_count_snoc rows r :
  deleted_count (rows ++ [r])
  = deleted_count rows + if TupleMeta.is_deleted r.1 then 1 else 0.
Proof. induction rows as [|r' rows IH]; simpl; lia. Qed.

Lemma deleted_count_bound rows : 0 ≤ deleted_count rows ≤ Z.of_nat (length rows).
Proof. induction rows as [|r rows IH]; simpl; [done|]. case_match; lia. Qed.

(** The header and the slots of the rows take exactly [space rows]. *)
Lemma free_end_space data hi infos rows :
  packed hi infos → Forall2 (stored data) infos rows →
  space rows = 8 + 21 * Z.of_nat (length infos) + (hi - free_end hi infos).
Proof.
  intros Hp H. revert hi Hp. unfold space.
  induction H as [|i r infos rows (_ & bs & He & Hs & _) _ IH]; intros hi Hp; simpl in *; [lia|].
  destruct Hp as (Hhi & _ & _ & Hp). specialize (IH _ Hp).
  assert (row_space r = 21 + TupleInfo.size i) by (unfold row_space; rewrite He; lia). lia.
Qed.

Lemma rep_length p rows : rep p rows → length (tuple_infos (header p)) = length rows.
Proof. intros H. eapply Forall2_length, rep_stored, H. Qed.

Lemma rep_space p rows :
  rep p rows →
  space rows = 8 + 21 * Z.of_nat (length rows) +
    (page_end - free_end page_end (tuple_infos (header p))).
Proof.
  intros H. rewrite <- (rep_length _ _ H).
  apply (free_end_space (data p)); [apply (rep_packed _ _ H)|apply (rep_stored _ _ H)].
Qed.

Lemma rep_space_le p rows : rep p rows → space rows ≤ page_end.
Proof.
  intros H. rewrite (rep_space _ _ H). pose proof (rep_free _ _ H).
  rewrite (rep_length _ _ H) in *. lia.
Qed.

(** A page holds at most 194 rows. *)
Lemma rep_length_bound p rows : rep p rows → (length rows ≤ 194)%nat.
Proof.
  intros H%rep_space_le. pose proof (space_ge rows). rewrite page_end_eq in *. lia.
Qed.

Lemma rep_new s next : unsigned_ok 32 next → rep (new s next) [].
Proof.
  intros. by split; simpl.
Qed.

(** *** Insertion *)
Lemma slot_end_Ok p rows :
  rep p rows →
  (if 0 <? num_tuples (header p) then
     last ← index (tuple_infos (header p)) (Z.to_nat (num_tuples (header p) - 1));
     Ok (TupleInfo.offset last)
   else Ok (Z.of_nat BUSTUBX_PAGE_SIZE))
  = Ok (free_end page_end (tuple_infos (header p))).
Proof.
  intros H. rewrite (rep_num _ _ H).
  destruct (tuple_infos (header p)) as [|i infos] eqn:Hi using rev_ind; [done|].
  rewrite length_app, free_end_snoc. simpl length.
  rewrite (proj2 (Z.ltb_lt _ _)) by lia.
  replace (Z.to_nat _) with (length infos) by lia.
  rewrite (index_Ok _ _ i); [done|]. by rewrite lookup_app_r, Nat.sub_diag.
Qed.

Lemma next_tuple_offset_spec p rows r bs :
  rep p rows → TupleCodec.encode r.2 = Ok bs →
  next_tuple_offset p r.2
  = if space (rows ++ [r]) <=? page_end
    then Ok (free_end page_end (tuple_infos (header p)) - Z.of_nat (length bs))
    else no_space_error.
Proof.
  intros H He. unfold next_tuple_offset. rewrite (slot_end_Ok _ _ H). cbn [mbind result_bind].
  rewrite He. cbn [mbind result_bind]. rewrite header_length, info_length.
  rewrite space_snoc, (rep_space _ _ H), (rep_length _ _ H).
  assert (row_space r = 21 + Z.of_nat (length bs)) as -> by (unfold row_space; by rewrite He).
  destruct (Z.ltb_spec (free_end page_end (tuple_infos (header p))) (Z.of_nat (length bs)));
    [by rewrite (proj2 (Z.leb_gt _ _)) by lia|].
  destruct (Z.ltb_spec (free_end page_end (tuple_infos (header p)) - Z.of_nat (length bs))
    (Z.of_nat (8 + 21 * length rows + 21)));
    [by rewrite (proj2 (Z.leb_gt _ _)) by lia|by rewrite (proj2 (Z.leb_le _ _)) by lia].
Qed.

(** Writing below the free space leaves the slots. *)
Lemma stored_copy_below hi infos rows d d' off bs :
  0 ≤ hi → packed hi infos → Forall2 (stored d) infos rows →
  copy_at d off bs = Ok d' → Z.of_nat (off + length bs) ≤ free_end hi infos →
  Forall2 (stored d') infos rows.
Proof.
  intros Hhi Hp H Hc Hle. apply Forall2_lookup. intros k.
  rewrite Forall2_lookup in H. specialize (H k).
  inversion H as [i r Hs Hi Hr|Hi Hr]; constructor.
  destruct Hs as (Hm & b & He & Hsz & Hsl). split; [done|]. exists b. split_and!; [done..|].
  rewrite <- Hsl. apply (slice_copy_at_other _ _ _ _ _ _ Hc). right.
  destruct (packed_bounds _ _ Hhi Hp) as [_ Hb].
  destruct (Hb k i) as (? & ? & ?); [done|]. unfold slot_lo. lia.
Qed.

Lemma insert_tuple_rep p rows r :
  rep p rows → row_ok (schema p) r → space (rows ++ [r]) ≤ page_end →
  ∃ p', insert_tuple p r.1 r.2 = Ok (p', Z.of_nat (length rows)) ∧ rep p' (rows ++ [r]) ∧
    schema p' = schema p ∧ next_page_id (header p') = next_page_id (header p).
Proof.
  intros H Hr Hsp. destruct (row_ok_encode _ _ Hr) as (bs & He & Hrs & _).
  pose proof Hsp as Hle. rewrite space_snoc, (rep_space _ _ H), Hrs, page_end_eq in Hle.
  pose proof (rep_length_bound _ _ H) as Hn. pose proof (rep_length _ _ H) as Hlen.
  pose proof (deleted_count_bound rows) as Hdc.
  destruct (packed_bounds page_end _ ltac:(done) (rep_packed _ _ H)) as [[Hf0 Hf1] _].
  rewrite page_end_eq in Hf1.
  set (fe := free_end page_end (tuple_infos (header p))) in *.
  change (free_end 4096 (tuple_infos (header p))) with fe in *.
  destruct (copy_at (data p) (Z.to_nat (fe - Z.of_nat (length bs))) bs) as [d'| |] eqn:Hc.
  2,3: exfalso; revert Hc; rewrite copy_at_Ok by (rewrite (rep_data _ _ H);
    change BUSTUBX_PAGE_SIZE with 4096%nat; lia); done.
  eexists. split; [|split; [|split]].
  { unfold insert_tuple. rewrite (next_tuple_offset_spec _ _ _ _ H He).
    rewrite (proj2 (Z.leb_le _ _)) by done. cbn [mbind result_bind].
    rewrite He. cbn [mbind result_bind].
    rewrite (proj2 (Z.ltb_lt _ _)) by lia. cbn [mbind result_bind assert_true].
    rewrite length_app, Hlen, (wrap_small _ (Z.of_nat (_ + _))) by (unfold unsigned_ok; cbn [length]; lia).
    rewrite (checked_Ok 16 (Z.of_nat _ - 1)) by (unfold unsigned_ok; cbn [length]; lia).
    cbn [mbind result_bind].
    rewrite (rep_num _ _ H), Hlen. rewrite (proj2 (Z.eqb_eq _ _)) by (cbn [length]; lia).
    cbn [mbind result_bind assert_true].
    rewrite (checked_Ok 16 (Z.of_nat _ + 1)) by (unfold unsigned_ok; cbn [length]; lia).
    cbn [mbind result_bind].
    rewrite (rep_deleted _ _ H).
    replace (if TupleMeta.is_deleted r.1 then _ else _)
      with (Ok (deleted_count (rows ++ [r]))).
    2:{ rewrite deleted_count_snoc. destruct (TupleMeta.is_deleted r.1).
        - by rewrite checked_Ok by (unfold unsigned_ok; cbn [length]; lia).
        - by rewrite Z.add_0_r. }
    cbn [mbind result_bind]. fold fe. rewrite Hc. cbn [mbind result_bind]. reflexivity. }
  2,3: done.
  rewrite !wrap_small by (unfold unsigned_ok; cbn [length]; lia).
  split; simpl.
  - rewrite (copy_at_length _ _ _ _ Hc). apply (rep_data _ _ H).
  - apply (rep_next _ _ H).
  - rewrite length_app. simpl. lia.
  - done.
  - apply packed_snoc. simpl. split_and!; [apply (rep_packed _ _ H)|fold fe; lia|lia|lia].
  - rewrite length_app, free_end_snoc. simpl. lia.
  - apply Forall_app. split; [apply (rep_rows _ _ H)|by constructor].
  - apply Forall2_app.
    + apply (stored_copy_below page_end _ _ _ _ _ _ ltac:(done) (rep_packed _ _ H)
        (rep_stored _ _ H) Hc). fold fe. lia.
    + constructor; [|done]. split; [done|]. exists bs. split_and!; [done..|].
      unfold slot_lo, slot_hi. simpl.
      rewrite <- (slice_copy_at_same _ _ _ _ Hc). f_equal. lia.
Qed.

Lemma insert_tuple_full p rows r :
  rep p rows → row_ok (schema p) r → page_end < space (rows ++ [r]) →
  insert_tuple p r.1 r.2 = no_space_error.
Proof.
  intros H Hr Hsp. destruct (row_ok_encode _ _ Hr) as (bs & He & _).
  unfold insert_tuple. rewrite (next_tuple_offset_spec _ _ _ _ H He).
  by rewrite (proj2 (Z.leb_gt _ _)).
Qed.

(** *** Reading *)
Lemma read_slot_stored p i r :
  row_ok (schema p) r → stored (data p) i r →
  unsigned_ok 16 (TupleInfo.offset i + TupleInfo.size i) → read_slot p i = Ok r.
Proof.
  intros Hr (Hm & bs & He & Hs & Hsl) Hu. unfold read_slot, slot_bytes.
  rewrite checked_Ok by done. cbn [mbind result_bind]. fold (slot_lo i) (slot_hi i).
  rewrite Hsl. cbn [mbind result_bind].
  destruct (row_ok_encode _ _ Hr) as (bs' & He' & _ & Hd). rewrite He in He'. injection He' as <-.
  specialize (Hd []). rewrite app_nil_r in Hd. rewrite Hd. cbn [mbind result_bind].
  rewrite Hm. by destruct r.
Qed.

Lemma rep_slot p rows k r :
  rep p rows → rows !! k = Some r →
  ∃ i, tuple_infos (header p) !! k = Some i ∧ stored (data p) i r ∧ row_ok (schema p) r ∧
    read_slot p i = Ok r ∧ TupleInfo.meta i = r.1.
Proof.
  intros H Hk. destruct (Forall2_lookup_r _ _ _ _ _ (rep_stored _ _ H) Hk) as (i & Hi & Hst).
  exists i. pose proof (Forall_lookup_1 _ _ _ _ (rep_rows _ _ H) Hk) as Hr.
  split_and!; [done..| |by destruct Hst].
  apply read_slot_stored; [done..|].
  destruct (packed_bounds page_end _ ltac:(done) (rep_packed _ _ H)) as [Hf Hb].
  destruct (Hb _ _ Hi) as (? & ? & ?). rewrite page_end_eq in *. unfold unsigned_ok. simpl. lia.
Qed.

Lemma rep_in_range p rows k r :
  rep p rows → rows !! k = Some r → (num_tuples (header p) <=? Z.of_nat k) = false.
Proof.
  intros H Hk%lookup_lt_Some. apply Z.leb_gt. rewrite (rep_num _ _ H), (rep_length _ _ H). lia.
Qed.

Lemma rep_out_of_range p rows k :
  rep p rows → (length rows ≤ k)%nat → (num_tuples (header p) <=? Z.of_nat k) = true.
Proof.
  intros H Hk. apply Z.leb_le. rewrite (rep_num _ _ H), (rep_length _ _ H). lia.
Qed.

Lemma tuple_rep p rows k :
  rep p rows →
  tuple p (Z.of_nat k) = match rows !! k with Some r => Ok r | None => out_of_range_error end.
Proof.
  intros H. unfold tuple. destruct (rows !! k) as [r|] eqn:Hk.
  - rewrite (rep_in_range _ _ _ _ H Hk), Nat2Z.id.
    destruct (rep_slot _ _ _ _ H Hk) as (i & Hi & _ & _ & Hr & _).
    by rewrite (index_Ok _ _ _ Hi).
  - apply lookup_ge_None in Hk. by rewrite (rep_out_of_range _ _ _ H Hk).
Qed.

Lemma tuple_meta_rep p rows k :
  rep p rows →
  tuple_meta p (Z.of_nat k)
  = match rows !! k with Some r => Ok r.1 | None => out_of_range_error end.
Proof.
  intros H. unfold tuple_meta. destruct (rows !! k) as [r|] eqn:Hk.
  - rewrite (rep_in_range _ _ _ _ H Hk), Nat2Z.id.
    destruct (rep_slot _ _ _ _ H Hk) as (i & Hi & _ & _ & _ & <-).
    by rewrite (index_Ok _ _ _ Hi).
  - apply lookup_ge_None in Hk. by rewrite (rep_out_of_range _ _ _ H Hk).
Qed.

(** *** Updates *)
Lemma deleted_count_insert rows k r r' :
  rows !! k = Some r →
  deleted_count (<[k:=r']> rows)
  = deleted_count rows - (if TupleMeta.is_deleted r.1 then 1 else 0)
    + (if TupleMeta.is_deleted r'.1 then 1 else 0).
Proof.
  revert k. induction rows as [|r0 rows IH]; intros [|k] Hk; simplify_eq/=; [lia|].
  rewrite (IH _ Hk). lia.
Qed.

Lemma space_insert rows k r r' :
  rows !! k = Some r → space (<[k:=r']> rows) = space rows - row_space r + row_space r'.
Proof.
  unfold space. revert k. induction rows as [|r0 rows IH]; intros [|k] Hk; simplify_eq/=; [lia|].
  specialize (IH _ Hk). lia.
Qed.

Lemma packed_insert hi infos k i i' :
  infos !! k = Some i → TupleInfo.offset i' = TupleInfo.offset i →
  TupleInfo.size i' = TupleInfo.size i →
  (packed hi (<[k:=i']> infos) ↔ packed hi infos) ∧
  free_end hi (<[k:=i']> infos) = free_end hi infos.
Proof.
  intros Hk Ho Hs. revert hi k Hk.
  induction infos as [|j infos IH]; intros hi [|k] Hk; simplify_eq/=.
  - by rewrite Ho, Hs.
  - by destruct (IH (TupleInfo.offset j) _ Hk) as [-> ->].
Qed.

(** Setting the metadata of a row; a row once deleted stays deleted. *)
Lemma update_tuple_meta_rep p rows k r m :
  rep p rows → rows !! k = Some r → meta_ok m →
  (TupleMeta.is_deleted r.1 = true → TupleMeta.is_deleted m = true) →
  ∃ p', update_tuple_meta p m (Z.of_nat k) = Ok p' ∧ rep p' (<[k:=(m, r.2)]> rows) ∧
    schema p' = schema p ∧ next_page_id (header p') = next_page_id (header p).
Proof.
  intros H Hk Hm Hdel. destruct (rep_slot _ _ _ _ H Hk) as (i & Hi & Hst & Hr & _ & Hmeta).
  pose proof (deleted_count_insert _ _ _ (m, r.2) Hk) as Hdc. simpl in Hdc.
  pose proof (deleted_count_bound (<[k:=(m, r.2)]> rows)) as Hb. rewrite length_insert in Hb.
  pose proof (rep_length_bound _ _ H) as Hn.
  eexists. split; [|split; [|split]].
  { unfold update_tuple_meta. rewrite (rep_in_range _ _ _ _ H Hk), Nat2Z.id.
    rewrite (index_Ok _ _ _ Hi). cbn [mbind result_bind]. rewrite Hmeta, (rep_deleted _ _ H).
    replace (if TupleMeta.is_deleted m && _ then _ else _)
      with (Ok (deleted_count (<[k:=(m, r.2)]> rows))); [reflexivity|].
    destruct (TupleMeta.is_deleted m), (TupleMeta.is_deleted r.1); simpl;
      try (by specialize (Hdel eq_refl)); try (f_equal; lia).
    rewrite checked_Ok by (unfold unsigned_ok; lia). f_equal; lia. }
  2,3: done.
  destruct (packed_insert page_end _ k i (TupleInfo.Mk (TupleInfo.offset i) (TupleInfo.size i) m)
    Hi eq_refl eq_refl) as [Hp Hf].
  split; simpl; rewrite ?length_insert.
  - apply (rep_data _ _ H).
  - apply (rep_next _ _ H).
  - apply (rep_num _ _ H).
  - done.
  - apply Hp, (rep_packed _ _ H).
  - rewrite Hf. apply (rep_free _ _ H).
  - apply Forall_insert; [apply (rep_rows _ _ H)|]. destruct Hr as (_ & ? & ?). done.
  - apply Forall2_insert; [apply (rep_stored _ _ H)|].
    destruct Hst as (_ & bs & ? & ? & ?). split; [done|]. by exists bs.
Qed.

Lemma stored_overwrite p rows k i r bs d' :
  rep p rows → rows !! k = Some r → tuple_infos (header p) !! k = Some i →
  TupleCodec.encode r.2 = Ok bs → TupleInfo.size i = Z.of_nat (length bs) →
  ∀ r' bs', TupleCodec.encode r'.2 = Ok bs' → length bs' = length bs → r'.1 = r.1 →
  copy_at (data p) (slot_lo i) bs' = Ok d' →
  Forall2 (stored d') (tuple_infos (header p)) (<[k:=r']> rows).
Proof.
  intros H Hk Hi He Hs r' bs' He' Hl Hr' Hc.
  destruct (packed_bounds page_end _ ltac:(done) (rep_packed _ _ H)) as [Hf Hb].
  destruct (Hb _ _ Hi) as (? & ? & ?).
  apply Forall2_lookup. intros j. pose proof (rep_stored _ _ H) as Hst.
  rewrite Forall2_lookup in Hst. specialize (Hst j).
  destruct (decide (j = k)) as [->|Hne].
  - rewrite list_lookup_insert_eq by (by eapply lookup_lt_Some).
    rewrite Hi in *. rewrite Hk in Hst. inversion Hst as [? ? Hst' Hx Hy|]; subst.
    destruct Hst' as (Hm & _). constructor. split; [by rewrite Hr'|].
    exists bs'. split_and!; [done|lia|].
    rewrite <- (slice_copy_at_same _ _ _ _ Hc). f_equal. unfold slot_lo, slot_hi. lia.
  - rewrite list_lookup_insert_ne by done.
    destruct (tuple_infos (header p) !! j) as [ij|] eqn:Hij, (rows !! j) as [rj|] eqn:Hrj;
      inversion Hst as [? ? Hst' Hx Hy|]; subst; constructor.
    destruct Hst' as (Hm & b & Heb & Hsb & Hsl). split; [done|]. exists b. split_and!; [done..|].
    rewrite <- Hsl. apply (slice_copy_at_other _ _ _ _ _ _ Hc).
    destruct (Hb _ _ Hij) as (? & ? & ?). unfold slot_lo, slot_hi.
    destruct (decide (j < k)%nat).
    + pose proof (packed_disjoint page_end _ j k _ _ ltac:(done) (rep_packed _ _ H) ltac:(done) Hij Hi).
      lia.
    + pose proof (packed_disjoint page_end _ k j _ _ ltac:(done) (rep_packed _ _ H) ltac:(lia) Hi Hij).
      lia.
Qed.

(** Rebuilding a page by insertions. *)
Lemma insert_rows_rep rest p rows :
  rep p rows → Forall (row_ok (schema p)) rest → space (rows ++ rest) ≤ page_end →
  ∃ p', foldR insert_row p rest = Ok p' ∧ rep p' (rows ++ rest) ∧
    schema p' = schema p ∧ next_page_id (header p') = next_page_id (header p).
Proof.
  revert p rows. induction rest as [|r rest IH]; intros p rows H Hr Hsp.
  { exists p. by rewrite app_nil_r. }
  apply Forall_cons in Hr as [Hr Hrest].
  replace (rows ++ r :: rest) with ((rows ++ [r]) ++ rest) in * by (by rewrite <- app_assoc).
  assert (space (rows ++ [r]) ≤ page_end) as Hle.
  { unfold space in *. rewrite foldr_app in Hsp.
    enough (∀ l a b, a ≤ b → foldr (λ r n, row_space r + n) a l ≤ foldr (λ r n, row_space r + n) b l)
      as Hmono.
    { pose proof (Hmono (rows ++ [r]) 0 (foldr (λ r n, row_space r + n) 0 rest)).
      assert (0 ≤ foldr (λ r n, row_space r + n) 0 rest); [|lia].
      clear. induction rest as [|x l IH]; simpl; [done|]. pose proof (row_space_pos x). lia. }
    induction l as [|x l IHl]; intros a b Hab; simpl; [done|]. specialize (IHl a b Hab). lia. }
  destruct (insert_tuple_rep _ _ _ H Hr Hle) as (p' & Hi & H' & Hs & Hn).
  cbn [foldR].
  change (insert_row p r) with ('(page, _) ← insert_tuple p r.1 r.2; Ok page). rewrite Hi. cbn [mbind result_bind].
  destruct (IH p' (rows ++ [r]) H') as (p'' & -> & H'' & Hs' & Hn'); [by rewrite Hs|done|].
  exists p''. by rewrite Hs', Hn'.
Qed.

Lemma insert_rows_full rest p rows :
  rep p rows → Forall (row_ok (schema p)) rest → page_end < space (rows ++ rest) →
  foldR insert_row p rest = no_space_error.
Proof.
  revert p rows. induction rest as [|r rest IH]; intros p rows H Hr Hsp.
  { rewrite app_nil_r in Hsp. pose proof (rep_space_le _ _ H). lia. }
  apply Forall_cons in Hr as [Hr Hrest]. cbn [foldR].
  change (insert_row p r) with ('(page, _) ← insert_tuple p r.1 r.2; Ok page).
  destruct (Z.le_gt_cases (space (rows ++ [r])) page_end) as [Hle|Hgt].
  - destruct (insert_tuple_rep _ _ _ H Hr Hle) as (p' & -> & H' & Hs & Hn). cbn [mbind result_bind].
    apply (IH p' (rows ++ [r])); [done|by rewrite Hs|]. by rewrite <- app_assoc.
  - by rewrite (insert_tuple_full _ _ _ H Hr Hgt).
Qed.

(** [update_tuple] replaces the row when the result fits in the page, and fails
    without changing the page otherwise. *)
Lemma update_tuple_rep p rows k r t :
  rep p rows → rows !! k = Some r → row_ok (schema p) (r.1, t) →
  let rows' := <[k:=(r.1, t)]> rows in
  (space rows' ≤ page_end →
   ∃ p', update_tuple p t (Z.of_nat k) = Ok p' ∧ rep p' rows' ∧
     schema p' = schema p ∧ next_page_id (header p') = next_page_id (header p)) ∧
  (page_end < space rows' → update_tuple p t (Z.of_nat k) = no_space_error).
Proof.
  intros H Hk Ht rows'.
  destruct (rep_slot _ _ _ _ H Hk) as (i & Hi & Hst & Hr & _ & Hmeta).
  destruct Hst as (_ & bs & He & Hs & Hsl).
  destruct (row_ok_encode _ _ Ht) as (bs' & He' & Hrs' & _). simpl in He'.
  unfold update_tuple. rewrite (rep_in_range _ _ _ _ H Hk), Nat2Z.id.
  rewrite (index_Ok _ _ _ Hi). cbn [mbind result_bind]. rewrite He'. cbn [mbind result_bind].
  destruct (Z.eqb_spec (Z.of_nat (length bs')) (TupleInfo.size i)) as [Heq|Hne].
  - assert (space rows' = space rows) as Hsp.
    { subst rows'. rewrite (space_insert _ _ _ _ Hk), Hrs'. unfold row_space. rewrite He. lia. }
    pose proof (rep_space_le _ _ H). split; [|lia]. intros _.
    apply slice_Ok_inv in Hsl as [[Hlo Hhi] _]. unfold slot_hi, slot_lo in *.
    destruct (packed_bounds page_end _ ltac:(done) (rep_packed _ _ H)) as [Hf Hb].
    destruct (Hb _ _ Hi) as (? & ? & ?).
    destruct (copy_at (data p) (Z.to_nat (TupleInfo.offset i)) bs') as [d'| |] eqn:Hc.
    2,3: exfalso; revert Hc; rewrite copy_at_Ok by lia; done.
    eexists. split; [reflexivity|]. split; [|done]. split; simpl; try apply H.
    + rewrite (copy_at_length _ _ _ _ Hc). apply H.
    + subst rows'. rewrite (deleted_count_insert _ _ _ _ Hk), (rep_deleted _ _ H). simpl. lia.
    + apply Forall_insert; [apply H|done].
    + eapply (stored_overwrite p rows k i r bs); eauto; simpl; lia.
  - assert (mapR (read_slot p) (tuple_infos (header p)) = Ok rows) as ->.
    { apply mapR_Ok, Forall2_same_length_lookup_2; [apply (rep_length _ _ H)|].
      intros j ij rj Hij Hrj. destruct (rep_slot _ _ _ _ H Hrj) as (i' & Hi' & _ & _ & <- & _).
      congruence. }
    cbn [mbind result_bind]. rewrite (index_Ok _ _ _ Hk). cbn [mbind result_bind].
    assert (rep (new (schema p) (next_page_id (header p))) []) as Hnew by (apply rep_new, H).
    assert (Forall (row_ok (schema p)) rows') as Hok by (apply Forall_insert; [apply H|done]).
    fold rows'. split; intros Hsp.
    + destruct (insert_rows_rep rows' _ _ Hnew Hok Hsp) as (p' & -> & Hp' & Hs' & Hn').
      cbn [mbind result_bind]. eexists. split; [reflexivity|]. split; [|done].
      destruct Hp'. rewrite Hs' in *. by split.
    + by rewrite (insert_rows_full rows' _ _ Hnew Hok Hsp).
Qed.

(** *** Bytes *)
Lemma rep_header_ok p rows : rep p rows → header_ok (header p).
Proof.
  intros H. pose proof (rep_length _ _ H) as Hlen. pose proof (rep_length_bound _ _ H) as Hn.
  pose proof (deleted_count_bound rows).
  destruct (packed_bounds page_end _ ltac:(done) (rep_packed _ _ H)) as [Hf Hb].
  rewrite page_end_eq in *. split_and!; [apply H|..|apply H|].
  - rewrite (rep_num _ _ H). unfold unsigned_ok. lia.
  - rewrite (rep_deleted _ _ H). unfold unsigned_ok. lia.
  - apply Forall_lookup. intros k i Hi. destruct (Hb _ _ Hi) as (? & ? & ?).
    split_and!; [unfold unsigned_ok; lia..|].
    destruct (Forall2_lookup_l _ _ _ _ _ (rep_stored _ _ H) Hi) as (r & Hr & Hm & _).
    rewrite Hm. by destruct (Forall_lookup_1 _ _ _ _ (rep_rows _ _ H) Hr).
Qed.

(** The 4096 bytes of a page decode to a page with the same rows and header. *)
Lemma page_round_trip p rows :
  rep p rows →
  ∃ bs p', TablePageCodec.encode p = Ok bs ∧ length bs = BUSTUBX_PAGE_SIZE ∧
    TablePageCodec.decode bs (schema p) = Ok (p', BUSTUBX_PAGE_SIZE) ∧
    rep p' rows ∧ schema p' = schema p ∧ header p' = header p.
Proof.
  intros H. destruct (packed_bounds page_end _ ltac:(done) (rep_packed _ _ H)) as [Hf Hb].
  pose proof (rep_free _ _ H) as Hfree. rewrite page_end_eq in Hf.
  pose proof (header_length (header p)) as Hh.
  set (hb := TablePageHeaderCodec.encode (header p)) in *.
  assert (copy_at (data p) 0 hb = Ok (hb ++ drop (length hb) (data p))) as Hc.
  { rewrite copy_at_Ok; [done|]. rewrite (rep_data _ _ H). change BUSTUBX_PAGE_SIZE with 4096%nat.
    rewrite page_end_eq in Hfree. lia. }
  pose proof (copy_at_length _ _ _ _ Hc) as Hlen. rewrite (rep_data _ _ H) in Hlen.
  exists (hb ++ drop (length hb) (data p)), (Mk (schema p) (header p) (hb ++ drop (length hb) (data p))).
  split_and!; [done|done| | |done|done].
  - unfold TablePageCodec.decode. rewrite Hlen, Nat.eqb_refl. cbn [negb].
    subst hb. rewrite header_round_trip by (by eapply rep_header_ok).
    cbn [mbind result_bind].
    rewrite slice_Ok by lia. cbn [mbind result_bind]. rewrite drop_0, take_ge by lia. done.
  - split; simpl; try apply H; [done|].
    apply Forall2_same_length_lookup_2; [apply (rep_length _ _ H)|].
    intros k i r Hi Hr. destruct (Forall2_lookup_lr _ _ _ _ _ _ (rep_stored _ _ H) Hi Hr)
      as (Hm & b & ? & ? & Hsl).
    split; [done|]. exists b. split_and!; [done..|]. rewrite <- Hsl.
    apply (slice_copy_at_other _ _ _ _ _ _ Hc). right. unfold slot_lo.
    destruct (Hb _ _ Hi) as (? & ? & ?). lia.
Qed.

(** [get_next_rid] walks the slots in order. *)
Lemma get_next_rid_rep p rows pid k :
  rep p rows → Z.of_nat k + 1 < 2 ^ 32 →
  get_next_rid p (RecordId.Mk pid (Z.of_nat k))
  = Ok (if (S k <? length rows)%nat then Some (RecordId.Mk pid (Z.of_nat (S k))) else None).
Proof.
  intros H Hk. unfold get_next_rid. simpl.
  rewrite checked_Ok by (unfold unsigned_ok; lia). cbn [mbind result_bind].
  rewrite (rep_num _ _ H), (rep_length _ _ H).
  destruct (Nat.ltb_spec (S k) (length rows)).
  - rewrite (proj2 (Z.leb_gt _ _)) by lia. do 3 f_equal. lia.
  - by rewrite (proj2 (Z.leb_le _ _)) by lia.
Qed.

End TablePageFacts.

(** ** The page against a list of rows

    [rows_step] is the abstract page: a list of rows with a space budget.
    [page_step] runs the operation of the code. *)
Module TablePageSpec.
Import TablePageHeader TablePage TablePageFacts.

Inductive op :=
  | Insert (meta : TupleMeta.t) (tuple : Tuple.t)
  | MarkDeleted (slot : nat) (meta : TupleMeta.t)
  | Replace (slot : nat) (tuple : Tuple.t)
  | Read (slot : nat)
  | ReadMeta (slot : nat).

Inductive outcome :=
  | Slot (tuple_id : Z)
  | Done
  | Row (r : row)
  | Meta (m : TupleMeta.t).

Definition op_ok (s : Schema.t) (o : op) : Prop :=
  match o with
  | Insert meta tuple => row_ok s (meta, tuple)
  | MarkDeleted _ meta => meta_ok meta ∧ TupleMeta.is_deleted meta = true
  | Replace _ tuple => Tuple.ok s tuple ∧ Forall TupleCodecFacts.encodable (Tuple.data tuple)
  | Read _ | ReadMeta _ => True
  end.

Definition page_step (p : t) (o : op) : t * result outcome :=
  match o with
  | Insert meta tuple =>
      match insert_tuple p meta tuple with
      | Ok (p', tuple_id) => (p', Ok (Slot tuple_id))
      | Err e => (p, Err e)
      | Panic => (p, Panic)
      end
  | MarkDeleted slot meta =>
      match update_tuple_meta p meta (Z.of_nat slot) with
      | Ok p' => (p', Ok Done)
      | Err e => (p, Err e)
      | Panic => (p, Panic)
      end
  | Replace slot tuple =>
      match update_tuple p tuple (Z.of_nat slot) with
      | Ok p' => (p', Ok Done)
      | Err e => (p, Err e)
      | Panic => (p, Panic)
      end
  | Read slot => (p, Row <$> tuple p (Z.of_nat slot))
  | ReadMeta slot => (p, Meta <$> tuple_meta p (Z.of_nat slot))
  end.

Definition rows_step (rows : list row) (o : op) : list row * result outcome :=
  match o with
  | Insert meta tuple =>
      if space (rows ++ [(meta, tuple)]) <=? page_end
      then (rows ++ [(meta, tuple)], Ok (Slot (Z.of_nat (length rows))))
      else (rows, no_space_error)
  | MarkDeleted slot meta =>
      match rows !! slot with
      | Some r => (<[slot := (meta, r.2)]> rows, Ok Done)
      | None => (rows, out_of_range_error)
      end
  | Replace slot tuple =>
      match rows !! slot with
      | Some r =>
          let rows' := <[slot := (r.1, tuple)]> rows in
          if space rows' <=? page_end then (rows', Ok Done) else (rows, no_space_error)
      | None => (rows, out_of_range_error)
      end
  | Read slot =>
      (rows, match rows !! slot with Some r => Ok (Row r) | None => out_of_range_error end)
  | ReadMeta slot =>
      (rows, match rows !! slot with Some r => Ok (Meta r.1) | None => out_of_range_error end)
  end.

Fixpoint run {S O R} (step : S → O → S * R) (st : S) (os : list O) : S * list R :=
  match os with
  | [] => (st, [])
  | o :: os' =>
      let '(st, r) := step st o in
      let '(st, rs) := run step st os' in
      (st, r :: rs)
  end.

Lemma step_refines s p rows o :
  rep p rows → schema p = s → op_ok s o →
  rep (page_step p o).1 (rows_step rows o).1 ∧ schema (page_step p o).1 = s ∧
  (page_step p o).2 = (rows_step rows o).2.
Proof.
  intros H <- Ho. destruct o as [meta tup|k meta|k tup|k|k]; simpl in *.
  - destruct (Z.leb_spec (space (rows ++ [(meta, tup)])) page_end) as [Hle|Hgt].
    + destruct (insert_tuple_rep _ _ _ H Ho Hle) as (p' & Hi & ? & ? & _).
      simpl in Hi. by rewrite Hi.
    + pose proof (insert_tuple_full _ _ _ H Ho Hgt) as Hi. simpl in Hi. by rewrite Hi.
  - destruct Ho as [Hm Hd]. destruct (rows !! k) as [r|] eqn:Hk.
    + destruct (update_tuple_meta_rep _ _ _ _ meta H Hk Hm) as (p' & -> & ? & ? & _); done.
    + unfold update_tuple_meta. apply lookup_ge_None in Hk.
      by rewrite (rep_out_of_range _ _ _ H Hk).
  - destruct Ho as [Ht He]. destruct (rows !! k) as [r|] eqn:Hk.
    + assert (row_ok (schema p) (r.1, tup)) as Hr.
      { split; [|done]. by destruct (Forall_lookup_1 _ _ _ _ (rep_rows _ _ H) Hk). }
      destruct (update_tuple_rep _ _ _ _ _ H Hk Hr) as [Hok Hfull].
      destruct (Z.leb_spec (space (<[k:=(r.1, tup)]> rows)) page_end) as [Hle|Hgt].
      * destruct (Hok Hle) as (p' & -> & ? & ? & _). done.
      * by rewrite (Hfull Hgt).
    + unfold update_tuple. apply lookup_ge_None in Hk.
      by rewrite (rep_out_of_range _ _ _ H Hk).
  - rewrite (tuple_rep _ _ _ H). by destruct (rows !! k).
  - rewrite (tuple_meta_rep _ _ _ H). by destruct (rows !! k).
Qed.

(** C18: a table page implements a bounded list of rows. Every sequence of insertions,
    in-place or rebuilding updates, deletion marks and reads ([op_ok]: of rows of the
    schema, and [update_tuple_meta] is used to delete only), run on a fresh page, gives the
    outcomes of the same sequence on a list of rows: an insertion appends and returns the
    next slot number, an update replaces one row, both exactly when header entries and
    tuple bytes fit in 4096 bytes and otherwise fail leaving the page as it was, and a read
    returns the row last stored. (Restoring a deleted row is left out: the page then counts
    one deleted row too many.) *)
Theorem table_page_refines_rows s next ops :
  unsigned_ok 32 next → Forall (op_ok s) ops →
  (run page_step (new s next) ops).2 = (run rows_step [] ops).2 ∧
  rep (run page_step (new s next) ops).1 (run rows_step [] ops).1.
Proof.
  intros Hnext Hops. pose proof (rep_new s next Hnext) as H.
  assert (schema (new s next) = s) as Hs by done. revert H Hs.
  generalize (new s next) as p, (@nil row) as rows.
  induction Hops as [|o ops Ho _ IH]; intros p rows H Hs; simpl; [done|].
  destruct (step_refines _ _ _ _ H Hs Ho) as (H' & Hs' & Hout).
  destruct (page_step p o) as [p' r], (rows_step rows o) as [rows' r']. simpl in *. subst r'.
  destruct (IH p' rows' H' Hs') as [IH1 IH2].
  destruct (run page_step p' ops), (run rows_step rows' ops). simpl in *. by subst.
Qed.

Definition demo_schema : Schema.t :=
  Schema.Mk [Column.new "a" DataType.Int8 true; Column.new "b" (DataType.Varchar None) true].

Definition demo_tuple (a : Z) (b : string) : Tuple.t :=
  Tuple.Mk demo_schema [ScalarValue.Int8 (Some a); ScalarValue.Varchar (Some b)].

Definition demo_ops : list op :=
  [ Insert EMPTY_TUPLE_META (demo_tuple 1 "one"); Insert EMPTY_TUPLE_META (demo_tuple 2 "two");
    Replace 0 (demo_tuple 1 "eleven"); Read 0; MarkDeleted 1 (TupleMeta.Mk 0 1 true);
    Read 1; Read 2 ].

Lemma demo_row_ok a b :
  signed_ok 8 a → utf8_valid (string_bytes b) = true → Z.of_nat (length (string_bytes b)) ≤ 65535 →
  Tuple.ok demo_schema (demo_tuple a b) ∧
  Forall TupleCodecFacts.encodable (Tuple.data (demo_tuple a b)).
Proof.
  intros Ha Hb Hl. split; [split; [done|]|].
  - apply Forall2_cons; split; [done|]. apply Forall2_cons; split; done.
  - apply Forall_cons; split; [done|]. apply Forall_cons; split; done.
Qed.

Lemma demo_ops_ok : Forall (op_ok demo_schema) demo_ops.
Proof. repeat constructor; try done; apply demo_row_ok; done. Qed.

Lemma table_page_refines_rows_witness :
  (run page_step (new demo_schema 7) demo_ops).2
  = [ Ok (Slot 0); Ok (Slot 1); Ok Done; Ok (Row (EMPTY_TUPLE_META, demo_tuple 1 "eleven"));
      Ok Done; Ok (Row (TupleMeta.Mk 0 1 true, demo_tuple 2 "two")); out_of_range_error ].
Proof.
  destruct (table_page_refines_rows demo_schema 7 demo_ops) as [-> _].
  - done.
  - apply demo_ops_ok.
  - vm_compute. reflexivity.
Defined.

(** C30: writing a page to its 4096 bytes and reading them back gives a page with
    the same header and the same rows, readable slot by slot: the header written
    over the start of the data never reaches the tuples. *)
Theorem table_page_bytes_round_trip p rows :
  rep p rows →
  ∃ bs p', TablePageCodec.encode p = Ok bs ∧ length bs = BUSTUBX_PAGE_SIZE ∧
    TablePageCodec.decode bs (schema p) = Ok (p', BUSTUBX_PAGE_SIZE) ∧
    header p' = header p ∧
    (∀ k r, rows !! k = Some r → tuple p' (Z.of_nat k) = Ok r) ∧ rep p' rows.
Proof.
  intros H. destruct (page_round_trip _ _ H) as (bs & p' & ? & ? & ? & H' & _ & ?).
  exists bs, p'. split_and!; [done..| |done].
  intros k r Hk. by rewrite (tuple_rep _ _ _ H'), Hk.
Qed.

Lemma table_page_bytes_round_trip_witness :
  let r := (EMPTY_TUPLE_META, demo_tuple 5 "five") in
  ∃ p bs p', foldR insert_row (new demo_schema 7) [r] = Ok p ∧
    TablePageCodec.encode p = Ok bs ∧
    TablePageCodec.decode bs (schema p) = Ok (p', BUSTUBX_PAGE_SIZE) ∧ tuple p' 0 = Ok r.
Proof.
  intros r.
  destruct (insert_rows_rep [r] (new demo_schema 7) []) as (p & Hp & Hrep & _).
  - by apply rep_new.
  - apply Forall_cons; split; [|done]. split; [done|]. by apply demo_row_ok.
  - done.
  - destruct (table_page_bytes_round_trip p [r] Hrep) as (bs & p' & He & _ & Hd & _ & Hr & _).
    exists p, bs, p'. split_and!; [done..|]. by apply (Hr 0%nat r).
Defined.

End TablePageSpec.
