(* ===== verification/IndexPage.v ===== *)
(** * IndexPage: leaf and internal pages of the B+ tree

    Models [bustubx/src/storage/page/index_page.rs]: sorted arrays of keys, their
    binary searches, insertion, deletion and splitting. The key is a [Tuple.t],
    compared with [Tuple.partial_cmp]; [unwrap] of an undefined comparison panics. *)
From S2P Require Import Prelude CommonCodec Floats Scalar Schema TupleCodec TablePage.
Local Open Scope Z_scope.

Definition BPLUS_INTERNAL_PAGE_MAX_SIZE : Z := 10.
Definition BPLUS_LEAF_PAGE_MAX_SIZE : Z := 10.

(** ** Arrays of keys *)
Module KeyArray.

(** [key.partial_cmp(&other).unwrap()] *)
Definition compare (key other : Tuple.t) : result comparison :=
  unwrap (Tuple.partial_cmp key other).

(** [sort_by(|a, b| a.0.partial_cmp(&b.0).unwrap())]: a stable sort. The result of a
    stable sort by a total order does not depend on the algorithm; this one inserts
    from the right. *)
Fixpoint sort_insert {V} (x : Tuple.t * V) (l : list (Tuple.t * V)) :
    result (list (Tuple.t * V)) :=
  match l with
  | [] => Ok [x]
  | y :: l' =>
      c ← compare x.1 y.1;
      match c with
      | Gt => r ← sort_insert x l'; Ok (y :: r)
      | _ => Ok (x :: y :: l')
      end
  end.

Fixpoint sort_by {V} (l : list (Tuple.t * V)) : result (list (Tuple.t * V)) :=
  match l with
  | [] => Ok []
  | x :: l' => r ← sort_by l'; sort_insert x r
  end.

(** The outcome of a binary search: the index where an equal key was met, or the
    value of [start] when the loop ended. *)
Inductive search_result := Found (mid : Z) | Stopped (start : Z).

(** [while start < end { ... }] with [start] and [end] as [i32] or [u32]
    ([checked_int] checks that sums and differences do not overflow). *)
Fixpoint search_loop {V} (checked_int : Z → result Z) (fuel : nat)
    (array : list (Tuple.t * V)) (key : Tuple.t) (start end_ : Z) : result search_result :=
  if start <? end_ then
    match fuel with
    | O => Panic
    | S fuel' =>
        sum ← checked_int (start + end_);
        let mid := Z.quot sum 2 in
        kv ← index_z array mid;
        compare_res ← compare key kv.1;
        match compare_res with
        | Eq => Ok (Found mid)
        | Lt => end_' ← checked_int (mid - 1);
                search_loop checked_int fuel' array key start end_'
        | Gt => start' ← checked_int (mid + 1);
                search_loop checked_int fuel' array key start' end_
        end
    end
  else Ok (Stopped start).

Definition search_fuel (start end_ : Z) : nat := Z.to_nat (end_ - start).

(** The body of [key_index]: search between [start] and [end], then look at
    [array[start]]. *)
Definition key_index_from {V} (array : list (Tuple.t * V)) (key : Tuple.t)
    (start end_ : Z) : result (option Z) :=
  r ← search_loop (checked_signed 32) (search_fuel start end_) array key start end_;
  match r with
  | Found mid => Ok (Some mid)
  | Stopped start =>
      kv ← index_z array start;
      c ← compare key kv.1;
      match c with Eq => Ok (Some start) | _ => Ok None end
  end.

(** [for _ in 0..=at { new_array.push(self.array.remove(0)) }]: [n] rounds. *)
Fixpoint remove_front {V} (n : nat) (new_array array : list (Tuple.t * V)) :
    result (list (Tuple.t * V) * list (Tuple.t * V)) :=
  match n with
  | O => Ok (new_array, array)
  | S n' => '(kv, array) ← vec_remove array 0; remove_front n' (new_array ++ [kv]) array
  end.

End KeyArray.

Module BPlusTreePageType.
Inductive t := LeafPage | InternalPage.
End BPlusTreePageType.

Notation InternalKV := (Tuple.t * Z)%type.
Notation LeafKV := (Tuple.t * RecordId.t)%type.

(** ** Internal pages: the first key is empty, [n] keys for [n + 1] children. *)
Module BPlusTreeInternalPage.
Import KeyArray.

Record header_t := MkHeader {
  page_type : BPlusTreePageType.t;
  current_size : Z;
  max_size : Z;
}.

Record t := Mk { schema : Schema.t; header : header_t; array : list InternalKV }.

(** The page with a new array and size. *)
Definition with_array (self : t) (array : list InternalKV) (size : Z) : t :=
  Mk (schema self) (MkHeader (page_type (header self)) size (max_size (header self))) array.

Definition new (schema : Schema.t) (max_size : Z) : t :=
  Mk schema (MkHeader BPlusTreePageType.InternalPage 0 max_size) [].

Definition min_size (self : t) : Z := max_size (header self) / 2.

Definition key_at (self : t) (i : nat) : result Tuple.t :=
  kv ← index (array self) i; Ok kv.1.

Definition value_at (self : t) (i : nat) : result Z :=
  kv ← index (array self) i; Ok kv.2.

Definition values (self : t) : list Z := snd <$> array self.

Definition sibling_page_ids (self : t) (page_id : Z) : result (option Z * option Z) :=
  match position (λ x, x.2 =? page_id) (array self) with
  | Some i =>
      left_id ←
        (if (i =? 0)%nat then Ok None
         else kv ← index (array self) (i - 1); Ok (Some kv.2));
      last ← usub (Z.to_nat (current_size (header self))) 1;
      right_id ←
        (if (i =? last)%nat then Ok None
         else kv ← index (array self) (i + 1); Ok (Some kv.2));
      Ok (left_id, right_id)
  | None => Ok (None, None)
  end.

Definition insert (self : t) (key : Tuple.t) (page_id : Z) : result t :=
  size ← checked 32 (current_size (header self) + 1);
  '(null_kv, rest) ← vec_remove (array self ++ [(key, page_id)]) 0;
  sorted ← sort_by rest;
  Ok (with_array self (null_kv :: sorted) size).

Definition batch_insert (self : t) (kvs : list InternalKV) : result t :=
  size ← checked 32 (current_size (header self) + wrap 32 (Z.of_nat (length kvs)));
  sorted ← sort_by (array self ++ kvs);
  Ok (with_array self sorted size).

(** The removal shared by the two branches of [delete]. *)
Definition remove_kv (self : t) (i : Z) : result t :=
  '(_, array') ← (if i <? 0 then Panic else vec_remove (array self) (Z.to_nat i));
  size ← checked 32 (current_size (header self) - 1);
  if size =? 1 then
    '(_, array'') ← vec_remove array' 0;
    size' ← checked 32 (size - 1);
    Ok (with_array self array'' size')
  else Ok (with_array self array' size).

Definition key_index (self : t) (key : Tuple.t) : result (option Z) :=
  if current_size (header self) =? 0 then Ok None
  else
    end_ ← checked_signed 32 (to_signed 32 (current_size (header self)) - 1);
    key_index_from (array self) key 1 end_.

(** [delete] repeats the search of [key_index] and removes where it ends. *)
Definition delete (self : t) (key : Tuple.t) : result t :=
  if current_size (header self) =? 0 then Ok self
  else
    end_ ← checked_signed 32 (to_signed 32 (current_size (header self)) - 1);
    r ← search_loop (checked_signed 32) (search_fuel 1 end_) (array self) key 1 end_;
    match r with
    | Found mid => remove_kv self mid
    | Stopped start =>
        kv ← index_z (array self) start;
        c ← compare key kv.1;
        match c with Eq => remove_kv self start | _ => Ok self end
    end.

(** [for i in 0..current_size], from [i], [n] rounds left. *)
Fixpoint delete_page_id_from (self : t) (page_id : Z) (i n : nat) : result t :=
  match n with
  | O => Ok self
  | S n' =>
      kv ← index (array self) i;
      if kv.2 =? page_id then
        '(_, array') ← vec_remove (array self) i;
        size ← checked 32 (current_size (header self) - 1);
        Ok (with_array self array' size)
      else delete_page_id_from self page_id (S i) n'
  end.

Definition delete_page_id (self : t) (page_id : Z) : result t :=
  delete_page_id_from self page_id 0 (Z.to_nat (current_size (header self))).

Definition is_full (self : t) : bool := max_size (header self) <? current_size (header self).

Definition split_off (self : t) (at_ : nat) : result (t * list InternalKV) :=
  '(array', new_array) ← vec_split_off (array self) at_;
  size ← checked 32 (current_size (header self) - wrap 32 (Z.of_nat (length new_array)));
  Ok (with_array self array' size, new_array).

Definition reverse_split_off (self : t) (at_ : nat) : result (t * list InternalKV) :=
  '(new_array, array') ← remove_front (S at_) [] (array self);
  size ← checked 32 (current_size (header self) - wrap 32 (Z.of_nat (length new_array)));
  Ok (with_array self array' size, new_array).

Definition replace_key (self : t) (old_key new_key : Tuple.t) : result t :=
  o ← key_index self old_key;
  match o with
  | Some i =>
      kv ← index_z (array self) i;
      Ok (Mk (schema self) (header self) (<[Z.to_nat i := (new_key, kv.2)]> (array self)))
  | None => Ok self
  end.

(** [look_up]: the child whose subtree may hold [key]; [u32] indices. *)
Definition look_up (self : t) (key : Tuple.t) : result Z :=
  end_ ← checked 32 (current_size (header self) - 1);
  r ← search_loop (checked 32) (search_fuel 1 end_) (array self) key 1 end_;
  match r with
  | Found mid => kv ← index_z (array self) mid; Ok kv.2
  | Stopped start =>
      kv ← index_z (array self) start;
      compare_res ← compare key kv.1;
      match compare_res with
      | Lt => kv' ← index_z (array self) (start - 1); Ok kv'.2
      | _ => Ok kv.2
      end
  end.

End BPlusTreeInternalPage.

(** ** Leaf pages *)
Module BPlusTreeLeafPage.
Import KeyArray.

Record header_t := MkHeader {
  page_type : BPlusTreePageType.t;
  current_size : Z;
  max_size : Z;
  next_page_id : Z;
}.

Record t := Mk { schema : Schema.t; header : header_t; array : list LeafKV }.

Definition with_array (self : t) (array : list LeafKV) (size : Z) : t :=
  Mk (schema self)
    (MkHeader (page_type (header self)) size (max_size (header self)) (next_page_id (header self)))
    array.

Definition new (schema : Schema.t) (max_size : Z) : t :=
  Mk schema (MkHeader BPlusTreePageType.LeafPage 0 max_size INVALID_PAGE_ID) [].

Definition empty : t :=
  Mk Schema.empty (MkHeader BPlusTreePageType.LeafPage 0 0 INVALID_PAGE_ID) [].

Definition min_size (self : t) : Z := max_size (header self) / 2.

Definition key_at (self : t) (i : nat) : result Tuple.t :=
  kv ← index (array self) i; Ok kv.1.

Definition kv_at (self : t) (i : nat) : result LeafKV := index (array self) i.

Definition is_full (self : t) : bool := max_size (header self) <? current_size (header self).

Definition insert (self : t) (key : Tuple.t) (rid : RecordId.t) : result t :=
  size ← checked 32 (current_size (header self) + 1);
  sorted ← sort_by (array self ++ [(key, rid)]);
  Ok (with_array self sorted size).

Definition batch_insert (self : t) (kvs : list LeafKV) : result t :=
  size ← checked 32 (current_size (header self) + wrap 32 (Z.of_nat (length kvs)));
  sorted ← sort_by (array self ++ kvs);
  Ok (with_array self sorted size).

Definition split_off (self : t) (at_ : nat) : result (t * list LeafKV) :=
  '(array', new_array) ← vec_split_off (array self) at_;
  size ← checked 32 (current_size (header self) - wrap 32 (Z.of_nat (length new_array)));
  Ok (with_array self array' size, new_array).

Definition reverse_split_off (self : t) (at_ : nat) : result (t * list LeafKV) :=
  '(new_array, array') ← remove_front (S at_) [] (array self);
  size ← checked 32 (current_size (header self) - wrap 32 (Z.of_nat (length new_array)));
  Ok (with_array self array' size, new_array).

Definition key_index (self : t) (key : Tuple.t) : result (option Z) :=
  if current_size (header self) =? 0 then Ok None
  else
    end_ ← checked_signed 32 (to_signed 32 (current_size (header self)) - 1);
    key_index_from (array self) key 0 end_.

Definition delete (self : t) (key : Tuple.t) : result t :=
  o ← key_index self key;
  match o with
  | Some i =>
      '(_, array') ← vec_remove (array self) (Z.to_nat i);
      size ← checked 32 (current_size (header self) - 1);
      Ok (with_array self array' size)
  | None => Ok self
  end.

Definition look_up (self : t) (key : Tuple.t) : result (option RecordId.t) :=
  o ← key_index self key;
  match o with
  | Some i => kv ← index_z (array self) i; Ok (Some kv.2)
  | None => Ok None
  end.

(** The loop of [next_closest] from index [idx]. *)
Fixpoint next_closest_from (idx : nat) (l : list LeafKV) (tuple : Tuple.t) (included : bool) :
    option nat :=
  match l with
  | [] => None
  | kv :: l' =>
      if Tuple.eqb tuple kv.1 && included then Some idx
      else match Tuple.partial_cmp kv.1 tuple with
           | Some Gt => Some idx
           | _ => next_closest_from (S idx) l' tuple included
           end
  end.

Definition next_closest (self : t) (tuple : Tuple.t) (included : bool) : option nat :=
  next_closest_from 0 (array self) tuple included.

End BPlusTreeLeafPage.

Module BPlusTreePage.

Inductive t :=
  | Internal (page : BPlusTreeInternalPage.t)
  | Leaf (page : BPlusTreeLeafPage.t).

Definition is_full (self : t) : bool :=
  match self with
  | Internal page => BPlusTreeInternalPage.is_full page
  | Leaf page => BPlusTreeLeafPage.is_full page
  end.

Definition current_size (self : t) : Z :=
  match self with
  | Internal page => BPlusTreeInternalPage.current_size (BPlusTreeInternalPage.header page)
  | Leaf page => BPlusTreeLeafPage.current_size (BPlusTreeLeafPage.header page)
  end.

Definition min_size (self : t) : Z :=
  match self with
  | Internal page => BPlusTreeInternalPage.min_size page
  | Leaf page => BPlusTreeLeafPage.min_size page
  end.

Definition is_underflow (self : t) (is_root : bool) : bool :=
  if is_root then false else current_size self <? min_size self.

Definition insert_internalkv (self : t) (internalkv : InternalKV) : result t :=
  match self with
  | Internal page =>
      page ← BPlusTreeInternalPage.insert page internalkv.1 internalkv.2; Ok (Internal page)
  | Leaf _ => Panic
  end.

Definition can_borrow (self : t) : bool := min_size self <? current_size self.

End BPlusTreePage.

(** ** Facts on sorted arrays *)
Module KeyArrayFacts.
Import KeyArray SchemaFacts.

Section keys.
Context (s : Schema.t) {V : Type}.
Implicit Types (l array : list (Tuple.t * V)) (x y : Tuple.t * V) (key : Tuple.t).

Definition klt (k1 k2 : Tuple.t) : Prop := tuple_cmp k1 k2 = Lt.
Definition kle (k1 k2 : Tuple.t) : Prop := tuple_cmp k1 k2 ≠ Gt.
Definition keys_ok l : Prop := Forall (λ x, Tuple.ok s x.1) l.

(** Sorted, with and without equal keys. *)
Definition sorted_le l : Prop := StronglySorted (λ x y, kle x.1 y.1) l.
Definition sorted_lt l : Prop := StronglySorted (λ x y, klt x.1 y.1) l.

Lemma klt_kle k1 k2 : klt k1 k2 → kle k1 k2.
Proof. unfold klt, kle. congruence. Qed.

Lemma sorted_lt_le l : sorted_lt l → sorted_le l.
Proof.
  induction 1 as [|x l _ IH Hall]; constructor; [done|].
  eapply Forall_impl; [exact Hall|]. intros y. apply klt_kle.
Qed.

Lemma compare_ok k1 k2 :
  Tuple.ok s k1 → Tuple.ok s k2 → compare k1 k2 = Ok (tuple_cmp k1 k2).
Proof. intros H1 H2. unfold compare. by rewrite (tuple_partial_cmp_Some s k1 k2). Qed.

Lemma sort_insert_spec x l :
  Tuple.ok s x.1 → keys_ok l → sorted_le l →
  ∃ r, sort_insert x l = Ok r ∧ r ≡ₚ x :: l ∧ sorted_le r.
Proof.
  intros Hx. induction l as [|y l IH]; intros Hok Hs; simpl.
  { exists [x]. split_and!; [done..|]. repeat constructor. }
  apply Forall_cons in Hok as [Hy Hok]. apply StronglySorted_inv in Hs as [Hs Hall].
  rewrite compare_ok by done. cbn [mbind result_bind].
  assert (tuple_cmp x.1 y.1 ≠ Gt → sorted_le (x :: y :: l)) as Hfront.
  { intros Hle. constructor; [by constructor|]. constructor; [done|].
    apply Forall_forall. intros z Hz. unfold keys_ok in Hok. rewrite Forall_forall in Hall, Hok.
    eapply (cmp_le_trans _ _ (tuple_cmp_laws s) x.1 y.1 z.1); auto. by apply Hall. }
  destruct (tuple_cmp x.1 y.1) eqn:Hc; [by exists (x :: y :: l); split_and!; auto..|].
  destruct (IH Hok Hs) as (r & -> & Hp & Hr). cbn [mbind result_bind].
  exists (y :: r). split_and!; [done|by rewrite Hp; constructor|].
  constructor; [done|]. rewrite Hp. constructor; [|done].
  apply (cmp_Gt_Lt _ _ (tuple_cmp_laws s)) in Hc; [|done..]. by apply klt_kle.
Qed.

Lemma sort_by_spec l :
  keys_ok l → ∃ r, sort_by l = Ok r ∧ r ≡ₚ l ∧ sorted_le r.
Proof.
  induction 1 as [|x l Hx Hl IH]; simpl.
  { exists []. split_and!; [done..|]. constructor. }
  destruct IH as (r & -> & Hp & Hs). cbn [mbind result_bind].
  destruct (sort_insert_spec x r) as (r' & -> & Hp' & Hs'); [done| |done|].
  { unfold keys_ok. by rewrite Hp. }
  exists r'. split_and!; [done| |done]. by rewrite Hp', Hp.
Qed.

Lemma sort_by_sorted l : keys_ok l → sorted_le l → sort_by l = Ok l.
Proof.
  induction 1 as [|x l Hx Hl IH]; intros Hs; simpl; [done|].
  apply StronglySorted_inv in Hs as [Hs Hall]. rewrite IH by done. cbn [mbind result_bind].
  destruct l as [|y l]; simpl; [done|].
  apply Forall_cons in Hl as [Hy _]. apply Forall_cons in Hall as [Hle _].
  rewrite compare_ok by done. cbn [mbind result_bind]. unfold kle in Hle.
  by destruct (tuple_cmp x.1 y.1).
Qed.

(** Without equal keys, sorting gives a strictly sorted array. *)
Lemma sorted_le_lt l : keys_ok l → NoDup l.*1 → sorted_le l → sorted_lt l.
Proof.
  intros Hok Hnd Hs. induction Hs as [|x l Hs IH Hall]; constructor.
  - apply Forall_cons in Hok as [_ Hok]. apply NoDup_cons in Hnd as [_ Hnd]. by apply IH.
  - apply Forall_cons in Hok as [Hx Hok]. apply NoDup_cons in Hnd as [Hni _].
    apply Forall_forall. intros y Hy. unfold keys_ok in Hok. rewrite Forall_forall in Hall, Hok.
    specialize (Hall _ Hy). specialize (Hok _ Hy). unfold kle, klt in *.
    destruct (tuple_cmp x.1 y.1) eqn:Hc; [|done..]. exfalso.
    apply (cmp_Eq_iff _ _ (tuple_cmp_laws s)) in Hc; [|done..].
    apply Hni. rewrite Hc. by apply list_elem_of_fmap_2.
Qed.

Lemma sorted_lt_NoDup l : keys_ok l → sorted_lt l → NoDup l.*1.
Proof.
  intros Hok Hs. induction Hs as [|x l Hs IH Hall]; simpl; constructor.
  - apply Forall_cons in Hok as [Hx Hok]. intros (y & Hxy & Hy)%list_elem_of_fmap.
    rewrite Forall_forall in Hall. specialize (Hall _ Hy). unfold klt in Hall.
    rewrite <- Hxy, (cmp_refl _ _ (tuple_cmp_laws s)) in Hall; done.
  - apply Forall_cons in Hok as [_ Hok]. by apply IH.
Qed.

Lemma sorted_lookup (R : Tuple.t * V → Tuple.t * V → Prop) l i j x y :
  StronglySorted R l → (i < j)%nat → l !! i = Some x → l !! j = Some y → R x y.
Proof.
  intros Hs. revert i j. induction Hs as [|z l Hs IH Hall]; intros [|i] [|j] Hij Hi Hj;
    simplify_eq/=; try lia.
  - rewrite Forall_lookup in Hall. by eapply Hall.
  - eapply (IH i j); [lia|done..].
Qed.

Lemma sorted_app (R : Tuple.t * V → Tuple.t * V → Prop) l k :
  StronglySorted R (l ++ k) →
  StronglySorted R l ∧ StronglySorted R k ∧ ∀ x y, x ∈ l → y ∈ k → R x y.
Proof.
  induction l as [|z l IH]; simpl; intros Hs.
  { split_and!; [constructor|done|]. intros x y Hx. by apply not_elem_of_nil in Hx. }
  apply StronglySorted_inv in Hs as [Hs Hall]. destruct (IH Hs) as (H1 & H2 & H3).
  apply Forall_app in Hall as [Hl Hk]. split_and!; [by constructor|done|].
  intros x y [->|Hx]%elem_of_cons Hy; [|by apply H3]. rewrite Forall_forall in Hk. by apply Hk.
Qed.

(** *** Binary search *)
Definition below lo st array key : Prop :=
  ∀ j x, lo ≤ Z.of_nat j < st → array !! j = Some x → klt x.1 key.
Definition above en array key : Prop :=
  ∀ j x, en < Z.of_nat j → array !! j = Some x → klt key x.1.

(** The part of the array from [lo] on is sorted. *)
Definition sorted_from lo array : Prop :=
  ∀ i j x y, lo ≤ Z.of_nat i → (i < j)%nat → array !! i = Some x → array !! j = Some y →
    kle x.1 y.1.

Lemma search_loop_spec checked_int fuel array key lo start end_ :
  Tuple.ok s key → keys_ok array → sorted_from lo array → 0 ≤ lo ≤ start →
  end_ < Z.of_nat (length array) → end_ - start ≤ Z.of_nat fuel →
  (∀ z, lo - 1 ≤ z ≤ 2 * Z.of_nat (length array) → checked_int z = Ok z) →
  below lo start array key → above end_ array key →
  ∃ r, search_loop checked_int fuel array key start end_ = Ok r ∧
    match r with
    | Found mid => start ≤ mid ≤ end_ ∧ ∃ x, array !! Z.to_nat mid = Some x ∧ x.1 = key
    | Stopped st => start ≤ st ≤ Z.max start end_ ∧ below lo st array key ∧ above st array key
    end.
Proof.
  intros Hkey Hok Hsort. revert start end_.
  induction fuel as [|fuel IH]; intros start end_ Hlo Hend Hfuel Hci Hb Ha; simpl.
  { rewrite (proj2 (Z.ltb_ge _ _)) by lia. exists (Stopped start). split; [done|].
    split_and!; [lia..|done|]. intros j x Hj. apply Ha. lia. }
  destruct (Z.ltb_spec start end_) as [Hlt|Hge].
  2:{ exists (Stopped start). split; [done|]. split_and!; [lia..|done|].
      intros j x Hj. apply Ha. lia. }
  rewrite Hci by lia. cbn [mbind result_bind].
  rewrite Z.quot_div_nonneg by lia. set (mid := (start + end_) / 2).
  assert (start ≤ mid < end_) as Hmid.
  { subst mid. pose proof (Z.mul_div_le (start + end_) 2 ltac:(lia)).
    pose proof (Z.mul_succ_div_gt (start + end_) 2 ltac:(lia)). lia. }
  destruct (lookup_lt_is_Some_2 array (Z.to_nat mid)) as [x Hx]; [lia|].
  rewrite (index_z_Ok _ _ x) by (done || lia). cbn [mbind result_bind].
  assert (Tuple.ok s x.1) as Hxok by (eapply Forall_lookup_1 in Hok; [exact Hok|done]).
  rewrite compare_ok by done. cbn [mbind result_bind].
  assert (∀ j y, mid < Z.of_nat j → array !! j = Some y → kle x.1 y.1 ∧ Tuple.ok s y.1) as Hup.
  { intros j y Hj Hy. split; [|by eapply Forall_lookup_1 in Hok].
    apply (Hsort (Z.to_nat mid) j); [lia|lia|done..]. }
  assert (∀ j y, lo ≤ Z.of_nat j < mid → array !! j = Some y → kle y.1 x.1 ∧ Tuple.ok s y.1) as Hdn.
  { intros j y Hj Hy. split; [|by eapply Forall_lookup_1 in Hok].
    apply (Hsort j (Z.to_nat mid)); [lia|lia|done..]. }
  destruct (tuple_cmp key x.1) eqn:Hc.
  - exists (Found mid). split; [done|]. split; [lia|]. exists x. split; [done|].
    symmetry. by apply (cmp_Eq_iff _ _ (tuple_cmp_laws s)) in Hc.
  - rewrite Hci by lia. cbn [mbind result_bind].
    destruct (IH start (mid - 1)) as (r & -> & Hr); [lia|lia|lia|done|done| |].
    { intros j y Hj Hy. destruct (decide (Z.of_nat j = mid)) as [E|].
      - assert (j = Z.to_nat mid) as -> by lia. congruence.
      - destruct (Hup j y) as [Hle Hyok]; [lia|done|].
        by eapply (cmp_lt_le_trans _ _ (tuple_cmp_laws s) key x.1 y.1). }
    exists r. split; [done|]. destruct r as [m|st].
    + destruct Hr as [? ?]. split; [lia|done].
    + destruct Hr as (? & ? & ?). split_and!; [lia|lia|done..].
  - rewrite Hci by lia. cbn [mbind result_bind].
    apply (cmp_Gt_Lt _ _ (tuple_cmp_laws s)) in Hc; [|done..].
    destruct (IH (mid + 1) end_) as (r & -> & Hr); [lia|lia|lia|done| |done|].
    { intros j y Hj Hy. destruct (decide (Z.of_nat j = mid)) as [E|].
      - assert (j = Z.to_nat mid) as -> by lia. congruence.
      - destruct (Hdn j y) as [Hle Hyok]; [lia|done|].
        by eapply (cmp_le_lt_trans _ _ (tuple_cmp_laws s) y.1 x.1 key). }
    exists r. split; [done|]. destruct r as [m|st].
    + destruct Hr as [? ?]. split; [lia|done].
    + destruct Hr as (? & ? & ?). split_and!; [lia|lia|done..].
Qed.

(** [key_index] finds an entry of the key at or after [lo], when there is one. *)
Lemma key_index_from_spec array key lo :
  Tuple.ok s key → keys_ok array → sorted_from lo array → 0 ≤ lo < Z.of_nat (length array) →
  2 * Z.of_nat (length array) < 2 ^ 31 →
  ∃ o, key_index_from array key lo (Z.of_nat (length array) - 1) = Ok o ∧
    match o with
    | Some i => lo ≤ i < Z.of_nat (length array) ∧
                ∃ x, array !! Z.to_nat i = Some x ∧ x.1 = key
    | None => ∀ j x, lo ≤ Z.of_nat j → array !! j = Some x → x.1 ≠ key
    end.
Proof.
  intros Hkey Hok Hsort Hlo Hlen. unfold key_index_from.
  destruct (search_loop_spec (checked_signed 32) (search_fuel lo (Z.of_nat (length array) - 1))
    array key lo lo (Z.of_nat (length array) - 1)) as (r & -> & Hr); try done; try lia.
  - unfold search_fuel. lia.
  - intros z Hz. apply checked_signed_Ok. unfold signed_ok. change (32 - 1) with 31. lia.
  - intros j x Hj. lia.
  - intros j x Hj Hx%lookup_lt_Some. lia.
  - cbn [mbind result_bind]. destruct r as [mid|st].
    { exists (Some mid). split; [done|]. destruct Hr as [? ?]. split; [lia|done]. }
    destruct Hr as (Hst & Hb & Ha).
    destruct (lookup_lt_is_Some_2 array (Z.to_nat st)) as [x Hx]; [lia|].
    rewrite (index_z_Ok _ _ x) by (done || lia). cbn [mbind result_bind].
    assert (Tuple.ok s x.1) as Hxok by (eapply Forall_lookup_1 in Hok; [exact Hok|done]).
    rewrite compare_ok by done. cbn [mbind result_bind].
    assert (tuple_cmp key x.1 ≠ Eq →
      ∀ j y, lo ≤ Z.of_nat j → array !! j = Some y → y.1 ≠ key) as Hnone.
    { intros Hne j y Hj Hy <-.
      assert (Tuple.ok s y.1) as Hyok by (eapply Forall_lookup_1 in Hok; [exact Hok|done]).
      pose proof (cmp_refl _ _ (tuple_cmp_laws s) _ Hyok) as Hrefl.
      destruct (Z.lt_trichotomy (Z.of_nat j) st) as [Hj'|[Hj'|Hj']].
      - specialize (Hb j y ltac:(lia) Hy). unfold klt in Hb. congruence.
      - assert (j = Z.to_nat st) as -> by lia. congruence.
      - specialize (Ha j y ltac:(lia) Hy). unfold klt in Ha. congruence. }
    destruct (tuple_cmp key x.1) eqn:Hc; [|exists None; split; [done|by apply Hnone]..].
    exists (Some st). split; [done|]. split; [lia|]. exists x. split; [done|].
    symmetry. by apply (cmp_Eq_iff _ _ (tuple_cmp_laws s)) in Hc.
Qed.

Lemma remove_front_spec n acc array :
  (n ≤ length array)%nat → remove_front n acc array = Ok (acc ++ take n array, drop n array).
Proof.
  revert acc array. induction n as [|n IH]; intros acc array Hn; simpl.
  { by rewrite app_nil_r. }
  destruct array as [|x array]; simpl in *; [lia|].
  rewrite IH by lia. by rewrite <- app_assoc.
Qed.

End keys.
End KeyArrayFacts.

(** ** Facts on leaf pages *)
Module LeafFacts.
Import KeyArray KeyArrayFacts SchemaFacts BPlusTreeLeafPage.

(** A leaf of the tree: keys of the schema in strictly increasing order, the size in
    the header, and at most one entry more than the maximum (just before a split). *)
Record leaf_ok (s : Schema.t) (p : t) : Prop := LeafOk {
  leaf_schema : schema p = s;
  leaf_type : page_type (header p) = BPlusTreePageType.LeafPage;
  leaf_size : current_size (header p) = Z.of_nat (length (array p));
  leaf_keys : keys_ok s (array p);
  leaf_sorted : sorted_lt (array p);
  leaf_bound : Z.of_nat (length (array p)) ≤ max_size (header p) + 1;
  leaf_max : 0 ≤ max_size (header p) < 2 ^ 29;
}.

Lemma lt_sorted_from {V} lo (l : list (Tuple.t * V)) : sorted_lt l → sorted_from lo l.
Proof. intros Hs i j x y _ Hij Hi Hj. apply klt_kle. by apply (sorted_lookup (λ a b, klt a.1 b.1) l i j). Qed.

Lemma leaf_key_index s p key :
  leaf_ok s p → Tuple.ok s key →
  ∃ o, key_index p key = Ok o ∧
    match o with
    | Some i => ∃ v, 0 ≤ i ∧ array p !! Z.to_nat i = Some (key, v)
    | None => ∀ v, (key, v) ∉ array p
    end.
Proof.
  intros H Hk. pose proof (leaf_bound _ _ H). pose proof (leaf_max _ _ H).
  unfold key_index. rewrite (leaf_size _ _ H).
  destruct (Z.eqb_spec (Z.of_nat (length (array p))) 0) as [Hz|Hz].
  { exists None. split; [done|]. intros v. destruct (array p); [apply not_elem_of_nil|done]. }
  rewrite to_signed_small by (unfold signed_ok; lia).
  rewrite checked_signed_Ok by (unfold signed_ok; lia). cbn [mbind result_bind].
  destruct (key_index_from_spec s (array p) key 0) as (o & -> & Ho);
    [done|apply H|apply lt_sorted_from, H|lia|lia|].
  exists o. split; [done|]. destruct o as [i|].
  - destruct Ho as (Hi & [k v] & Hx & Hkk). simpl in Hkk. subst k. by exists v; split; [lia|].
  - intros v (j & Hj)%list_elem_of_lookup_1. by apply (Ho j (key, v)); [lia|..].
Qed.

(** The entries of a leaf are a partial map. *)
Lemma leaf_functional s p key v w :
  leaf_ok s p → (key, v) ∈ array p → (key, w) ∈ array p → v = w.
Proof.
  intros H (i & Hi)%list_elem_of_lookup_1 (j & Hj)%list_elem_of_lookup_1.
  pose proof (sorted_lt_NoDup s _ (leaf_keys _ _ H) (leaf_sorted _ _ H)) as Hnd.
  assert (i = j) as ->.
  { apply (NoDup_lookup _ _ _ key Hnd); rewrite list_lookup_fmap; [by rewrite Hi|by rewrite Hj]. }
  by simplify_eq.
Qed.

Lemma leaf_look_up s p key :
  leaf_ok s p → Tuple.ok s key →
  ∃ o, look_up p key = Ok o ∧ ∀ v, o = Some v ↔ (key, v) ∈ array p.
Proof.
  intros H Hk. unfold look_up. destruct (leaf_key_index s p key H Hk) as (o & -> & Ho).
  cbn [mbind result_bind]. destruct o as [i|].
  - destruct Ho as (v & Hi & Hv). rewrite (index_z_Ok _ _ _ Hi Hv). cbn [mbind result_bind].
    exists (Some v). split; [done|]. apply list_elem_of_lookup_2 in Hv. intros w. split.
    + by intros [= <-].
    + intros Hw. f_equal. by eapply leaf_functional.
  - exists None. split; [done|]. intros v. split; [done|]. intros Hv. by apply Ho in Hv.
Qed.

(** Two leaves with the same entry for a key answer the same. *)
Lemma leaf_look_up_ext s p q key :
  leaf_ok s p → leaf_ok s q → Tuple.ok s key →
  (∀ v, (key, v) ∈ array p ↔ (key, v) ∈ array q) → look_up p key = look_up q key.
Proof.
  intros Hp Hq Hk Heq. destruct (leaf_look_up s p key Hp Hk) as (o & -> & Ho).
  destruct (leaf_look_up s q key Hq Hk) as (o' & -> & Ho'). f_equal.
  destruct o as [v|].
  - symmetry. apply Ho', Heq, Ho. done.
  - destruct o' as [v|]; [|done]. apply Ho, Heq, Ho'. done.
Qed.

Lemma leaf_look_up_elem s p key v :
  leaf_ok s p → Tuple.ok s key → (key, v) ∈ array p → look_up p key = Ok (Some v).
Proof.
  intros H Hk Hv. destruct (leaf_look_up s p key H Hk) as (o & -> & Ho). f_equal. by apply Ho.
Qed.

Lemma leaf_look_up_none s p key :
  leaf_ok s p → Tuple.ok s key → (∀ v, (key, v) ∉ array p) → look_up p key = Ok None.
Proof.
  intros H Hk Hv. destruct (leaf_look_up s p key H Hk) as (o & -> & Ho). f_equal.
  destruct o as [v|]; [|done]. exfalso. by apply (Hv v), Ho.
Qed.

(** The page with other entries, its size kept in step. *)
Lemma leaf_with_array s p l :
  leaf_ok s p → keys_ok s l → sorted_lt l → Z.of_nat (length l) ≤ max_size (header p) + 1 →
  leaf_ok s (with_array p l (Z.of_nat (length l))).
Proof. intros H Hk Hs Hl. destruct H. by split. Qed.

(** The keys of [kvs] are not in [l]. *)
Definition fresh {V} (l kvs : list (Tuple.t * V)) : Prop := ∀ k, k ∈ kvs.*1 → k ∉ l.*1.

Lemma leaf_batch_insert s p kvs :
  leaf_ok s p → keys_ok s kvs → NoDup kvs.*1 → fresh (array p) kvs →
  Z.of_nat (length (array p) + length kvs) ≤ max_size (header p) + 1 →
  ∃ p', batch_insert p kvs = Ok p' ∧ leaf_ok s p' ∧ array p' ≡ₚ array p ++ kvs ∧
    next_page_id (header p') = next_page_id (header p) ∧
    max_size (header p') = max_size (header p).
Proof.
  intros H Hk Hnd Hf Hb. pose proof (leaf_max _ _ H).
  assert (keys_ok s (array p ++ kvs)) as Hall by (apply Forall_app; split; [apply H|done]).
  destruct (sort_by_spec s (array p ++ kvs) Hall) as (r & Hr & Hp & Hs).
  assert (length r = length (array p) + length kvs)%nat as Hlen
    by (rewrite Hp, length_app; done).
  exists (with_array p r (Z.of_nat (length r))). split_and!; [| |done..].
  - unfold batch_insert. rewrite (leaf_size _ _ H).
    rewrite wrap_small by (unfold unsigned_ok; lia).
    rewrite checked_Ok by (unfold unsigned_ok; lia). cbn [mbind result_bind].
    rewrite Hr. cbn [mbind result_bind]. do 2 f_equal. lia.
  - apply leaf_with_array; [done| | |lia].
    + unfold keys_ok. by rewrite Hp.
    + apply (sorted_le_lt s); [unfold keys_ok; by rewrite Hp| |done].
      rewrite Hp, fmap_app. apply NoDup_app. split_and!; [|intros k H1 H2; by apply (Hf k)|done].
      apply (sorted_lt_NoDup s); apply H.
Qed.

Lemma leaf_insert_batch p key rid : insert p key rid = batch_insert p [(key, rid)].
Proof. unfold insert, batch_insert. simpl length. by rewrite wrap_small. Qed.

Lemma not_full_bound s p :
  leaf_ok s p → is_full p = false → Z.of_nat (length (array p)) ≤ max_size (header p).
Proof. intros H Hf. apply Z.ltb_ge in Hf. by rewrite (leaf_size _ _ H) in Hf. Qed.

Lemma leaf_insert s p key rid :
  leaf_ok s p → Tuple.ok s key → is_full p = false → (∀ v, (key, v) ∉ array p) →
  ∃ p', insert p key rid = Ok p' ∧ leaf_ok s p' ∧ array p' ≡ₚ (key, rid) :: array p ∧
    next_page_id (header p') = next_page_id (header p) ∧
    max_size (header p') = max_size (header p).
Proof.
  intros H Hk Hf Hfresh. rewrite leaf_insert_batch. apply (not_full_bound _ _ H) in Hf.
  destruct (leaf_batch_insert s p [(key, rid)]) as (p' & -> & Hp' & Hperm & ? & ?); [done| | | | |].
  - by constructor.
  - simpl. apply NoDup_singleton.
  - intros k Hkk ([k' v] & Hkv & Hv)%list_elem_of_fmap. simpl in Hkk, Hkv.
    apply list_elem_of_singleton in Hkk. subst. by apply (Hfresh v).
  - simpl. lia.
  - exists p'. split_and!; [done|done| |done..]. by rewrite Hperm, Permutation_app_comm.
Qed.

(** An insertion keeps all entries, also those with the same key. *)
Lemma leaf_insert_any s p key rid :
  leaf_ok s p → Tuple.ok s key → is_full p = false →
  ∃ p', insert p key rid = Ok p' ∧ array p' ≡ₚ (key, rid) :: array p.
Proof.
  intros H Hk Hf. apply (not_full_bound _ _ H) in Hf. pose proof (leaf_max _ _ H).
  assert (keys_ok s (array p ++ [(key, rid)])) as Hall by (apply Forall_app; split; [apply H|by constructor]).
  destruct (sort_by_spec s _ Hall) as (r & Hr & Hp & _). unfold insert.
  rewrite (leaf_size _ _ H), checked_Ok by (unfold unsigned_ok; lia). cbn [mbind result_bind]. rewrite Hr.
  eexists. split; [done|]. simpl. by rewrite Hp, Permutation_app_comm.
Qed.

Lemma leaf_delete s p key :
  leaf_ok s p → Tuple.ok s key →
  ∃ p', delete p key = Ok p' ∧ leaf_ok s p' ∧
    (∀ x, x ∈ array p' ↔ x ∈ array p ∧ x.1 ≠ key) ∧
    next_page_id (header p') = next_page_id (header p).
Proof.
  intros H Hk. unfold delete. destruct (leaf_key_index s p key H Hk) as (o & -> & Ho).
  cbn [mbind result_bind]. pose proof (leaf_bound _ _ H). pose proof (leaf_max _ _ H).
  destruct o as [i|].
  2:{ exists p. split_and!; [done..| |done]. intros [k v]. split; [|by intros []].
      intros Hin. split; [done|]. simpl. intros ->. by apply (Ho v). }
  destruct Ho as (v & Hi & Hv). rewrite (vec_remove_Ok _ _ _ Hv). cbn [mbind result_bind].
  pose proof (lookup_lt_Some _ _ _ Hv) as Hlt.
  rewrite (leaf_size _ _ H), checked_Ok by (unfold unsigned_ok; lia). cbn [mbind result_bind].
  pose proof (delete_Permutation _ _ _ Hv) as Hp.
  assert (length (array p) = S (length (base.delete (Z.to_nat i) (array p)))) as Hlen
    by (rewrite Hp at 1; done).
  replace (Z.of_nat (length (array p)) - 1)
    with (Z.of_nat (length (base.delete (Z.to_nat i) (array p)))) by lia.
  pose proof (leaf_keys _ _ H) as Hok. pose proof (sorted_lt_NoDup s _ Hok (leaf_sorted _ _ H)) as Hnd.
  eexists. split; [reflexivity|]. split_and!; [|simpl|done].
  - assert (keys_ok s (base.delete (Z.to_nat i) (array p))) as Hok'.
    { unfold keys_ok in *. rewrite Hp in Hok. by apply Forall_cons in Hok as [_ ?]. }
    apply leaf_with_array; [done|done| |lia].
    apply (sorted_le_lt s); [done| |].
    + rewrite Hp in Hnd. by apply NoDup_cons in Hnd as [_ ?].
    + rewrite delete_take_drop. pose proof (leaf_sorted _ _ H) as Hs.
      apply sorted_lt_le in Hs. rewrite <- (take_drop_middle _ _ _ Hv) in Hs.
      clear -Hs. revert Hs. generalize (take (Z.to_nat i) (array p)).
      intros l. induction l as [|y l IH]; simpl; intros Hs.
      * by apply StronglySorted_inv in Hs as [? _].
      * apply StronglySorted_inv in Hs as [Hs Hall]. constructor; [by apply IH|].
        apply Forall_app in Hall as [? Hall]. apply Forall_cons in Hall as [_ ?].
        by apply Forall_app.
  - rewrite Hp in Hnd. apply NoDup_cons in Hnd as [Hni _]. intros x. rewrite Hp at 2.
    rewrite elem_of_cons. split.
    + intros Hx. split; [by right|]. intros <-. apply Hni. simpl. by apply list_elem_of_fmap_2.
    + intros [[->|Hx] Hne]; done.
Qed.

(** Splitting at [at_]: the first [at_] entries stay, the others go right. *)
Lemma leaf_split_off s p at_ :
  leaf_ok s p → (at_ ≤ length (array p))%nat →
  ∃ p', split_off p at_ = Ok (p', drop at_ (array p)) ∧ leaf_ok s p' ∧
    array p' = take at_ (array p) ∧ next_page_id (header p') = next_page_id (header p) ∧
    max_size (header p') = max_size (header p) ∧
    keys_ok s (drop at_ (array p)) ∧ sorted_lt (drop at_ (array p)) ∧
    ∀ x y, x ∈ take at_ (array p) → y ∈ drop at_ (array p) → klt x.1 y.1.
Proof.
  intros H Hat. pose proof (leaf_bound _ _ H). pose proof (leaf_max _ _ H).
  pose proof (leaf_keys _ _ H) as Hk. pose proof (leaf_sorted _ _ H) as Hs.
  rewrite <- (take_drop at_ (array p)) in Hk, Hs. apply Forall_app in Hk as [Hk1 Hk2].
  apply sorted_app in Hs as (Hs1 & Hs2 & Hlt).
  exists (with_array p (take at_ (array p)) (Z.of_nat (length (take at_ (array p))))).
  unfold split_off. rewrite vec_split_off_Ok by done. cbn [mbind result_bind].
  rewrite (leaf_size _ _ H), wrap_small by (unfold unsigned_ok; rewrite length_drop; lia).
  rewrite checked_Ok by (unfold unsigned_ok; rewrite length_drop; lia). cbn [mbind result_bind].
  split_and!; try done.
  - do 3 f_equal. rewrite length_take, length_drop. lia.
  - apply leaf_with_array; [done..|]. rewrite length_take. lia.
Qed.

(** [next_closest] finds the first key at or after ([included]) or after a bound. *)
Lemma next_closest_from_spec s idx l tuple included :
  Tuple.ok s tuple → keys_ok s l →
  match next_closest_from idx l tuple included with
  | Some k => ∃ j x, k = (idx + j)%nat ∧ l !! j = Some x ∧
      (klt tuple x.1 ∨ included = true ∧ x.1 = tuple) ∧
      ∀ i y, (i < j)%nat → l !! i = Some y → klt y.1 tuple ∨ included = false ∧ y.1 = tuple
  | None => ∀ i y, l !! i = Some y → klt y.1 tuple ∨ included = false ∧ y.1 = tuple
  end.
Proof.
  intros Ht. revert idx. induction l as [|x l IH]; intros idx Hok; simpl; [done|].
  apply Forall_cons in Hok as [Hx Hok]. specialize (IH (S idx) Hok).
  destruct (Tuple.eqb tuple x.1 && included) eqn:Heq.
  { apply andb_true_iff in Heq as [Heq ->]. apply (tuple_eqb_ok s) in Heq; [|done..].
    exists 0%nat, x. split_and!; [lia|done|by right|lia]. }
  rewrite (tuple_partial_cmp_Some s) by done.
  assert (klt x.1 tuple ∨ included = false ∧ x.1 = tuple ∨ tuple_cmp x.1 tuple = Gt) as Hcase.
  { destruct (tuple_cmp x.1 tuple) eqn:Hc; [|by left|by right; right].
    apply (cmp_Eq_iff _ _ (tuple_cmp_laws s)) in Hc; [|done..]. right. left. split; [|done].
    destruct included; [|done]. rewrite andb_true_r in Heq.
    rewrite (proj2 (tuple_eqb_ok s tuple x.1 Ht Hx)) in Heq; done. }
  destruct (decide (tuple_cmp x.1 tuple = Gt)) as [Hgt|Hgt].
  { rewrite Hgt. exists 0%nat, x. split_and!; [lia|done| |lia]. left.
    by apply (cmp_Gt_Lt _ _ (tuple_cmp_laws s)) in Hgt. }
  assert (klt x.1 tuple ∨ included = false ∧ x.1 = tuple) as Hskip by tauto.
  destruct (tuple_cmp x.1 tuple) eqn:Hc; [| |done];
    destruct (next_closest_from (S idx) l tuple included) as [k|].
  1,3: destruct IH as (j & y & -> & Hy & Hhit & Hmiss); exists (S j), y;
    split_and!; [lia|done|done|]; intros [|i] z Hi Hz; simplify_eq/=; [done|];
    apply (Hmiss i); [lia|done].
  all: intros [|i] z Hz; simplify_eq/=; [done|by apply (IH i)].
Qed.

End LeafFacts.

(** ** Facts on internal pages *)
Module InternalFacts.
Import KeyArray KeyArrayFacts SchemaFacts BPlusTreeInternalPage.

(** An internal page: a first entry whose key is not looked at, then separators in
    strictly increasing order. *)
Record internal_ok (s : Schema.t) (p : t) (first : InternalKV) (rest : list InternalKV) : Prop :=
  InternalOk {
    internal_schema : schema p = s;
    internal_type : page_type (header p) = BPlusTreePageType.InternalPage;
    internal_array : array p = first :: rest;
    internal_size : current_size (header p) = Z.of_nat (S (length rest));
    internal_first : Tuple.ok s first.1;
    internal_keys : keys_ok s rest;
    internal_sorted : sorted_lt rest;
    internal_bound : Z.of_nat (S (length rest)) ≤ max_size (header p) + 1;
    internal_max : 0 ≤ max_size (header p) < 2 ^ 29;
  }.

(** The child for [key]: the one right of the last separator not above [key]. *)
Definition routes (first : InternalKV) (rest : list InternalKV) (key : Tuple.t) (v : Z) : Prop :=
  (v = first.2 ∧ ∀ y, y ∈ rest → klt key y.1) ∨
  (∃ x, x ∈ rest ∧ v = x.2 ∧ kle x.1 key ∧
     ∀ y, y ∈ rest → klt x.1 y.1 → klt key y.1).

Lemma rest_sorted_from (first : InternalKV) rest : sorted_lt rest → sorted_from 1 (first :: rest).
Proof.
  intros Hs [|i] [|j] x y Hi Hij Hx Hy; try lia. simpl in *. apply klt_kle.
  by apply (sorted_lookup (λ a b, klt a.1 b.1) rest i j); [|lia|..].
Qed.

(** An index with the right neighbours gives the routed child. *)
Lemma routes_index s first rest key i x :
  keys_ok s rest → sorted_lt rest → Tuple.ok s key →
  (first :: rest) !! i = Some x → (i ≠ 0%nat → kle x.1 key) →
  (∀ j y, (i < j)%nat → (first :: rest) !! j = Some y → klt key y.1) →
  routes first rest key x.2.
Proof.
  intros Hok Hs Hk Hx Hle Hup. destruct i as [|i]; simpl in Hx.
  - left. simplify_eq. split; [done|]. intros y (j & Hj)%list_elem_of_lookup_1.
    by apply (Hup (S j)); [lia|].
  - right. exists x. split_and!; [by eapply list_elem_of_lookup_2|done|by apply Hle|].
    intros y (j & Hj)%list_elem_of_lookup_1 Hxy.
    apply (Hup (S j)); [|done]. destruct (decide (i < j)%nat) as [|Hge]; [lia|].
    exfalso. pose proof (Forall_lookup_1 _ _ _ _ Hok Hx) as Hxok.
    pose proof (Forall_lookup_1 _ _ _ _ Hok Hj) as Hyok.
    destruct (decide (i = j)) as [->|].
    + simplify_eq. unfold klt in Hxy. rewrite (cmp_refl _ _ (tuple_cmp_laws s)) in Hxy; done.
    + assert (klt y.1 x.1) as Hyx
        by (apply (sorted_lookup (λ a b, klt a.1 b.1) rest j i); [done|lia|done..]).
      unfold klt in *. apply (cmp_Gt_Lt _ _ (tuple_cmp_laws s)) in Hyx; [|done..]. congruence.
Qed.

Lemma internal_look_up s p first rest key :
  internal_ok s p first rest → rest ≠ [] → Tuple.ok s key →
  ∃ v, look_up p key = Ok v ∧ routes first rest key v.
Proof.
  intros H Hne Hk. pose proof (internal_bound _ _ _ _ H). pose proof (internal_max _ _ _ _ H).
  assert (0 < length rest)%nat as Hpos by (destruct rest; [done|simpl; lia]).
  assert (Forall (λ x, Tuple.ok s x.1) (array p)) as Hok.
  { rewrite (internal_array _ _ _ _ H). constructor; apply H. }
  assert (Z.of_nat (length (array p)) = Z.of_nat (S (length rest))) as Hlen
    by (rewrite (internal_array _ _ _ _ H); done).
  pose proof (rest_sorted_from first rest (internal_sorted _ _ _ _ H)) as Hsf.
  rewrite <- (internal_array _ _ _ _ H) in Hsf.
  unfold look_up. rewrite (internal_size _ _ _ _ H).
  rewrite checked_Ok by (unfold unsigned_ok; lia). cbn [mbind result_bind].
  destruct (search_loop_spec s (checked 32) (search_fuel 1 (Z.of_nat (S (length rest)) - 1))
    (array p) key 1 1 (Z.of_nat (S (length rest)) - 1)) as (r & -> & Hr); try done; try lia.
  { unfold search_fuel. lia. }
  { intros z Hz. apply checked_Ok. unfold unsigned_ok. lia. }
  { intros j x Hj. lia. }
  { intros j x Hj Hx%lookup_lt_Some. lia. }
  cbn [mbind result_bind]. destruct r as [mid|st].
  - destruct Hr as (Hmid & x & Hx & <-). rewrite (index_z_Ok _ _ x) by (done || lia).
    cbn [mbind result_bind]. exists x.2. split; [done|].
    rewrite (internal_array _ _ _ _ H) in Hx, Hsf.
    apply (routes_index s first rest _ (Z.to_nat mid) x); try apply H; try done.
    + intros _. unfold kle. by rewrite (cmp_refl _ _ (tuple_cmp_laws s)).
    + intros j y Hj Hy. destruct j as [|j]; [lia|].
      destruct (Z.to_nat mid) as [|m] eqn:Hm; [lia|]. simpl in *.
      apply (sorted_lookup (λ a b, klt a.1 b.1) rest m j); [apply H|lia|done..].
  - destruct Hr as (Hst & Hb & Ha).
    destruct (lookup_lt_is_Some_2 (array p) (Z.to_nat st)) as [x Hx]; [lia|].
    rewrite (index_z_Ok (array p) st x) by (done || lia). cbn [mbind result_bind].
    pose proof (Forall_lookup_1 _ _ _ _ Hok Hx) as Hxok.
    rewrite (compare_ok s) by done. cbn [mbind result_bind].
    assert (tuple_cmp key x.1 = Lt → ∃ v,
      (kv' ← index_z (array p) (st - 1); Ok kv'.2) = Ok v ∧ routes first rest key v) as Hlt.
    { intros Hc. destruct (lookup_lt_is_Some_2 (array p) (Z.to_nat (st - 1))) as [y Hy]; [lia|].
      rewrite (index_z_Ok _ _ y) by (done || lia). cbn [mbind result_bind].
      exists y.2. split; [done|]. pose proof Hy as Hy'. rewrite (internal_array _ _ _ _ H) in Hy.
      apply (routes_index s first rest _ (Z.to_nat (st - 1)) y); try apply H; try done.
      + intros Hn. apply klt_kle. apply (Hb (Z.to_nat (st - 1))); [lia|done].
      + intros j z Hj Hz. rewrite <- (internal_array _ _ _ _ H) in Hz.
        destruct (decide (Z.of_nat j = st)) as [<-|]; [|by apply (Ha j); [lia|]].
        rewrite Nat2Z.id in Hx. by simplify_eq. }
    assert (tuple_cmp key x.1 ≠ Lt → routes first rest key x.2) as Hge.
    { intros Hc. rewrite (internal_array _ _ _ _ H) in Hx.
      apply (routes_index s first rest _ (Z.to_nat st) x); try apply H; try done.
      + intros _. unfold kle. rewrite (cmp_opp _ _ (tuple_cmp_laws s) key x.1) by done.
        by destruct (tuple_cmp key x.1).
      + intros j z Hj Hz. rewrite <- (internal_array _ _ _ _ H) in Hz. apply (Ha j); [lia|done]. }
    destruct (tuple_cmp key x.1); [|by apply Hlt|]; exists x.2; auto.
Qed.

(** A key is routed to one child only. *)
Lemma routes_functional s first rest key v w :
  keys_ok s rest → sorted_lt rest → Tuple.ok s key →
  routes first rest key v → routes first rest key w → v = w.
Proof.
  intros Hok Hs Hk. unfold keys_ok in Hok.
  assert (∀ x, x ∈ rest → kle x.1 key → klt key x.1 → False) as Hcl.
  { intros x Hx Hle Hlt. rewrite Forall_forall in Hok. specialize (Hok _ Hx).
    unfold kle, klt in *. apply (cmp_Gt_Lt _ _ (tuple_cmp_laws s)) in Hlt; done. }
  intros [[-> Hv]|(x & Hx & -> & Hxk & Hxu)] [[-> Hw]|(y & Hy & -> & Hyk & Hyu)]; [done|..].
  - exfalso. apply (Hcl y); auto.
  - exfalso. apply (Hcl x); auto.
  - apply list_elem_of_lookup_1 in Hx as [i Hi]. apply list_elem_of_lookup_1 in Hy as [j Hj].
    destruct (Nat.lt_trichotomy i j) as [Hij|[->|Hij]]; [|by simplify_eq|]; exfalso.
    + assert (klt x.1 y.1) by by apply (sorted_lookup (λ a b, klt a.1 b.1) rest i j).
      apply (Hcl y); [by eapply list_elem_of_lookup_2|done|]. apply Hxu; [by eapply list_elem_of_lookup_2|done].
    + assert (klt y.1 x.1) by by apply (sorted_lookup (λ a b, klt a.1 b.1) rest j i).
      apply (Hcl x); [by eapply list_elem_of_lookup_2|done|]. apply Hyu; [by eapply list_elem_of_lookup_2|done].
Qed.

(** The page with other separators, its size kept in step. *)
Lemma internal_with_array s p first rest rest' :
  internal_ok s p first rest → keys_ok s rest' → sorted_lt rest' →
  Z.of_nat (S (length rest')) ≤ max_size (header p) + 1 →
  internal_ok s (with_array p (first :: rest') (Z.of_nat (S (length rest')))) first rest'.
Proof. intros H Hk Hs Hl. destruct H. by split. Qed.

Lemma internal_insert s p first rest key page_id :
  internal_ok s p first rest → Tuple.ok s key → is_full p = false → key ∉ rest.*1 →
  ∃ p' rest', insert p key page_id = Ok p' ∧ internal_ok s p' first rest' ∧
    rest' ≡ₚ (key, page_id) :: rest ∧ max_size (header p') = max_size (header p).
Proof.
  intros H Hk Hf Hn. apply Z.ltb_ge in Hf. rewrite (internal_size _ _ _ _ H) in Hf.
  pose proof (internal_max _ _ _ _ H).
  assert (keys_ok s (rest ++ [(key, page_id)])) as Hok
    by (apply Forall_app; split; [apply H|by constructor]).
  destruct (sort_by_spec s _ Hok) as (r & Hr & Hp & Hs).
  assert (length r = S (length rest)) as Hlen by (rewrite Hp, length_app; simpl; lia).
  exists (with_array p (first :: r) (Z.of_nat (S (length r)))), r.
  split_and!; [| | |done].
  - unfold insert. rewrite (internal_size _ _ _ _ H), (internal_array _ _ _ _ H).
    rewrite checked_Ok by (unfold unsigned_ok; lia). cbn -[sort_by Z.of_nat].
    rewrite Hr. cbn -[Z.of_nat]. do 2 f_equal. lia.
  - apply (internal_with_array _ _ _ _ _ H); [unfold keys_ok; by rewrite Hp| |lia].
    apply (sorted_le_lt s); [unfold keys_ok; by rewrite Hp| |done].
    rewrite Hp, fmap_app. apply NoDup_app. split_and!; [|intros k H1 H2|apply NoDup_singleton].
    + apply (sorted_lt_NoDup s); apply H.
    + simpl in H2. apply list_elem_of_singleton in H2 as ->. done.
  - by rewrite Hp, Permutation_app_comm.
Qed.

(** The routing after an insertion: keys from the new separator up to the next one go
    to the new child, the others where they went before. *)
Lemma routes_insert s first rest key page_id k v :
  keys_ok s rest → Tuple.ok s key → Tuple.ok s k → key ∉ rest.*1 →
  (kle key k ∧ (∀ y, y ∈ rest → klt key y.1 → klt k y.1) →
   routes first ((key, page_id) :: rest) k page_id) ∧
  (¬ (kle key k ∧ (∀ y, y ∈ rest → klt key y.1 → klt k y.1)) →
   routes first rest k v → routes first ((key, page_id) :: rest) k v).
Proof.
  intros Hok Hkey Hk Hn. pose proof (tuple_cmp_laws s) as L. unfold keys_ok in Hok.
  rewrite Forall_forall in Hok.
  assert (¬ kle key k → klt k key) as Hnle.
  { unfold kle, klt. intros Hc. apply (cmp_Gt_Lt _ _ L); [done..|].
    by destruct (tuple_cmp key k); [contradict Hc..|]. }
  split.
  - intros [Hle Hup]. right. exists (key, page_id). split_and!; [by left|done|done|].
    intros y [->|Hy]%elem_of_cons Hlt; simpl in *; [|by apply Hup].
    unfold klt in Hlt. by rewrite (cmp_refl _ _ L) in Hlt.
  - intros Hno [[-> Hall]|(x & Hx & -> & Hxk & Hxu)].
    + left. split; [done|]. intros y [->|Hy]%elem_of_cons; [|by apply Hall]. simpl.
      apply Hnle. intros Hle. apply Hno. split; [done|]. intros y Hy _. by apply Hall.
    + right. exists x. split_and!; [by right|done|done|].
      intros y [->|Hy]%elem_of_cons Hxy; [|by apply Hxu]. simpl in *.
      apply Hnle. intros Hle. apply Hno. split; [done|]. intros y Hy Hky. apply Hxu; [done|].
      by eapply (cmp_Lt_trans _ _ L x.1 key y.1); auto.
Qed.

End InternalFacts.

(** ** Properties *)
Module IndexPageSpec.
Import KeyArray KeyArrayFacts SchemaFacts LeafFacts.

(** C20: a leaf page implements a finite map from keys to record ids, as long as only new
    keys are inserted. On a leaf whose keys are strictly increasing, [look_up] (a binary
    search that terminates and never goes out of range) finds a key exactly when an entry
    has it. Inserting a new key into a leaf that is not full and deleting a key return a
    leaf that satisfies the same invariant, answer with the new binding (or none) for that
    key, and leave the answer for every other key; [delete] of an absent key changes
    nothing. An insertion never replaces an entry: inserting a key that is present adds a
    second entry for it, and the page is then no map. *)
Theorem leaf_page_is_map s p key rid :
  leaf_ok s p → Tuple.ok s key →
  (∃ o, BPlusTreeLeafPage.look_up p key = Ok o ∧
     ∀ v, o = Some v ↔ (key, v) ∈ BPlusTreeLeafPage.array p) ∧
  (BPlusTreeLeafPage.is_full p = false → BPlusTreeLeafPage.look_up p key = Ok None →
   ∃ p', BPlusTreeLeafPage.insert p key rid = Ok p' ∧ leaf_ok s p' ∧
     BPlusTreeLeafPage.look_up p' key = Ok (Some rid) ∧
     ∀ k, Tuple.ok s k → k ≠ key →
       BPlusTreeLeafPage.look_up p' k = BPlusTreeLeafPage.look_up p k) ∧
  (BPlusTreeLeafPage.is_full p = false →
   ∃ p', BPlusTreeLeafPage.insert p key rid = Ok p' ∧
     BPlusTreeLeafPage.array p' ≡ₚ (key, rid) :: BPlusTreeLeafPage.array p) ∧
  (∃ p', BPlusTreeLeafPage.delete p key = Ok p' ∧ leaf_ok s p' ∧
     BPlusTreeLeafPage.look_up p' key = Ok None ∧
     ∀ k, Tuple.ok s k → k ≠ key →
       BPlusTreeLeafPage.look_up p' k = BPlusTreeLeafPage.look_up p k).
Proof.
  intros H Hk. split_and!; [by apply (leaf_look_up s)|intros Hf Hnone|by apply (leaf_insert_any s)|].
  - assert (∀ v, (key, v) ∉ BPlusTreeLeafPage.array p) as Hfresh.
    { intros v Hv. rewrite (leaf_look_up_elem s p key v) in Hnone; done. }
    destruct (leaf_insert s p key rid H Hk Hf Hfresh) as (p' & Hi & H' & Hp & _).
    exists p'. split_and!; [done|done| |].
    + apply (leaf_look_up_elem s); [done..|]. rewrite Hp. by left.
    + intros k Hkk Hne. apply (leaf_look_up_ext s); [done..|]. intros v.
      rewrite Hp, elem_of_cons. split; [intros [[= -> _]|]; done|by right].
  - destruct (leaf_delete s p key H Hk) as (p' & Hd & H' & Hp & _).
    exists p'. split_and!; [done|done| |].
    + apply (leaf_look_up_none s); [done..|]. intros v [_ Hv]%Hp. done.
    + intros k Hkk Hne. apply (leaf_look_up_ext s); [done..|]. intros v.
      rewrite Hp. split; [by intros []|done].
Qed.

Definition key_schema : Schema.t := Schema.Mk [Column.new "a" DataType.Int8 false].

Definition demo_key (a : Z) : Tuple.t := Tuple.Mk key_schema [ScalarValue.Int8 (Some a)].

Lemma demo_key_ok a : signed_ok 8 a → Tuple.ok key_schema (demo_key a).
Proof. intros Ha. split; [done|]. by apply Forall2_cons. Qed.

Definition demo_leaf : BPlusTreeLeafPage.t :=
  BPlusTreeLeafPage.Mk key_schema
    (BPlusTreeLeafPage.MkHeader BPlusTreePageType.LeafPage 3 4 0)
    [(demo_key 1, RecordId.Mk 1 1); (demo_key 3, RecordId.Mk 3 3); (demo_key 5, RecordId.Mk 5 5)].

Lemma demo_leaf_ok : leaf_ok key_schema demo_leaf.
Proof.
  split; try done.
  - repeat (apply Forall_cons; split; [by apply demo_key_ok|]). done.
  - repeat constructor.
Qed.

Lemma leaf_page_is_map_witness :
  ∃ p', BPlusTreeLeafPage.insert demo_leaf (demo_key 4) (RecordId.Mk 4 4) = Ok p' ∧
    BPlusTreeLeafPage.look_up p' (demo_key 4) = Ok (Some (RecordId.Mk 4 4)) ∧
    BPlusTreeLeafPage.look_up p' (demo_key 3) = Ok (Some (RecordId.Mk 3 3)).
Proof.
  destruct (leaf_page_is_map key_schema demo_leaf (demo_key 4) (RecordId.Mk 4 4) demo_leaf_ok
    (demo_key_ok 4 ltac:(done))) as (_ & Hins & _).
  destruct Hins as (p' & Hi & _ & Hnew & Hold); [done|vm_compute; done|].
  exists p'. rewrite (Hold (demo_key 3) (demo_key_ok 3 ltac:(done))) by (unfold demo_key; congruence).
  split_and!; [done|done|vm_compute; done].
Defined.

(** Splitting a leaf loses nothing and orders the halves. Moving the entries from
    index [at_] on to a fresh leaf of the same capacity (the steps of the leaf case of
    [BPlusTreeIndex::split]) gives two leaves with the invariant; with [sep] the first
    key of the right one, the old leaf answers for each key like the left half below
    [sep] and like the right half from [sep] on. *)
Theorem leaf_split_partitions s p at_ :
  leaf_ok s p → (0 < at_ < length (BPlusTreeLeafPage.array p))%nat →
  ∃ l kvs r sep, BPlusTreeLeafPage.split_off p at_ = Ok (l, kvs) ∧
    BPlusTreeLeafPage.batch_insert
      (BPlusTreeLeafPage.new s (BPlusTreeLeafPage.max_size (BPlusTreeLeafPage.header p))) kvs
      = Ok r ∧
    leaf_ok s l ∧ leaf_ok s r ∧ BPlusTreeLeafPage.key_at r 0 = Ok sep ∧ Tuple.ok s sep ∧
    ∀ k, Tuple.ok s k →
      BPlusTreeLeafPage.look_up p k
      = match tuple_cmp k sep with
        | Lt => BPlusTreeLeafPage.look_up l k
        | _ => BPlusTreeLeafPage.look_up r k
        end.
Proof.
  intros H [Hat0 Hat]. destruct (leaf_split_off s p at_) as
    (l & Hsplit & Hl & Hla & _ & Hmax & Hk & Hs & Hlt); [done|lia|].
  pose proof (leaf_max _ _ H). pose proof (leaf_bound _ _ H).
  set (new := BPlusTreeLeafPage.new s _).
  assert (leaf_ok s new) as Hnew.
  { split; try done; simpl; [by constructor|constructor|lia]. }
  destruct (leaf_batch_insert s new (drop at_ (BPlusTreeLeafPage.array p)))
    as (r & Hr & Hrok & Hra & _); [done|done|by apply (sorted_lt_NoDup s)| | |].
  { intros k _ Hin. by apply not_elem_of_nil in Hin. }
  { simpl. rewrite length_drop. lia. }
  simpl in Hra. destruct (BPlusTreeLeafPage.array r) as [|[sep v] ra] eqn:Har.
  { apply Permutation_length in Hra. rewrite length_drop in Hra. simpl in Hra. lia. }
  pose proof (leaf_keys _ _ Hrok) as Hrk. rewrite Har in Hrk.
  apply Forall_cons in Hrk as [Hsep Hrk]. simpl in Hsep.
  pose proof (leaf_sorted _ _ Hrok) as Hrs. rewrite Har in Hrs.
  apply StronglySorted_inv in Hrs as [_ Hrs].
  exists l, (drop at_ (BPlusTreeLeafPage.array p)), r, sep.
  split_and!; [done..|unfold BPlusTreeLeafPage.key_at; by rewrite Har|done|].
  intros k Hkok. pose proof (tuple_cmp_laws s) as L.
  assert (∀ x, x ∈ BPlusTreeLeafPage.array p ↔
    x ∈ take at_ (BPlusTreeLeafPage.array p) ∨ x ∈ BPlusTreeLeafPage.array r) as Hsplit_elem.
  { intros x. rewrite <- (take_drop at_ (BPlusTreeLeafPage.array p)) at 1.
    by rewrite elem_of_app, Har, Hra. }
  assert (∀ w, (k, w) ∈ BPlusTreeLeafPage.array r → kle sep k) as Hge.
  { intros w Hw. rewrite Har in Hw. apply elem_of_cons in Hw as [[= -> _]|Hw].
    - unfold kle. by rewrite (cmp_refl _ _ L).
    - rewrite Forall_forall in Hrs. apply klt_kle. apply (Hrs _ Hw). }
  assert (∀ w, (k, w) ∈ take at_ (BPlusTreeLeafPage.array p) → klt k sep) as Hbelow.
  { intros w Hw. apply (Hlt (k, w) (sep, v)); [done|]. rewrite <- Hra. by left. }
  unfold kle, klt in *.
  destruct (tuple_cmp k sep) eqn:Hc; apply (leaf_look_up_ext s); try done;
    intros w; rewrite Hsplit_elem, ?Hla.
  - split; [intros [Hw|Hw]; [by apply Hbelow in Hw|done]|by right].
  - split; [intros [Hw|Hw]; [done|]|by left]. exfalso. apply Hge in Hw.
    by apply (cmp_Gt_Lt _ _ L) in Hc.
  - split; [intros [Hw|Hw]; [by apply Hbelow in Hw|done]|by right].
Qed.

Lemma leaf_split_partitions_witness :
  ∃ l kvs r, BPlusTreeLeafPage.split_off demo_leaf 1 = Ok (l, kvs) ∧
    BPlusTreeLeafPage.batch_insert (BPlusTreeLeafPage.new key_schema 4) kvs = Ok r ∧
    BPlusTreeLeafPage.look_up r (demo_key 5) = Ok (Some (RecordId.Mk 5 5)).
Proof.
  destruct (leaf_split_partitions key_schema demo_leaf 1 demo_leaf_ok) as
    (l & kvs & r & sep & Hs & Hb & _ & _ & Hsep & _ & Hl); [simpl; lia|].
  exists l, kvs, r. split_and!; [done..|]. specialize (Hl (demo_key 5) (demo_key_ok 5 ltac:(done))).
  assert (sep = demo_key 3) as ->.
  { vm_compute in Hs. injection Hs as <- <-. vm_compute in Hb. injection Hb as <-.
    vm_compute in Hsep. by injection Hsep as <-. }
  assert (tuple_cmp (demo_key 5) (demo_key 3) = Gt) as Hc by (vm_compute; reflexivity).
  rewrite Hc in Hl. rewrite <- Hl. vm_compute. reflexivity.
Defined.

(** An internal page routes every key to exactly one child. In a page whose
    separators are strictly increasing, the binary search of [look_up] terminates in
    range and returns the child right of the last separator not above the key (the
    first child when every separator is above it). After inserting a new separator,
    the keys from it up to the next separator go to the new child and every other key
    goes where it went. *)
Theorem internal_page_routes s p first rest key page_id :
  InternalFacts.internal_ok s p first rest → rest ≠ [] → Tuple.ok s key →
  (∀ k, Tuple.ok s k → ∃ v, BPlusTreeInternalPage.look_up p k = Ok v ∧
     InternalFacts.routes first rest k v) ∧
  (BPlusTreeInternalPage.is_full p = false → key ∉ rest.*1 →
   ∃ p' rest', BPlusTreeInternalPage.insert p key page_id = Ok p' ∧
     InternalFacts.internal_ok s p' first rest' ∧
     ∀ k, Tuple.ok s k →
       (kle key k ∧ (∀ y, y ∈ rest → klt key y.1 → klt k y.1) →
        BPlusTreeInternalPage.look_up p' k = Ok page_id) ∧
       (¬ (kle key k ∧ (∀ y, y ∈ rest → klt key y.1 → klt k y.1)) →
        BPlusTreeInternalPage.look_up p' k = BPlusTreeInternalPage.look_up p k)).
Proof.
  intros H Hne Hkey. split; [intros k Hk; by apply (InternalFacts.internal_look_up s)|].
  intros Hf Hn.
  destruct (InternalFacts.internal_insert s p first rest key page_id H Hkey Hf Hn)
    as (p' & rest' & Hi & H' & Hp & _).
  exists p', rest'. split_and!; [done..|]. intros k Hk.
  pose proof (InternalFacts.internal_keys _ _ _ _ H) as Hok.
  destruct (InternalFacts.internal_look_up s p first rest k H Hne Hk) as (v & Hv & Hr).
  destruct (InternalFacts.internal_look_up s p' first rest' k H') as (v' & Hv' & Hr');
    [intros ->; by apply Permutation_nil_cons in Hp|done|].
  rewrite Hv, Hv'.
  assert (∀ w, InternalFacts.routes first ((key, page_id) :: rest) k w → v' = w) as Huniq.
  { intros w Hw. apply (InternalFacts.routes_functional s first rest' k); try apply H'; try done.
    unfold InternalFacts.routes in *. by setoid_rewrite Hp. }
  destruct (InternalFacts.routes_insert s first rest key page_id k v Hok Hkey Hk Hn) as [Hin Hout].
  split; intros Hcase; f_equal; apply Huniq; auto.
Qed.

Definition demo_internal : BPlusTreeInternalPage.t :=
  BPlusTreeInternalPage.Mk key_schema
    (BPlusTreeInternalPage.MkHeader BPlusTreePageType.InternalPage 3 4)
    [(Tuple.Mk key_schema [ScalarValue.Int8 None], 10); (demo_key 3, 13); (demo_key 7, 17)].

Lemma demo_internal_ok :
  InternalFacts.internal_ok key_schema demo_internal
    (Tuple.Mk key_schema [ScalarValue.Int8 None], 10) [(demo_key 3, 13); (demo_key 7, 17)].
Proof.
  split; try done.
  - split; [done|]. by apply Forall2_cons.
  - repeat (apply Forall_cons; split; [by apply demo_key_ok|]). done.
  - repeat constructor.
Qed.

Lemma internal_page_routes_witness :
  ∃ p', BPlusTreeInternalPage.insert demo_internal (demo_key 5) 15 = Ok p' ∧
    BPlusTreeInternalPage.look_up p' (demo_key 6) = Ok 15.
Proof.
  destruct (internal_page_routes key_schema demo_internal _ _ (demo_key 5) 15 demo_internal_ok)
    as [_ Hins]; [done|by apply demo_key_ok|].
  destruct Hins as (p' & rest' & Hi & _ & Hr); [done| |].
  { simpl. rewrite !not_elem_of_cons. split_and!; [done..|apply not_elem_of_nil]. }
  exists p'. split; [done|]. apply (Hr (demo_key 6) (demo_key_ok 6 ltac:(done))).
  split; [done|]. intros y Hy. rewrite !elem_of_cons in Hy.
  destruct Hy as [->|[->|Hy]]; [done..|by apply not_elem_of_nil in Hy].
Defined.

(** [next_closest], the start of an index scan, returns the first position whose
    key is at the bound (when the bound is included) or after it, and nothing only if
    every key is before the bound. *)
Theorem leaf_next_closest s p tuple included :
  leaf_ok s p → Tuple.ok s tuple →
  match BPlusTreeLeafPage.next_closest p tuple included with
  | Some k => ∃ x, BPlusTreeLeafPage.array p !! k = Some x ∧
      (klt tuple x.1 ∨ included = true ∧ x.1 = tuple) ∧
      ∀ i y, (i < k)%nat → BPlusTreeLeafPage.array p !! i = Some y →
        klt y.1 tuple ∨ included = false ∧ y.1 = tuple
  | None => ∀ i y, BPlusTreeLeafPage.array p !! i = Some y →
      klt y.1 tuple ∨ included = false ∧ y.1 = tuple
  end.
Proof.
  intros H Ht. unfold BPlusTreeLeafPage.next_closest.
  pose proof (next_closest_from_spec s 0 _ tuple included Ht (leaf_keys _ _ H)) as Hn.
  destruct (BPlusTreeLeafPage.next_closest_from _ _ _ _); [|done].
  destruct Hn as (j & x & -> & Hx & Hhit & Hmiss). by exists x.
Qed.

Lemma leaf_next_closest_witness :
  BPlusTreeLeafPage.next_closest demo_leaf (demo_key 3) false = Some 2%nat ∧
  klt (demo_key 1) (demo_key 3).
Proof.
  pose proof (leaf_next_closest key_schema demo_leaf (demo_key 3) false demo_leaf_ok
    (demo_key_ok 3 ltac:(done))) as H.
  assert (BPlusTreeLeafPage.next_closest demo_leaf (demo_key 3) false = Some 2%nat) as E
    by (vm_compute; reflexivity).
  rewrite E in H. destruct H as (x & _ & _ & Hmiss). split; [done|].
  destruct (Hmiss 0%nat (demo_key 1, RecordId.Mk 1 1)) as [Hlt|[_ Heq]]; [lia|done|done|done].
Defined.

End IndexPageSpec.
