(* ===== verification/IndexPageCodec.v ===== *)
(** * IndexPageCodec: B+ tree pages as bytes

    Models [bustubx/src/storage/codec/index_page.rs] and shows that a page that was
    encoded decodes to itself. *)
From S2P Require Import Prelude CommonCodec Floats Scalar Schema TupleCodec TablePage IndexPage.
Local Open Scope Z_scope.

Module BPlusTreePageTypeCodec.

Definition encode (page_type : BPlusTreePageType.t) : list Z :=
  match page_type with
  | BPlusTreePageType.LeafPage => encode_u8 1
  | BPlusTreePageType.InternalPage => encode_u8 2
  end.

Definition decode (bytes : list Z) : result (DecodedData BPlusTreePageType.t) :=
  '(flag, offset) ← decode_u8 bytes;
  match flag with
  | 1 => Ok (BPlusTreePageType.LeafPage, offset)
  | 2 => Ok (BPlusTreePageType.InternalPage, offset)
  | _ => Err (Storage "Invalid page type {}")
  end.

End BPlusTreePageTypeCodec.

Module BPlusTreeLeafPageHeaderCodec.
Import BPlusTreeLeafPage.

Definition encode (header : header_t) : list Z :=
  BPlusTreePageTypeCodec.encode (page_type header) ++
  encode_u32 (current_size header) ++
  encode_u32 (max_size header) ++
  encode_u32 (next_page_id header).

Definition decode (bytes : list Z) : result (DecodedData header_t) :=
  '(page_type, offset) ← BPlusTreePageTypeCodec.decode bytes;
  left_bytes ← slice_from bytes offset;
  '(current_size, offset) ← decode_u32 left_bytes;
  left_bytes ← slice_from left_bytes offset;
  '(max_size, offset) ← decode_u32 left_bytes;
  left_bytes ← slice_from left_bytes offset;
  '(next_page_id, offset) ← decode_u32 left_bytes;
  left_bytes ← slice_from left_bytes offset;
  consumed ← usub (length bytes) (length left_bytes);
  Ok (MkHeader page_type current_size max_size next_page_id, consumed).

End BPlusTreeLeafPageHeaderCodec.

Module BPlusTreeInternalPageHeaderCodec.
Import BPlusTreeInternalPage.

Definition encode (header : header_t) : list Z :=
  BPlusTreePageTypeCodec.encode (page_type header) ++
  encode_u32 (current_size header) ++
  encode_u32 (max_size header).

Definition decode (bytes : list Z) : result (DecodedData header_t) :=
  '(page_type, offset) ← BPlusTreePageTypeCodec.decode bytes;
  left_bytes ← slice_from bytes offset;
  '(current_size, offset) ← decode_u32 left_bytes;
  left_bytes ← slice_from left_bytes offset;
  '(max_size, offset) ← decode_u32 left_bytes;
  left_bytes ← slice_from left_bytes offset;
  consumed ← usub (length bytes) (length left_bytes);
  Ok (MkHeader page_type current_size max_size, consumed).

End BPlusTreeInternalPageHeaderCodec.

(** The entry loops of the two page codecs, over the codec of the value stored with
    a key: [RidCodec] in leaves, [u32] page ids in internal pages. *)
Section entries.
Context {V : Type} (encode_value : V → list Z)
  (decode_value : list Z → result (DecodedData V)).

Fixpoint encode_entries (array : list (Tuple.t * V)) (bytes : list Z) : result (list Z) :=
  match array with
  | [] => Ok bytes
  | (tuple, v) :: array' =>
      tuple_bytes ← TupleCodec.encode tuple;
      encode_entries array' (bytes ++ tuple_bytes ++ encode_value v)
  end.

Fixpoint decode_entries (n : nat) (schema : Schema.t) (array : list (Tuple.t * V))
    (left_bytes : list Z) : result (list (Tuple.t * V)) :=
  match n with
  | O => Ok array
  | S n' =>
      '(tuple, offset) ← TupleCodec.decode left_bytes schema;
      left_bytes ← slice_from left_bytes offset;
      '(v, offset) ← decode_value left_bytes;
      left_bytes ← slice_from left_bytes offset;
      decode_entries n' schema (array ++ [(tuple, v)]) left_bytes
  end.

End entries.

(** [assert!(bytes.len() <= BUSTUBX_PAGE_SIZE)], then zero padding. *)
Definition pad_page (bytes : list Z) : result (list Z) :=
  _ ← assert_true (length bytes <=? BUSTUBX_PAGE_SIZE)%nat;
  Ok (bytes ++ replicate (BUSTUBX_PAGE_SIZE - length bytes) 0).

Definition page_size_error {A} : result A :=
  Err (Storage "Index page size is not {} instead of {}").

Module BPlusTreeLeafPageCodec.
Import BPlusTreeLeafPage.

Definition encode (page : t) : result (list Z) :=
  bytes ← encode_entries RidCodec.encode (array page)
            (BPlusTreeLeafPageHeaderCodec.encode (header page));
  pad_page bytes.

Definition decode (bytes : list Z) (schema : Schema.t) : result (DecodedData t) :=
  if negb (length bytes =? BUSTUBX_PAGE_SIZE)%nat then page_size_error
  else
    '(page_type, _) ← BPlusTreePageTypeCodec.decode bytes;
    match page_type with
    | BPlusTreePageType.LeafPage =>
        '(header, offset) ← BPlusTreeLeafPageHeaderCodec.decode bytes;
        left_bytes ← slice_from bytes offset;
        array ← decode_entries RidCodec.decode (Z.to_nat (current_size header)) schema []
                  left_bytes;
        Ok (Mk schema header array, BUSTUBX_PAGE_SIZE)
    | _ => Err (Storage "Index page type must be leaf page")
    end.

End BPlusTreeLeafPageCodec.

Module BPlusTreeInternalPageCodec.
Import BPlusTreeInternalPage.

Definition encode (page : t) : result (list Z) :=
  bytes ← encode_entries encode_u32 (array page)
            (BPlusTreeInternalPageHeaderCodec.encode (header page));
  pad_page bytes.

Definition decode (bytes : list Z) (schema : Schema.t) : result (DecodedData t) :=
  if negb (length bytes =? BUSTUBX_PAGE_SIZE)%nat then page_size_error
  else
    '(page_type, _) ← BPlusTreePageTypeCodec.decode bytes;
    match page_type with
    | BPlusTreePageType.InternalPage =>
        '(header, offset) ← BPlusTreeInternalPageHeaderCodec.decode bytes;
        left_bytes ← slice_from bytes offset;
        array ← decode_entries decode_u32 (Z.to_nat (current_size header)) schema []
                  left_bytes;
        Ok (Mk schema header array, BUSTUBX_PAGE_SIZE)
    | _ => Err (Storage "Index page type must be internal page")
    end.

End BPlusTreeInternalPageCodec.

Module BPlusTreePageCodec.
Import BPlusTreePage.

Definition encode (page : t) : result (list Z) :=
  match page with
  | Leaf page => BPlusTreeLeafPageCodec.encode page
  | Internal page => BPlusTreeInternalPageCodec.encode page
  end.

Definition decode (bytes : list Z) (schema : Schema.t) : result (DecodedData t) :=
  if negb (length bytes =? BUSTUBX_PAGE_SIZE)%nat then page_size_error
  else
    '(page_type, _) ← BPlusTreePageTypeCodec.decode bytes;
    match page_type with
    | BPlusTreePageType.LeafPage =>
        '(page, offset) ← BPlusTreeLeafPageCodec.decode bytes schema; Ok (Leaf page, offset)
    | BPlusTreePageType.InternalPage =>
        '(page, offset) ← BPlusTreeInternalPageCodec.decode bytes schema;
        Ok (Internal page, offset)
    end.

End BPlusTreePageCodec.

(** ** Facts *)
Module IndexPageCodecFacts.

Lemma page_type_length ty : length (BPlusTreePageTypeCodec.encode ty) = 1%nat.
Proof. by destruct ty. Qed.

Lemma page_type_round_trip ty rest :
  BPlusTreePageTypeCodec.decode (BPlusTreePageTypeCodec.encode ty ++ rest) = Ok (ty, 1%nat).
Proof.
  unfold BPlusTreePageTypeCodec.decode, BPlusTreePageTypeCodec.encode.
  destruct ty; rewrite decode_u8_app by done; done.
Qed.

#[export] Hint Rewrite page_type_round_trip : codec.
#[export] Hint Rewrite page_type_length : codec_length.

Definition leaf_header_ok (h : BPlusTreeLeafPage.header_t) : Prop :=
  unsigned_ok 32 (BPlusTreeLeafPage.current_size h) ∧
  unsigned_ok 32 (BPlusTreeLeafPage.max_size h) ∧
  unsigned_ok 32 (BPlusTreeLeafPage.next_page_id h).

Lemma leaf_header_round_trip h rest :
  leaf_header_ok h →
  BPlusTreeLeafPageHeaderCodec.decode (BPlusTreeLeafPageHeaderCodec.encode h ++ rest)
  = Ok (h, 13%nat).
Proof.
  destruct h as [ty cs ms np]. intros (H1 & H2 & H3); simpl in H1, H2, H3.
  unfold BPlusTreeLeafPageHeaderCodec.decode, BPlusTreeLeafPageHeaderCodec.encode.
  cbn [BPlusTreeLeafPage.page_type BPlusTreeLeafPage.current_size BPlusTreeLeafPage.max_size
    BPlusTreeLeafPage.next_page_id].
  rewrite <- !app_assoc. decode_steps. decode_consumed.
Qed.

Definition internal_header_ok (h : BPlusTreeInternalPage.header_t) : Prop :=
  unsigned_ok 32 (BPlusTreeInternalPage.current_size h) ∧
  unsigned_ok 32 (BPlusTreeInternalPage.max_size h).

Lemma internal_header_round_trip h rest :
  internal_header_ok h →
  BPlusTreeInternalPageHeaderCodec.decode (BPlusTreeInternalPageHeaderCodec.encode h ++ rest)
  = Ok (h, 9%nat).
Proof.
  destruct h as [ty cs ms]. intros (H1 & H2); simpl in H1, H2.
  unfold BPlusTreeInternalPageHeaderCodec.decode, BPlusTreeInternalPageHeaderCodec.encode.
  cbn [BPlusTreeInternalPage.page_type BPlusTreeInternalPage.current_size
    BPlusTreeInternalPage.max_size].
  rewrite <- !app_assoc. decode_steps. decode_consumed.
Qed.

Lemma leaf_header_length h : length (BPlusTreeLeafPageHeaderCodec.encode h) = 13%nat.
Proof. unfold BPlusTreeLeafPageHeaderCodec.encode. by autorewrite with codec_length. Qed.

Lemma internal_header_length h : length (BPlusTreeInternalPageHeaderCodec.encode h) = 9%nat.
Proof. unfold BPlusTreeInternalPageHeaderCodec.encode. by autorewrite with codec_length. Qed.

Section entries.
Context {V : Type} (encode_value : V → list Z)
  (decode_value : list Z → result (DecodedData V)) (value_ok : V → Prop)
  (value_round_trip : ∀ v rest, value_ok v →
     decode_value (encode_value v ++ rest) = Ok (v, length (encode_value v))).

Definition entry_ok (s : Schema.t) (kv : Tuple.t * V) : Prop :=
  Tuple.ok s kv.1 ∧ Forall TupleCodecFacts.encodable (Tuple.data kv.1) ∧ value_ok kv.2.

(** The bytes an array of entries takes. *)
Definition entries_length (array : list (Tuple.t * V)) : nat :=
  foldr (λ kv n, match TupleCodec.encode kv.1 with Ok bs => length bs | _ => 0 end +
                 length (encode_value kv.2) + n)%nat 0%nat array.

Lemma entries_round_trip s array :
  Forall (entry_ok s) array →
  ∃ bs, (∀ pre, encode_entries encode_value array pre = Ok (pre ++ bs)) ∧
    length bs = entries_length array ∧
    ∀ acc rest, decode_entries decode_value (length array) s acc (bs ++ rest)
                = Ok (acc ++ array).
Proof using value_round_trip.
  induction 1 as [|[k v] array (Hk & He & Hv) _ IH].
  { exists []. split_and!; [intros; by rewrite app_nil_r|done|].
    intros. simpl. by rewrite app_nil_r. }
  destruct (TupleCodecFacts.tuple_round_trip s k Hk He) as (kb & Hkb & Hkd).
  destruct IH as (bs & Henc & Hlen & Hdec). simpl in Hv.
  exists (kb ++ encode_value v ++ bs). split_and!.
  - intros pre. cbn [encode_entries]. rewrite Hkb. cbn [mbind result_bind].
    by rewrite Henc, <- !app_assoc.
  - cbn [entries_length foldr]. unfold entries_length in Hlen. rewrite !length_app, Hlen.
    simpl. rewrite Hkb. lia.
  - intros acc rest. cbn [length decode_entries]. rewrite <- !app_assoc, Hkd.
    cbn [mbind result_bind]. rewrite slice_from_app by done. cbn [mbind result_bind].
    rewrite value_round_trip by done. cbn [mbind result_bind].
    rewrite slice_from_app by done. cbn [mbind result_bind].
    by rewrite Hdec, <- app_assoc.
Qed.

End entries.

Lemma pad_page_Ok bytes :
  (length bytes ≤ BUSTUBX_PAGE_SIZE)%nat →
  ∃ pad, pad_page bytes = Ok (bytes ++ pad) ∧ length (bytes ++ pad) = BUSTUBX_PAGE_SIZE.
Proof.
  intros H. unfold pad_page. rewrite (proj2 (Nat.leb_le _ _) H).
  exists (replicate (BUSTUBX_PAGE_SIZE - length bytes) 0). split; [done|].
  rewrite length_app, length_replicate. lia.
Qed.

Definition rid_ok (r : RecordId.t) : Prop :=
  unsigned_ok 32 (RecordId.page_id r) ∧ unsigned_ok 32 (RecordId.slot_num r).

Lemma rid_value_round_trip r rest :
  rid_ok r → RidCodec.decode (RidCodec.encode r ++ rest) = Ok (r, length (RidCodec.encode r)).
Proof. intros [H1 H2]. by rewrite TablePageFacts.rid_round_trip. Qed.

Lemma page_id_round_trip z rest :
  unsigned_ok 32 z → decode_u32 (encode_u32 z ++ rest) = Ok (z, length (encode_u32 z)).
Proof. intros H. by rewrite decode_u32_app. Qed.

(** A page whose entries are encodable and whose size counts them. *)
Definition leaf_encodable (s : Schema.t) (p : BPlusTreeLeafPage.t) : Prop :=
  BPlusTreeLeafPage.schema p = s ∧
  BPlusTreeLeafPage.page_type (BPlusTreeLeafPage.header p) = BPlusTreePageType.LeafPage ∧
  leaf_header_ok (BPlusTreeLeafPage.header p) ∧
  BPlusTreeLeafPage.current_size (BPlusTreeLeafPage.header p)
    = Z.of_nat (length (BPlusTreeLeafPage.array p)) ∧
  Forall (entry_ok rid_ok s) (BPlusTreeLeafPage.array p).

Definition internal_encodable (s : Schema.t) (p : BPlusTreeInternalPage.t) : Prop :=
  BPlusTreeInternalPage.schema p = s ∧
  BPlusTreeInternalPage.page_type (BPlusTreeInternalPage.header p) = BPlusTreePageType.InternalPage ∧
  internal_header_ok (BPlusTreeInternalPage.header p) ∧
  BPlusTreeInternalPage.current_size (BPlusTreeInternalPage.header p)
    = Z.of_nat (length (BPlusTreeInternalPage.array p)) ∧
  Forall (entry_ok (unsigned_ok 32) s) (BPlusTreeInternalPage.array p).

Definition encodable (s : Schema.t) (p : BPlusTreePage.t) : Prop :=
  match p with
  | BPlusTreePage.Leaf p => leaf_encodable s p
  | BPlusTreePage.Internal p => internal_encodable s p
  end.

(** The size of the encoding before padding. *)
Definition page_length (p : BPlusTreePage.t) : nat :=
  match p with
  | BPlusTreePage.Leaf p => 13 + entries_length RidCodec.encode (BPlusTreeLeafPage.array p)
  | BPlusTreePage.Internal p => 9 + entries_length encode_u32 (BPlusTreeInternalPage.array p)
  end.

Lemma leaf_page_type_head h rest :
  BPlusTreePageTypeCodec.decode (BPlusTreeLeafPageHeaderCodec.encode h ++ rest)
  = Ok (BPlusTreeLeafPage.page_type h, 1%nat).
Proof.
  unfold BPlusTreeLeafPageHeaderCodec.encode. rewrite <- app_assoc. apply page_type_round_trip.
Qed.

Lemma internal_page_type_head h rest :
  BPlusTreePageTypeCodec.decode (BPlusTreeInternalPageHeaderCodec.encode h ++ rest)
  = Ok (BPlusTreeInternalPage.page_type h, 1%nat).
Proof.
  unfold BPlusTreeInternalPageHeaderCodec.encode. rewrite <- app_assoc.
  apply page_type_round_trip.
Qed.

Lemma leaf_round_trip s p :
  leaf_encodable s p →
  if (page_length (BPlusTreePage.Leaf p) <=? BUSTUBX_PAGE_SIZE)%nat then
    ∃ bs, BPlusTreeLeafPageCodec.encode p = Ok bs ∧ length bs = BUSTUBX_PAGE_SIZE ∧
      BPlusTreeLeafPageCodec.decode bs s = Ok (p, BUSTUBX_PAGE_SIZE) ∧
      BPlusTreePageTypeCodec.decode bs = Ok (BPlusTreePageType.LeafPage, 1%nat)
  else BPlusTreeLeafPageCodec.encode p = Panic.
Proof.
  intros (Hs & Hty & Hh & Hsize & He).
  destruct (entries_round_trip RidCodec.encode RidCodec.decode rid_ok rid_value_round_trip s _ He)
    as (bs & Henc & Hlen & Hdec).
  unfold BPlusTreeLeafPageCodec.encode. rewrite Henc. cbn [mbind result_bind].
  assert (length (BPlusTreeLeafPageHeaderCodec.encode (BPlusTreeLeafPage.header p) ++ bs)
    = page_length (BPlusTreePage.Leaf p)) as Hl
    by (rewrite length_app, leaf_header_length, Hlen; done).
  destruct (Nat.leb_spec (page_length (BPlusTreePage.Leaf p)) BUSTUBX_PAGE_SIZE) as [Hle|Hgt].
  - destruct (pad_page_Ok (BPlusTreeLeafPageHeaderCodec.encode (BPlusTreeLeafPage.header p) ++ bs))
      as (pad & -> & Hpl); [by rewrite Hl|].
    eexists. split; [reflexivity|]. split; [done|].
    rewrite <- app_assoc in *. rewrite leaf_page_type_head, Hty. split; [|done].
    unfold BPlusTreeLeafPageCodec.decode. rewrite Hpl, Nat.eqb_refl. cbn [negb].
    rewrite leaf_page_type_head, Hty. cbn [mbind result_bind].
    rewrite leaf_header_round_trip by done. cbn [mbind result_bind].
    rewrite slice_from_app by (by rewrite leaf_header_length). cbn [mbind result_bind].
    rewrite Hsize, Nat2Z.id, Hdec. cbn [mbind result_bind app]. rewrite <- Hs. by destruct p.
  - unfold pad_page. rewrite Hl. by rewrite (proj2 (Nat.leb_gt _ _) Hgt).
Qed.

Lemma internal_round_trip s p :
  internal_encodable s p →
  if (page_length (BPlusTreePage.Internal p) <=? BUSTUBX_PAGE_SIZE)%nat then
    ∃ bs, BPlusTreeInternalPageCodec.encode p = Ok bs ∧ length bs = BUSTUBX_PAGE_SIZE ∧
      BPlusTreeInternalPageCodec.decode bs s = Ok (p, BUSTUBX_PAGE_SIZE) ∧
      BPlusTreePageTypeCodec.decode bs = Ok (BPlusTreePageType.InternalPage, 1%nat)
  else BPlusTreeInternalPageCodec.encode p = Panic.
Proof.
  intros (Hs & Hty & Hh & Hsize & He).
  destruct (entries_round_trip encode_u32 decode_u32 (unsigned_ok 32) page_id_round_trip s _ He)
    as (bs & Henc & Hlen & Hdec).
  unfold BPlusTreeInternalPageCodec.encode. rewrite Henc. cbn [mbind result_bind].
  assert (length (BPlusTreeInternalPageHeaderCodec.encode (BPlusTreeInternalPage.header p) ++ bs)
    = page_length (BPlusTreePage.Internal p)) as Hl
    by (rewrite length_app, internal_header_length, Hlen; done).
  destruct (Nat.leb_spec (page_length (BPlusTreePage.Internal p)) BUSTUBX_PAGE_SIZE) as [Hle|Hgt].
  - destruct (pad_page_Ok
      (BPlusTreeInternalPageHeaderCodec.encode (BPlusTreeInternalPage.header p) ++ bs))
      as (pad & -> & Hpl); [by rewrite Hl|].
    eexists. split; [reflexivity|]. split; [done|].
    rewrite <- app_assoc in *. rewrite internal_page_type_head, Hty. split; [|done].
    unfold BPlusTreeInternalPageCodec.decode. rewrite Hpl, Nat.eqb_refl. cbn [negb].
    rewrite internal_page_type_head, Hty. cbn [mbind result_bind].
    rewrite internal_header_round_trip by done. cbn [mbind result_bind].
    rewrite slice_from_app by (by rewrite internal_header_length). cbn [mbind result_bind].
    rewrite Hsize, Nat2Z.id, Hdec. cbn [mbind result_bind app]. rewrite <- Hs. by destruct p.
  - unfold pad_page. rewrite Hl. by rewrite (proj2 (Nat.leb_gt _ _) Hgt).
Qed.

End IndexPageCodecFacts.

(** ** Properties *)
Module IndexPageCodecSpec.
Import IndexPageCodecFacts.

(** C31: a B+ tree page round trips through its 4096 bytes. A leaf or internal page
    whose header counts its entries and whose keys and values are encodable is written
    to exactly 4096 bytes that decode to the same page, page kind included, when header
    and entries fit; when they do not, [encode] panics (its [assert!]) and never writes
    a truncated page. *)
Theorem index_page_round_trip s p :
  encodable s p →
  if (page_length p <=? BUSTUBX_PAGE_SIZE)%nat then
    ∃ bs, BPlusTreePageCodec.encode p = Ok bs ∧ length bs = BUSTUBX_PAGE_SIZE ∧
      BPlusTreePageCodec.decode bs s = Ok (p, BUSTUBX_PAGE_SIZE)
  else BPlusTreePageCodec.encode p = Panic.
Proof.
  intros H. unfold BPlusTreePageCodec.encode, BPlusTreePageCodec.decode. destruct p as [p|p].
  - pose proof (internal_round_trip s p H) as Hrt.
    destruct (_ <=? _)%nat; [|done]. destruct Hrt as (bs & He & Hl & Hd & Ht).
    exists bs. split_and!; [done..|]. rewrite Hl, Nat.eqb_refl. cbn [negb].
    rewrite Ht. cbn [mbind result_bind]. by rewrite Hd.
  - pose proof (leaf_round_trip s p H) as Hrt.
    destruct (_ <=? _)%nat; [|done]. destruct Hrt as (bs & He & Hl & Hd & Ht).
    exists bs. split_and!; [done..|]. rewrite Hl, Nat.eqb_refl. cbn [negb].
    rewrite Ht. cbn [mbind result_bind]. by rewrite Hd.
Qed.

Lemma index_page_round_trip_witness :
  ∃ bs, BPlusTreePageCodec.encode (BPlusTreePage.Leaf IndexPageSpec.demo_leaf) = Ok bs ∧
    BPlusTreePageCodec.decode bs IndexPageSpec.key_schema
      = Ok (BPlusTreePage.Leaf IndexPageSpec.demo_leaf, BUSTUBX_PAGE_SIZE).
Proof.
  assert (encodable IndexPageSpec.key_schema (BPlusTreePage.Leaf IndexPageSpec.demo_leaf)) as H.
  { split_and!; try done.
    repeat (apply Forall_cons; split;
      [split_and!; [by apply IndexPageSpec.demo_key_ok|by apply Forall_singleton|done..]|]). done. }
  pose proof (index_page_round_trip _ _ H) as Hrt.
  assert ((page_length (BPlusTreePage.Leaf IndexPageSpec.demo_leaf) <=? BUSTUBX_PAGE_SIZE)%nat
    = true) as E by (vm_compute; reflexivity).
  rewrite E in Hrt. destruct Hrt as (bs & He & _ & Hd). by exists bs.
Defined.

End IndexPageCodecSpec.
