(* ===== verification/Replacer.v ===== *)
(** * Replacer: LRU-K page replacement

    Models [bustubx/src/buffer/replacer.rs]. The [HashMap] of nodes is a [gmap]; the
    scan of [evict] goes over it in an unspecified order, which is an argument of
    [evict_order]; [evict_order_irrelevant] shows the order does not matter. *)
From S2P Require Import Prelude.
Local Open Scope Z_scope.

(** buffer_pool.rs: [pub type FrameId = usize] *)
Notation FrameId := nat (only parsing).

Definition U64_MAX : Z := 2 ^ 64 - 1.

Module LRUKNode.

Record t := Mk { k : nat; history : list Z; is_evictable : bool }.

Definition new (k : nat) : t := Mk k [] false.

Definition record_access (self : t) (timestamp : Z) : t :=
  let history' := history self ++ [timestamp] in
  Mk (k self) (if (k self <? length history')%nat then tail history' else history')
    (is_evictable self).

Definition set_evictable (self : t) (b : bool) : t := Mk (k self) (history self) b.

End LRUKNode.

Module LRUKReplacer.
Import LRUKNode.

Record t := Mk {
  current_size : nat;
  replacer_size : nat;
  k : nat;
  node_store : gmap FrameId LRUKNode.t;
  current_timestamp : Z;
}.

Definition new (num_frames k : nat) : t := Mk 0 num_frames k ∅ 0.

Definition remove (self : t) (frame_id : FrameId) : result t :=
  match node_store self !! frame_id with
  | Some node =>
      _ ← assert_true (is_evictable node);
      size ← usub (current_size self) 1;
      Ok (Mk size (replacer_size self) (k self) (base.delete frame_id (node_store self))
            (current_timestamp self))
  | None => Ok self
  end.

(** The k-distance of a node, with the checked subtractions of the code. *)
Definition k_distance (self : t) (node : LRUKNode.t) : result Z :=
  front ← unwrap (head (history node));
  if (length (history node) <? k self)%nat
  then checked 64 (U64_MAX - front)
  else checked 64 (current_timestamp self - front).

(** The loop of [evict]: the largest distance so far and its frame. *)
Definition evict_step (self : t) (acc : Z * option FrameId) (e : FrameId * LRUKNode.t) :
    result (Z * option FrameId) :=
  if negb (is_evictable e.2) then Ok acc
  else
    d ← k_distance self e.2;
    if acc.1 <? d then Ok (d, Some e.1) else Ok acc.

Definition evict_order (self : t) (order : list (FrameId * LRUKNode.t)) :
    result (t * option FrameId) :=
  '(_, found) ← foldR (evict_step self) (0, None) order;
  match found with
  | Some frame_id => self' ← remove self frame_id; Ok (self', Some frame_id)
  | None => Ok (self, None)
  end.

Definition evict (self : t) : result (t * option FrameId) :=
  evict_order self (map_to_list (node_store self)).

Definition record_access (self : t) (frame_id : FrameId) : result t :=
  match node_store self !! frame_id with
  | Some node =>
      ts ← checked 64 (current_timestamp self + 1);
      Ok (Mk (current_size self) (replacer_size self) (k self)
            (<[frame_id := LRUKNode.record_access node (current_timestamp self)]>
               (node_store self)) ts)
  | None =>
      if (replacer_size self <=? size (node_store self))%nat
      then Err (Internal "frame size exceeds the limit")
      else
        ts ← checked 64 (current_timestamp self + 1);
        Ok (Mk (current_size self) (replacer_size self) (k self)
              (<[frame_id := LRUKNode.record_access (LRUKNode.new (k self))
                               (current_timestamp self)]> (node_store self)) ts)
  end.

Definition set_evictable (self : t) (frame_id : FrameId) (b : bool) : result t :=
  match node_store self !! frame_id with
  | Some node =>
      size ←
        (if b && negb (is_evictable node) then Ok (current_size self + 1)%nat
         else if negb b && is_evictable node then usub (current_size self) 1
         else Ok (current_size self));
      Ok (Mk size (replacer_size self) (k self)
            (<[frame_id := LRUKNode.set_evictable node b]> (node_store self))
            (current_timestamp self))
  | None => Err (Internal "frame not found")
  end.

Definition size (self : t) : nat := current_size self.

End LRUKReplacer.

(** ** Facts *)
Module ReplacerFacts.
Import LRUKNode LRUKReplacer.

(** The node's history: its last accesses, oldest first. *)
Record node_ok (k : nat) (now : Z) (n : LRUKNode.t) : Prop := NodeOk {
  node_k : LRUKNode.k n = k;
  node_nonempty : history n ≠ [];
  node_short : (length (history n) ≤ k)%nat;
  node_increasing : StronglySorted Z.lt (history n);
  node_past : Forall (λ ts, 0 ≤ ts < now) (history n);
}.

Definition evictable_nodes (m : gmap FrameId LRUKNode.t) : gmap FrameId LRUKNode.t :=
  filter (λ e, is_evictable e.2 = true) m.

(** The invariant. Timestamps stay below [2^63], so that the two ranges of
    k-distance (fewer than [k] accesses, or [k]) do not overlap. *)
Record replacer_ok (r : t) : Prop := ReplacerOk {
  replacer_k : (0 < k r)%nat;
  replacer_nodes : map_Forall (λ _ n, node_ok (k r) (current_timestamp r) n) (node_store r);
  replacer_count : current_size r = base.size (evictable_nodes (node_store r));
  replacer_now : 0 ≤ current_timestamp r;
  replacer_limit : (base.size (node_store r) ≤ replacer_size r)%nat;
  replacer_disjoint : ∀ f g n m ts, node_store r !! f = Some n → node_store r !! g = Some m →
    ts ∈ history n → ts ∈ history m → f = g;
}.

Definition early (r : t) : Prop := current_timestamp r < 2 ^ 63.

Lemma new_ok num_frames k : (0 < k)%nat → replacer_ok (new num_frames k).
Proof.
  intros Hk. split; simpl; try done.
  - rewrite map_size_empty. lia.
Qed.

(** *** Counting the evictable nodes *)
Lemma evictable_insert m f n :
  evictable_nodes (<[f:=n]> m)
  = if is_evictable n then <[f:=n]> (evictable_nodes m) else base.delete f (evictable_nodes m).
Proof.
  unfold evictable_nodes. destruct (is_evictable n) eqn:He.
  - by rewrite map_filter_insert_True.
  - rewrite map_filter_insert_False by (simpl; congruence). by rewrite map_filter_delete.
Qed.

Lemma evictable_lookup m f n :
  evictable_nodes m !! f = Some n ↔ m !! f = Some n ∧ is_evictable n = true.
Proof. unfold evictable_nodes. by rewrite map_lookup_filter_Some. Qed.

Lemma evictable_size_insert m f n :
  base.size (evictable_nodes (<[f:=n]> m))
  = ((if is_evictable n then 1 else 0) +
     base.size (base.delete f (evictable_nodes m)))%nat.
Proof.
  rewrite evictable_insert. destruct (is_evictable n); [|done].
  rewrite <- insert_delete_eq, map_size_insert_None by apply lookup_delete_eq. done.
Qed.

Lemma evictable_size_delete m f :
  base.size (evictable_nodes m)
  = ((match m !! f with Some n => if is_evictable n then 1 else 0 | None => 0 end) +
     base.size (base.delete f (evictable_nodes m)))%nat.
Proof.
  destruct (evictable_nodes m !! f) as [n|] eqn:Hf.
  - rewrite map_size_delete_Some by (by exists n).
    assert (base.size (evictable_nodes m) ≠ 0%nat) as Hnz.
    { intros Hz. apply map_size_empty_inv in Hz. rewrite Hz, lookup_empty in Hf. done. }
    apply evictable_lookup in Hf as [-> ->]. lia.
  - rewrite delete_id by done. destruct (m !! f) as [n|] eqn:Hm; [|done].
    destruct (is_evictable n) eqn:He; [|done].
    assert (evictable_nodes m !! f = Some n) by (by apply evictable_lookup). congruence.
Qed.

(** *** Recording an access *)
Lemma tail_snoc_last (l : list Z) x : l ≠ [] → tail (l ++ [x]) = tail l ++ [x].
Proof. by destruct l. Qed.

Lemma record_access_history n ts :
  history (LRUKNode.record_access n ts)
  = drop (length (history n) + 1 - LRUKNode.k n) (history n ++ [ts])
  ∨ (LRUKNode.k n < length (history n))%nat.
Proof.
  unfold LRUKNode.record_access. simpl. rewrite length_app. simpl.
  destruct (Nat.ltb_spec (LRUKNode.k n) (length (history n) + 1)) as [H|H].
  - destruct (decide (LRUKNode.k n < length (history n))%nat); [by right|left].
    replace (_ - _)%nat with 1%nat by lia. by destruct (history n).
  - left. replace (_ - _)%nat with 0%nat by lia. done.
Qed.

Lemma record_access_node k now n :
  (0 < k)%nat → 0 ≤ now → LRUKNode.k n = k → (length (history n) ≤ k)%nat →
  StronglySorted Z.lt (history n) → Forall (λ ts, 0 ≤ ts < now) (history n) →
  node_ok k (now + 1) (LRUKNode.record_access n now) ∧
  (∀ ts, ts ∈ history (LRUKNode.record_access n now) → ts ∈ history n ∨ ts = now) ∧
  is_evictable (LRUKNode.record_access n now) = is_evictable n.
Proof.
  intros Hk Hnow Hnk Hlen Hinc Hpast.
  destruct (record_access_history n now) as [Hh|Hh]; [|lia]. rewrite Hnk in Hh.
  assert (∀ ts, ts ∈ history (LRUKNode.record_access n now) → ts ∈ history n ∨ ts = now) as Hin.
  { rewrite Hh. intros ts Hts.
    assert (ts ∈ history n ++ [now]) as [Hin|Hin]%elem_of_app.
    { rewrite <- (take_drop (length (history n) + 1 - k) (history n ++ [now])).
      apply elem_of_app. by right. }
    - by left.
    - right. by apply list_elem_of_singleton in Hin. }
  split_and!; [|done|done].
  assert (length (history (LRUKNode.record_access n now)) =
    Nat.min k (length (history n) + 1)) as Hl
    by (rewrite Hh, length_drop, length_app; simpl; lia).
  assert (StronglySorted Z.lt (history n ++ [now])) as Hs.
  { clear -Hinc Hpast. induction Hinc as [|x l Hs IH Hall]; simpl; [repeat constructor|].
    apply Forall_cons in Hpast as [Hx Hpast]. constructor; [by apply IH|].
    apply Forall_app. split; [done|]. constructor; [lia|done]. }
  split.
  - done.
  - intros Hnil. rewrite Hnil in Hl. simpl in Hl. lia.
  - lia.
  - rewrite Hh. clear -Hs. revert Hs. generalize (history n ++ [now]).
    generalize (length (history n) + 1 - k)%nat. intros i l. revert i.
    induction l as [|x l IH]; intros [|i] Hs; simpl; try done.
    apply IH. by apply StronglySorted_inv in Hs as [? _].
  - apply Forall_forall. intros ts [Hts| ->]%Hin; [|lia].
    rewrite Forall_forall in Hpast. specialize (Hpast _ Hts). lia.
Qed.

Lemma node_ok_mono k now now' n : now ≤ now' → node_ok k now n → node_ok k now' n.
Proof.
  intros Hle []. split; [done..|]. eapply Forall_impl; [done|]. intros ts. simpl. lia.
Qed.

(** The node a recorded access starts from. *)
Definition node_before (r : t) (f : FrameId) : LRUKNode.t :=
  default (LRUKNode.new (k r)) (node_store r !! f).

Lemma record_access_ok r f :
  replacer_ok r → early r →
  (is_Some (node_store r !! f) ∨ (base.size (node_store r) < replacer_size r)%nat) →
  ∃ r', record_access r f = Ok r' ∧ replacer_ok r' ∧
    node_store r'
      = <[f := LRUKNode.record_access (node_before r f) (current_timestamp r)]> (node_store r) ∧
    current_timestamp r' = current_timestamp r + 1 ∧ k r' = k r ∧
    replacer_size r' = replacer_size r ∧ current_size r' = current_size r.
Proof.
  intros H He Hroom. pose proof (replacer_now _ H). unfold early in He.
  set (n := node_before r f).
  assert (LRUKNode.k n = k r ∧ (length (history n) ≤ k r)%nat ∧ StronglySorted Z.lt (history n) ∧
    Forall (λ ts, 0 ≤ ts < current_timestamp r) (history n)) as (Hn1 & Hn2 & Hn3 & Hn4).
  { subst n. unfold node_before. destruct (node_store r !! f) as [n|] eqn:Hf; simpl.
    - by destruct (replacer_nodes _ H _ _ Hf).
    - split_and!; [done|lia|constructor|by constructor]. }
  destruct (record_access_node _ _ n (replacer_k _ H) (replacer_now _ H) Hn1 Hn2 Hn3 Hn4)
    as (Hok & Hin & Hev).
  exists (Mk (current_size r) (replacer_size r) (k r)
    (<[f := LRUKNode.record_access n (current_timestamp r)]> (node_store r))
    (current_timestamp r + 1)).
  split_and!; try done.
  { unfold record_access. rewrite checked_Ok by (unfold unsigned_ok; lia).
    subst n. unfold node_before. destruct (node_store r !! f) as [n|] eqn:Hf; [done|].
    destruct Hroom as [[? Hx]|Hroom]; [done|].
    by rewrite (proj2 (Nat.leb_gt _ _) Hroom). }
  split; simpl.
  - apply H.
  - intros g m. destruct (decide (f = g)) as [<-|Hne].
    + rewrite lookup_insert_eq. by intros [= <-].
    + rewrite lookup_insert_ne by done. intros Hg. apply (node_ok_mono _ (current_timestamp r)); [lia|].
      by apply (replacer_nodes _ H g).
  - rewrite (replacer_count _ H), evictable_size_insert, Hev, (evictable_size_delete _ f).
    f_equal. subst n. unfold node_before. by destruct (node_store r !! f).
  - lia.
  - destruct (node_store r !! f) as [m|] eqn:Hf.
    + rewrite map_size_insert_Some by (by exists m). apply H.
    + rewrite map_size_insert_None by done. destruct Hroom as [[? Hx]|Hroom]; [done|lia].
  - assert (∀ g m ts, node_store r !! g = Some m → f ≠ g → ts ∈ history m →
      ts ∈ history (LRUKNode.record_access n (current_timestamp r)) → False) as Hdis.
    { intros g m ts Hg Hne Hm [Hts| ->]%Hin.
      - subst n. unfold node_before in Hts. destruct (node_store r !! f) as [n|] eqn:Hf; simpl in Hts.
        + apply Hne. by eapply (replacer_disjoint _ H f g).
        + by apply not_elem_of_nil in Hts.
      - pose proof (node_past _ _ _ (replacer_nodes _ H _ _ Hg)) as Hp.
        rewrite Forall_forall in Hp. specialize (Hp _ Hm). lia. }
    intros f1 f2 n1 n2 ts. destruct (decide (f = f1)) as [<-|H1], (decide (f = f2)) as [<-|H2];
      rewrite ?lookup_insert_eq, ?lookup_insert_ne by done; intros Hn Hm Ht1 Ht2;
      simplify_eq; try done.
    + exfalso. by eapply (Hdis f2).
    + exfalso. by eapply (Hdis f1).
    + by eapply (replacer_disjoint _ H f1 f2).
Qed.

(** *** Marking frames and removing them *)
Lemma set_evictable_ok r f n b :
  replacer_ok r → node_store r !! f = Some n →
  ∃ r', set_evictable r f b = Ok r' ∧ replacer_ok r' ∧
    node_store r' = <[f := LRUKNode.set_evictable n b]> (node_store r) ∧
    current_timestamp r' = current_timestamp r ∧ k r' = k r ∧
    replacer_size r' = replacer_size r.
Proof.
  intros H Hf. pose proof (evictable_size_delete (node_store r) f) as Hd. rewrite Hf in Hd.
  rewrite <- (replacer_count _ H) in Hd.
  pose proof (evictable_size_insert (node_store r) f (LRUKNode.set_evictable n b)) as Hi.
  simpl in Hi.
  exists (Mk (base.size (evictable_nodes (<[f := LRUKNode.set_evictable n b]> (node_store r))))
    (replacer_size r) (k r) (<[f := LRUKNode.set_evictable n b]> (node_store r))
    (current_timestamp r)).
  split_and!; try done.
  { unfold set_evictable. rewrite Hf, Hi.
    destruct b, (is_evictable n) eqn:He; cbn [andb negb mbind result_bind];
      rewrite ?usub_Ok by lia; cbn [mbind result_bind]; do 2 f_equal; lia. }
  split; simpl; try apply H; try done.
  - intros g m. destruct (decide (f = g)) as [<-|Hne].
    + rewrite lookup_insert_eq. intros [= <-]. by destruct (replacer_nodes _ H _ _ Hf).
    + rewrite lookup_insert_ne by done. apply (replacer_nodes _ H g).
  - rewrite map_size_insert_Some by (by exists n). apply H.
  - assert (∀ g m, <[f := LRUKNode.set_evictable n b]> (node_store r) !! g = Some m →
      ∃ m', node_store r !! g = Some m' ∧ history m' = history m) as Hh.
    { intros g m. destruct (decide (f = g)) as [<-|Hne].
      - rewrite lookup_insert_eq. intros [= <-]. by exists n.
      - rewrite lookup_insert_ne by done. by exists m. }
    intros f1 f2 n1 n2 ts (m1 & H1 & <-)%Hh (m2 & H2 & <-)%Hh.
    by eapply (replacer_disjoint _ H).
Qed.

Lemma remove_ok r f n :
  replacer_ok r → node_store r !! f = Some n → is_evictable n = true →
  ∃ r', remove r f = Ok r' ∧ replacer_ok r' ∧
    node_store r' = base.delete f (node_store r) ∧ k r' = k r ∧
    current_timestamp r' = current_timestamp r ∧ replacer_size r' = replacer_size r ∧
    current_size r = S (current_size r').
Proof.
  intros H Hf He. pose proof (evictable_size_delete (node_store r) f) as Hd.
  rewrite Hf, He, <- (replacer_count _ H) in Hd.
  assert (evictable_nodes (base.delete f (node_store r))
    = base.delete f (evictable_nodes (node_store r))) as Hed
    by (unfold evictable_nodes; by rewrite map_filter_delete).
  eexists. split; [unfold remove; rewrite Hf, He; cbn [assert_true mbind result_bind];
    rewrite usub_Ok by lia; reflexivity|].
  split_and!; simpl; try done; [|lia].
  split; simpl; try apply H.
  - intros g m [_ Hg]%lookup_delete_Some. by apply (replacer_nodes _ H g).
  - rewrite Hed. lia.
  - rewrite map_size_delete_Some by (by exists n). pose proof (replacer_limit _ H). lia.
  - intros f1 f2 n1 n2 ts [_ H1]%lookup_delete_Some [_ H2]%lookup_delete_Some.
    by eapply (replacer_disjoint _ H).
Qed.

(** *** The victim *)
Definition front (n : LRUKNode.t) : Z := default 0 (head (history n)).
Definition few (r : t) (n : LRUKNode.t) : Prop := (length (history n) < k r)%nat.

(** [n] goes before [m]: with fewer than [k] accesses against [k], and otherwise by
    the age of the oldest access kept, which is the [k]-th last one when there are
    [k]. *)
Definition preferred (r : t) (n m : LRUKNode.t) : Prop :=
  (few r n ∧ ¬ few r m) ∨ ((few r n ↔ few r m) ∧ front n < front m).

Definition dist (r : t) (n : LRUKNode.t) : Z :=
  if (length (history n) <? k r)%nat then U64_MAX - front n else current_timestamp r - front n.

Lemma front_in n : history n ≠ [] → head (history n) = Some (front n) ∧ front n ∈ history n.
Proof. unfold front. destruct (history n) as [|x l]; [done|]. intros _. split; [done|by left]. Qed.

Lemma front_range r n :
  node_ok (k r) (current_timestamp r) n → 0 ≤ front n < current_timestamp r.
Proof.
  intros H. destruct (front_in n (node_nonempty _ _ _ H)) as [_ Hin].
  pose proof (node_past _ _ _ H) as Hp. rewrite Forall_forall in Hp. by apply Hp.
Qed.

Lemma k_distance_ok r n :
  node_ok (k r) (current_timestamp r) n → early r →
  k_distance r n = Ok (dist r n) ∧ 0 < dist r n.
Proof.
  intros H He. pose proof (front_range _ _ H) as Hf. unfold early in He.
  destruct (front_in n (node_nonempty _ _ _ H)) as [Hh _].
  unfold k_distance, dist. rewrite Hh. cbn [unwrap mbind result_bind].
  unfold U64_MAX in *.
  destruct (_ <? _)%nat; rewrite checked_Ok by (unfold unsigned_ok; lia); split; done || lia.
Qed.

Lemma dist_preferred r n m :
  node_ok (k r) (current_timestamp r) n → node_ok (k r) (current_timestamp r) m → early r →
  front n ≠ front m → dist r m ≤ dist r n → preferred r n m.
Proof.
  intros Hn Hm He Hne Hd. pose proof (front_range _ _ Hn). pose proof (front_range _ _ Hm).
  unfold early in He. unfold dist, U64_MAX in Hd. unfold preferred, few.
  destruct (Nat.ltb_spec (length (history n)) (k r)), (Nat.ltb_spec (length (history m)) (k r));
    [right; split; lia|left; lia|lia|right; split; lia].
Qed.

(** The best evictable node of a list so far. *)
Definition best (r : t) (l : list (FrameId * LRUKNode.t)) (acc : Z * option FrameId) : Prop :=
  match acc.2 with
  | None => acc.1 = 0 ∧ ∀ e, e ∈ l → is_evictable e.2 = false
  | Some f => ∃ n, (f, n) ∈ l ∧ is_evictable n = true ∧ acc.1 = dist r n ∧
      ∀ e, e ∈ l → is_evictable e.2 = true → dist r e.2 ≤ dist r n
  end.

Lemma evict_scan r l done_ acc :
  early r → Forall (λ e, node_ok (k r) (current_timestamp r) e.2) l → best r done_ acc →
  ∃ acc', foldR (evict_step r) acc l = Ok acc' ∧ best r (done_ ++ l) acc'.
Proof.
  intros He. revert done_ acc. induction l as [|[g m] l IH]; intros done_ acc Hok Hb.
  { exists acc. by rewrite app_nil_r. }
  apply Forall_cons in Hok as [Hm Hok]. simpl in Hm.
  destruct (k_distance_ok r m Hm He) as [Hd Hpos].
  assert (∃ acc', evict_step r acc (g, m) = Ok acc' ∧ best r (done_ ++ [(g, m)]) acc')
    as (acc' & Hs & Hb').
  { unfold evict_step. simpl. destruct (is_evictable m) eqn:Hev; cbn [negb].
    - rewrite Hd. cbn [mbind result_bind]. destruct acc as [d o]. unfold best in *. simpl in *.
      destruct (Z.ltb_spec d (dist r m)) as [Hlt|Hge]; eexists; (split; [reflexivity|]); simpl.
      + exists m. split_and!; [apply elem_of_app; right; by left|done|done|].
        intros e [Hin|Hin]%elem_of_app Hee.
        * destruct o as [f|].
          -- destruct Hb as (n & _ & _ & -> & Hmax). specialize (Hmax _ Hin Hee). lia.
          -- destruct Hb as [_ Hnone]. rewrite Hnone in Hee; done.
        * apply list_elem_of_singleton in Hin as ->. done.
      + destruct o as [f|]; [|lia]. destruct Hb as (n & Hin & Hn & -> & Hmax).
        exists n. split_and!; [apply elem_of_app; by left|done|done|].
        intros e [He'|He']%elem_of_app Hee; [by apply Hmax|].
        apply list_elem_of_singleton in He' as ->. done.
    - exists acc. split; [done|]. unfold best in *. destruct acc as [d [f|]]; simpl in *.
      + destruct Hb as (n & Hin & Hn & -> & Hmax).
        exists n. split_and!; [apply elem_of_app; by left|done|done|].
        intros e [He'|He']%elem_of_app Hee; [by apply Hmax|].
        apply list_elem_of_singleton in He' as ->. simpl in Hee. congruence.
      + destruct Hb as [-> Hnone]. split; [done|].
        intros e [He'|He']%elem_of_app; [by apply Hnone|].
        by apply list_elem_of_singleton in He' as ->. }
  destruct (IH _ _ Hok Hb') as (acc'' & Hf & Hb''). exists acc''. cbn [foldR]. rewrite Hs.
  cbn [mbind result_bind]. rewrite <- app_assoc in Hb''. done.
Qed.

(** [f] is the frame LRU-K replaces. *)
Definition victim (r : t) (f : FrameId) : Prop :=
  ∃ n, node_store r !! f = Some n ∧ is_evictable n = true ∧
    ∀ g m, node_store r !! g = Some m → is_evictable m = true → g ≠ f → preferred r n m.

Lemma victim_unique r f g : victim r f → victim r g → f = g.
Proof.
  intros (n & Hf & Hn & Hmin) (m & Hg & Hm & Hmin'). destruct (decide (g = f)) as [|Hne]; [done|].
  specialize (Hmin g m Hg Hm Hne). specialize (Hmin' f n Hf Hn ltac:(congruence)).
  unfold preferred in *. destruct Hmin as [[]|[? ?]], Hmin' as [[]|[? ?]]; (tauto || lia).
Qed.

Lemma evict_order_spec r order :
  replacer_ok r → early r → order ≡ₚ map_to_list (node_store r) →
  (∃ r' f, evict_order r order = Ok (r', Some f) ∧ victim r f ∧ replacer_ok r' ∧
     node_store r' = base.delete f (node_store r) ∧
     current_timestamp r' = current_timestamp r ∧ k r' = k r ∧
     replacer_size r' = replacer_size r ∧ current_size r = S (current_size r')) ∨
  (evict_order r order = Ok (r, None) ∧
   ∀ f n, node_store r !! f = Some n → is_evictable n = false).
Proof.
  intros H He Hp.
  assert (∀ f n, (f, n) ∈ order ↔ node_store r !! f = Some n) as Hin.
  { intros f n. by rewrite Hp, elem_of_map_to_list. }
  assert (Forall (λ e, node_ok (k r) (current_timestamp r) e.2) order) as Hok.
  { apply Forall_forall. intros [f n] Hf%Hin. by apply (replacer_nodes _ H f). }
  destruct (evict_scan r order [] (0, None) He Hok) as ([d o] & Hscan & Hb).
  { split; [done|]. intros e Hn. by apply not_elem_of_nil in Hn. }
  unfold evict_order. rewrite Hscan. cbn [mbind result_bind]. unfold best in Hb. simpl in Hb.
  destruct o as [f|].
  - left. destruct Hb as (n & Hf%Hin & Hn & _ & Hmax).
    destruct (remove_ok r f n H Hf Hn) as (r' & -> & Hok' & Hs & Hk & Ht & Hl & Hc).
    cbn [mbind result_bind]. exists r', f. split_and!; try done.
    exists n. split_and!; [done..|]. intros g m Hg Hm Hne.
    pose proof (replacer_nodes _ H _ _ Hf) as Hnok. pose proof (replacer_nodes _ H _ _ Hg) as Hmok.
    apply dist_preferred; [done..| |].
    + intros Hfr. apply Hne.
      eapply (replacer_disjoint _ H g f m n (front n)); [done..| |].
      * rewrite Hfr. apply front_in, (node_nonempty _ _ _ Hmok).
      * apply front_in, (node_nonempty _ _ _ Hnok).
    + apply (Hmax (g, m)); [by apply Hin|done].
  - right. split; [done|]. destruct Hb as [_ Hnone]. intros f n Hf. by apply (Hnone (f, n)), Hin.
Qed.

(** The order in which the map is scanned does not matter. *)
Lemma evict_order_irrelevant r order :
  replacer_ok r → early r → order ≡ₚ map_to_list (node_store r) → evict_order r order = evict r.
Proof.
  intros H He Hp. unfold evict.
  destruct (evict_order_spec r order H He Hp) as
    [(r1 & f1 & E1 & V1 & _)|[E1 N1]],
    (evict_order_spec r (map_to_list (node_store r)) H He ltac:(done)) as
    [(r2 & f2 & E2 & V2 & _)|[E2 N2]].
  - rewrite E1, E2. pose proof (victim_unique _ _ _ V1 V2) as ->.
    unfold evict_order in E1, E2.
    destruct (foldR _ _ order) as [[d1 o1]| |], (foldR _ _ (map_to_list _)) as [[d2 o2]| |]; try done.
    cbn [mbind result_bind] in E1, E2. destruct o1 as [g1|], o2 as [g2|]; try done.
    destruct (remove r g1) as [q1| |] eqn:R1, (remove r g2) as [q2| |] eqn:R2; try done.
    injection E1 as -> ->. injection E2 as -> ->. congruence.
  - destruct V1 as (n & Hf & Hn & _). rewrite (N2 _ _ Hf) in Hn. done.
  - destruct V2 as (n & Hf & Hn & _). rewrite (N1 _ _ Hf) in Hn. done.
  - by rewrite E1, E2.
Qed.

End ReplacerFacts.

(** ** Reachable replacers *)
Module ReplacerRun.
Import LRUKNode LRUKReplacer ReplacerFacts.

(** A replacer built by [new] and changed by its methods; a failed call leaves it
    unchanged. *)
Inductive reachable (num_frames k : nat) : t → Prop :=
  | reach_new : reachable num_frames k (new num_frames k)
  | reach_access r f r' :
      reachable num_frames k r → early r → record_access r f = Ok r' → reachable num_frames k r'
  | reach_set r f b r' :
      reachable num_frames k r → set_evictable r f b = Ok r' → reachable num_frames k r'
  | reach_remove r f r' :
      reachable num_frames k r → remove r f = Ok r' → reachable num_frames k r'
  | reach_evict r r' o :
      reachable num_frames k r → early r → evict r = Ok (r', o) → reachable num_frames k r'.

Lemma reachable_ok num_frames k r : (0 < k)%nat → reachable num_frames k r → replacer_ok r.
Proof.
  intros Hk. induction 1 as [|r f r' _ IH He Ha|r f b r' _ IH Ha|r f r' _ IH Ha|r r' o _ IH He Ha].
  - by apply new_ok.
  - destruct (record_access_ok r f IH He) as (r'' & Ha' & Hok & _); [|congruence].
    unfold record_access in Ha. destruct (node_store r !! f); [left; by eexists|right].
    destruct (Nat.leb_spec (replacer_size r) (base.size (node_store r))); [done|lia].
  - destruct (node_store r !! f) as [n|] eqn:Hf.
    + destruct (set_evictable_ok r f n b IH Hf) as (r'' & Ha' & Hok & _). congruence.
    + unfold set_evictable in Ha. by rewrite Hf in Ha.
  - unfold remove in Ha. destruct (node_store r !! f) as [n|] eqn:Hf; [|congruence].
    destruct (is_evictable n) eqn:Hn; [|done].
    destruct (remove_ok r f n IH Hf Hn) as (r'' & Ha' & Hok & _).
    unfold remove in Ha'. rewrite Hf, Hn in Ha'. congruence.
  - destruct (evict_order_spec r (map_to_list (node_store r)) IH He ltac:(done)) as
      [(r'' & f & E & _ & Hok & _)|[E _]]; unfold evict in Ha; rewrite E in Ha; congruence.
Qed.

End ReplacerRun.

(** ** Properties *)
Module ReplacerSpec.
Import LRUKNode LRUKReplacer ReplacerFacts ReplacerRun.

(** C28: [evict] implements LRU-K. For every replacer reached from [new] by
    [record_access], [set_evictable], [remove] and [evict], before timestamp [2^63],
    and whatever order the hash map is scanned in: if some frame is evictable, the
    result is the one evictable frame LRU-K prefers, a frame with fewer than [k]
    recorded accesses before one with [k], and among equals the one whose oldest kept
    access is oldest; that frame is forgotten, every other frame is kept and [size]
    drops by one. Otherwise nothing is evicted and [size] is 0. No step panics. *)
Theorem evict_lru_k num_frames k r order :
  (0 < k)%nat → reachable num_frames k r → early r → order ≡ₚ map_to_list (node_store r) →
  (∃ r' f, evict_order r order = Ok (r', Some f) ∧ victim r f ∧
     node_store r' = base.delete f (node_store r) ∧ size r = S (size r')) ∨
  (evict_order r order = Ok (r, None) ∧ size r = 0%nat).
Proof.
  intros Hk H%reachable_ok He Hp; [|done]. destruct (evict_order_spec r order H He Hp) as
    [(r' & f & E & V & _ & Hs & _ & _ & _ & Hc)|[E Hnone]].
  - left. by exists r', f.
  - right. split; [done|]. unfold size. rewrite (replacer_count _ H).
    apply map_size_empty_iff, map_empty. intros f.
    destruct (evictable_nodes (node_store r) !! f) as [n|] eqn:Hf; [|done].
    apply evictable_lookup in Hf as [Hf Hn]. by rewrite (Hnone _ _ Hf) in Hn.
Qed.

(** Frames 1 and 2 accessed 1, 2, 2, 1 with k = 2, then both made evictable. *)
Definition demo_run : result LRUKReplacer.t :=
  r ← foldR record_access (new 2 2) [1; 2; 2; 1]%nat;
  foldR (λ r f, set_evictable r f true) r [1; 2]%nat.

Lemma demo_access_reachable fs r r' :
  reachable 2 2 r → current_timestamp r + Z.of_nat (length fs) < 2 ^ 63 →
  foldR record_access r fs = Ok r' → reachable 2 2 r'.
Proof.
  revert r. induction fs as [|f fs IH]; intros r Hr Ht; simpl; [by intros [= <-]|].
  intros (r1 & Ha & Hf)%bind_Ok_inv. simpl in Ht.
  assert (early r) as He by (unfold early; lia).
  apply (IH r1); [by eapply reach_access| |done].
  assert (current_timestamp r1 = current_timestamp r + 1) as ->; [|lia].
  unfold record_access in Ha.
  destruct (node_store r !! f); [|destruct (_ <=? _)%nat; [done|]];
    apply bind_Ok_inv in Ha as (ts & [-> _]%checked_Ok_inv & [= <-]); done.
Qed.

Lemma demo_set_reachable fs r r' :
  reachable 2 2 r → foldR (λ r f, set_evictable r f true) r fs = Ok r' → reachable 2 2 r'.
Proof.
  revert r. induction fs as [|f fs IH]; intros r Hr; simpl; [by intros [= <-]|].
  intros (r1 & Ha & Hf)%bind_Ok_inv. apply (IH r1); [by eapply reach_set|done].
Qed.

Lemma evict_lru_k_witness :
  ∃ r r', demo_run = Ok r ∧ evict r = Ok (r', Some 1%nat) ∧ victim r 1%nat.
Proof.
  destruct demo_run as [r| |] eqn:Hrun; [|vm_compute in Hrun; done..].
  assert (reachable 2 2 r) as Hr.
  { unfold demo_run in Hrun. apply bind_Ok_inv in Hrun as (r1 & H1 & H2).
    eapply demo_set_reachable; [|exact H2].
    eapply (demo_access_reachable [1; 2; 2; 1]%nat); [apply reach_new|vm_compute; done|exact H1]. }
  destruct (evict_lru_k 2 2 r (map_to_list (node_store r))) as [(r' & f & E & V & _)|[E _]];
    [lia|done| |done| |].
  - vm_compute in Hrun. injection Hrun as <-. vm_compute. done.
  - exists r, r'. fold (evict r) in E. split; [done|].
    assert (f = 1%nat) as ->; [|done].
    vm_compute in Hrun. injection Hrun as <-. vm_compute in E. by injection E.
  - exfalso. vm_compute in Hrun. injection Hrun as <-. vm_compute in E. done.
Defined.

End ReplacerSpec.
