(* ===== verification/DiskPages.v ===== *)
(** * DiskPages: the meta page and the free list pages

    Models [bustubx/src/storage/page/{meta_page,freelist_page}.rs] and
    [bustubx/src/storage/codec/{meta_page,freelist_page}.rs]. *)
From S2P Require Import Prelude CommonCodec TablePage.
Local Open Scope Z_scope.

Module MetaPage.

Record t := Mk {
  major_version : Z;
  minor_version : Z;
  freelist_page_id : Z;
  information_schema_schemas_first_page_id : Z;
  information_schema_tables_first_page_id : Z;
  information_schema_columns_first_page_id : Z;
  information_schema_indexes_first_page_id : Z;
}.

(** [try_new]: the version numbers are those of the build environment. *)
Definition try_new (major_version minor_version : Z) : t :=
  Mk major_version minor_version INVALID_PAGE_ID INVALID_PAGE_ID INVALID_PAGE_ID
    INVALID_PAGE_ID INVALID_PAGE_ID.

End MetaPage.

Definition EMPTY_META_PAGE : MetaPage.t := MetaPage.Mk 0 0 0 0 0 0 0.

Module MetaPageCodec.
Import MetaPage.

Definition encode (page : MetaPage.t) : list Z :=
  encode_u32 (major_version page) ++
  encode_u32 (minor_version page) ++
  encode_u32 (freelist_page_id page) ++
  encode_u32 (information_schema_schemas_first_page_id page) ++
  encode_u32 (information_schema_tables_first_page_id page) ++
  encode_u32 (information_schema_columns_first_page_id page) ++
  encode_u32 (information_schema_indexes_first_page_id page).

Definition decode (bytes : list Z) : result (DecodedData MetaPage.t) :=
  '(major_version, offset) ← decode_u32 bytes;
  left_bytes ← slice_from bytes offset;
  '(minor_version, offset) ← decode_u32 left_bytes;
  left_bytes ← slice_from left_bytes offset;
  '(freelist_page_id, offset) ← decode_u32 left_bytes;
  left_bytes ← slice_from left_bytes offset;
  '(schemas, offset) ← decode_u32 left_bytes;
  left_bytes ← slice_from left_bytes offset;
  '(tables, offset) ← decode_u32 left_bytes;
  left_bytes ← slice_from left_bytes offset;
  '(columns, offset) ← decode_u32 left_bytes;
  left_bytes ← slice_from left_bytes offset;
  '(indexes, offset) ← decode_u32 left_bytes;
  left_bytes ← slice_from left_bytes offset;
  consumed ← usub (length bytes) (length left_bytes);
  Ok (Mk major_version minor_version freelist_page_id schemas tables columns indexes, consumed).

End MetaPageCodec.

Definition META_PAGE_SIZE : nat := length (MetaPageCodec.encode EMPTY_META_PAGE).

Module FreelistPageHeader.
Record t := Mk { next_page_id : Z; current_size : Z; max_size : Z }.
End FreelistPageHeader.

Definition EMPTY_FREELIST_PAGE_HEADER : FreelistPageHeader.t := FreelistPageHeader.Mk 0 0 0.

Module FreelistPageHeaderCodec.
Import FreelistPageHeader.

Definition encode (header : FreelistPageHeader.t) : list Z :=
  encode_u32 (next_page_id header) ++
  encode_u32 (current_size header) ++
  encode_u32 (max_size header).

Definition decode (bytes : list Z) : result (DecodedData FreelistPageHeader.t) :=
  '(next_page_id, offset) ← decode_u32 bytes;
  left_bytes ← slice_from bytes offset;
  '(current_size, offset) ← decode_u32 left_bytes;
  left_bytes ← slice_from left_bytes offset;
  '(max_size, offset) ← decode_u32 left_bytes;
  left_bytes ← slice_from left_bytes offset;
  consumed ← usub (length bytes) (length left_bytes);
  Ok (Mk next_page_id current_size max_size, consumed).

End FreelistPageHeaderCodec.

Definition FREELIST_PAGE_MAX_SIZE : Z :=
  Z.of_nat (BUSTUBX_PAGE_SIZE - length (FreelistPageHeaderCodec.encode EMPTY_FREELIST_PAGE_HEADER))
  / Z.of_nat (length (encode_u32 INVALID_PAGE_ID)).

Module FreelistPage.
Import FreelistPageHeader.

Record t := Mk { header : FreelistPageHeader.t; array : list Z }.

Definition new : t :=
  Mk (FreelistPageHeader.Mk INVALID_PAGE_ID 0 (wrap 32 FREELIST_PAGE_MAX_SIZE)) [].

Definition is_full (self : t) : bool := max_size (header self) <=? current_size (header self).

Definition push (self : t) (page_id : Z) : result t :=
  size ← checked 32 (current_size (header self) + 1);
  Ok (Mk (FreelistPageHeader.Mk (next_page_id (header self)) size (max_size (header self)))
        (array self ++ [page_id])).

(** [pop]: [Vec::pop] takes the last element. *)
Definition pop (self : t) : result (t * option Z) :=
  match last (array self) with
  | Some page_id =>
      size ← checked 32 (current_size (header self) - 1);
      Ok (Mk (FreelistPageHeader.Mk (next_page_id (header self)) size (max_size (header self)))
            (take (length (array self) - 1) (array self)), Some page_id)
  | None => Ok (self, None)
  end.

Definition with_next (self : t) (next : Z) : t :=
  Mk (FreelistPageHeader.Mk next (current_size (header self)) (max_size (header self)))
    (array self).

End FreelistPage.

Module FreelistPageCodec.
Import FreelistPageHeader FreelistPage.

(** [for i in 0..current_size], from [i], [n] rounds left. *)
Fixpoint encode_ids (array : list Z) (i n : nat) : result (list Z) :=
  match n with
  | O => Ok []
  | S n' => page_id ← index array i; r ← encode_ids array (S i) n'; Ok (encode_u32 page_id ++ r)
  end.

Definition encode (page : FreelistPage.t) : result (list Z) :=
  ids ← encode_ids (array page) 0 (Z.to_nat (current_size (header page)));
  let bytes := FreelistPageHeaderCodec.encode (header page) ++ ids in
  _ ← assert_true (length bytes <=? BUSTUBX_PAGE_SIZE)%nat;
  Ok (bytes ++ replicate (BUSTUBX_PAGE_SIZE - length bytes) 0).

Fixpoint decode_ids (n : nat) (array left_bytes : list Z) : result (list Z) :=
  match n with
  | O => Ok array
  | S n' =>
      '(page_id, offset) ← decode_u32 left_bytes;
      left_bytes ← slice_from left_bytes offset;
      decode_ids n' (array ++ [page_id]) left_bytes
  end.

Definition decode (bytes : list Z) : result (DecodedData FreelistPage.t) :=
  '(header, offset) ← FreelistPageHeaderCodec.decode bytes;
  left_bytes ← slice_from bytes offset;
  array ← decode_ids (Z.to_nat (current_size header)) [] left_bytes;
  Ok (FreelistPage.Mk header array, BUSTUBX_PAGE_SIZE).

End FreelistPageCodec.

(** ** Facts *)
Module DiskPagesFacts.
Import FreelistPageHeader FreelistPage.

Definition meta_ok (m : MetaPage.t) : Prop :=
  unsigned_ok 32 (MetaPage.major_version m) ∧ unsigned_ok 32 (MetaPage.minor_version m) ∧
  unsigned_ok 32 (MetaPage.freelist_page_id m) ∧
  unsigned_ok 32 (MetaPage.information_schema_schemas_first_page_id m) ∧
  unsigned_ok 32 (MetaPage.information_schema_tables_first_page_id m) ∧
  unsigned_ok 32 (MetaPage.information_schema_columns_first_page_id m) ∧
  unsigned_ok 32 (MetaPage.information_schema_indexes_first_page_id m).

Lemma meta_length m : length (MetaPageCodec.encode m) = 28%nat.
Proof. unfold MetaPageCodec.encode. by autorewrite with codec_length. Qed.

Lemma META_PAGE_SIZE_eq : META_PAGE_SIZE = 28%nat.
Proof. apply meta_length. Qed.

Lemma meta_round_trip m rest :
  meta_ok m → MetaPageCodec.decode (MetaPageCodec.encode m ++ rest) = Ok (m, 28%nat).
Proof.
  destruct m as [m1 m2 m3 m4 m5 m6 m7]. intros (H1 & H2 & H3 & H4 & H5 & H6 & H7).
  simpl in H1, H2, H3, H4, H5, H6, H7.
  unfold MetaPageCodec.decode, MetaPageCodec.encode.
  cbn [MetaPage.major_version MetaPage.minor_version MetaPage.freelist_page_id
    MetaPage.information_schema_schemas_first_page_id
    MetaPage.information_schema_tables_first_page_id
    MetaPage.information_schema_columns_first_page_id
    MetaPage.information_schema_indexes_first_page_id].
  rewrite <- !app_assoc. decode_steps. decode_consumed.
Qed.

(** 1021 page ids fit in a free list page. *)
Lemma FREELIST_PAGE_MAX_SIZE_eq : FREELIST_PAGE_MAX_SIZE = 1021.
Proof. vm_compute. reflexivity. Qed.

(** The free list page with link [next] and ids [ids]. *)
Definition flp (next : Z) (ids : list Z) : FreelistPage.t :=
  Mk (FreelistPageHeader.Mk next (Z.of_nat (length ids)) FREELIST_PAGE_MAX_SIZE) ids.

Definition flp_ok (next : Z) (ids : list Z) : Prop :=
  unsigned_ok 32 next ∧ Forall (unsigned_ok 32) ids ∧
  Z.of_nat (length ids) ≤ FREELIST_PAGE_MAX_SIZE.

Lemma new_flp : FreelistPage.new = flp 0 [].
Proof.
  unfold FreelistPage.new, flp. rewrite wrap_small; [done|].
  rewrite FREELIST_PAGE_MAX_SIZE_eq. done.
Qed.

Lemma flp_full next ids :
  is_full (flp next ids) = (FREELIST_PAGE_MAX_SIZE <=? Z.of_nat (length ids)).
Proof. done. Qed.

Lemma flp_push next ids x :
  flp_ok next ids → is_full (flp next ids) = false → push (flp next ids) x = Ok (flp next (ids ++ [x])).
Proof.
  intros (_ & _ & Hl) Hf. unfold push, flp. rewrite FREELIST_PAGE_MAX_SIZE_eq in Hl.
  cbn [header array current_size next_page_id max_size].
  rewrite checked_Ok by (unfold unsigned_ok; lia). cbn [mbind result_bind].
  rewrite length_app. simpl length. do 3 f_equal. lia.
Qed.

Lemma flp_pop_nil next : pop (flp next []) = Ok (flp next [], None).
Proof. done. Qed.

Lemma flp_pop_snoc next ids x :
  flp_ok next (ids ++ [x]) → pop (flp next (ids ++ [x])) = Ok (flp next ids, Some x).
Proof.
  intros (_ & _ & Hl). rewrite FREELIST_PAGE_MAX_SIZE_eq, length_app in Hl. simpl in Hl.
  unfold pop, flp. cbn [header array current_size next_page_id max_size].
  rewrite last_snoc, length_app. simpl length.
  rewrite checked_Ok by (unfold unsigned_ok; lia). cbn [mbind result_bind].
  replace (length ids + 1 - 1)%nat with (length ids) by lia.
  rewrite take_app_length. do 4 f_equal. lia.
Qed.

Lemma encode_ids_spec pre ids :
  FreelistPageCodec.encode_ids (pre ++ ids) (length pre) (length ids)
  = Ok (flat_map encode_u32 ids).
Proof.
  revert pre. induction ids as [|x ids IH]; intros pre; [done|].
  cbn [length FreelistPageCodec.encode_ids].
  rewrite (index_Ok _ _ x) by (by rewrite list_lookup_middle). cbn [mbind result_bind].
  replace (S (length pre)) with (length (pre ++ [x])) by (rewrite length_app; simpl; lia).
  replace (pre ++ x :: ids) with ((pre ++ [x]) ++ ids) by (by rewrite <- app_assoc).
  by rewrite IH.
Qed.

Lemma decode_ids_spec ids acc rest :
  Forall (unsigned_ok 32) ids →
  FreelistPageCodec.decode_ids (length ids) acc (flat_map encode_u32 ids ++ rest)
  = Ok (acc ++ ids).
Proof.
  intros H. revert acc. induction H as [|x ids Hx _ IH]; intros acc.
  { simpl. by rewrite app_nil_r. }
  cbn [flat_map length FreelistPageCodec.decode_ids]. rewrite <- app_assoc, decode_u32_app by done.
  cbn [mbind result_bind]. rewrite slice_from_app by done. cbn [mbind result_bind].
  by rewrite IH, <- app_assoc.
Qed.

Lemma ids_length ids : length (flat_map encode_u32 ids) = (4 * length ids)%nat.
Proof.
  induction ids as [|x ids IH]; [done|]. cbn [flat_map length].
  rewrite length_app, IH, encode_u32_length. lia.
Qed.

Lemma freelist_header_round_trip h rest :
  unsigned_ok 32 (next_page_id h) → unsigned_ok 32 (current_size h) →
  unsigned_ok 32 (max_size h) →
  FreelistPageHeaderCodec.decode (FreelistPageHeaderCodec.encode h ++ rest) = Ok (h, 12%nat).
Proof.
  destruct h as [n c m]. intros H1 H2 H3; simpl in H1, H2, H3.
  unfold FreelistPageHeaderCodec.decode, FreelistPageHeaderCodec.encode.
  cbn [next_page_id current_size max_size].
  rewrite <- !app_assoc. decode_steps. decode_consumed.
Qed.

Lemma flp_round_trip next ids :
  flp_ok next ids →
  ∃ bs, FreelistPageCodec.encode (flp next ids) = Ok bs ∧ length bs = BUSTUBX_PAGE_SIZE ∧
    FreelistPageCodec.decode bs = Ok (flp next ids, BUSTUBX_PAGE_SIZE).
Proof.
  intros (Hn & Hids & Hl). pose proof FREELIST_PAGE_MAX_SIZE_eq as Hm. rewrite Hm in Hl.
  unfold FreelistPageCodec.encode. cbn [flp header array current_size].
  pose proof (encode_ids_spec [] ids) as Henc. cbn [app length] in Henc.
  rewrite Nat2Z.id, Henc. cbn [mbind result_bind].
  set (h := FreelistPageHeader.Mk _ _ _).
  assert (length (FreelistPageHeaderCodec.encode h) = 12%nat) as Hhl
    by (unfold FreelistPageHeaderCodec.encode; by autorewrite with codec_length).
  assert (length (FreelistPageHeaderCodec.encode h ++ flat_map encode_u32 ids)
    = 12 + 4 * length ids)%nat as Hlen by (rewrite length_app, ids_length; lia).
  rewrite Hlen, (proj2 (Nat.leb_le _ _)) by (change BUSTUBX_PAGE_SIZE with 4096%nat; lia).
  cbn [assert_true mbind result_bind]. eexists. split; [reflexivity|]. split.
  { rewrite length_app, Hlen, length_replicate. change BUSTUBX_PAGE_SIZE with 4096%nat. lia. }
  rewrite <- app_assoc. unfold FreelistPageCodec.decode.
  rewrite freelist_header_round_trip; [|done|simpl; unfold unsigned_ok; lia|by simpl; rewrite Hm].
  cbn [mbind result_bind]. rewrite slice_from_app by done. cbn [mbind result_bind].
  cbn [h current_size]. by rewrite Nat2Z.id, decode_ids_spec.
Qed.

End DiskPagesFacts.
