(* ===== verification/DiskManager.v ===== *)
(** * DiskManager: pages in the database file

    Models [bustubx/src/storage/disk_manager.rs]. The database file is its contents, a
    list of bytes: reading past its end fails as [read_exact] does, writing past it
    fills the gap with zeros. Operations are methods on the state [t] in the
    state-and-result monad [SR], so the writes before a failure stay.

    [Disk] is the interface the buffer pool uses; [disk_manager_Disk] shows that the
    disk manager, with its chain of free list pages, implements it. *)
From S2P Require Import Prelude CommonCodec TablePage DiskPages.
Local Open Scope Z_scope.

(** ** Files *)

(** [seek] to [off], then [read_exact] of [len] bytes. *)
Definition file_read (file : list Z) (off len : nat) : result (list Z) :=
  if (off + len <=? length file)%nat then Ok (take len (drop off file))
  else Err (Io "failed to fill whole buffer").

(** [seek] to [off], then [write_all]. *)
Definition file_write (file : list Z) (off : nat) (data : list Z) : list Z :=
  let file := file ++ replicate (off - length file) 0 in
  take off file ++ data ++ drop (off + length data) file.

Definition EMPTY_PAGE : list Z := replicate BUSTUBX_PAGE_SIZE 0.

Module DiskManager.

Record t := Mk { next_page_id : Z; db_file : list Z; meta : MetaPage.t }.

Definition set_file (f : list Z → list Z) (self : t) : t :=
  Mk (next_page_id self) (f (db_file self)) (meta self).

(** [*META_PAGE_SIZE + (page_id - 1) as usize * BUSTUBX_PAGE_SIZE] *)
Definition page_offset (page_id : Z) : result nat :=
  i ← checked 32 (page_id - 1);
  Ok (META_PAGE_SIZE + Z.to_nat i * BUSTUBX_PAGE_SIZE)%nat.

Definition read_page (page_id : Z) : SR t (list Z) := λ self,
  (self,
   if page_id =? INVALID_PAGE_ID then Err (Storage "Cannot read invalid page ID")
   else
     off ← page_offset page_id;
     file_read (db_file self) off BUSTUBX_PAGE_SIZE).

Definition write_page_internal (page_id : Z) (data : list Z) : SR t unit :=
  off ← lift (page_offset page_id);
  modify (set_file (λ file, file_write file off data)).

Definition write_page (page_id : Z) (data : list Z) : SR t unit :=
  if negb (length data =? BUSTUBX_PAGE_SIZE)%nat then fail (Storage "Page size is not {}")
  else write_page_internal page_id data.

(** [FreelistPageCodec::decode(&self.read_page(id)?)?] and the write of a page. *)
Definition read_freelist_page (page_id : Z) : SR t FreelistPage.t :=
  bytes ← read_page page_id;
  '(page, _) ← lift (FreelistPageCodec.decode bytes);
  ret page.

Definition write_freelist_page (page_id : Z) (page : FreelistPage.t) : SR t unit :=
  bytes ← lift (FreelistPageCodec.encode page);
  write_page page_id bytes.

(** The loop of [freelist_pop]. [fuel] bounds the free list pages visited. *)
Fixpoint freelist_pop_loop (fuel : nat) (freelist_page_id : Z) : SR t (option Z) :=
  if negb (freelist_page_id =? INVALID_PAGE_ID) then
    match fuel with
    | O => lift Panic
    | S fuel' =>
        freelist_page ← read_freelist_page freelist_page_id;
        '(freelist_page, o) ← lift (FreelistPage.pop freelist_page);
        match o with
        | Some page_id =>
            _ ← write_freelist_page freelist_page_id freelist_page;
            ret (Some page_id)
        | None =>
            freelist_pop_loop fuel'
              (FreelistPageHeader.next_page_id (FreelistPage.header freelist_page))
        end
    end
  else ret None.

(** More free list pages than the file has pages cannot be met without a cycle. *)
Definition chain_fuel (self : t) : nat := S (Z.to_nat (next_page_id self)).

Definition freelist_pop : SR t (option Z) := λ self,
  freelist_pop_loop (chain_fuel self) (MetaPage.freelist_page_id (meta self)) self.

Definition bump_next (self : t) : t :=
  Mk (wrap 32 (next_page_id self + 1)) (db_file self) (meta self).

Definition allocate_page : SR t Z :=
  o ← freelist_pop;
  match o with
  | Some page_id => ret page_id
  | None =>
      page_id ← gets next_page_id;
      _ ← modify bump_next;
      _ ← write_page_internal page_id EMPTY_PAGE;
      ret page_id
  end.

Definition allocate_freelist_page : SR t Z :=
  page_id ← allocate_page;
  _ ← write_freelist_page page_id FreelistPage.new;
  ret page_id.

(** The loop of [freelist_push]: [curr] is the free list page visited before [next]. *)
Fixpoint freelist_push_loop (fuel : nat) (page_id curr next : Z) : SR t unit :=
  match fuel with
  | O => lift Panic
  | S fuel' =>
      '(next, freelist_page) ←
        (if next =? INVALID_PAGE_ID then
           next ← allocate_freelist_page;
           _ ← (if negb (curr =? INVALID_PAGE_ID) then
                  curr_page ← read_freelist_page curr;
                  write_freelist_page curr (FreelistPage.with_next curr_page next)
                else ret tt);
           ret (next, FreelistPage.new)
         else
           page ← read_freelist_page next;
           ret (next, page));
      if FreelistPage.is_full freelist_page then
        freelist_push_loop fuel' page_id next
          (FreelistPageHeader.next_page_id (FreelistPage.header freelist_page))
      else
        freelist_page ← lift (FreelistPage.push freelist_page page_id);
        write_freelist_page next freelist_page
  end.

Definition freelist_push (page_id : Z) : SR t unit := λ self,
  freelist_push_loop (chain_fuel self) page_id INVALID_PAGE_ID
    (MetaPage.freelist_page_id (meta self)) self.

Definition deallocate_page (page_id : Z) : SR t unit :=
  _ ← write_page_internal page_id EMPTY_PAGE;
  freelist_push page_id.

Definition write_meta_page : SR t unit := λ self,
  (set_file (λ file, file_write file 0 (MetaPageCodec.encode (meta self))) self, Ok tt).

Definition db_file_len (self : t) : nat := length (db_file self).
Definition snapshot_bytes (self : t) : list Z := db_file self.

Definition set_meta (m : MetaPage.t) (self : t) : t := Mk (next_page_id self) (db_file self) m.

(** The pages of a new database file. *)
Definition new_pages : SR t unit :=
  freelist_page_id ← allocate_freelist_page;
  schemas ← allocate_page;
  tables ← allocate_page;
  columns ← allocate_page;
  indexes ← allocate_page;
  m ← gets meta;
  _ ← modify (set_meta (MetaPage.Mk (MetaPage.major_version m) (MetaPage.minor_version m)
                          freelist_page_id schemas tables columns indexes));
  write_meta_page.

(** [try_new] on a path: [existing] is the contents of the file if it exists;
    [major] and [minor] are the package version of the build. *)
Definition try_new (major minor : Z) (existing : option (list Z)) : result t :=
  let is_new_file := match existing with Some _ => false | None => true end in
  '(db_file, meta) ←
    match existing with
    | Some file =>
        buf ← file_read file 0 META_PAGE_SIZE;
        '(meta_page, _) ← MetaPageCodec.decode buf;
        Ok (file, meta_page)
    | None =>
        let meta_page := MetaPage.try_new major minor in
        Ok (MetaPageCodec.encode meta_page, meta_page)
    end;
  pages_len ← usub (length db_file) META_PAGE_SIZE;
  if negb (pages_len `mod` BUSTUBX_PAGE_SIZE =? 0)%nat then
    Err (Internal "db file size not a multiple of {} + meta page size {}")
  else
    let next_page_id := wrap 32 (Z.of_nat (pages_len / BUSTUBX_PAGE_SIZE) + 1) in
    let disk_manager := Mk next_page_id db_file meta in
    if is_new_file then
      let '(disk_manager, r) := new_pages disk_manager in
      _ ← r; Ok disk_manager
    else Ok disk_manager.

End DiskManager.

(** ** The interface of a disk *)
Class Disk (D : Type) := {
  disk_read : Z → SR D (list Z);
  disk_write : Z → list Z → SR D unit;
  disk_allocate : SR D Z;
  disk_deallocate : Z → SR D unit;
  (** A disk whose allocated pages are [live], with [page d p] the bytes of page [p],
      and room for at least [n] more pages. *)
  disk_ok : D → gset Z → nat → Prop;
  disk_page : D → Z → list Z;
}.

Class DiskLaws (D : Type) `{Disk D} := {
  disk_live d L n p : disk_ok d L n → p ∈ L →
    p ≠ INVALID_PAGE_ID ∧ unsigned_ok 32 p ∧ length (disk_page d p) = BUSTUBX_PAGE_SIZE;
  disk_read_spec d L n p : disk_ok d L n → p ∈ L → disk_read p d = (d, Ok (disk_page d p));
  disk_write_spec d L n p data :
    disk_ok d L n → p ∈ L → length data = BUSTUBX_PAGE_SIZE →
    ∃ d', disk_write p data d = (d', Ok tt) ∧ disk_ok d' L n ∧ disk_page d' p = data ∧
      ∀ q, q ∈ L → q ≠ p → disk_page d' q = disk_page d q;
  disk_allocate_spec d L n :
    disk_ok d L (S n) →
    ∃ d' p, disk_allocate d = (d', Ok p) ∧ p ∉ L ∧ disk_ok d' ({[p]} ∪ L) n ∧
      disk_page d' p = EMPTY_PAGE ∧ ∀ q, q ∈ L → disk_page d' q = disk_page d q;
  disk_deallocate_spec d L n p :
    disk_ok d ({[p]} ∪ L) (S n) → p ∉ L →
    ∃ d', disk_deallocate p d = (d', Ok tt) ∧ disk_ok d' L n ∧
      ∀ q, q ∈ L → disk_page d' q = disk_page d q;
}.

(** ** Facts on the file *)
Module DiskFacts.
Import DiskManager DiskPagesFacts.

Definition in_file (d : t) (p : Z) : Prop := 1 ≤ p < next_page_id d.

(** The file length of [n] pages, and where page [p] starts. *)
Definition pages_end (n : nat) : nat := (28 + n * 4096)%nat.
#[global] Arguments pages_end : simpl never.

Definition page_off (p : Z) : nat := pages_end (Z.to_nat (p - 1)).

Ltac page_lia := unfold page_off, pages_end, in_file in *; lia.

Definition page (d : t) (p : Z) : list Z := take 4096 (drop (page_off p) (db_file d)).

(** A well-formed file: the meta page, then the pages 1 to [next_page_id - 1]. *)
Definition file_ok (d : t) : Prop :=
  1 ≤ next_page_id d < 2 ^ 32 ∧
  length (db_file d) = pages_end (Z.to_nat (next_page_id d - 1)).

Lemma page_size_eq : BUSTUBX_PAGE_SIZE = 4096%nat.
Proof. done. Qed.

Lemma page_offset_Ok p : 1 ≤ p < 2 ^ 32 → page_offset p = Ok (page_off p).
Proof.
  intros Hp. unfold page_offset. rewrite checked_Ok by (unfold unsigned_ok; lia).
  cbn [mbind result_bind]. unfold page_off, pages_end. by rewrite META_PAGE_SIZE_eq.
Qed.

Lemma in_file_bounds d p :
  file_ok d → in_file d p → (page_off p + 4096 ≤ length (db_file d))%nat ∧ 1 ≤ p < 2 ^ 32.
Proof. intros [H1 H2] Hp. page_lia. Qed.

Lemma page_length d p : file_ok d → in_file d p → length (page d p) = 4096%nat.
Proof.
  intros H Hp. destruct (in_file_bounds d p H Hp) as [Hb _].
  unfold page. rewrite length_take, length_drop. lia.
Qed.

Lemma read_page_Ok d p : file_ok d → in_file d p → read_page p d = (d, Ok (page d p)).
Proof.
  intros H Hp. destruct (in_file_bounds d p H Hp) as [Hb Hr]. unfold read_page.
  rewrite (proj2 (Z.eqb_neq _ _)) by (unfold INVALID_PAGE_ID; lia).
  rewrite page_offset_Ok by lia. cbn [mbind result_bind]. unfold file_read.
  rewrite (proj2 (Nat.leb_le _ _)) by (rewrite page_size_eq; lia). done.
Qed.

(** Two pages do not overlap. *)
Lemma page_off_disjoint p q :
  1 ≤ p → 1 ≤ q → p ≠ q → (page_off p + 4096 ≤ page_off q ∨ page_off q + 4096 ≤ page_off p)%nat.
Proof. intros. page_lia. Qed.

Lemma file_write_in file off data :
  (off ≤ length file)%nat →
  file_write file off data = take off file ++ data ++ drop (off + length data) file.
Proof.
  intros H. unfold file_write. replace (off - length file)%nat with 0%nat by lia.
  simpl replicate. by rewrite app_nil_r.
Qed.

Lemma take_drop_write_same (file data : list Z) off :
  (off ≤ length file)%nat →
  take (length data) (drop off (take off file ++ data ++ drop (off + length data) file)) = data.
Proof.
  intros H. rewrite drop_app_le by (rewrite length_take; lia).
  rewrite drop_ge by (rewrite length_take; lia). simpl. by rewrite take_app_length.
Qed.

Lemma take_drop_write_other (file data : list Z) off o n :
  (off ≤ length file)%nat → (o + n ≤ length file)%nat → (o + n ≤ off ∨ off + length data ≤ o)%nat →
  take n (drop o (take off file ++ data ++ drop (off + length data) file)) = take n (drop o file).
Proof.
  intros Hoff Ho Hd. apply list_eq. intros i. destruct (decide (i < n)%nat) as [Hi|Hi].
  2:{ by rewrite !lookup_take_ge by lia. }
  rewrite !lookup_take_lt, !lookup_drop by lia. destruct Hd as [Hd|Hd].
  - rewrite lookup_app_l by (rewrite length_take; lia). by rewrite lookup_take_lt by lia.
  - rewrite lookup_app_r by (rewrite length_take; lia). rewrite length_take.
    rewrite lookup_app_r by lia. rewrite lookup_drop. f_equal. lia.
Qed.

(** The disk after a page write. *)
Definition after_write (d d' : t) (p : Z) (data : list Z) : Prop :=
  file_ok d' ∧ meta d' = meta d ∧ page d' p = data ∧
  take 28 (db_file d') = take 28 (db_file d) ∧
  ∀ q, in_file d q → q ≠ p → page d' q = page d q.

Lemma write_page_internal_Ok d p data :
  file_ok d → in_file d p → length data = 4096%nat →
  ∃ d', write_page_internal p data d = (d', Ok tt) ∧ after_write d d' p data ∧
    next_page_id d' = next_page_id d.
Proof.
  intros H Hp Hl. destruct (in_file_bounds d p H Hp) as [Hb Hr].
  unfold write_page_internal. rewrite page_offset_Ok by lia.
  eexists. split; [reflexivity|]. unfold set_file. rewrite file_write_in by lia.
  split; [|done]. split_and!; cbn [db_file next_page_id meta]; [|done| | |].
  - destruct H as [H1 H2]. split; [done|]. cbn [db_file next_page_id].
    rewrite !length_app, length_take, length_drop, Hl. page_lia.
  - unfold page. cbn [db_file]. rewrite <- Hl. apply take_drop_write_same. lia.
  - apply (take_drop_write_other _ _ _ 0 28); [lia|page_lia|page_lia].
  - intros q Hq Hne. destruct (in_file_bounds d q H Hq) as [Hbq _].
    unfold page. cbn [db_file]. apply take_drop_write_other; [lia|lia|]. rewrite Hl.
    unfold in_file in *. apply page_off_disjoint; lia.
Qed.

Lemma write_page_Ok d p data :
  file_ok d → in_file d p → length data = BUSTUBX_PAGE_SIZE →
  ∃ d', write_page p data d = (d', Ok tt) ∧ after_write d d' p data ∧
    next_page_id d' = next_page_id d.
Proof.
  intros H Hp Hl. unfold write_page. rewrite Hl, Nat.eqb_refl. cbn [negb].
  by apply write_page_internal_Ok.
Qed.

(** Appending the next page to the file. *)
Lemma append_page_Ok d data :
  file_ok d → next_page_id d + 1 < 2 ^ 32 → length data = 4096%nat →
  ∃ d', write_page_internal (next_page_id d) data (bump_next d) = (d', Ok tt) ∧
    after_write d d' (next_page_id d) data ∧ next_page_id d' = next_page_id d + 1.
Proof.
  intros [H1 H2] Hn Hl. unfold write_page_internal.
  rewrite page_offset_Ok by lia. eexists. split; [reflexivity|].
  unfold set_file, bump_next. cbn [db_file next_page_id meta]. rewrite wrap_small by (unfold unsigned_ok; lia).
  assert (page_off (next_page_id d) = length (db_file d)) as Hoff by page_lia.
  rewrite file_write_in by lia.
  split; [|done]. split_and!; cbn [db_file next_page_id meta]; [|done| | |].
  - split; cbn [db_file next_page_id]; [lia|].
    rewrite !length_app, length_take, length_drop, Hl. page_lia.
  - unfold page. cbn [db_file]. rewrite <- Hl. apply take_drop_write_same. lia.
  - apply (take_drop_write_other _ _ _ 0 28); [lia|page_lia|page_lia].
  - intros q Hq Hne. destruct (in_file_bounds d q ltac:(done) Hq) as [Hbq _].
    unfold page. cbn [db_file]. apply take_drop_write_other; [lia|lia|]. lia.
Qed.

Lemma after_write_in d d' p data q :
  after_write d d' p data → next_page_id d ≤ next_page_id d' → in_file d q → in_file d' q.
Proof. unfold in_file. lia. Qed.

(** ** The chain of free list pages *)

(** The free list pages from [a] to [b]: their page ids and the ids they hold, in the
    page contents [pg]. *)
Fixpoint seg (pg : Z → list Z) (a : Z) (l : list (Z * list Z)) (b : Z) : Prop :=
  match l with
  | [] => a = b
  | (p, ids) :: l' =>
      a = p ∧ ∃ next, flp_ok next ids ∧ FreelistPageCodec.encode (flp next ids) = Ok (pg p) ∧
        seg pg next l' b
  end.

Lemma seg_app pg a l1 l2 b : seg pg a (l1 ++ l2) b ↔ ∃ c, seg pg a l1 c ∧ seg pg c l2 b.
Proof.
  revert a. induction l1 as [|[p ids] l1 IH]; intros a; simpl.
  - split; [intros H; by exists a|by intros (c & -> & H)].
  - split.
    + intros (-> & next & Hf & He & Hs). apply IH in Hs as (c & H1 & H2).
      exists c. split; [|done]. split; [done|]. by exists next.
    + intros (c & (-> & next & Hf & He & Hs) & H2). split; [done|]. exists next.
      split_and!; [done..|]. apply IH. by exists c.
Qed.

Lemma seg_ext pg pg' a l b : (∀ p, p ∈ l.*1 → pg' p = pg p) → seg pg a l b → seg pg' a l b.
Proof.
  revert a. induction l as [|[p ids] l IH]; intros a Hext; simpl; [done|].
  intros (-> & next & Hf & He & Hs). split; [done|]. exists next.
  rewrite Hext by (by left). split_and!; [done..|]. apply IH; [|done].
  intros q Hq. apply Hext. by right.
Qed.

Lemma encode_flp_length next ids bs :
  flp_ok next ids → FreelistPageCodec.encode (flp next ids) = Ok bs →
  length bs = BUSTUBX_PAGE_SIZE ∧
  FreelistPageCodec.decode bs = Ok (flp next ids, BUSTUBX_PAGE_SIZE).
Proof.
  intros Hf He. destruct (flp_round_trip next ids Hf) as (bs' & He' & ? & ?).
  rewrite He in He'. by injection He' as <-.
Qed.

Lemma read_freelist_Ok d p next ids :
  file_ok d → in_file d p → flp_ok next ids →
  FreelistPageCodec.encode (flp next ids) = Ok (page d p) →
  read_freelist_page p d = (d, Ok (flp next ids)).
Proof.
  intros H Hp Hf He. unfold read_freelist_page. rewrite (SR_bind_Ok _ _ _ _ _ (read_page_Ok d p H Hp)).
  destruct (encode_flp_length _ _ _ Hf He) as [_ Hd]. unfold lift, mbind, SR_bind, ret. by rewrite Hd.
Qed.

Lemma write_freelist_Ok d p next ids :
  file_ok d → in_file d p → flp_ok next ids →
  ∃ d' bs, write_freelist_page p (flp next ids) d = (d', Ok tt) ∧
    FreelistPageCodec.encode (flp next ids) = Ok bs ∧ after_write d d' p bs ∧
    next_page_id d' = next_page_id d.
Proof.
  intros H Hp Hf. destruct (flp_round_trip next ids Hf) as (bs & He & Hl & _).
  destruct (write_page_Ok d p bs H Hp Hl) as (d' & Hw & Ha & Hn).
  exists d', bs. split_and!; [|done..]. unfold write_freelist_page, lift, mbind, SR_bind.
  by rewrite He, Hw.
Qed.

(** The pages of the free list and the ids they hold. *)
Definition owned (l : list (Z * list Z)) : list Z := l.*1 ++ concat l.*2.

(** [L] are the pages in use; [l] is the free list. *)
Record rep (d : t) (L : gset Z) (l : list (Z * list Z)) : Prop := Rep {
  rep_file : file_ok d;
  rep_chain : seg (page d) (MetaPage.freelist_page_id (meta d)) l INVALID_PAGE_ID;
  rep_live : ∀ p, p ∈ L → in_file d p ∧ p ∉ owned l;
  rep_owned : ∀ p, p ∈ owned l → in_file d p;
  rep_NoDup : NoDup (owned l);
  rep_zero : ∀ p, p ∈ concat l.*2 → page d p = EMPTY_PAGE;
}.

(** Popping an id from the middle of the list. *)
Lemma owned_pop l1 p ids x l2 :
  owned (l1 ++ (p, ids ++ [x]) :: l2) ≡ₚ x :: owned (l1 ++ (p, ids) :: l2).
Proof.
  unfold owned. rewrite !fmap_app, !concat_app. simpl.
  rewrite <- !app_assoc. simpl. solve_Permutation.
Qed.

Lemma owned_page l1 p ids l2 : p ∈ owned (l1 ++ (p, ids) :: l2).
Proof. unfold owned. rewrite !fmap_app. simpl. rewrite !elem_of_app, elem_of_cons. tauto. Qed.

(** Rewriting one page of a segment, its link kept. *)
Lemma seg_update d d' a l1 p ids ids' l2 b next bs :
  seg (page d) a l1 p → flp_ok next ids' →
  FreelistPageCodec.encode (flp next ids') = Ok bs → seg (page d) next l2 b →
  NoDup (l1 ++ (p, ids) :: l2).*1 → page d' p = bs →
  (∀ q, q ∈ (l1 ++ (p, ids) :: l2).*1 → q ≠ p → page d' q = page d q) →
  seg (page d') a (l1 ++ (p, ids') :: l2) b.
Proof.
  intros H1 Hf He H2 Hnd Hp Ho. rewrite fmap_app in Hnd, Ho. simpl in Hnd, Ho.
  apply NoDup_app in Hnd as (_ & Hd & Hnd). apply NoDup_cons in Hnd as [Hni _].
  apply seg_app. exists p. split.
  - eapply seg_ext; [|exact H1]. intros q Hq. apply Ho; [apply elem_of_app; by left|].
    intros ->. apply (Hd p Hq). by left.
  - simpl. split; [done|]. exists next. rewrite Hp. split_and!; [done..|].
    eapply seg_ext; [|exact H2]. intros q Hq. apply Ho.
    + apply elem_of_app. right. by right.
    + by intros ->.
Qed.

(** The link after the middle of a segment. *)
Lemma seg_middle pg a l1 p ids l2 b :
  seg pg a (l1 ++ (p, ids) :: l2) b →
  seg pg a l1 p ∧ ∃ next, flp_ok next ids ∧
    FreelistPageCodec.encode (flp next ids) = Ok (pg p) ∧ seg pg next l2 b.
Proof. intros (c & H1 & -> & next & H)%seg_app. split; [done|]. by exists next. Qed.

Lemma owned_fst l : l.*1 ⊆ owned l.
Proof. intros p Hp. unfold owned. apply elem_of_app. by left. Qed.

Lemma owned_NoDup_fst l : NoDup (owned l) → NoDup l.*1.
Proof. unfold owned. by intros (? & _ & _)%NoDup_app. Qed.

(** The free list after a rewrite of one of its pages: [rep] for the new ids, given
    which pages are live or free now. *)
Lemma rep_write d d' L L' l1 p ids ids' l2 next bs :
  rep d L (l1 ++ (p, ids) :: l2) →
  seg (page d) (MetaPage.freelist_page_id (meta d)) l1 p → seg (page d) next l2 INVALID_PAGE_ID →
  flp_ok next ids' → FreelistPageCodec.encode (flp next ids') = Ok bs →
  after_write d d' p bs → next_page_id d' = next_page_id d →
  NoDup (owned (l1 ++ (p, ids') :: l2)) →
  (∀ q, q ∈ owned (l1 ++ (p, ids') :: l2) → in_file d q) →
  (∀ q, q ∈ L' → in_file d q ∧ q ∉ owned (l1 ++ (p, ids') :: l2)) →
  (∀ q, q ∈ concat (l1 ++ (p, ids') :: l2).*2 → page d q = EMPTY_PAGE) →
  rep d' L' (l1 ++ (p, ids') :: l2).
Proof.
  intros H H1 H2 Hf He (Hfile & Hmeta & Hp & _ & Ho) Hn Hnd Hin Hl Hz.
  assert (∀ q, q ∈ owned (l1 ++ (p, ids') :: l2) → q ≠ p → page d' q = page d q) as Hsame
    by (intros q Hq Hne; apply Ho; [by apply Hin|done]).
  assert (∀ q, in_file d' q ↔ in_file d q) as Hinf by (intros q; unfold in_file; by rewrite Hn).
  split; [done| | | |done|].
  - rewrite Hmeta. eapply (seg_update d d'); try done.
    + apply owned_NoDup_fst, (rep_NoDup _ _ _ H).
    + intros q Hq Hne. apply Ho; [|done]. eapply (rep_owned _ _ _ H). by apply owned_fst.
  - intros q Hq. rewrite Hinf. by apply Hl.
  - intros q Hq. rewrite Hinf. by apply Hin.
  - intros q Hq. rewrite <- (Hz q Hq). apply Hsame; [unfold owned; apply elem_of_app; by right|].
    intros ->. unfold owned in Hnd. apply NoDup_app in Hnd as (_ & Hd & _).
    apply (Hd p); [|done]. rewrite fmap_app. apply elem_of_app. right. by left.
Qed.

(** A page of the free list has at most its maximum of distinct entries. *)
Lemma rep_chain_length d L l : rep d L l → (length l ≤ Z.to_nat (next_page_id d))%nat.
Proof.
  intros H. pose proof (owned_NoDup_fst _ (rep_NoDup _ _ _ H)) as Hnd.
  assert (l.*1 ⊆+ seqZ 1 (next_page_id d)) as Hs.
  { apply NoDup_submseteq; [done|]. intros q Hq%owned_fst%(rep_owned _ _ _ H).
    unfold in_file in Hq. apply elem_of_seqZ. lia. }
  apply submseteq_length in Hs. rewrite length_fmap, length_seqZ in Hs. lia.
Qed.

Lemma pop_loop_spec d l fuel a :
  file_ok d → (∀ p, p ∈ l.*1 → in_file d p) → seg (page d) a l INVALID_PAGE_ID →
  (length l ≤ fuel)%nat →
  (Forall (λ e, e.2 = []) l ∧ freelist_pop_loop fuel a d = (d, Ok None)) ∨
  (∃ l1 p ids x l2 next d' bs, l = l1 ++ (p, ids ++ [x]) :: l2 ∧
     freelist_pop_loop fuel a d = (d', Ok (Some x)) ∧ after_write d d' p bs ∧
     next_page_id d' = next_page_id d ∧ flp_ok next ids ∧
     FreelistPageCodec.encode (flp next ids) = Ok bs ∧
     seg (page d) a l1 p ∧ seg (page d) next l2 INVALID_PAGE_ID).
Proof.
  intros Hfile. revert fuel a. induction l as [|[p ids] l IH]; intros fuel a Hin Hs Hfuel.
  { simpl in Hs. subst a. left. split; [done|]. by destruct fuel. }
  destruct Hs as (-> & next & Hf & He & Hs). destruct fuel as [|fuel]; [simpl in Hfuel; lia|].
  assert (in_file d p) as Hp by (apply Hin; by left).
  cbn [freelist_pop_loop]. rewrite (proj2 (Z.eqb_neq _ _))
    by (unfold in_file, INVALID_PAGE_ID in *; lia). cbn [negb].
  rewrite (SR_bind_Ok _ _ _ _ _ (read_freelist_Ok d p next ids Hfile Hp Hf He)).
  destruct ids as [|x ids _] using rev_ind.
  - rewrite flp_pop_nil. unfold lift at 1, mbind at 1, SR_bind at 1.
    cbn [flp FreelistPage.header FreelistPageHeader.next_page_id].
    destruct (IH fuel next) as [[Hall ->]|(l1 & q & ids & x & l2 & nx & d' & bs & -> & Hr & H)];
      [intros q Hq; apply Hin; by right|done|simpl in Hfuel; lia|left|right].
    + split; [by constructor|done].
    + exists ((p, []) :: l1), q, ids, x, l2, nx, d', bs. split; [done|]. split; [done|].
      destruct H as (? & ? & ? & ? & ? & ?). split_and!; try done. simpl. split; [done|].
      by exists next.
  - right. rewrite flp_pop_snoc by done. unfold lift at 1, mbind at 1, SR_bind at 1.
    assert (flp_ok next ids) as Hf'.
    { destruct Hf as (? & Hall & Hl). apply Forall_app in Hall as [? _].
      rewrite length_app in Hl. split_and!; [done..|]. lia. }
    destruct (write_freelist_Ok d p next ids Hfile Hp Hf') as (d' & bs & Hw & He' & Ha & Hn).
    rewrite (SR_bind_Ok _ _ _ _ _ Hw).
    exists [], p, ids, x, l, next, d', bs. split_and!; try done.
Qed.

(** Without a free page the file grows. *)
Lemma allocate_appended d L l :
  rep d L l → next_page_id d + 1 < 2 ^ 32 → freelist_pop d = (d, Ok None) →
  ∃ d' x l', allocate_page d = (d', Ok x) ∧ x ∉ L ∧ rep d' ({[x]} ∪ L) l' ∧
    page d' x = EMPTY_PAGE ∧ (∀ q, q ∈ L → page d' q = page d q) ∧ l'.*1 = l.*1 ∧
    meta d' = meta d ∧ take 28 (db_file d') = take 28 (db_file d) ∧
    next_page_id d ≤ next_page_id d' ≤ next_page_id d + 1.
Proof.
  intros H Hn Hpop. pose proof (rep_file _ _ _ H) as Hfile.
  destruct (append_page_Ok d EMPTY_PAGE Hfile Hn) as (d' & Hw & Ha & Hn');
    [unfold EMPTY_PAGE; by rewrite length_replicate|].
  destruct Ha as (Hfile' & Hmeta & Hp & H28 & Ho).
  exists d', (next_page_id d), l.
  assert (∀ q, in_file d q → in_file d' q) as Hin' by (intros q; unfold in_file; lia).
  assert (¬ in_file d (next_page_id d)) as Hout by (unfold in_file; lia).
  split_and!; try done; try lia.
  - unfold allocate_page. rewrite (SR_bind_Ok freelist_pop _ _ _ _ Hpop).
    unfold gets, modify, ret, mbind, SR_bind. by rewrite Hw.
  - intros HL. by apply (rep_live _ _ _ H) in HL as [? _].
  - split; [done| | | |apply H|].
    + rewrite Hmeta. eapply seg_ext; [|apply (rep_chain _ _ _ H)].
      intros q Hq%owned_fst%(rep_owned _ _ _ H). apply Ho; [done|]. by intros ->.
    + intros q [->%elem_of_singleton|HL]%elem_of_union.
      * split; [unfold in_file, file_ok in *; lia|]. by intros Hq%(rep_owned _ _ _ H).
      * apply (rep_live _ _ _ H) in HL as [? ?]. auto.
    + intros q Hq%(rep_owned _ _ _ H). auto.
    + intros q Hq. rewrite <- (rep_zero _ _ _ H q Hq).
      assert (in_file d q) as Hq' by (apply (rep_owned _ _ _ H); unfold owned; apply elem_of_app; by right).
      apply Ho; [done|]. by intros ->.
  - intros q [Hq _]%(rep_live _ _ _ H). apply Ho; [done|]. by intros ->.
Qed.

Lemma allocate_page_spec d L l :
  rep d L l → next_page_id d + 1 < 2 ^ 32 →
  ∃ d' x l', allocate_page d = (d', Ok x) ∧ x ∉ L ∧ rep d' ({[x]} ∪ L) l' ∧
    page d' x = EMPTY_PAGE ∧ (∀ q, q ∈ L → page d' q = page d q) ∧ l'.*1 = l.*1 ∧
    meta d' = meta d ∧ take 28 (db_file d') = take 28 (db_file d) ∧
    next_page_id d ≤ next_page_id d' ≤ next_page_id d + 1.
Proof.
  intros H Hn. pose proof (rep_file _ _ _ H) as Hfile.
  destruct (pop_loop_spec d l (chain_fuel d) (MetaPage.freelist_page_id (meta d)) Hfile)
    as [[Hall Hpop]|(l1 & p & ids & x & l2 & next & d' & bs & -> & Hpop & Ha & Hnx & Hf & He & H1 & H2)].
  - intros q Hq%owned_fst. by apply (rep_owned _ _ _ H).
  - apply (rep_chain _ _ _ H).
  - unfold chain_fuel. pose proof (rep_chain_length _ _ _ H). lia.
  - by eapply allocate_appended.
  - assert (x ∈ owned (l1 ++ (p, ids ++ [x]) :: l2)) as Hx by (rewrite owned_pop; by left).
    pose proof (rep_NoDup _ _ _ H) as Hnd. rewrite owned_pop in Hnd.
    apply NoDup_cons in Hnd as [Hxn Hnd].
    assert (∀ q, q ∈ owned (l1 ++ (p, ids) :: l2) → q ∈ owned (l1 ++ (p, ids ++ [x]) :: l2)) as Hsub
      by (intros q Hq; rewrite owned_pop; by right).
    assert (x ≠ p) as Hxp by (intros ->; apply Hxn, owned_page).
    exists d', x, (l1 ++ (p, ids) :: l2). pose proof Ha as (Hfile' & Hmeta & Hp & H28 & Ho).
    split_and!; try done; try lia.
    + unfold allocate_page. by rewrite (SR_bind_Ok freelist_pop _ _ _ _ Hpop).
    + intros HL. by apply (rep_live _ _ _ H) in HL as [_ ?].
    + eapply (rep_write d d' L); try done.
      * intros q Hq. by apply (rep_owned _ _ _ H), Hsub.
      * intros q [->%elem_of_singleton|HL]%elem_of_union.
        -- split; [by apply (rep_owned _ _ _ H)|done].
        -- apply (rep_live _ _ _ H) in HL as [? Hno]. split; [done|]. by intros Hq%Hsub.
      * intros q Hq. apply (rep_zero _ _ _ H). revert Hq.
        rewrite !fmap_app, !concat_app. simpl. rewrite !elem_of_app. tauto.
    + rewrite Ho; [|by apply (rep_owned _ _ _ H)|done]. apply (rep_zero _ _ _ H).
      rewrite fmap_app, concat_app. simpl. rewrite !elem_of_app, list_elem_of_singleton. tauto.
    + intros q [Hq Hno]%(rep_live _ _ _ H). apply Ho; [done|]. intros ->.
      apply Hno, Hsub, owned_page.
    + by rewrite !fmap_app.
Qed.

Lemma write_page_eq p bs d :
  length bs = BUSTUBX_PAGE_SIZE → write_page p bs d = write_page_internal p bs d.
Proof. intros Hl. unfold write_page. by rewrite Hl, Nat.eqb_refl. Qed.

(** An empty free list page on a page just allocated. *)
Lemma allocate_freelist_page_spec d L l :
  rep d L l → next_page_id d + 1 < 2 ^ 32 →
  ∃ d' x l', allocate_freelist_page d = (d', Ok x) ∧ x ∉ L ∧ rep d' ({[x]} ∪ L) l' ∧
    FreelistPageCodec.encode (flp 0 []) = Ok (page d' x) ∧
    (∀ q, q ∈ L → page d' q = page d q) ∧ l'.*1 = l.*1 ∧
    meta d' = meta d ∧ take 28 (db_file d') = take 28 (db_file d) ∧
    next_page_id d ≤ next_page_id d' ≤ next_page_id d + 1.
Proof.
  intros H Hn. destruct (allocate_page_spec d L l H Hn) as
    (d1 & x & l' & Ha & Hx & H1 & _ & Hpg & Hfst & Hmeta & H28 & Hnext).
  assert (in_file d1 x ∧ x ∉ owned l') as [Hxin Hxno] by (apply (rep_live _ _ _ H1); set_solver).
  assert (flp_ok 0 []) as Hf by (split_and!; [done|by constructor|rewrite FREELIST_PAGE_MAX_SIZE_eq; done]).
  destruct (write_freelist_Ok d1 x 0 [] (rep_file _ _ _ H1) Hxin Hf)
    as (d2 & bs & Hw & He & (Hfile & Hm2 & Hp2 & H282 & Ho) & Hn2).
  exists d2, x, l'. split_and!; try done; try congruence; try lia.
  - unfold allocate_freelist_page. rewrite (SR_bind_Ok _ _ _ _ _ Ha), new_flp.
    by rewrite (SR_bind_Ok _ _ _ _ _ Hw).
  - assert (∀ q, q ∈ owned l' → in_file d1 q ∧ q ≠ x) as Hq.
    { intros q Hq. split; [by apply (rep_owned _ _ _ H1)|]. by intros ->. }
    assert (∀ q, in_file d2 q ↔ in_file d1 q) as Hinf by (intros q; unfold in_file; by rewrite Hn2).
    split; [done| | | |apply H1|].
    + rewrite Hm2. eapply seg_ext; [|apply (rep_chain _ _ _ H1)].
      intros q [? ?]%owned_fst%Hq. by apply Ho.
    + intros q. rewrite Hinf. apply (rep_live _ _ _ H1).
    + intros q. rewrite Hinf. apply (rep_owned _ _ _ H1).
    + intros q Hz. destruct (Hq q) as [? ?]; [unfold owned; apply elem_of_app; by right|].
      rewrite Ho by done. by apply (rep_zero _ _ _ H1).
  - intros q HL. rewrite <- (Hpg q HL). apply Ho; [|intros ->; done].
    apply (rep_live _ _ _ H1). set_solver.
Qed.

(** Linking a new page at the end of the list. *)
Lemma rep_extend d d' L l1 c ids x bs :
  rep d ({[x]} ∪ L) (l1 ++ [(c, ids)]) → x ∉ L →
  FreelistPageCodec.encode (flp 0 []) = Ok (page d x) →
  seg (page d) (MetaPage.freelist_page_id (meta d)) l1 c → flp_ok x ids →
  FreelistPageCodec.encode (flp x ids) = Ok bs → after_write d d' c bs →
  next_page_id d' = next_page_id d →
  rep d' L ((l1 ++ [(c, ids)]) ++ [(x, [])]).
Proof.
  intros H HxL Hx H1 Hf He (Hfile & Hmeta & Hp & _ & Ho) Hn.
  destruct (rep_live _ _ _ H x) as [Hxin Hxno]; [set_solver|].
  assert (x ≠ c) as Hxc by (intros ->; apply Hxno, owned_page).
  assert (owned ((l1 ++ [(c, ids)]) ++ [(x, [])]) ≡ₚ x :: owned (l1 ++ [(c, ids)])) as Hown.
  { unfold owned. rewrite !fmap_app, !concat_app. simpl. rewrite !app_nil_r. solve_Permutation. }
  assert (∀ q, in_file d' q ↔ in_file d q) as Hinf by (intros q; unfold in_file; by rewrite Hn).
  split; [done| | | | |].
  - rewrite Hmeta. apply seg_app. exists x. split.
    + eapply (seg_update d d' _ l1 c ids ids []); try done.
      * apply owned_NoDup_fst, (rep_NoDup _ _ _ H).
      * intros q Hq Hne. apply Ho; [|done]. eapply (rep_owned _ _ _ H). by apply owned_fst.
    + simpl. split; [done|]. exists 0. rewrite Ho by done. split_and!; [|done..].
      split_and!; [done|by constructor|by rewrite FREELIST_PAGE_MAX_SIZE_eq].
  - intros q HL. rewrite Hinf, Hown. destruct (rep_live _ _ _ H q) as [? ?]; [set_solver|].
    split; [done|]. intros [->|?]%elem_of_cons; done.
  - intros q. rewrite Hinf, Hown. intros [->|Hq]%elem_of_cons; [done|].
    by apply (rep_owned _ _ _ H).
  - rewrite Hown. constructor; [done|]. apply (rep_NoDup _ _ _ H).
  - intros q. rewrite (fmap_app snd), concat_app. simpl. rewrite app_nil_r. intros Hq.
    rewrite <- (rep_zero _ _ _ H q Hq). apply Ho.
    + apply (rep_owned _ _ _ H). unfold owned. apply elem_of_app. by right.
    + intros ->. pose proof (rep_NoDup _ _ _ H) as Hnd. unfold owned in Hnd.
      apply NoDup_app in Hnd as (_ & Hd & _). apply (Hd c); [|done].
      rewrite fmap_app. apply elem_of_app. right. by left.
Qed.

(** Storing a freed page in a free list page that has room. *)
Lemma push_store d L l1 p ids l2 next x :
  rep d ({[x]} ∪ L) (l1 ++ (p, ids) :: l2) → x ∉ L → page d x = EMPTY_PAGE →
  seg (page d) (MetaPage.freelist_page_id (meta d)) l1 p → seg (page d) next l2 INVALID_PAGE_ID →
  flp_ok next ids → FreelistPage.is_full (flp next ids) = false →
  ∃ d' fp, FreelistPage.push (flp next ids) x = Ok fp ∧
    write_freelist_page p fp d = (d', Ok tt) ∧ rep d' L (l1 ++ (p, ids ++ [x]) :: l2) ∧
    (∀ q, q ∈ L → page d' q = page d q) ∧ meta d' = meta d ∧
    take 28 (db_file d') = take 28 (db_file d) ∧ next_page_id d' = next_page_id d.
Proof.
  intros H HxL Hz H1 H2 Hf Hfull.
  destruct (rep_live _ _ _ H x) as [Hxin Hxno]; [set_solver|].
  assert (in_file d p) as Hp by (apply (rep_owned _ _ _ H), owned_page).
  assert (flp_ok next (ids ++ [x])) as Hf'.
  { destruct Hf as (? & ? & Hl). rewrite flp_full in Hfull. apply Z.leb_gt in Hfull.
    destruct (rep_file _ _ _ H) as [? _]. unfold in_file in Hxin.
    split_and!; [done|apply Forall_app; split; [done|repeat constructor; lia]|].
    rewrite length_app. simpl. lia. }
  destruct (write_freelist_Ok d p next (ids ++ [x]) (rep_file _ _ _ H) Hp Hf')
    as (d' & bs & Hw & He & Ha & Hn).
  exists d', (flp next (ids ++ [x])). pose proof Ha as (_ & Hmeta & _ & H28 & Ho).
  split_and!; try done.
  - by apply flp_push.
  - pose proof (owned_pop l1 p ids x l2) as Hown.
    eapply (rep_write d d'); try done.
    + rewrite Hown. constructor; [done|]. apply (rep_NoDup _ _ _ H).
    + intros q. rewrite Hown. intros [->|Hq]%elem_of_cons; [done|]. by apply (rep_owned _ _ _ H).
    + intros q HL. rewrite Hown. destruct (rep_live _ _ _ H q) as [? ?]; [set_solver|].
      split; [done|]. intros [->|?]%elem_of_cons; done.
    + intros q. rewrite fmap_app, concat_app. simpl. rewrite !elem_of_app, list_elem_of_singleton.
      intros Hq. destruct (decide (q = x)) as [->|Hqx]; [done|].
      apply (rep_zero _ _ _ H). rewrite fmap_app, concat_app. simpl. rewrite !elem_of_app. tauto.
  - intros q HL. destruct (rep_live _ _ _ H q) as [? Hno]; [set_solver|].
    apply Ho; [done|]. intros ->. apply Hno, owned_page.
Qed.

Lemma flp_new_not_full : FreelistPage.is_full (flp 0 []) = false.
Proof. rewrite flp_full, FREELIST_PAGE_MAX_SIZE_eq. done. Qed.

Lemma flp_nil_ok : flp_ok 0 [].
Proof. split_and!; [done|by constructor|by rewrite FREELIST_PAGE_MAX_SIZE_eq]. Qed.

(** The pages in use, the meta page and its bytes are kept. *)
Definition kept (L : gset Z) (d d' : t) : Prop :=
  (∀ q, q ∈ L → page d' q = page d q) ∧ meta d' = meta d ∧
  take 28 (db_file d') = take 28 (db_file d) ∧
  next_page_id d ≤ next_page_id d' ≤ next_page_id d + 1.

(** The end of the list: a new page is linked and takes the freed page. *)
(** A free page is the first of the first free list page, a new one. *)
Lemma push_first d L fuel p :
  rep d ({[p]} ∪ L) [] → p ∉ L → next_page_id d + 1 < 2 ^ 32 →
  ∃ d' l', freelist_push_loop (S fuel) p INVALID_PAGE_ID INVALID_PAGE_ID d = (d', Ok tt) ∧
    rep d' L l' ∧ kept L d d'.
Proof.
  intros H HpL Hn. destruct (allocate_freelist_page_spec d _ _ H Hn) as
    (d1 & x & l' & Ha & Hx & Hrep1 & Hxe & Hpg & Hfst & Hmeta & H28 & Hnext).
  cbn [freelist_push_loop]. rewrite Z.eqb_refl. assert (x ≠ p ∧ x ∉ L) as [Hxp HxL] by set_solver.
  destruct (rep_live _ _ _ Hrep1 x) as [Hxin Hxno]; [set_solver|].
  destruct (rep_live _ _ _ Hrep1 p) as [Hpin Hpno]; [set_solver|].
  pose proof (rep_file _ _ _ Hrep1) as Hf1. destruct l'; [|done].
  pose proof (flp_push 0 [] p flp_nil_ok flp_new_not_full) as Hpush. cbn [app] in Hpush.
  assert (flp_ok 0 [p]) as Hfp.
  { destruct Hf1 as [? _]. unfold in_file in Hpin.
    split_and!; [done|repeat constructor; lia|by rewrite FREELIST_PAGE_MAX_SIZE_eq]. }
  destruct (write_freelist_Ok d1 x 0 [p] Hf1 Hxin Hfp)
    as (d2 & bs & Hw & _ & (Hf2 & Hm2 & _ & H282 & Ho) & Hn2).
  exists d2, []. split; [|split].
  - unfold mbind, SR_bind, ret, lift. rewrite Ha. cbn [negb].
    rewrite new_flp, flp_new_not_full, Hpush. done.
  - assert (∀ q, q ∈ L → in_file d1 q) as HL
      by (intros q Hq; apply (rep_live _ _ _ Hrep1); set_solver).
    split; [done| | | |apply Hrep1|].
    + rewrite Hm2. apply (rep_chain _ _ _ Hrep1).
    + intros q Hq. split; [|apply not_elem_of_nil]. unfold in_file. rewrite Hn2. by apply HL.
    + intros q Hq. by apply not_elem_of_nil in Hq.
    + intros q Hq. by apply not_elem_of_nil in Hq.
  - split_and!; [|congruence|congruence|lia|lia]. intros q Hq. rewrite <- Hpg by set_solver.
    apply Ho; [apply (rep_live _ _ _ Hrep1); set_solver|]. by intros ->.
Qed.

(** A free page is the first of a new free list page, which the last one links to. *)
Lemma push_linked d L l1 curr ids fuel p :
  rep d ({[p]} ∪ L) (l1 ++ [(curr, ids)]) → p ∉ L → page d p = EMPTY_PAGE → next_page_id d + 1 < 2 ^ 32 →
  ∃ d' l', freelist_push_loop (S fuel) p curr INVALID_PAGE_ID d = (d', Ok tt) ∧
    rep d' L l' ∧ kept L d d'.
Proof.
  intros H HpL Hz Hn. destruct (allocate_freelist_page_spec d _ _ H Hn) as
    (d1 & x & l' & Ha & Hx & Hrep1 & Hxe & Hpg & Hfst & Hmeta & H28 & Hnext).
  cbn [freelist_push_loop]. rewrite Z.eqb_refl. assert (x ≠ p ∧ x ∉ L) as [Hxp HxL] by set_solver.
  assert (page d1 p = EMPTY_PAGE) as Hz1 by (rewrite Hpg; [done|set_solver]).
  destruct (rep_live _ _ _ Hrep1 x) as [Hxin Hxno]; [set_solver|].
  destruct (rep_live _ _ _ Hrep1 p) as [Hpin Hpno]; [set_solver|].
  pose proof (rep_file _ _ _ Hrep1) as Hf1. rewrite fmap_app in Hfst. simpl in Hfst.
  destruct l' as [|[c idsc] l1a _] using rev_ind; [by destruct l1|].
  rewrite fmap_app in Hfst. simpl in Hfst. apply app_inj_tail in Hfst as [_ ->].
  assert (in_file d1 curr) as Hcin by (apply (rep_owned _ _ _ Hrep1), owned_page).
  destruct (seg_middle _ _ _ _ _ _ _ (rep_chain _ _ _ Hrep1)) as (Hs1 & nx & Hfc & Hec & Hnil).
  simpl in Hnil. subst nx.
  assert (flp_ok x idsc) as Hfx.
  { destruct Hfc as (_ & ? & ?), Hf1 as [? _]. unfold in_file in Hxin.
    split_and!; [unfold unsigned_ok; lia|done..]. }
  destruct (write_freelist_Ok d1 curr x idsc Hf1 Hcin Hfx) as (d2 & bs & Hw & Hb & Hafter & Hn2).
  assert (rep d2 ({[p]} ∪ L) ((l1a ++ [(curr, idsc)]) ++ [(x, [])])) as Hrep2
    by (eapply (rep_extend d1); try done).
  pose proof Hafter as (Hf2 & Hm2 & _ & H282 & Ho).
  assert (page d2 p = EMPTY_PAGE) as Hz2 by (rewrite Ho; [done|done|]; intros ->; apply Hpno, owned_page).
  destruct (seg_middle _ _ _ _ _ _ _ (rep_chain _ _ _ Hrep2)) as (Hs2 & nx & Hfn & Hen & Hnil2).
  simpl in Hnil2. subst nx.
  destruct (push_store d2 L _ x [] [] INVALID_PAGE_ID p Hrep2 HpL Hz2 Hs2)
    as (d3 & fp & Hpush & Hw3 & Hrep3 & Hpg3 & Hm3 & H283 & Hn3); [done|done|apply flp_new_not_full|].
  exists d3, ((l1a ++ [(curr, idsc)]) ++ [(x, [p])]). split; [|split; [done|]].
  - assert ((curr =? INVALID_PAGE_ID) = false) as Hc0
      by (apply Z.eqb_neq; unfold in_file, INVALID_PAGE_ID in *; lia).
    unfold mbind, SR_bind, ret, lift. rewrite Ha, Hc0. cbn [negb].
    rewrite (read_freelist_Ok d1 curr INVALID_PAGE_ID idsc Hf1 Hcin Hfc Hec).
    change (FreelistPage.with_next (flp INVALID_PAGE_ID idsc) x) with (flp x idsc).
    rewrite Hw, new_flp, flp_new_not_full. change (flp 0 []) with (flp INVALID_PAGE_ID []).
    rewrite Hpush. done.
  - split_and!; [|congruence|congruence|lia|lia]. intros q Hq. rewrite Hpg3, <- Hpg by set_solver.
    destruct (rep_live _ _ _ Hrep1 q) as [? Hqno]; [set_solver|].
    apply Ho; [done|]. intros ->. apply Hqno, owned_page.
Qed.

Lemma push_at_end d L l1 curr fuel p :
  rep d ({[p]} ∪ L) l1 → p ∉ L → page d p = EMPTY_PAGE →
  (l1 = [] ∧ curr = INVALID_PAGE_ID) ∨ (∃ l1' ids, l1 = l1' ++ [(curr, ids)]) →
  next_page_id d + 1 < 2 ^ 32 →
  ∃ d' l', freelist_push_loop (S fuel) p curr INVALID_PAGE_ID d = (d', Ok tt) ∧
    rep d' L l' ∧ kept L d d'.
Proof.
  intros H HpL Hz [[-> ->]|(l1' & ids & ->)] Hn; [by apply push_first|by eapply push_linked].
Qed.

Lemma push_loop_spec fuel d L l1 l2 curr next p :
  rep d ({[p]} ∪ L) (l1 ++ l2) → p ∉ L → page d p = EMPTY_PAGE →
  seg (page d) (MetaPage.freelist_page_id (meta d)) l1 next →
  seg (page d) next l2 INVALID_PAGE_ID →
  (l1 = [] ∧ curr = INVALID_PAGE_ID) ∨ (∃ l1' ids, l1 = l1' ++ [(curr, ids)]) →
  (length l2 < fuel)%nat → next_page_id d + 1 < 2 ^ 32 →
  ∃ d' l', freelist_push_loop fuel p curr next d = (d', Ok tt) ∧ rep d' L l' ∧ kept L d d'.
Proof.
  revert l1 curr next fuel. induction l2 as [|[q ids] l2 IH];
    intros l1 curr next fuel H HpL Hz H1 H2 Hcurr Hfuel Hn; (destruct fuel as [|fuel]; [lia|]).
  { simpl in H2. subst next. rewrite app_nil_r in H. by eapply push_at_end. }
  destruct H2 as (-> & nx & Hf & He & H2).
  assert (in_file d q) as Hq by (apply (rep_owned _ _ _ H), owned_page).
  assert ((q =? INVALID_PAGE_ID) = false) as Hq0
    by (apply Z.eqb_neq; unfold in_file, INVALID_PAGE_ID in *; lia).
  pose proof (read_freelist_Ok d q nx ids (rep_file _ _ _ H) Hq Hf He) as Hread.
  cbn [freelist_push_loop]. rewrite Hq0.
  destruct (FreelistPage.is_full (flp nx ids)) eqn:Hfull.
  - destruct (IH (l1 ++ [(q, ids)]) q nx fuel) as (d' & l' & Hrun & Hrep & Hkept);
      [by rewrite <- app_assoc|done|done| |done|right; by eexists _, _|simpl in Hfuel; lia|done|].
    { apply seg_app. exists q. split; [done|]. simpl. split; [done|]. by exists nx. }
    exists d', l'. split; [|done].
    unfold mbind, SR_bind, ret. rewrite Hread, Hfull. exact Hrun.
  - destruct (push_store d L l1 q ids l2 nx p H HpL Hz H1 H2 Hf Hfull)
      as (d' & fp & Hpush & Hw & Hrep & Hpg & Hm & H28 & Hnx).
    exists d', (l1 ++ (q, ids ++ [p]) :: l2). split; [|split; [done|split_and!; done || lia]].
    unfold mbind, SR_bind, ret, lift. by rewrite Hread, Hfull, Hpush.
Qed.

(** Freeing a page in use. *)
Lemma deallocate_page_spec d L l p :
  rep d ({[p]} ∪ L) l → p ∉ L → next_page_id d + 1 < 2 ^ 32 →
  ∃ d' l', deallocate_page p d = (d', Ok tt) ∧ rep d' L l' ∧ kept L d d'.
Proof.
  intros H HpL Hn. destruct (rep_live _ _ _ H p) as [Hp Hpno]; [set_solver|].
  destruct (write_page_internal_Ok d p EMPTY_PAGE (rep_file _ _ _ H) Hp)
    as (d1 & Hw & (Hf1 & Hm1 & Hp1 & H281 & Ho) & Hn1);
    [unfold EMPTY_PAGE; by rewrite length_replicate|].
  assert (∀ q, in_file d1 q ↔ in_file d q) as Hinf by (intros q; unfold in_file; by rewrite Hn1).
  assert (∀ q, q ∈ owned l → page d1 q = page d q) as Hown.
  { intros q Hq. apply Ho; [by apply (rep_owned _ _ _ H)|]. by intros ->. }
  assert (rep d1 ({[p]} ∪ L) l) as H1.
  { split; [done| | | |apply H|].
    - rewrite Hm1. eapply seg_ext; [|apply (rep_chain _ _ _ H)]. intros q Hq%owned_fst. auto.
    - intros q. rewrite Hinf. apply (rep_live _ _ _ H).
    - intros q. rewrite Hinf. apply (rep_owned _ _ _ H).
    - intros q Hq. rewrite Hown by (unfold owned; apply elem_of_app; by right).
      by apply (rep_zero _ _ _ H). }
  destruct (push_loop_spec (chain_fuel d1) d1 L [] l INVALID_PAGE_ID
    (MetaPage.freelist_page_id (meta d1)) p) as (d2 & l' & Hpush & Hrep & Hpg & Hm & H28 & Hnx);
    try done.
  - apply (rep_chain _ _ _ H1).
  - by left.
  - unfold chain_fuel. pose proof (rep_chain_length _ _ _ H1). lia.
  - lia.
  - exists d2, l'. split; [|split; [done|split_and!; [|congruence|congruence|lia|lia]]].
    + unfold deallocate_page. by rewrite (SR_bind_Ok _ _ _ _ _ Hw).
    + intros q Hq. rewrite Hpg by done. apply Ho; [apply (rep_live _ _ _ H); set_solver|].
      by intros ->.
Qed.

Lemma write_live_spec d L l p data :
  rep d L l → p ∈ L → length data = BUSTUBX_PAGE_SIZE →
  ∃ d', write_page p data d = (d', Ok tt) ∧ rep d' L l ∧ page d' p = data ∧
    (∀ q, q ∈ L → q ≠ p → page d' q = page d q) ∧ meta d' = meta d ∧
    take 28 (db_file d') = take 28 (db_file d) ∧ next_page_id d' = next_page_id d.
Proof.
  intros H HpL Hl. destruct (rep_live _ _ _ H p HpL) as [Hp Hpno].
  destruct (write_page_Ok d p data (rep_file _ _ _ H) Hp Hl)
    as (d1 & Hw & (Hf1 & Hm1 & Hp1 & H281 & Ho) & Hn1).
  assert (∀ q, in_file d1 q ↔ in_file d q) as Hinf by (intros q; unfold in_file; by rewrite Hn1).
  assert (∀ q, q ∈ owned l → page d1 q = page d q) as Hown.
  { intros q Hq. apply Ho; [by apply (rep_owned _ _ _ H)|]. by intros ->. }
  exists d1. split_and!; try done.
  - split; [done| | | |apply H|].
    + rewrite Hm1. eapply seg_ext; [|apply (rep_chain _ _ _ H)]. intros q Hq%owned_fst. auto.
    + intros q. rewrite Hinf. apply (rep_live _ _ _ H).
    + intros q. rewrite Hinf. apply (rep_owned _ _ _ H).
    + intros q Hq. rewrite Hown by (unfold owned; apply elem_of_app; by right).
      by apply (rep_zero _ _ _ H).
  - intros q HL. apply Ho. by apply (rep_live _ _ _ H).
Qed.

End DiskFacts.

(** ** The disk manager implements the interface *)
Section disk_instance.
Import DiskManager DiskFacts.

#[export] Instance disk_manager_Disk : Disk DiskManager.t := {
  disk_read := read_page;
  disk_write := write_page;
  disk_allocate := allocate_page;
  disk_deallocate := deallocate_page;
  disk_ok d L n := next_page_id d + Z.of_nat n < 2 ^ 32 ∧ ∃ l, rep d L l;
  disk_page := page;
}.

#[export] Instance disk_manager_laws : DiskLaws DiskManager.t.
Proof.
  split; simpl.
  - intros d L n p [_ (l & H)] Hp. destruct (rep_live _ _ _ H p Hp) as [Hin _].
    pose proof (page_length d p (rep_file _ _ _ H) Hin) as Hl.
    destruct (rep_file _ _ _ H) as [? _]. unfold in_file, INVALID_PAGE_ID in *.
    split_and!; [lia|unfold unsigned_ok; lia|done].
  - intros d L n p [_ (l & H)] Hp. apply read_page_Ok; [apply H|]. by apply (rep_live _ _ _ H).
  - intros d L n p data [Hn (l & H)] Hp Hl.
    destruct (write_live_spec d L l p data H Hp Hl) as (d' & ? & ? & ? & ? & _ & _ & Hn').
    exists d'. split_and!; [done|lia|by exists l|done..].
  - intros d L n [Hn (l & H)].
    destruct (allocate_page_spec d L l H) as (d' & x & l' & ? & ? & ? & ? & ? & _ & _ & _ & Hn');
      [lia|].
    exists d', x. split_and!; [done|done|lia|by exists l'|done..].
  - intros d L n p [Hn (l & H)] HpL.
    destruct (deallocate_page_spec d L l p H HpL) as (d' & l' & ? & ? & Hpg & _ & _ & Hn'); [lia|].
    exists d'. split_and!; [done|lia|by exists l'|done].
Qed.

End disk_instance.

(** ** Opening a database file *)
Module DiskOpenFacts.
Import DiskManager DiskPagesFacts DiskFacts.

(** The first bytes of the file hold the meta page. *)
Definition synced (d : t) : Prop :=
  take 28 (db_file d) = MetaPageCodec.encode (meta d) ∧ meta_ok (meta d).

Lemma pages_end_mod n : ((pages_end n - 28) `mod` BUSTUBX_PAGE_SIZE = 0)%nat.
Proof.
  replace (pages_end n - 28)%nat with (n * BUSTUBX_PAGE_SIZE)%nat
    by (rewrite page_size_eq; unfold pages_end; lia). apply Nat.Div0.mod_mul.
Qed.

Lemma pages_end_div n : ((pages_end n - 28) / BUSTUBX_PAGE_SIZE = n)%nat.
Proof.
  replace (pages_end n - 28)%nat with (n * BUSTUBX_PAGE_SIZE)%nat
    by (rewrite page_size_eq; unfold pages_end; lia). apply Nat.div_mul. by rewrite page_size_eq.
Qed.

Lemma reopen_Ok major minor d :
  file_ok d → synced d → try_new major minor (Some (snapshot_bytes d)) = Ok d.
Proof.
  intros [Hn Hl] [Hs Hm]. unfold try_new, snapshot_bytes, file_read. rewrite META_PAGE_SIZE_eq.
  rewrite (proj2 (Nat.leb_le _ _)) by (rewrite Hl; unfold pages_end; lia).
  cbn [mbind result_bind]. rewrite drop_0, Hs.
  rewrite <- (app_nil_r (MetaPageCodec.encode _)), meta_round_trip by done.
  cbn [mbind result_bind]. rewrite usub_Ok by (rewrite Hl; unfold pages_end; lia).
  cbn [mbind result_bind]. rewrite Hl, pages_end_mod, pages_end_div.
  cbn [negb Nat.eqb]. rewrite wrap_small by (unfold unsigned_ok; lia).
  replace (Z.of_nat _ + 1) with (next_page_id d) by lia. by destruct d.
Qed.

Lemma write_meta_page_Ok d L l :
  rep d L l → meta_ok (meta d) →
  ∃ d', write_meta_page d = (d', Ok tt) ∧ rep d' L l ∧ meta d' = meta d ∧
    next_page_id d' = next_page_id d ∧ synced d' ∧ ∀ q, in_file d q → page d' q = page d q.
Proof.
  intros H Hm. pose proof (rep_file _ _ _ H) as [Hn Hl].
  eexists. split; [reflexivity|]. unfold set_file. rewrite file_write_in by lia.
  rewrite meta_length. set (d' := Mk _ _ _).
  assert (∀ q, in_file d q → page d' q = page d q) as Hpg.
  { intros q Hq. destruct (in_file_bounds d q (rep_file _ _ _ H) Hq) as [Hb _].
    unfold page, d'. cbn [db_file]. rewrite <- (meta_length (meta d)) at 1.
    apply take_drop_write_other; [lia|lia|]. rewrite meta_length. page_lia. }
  split_and!; [|done|done| |done].
  - split; [| | | |apply H|].
    + split; [done|]. cbn [d' db_file next_page_id].
      rewrite !length_app, length_take, length_drop, meta_length. page_lia.
    + eapply seg_ext; [|apply (rep_chain _ _ _ H)].
      intros q Hq%owned_fst%(rep_owned _ _ _ H). auto.
    + intros q Hq. apply (rep_live _ _ _ H q Hq).
    + intros q Hq. apply (rep_owned _ _ _ H q Hq).
    + intros q Hq. rewrite Hpg; [by apply (rep_zero _ _ _ H)|].
      apply (rep_owned _ _ _ H). unfold owned. apply elem_of_app. by right.
  - split; [|done]. cbn [d' db_file meta]. rewrite take_0. cbn [app].
    rewrite <- (meta_length (meta d)) at 1. by rewrite take_app_length.
Qed.

(** Adopting a page that holds an empty free list page as the free list. *)
Lemma rep_set_meta d L x m :
  rep d ({[x]} ∪ L) [] → x ∉ L → FreelistPageCodec.encode (flp 0 []) = Ok (page d x) →
  MetaPage.freelist_page_id m = x → rep (set_meta m d) L [(x, [])].
Proof.
  intros H HxL Hx Hm. destruct (rep_live _ _ _ H x) as [Hin _]; [set_solver|].
  split; [apply H| | | | |].
  - simpl. split; [done|]. exists 0. split_and!; [apply flp_nil_ok|done|done].
  - intros q HL. destruct (rep_live _ _ _ H q) as [? _]; [set_solver|]. split; [done|].
    unfold owned. simpl. rewrite list_elem_of_singleton. by intros ->.
  - intros q. unfold owned. simpl. by intros ->%list_elem_of_singleton.
  - unfold owned. simpl. apply NoDup_singleton.
  - intros q Hq. simpl in Hq. by apply not_elem_of_nil in Hq.
Qed.

Lemma new_rep meta_page : MetaPage.freelist_page_id meta_page = 0 →
  rep (Mk 1 (MetaPageCodec.encode meta_page) meta_page) ∅ [].
Proof.
  intros Hm. split; simpl; try done.
  - intros q Hq. by apply not_elem_of_nil in Hq.
  - constructor.
  - intros q Hq. by apply not_elem_of_nil in Hq.
Qed.

(** The four catalog pages of a new file. *)
Definition catalog_pages (m : MetaPage.t) : gset Z :=
  {[ MetaPage.information_schema_schemas_first_page_id m;
     MetaPage.information_schema_tables_first_page_id m;
     MetaPage.information_schema_columns_first_page_id m;
     MetaPage.information_schema_indexes_first_page_id m ]}.

Lemma new_pages_Ok d :
  rep d ∅ [] → next_page_id d = 1 → meta_ok (meta d) →
  ∃ d', new_pages d = (d', Ok tt) ∧
    rep d' (catalog_pages (meta d')) [(MetaPage.freelist_page_id (meta d'), [])] ∧ synced d' ∧
    base.size (catalog_pages (meta d')) = 4%nat ∧
    next_page_id d' ≤ 6 ∧ ∀ p, p ∈ catalog_pages (meta d') → page d' p = EMPTY_PAGE.
Proof.
  intros H Hn Hm. unfold new_pages.
  destruct (allocate_freelist_page_spec d _ _ H) as
    (d1 & x & l1 & Ha & Hx & H1 & Hxe & _ & Hl1 & Hm1 & _ & Hn1); [lia|].
  destruct l1; [|done]. rewrite (SR_bind_Ok _ _ _ _ _ Ha).
  destruct (allocate_page_spec d1 _ _ H1) as
    (d2 & a & l2 & Ha2 & Hax & H2 & Hz2 & Hp2 & Hl2 & Hm2 & _ & Hn2); [lia|].
  destruct l2; [|done]. rewrite (SR_bind_Ok _ _ _ _ _ Ha2).
  destruct (allocate_page_spec d2 _ _ H2) as
    (d3 & b & l3 & Ha3 & Hbx & H3 & Hz3 & Hp3 & Hl3 & Hm3 & _ & Hn3); [lia|].
  destruct l3; [|done]. rewrite (SR_bind_Ok _ _ _ _ _ Ha3).
  destruct (allocate_page_spec d3 _ _ H3) as
    (d4 & c & l4 & Ha4 & Hcx & H4 & Hz4 & Hp4 & Hl4 & Hm4 & _ & Hn4); [lia|].
  destruct l4; [|done]. rewrite (SR_bind_Ok _ _ _ _ _ Ha4).
  destruct (allocate_page_spec d4 _ _ H4) as
    (d5 & e & l5 & Ha5 & Hex & H5 & Hz5 & Hp5 & Hl5 & Hm5 & _ & Hn5); [lia|].
  destruct l5; [|done]. rewrite (SR_bind_Ok _ _ _ _ _ Ha5).
  unfold gets at 1, mbind at 1, SR_bind at 1. unfold modify at 1, mbind at 1, SR_bind at 1.
  set (m := MetaPage.Mk _ _ x a b c e).
  set (L := catalog_pages m). unfold catalog_pages in L. simpl in L.
  assert (rep d5 ({[x]} ∪ L) []) as H5'
    by (replace ({[x]} ∪ L) with ({[e]} ∪ ({[c]} ∪ ({[b]} ∪ ({[a]} ∪ ({[x]} ∪ (∅ : gset Z))))))
          by (subst L; set_solver); done).
  assert (rep (set_meta m d5) L [(x, [])]) as H6.
  { apply (rep_set_meta d5 L x m H5'); [subst L; set_solver| |done].
    rewrite Hp5, Hp4, Hp3, Hp2 by set_solver. done. }
  assert (∀ q, q ∈ {[x]} ∪ L → unsigned_ok 32 q) as Hu.
  { intros q Hq. destruct (rep_live _ _ _ H5' q Hq) as [Hin _].
    unfold in_file, unsigned_ok in *. lia. }
  destruct (write_meta_page_Ok _ _ _ H6) as (d7 & Hw & H7 & Hm7 & Hn7 & Hs & Hpg).
  { destruct Hm as (? & ? & _). assert (meta d5 = meta d) as Hmd by congruence.
    change (meta_ok m). subst m. rewrite Hmd.
    split_and!; simpl; try done; apply Hu; subst L; set_solver. }
  rewrite Hw. exists d7. rewrite Hm7. simpl in Hn7 |- *. split_and!; [done|done|done| |lia|].
  - change (base.size L = 4%nat). subst L.
    rewrite !size_union, !size_singleton by set_solver. done.
  - intros p Hp. change (p ∈ L) in Hp. rewrite Hpg by apply (rep_live _ _ _ H6 p Hp).
    change (page (set_meta m d5) p) with (page d5 p).
    assert (p = a ∨ p = b ∨ p = c ∨ p = e) as [-> | [-> | [-> | ->]]] by (subst L; set_solver).
    + by rewrite Hp5, Hp4, Hp3 by set_solver.
    + by rewrite Hp5, Hp4 by set_solver.
    + by rewrite Hp5 by set_solver.
    + done.
Qed.

Lemma create_Ok major minor :
  unsigned_ok 32 major → unsigned_ok 32 minor →
  ∃ d, try_new major minor None = Ok d ∧
    rep d (catalog_pages (meta d)) [(MetaPage.freelist_page_id (meta d), [])] ∧ synced d ∧
    base.size (catalog_pages (meta d)) = 4%nat ∧
    next_page_id d ≤ 6 ∧ ∀ p, p ∈ catalog_pages (meta d) → page d p = EMPTY_PAGE.
Proof.
  intros Ha Hi. set (m := MetaPage.try_new major minor).
  assert (meta_ok m) as Hm by (split_and!; done).
  destruct (new_pages_Ok _ (new_rep m eq_refl) eq_refl Hm) as (d & Hnew & H).
  exists d. split; [|done]. unfold try_new. fold m.
  cbn [mbind result_bind]. rewrite meta_length, META_PAGE_SIZE_eq. cbn [mbind result_bind].
  change (usub 28 28) with (Ok 0%nat). cbn [mbind result_bind].
  change (0 `mod` BUSTUBX_PAGE_SIZE)%nat with 0%nat. cbn [Nat.eqb negb].
  change (Z.of_nat (0 / BUSTUBX_PAGE_SIZE) + 1) with 1. rewrite wrap_small by done.
  by rewrite Hnew.
Qed.

End DiskOpenFacts.

(** ** Properties *)
Module DiskSpec.
Import DiskManager DiskFacts DiskOpenFacts.



(** C29: creating a database file and opening it again give the same disk manager.
    [try_new] on a fresh path returns a disk manager with an empty free list page and
    four distinct zeroed catalog pages, recorded in a meta page that is on disk; and
    [try_new] on the bytes of any file whose meta page is on disk restores the same
    state, whatever version the new build has. *)
Theorem disk_create_reopen major minor :
  unsigned_ok 32 major → unsigned_ok 32 minor →
  (∃ d, try_new major minor None = Ok d ∧
     rep d (catalog_pages (meta d)) [(MetaPage.freelist_page_id (meta d), [])] ∧
     base.size (catalog_pages (meta d)) = 4%nat ∧
     (∀ p, p ∈ catalog_pages (meta d) → page d p = EMPTY_PAGE) ∧
     try_new major minor (Some (snapshot_bytes d)) = Ok d) ∧
  (∀ d L l, rep d L l → synced d → try_new major minor (Some (snapshot_bytes d)) = Ok d).
Proof.
  intros Ha Hi. split.
  - destruct (create_Ok major minor Ha Hi) as (d & ? & Hrep & Hs & ? & _ & ?).
    exists d. split_and!; try done. apply reopen_Ok; [apply Hrep|done].
  - intros d L l Hrep Hs. apply reopen_Ok; [apply Hrep|done].
Qed.

Lemma disk_create_reopen_witness :
  ∃ d, try_new 0 1 None = Ok d ∧ try_new 0 1 (Some (snapshot_bytes d)) = Ok d.
Proof.
  destruct (disk_create_reopen 0 1) as [(d & ? & _ & _ & _ & ?) _]; [done..|]. by exists d.
Defined.

End DiskSpec.
