(* ===== verification/BufferPool.v ===== *)
(** * BufferPool: frames, pins, eviction and write-back

    Models [bustubx/src/buffer/buffer_pool.rs] and [bustubx/src/buffer/page.rs]. The
    pool runs over any disk with the interface [Disk] (the disk manager is one). A
    [PageRef] is the index of the frame it keeps pinned; dropping it is
    [drop_page_ref]. The locks and the concurrent map are used by one thread at a
    time here: [page_table] is a finite map. *)
From S2P Require Import Prelude CommonCodec Schema TablePage IndexPage IndexPageCodec.
From S2P Require Import DiskPages DiskManager Replacer.
Local Open Scope Z_scope.

Definition BUFFER_POOL_SIZE : nat := 1000.

Module Page.

Record t := Mk { page_id : Z; data : list Z; pin_count : Z; is_dirty : bool }.

Definition new (page_id : Z) : t := Mk page_id EMPTY_PAGE 0 false.
Definition empty : t := new INVALID_PAGE_ID.

Definition destroy (self : t) : t := Mk 0 EMPTY_PAGE 0 false.
Definition set_data (data : list Z) (self : t) : t := Mk (page_id self) data (pin_count self) true.
Definition replace (self other : t) : t := other.

Definition with_pin_count (n : Z) (self : t) : t := Mk (page_id self) (data self) n (is_dirty self).
Definition with_data (data : list Z) (self : t) : t :=
  Mk (page_id self) data (pin_count self) (is_dirty self).
Definition with_dirty (b : bool) (self : t) : t := Mk (page_id self) (data self) (pin_count self) b.

End Page.

Module BufferPoolManager.
Section pool.
Context {D : Type} `{Disk D}.

Record t := Mk {
  pool : list Page.t;
  replacer : LRUKReplacer.t;
  disk_manager : D;
  page_table : gmap Z FrameId;
  free_list : list FrameId;
}.

Definition set_pool (x : list Page.t) (s : t) : t :=
  Mk x (replacer s) (disk_manager s) (page_table s) (free_list s).
Definition set_replacer (x : LRUKReplacer.t) (s : t) : t :=
  Mk (pool s) x (disk_manager s) (page_table s) (free_list s).
Definition set_disk (x : D) (s : t) : t :=
  Mk (pool s) (replacer s) x (page_table s) (free_list s).
Definition set_page_table (x : gmap Z FrameId) (s : t) : t :=
  Mk (pool s) (replacer s) (disk_manager s) x (free_list s).
Definition set_free_list (x : list FrameId) (s : t) : t :=
  Mk (pool s) (replacer s) (disk_manager s) (page_table s) x.

Definition new (num_pages : nat) (disk : D) : t :=
  Mk (replicate num_pages Page.empty) (LRUKReplacer.new num_pages 2) disk ∅ (seq 0 num_pages).

(** A call on the replacer or the disk inside the pool; the frame [frame_id]. *)
Definition on_replacer (f : LRUKReplacer.t → result LRUKReplacer.t) : SR t unit := λ s,
  match f (replacer s) with
  | Ok r => (set_replacer r s, Ok tt)
  | Err e => (s, Err e)
  | Panic => (s, Panic)
  end.

Definition on_disk {A} (m : SR D A) : SR t A := λ s,
  let '(d, r) := m (disk_manager s) in (set_disk d s, r).

Definition frame (frame_id : FrameId) : SR t Page.t := λ s, (s, index (pool s) frame_id).

Definition set_frame (frame_id : FrameId) (f : Page.t → Page.t) : SR t unit := λ s,
  match pool s !! frame_id with
  | Some page => (set_pool (<[frame_id := f page]> (pool s)) s, Ok tt)
  | None => (s, Panic)
  end.

Definition flush_page (page_id : Z) : SR t bool :=
  table ← gets page_table;
  match table !! page_id with
  | Some frame_id =>
      page ← frame frame_id;
      _ ← on_disk (disk_write page_id (Page.data page));
      _ ← set_frame frame_id (Page.with_dirty false);
      ret true
  | None => ret false
  end.

Definition evict_frame : SR t (option FrameId) := λ s,
  match LRUKReplacer.evict (replacer s) with
  | Ok (r, o) => (set_replacer r s, Ok o)
  | Err e => (s, Err e)
  | Panic => (s, Panic)
  end.

Definition allocate_frame : SR t FrameId :=
  free ← gets free_list;
  match free with
  | frame_id :: free' => _ ← modify (set_free_list free'); ret frame_id
  | [] =>
      o ← evict_frame;
      match o with
      | Some frame_id =>
          evicted_page ← frame frame_id;
          let evicted_page_id := Page.page_id evicted_page in
          _ ← (if Page.is_dirty evicted_page
               then _ ← flush_page evicted_page_id; ret tt else ret tt);
          _ ← modify (λ s, set_page_table (delete evicted_page_id (page_table s)) s);
          ret frame_id
      | None => fail (Storage "Cannot allocate free frame")
      end
  end.

(** [allocate_page().unwrap()] *)
Definition allocate_page_unwrap : SR t Z := λ s,
  match on_disk disk_allocate s with
  | (s', Err _) => (s', Panic)
  | r => r
  end.

Definition table_insert (page_id : Z) (frame_id : FrameId) : SR t unit :=
  modify (λ s, set_page_table (<[page_id := frame_id]> (page_table s)) s).

(** The replacer calls that end [new_page] and the miss case of [fetch_page]. *)
Definition pin_new_frame (frame_id : FrameId) : SR t FrameId :=
  _ ← on_replacer (λ r, LRUKReplacer.record_access r frame_id);
  _ ← on_replacer (λ r, LRUKReplacer.set_evictable r frame_id false);
  ret frame_id.

Definition new_page : SR t FrameId :=
  free ← gets free_list;
  size ← gets (λ s, LRUKReplacer.size (replacer s));
  if (length free =? 0)%nat && (size =? 0)%nat then
    fail (Storage "Cannot new page because buffer pool is full and no page to evict")
  else
    frame_id ← allocate_frame;
    new_page_id ← allocate_page_unwrap;
    _ ← table_insert new_page_id frame_id;
    _ ← set_frame frame_id (λ page, Page.replace page
          (Page.with_pin_count 1 (Page.new new_page_id)));
    pin_new_frame frame_id.

Definition fetch_page (page_id : Z) : SR t FrameId :=
  table ← gets page_table;
  match table !! page_id with
  | Some frame_id =>
      page ← frame frame_id;
      pin_count ← lift (checked 32 (Page.pin_count page + 1));
      _ ← set_frame frame_id (Page.with_pin_count pin_count);
      _ ← on_replacer (λ r, LRUKReplacer.set_evictable r frame_id false);
      ret frame_id
  | None =>
      frame_id ← allocate_frame;
      _ ← table_insert page_id frame_id;
      data ← on_disk (disk_read page_id);
      _ ← set_frame frame_id (λ page, Page.replace page
            (Page.with_data data (Page.with_pin_count 1 (Page.new page_id))));
      pin_new_frame frame_id
  end.

(** [set_evictable(frame_id, true)], an error turned into a panic. *)
Definition make_evictable (frame_id : FrameId) : SR t unit := λ s,
  match LRUKReplacer.set_evictable (replacer s) frame_id true with
  | Ok r => (set_replacer r s, Ok tt)
  | _ => (s, Panic)
  end.

(** [impl Drop for PageRef] *)
Definition drop_page_ref (frame_id : FrameId) : SR t unit :=
  page ← frame frame_id;
  if Page.pin_count page =? 0 then ret tt
  else
    table ← gets page_table;
    match table !! Page.page_id page with
    | Some frame_id' =>
        pin_count ← lift (checked 32 (Page.pin_count page - 1));
        _ ← set_frame frame_id (Page.with_pin_count pin_count);
        if pin_count =? 0 then make_evictable frame_id' else ret tt
    | None => ret tt
    end.

(** [page.write().unwrap().set_data(data)] through a [PageRef]. *)
Definition set_page_data (frame_id : FrameId) (data : list Z) : SR t unit :=
  set_frame frame_id (Page.set_data data).

(** [fetch_page], then a decoder on the bytes of the page; on a decoding error the
    [PageRef] is dropped by the early return. *)
Definition fetch_decoded {A} (decode : list Z → result (DecodedData A)) (page_id : Z) :
    SR t (FrameId * A) :=
  frame_id ← fetch_page page_id;
  page ← frame frame_id;
  match decode (Page.data page) with
  | Ok (a, _) => ret (frame_id, a)
  | Err e => _ ← drop_page_ref frame_id; fail e
  | Panic => lift Panic
  end.

Definition fetch_table_page (page_id : Z) (schema : Schema.t) : SR t (FrameId * TablePage.t) :=
  fetch_decoded (λ bytes, TablePageCodec.decode bytes schema) page_id.

Definition fetch_tree_page (page_id : Z) (key_schema : Schema.t) :
    SR t (FrameId * BPlusTreePage.t) :=
  fetch_decoded (λ bytes, BPlusTreePageCodec.decode bytes key_schema) page_id.

Definition fetch_tree_internal_page (page_id : Z) (key_schema : Schema.t) :
    SR t (FrameId * BPlusTreeInternalPage.t) :=
  fetch_decoded (λ bytes, BPlusTreeInternalPageCodec.decode bytes key_schema) page_id.

Definition fetch_tree_leaf_page (page_id : Z) (key_schema : Schema.t) :
    SR t (FrameId * BPlusTreeLeafPage.t) :=
  fetch_decoded (λ bytes, BPlusTreeLeafPageCodec.decode bytes key_schema) page_id.

(** [for page_id in page_ids { self.flush_page(page_id)?; }] *)
Fixpoint flush_pages (page_ids : list Z) : SR t unit :=
  match page_ids with
  | [] => ret tt
  | page_id :: page_ids' => _ ← flush_page page_id; flush_pages page_ids'
  end.

Definition flush_all_pages : SR t unit :=
  page_ids ← gets (λ s, (map_to_list (page_table s)).*1);
  flush_pages page_ids.

Definition delete_page (page_id : Z) : SR t bool :=
  table ← gets page_table;
  match table !! page_id with
  | Some frame_id =>
      page ← frame frame_id;
      if 0 <? Page.pin_count page then ret false
      else
        _ ← set_frame frame_id Page.destroy;
        _ ← modify (λ s, set_page_table (delete page_id (page_table s)) s);
        _ ← modify (λ s, set_free_list (free_list s ++ [frame_id]) s);
        _ ← on_replacer (λ r, LRUKReplacer.remove r frame_id);
        _ ← on_disk (disk_deallocate page_id);
        ret true
  | None => ret true
  end.

End pool.
Arguments t D : clear implicits.
End BufferPoolManager.

(** ** Facts *)
Module BufferPoolFacts.
Import BufferPoolManager.

Section facts.
Context {D : Type} `{DiskLaws D}.
Implicit Types (s : t D) (p : Z) (f : FrameId) (L : gset Z).

(** The replacer node of frame [f] of page [g], pinned or not. *)
Definition node_matches (r : LRUKReplacer.t) (f : FrameId) (g : Page.t) : Prop :=
  ∃ n, LRUKReplacer.node_store r !! f = Some n ∧
    LRUKNode.is_evictable n = (Page.pin_count g =? 0).

(** The invariant of the pool, for the pages [L] in use on a disk with room for [n]
    more. Every frame is free or holds the page the table says; a clean page has the
    bytes of the disk. *)
Record pool_ok (s : t D) (L : gset Z) (n : nat) : Prop := PoolOk {
  pool_disk : disk_ok (disk_manager s) L n;
  pool_replacer : ReplacerFacts.replacer_ok (replacer s);
  pool_size : LRUKReplacer.replacer_size (replacer s) = length (pool s);
  pool_table : ∀ p f, page_table s !! p = Some f →
    p ∈ L ∧ f ∉ free_list s ∧ ∃ g, pool s !! f = Some g ∧ Page.page_id g = p ∧
      0 ≤ Page.pin_count g ∧ length (Page.data g) = BUSTUBX_PAGE_SIZE ∧
      node_matches (replacer s) f g ∧
      (Page.is_dirty g = false → disk_page (disk_manager s) p = Page.data g);
  pool_nodes : ∀ f n, LRUKReplacer.node_store (replacer s) !! f = Some n →
    ∃ p, page_table s !! p = Some f;
  pool_free : NoDup (free_list s) ∧ ∀ f, f ∈ free_list s → (f < length (pool s))%nat;
}.

(** What a client sees of page [p]: its frame if it is in the pool, else the disk. *)
Definition contents s p : list Z :=
  match page_table s !! p with
  | Some f => match pool s !! f with Some g => Page.data g | None => [] end
  | None => disk_page (disk_manager s) p
  end.

Definition same_contents L s s' : Prop := ∀ p, p ∈ L → contents s' p = contents s p.

Definition quiet s : Prop := ReplacerFacts.early (replacer s).

(** A frame holds one page. *)
Lemma table_inj s L n p q f :
  pool_ok s L n → page_table s !! p = Some f → page_table s !! q = Some f → p = q.
Proof.
  intros Hs Hp Hq. destruct (pool_table _ _ _ Hs _ _ Hp) as (_ & _ & g & Hg & <- & _).
  destruct (pool_table _ _ _ Hs _ _ Hq) as (_ & _ & g' & Hg' & <- & _). congruence.
Qed.

Lemma frame_Ok s f g : pool s !! f = Some g → frame f s = (s, Ok g).
Proof. intros Hg. unfold frame. by rewrite (index_Ok _ _ _ Hg). Qed.

Lemma set_frame_Ok s f g u :
  pool s !! f = Some g → set_frame f u s = (set_pool (<[f := u g]> (pool s)) s, Ok tt).
Proof. intros Hg. unfold set_frame. by rewrite Hg. Qed.

(** Changing a frame that keeps its page and pins: the page's bytes are what the frame
    holds, and the frame must be dirty or agree with the disk. *)
Lemma pool_ok_set_frame s L n p f g g' :
  pool_ok s L n → page_table s !! p = Some f → pool s !! f = Some g →
  Page.page_id g' = p → Page.pin_count g' = Page.pin_count g →
  length (Page.data g') = BUSTUBX_PAGE_SIZE →
  (Page.is_dirty g' = false → disk_page (disk_manager s) p = Page.data g') →
  pool_ok (set_pool (<[f := g']> (pool s)) s) L n ∧
  (∀ q, contents (set_pool (<[f := g']> (pool s)) s) q
        = if decide (q = p) then Page.data g' else contents s q).
Proof.
  intros Hs Hp Hg Hid Hpin Hl Hd. pose proof (lookup_lt_Some _ _ _ Hg) as Hlt. split.
  - split; simpl; try apply Hs.
    + by rewrite length_insert, (pool_size _ _ _ Hs).
    + intros q h Hq. destruct (pool_table _ _ _ Hs q h Hq) as (HL & Hfree & gq & Hgq & Hidq & Hrest).
      split_and!; [done..|]. destruct (decide (h = f)) as [->|Hne].
      * assert (q = p) as -> by (by eapply table_inj). exists g'.
        rewrite list_lookup_insert_eq by done. simplify_eq.
        destruct Hrest as (? & ? & (nd & ? & ?) & ?).
        split_and!; [done|done|lia|done| |done]. exists nd. by rewrite Hpin.
      * exists gq. by rewrite list_lookup_insert_ne.
    + split; [apply Hs|]. intros h Hh. rewrite length_insert. by apply Hs.
  - intros q. unfold contents. simpl. destruct (decide (q = p)) as [->|Hne].
    + by rewrite Hp, list_lookup_insert_eq.
    + destruct (page_table s !! q) as [h|] eqn:Hq; [|done].
      rewrite list_lookup_insert_ne; [done|]. intros ->. apply Hne. by eapply table_inj.
Qed.

(** *** Write-back *)
Lemma flush_page_Ok s L n p :
  pool_ok s L n →
  ∃ s', flush_page p s = (s', Ok (if page_table s !! p then true else false)) ∧
    pool_ok s' L n ∧ same_contents L s s' ∧ page_table s' = page_table s ∧
    replacer s' = replacer s ∧ free_list s' = free_list s ∧
    (∀ f g, pool s' !! f = Some g →
       ∃ g0, pool s !! f = Some g0 ∧ g = Page.with_dirty (Page.is_dirty g) g0) ∧
    (p ∈ L → disk_page (disk_manager s') p = contents s' p) ∧
    (∀ q, q ∈ L → q ≠ p → disk_page (disk_manager s') q = disk_page (disk_manager s) q).
Proof.
  intros Hs. unfold flush_page. unfold gets at 1, mbind at 1, SR_bind at 1.
  destruct (page_table s !! p) as [f|] eqn:Hp.
  2:{ exists s. split_and!; try done.
      - intros f g Hg. exists g. split; [done|]. by destruct g.
      - intros HL. unfold contents. by rewrite Hp. }
  destruct (pool_table _ _ _ Hs _ _ Hp) as (HL & Hfree & g & Hg & Hid & Hpin & Hl & Hn & Hd).
  rewrite (SR_bind_Ok _ _ _ _ _ (frame_Ok _ _ _ Hg)).
  destruct (disk_write_spec _ _ _ p (Page.data g) (pool_disk _ _ _ Hs) HL Hl)
    as (d & Hw & Hdok & Hdp & Hdo).
  set (s1 := set_disk d s).
  assert (on_disk (disk_write p (Page.data g)) s = (s1, Ok tt)) as Hon
    by (unfold on_disk; by rewrite Hw).
  rewrite (SR_bind_Ok _ _ _ _ _ Hon).
  rewrite (SR_bind_Ok _ _ _ _ _ (set_frame_Ok s1 f g _ Hg)).
  assert (pool_ok s1 L n) as Hs1.
  { destruct Hs as [H1 H2 H3 H4 H5 H6]. split; simpl; try done.
    intros q h Hq. destruct (H4 q h Hq) as (HLq & Hfr & gq & Hgq & Hidq & ? & ? & ? & Hdq).
    split_and!; [done..|]. exists gq. split_and!; try done. intros Hcl.
    destruct (decide (q = p)) as [->|Hne]; [|by rewrite Hdo, Hdq].
    rewrite Hdp. congruence. }
  destruct (pool_ok_set_frame s1 L n p f g (Page.with_dirty false g) Hs1 Hp Hg Hid eq_refl Hl)
    as [Hok Hc]; [intros _; exact Hdp|].
  exists (set_pool (<[f := Page.with_dirty false g]> (pool s1)) s1).
  assert (same_contents L s (set_pool (<[f := Page.with_dirty false g]> (pool s1)) s1)) as Hsame.
  { intros q Hq. rewrite Hc. unfold contents. simpl. destruct (decide (q = p)) as [->|Hne].
    - by rewrite Hp, Hg.
    - destruct (page_table s !! q); [done|]. by apply Hdo. }
  split_and!; try done.
  - intros h gh. simpl. destruct (decide (h = f)) as [->|Hne].
    + rewrite list_lookup_insert_eq by (by eapply lookup_lt_Some). intros [= <-]. by exists g.
    + rewrite list_lookup_insert_ne by done. intros Hh. exists gh. split; [done|]. by destruct gh.
  - intros _. simpl. rewrite Hdp, Hsame by done. unfold contents. by rewrite Hp, Hg.
Qed.

(** [flush_page] does not look at the replacer. *)
Lemma flush_page_replacer p r s :
  flush_page p (set_replacer r s)
  = let '(s', b) := flush_page p s in (set_replacer r s', b).
Proof.
  destruct s as [pl rp dm pt fl].
  unfold flush_page, gets, mbind, SR_bind, ret, frame, on_disk, set_frame, set_replacer. simpl.
  destruct (pt !! p) as [f|]; [|done]. cbn.
  destruct (index pl f) as [g| |]; [|done..]. cbn.
  destruct (disk_write p (Page.data g) dm) as [d [[]|e|]]; [|done..]. cbn.
  by destruct (pl !! f).
Qed.

(** *** Frames *)

(** The pins of page [p]; a pinned page is in a frame. *)
Definition pins s p : Z :=
  match page_table s !! p with
  | Some f => match pool s !! f with Some g => Page.pin_count g | None => 0 end
  | None => 0
  end.

(** [f] is a frame of the pool that holds no page and is not free. *)
Definition spare s f : Prop :=
  (f < length (pool s))%nat ∧ f ∉ free_list s ∧ ∀ p, page_table s !! p ≠ Some f.

(** The frames that are free or hold a page. *)
Definition held s : nat := length (free_list s) + base.size (page_table s).

(** Nothing but unpinned pages leaving the pool. *)
Record stable (s s' : t D) : Prop := Stable {
  stable_length : length (pool s') = length (pool s);
  stable_pins : ∀ p, pins s' p = pins s p;
  stable_table : ∀ p f, page_table s' !! p = Some f → page_table s !! p = Some f;
}.

Lemma pins_Some s p f g :
  page_table s !! p = Some f → pool s !! f = Some g → pins s p = Page.pin_count g.
Proof. intros Hp Hg. unfold pins. by rewrite Hp, Hg. Qed.

Lemma pins_pos s p : 0 < pins s p → ∃ f, page_table s !! p = Some f.
Proof. unfold pins. destruct (page_table s !! p) as [f|]; [by exists f|lia]. Qed.

Lemma stable_pinned s s' p f :
  stable s s' → page_table s !! p = Some f → 0 < pins s p → page_table s' !! p = Some f.
Proof.
  intros Hst Hp Hpin. rewrite <- (stable_pins _ _ Hst) in Hpin.
  apply pins_pos in Hpin as [h Hh]. pose proof (stable_table _ _ Hst _ _ Hh). congruence.
Qed.

Lemma evicted_ok s L n p f g r' :
  pool_ok s L n → page_table s !! p = Some f → pool s !! f = Some g → Page.pin_count g = 0 →
  disk_page (disk_manager s) p = Page.data g →
  ReplacerFacts.replacer_ok r' →
  LRUKReplacer.node_store r' = delete f (LRUKReplacer.node_store (replacer s)) →
  LRUKReplacer.replacer_size r' = LRUKReplacer.replacer_size (replacer s) →
  let s' := set_page_table (delete p (page_table s)) (set_replacer r' s) in
  pool_ok s' L n ∧ same_contents L s s' ∧ spare s' f ∧ stable s s'.
Proof.
  intros Hs Hp Hg Hpin Hd Hr Hst Hsz s'. pose proof (pool_table _ _ _ Hs _ _ Hp) as (HL & Hfr & _).
  assert (∀ q h, page_table s !! q = Some h → q ≠ p → h ≠ f) as Hne.
  { intros q h Hq Hqp ->. apply Hqp. by eapply table_inj. }
  split_and!.
  - split; simpl; try apply Hs; [done|by rewrite Hsz, (pool_size _ _ _ Hs)| |].
    + intros q h [Hqp Hq]%lookup_delete_Some.
      destruct (pool_table _ _ _ Hs q h Hq) as (? & ? & gq & ? & ? & ? & ? & (nd & Hnd & ?) & ?).
      split_and!; [done..|]. exists gq. split_and!; try done. exists nd. rewrite Hst.
      split; [|done]. apply lookup_delete_Some. split; [|done]. intros <-. by eapply Hne.
    + intros h nd. rewrite Hst. intros [Hhf Hnd]%lookup_delete_Some.
      destruct (pool_nodes _ _ _ Hs h nd Hnd) as [q Hq]. exists q.
      apply lookup_delete_Some. split; [|done]. intros <-. congruence.
  - intros q Hq. unfold contents. simpl. destruct (decide (q = p)) as [->|Hqp].
    + by rewrite lookup_delete_eq, Hp, Hg.
    + by rewrite lookup_delete_ne.
  - split_and!; simpl; [by eapply lookup_lt_Some|done|].
    intros q [Hqp Hq]%lookup_delete_Some. by eapply Hne.
  - split; simpl; [done| |].
    + intros q. unfold pins. simpl. destruct (decide (q = p)) as [->|Hqp].
      * by rewrite lookup_delete_eq, Hp, Hg.
      * by rewrite lookup_delete_ne.
    + by intros q h [_ Hq]%lookup_delete_Some.
Qed.

Lemma flush_stable s s' :
  page_table s' = page_table s →
  (∀ f g, pool s' !! f = Some g →
     ∃ g0, pool s !! f = Some g0 ∧ g = Page.with_dirty (Page.is_dirty g) g0) →
  length (pool s') = length (pool s) → stable s s'.
Proof.
  intros Ht Hpool Hl. split; [done| |by rewrite Ht].
  intros q. unfold pins. rewrite Ht. destruct (page_table s !! q) as [f|]; [|done].
  destruct (pool s' !! f) as [g|] eqn:Hg.
  - by destruct (Hpool f g Hg) as (g0 & -> & ->).
  - apply lookup_ge_None in Hg. rewrite Hl in Hg. apply lookup_ge_None in Hg. by rewrite Hg.
Qed.

Lemma flush_length s L n p s' b :
  pool_ok s L n → flush_page p s = (s', b) → length (pool s') = length (pool s).
Proof.
  intros Hs. unfold flush_page, gets, mbind, SR_bind, ret, frame, on_disk, set_frame. simpl.
  destruct (page_table s !! p) as [f|]; [|by intros [= <- _]].
  destruct (index (pool s) f) as [g| |]; [|by intros [= <- _]..].
  destruct (disk_write p (Page.data g) (disk_manager s)) as [d [[]|e|]]; [|by intros [= <- _]..].
  simpl. destruct (pool s !! f); intros [= <- _]; simpl; [by rewrite length_insert|done].
Qed.

Lemma stable_trans s1 s2 s3 : stable s1 s2 → stable s2 s3 → stable s1 s3.
Proof.
  intros [L1 P1 T1] [L2 P2 T2]. split; [congruence| |auto]. intros p. by rewrite P2.
Qed.

Lemma same_contents_trans L s1 s2 s3 :
  same_contents L s1 s2 → same_contents L s2 s3 → same_contents L s1 s3.
Proof. intros H1 H2 p Hp. by rewrite H2, H1. Qed.

(** Can a frame be found? *)
Definition available s : bool :=
  negb ((length (free_list s) =? 0)%nat && (LRUKReplacer.size (replacer s) =? 0)%nat).

(** A frame from the free list. *)
Lemma allocate_free_Ok s L n f free' :
  pool_ok s L n → quiet s → free_list s = f :: free' →
  let s' := set_free_list free' s in
  pool_ok s' L n ∧ quiet s' ∧ same_contents L s s' ∧ spare s' f ∧ stable s s' ∧ held s = S (held s').
Proof.
  intros Hs Hq Hfree. destruct (pool_free _ _ _ Hs) as [Hnd Hlt].
  rewrite Hfree in Hnd, Hlt. apply NoDup_cons in Hnd as [Hf Hnd].
  assert (∀ p h, page_table s !! p = Some h → h ∉ f :: free') as Hno.
  { intros p h Hp. destruct (pool_table _ _ _ Hs _ _ Hp) as (_ & Hn & _). by rewrite Hfree in Hn. }
  split_and!; try done.
  - split; simpl; try apply Hs.
    + intros p h Hp. destruct (pool_table _ _ _ Hs _ _ Hp) as (? & Hn & ?).
      split_and!; [done| |done]. specialize (Hno p h Hp). by apply not_elem_of_cons in Hno as [_ ?].
    + split; [done|]. intros h Hh. apply Hlt. by right.
  - split_and!; simpl; [apply Hlt; by left|done|].
    intros p Hp. apply Hno in Hp. apply Hp. by left.
  - unfold held. simpl. by rewrite Hfree.
Qed.

(** The page in a frame that is evicted is written back if it is dirty. *)
Lemma write_back_Ok s L n r' f p g :
  pool_ok s L n → page_table s !! p = Some f → p ∈ L → pool s !! f = Some g → Page.page_id g = p →
  Page.pin_count g = 0 → (Page.is_dirty g = false → disk_page (disk_manager s) p = Page.data g) →
  ∃ s0 b, (if Page.is_dirty g then _ ← flush_page (Page.page_id g); ret tt else ret tt)
      (set_replacer r' s) = (set_replacer r' s0, Ok b) ∧
    pool_ok s0 L n ∧ same_contents L s s0 ∧ page_table s0 = page_table s ∧
    replacer s0 = replacer s ∧ free_list s0 = free_list s ∧ stable s s0 ∧
    ∃ g0, pool s0 !! f = Some g0 ∧ Page.pin_count g0 = 0 ∧ disk_page (disk_manager s0) p = Page.data g0.
Proof.
  intros Hs Hp HL Hg Hid Hpin0 Hcl. destruct (Page.is_dirty g) eqn:Hdirty.
  - destruct (flush_page_Ok s L n p Hs) as (s0 & Hfl & Hok0 & Hc0 & Ht0 & Hr0 & Hfl0 & Hf0 & Hd0 & _).
    exists s0, tt. rewrite Hid. unfold mbind, SR_bind, ret.
    rewrite flush_page_replacer, Hfl. split; [done|].
    pose proof (flush_length _ _ _ _ _ _ Hs Hfl) as Hlen.
    pose proof (flush_stable s s0 Ht0 Hf0 Hlen) as Hstab. split_and!; try done.
    destruct (lookup_lt_is_Some_2 (pool s0) f) as [g0 Hg0];
      [rewrite Hlen; by eapply lookup_lt_Some|].
    exists g0. destruct (Hf0 f g0 Hg0) as (g1 & Hg1 & E). simplify_eq.
    split_and!; [done|by rewrite E|]. rewrite Hd0 by done. unfold contents.
    by rewrite Ht0, Hp, Hg0.
  - exists s, tt. split; [done|]. split_and!; try done. exists g. auto.
Qed.

(** When a frame can be had and none is free, the replacer has one, with an unpinned
    page. *)
Lemma evict_available s L n :
  pool_ok s L n → quiet s → free_list s = [] → available s = true →
  ∃ r' f p g, LRUKReplacer.evict (replacer s) = Ok (r', Some f) ∧
    page_table s !! p = Some f ∧ p ∈ L ∧ pool s !! f = Some g ∧ Page.page_id g = p ∧ Page.pin_count g = 0 ∧
    (Page.is_dirty g = false → disk_page (disk_manager s) p = Page.data g) ∧ ReplacerFacts.replacer_ok r' ∧
    LRUKReplacer.node_store r' = delete f (LRUKReplacer.node_store (replacer s)) ∧
    LRUKReplacer.current_timestamp r' = LRUKReplacer.current_timestamp (replacer s) ∧
    LRUKReplacer.replacer_size r' = LRUKReplacer.replacer_size (replacer s).
Proof.
  intros Hs Hq Hfree Hav. unfold available in Hav. rewrite Hfree in Hav. cbn [length Nat.eqb andb] in Hav.
  destruct (ReplacerFacts.evict_order_spec (replacer s) _ (pool_replacer _ _ _ Hs) Hq ltac:(reflexivity))
    as [(r' & f & He & Hv & Hrok & Hst & Hts & _ & Hsz & _)|[He Hnone]].
  - destruct Hv as (nd & Hnd & Hev & _). destruct (pool_nodes _ _ _ Hs f nd Hnd) as [p Hp].
    destruct (pool_table _ _ _ Hs p f Hp) as (HL & Hfr & g & Hg & Hid & Hpin & Hl & (nd' & Hnd' & Hev') & Hcl).
    exists r', f, p, g. split_and!; try done. apply Z.eqb_eq. rewrite <- Hev'. by simplify_eq.
  - exfalso. unfold LRUKReplacer.size in Hav.
    rewrite (ReplacerFacts.replacer_count _ (pool_replacer _ _ _ Hs)) in Hav.
    assert (ReplacerFacts.evictable_nodes (LRUKReplacer.node_store (replacer s)) = ∅) as Hem.
    { apply map_empty. intros f.
      destruct (ReplacerFacts.evictable_nodes _ !! f) as [nd|] eqn:Hf; [|done].
      apply ReplacerFacts.evictable_lookup in Hf as [Hf Hn]. by rewrite (Hnone _ _ Hf) in Hn. }
    by rewrite Hem, map_size_empty in Hav.
Qed.

Lemma allocate_frame_Ok s L n :
  pool_ok s L n → quiet s → available s = true →
  ∃ s' f, allocate_frame s = (s', Ok f) ∧ pool_ok s' L n ∧ quiet s' ∧ same_contents L s s' ∧
    spare s' f ∧ stable s s' ∧ held s = S (held s').
Proof.
  intros Hs Hq Hav. unfold allocate_frame. unfold gets at 1, mbind at 1, SR_bind at 1.
  destruct (free_list s) as [|f free'] eqn:Hfree.
  2:{ exists (set_free_list free' s), f. split; [done|]. by apply allocate_free_Ok. }
  destruct (evict_available s L n Hs Hq Hfree Hav)
    as (r' & f & p & g & He & Hp & HL & Hg & Hid & Hpin0 & Hcl & Hrok & Hst & Hts & Hsz).
  unfold evict_frame. unfold mbind at 1, SR_bind at 1. rewrite He.
  rewrite (SR_bind_Ok _ _ _ _ _ (frame_Ok (set_replacer r' s) f g Hg)).
  destruct (write_back_Ok s L n r' f p g Hs Hp HL Hg Hid Hpin0 Hcl) as
    (s0 & [] & Hrun & Hs0 & Hc0 & Ht0 & Hr0 & Hfl0 & Hstab & g0 & Hg0 & Hpin00 & Hd0).
  rewrite (SR_bind_Ok _ _ _ _ _ Hrun). unfold modify at 1, mbind at 1, SR_bind at 1.
  rewrite <- Hr0 in Hst, Hsz. rewrite <- Ht0 in Hp.
  destruct (evicted_ok s0 L n p f g0 r' Hs0 Hp Hg0 Hpin00 Hd0 Hrok Hst Hsz)
    as (Hok & Hsame & Hspare & Hstab').
  rewrite Hid. simpl. eexists _, f. split; [reflexivity|].
  split_and!; [exact Hok| | |done| |].
  - unfold quiet, ReplacerFacts.early in *. simpl. by rewrite Hts.
  - by eapply same_contents_trans.
  - by eapply stable_trans.
  - unfold held. simpl. rewrite Hfl0, <- Ht0, map_size_delete, Hp.
    enough (base.size (page_table s0) ≠ 0%nat) by lia.
    intros Hz%map_size_empty_iff. by rewrite Hz, lookup_empty in Hp.
Qed.

Definition timestamp s : Z := LRUKReplacer.current_timestamp (replacer s).

(** A spare frame leaves room for a replacer node. *)
Lemma spare_room s L n f :
  pool_ok s L n → spare s f →
  (base.size (LRUKReplacer.node_store (replacer s)) < LRUKReplacer.replacer_size (replacer s))%nat ∧
  LRUKReplacer.node_store (replacer s) !! f = None.
Proof.
  intros Hs (Hlt & _ & Hno).
  assert (LRUKReplacer.node_store (replacer s) !! f = None) as Hnone.
  { destruct (LRUKReplacer.node_store (replacer s) !! f) as [nd|] eqn:Hf; [|done].
    destruct (pool_nodes _ _ _ Hs f nd Hf) as [p Hp]. by apply Hno in Hp. }
  split; [|done]. rewrite (pool_size _ _ _ Hs).
  assert (dom (LRUKReplacer.node_store (replacer s)) ⊆ (set_seq 0 (length (pool s)) : gset nat) ∖ {[f]})
    as Hsub.
  { intros h Hh. apply elem_of_dom in Hh as [nd Hh].
    destruct (pool_nodes _ _ _ Hs h nd Hh) as [p Hp].
    destruct (pool_table _ _ _ Hs p h Hp) as (_ & _ & g & Hg & _).
    apply lookup_lt_Some in Hg. apply elem_of_difference. split; [apply elem_of_set_seq; lia|].
    apply not_elem_of_singleton. intros ->. congruence. }
  apply subseteq_size in Hsub. rewrite size_dom in Hsub.
  rewrite size_difference in Hsub by (apply singleton_subseteq_l, elem_of_set_seq; lia).
  rewrite size_singleton, size_set_seq in Hsub. lia.
Qed.

(** Putting a clean page of the disk in a spare frame, pinned once. *)
Lemma install_Ok s L n p f u :
  pool_ok s L n → quiet s → spare s f → page_table s !! p = None → p ∈ L →
  (∀ g, u g = Page.Mk p (disk_page (disk_manager s) p) 1 false) →
  ∃ s', (_ ← set_frame f u; pin_new_frame f)
          (set_page_table (<[p := f]> (page_table s)) s) = (s', Ok f) ∧
    pool_ok s' L n ∧ same_contents L s s' ∧
    page_table s' = <[p := f]> (page_table s) ∧ length (pool s') = length (pool s) ∧
    (∀ q, pins s' q = if decide (q = p) then 1 else pins s q) ∧
    timestamp s' = timestamp s + 1 ∧ held s' = S (held s).
Proof.
  intros Hs Hq Hsp Hp HL Hu. destruct (spare_room s L n f Hs Hsp) as [Hroom Hnone].
  pose proof Hsp as (Hlt & Hfr & Hno).
  destruct (lookup_lt_is_Some_2 (pool s) f Hlt) as [g0 Hg0].
  set (g := Page.Mk p (disk_page (disk_manager s) p) 1 false).
  destruct (disk_live _ _ _ p (pool_disk _ _ _ Hs) HL) as (_ & _ & Hlen).
  destruct (ReplacerFacts.record_access_ok (replacer s) f (pool_replacer _ _ _ Hs) Hq)
    as (r1 & Hr1 & Hok1 & Hst1 & Hts1 & _ & Hsz1 & _); [by right|].
  destruct (ReplacerFacts.set_evictable_ok r1 f
    (LRUKNode.record_access (ReplacerFacts.node_before (replacer s) f)
       (LRUKReplacer.current_timestamp (replacer s))) false Hok1)
    as (r2 & Hr2 & Hok2 & Hst2 & Hts2 & _ & Hsz2); [by rewrite Hst1, lookup_insert_eq|].
  assert (∀ q h, page_table s !! q = Some h → q ≠ p ∧ h ≠ f) as Hne.
  { intros q h Hqt. split; intros ->; [congruence|by apply Hno in Hqt]. }
  exists (Mk (<[f := g]> (pool s)) r2 (disk_manager s) (<[p := f]> (page_table s)) (free_list s)).
  split_and!; simpl; try done.
  - rewrite (SR_bind_Ok _ _ _ _ _
      (set_frame_Ok (set_page_table (<[p := f]> (page_table s)) s) f g0 u Hg0)), Hu.
    unfold pin_new_frame, on_replacer, mbind, SR_bind, ret. simpl. rewrite Hr1. simpl.
    by rewrite Hr2.
  - split; simpl; try apply Hs; [done|by rewrite Hsz2, Hsz1, length_insert, (pool_size _ _ _ Hs)| | |].
    + intros q h Hqt. apply lookup_insert_Some in Hqt as [[<- <-]|[Hqp Hqt]].
      * split_and!; [done..|]. exists g. rewrite list_lookup_insert_eq by done.
        split_and!; try done. eexists. rewrite Hst2, lookup_insert_eq. done.
      * destruct (pool_table _ _ _ Hs q h Hqt) as (? & ? & gq & Hgq & ? & ? & ? & (nd & Hnd & ?) & ?).
        destruct (Hne q h Hqt) as [_ Hhf]. split_and!; [done..|]. exists gq.
        rewrite list_lookup_insert_ne by done. split_and!; try done. exists nd.
        by rewrite Hst2, Hst1, !lookup_insert_ne.
    + intros h nd. rewrite Hst2, Hst1. destruct (decide (h = f)) as [->|Hhf].
      * intros _. exists p. by rewrite lookup_insert_eq.
      * rewrite !lookup_insert_ne by done. intros Hnd.
        destruct (pool_nodes _ _ _ Hs h nd Hnd) as [q Hqt]. exists q.
        destruct (Hne q h Hqt) as [? _]. by rewrite lookup_insert_ne.
    + split; [apply Hs|]. intros h Hh. rewrite length_insert. by apply Hs.
  - intros q Hq'. unfold contents. simpl. destruct (decide (q = p)) as [->|Hqp].
    + by rewrite lookup_insert_eq, list_lookup_insert_eq, Hp.
    + rewrite lookup_insert_ne by done. destruct (page_table s !! q) as [h|] eqn:Hqt; [|done].
      destruct (Hne q h Hqt) as [_ ?]. by rewrite list_lookup_insert_ne.
  - by rewrite length_insert.
  - intros q. unfold pins. simpl. destruct (decide (q = p)) as [->|Hqp].
    + by rewrite lookup_insert_eq, list_lookup_insert_eq.
    + rewrite lookup_insert_ne by done. destruct (page_table s !! q) as [h|] eqn:Hqt; [|done].
      destruct (Hne q h Hqt) as [_ ?]. by rewrite list_lookup_insert_ne.
  - unfold timestamp. simpl. congruence.
  - unfold held. simpl. rewrite map_size_insert_None by done. lia.
Qed.

(** Changing the pins of a page. *)
Lemma repin_ok s L n p f g nd r' c :
  pool_ok s L n → page_table s !! p = Some f → pool s !! f = Some g → 0 ≤ c →
  ReplacerFacts.replacer_ok r' →
  LRUKReplacer.node_store r' = <[f := nd]> (LRUKReplacer.node_store (replacer s)) →
  LRUKNode.is_evictable nd = (c =? 0) →
  LRUKReplacer.replacer_size r' = LRUKReplacer.replacer_size (replacer s) →
  let s' := set_replacer r' (set_pool (<[f := Page.with_pin_count c g]> (pool s)) s) in
  pool_ok s' L n ∧ same_contents L s s' ∧
  ∀ q, pins s' q = if decide (q = p) then c else pins s q.
Proof.
  intros Hs Hp Hg Hc Hr Hst Hev Hsz s'. pose proof (lookup_lt_Some _ _ _ Hg) as Hlt.
  assert (∀ q h, page_table s !! q = Some h → q ≠ p → h ≠ f) as Hne.
  { intros q h Hqt Hqp ->. apply Hqp. by eapply table_inj. }
  split_and!.
  - split; simpl; try apply Hs; [done|by rewrite Hsz, length_insert, (pool_size _ _ _ Hs)| | |].
    + intros q h Hqt.
      destruct (pool_table _ _ _ Hs q h Hqt) as (? & ? & gq & Hgq & ? & ? & ? & (nd' & Hnd' & ?) & ?).
      split_and!; [done..|]. destruct (decide (q = p)) as [->|Hqp].
      * simplify_eq. exists (Page.with_pin_count c g).
        rewrite list_lookup_insert_eq by done. split_and!; try done.
        exists nd. by rewrite Hst, lookup_insert_eq.
      * pose proof (Hne q h Hqt Hqp). exists gq. rewrite list_lookup_insert_ne by done.
        split_and!; try done. exists nd'. by rewrite Hst, lookup_insert_ne.
    + intros h nd'. rewrite Hst. destruct (decide (h = f)) as [->|Hhf]; [by exists p|].
      rewrite lookup_insert_ne by done. apply Hs.
    + split; [apply Hs|]. intros h Hh. rewrite length_insert. by apply Hs.
  - intros q Hq'. unfold contents. simpl. destruct (page_table s !! q) as [h|] eqn:Hqt; [|done].
    destruct (decide (q = p)) as [->|Hqp].
    + simplify_eq. by rewrite list_lookup_insert_eq, Hg.
    + by rewrite list_lookup_insert_ne by (by eapply not_eq_sym, Hne).
  - intros q. unfold pins. simpl. destruct (decide (q = p)) as [->|Hqp].
    + by rewrite Hp, list_lookup_insert_eq.
    + destruct (page_table s !! q) as [h|] eqn:Hqt; [|done].
      by rewrite list_lookup_insert_ne by (by eapply not_eq_sym, Hne).
Qed.

(** The disk changes, but no page of the pool does on it. *)
Lemma pool_ok_set_disk s L n d L' n' :
  pool_ok s L n → disk_ok d L' n' →
  (∀ q f, page_table s !! q = Some f → q ∈ L') →
  (∀ q, q ∈ L → q ∈ L' → disk_page d q = disk_page (disk_manager s) q) →
  pool_ok (set_disk d s) L' n' ∧
  ∀ q, q ∈ L → q ∈ L' → contents (set_disk d s) q = contents s q.
Proof.
  intros Hs Hd Hin Hsame. split.
  - split; simpl; try apply Hs; [done|]. intros q f Hq.
    destruct (pool_table _ _ _ Hs q f Hq) as (HL & Hfr & g & Hg & ? & ? & ? & ? & Hcl).
    split_and!; [by eapply Hin|done|]. exists g. split_and!; try done.
    intros Hc. rewrite Hsame; [by apply Hcl|done|by eapply Hin].
  - intros q Hq Hq'. unfold contents. simpl. destruct (page_table s !! q); [done|]. by apply Hsame.
Qed.

(** *** The operations *)
Lemma fetch_page_hit s L n p f :
  pool_ok s L n → page_table s !! p = Some f → pins s p + 1 < 2 ^ 32 →
  ∃ s', fetch_page p s = (s', Ok f) ∧ pool_ok s' L n ∧ same_contents L s s' ∧
    page_table s' = page_table s ∧
    (∀ q, pins s' q = if decide (q = p) then pins s p + 1 else pins s q) ∧
    timestamp s' = timestamp s ∧ length (pool s') = length (pool s) ∧
    held s' = held s.
Proof.
  intros Hs Hp Hmax.
  destruct (pool_table _ _ _ Hs p f Hp) as (HL & Hfr & g & Hg & Hid & Hpin & Hl & (nd & Hnd & Hev) & Hcl).
  rewrite (pins_Some _ _ _ _ Hp Hg) in *.
  destruct (ReplacerFacts.set_evictable_ok (replacer s) f nd false (pool_replacer _ _ _ Hs) Hnd)
    as (r' & Hr' & Hrok & Hrst & Hrts & _ & Hrsz).
  destruct (repin_ok s L n p f g (LRUKNode.set_evictable nd false) r' (Page.pin_count g + 1)
    Hs Hp Hg) as (Hok & Hc & Hpins); [lia|done|done| |done|].
  { simpl. symmetry. apply Z.eqb_neq. lia. }
  eexists. split; [|split; [exact Hok|]].
  - unfold fetch_page. unfold gets at 1, mbind at 1, SR_bind at 1. rewrite Hp.
    rewrite (SR_bind_Ok _ _ _ _ _ (frame_Ok _ _ _ Hg)).
    unfold lift at 1, mbind at 1, SR_bind at 1.
    rewrite checked_Ok by (unfold unsigned_ok; lia).
    rewrite (SR_bind_Ok _ _ _ _ _ (set_frame_Ok _ f g _ Hg)).
    unfold on_replacer, mbind, SR_bind, ret. simpl. by rewrite Hr'.
  - split_and!; try done. simpl. by rewrite length_insert.
Qed.

(** Allocating a frame and its time: only [record_access] advances the clock. *)
Lemma allocate_frame_timestamp s s' f :
  ReplacerFacts.replacer_ok (replacer s) → quiet s →
  allocate_frame s = (s', Ok f) → timestamp s' = timestamp s.
Proof.
  intros Hr Hq. unfold allocate_frame, timestamp.
  unfold gets at 1, mbind at 1, SR_bind at 1. destruct (free_list s) as [|h fl].
  2:{ unfold modify, mbind, SR_bind, ret. by intros [= <- _]. }
  unfold evict_frame. unfold mbind at 1, SR_bind at 1.
  destruct (ReplacerFacts.evict_order_spec (replacer s) _ Hr Hq ltac:(reflexivity))
    as [(r' & f' & He & _ & _ & _ & Hts & _)|[He _]];
    fold (LRUKReplacer.evict (replacer s)) in He; rewrite He; [|done].
  unfold frame. unfold mbind at 1, SR_bind at 1. simpl pool.
  destruct (index (pool s) f') as [g| |]; [|done..].
  destruct (Page.is_dirty g); unfold mbind, SR_bind, ret, modify.
  - rewrite flush_page_replacer.
    destruct (flush_page (Page.page_id g) s) as [s0 [b|e|]]; [|done..]. by intros [= <- _].
  - by intros [= <- _].
Qed.

Lemma fetch_page_miss s L n p :
  pool_ok s L n → quiet s → page_table s !! p = None → p ∈ L → available s = true →
  ∃ s' f s1, fetch_page p s = (s', Ok f) ∧ pool_ok s' L n ∧ same_contents L s s' ∧
    stable s s1 ∧ page_table s' = <[p := f]> (page_table s1) ∧ spare s1 f ∧
    (∀ q, pins s' q = if decide (q = p) then 1 else pins s q) ∧
    timestamp s' = timestamp s + 1 ∧ length (pool s') = length (pool s) ∧
    held s' = held s.
Proof.
  intros Hs Hq Hp HL Hav.
  destruct (allocate_frame_Ok s L n Hs Hq Hav) as (s1 & f & Ha & Hs1 & Hq1 & Hc1 & Hsp & Hstab & Hheld).
  assert (page_table s1 !! p = None) as Hp1.
  { destruct (page_table s1 !! p) as [h|] eqn:Hh; [|done].
    apply (stable_table _ _ Hstab) in Hh. congruence. }
  pose proof (allocate_frame_timestamp _ _ _ (pool_replacer _ _ _ Hs) Hq Ha) as Hts.
  destruct (install_Ok s1 L n p f (λ page, Page.replace page
      (Page.with_data (disk_page (disk_manager s1) p) (Page.with_pin_count 1 (Page.new p))))
      Hs1 Hq1 Hsp Hp1 HL)
    as (s' & Hrun & Hs' & Hc' & Ht' & Hlen & Hpins & Hts' & Hheld'); [done|].
  exists s', f, s1. split_and!; try done.
  - unfold fetch_page. unfold gets at 1, mbind at 1, SR_bind at 1. rewrite Hp.
    rewrite (SR_bind_Ok _ _ _ _ _ Ha). unfold table_insert, modify at 1, mbind at 1, SR_bind at 1.
    unfold on_disk at 1, mbind at 1, SR_bind at 1. simpl disk_manager.
    rewrite (disk_read_spec _ _ _ p (pool_disk _ _ _ Hs1) HL).
    change (set_disk (disk_manager s1) ?x) with x. exact Hrun.
  - by eapply same_contents_trans.
  - intros q. by rewrite Hpins, (stable_pins _ _ Hstab).
  - congruence.
  - rewrite Hlen. apply Hstab.
  - by rewrite Hheld', Hheld.
Qed.

(** With no free frame and nothing to evict, [fetch_page] of a page that is not in the
    pool and [new_page] fail and change nothing. *)
Lemma evict_none s L n :
  pool_ok s L n → quiet s → available s = false →
  free_list s = [] ∧ LRUKReplacer.evict (replacer s) = Ok (replacer s, None).
Proof.
  intros Hs Hq Hav. unfold available in Hav. apply negb_false_iff, andb_true_iff in Hav as [Hf Hr].
  apply Nat.eqb_eq, length_zero_iff_nil in Hf. apply Nat.eqb_eq in Hr. split; [done|].
  destruct (ReplacerFacts.evict_order_spec (replacer s) _ (pool_replacer _ _ _ Hs) Hq ltac:(reflexivity))
    as [(r' & f & _ & _ & _ & _ & _ & _ & _ & Hsz)|[He _]]; [|done].
  unfold LRUKReplacer.size in Hr. lia.
Qed.

Lemma fetch_page_full s L n p :
  pool_ok s L n → quiet s → page_table s !! p = None → available s = false →
  fetch_page p s = (s, Err (Storage "Cannot allocate free frame")).
Proof.
  intros Hs Hq Hp Hav. destruct (evict_none s L n Hs Hq Hav) as [Hf He].
  unfold fetch_page, allocate_frame, evict_frame, gets, mbind, SR_bind, fail. rewrite Hp, Hf. simpl.
  rewrite He. by destruct s.
Qed.

Lemma new_page_full s :
  available s = false →
  new_page s
  = (s, Err (Storage "Cannot new page because buffer pool is full and no page to evict")).
Proof.
  intros Hav. unfold available in Hav. apply negb_false_iff in Hav.
  unfold new_page, gets, mbind, SR_bind. by rewrite Hav.
Qed.

Lemma new_page_Ok s L n :
  pool_ok s L (S n) → quiet s → available s = true →
  ∃ s' f p s1, new_page s = (s', Ok f) ∧ p ∉ L ∧ pool_ok s' ({[p]} ∪ L) n ∧
    same_contents L s s' ∧ contents s' p = EMPTY_PAGE ∧
    stable s s1 ∧ page_table s' = <[p := f]> (page_table s1) ∧ spare s1 f ∧
    (∀ q, pins s' q = if decide (q = p) then 1 else pins s q) ∧
    timestamp s' = timestamp s + 1 ∧ length (pool s') = length (pool s) ∧
    held s' = held s.
Proof.
  intros Hs Hq Hav.
  destruct (allocate_frame_Ok s L _ Hs Hq Hav) as (s1 & f & Ha & Hs1 & Hq1 & Hc1 & Hsp & Hstab & Hheld).
  pose proof (allocate_frame_timestamp _ _ _ (pool_replacer _ _ _ Hs) Hq Ha) as Hts.
  destruct (disk_allocate_spec _ _ _ (pool_disk _ _ _ Hs1)) as (d & p & Hd & HpL & Hdok & Hz & Hdq).
  assert (∀ q h, page_table s1 !! q = Some h → q ∈ L) as HinL
    by (intros q h Hqh; by destruct (pool_table _ _ _ Hs1 q h Hqh)).
  destruct (pool_ok_set_disk s1 L (S n) d ({[p]} ∪ L) n Hs1 Hdok) as [Hs2 Hc2].
  { intros q h Hqh. apply elem_of_union_r. by eapply HinL. }
  { intros q HqL _. by apply Hdq. }
  assert (page_table (set_disk d s1) !! p = None) as Hp1.
  { simpl. destruct (page_table s1 !! p) as [h|] eqn:Hh; [|done]. by apply HinL in Hh. }
  destruct (install_Ok (set_disk d s1) ({[p]} ∪ L) n p f (λ page, Page.replace page
      (Page.with_pin_count 1 (Page.new p))) Hs2 Hq1 Hsp Hp1)
    as (s' & Hrun & Hs' & Hc' & Ht' & Hlen & Hpins & Hts' & Hheld'); [set_solver| |].
  { intros g. unfold Page.replace, Page.with_pin_count. simpl. by rewrite Hz. }
  exists s', f, p, s1. split_and!; try done.
  - unfold new_page. unfold gets at 1, mbind at 1, SR_bind at 1.
    unfold gets at 1, mbind at 1, SR_bind at 1. unfold available in Hav.
    apply negb_true_iff in Hav. rewrite Hav. rewrite (SR_bind_Ok _ _ _ _ _ Ha).
    assert (allocate_page_unwrap s1 = (set_disk d s1, Ok p)) as Hall
      by (unfold allocate_page_unwrap, on_disk; by rewrite Hd).
    rewrite (SR_bind_Ok _ _ _ _ _ Hall).
    unfold table_insert, modify at 1, mbind at 1, SR_bind at 1. exact Hrun.
  - intros q HqL. rewrite Hc', Hc2, Hc1 by set_solver. done.
  - rewrite Hc' by set_solver. unfold contents. by rewrite Hp1.
  - intros q. rewrite Hpins. destruct (decide (q = p)); [done|]. apply (stable_pins _ _ Hstab).
  - rewrite Hts', <- Hts. done.
  - rewrite Hlen. apply Hstab.
  - by rewrite Hheld', Hheld.
Qed.

Lemma set_page_data_Ok s L n p f data :
  pool_ok s L n → page_table s !! p = Some f → length data = BUSTUBX_PAGE_SIZE →
  ∃ s', set_page_data f data s = (s', Ok tt) ∧ pool_ok s' L n ∧
    (∀ q, contents s' q = if decide (q = p) then data else contents s q) ∧
    page_table s' = page_table s ∧ (∀ q, pins s' q = pins s q) ∧
    timestamp s' = timestamp s ∧ length (pool s') = length (pool s) ∧
    held s' = held s.
Proof.
  intros Hs Hp Hl.
  destruct (pool_table _ _ _ Hs p f Hp) as (HL & _ & g & Hg & Hid & _).
  destruct (pool_ok_set_frame s L n p f g (Page.set_data data g) Hs Hp Hg Hid eq_refl Hl)
    as [Hok Hc]; [done|].
  eexists. split; [by apply set_frame_Ok|]. split_and!; try done.
  - intros q. unfold pins. simpl. destruct (page_table s !! q) as [h|]; [|done].
    rewrite list_lookup_insert. case_decide as Hh; [|done]. destruct Hh as [<- _]. by rewrite Hg.
  - simpl. by rewrite length_insert.
Qed.

Lemma drop_page_ref_Ok s L n p f :
  pool_ok s L n → page_table s !! p = Some f → 0 < pins s p < 2 ^ 32 →
  ∃ s', drop_page_ref f s = (s', Ok tt) ∧ pool_ok s' L n ∧ same_contents L s s' ∧
    page_table s' = page_table s ∧
    (∀ q, pins s' q = if decide (q = p) then pins s p - 1 else pins s q) ∧
    timestamp s' = timestamp s ∧ length (pool s') = length (pool s) ∧
    held s' = held s.
Proof.
  intros Hs Hp Hpos.
  destruct (pool_table _ _ _ Hs p f Hp) as (HL & Hfr & g & Hg & Hid & Hpin & Hl & (nd & Hnd & Hev) & Hcl).
  rewrite (pins_Some _ _ _ _ Hp Hg) in *.
  unfold drop_page_ref. rewrite (SR_bind_Ok _ _ _ _ _ (frame_Ok _ _ _ Hg)).
  destruct (Z.eqb_spec (Page.pin_count g) 0); [lia|].
  unfold gets at 1, mbind at 1, SR_bind at 1. rewrite Hid, Hp.
  unfold lift at 1, mbind at 1, SR_bind at 1. rewrite checked_Ok by (unfold unsigned_ok; lia).
  rewrite (SR_bind_Ok _ _ _ _ _ (set_frame_Ok _ f g _ Hg)).
  destruct (Z.eqb_spec (Page.pin_count g - 1) 0) as [Hz|Hz].
  - destruct (ReplacerFacts.set_evictable_ok (replacer s) f nd true (pool_replacer _ _ _ Hs) Hnd)
      as (r' & Hr' & Hrok & Hrst & Hrts & _ & Hrsz).
    destruct (repin_ok s L n p f g (LRUKNode.set_evictable nd true) r' (Page.pin_count g - 1)
      Hs Hp Hg) as (Hok & Hc & Hpins); [lia|done|done|by rewrite Hz|done|].
    eexists. split; [|split; [exact Hok|]].
    + unfold make_evictable. simpl. by rewrite Hr'.
    + split_and!; try done. simpl. by rewrite length_insert.
  - destruct (repin_ok s L n p f g nd (replacer s) (Page.pin_count g - 1) Hs Hp Hg)
      as (Hok & Hc & Hpins); [lia|apply Hs|by rewrite insert_id|..|done|].
    + rewrite Hev. destruct (Z.eqb_spec (Page.pin_count g) 0); [lia|].
      symmetry. by apply Z.eqb_neq.
    + eexists. split; [reflexivity|split; [exact Hok|]].
      split_and!; try done. simpl. by rewrite length_insert.
Qed.

Lemma flush_pages_Ok ps : ∀ s L n,
  pool_ok s L n →
  ∃ s', flush_pages ps s = (s', Ok tt) ∧ pool_ok s' L n ∧ same_contents L s s' ∧
    page_table s' = page_table s ∧ free_list s' = free_list s ∧
    stable s s' ∧ replacer s' = replacer s ∧
    ∀ q, q ∈ L → q ∈ ps ∨ disk_page (disk_manager s) q = contents s q →
      disk_page (disk_manager s') q = contents s' q.
Proof.
  induction ps as [|p ps IH]; intros s L n Hs; simpl.
  { exists s. split_and!; try done. intros q _ [Hq|Hq]; [by apply not_elem_of_nil in Hq|done]. }
  destruct (flush_page_Ok s L n p Hs) as (s1 & Hf & Hs1 & Hc1 & Ht1 & Hr1 & Hfl1 & Hp1 & Hd1 & Hdo).
  rewrite (SR_bind_Ok _ _ _ _ _ Hf).
  pose proof (flush_stable s s1 Ht1 Hp1 (flush_length _ _ _ _ _ _ Hs Hf)) as Hst1.
  destruct (IH s1 L n Hs1) as (s2 & Hf2 & Hs2 & Hc2 & Ht2 & Hfl2 & Hst2 & Hr2 & Hd2).
  exists s2. split_and!; try done; [by eapply same_contents_trans|by rewrite Ht2
    |by rewrite Hfl2|by eapply stable_trans|by rewrite Hr2|].
  intros q HL Hq. apply Hd2; [done|]. destruct (decide (q = p)) as [->|Hne]; [right; by apply Hd1|].
  destruct Hq as [Hq|Hq].
  - apply elem_of_cons in Hq as [->|Hq]; [done|by left].
  - right. rewrite Hdo, Hc1 by done. done.
Qed.

Lemma flush_all_pages_Ok s L n :
  pool_ok s L n →
  ∃ s', flush_all_pages s = (s', Ok tt) ∧ pool_ok s' L n ∧ same_contents L s s' ∧
    page_table s' = page_table s ∧ free_list s' = free_list s ∧
    stable s s' ∧ replacer s' = replacer s ∧
    ∀ q, q ∈ L → disk_page (disk_manager s') q = contents s' q.
Proof.
  intros Hs.
  destruct (flush_pages_Ok (map_to_list (page_table s)).*1 s L n Hs)
    as (s' & Hf & Hs' & Hc & Ht & Hfl & Hst & Hr & Hd).
  exists s'. split_and!; try done. intros q HL. apply Hd; [done|].
  destruct (page_table s !! q) as [f|] eqn:Hq.
  - left. apply list_elem_of_fmap. exists (q, f). split; [done|]. by apply elem_of_map_to_list.
  - right. unfold contents. by rewrite Hq.
Qed.

Lemma delete_page_pinned s L n p :
  pool_ok s L n → 0 < pins s p → delete_page p s = (s, Ok false).
Proof.
  intros Hs Hpos. destruct (pins_pos _ _ Hpos) as [f Hp].
  destruct (pool_table _ _ _ Hs p f Hp) as (_ & _ & g & Hg & _).
  rewrite (pins_Some _ _ _ _ Hp Hg) in Hpos.
  unfold delete_page. unfold gets at 1, mbind at 1, SR_bind at 1. rewrite Hp.
  rewrite (SR_bind_Ok _ _ _ _ _ (frame_Ok _ _ _ Hg)).
  destruct (Z.ltb_spec 0 (Page.pin_count g)); [done|lia].
Qed.

Lemma delete_page_uncached p s : page_table s !! p = None → delete_page p s = (s, Ok true).
Proof.
  intros Hp. unfold delete_page. unfold gets at 1, mbind at 1, SR_bind at 1. by rewrite Hp.
Qed.

Lemma destroyed_ok s L n p f g r' :
  pool_ok s L n → page_table s !! p = Some f → pool s !! f = Some g → Page.pin_count g = 0 →
  ReplacerFacts.replacer_ok r' →
  LRUKReplacer.node_store r' = delete f (LRUKReplacer.node_store (replacer s)) →
  LRUKReplacer.replacer_size r' = LRUKReplacer.replacer_size (replacer s) →
  let s' := Mk (<[f := Page.destroy g]> (pool s)) r' (disk_manager s)
              (delete p (page_table s)) (free_list s ++ [f]) in
  pool_ok s' L n ∧ stable s s' ∧
  ∀ q, q ∈ L → q ≠ p → contents s' q = contents s q.
Proof.
  intros Hs Hp Hg Hpin Hr Hst Hsz s'.
  pose proof (pool_table _ _ _ Hs _ _ Hp) as (HL & Hfr & _).
  assert (∀ q h, page_table s !! q = Some h → q ≠ p → h ≠ f) as Hne.
  { intros q h Hq Hqp ->. apply Hqp. by eapply table_inj. }
  split_and!.
  - split; simpl; try apply Hs; [done|by rewrite Hsz, length_insert, (pool_size _ _ _ Hs)| | |].
    + intros q h [Hqp Hq]%lookup_delete_Some.
      destruct (pool_table _ _ _ Hs q h Hq) as (? & Hqf & gq & ? & ? & ? & ? & (nd & Hnd & ?) & ?).
      pose proof (Hne q h Hq (not_eq_sym Hqp)) as Hhf. split_and!; [done| |].
      * rewrite elem_of_app, list_elem_of_singleton. by intros [?|?].
      * exists gq. rewrite list_lookup_insert_ne by done. split_and!; try done. exists nd.
        by rewrite Hst, lookup_delete_ne.
    + intros h nd. rewrite Hst. intros [Hhf Hnd]%lookup_delete_Some.
      destruct (pool_nodes _ _ _ Hs h nd Hnd) as [q Hq]. exists q.
      apply lookup_delete_Some. split; [|done]. intros <-. congruence.
    + destruct (pool_free _ _ _ Hs) as [Hnd Hlt]. split.
      * apply NoDup_app. split_and!; [done| |apply NoDup_singleton].
        intros h Hh ->%list_elem_of_singleton. done.
      * intros h. rewrite elem_of_app, list_elem_of_singleton, length_insert.
        intros [Hh| ->]; [by apply Hlt|by eapply lookup_lt_Some].
  - split; simpl; [by rewrite length_insert| |by intros q h [_ Hq]%lookup_delete_Some].
    intros q. unfold pins. simpl. destruct (decide (q = p)) as [->|Hqp].
    + by rewrite lookup_delete_eq, Hp, Hg.
    + rewrite lookup_delete_ne by done. destruct (page_table s !! q) as [h|] eqn:Hq; [|done].
      rewrite list_lookup_insert_ne; [done|]. by eapply not_eq_sym, Hne.
  - intros q HqL Hqp. unfold contents. simpl. rewrite lookup_delete_ne by done.
    destruct (page_table s !! q) as [h|] eqn:Hq; [|done].
    rewrite list_lookup_insert_ne; [done|]. by eapply not_eq_sym, Hne.
Qed.

Lemma delete_page_Ok s L n p f :
  pool_ok s L (S n) → page_table s !! p = Some f → pins s p = 0 →
  ∃ s', delete_page p s = (s', Ok true) ∧ pool_ok s' (L ∖ {[p]}) n ∧ stable s s' ∧
    page_table s' = delete p (page_table s) ∧ timestamp s' = timestamp s ∧ held s' = held s ∧
    ∀ q, q ∈ L → q ≠ p → contents s' q = contents s q.
Proof.
  intros Hs Hp Hpin.
  destruct (pool_table _ _ _ Hs p f Hp) as (HL & Hfr & g & Hg & Hid & _ & Hl & (nd & Hnd & Hev) & Hcl).
  rewrite (pins_Some _ _ _ _ Hp Hg) in Hpin. rewrite Hpin in Hev.
  destruct (ReplacerFacts.remove_ok (replacer s) f nd (pool_replacer _ _ _ Hs) Hnd Hev)
    as (r' & Hr' & Hrok & Hrst & _ & Hrts & Hrsz & _).
  destruct (destroyed_ok s L (S n) p f g r' Hs Hp Hg Hpin Hrok Hrst Hrsz) as (Hok & Hst & Hc).
  set (s1 := Mk _ _ _ _ _) in *.
  assert (∃ d, disk_deallocate p (disk_manager s) = (d, Ok tt) ∧ disk_ok d (L ∖ {[p]}) n ∧
    ∀ q, q ∈ L ∖ {[p]} → disk_page d q = disk_page (disk_manager s) q) as (d & Hd & Hdok & Hdq).
  { apply disk_deallocate_spec; [|set_solver].
    rewrite <- union_difference_singleton_L by done. apply Hs. }
  destruct (pool_ok_set_disk s1 L (S n) d (L ∖ {[p]}) n Hok Hdok) as [Hok2 Hc2].
  { subst s1. simpl. intros q h [Hqp Hq]%lookup_delete_Some.
    destruct (pool_table _ _ _ Hs q h Hq) as [HqL _]. set_solver. }
  { intros q _ Hq. by apply Hdq. }
  exists (set_disk d s1). split_and!; try done.
  - unfold delete_page. unfold gets at 1, mbind at 1, SR_bind at 1. rewrite Hp.
    rewrite (SR_bind_Ok _ _ _ _ _ (frame_Ok _ _ _ Hg)), Hpin. cbn [Z.ltb Z.compare].
    rewrite (SR_bind_Ok _ _ _ _ _ (set_frame_Ok _ f g _ Hg)).
    unfold modify, on_replacer, on_disk, mbind, SR_bind, ret. simpl. rewrite Hr'. simpl.
    by rewrite Hd.
  - split; [|apply Hst|apply Hst]. by rewrite <- (stable_length _ _ Hst).
  - unfold held. simpl. rewrite length_app, map_size_delete, Hp. simpl.
    enough (base.size (page_table s) ≠ 0%nat) by lia.
    intros Hz%map_size_empty_iff. by rewrite Hz, lookup_empty in Hp.
  - intros q HqL Hqp. rewrite Hc2 by set_solver. by apply Hc.
Qed.

(** A new pool shows the pages of the disk. *)
Lemma new_pool_ok d L n num_pages :
  disk_ok d L n → pool_ok (new num_pages d) L n ∧ timestamp (new num_pages d) = 0 ∧
    (∀ p, contents (new num_pages d) p = disk_page d p) ∧ ∀ p, pins (new num_pages d) p = 0.
Proof.
  intros Hd. split_and!; [|done|intros p; unfold contents|intros p; unfold pins];
    [|simpl; by rewrite lookup_empty..].
  split; simpl; [done|apply ReplacerFacts.new_ok; lia|by rewrite length_replicate|..].
  - intros p f. by rewrite lookup_empty.
  - intros f nd. by rewrite lookup_empty.
  - split; [apply NoDup_seq|]. intros f Hf%elem_of_seq. rewrite length_replicate. lia.
Qed.

End facts.
End BufferPoolFacts.
