(* ===== verification/PageStore.v ===== *)
(** * PageStore: what the buffer pool promises

    The contract of [bustubx/src/buffer/buffer_pool.rs] and its proof. A store has
    pages with their bytes and pinned frames with their reference counts; [step] says
    what each call may answer and change. [shows] relates a pool to the store its
    clients see; [store_new], [store_fetch], [store_write], [store_drop] are what
    the code above the pool relies on. *)
From S2P Require Import Prelude CommonCodec TablePage DiskPages DiskManager Replacer BufferPool.
Local Open Scope Z_scope.

(** ** The store a client sees

    The contract of the pool: pages with their bytes, and the pinned frames with the
    page and the number of references of each. *)
Module PageStore.
Import BufferPoolManager.

Record t := Mk {
  frames : nat;
  pages : gmap Z (list Z);
  refs : gmap FrameId (Z * Z);
}.

Definition set_pages (x : gmap Z (list Z)) (st : t) : t := Mk (frames st) x (refs st).
Definition set_refs (x : gmap FrameId (Z * Z)) (st : t) : t := Mk (frames st) (pages st) x.

(** Every frame is pinned. *)
Definition full (st : t) : Prop := (frames st ≤ base.size (refs st))%nat.

Inductive op : Type :=
  | New | Fetch (page_id : Z) | Write (frame_id : FrameId) (data : list Z)
  | Drop (frame_id : FrameId) | Flush (page_id : Z) | FlushAll | Delete (page_id : Z).

Inductive answer : Type := Ref (frame_id : FrameId) | Flag (b : bool) | Done.

(** What a client may ask: pages in use, frames it holds a reference to. *)
Inductive legal (st : t) : op → Prop :=
  | legal_new : legal st New
  | legal_fetch p :
      is_Some (pages st !! p) → (∀ f c, refs st !! f = Some (p, c) → c + 1 < 2 ^ 32) →
      legal st (Fetch p)
  | legal_write f p c data :
      refs st !! f = Some (p, c) → length data = BUSTUBX_PAGE_SIZE → legal st (Write f data)
  | legal_drop f p c : refs st !! f = Some (p, c) → c < 2 ^ 32 → legal st (Drop f)
  | legal_flush p : legal st (Flush p)
  | legal_flush_all : legal st FlushAll
  | legal_delete p : is_Some (pages st !! p) → legal st (Delete p).

(** [p] is pinned by nobody. *)
Definition free_page (st : t) (p : Z) : Prop := ∀ f c, refs st !! f ≠ Some (p, c).

Inductive step (st : t) : op → result answer → t → Prop :=
  | step_new p f :
      pages st !! p = None → refs st !! f = None →
      step st New (Ok (Ref f))
        (set_pages (<[p := EMPTY_PAGE]> (pages st)) (set_refs (<[f := (p, 1)]> (refs st)) st))
  | step_fetch_first p f :
      is_Some (pages st !! p) → free_page st p → refs st !! f = None →
      step st (Fetch p) (Ok (Ref f)) (set_refs (<[f := (p, 1)]> (refs st)) st)
  | step_fetch_again p f c :
      refs st !! f = Some (p, c) →
      step st (Fetch p) (Ok (Ref f)) (set_refs (<[f := (p, c + 1)]> (refs st)) st)
  | step_full_new e : full st → step st New (Err (Storage e)) st
  | step_full_fetch p e : full st → free_page st p → step st (Fetch p) (Err (Storage e)) st
  | step_write f p c data :
      refs st !! f = Some (p, c) →
      step st (Write f data) (Ok Done) (set_pages (<[p := data]> (pages st)) st)
  | step_drop f p c :
      refs st !! f = Some (p, c) →
      step st (Drop f) (Ok Done)
        (set_refs (if c =? 1 then delete f (refs st) else <[f := (p, c - 1)]> (refs st)) st)
  | step_flush p b : step st (Flush p) (Ok (Flag b)) st
  | step_flush_all : step st FlushAll (Ok Done) st
  | step_delete p : free_page st p →
      step st (Delete p) (Ok (Flag true)) (set_pages (delete p (pages st)) st)
  | step_delete_not_cached p : free_page st p → step st (Delete p) (Ok (Flag true)) st
  | step_delete_pinned p f c :
      refs st !! f = Some (p, c) → step st (Delete p) (Ok (Flag false)) st.

(** Pages a disk may have to add for an operation. *)
Definition room (o : op) : nat := match o with New | Delete _ => 1 | _ => 0 end.

Section exec.
Context {D : Type} `{DiskLaws D}.

Definition answered {A} (f : A → answer) (m : SR (BufferPoolManager.t D) A) :
    SR (BufferPoolManager.t D) answer :=
  a ← m; ret (f a).

(** The calls of the pool the operations stand for. *)
Definition exec (o : op) : SR (BufferPoolManager.t D) answer :=
  match o with
  | New => answered Ref new_page
  | Fetch p => answered Ref (fetch_page p)
  | Write f data => answered (λ _, Done) (set_page_data f data)
  | Drop f => answered (λ _, Done) (drop_page_ref f)
  | Flush p => answered Flag (flush_page p)
  | FlushAll => answered (λ _, Done) flush_all_pages
  | Delete p => answered Flag (delete_page p)
  end.

(** The pool [s], on a disk with room for [n] more pages, shows the store [st]. *)
Record shows (s : BufferPoolManager.t D) (st : t) (n : nat) : Prop := Shows {
  shows_ok : BufferPoolFacts.pool_ok s (dom (pages st)) n;
  shows_frames : length (pool s) = frames st ∧ BufferPoolFacts.held s = frames st;
  shows_pages : ∀ p data, pages st !! p = Some data → BufferPoolFacts.contents s p = data;
  shows_refs : ∀ f p c, refs st !! f = Some (p, c) ↔
    page_table s !! p = Some f ∧ BufferPoolFacts.pins s p = c ∧ 0 < c;
}.

End exec.
End PageStore.

Module PageStoreFacts.
Import BufferPoolManager BufferPoolFacts PageStore.

Section facts.
Context {D : Type} `{DiskLaws D}.
Implicit Types (s : BufferPoolManager.t D) (st : t).

Lemma answered_Ok {A} (f : A → answer) (m : SR (BufferPoolManager.t D) A) s s' a :
  m s = (s', Ok a) → answered f m s = (s', Ok (f a)).
Proof. intros Hm. unfold answered. by rewrite (SR_bind_Ok _ _ _ _ _ Hm). Qed.

Lemma answered_Err {A} (f : A → answer) (m : SR (BufferPoolManager.t D) A) s s' e :
  m s = (s', Err e) → answered f m s = (s', Err e).
Proof. intros Hm. unfold answered. by rewrite (SR_bind_Err _ _ _ _ _ Hm). Qed.

(** A page nobody pinned has no pins. *)
Lemma free_pins s st n p : shows s st n → free_page st p ↔ pins s p = 0.
Proof.
  intros Hs. split.
  - intros Hf. destruct (decide (0 < pins s p)) as [Hpos|Hn].
    + destruct (pins_pos _ _ Hpos) as [f Hp]. destruct (Hf f (pins s p)).
      by apply (shows_refs _ _ _ Hs).
    + unfold pins in *. destruct (page_table s !! p) as [f|] eqn:Hp; [|done].
      destruct (pool_table _ _ _ (shows_ok _ _ _ Hs) p f Hp) as (_ & _ & g & Hg & _ & ? & _).
      rewrite Hg in *. lia.
  - intros Hz f c Hf. apply (shows_refs _ _ _ Hs) in Hf. lia.
Qed.

(** A frame can be found unless every frame is pinned. *)
Lemma shows_available s st n : shows s st n → available s = false → full st.
Proof.
  intros Hs Hav. pose proof (shows_ok _ _ _ Hs) as Hok. destruct (shows_frames _ _ _ Hs) as [_ Hheld].
  unfold available in Hav. apply negb_false_iff, andb_true_iff in Hav as [Hf Hr].
  apply Nat.eqb_eq, length_zero_iff_nil in Hf. apply Nat.eqb_eq in Hr.
  unfold held in Hheld. rewrite Hf in Hheld. simpl in Hheld. unfold full. rewrite <- Hheld.
  assert (∀ p f, page_table s !! p = Some f → 0 < pins s p) as Hall.
  { intros p f Hp. destruct (pool_table _ _ _ Hok p f Hp) as (_ & _ & g & Hg & _ & ? & _ & (nd & Hnd & Hev) & _).
    rewrite (pins_Some _ _ _ _ Hp Hg). destruct (Z.eqb_spec (Page.pin_count g) 0); [|lia].
    exfalso. unfold LRUKReplacer.size in Hr.
    rewrite (ReplacerFacts.replacer_count _ (pool_replacer _ _ _ Hok)) in Hr.
    apply map_size_empty_iff in Hr.
    pose proof (proj2 (ReplacerFacts.evictable_lookup _ _ _) (conj Hnd Hev)) as Hin.
    by rewrite Hr, lookup_empty in Hin. }
  assert (NoDup (map_to_list (page_table s)).*2) as Hnd.
  { apply NoDup_fmap_2_strong; [|apply NoDup_map_to_list].
    intros [p f] [q h] Hp%elem_of_map_to_list Hq%elem_of_map_to_list. simpl. intros <-.
    by rewrite (table_inj _ _ _ _ _ _ Hok Hp Hq). }
  rewrite <- (size_dom (D := gset FrameId) (refs st)), <- length_map_to_list.
  rewrite <- (length_fmap snd (map_to_list (page_table s))).
  rewrite <- (size_list_to_set (C := gset FrameId)) by done. apply subseteq_size.
  intros f Hfin. apply elem_of_list_to_set, list_elem_of_fmap in Hfin as ([p f'] & -> & Hp).
  apply elem_of_map_to_list in Hp. apply elem_of_dom. exists (p, pins s p).
  apply (shows_refs _ _ _ Hs). simpl. split_and!; [done..|by eapply Hall].
Qed.

(** Operations that keep the pins and the pinned pages. *)
Lemma shows_stable s st n s' m n' :
  shows s st n → stable s s' → held s' = held s → pool_ok s' (dom m) n' →
  (∀ p data, m !! p = Some data → contents s' p = data) →
  shows s' (set_pages m st) n'.
Proof.
  intros Hs Hst Hheld Hok Hc. split; [done| |done|].
  - rewrite (stable_length _ _ Hst), Hheld. apply Hs.
  - intros f p c. simpl. rewrite (shows_refs _ _ _ Hs).
    rewrite (stable_pins _ _ Hst). split; intros (Hp & Hc' & Hpos); split_and!; try done.
    + eapply stable_pinned; [done..|lia].
    + by eapply stable_table.
Qed.

(** A page that was not pinned gets its first reference, in a spare frame. *)
Lemma shows_install s st n s1 s' m n' p f :
  shows s st n → stable s s1 → spare s1 f → pins s p = 0 →
  page_table s' = <[p := f]> (page_table s1) →
  (∀ q, pins s' q = if decide (q = p) then 1 else pins s q) →
  length (pool s') = length (pool s) → held s' = held s →
  pool_ok s' (dom m) n' → (∀ q data, m !! q = Some data → contents s' q = data) →
  refs st !! f = None ∧ shows s' (set_pages m (set_refs (<[f := (p, 1)]> (refs st)) st)) n'.
Proof.
  intros Hs Hst (_ & _ & Hno) Hp0 Ht Hpins Hlen Hheld Hok Hc.
  assert (∀ q c, refs st !! f ≠ Some (q, c)) as Hf.
  { intros q c Hq. apply (shows_refs _ _ _ Hs) in Hq as (Hq & Hc' & Hpos).
    apply (Hno q). eapply stable_pinned; [done..|lia]. }
  split. { destruct (refs st !! f) as [[q c]|] eqn:Hq; [by destruct (Hf q c)|done]. }
  split; [done|rewrite Hlen, Hheld; apply Hs|done|]. simpl. intros h q c. rewrite Ht, Hpins.
  destruct (decide (h = f)) as [->|Hhf].
  - rewrite lookup_insert_eq. destruct (decide (q = p)) as [->|Hqp].
    + rewrite lookup_insert_eq. split; [by intros [= <-]|by intros (_ & <- & _)].
    + rewrite lookup_insert_ne by done. split; [congruence|]. intros (Hq & _ & _). by apply Hno in Hq.
  - rewrite lookup_insert_ne by done. rewrite (shows_refs _ _ _ Hs).
    destruct (decide (q = p)) as [->|Hqp].
    + rewrite lookup_insert_eq, Hp0. split; [intros (_ & ? & ?); lia|]. intros (? & _); congruence.
    + rewrite lookup_insert_ne by done. split; intros (Hq & Hc' & Hpos); split_and!; try done.
      * eapply stable_pinned; [done..|lia].
      * by eapply stable_table.
Qed.

(** The references of a page already in a frame change to [c']. *)
Lemma shows_repin s st n s' p f c' :
  shows s st n → page_table s !! p = Some f → page_table s' = page_table s →
  (∀ q, pins s' q = if decide (q = p) then c' else pins s q) → 0 ≤ c' →
  length (pool s') = length (pool s) → held s' = held s →
  pool_ok s' (dom (pages st)) n → same_contents (dom (pages st)) s s' →
  shows s' (set_refs (if c' =? 0 then delete f (refs st) else <[f := (p, c')]> (refs st)) st) n.
Proof.
  intros Hs Hp Ht Hpins Hc' Hlen Hheld Hok Hc. split; [done|rewrite Hlen, Hheld; apply Hs| |].
  - intros q data Hq. rewrite Hc by (by eapply elem_of_dom_2). by apply (shows_pages _ _ _ Hs).
  - intros h q c. simpl. rewrite Ht, Hpins. destruct (decide (q = p)) as [->|Hqp].
    + destruct (Z.eqb_spec c' 0) as [->|Hne].
      * rewrite lookup_delete_Some, (shows_refs _ _ _ Hs).
        split; [intros (Hn & ? & _); congruence|intros (_ & ? & ?); lia].
      * destruct (decide (h = f)) as [->|Hhf].
        -- rewrite lookup_insert_eq. split; [intros [= <-]; split_and!; [done..|lia]|].
           by intros (_ & -> & _).
        -- rewrite lookup_insert_ne, (shows_refs _ _ _ Hs) by done.
           split; intros (? & _); congruence.
    + rewrite <- (shows_refs _ _ _ Hs).
      assert (refs st !! f ≠ Some (q, c)) as Hf.
      { intros Hf. apply (shows_refs _ _ _ Hs) in Hf as (Hq & _). apply Hqp.
        by eapply table_inj; [apply (shows_ok _ _ _ Hs)|..]. }
      destruct (decide (h = f)) as [->|Hhf].
      * destruct (c' =? 0).
        -- rewrite lookup_delete_eq. split; [done|by intros ?%Hf].
        -- rewrite lookup_insert_eq. split; [congruence|by intros ?%Hf].
      * destruct (c' =? 0); [by rewrite lookup_delete_ne|by rewrite lookup_insert_ne].
Qed.

(** *** The calls of a pool that is not full *)
Lemma store_new s st n :
  shows s st (S n) → quiet s → available s = true →
  ∃ s' f p, new_page s = (s', Ok f) ∧ pages st !! p = None ∧ refs st !! f = None ∧
    shows s' (set_pages (<[p := EMPTY_PAGE]> (pages st)) (set_refs (<[f := (p, 1)]> (refs st)) st)) n ∧
    timestamp s' = timestamp s + 1.
Proof.
  intros Hs Hq Hav. pose proof (shows_ok _ _ _ Hs) as Hok.
  destruct (new_page_Ok s _ n Hok Hq Hav)
    as (s' & f & p & s1 & Hrun & HpL & Hok' & Hc & Hz & Hst & Ht & Hsp & Hpins & Hts & Hlen & Hheld).
  assert (pins s p = 0) as Hp0.
  { unfold pins. destruct (page_table s !! p) as [h|] eqn:Hp; [|done].
    by destruct (pool_table _ _ _ Hok p h Hp). }
  destruct (shows_install s st (S n) s1 s' (<[p := EMPTY_PAGE]> (pages st)) n p f Hs Hst Hsp Hp0 Ht)
    as [Hf Hs']; [done..|by rewrite dom_insert_L| |].
  { intros q data Hq'. apply lookup_insert_Some in Hq' as [[<- <-]|[Hqp Hq']]; [done|].
    rewrite Hc by (by eapply elem_of_dom_2). by apply (shows_pages _ _ _ Hs). }
  exists s', f, p. split_and!; try done. by apply not_elem_of_dom.
Qed.

(** The first reference to a page. *)
Lemma store_fetch s st n p :
  shows s st n → is_Some (pages st !! p) → free_page st p → quiet s → available s = true →
  ∃ s' f, fetch_page p s = (s', Ok f) ∧ refs st !! f = None ∧
    shows s' (set_refs (<[f := (p, 1)]> (refs st)) st) n ∧ timestamp s' ≤ timestamp s + 1.
Proof.
  intros Hs HL%elem_of_dom Hfree Hq Hav. pose proof (shows_ok _ _ _ Hs) as Hok.
  apply (free_pins s st n p Hs) in Hfree as Hp0.
  destruct (page_table s !! p) as [f|] eqn:Hp.
  - destruct (fetch_page_hit s _ n p f Hok Hp) as (s' & Hrun & Hok' & Hc & Ht & Hpins & Hts & Hlen & Hheld);
      [rewrite Hp0; done|]. rewrite Hp0 in Hpins.
    exists s', f. split_and!; [done| | |lia].
    + destruct (refs st !! f) as [[q c]|] eqn:Hf; [|done].
      apply (shows_refs _ _ _ Hs) in Hf as (Hq' & <- & ?).
      assert (q = p) as -> by exact (table_inj s _ n q p f Hok Hq' Hp). lia.
    + apply (shows_repin s st n s' p f _ Hs Hp Ht Hpins ltac:(lia) Hlen Hheld Hok' Hc).
  - destruct (fetch_page_miss s _ n p Hok Hq Hp HL Hav)
      as (s' & f & s1 & Hrun & Hok' & Hc & Hst & Ht & Hsp & Hpins & Hts & Hlen & Hheld).
    destruct (shows_install s st n s1 s' (pages st) n p f Hs Hst Hsp Hp0 Ht)
      as [Hf Hs']; [done..| |].
    { intros q data Hq'. rewrite Hc by (by eapply elem_of_dom_2). by apply (shows_pages _ _ _ Hs). }
    exists s', f. split_and!; [done|done| |lia]. by destruct st.
Qed.

(** One more reference to a pinned page. *)
Lemma store_fetch_again s st n p f c :
  shows s st n → refs st !! f = Some (p, c) → c + 1 < 2 ^ 32 →
  ∃ s', fetch_page p s = (s', Ok f) ∧ shows s' (set_refs (<[f := (p, c + 1)]> (refs st)) st) n ∧
    timestamp s' = timestamp s.
Proof.
  intros Hs Hf Hmax. pose proof (shows_ok _ _ _ Hs) as Hok.
  apply (shows_refs _ _ _ Hs) in Hf as (Hp & Hc & Hpos). subst c.
  destruct (fetch_page_hit s _ n p f Hok Hp Hmax) as (s' & Hrun & Hok' & Hc & Ht & Hpins & Hts & Hlen & Hheld).
  pose proof (shows_repin s st n s' p f _ Hs Hp Ht Hpins ltac:(lia) Hlen Hheld Hok' Hc) as Hs'.
  destruct (Z.eqb_spec (pins s p + 1) 0) as [?|_]; [lia|]. by exists s'.
Qed.

Lemma store_read s st n f p c :
  shows s st n → refs st !! f = Some (p, c) →
  ∃ g, frame f s = (s, Ok g) ∧ Page.page_id g = p ∧ pages st !! p = Some (Page.data g).
Proof.
  intros Hs Hf. apply (shows_refs _ _ _ Hs) in Hf as (Hp & _).
  destruct (pool_table _ _ _ (shows_ok _ _ _ Hs) p f Hp) as (HL & _ & g & Hg & Hid & _).
  exists g. split_and!; [by apply frame_Ok|done|].
  apply elem_of_dom in HL as [data Hd]. rewrite Hd. f_equal.
  apply (shows_pages _ _ _ Hs) in Hd as <-. unfold contents. by rewrite Hp, Hg.
Qed.

Lemma store_write s st n f p c data :
  shows s st n → refs st !! f = Some (p, c) → length data = BUSTUBX_PAGE_SIZE →
  ∃ s', set_page_data f data s = (s', Ok tt) ∧ shows s' (set_pages (<[p := data]> (pages st)) st) n ∧
    timestamp s' = timestamp s.
Proof.
  intros Hs Hf Hlen. apply (shows_refs _ _ _ Hs) in Hf as (Hp & Hc & Hpos).
  pose proof (shows_ok _ _ _ Hs) as Hok.
  assert (p ∈ dom (pages st)) as HpL by (by destruct (pool_table _ _ _ Hok p f Hp)).
  destruct (set_page_data_Ok s _ n p f data Hok Hp Hlen)
    as (s' & Hrun & Hok' & Hc' & Ht & Hpins & Hts & Hl & Hheld).
  exists s'. split_and!; [done| |done]. split.
  - simpl. rewrite dom_insert_L. by replace ({[p]} ∪ dom (pages st)) with (dom (pages st)) by set_solver.
  - rewrite Hl, Hheld. apply Hs.
  - intros q d Hq. rewrite Hc'. simpl in Hq.
    apply lookup_insert_Some in Hq as [[<- <-]|[Hqp Hq]]; [by rewrite decide_True|].
    rewrite decide_False by done. by apply (shows_pages _ _ _ Hs).
  - intros h q c'. simpl. rewrite Ht, Hpins. apply (shows_refs _ _ _ Hs).
Qed.

Lemma store_drop s st n f p c :
  shows s st n → refs st !! f = Some (p, c) → c < 2 ^ 32 →
  ∃ s', drop_page_ref f s = (s', Ok tt) ∧
    shows s' (set_refs (if c =? 1 then delete f (refs st) else <[f := (p, c - 1)]> (refs st)) st) n ∧
    timestamp s' = timestamp s.
Proof.
  intros Hs Hf Hmax. apply (shows_refs _ _ _ Hs) in Hf as (Hp & Hc & Hpos).
  pose proof (shows_ok _ _ _ Hs) as Hok.
  destruct (drop_page_ref_Ok s _ n p f Hok Hp) as (s' & Hrun & Hok' & Hc' & Ht & Hpins & Hts & Hlen & Hheld);
    [lia|].
  pose proof (shows_repin s st n s' p f _ Hs Hp Ht Hpins ltac:(lia) Hlen Hheld Hok' Hc') as Hs'.
  exists s'. split_and!; [done| |done]. rewrite Hc in Hs'.
  replace (c =? 1) with (c - 1 =? 0); [done|].
  destruct (Z.eqb_spec (c - 1) 0), (Z.eqb_spec c 1); (done || lia).
Qed.

(** *** Every call against the store *)
Lemma refines_new s st n :
  shows s st (S n) → quiet s →
  ∃ s' r st' n', exec New s = (s', r) ∧ step st New r st' ∧ (n ≤ n')%nat ∧ shows s' st' n' ∧
    timestamp s' ≤ timestamp s + 1.
Proof.
  intros Hs Hq. simpl. destruct (available s) eqn:Hav.
  - destruct (store_new s st n Hs Hq Hav) as (s' & f & p & Hrun & Hp & Hf & Hs' & Hts).
    do 4 eexists. split; [by apply answered_Ok|].
    split; [by constructor|split; [reflexivity|split; [exact Hs'|lia]]].
  - do 4 eexists. split; [apply answered_Err; by apply new_page_full|].
    split; [constructor; by eapply shows_available|split; [|split; [exact Hs|lia]]]. lia.
Qed.

Lemma refines_fetch s st n p :
  shows s st n → legal st (Fetch p) → quiet s →
  ∃ s' r st', exec (Fetch p) s = (s', r) ∧ step st (Fetch p) r st' ∧ shows s' st' n ∧
    timestamp s' ≤ timestamp s + 1.
Proof.
  intros Hs Hl Hq. inversion Hl as [|? HL Hmax| | | | |]. subst. simpl.
  destruct (decide (0 < pins s p)) as [Hpos|Hz].
  - destruct (pins_pos _ _ Hpos) as [f Hp].
    assert (refs st !! f = Some (p, pins s p)) as Hf by (by apply (shows_refs _ _ _ Hs)).
    destruct (store_fetch_again s st n p f _ Hs Hf) as (s' & Hrun & Hs' & Hts); [by eapply Hmax|].
    do 3 eexists. split; [by apply answered_Ok|].
    split; [by constructor|split; [exact Hs'|lia]].
  - assert (free_page st p) as Hfree.
    { intros f c Hf. apply (shows_refs _ _ _ Hs) in Hf. lia. }
    destruct (available s) eqn:Hav.
    + destruct (store_fetch s st n p Hs HL Hfree Hq Hav) as (s' & f & Hrun & Hf & Hs' & Hts).
      do 3 eexists. split; [by apply answered_Ok|].
      split; [by constructor|split; [exact Hs'|lia]].
    + destruct (page_table s !! p) as [f|] eqn:Hp.
      * apply (free_pins s st n p Hs) in Hfree as Hp0.
        destruct (fetch_page_hit s _ n p f (shows_ok _ _ _ Hs) Hp)
          as (s' & Hrun & Hok' & Hc & Ht & Hpins & Hts & Hlen & Hheld); [rewrite Hp0; done|].
        rewrite Hp0 in Hpins.
        pose proof (shows_repin s st n s' p f _ Hs Hp Ht Hpins ltac:(lia) Hlen Hheld Hok' Hc) as Hs'.
        do 3 eexists. split; [by apply answered_Ok|]. split; [|split; [exact Hs'|lia]].
        constructor; [done|done|]. destruct (refs st !! f) as [[q c]|] eqn:Hf; [|done].
        apply (shows_refs _ _ _ Hs) in Hf as (Hq' & <- & ?).
        assert (q = p) as -> by exact (table_inj s _ n q p f (shows_ok _ _ _ Hs) Hq' Hp). lia.
      * do 3 eexists. split; [apply answered_Err; eapply fetch_page_full; [apply Hs|done..]|].
        split; [constructor; [by eapply shows_available|done]|split; [exact Hs|lia]].
Qed.

Lemma refines_delete s st n p :
  shows s st (S n) →
  ∃ s' r st' n', exec (Delete p) s = (s', r) ∧ step st (Delete p) r st' ∧ (n ≤ n')%nat ∧
    shows s' st' n' ∧ timestamp s' ≤ timestamp s + 1.
Proof.
  intros Hs. pose proof (shows_ok _ _ _ Hs) as Hok. simpl.
  destruct (decide (0 < pins s p)) as [Hpos|Hz].
  { destruct (pins_pos _ _ Hpos) as [f Hp].
    exists s, (Ok (Flag false)), st, (S n). split_and!; [|econstructor|lia|done|lia].
    - apply answered_Ok. by eapply delete_page_pinned.
    - by apply (shows_refs _ _ _ Hs). }
  assert (free_page st p) as Hfree.
  { intros f c Hf. apply (shows_refs _ _ _ Hs) in Hf. lia. }
  apply (free_pins s st _ p Hs) in Hfree as Hp0.
  destruct (page_table s !! p) as [f|] eqn:Hp.
  - destruct (delete_page_Ok s _ n p f Hok Hp Hp0) as (s' & Hrun & Hok' & Hst & Ht & Hts & Hheld & Hc).
    do 4 eexists. split; [by apply answered_Ok|]. split; [by apply step_delete|].
    split; [reflexivity|]. split; [|lia].
    apply (shows_stable s st (S n)); [done..|by rewrite dom_delete_L|].
    intros q data [Hqp Hq]%lookup_delete_Some. rewrite Hc; [by apply (shows_pages _ _ _ Hs)| |done].
    by eapply elem_of_dom_2.
  - exists s, (Ok (Flag true)), st, (S n).
    split_and!; [|by apply step_delete_not_cached|lia|done|lia].
    apply answered_Ok. by apply delete_page_uncached.
Qed.

(** Write-back keeps the store. *)
Lemma shows_flushed s st n s' :
  shows s st n → stable s s' → page_table s' = page_table s → free_list s' = free_list s →
  pool_ok s' (dom (pages st)) n → same_contents (dom (pages st)) s s' → shows s' st n.
Proof.
  intros Hs Hst Ht Hfl Hok Hc. destruct st as [fr m rf].
  apply (shows_stable s (Mk fr m rf) n _ m); [done..| |done|].
  - unfold held. by rewrite Ht, Hfl.
  - intros q d Hq. rewrite Hc by (by eapply elem_of_dom_2). by apply (shows_pages _ _ _ Hs).
Qed.

Lemma refines_flush s st n p :
  shows s st n →
  ∃ s' b, flush_page p s = (s', Ok b) ∧ shows s' st n ∧ timestamp s' = timestamp s.
Proof.
  intros Hs. pose proof (shows_ok _ _ _ Hs) as Hok.
  destruct (flush_page_Ok s _ n p Hok) as (s' & Hrun & Hok' & Hc & Ht & Hr & Hfl & Hpool & _).
  pose proof (flush_stable s s' Ht Hpool (flush_length _ _ _ _ _ _ Hok Hrun)) as Hst.
  do 2 eexists. split; [exact Hrun|]. split; [by eapply shows_flushed|].
  unfold timestamp. by rewrite Hr.
Qed.

Lemma refines_flush_all s st n :
  shows s st n →
  ∃ s', flush_all_pages s = (s', Ok tt) ∧ shows s' st n ∧ timestamp s' = timestamp s ∧
    ∀ q, q ∈ dom (pages st) → disk_page (disk_manager s') q = contents s' q.
Proof.
  intros Hs. pose proof (shows_ok _ _ _ Hs) as Hok.
  destruct (flush_all_pages_Ok s _ n Hok) as (s' & Hrun & Hok' & Hc & Ht & Hfl & Hst & Hr & Hd).
  exists s'. split_and!; [done|by eapply shows_flushed| |done].
  unfold timestamp. by rewrite Hr.
Qed.

(** A new pool shows the pages of the disk, with nothing pinned. *)
Lemma shows_new d m n num_pages :
  disk_ok d (dom m) n → (∀ p data, m !! p = Some data → disk_page d p = data) →
  shows (new num_pages d) (Mk num_pages m ∅) n ∧ timestamp (new num_pages d) = 0.
Proof.
  intros Hd Hm. destruct (new_pool_ok d _ n num_pages Hd) as (Hok & Hts & Hc & Hpins).
  split; [|done]. split; [done| | |].
  - unfold held. simpl. rewrite length_replicate, length_seq, map_size_empty. lia.
  - intros p data Hp. rewrite Hc. by apply Hm.
  - intros f p c. simpl. rewrite !lookup_empty. split; [done|]. by intros (? & _).
Qed.

End facts.
End PageStoreFacts.

(** ** Properties *)
Module BufferPoolSpec.
Import BufferPoolManager BufferPoolFacts PageStore PageStoreFacts.

Section spec.
Context {D : Type} `{DiskLaws D}.

(** C1: the buffer pool refines a store of pages. Whatever is cached, pinned, dirty or
    on disk, each call answers and changes the store as the contract says: [new_page]
    gives a fresh zeroed page in a frame nobody holds, [fetch_page] a frame of the page
    (the same one while it is pinned), writing through a reference changes that page
    only, eviction and write-back change no page and never move a pinned one, dropping
    a reference releases one pin, [delete_page] refuses a pinned page, and the only
    errors are of [new_page] and of [fetch_page] of an unpinned page when every frame is
    pinned, and leave the store as it was. Nothing panics. *)
Theorem buffer_pool_refines_store (s : BufferPoolManager.t D) st n o :
  shows s st (room o + n) → legal st o → timestamp s < 2 ^ 63 →
  ∃ s' r st' n', exec o s = (s', r) ∧ step st o r st' ∧ (n ≤ n')%nat ∧ shows s' st' n' ∧
    timestamp s' ≤ timestamp s + 1.
Proof.
  intros Hs Hl Hq. destruct o as [|p|f data|f|p| |p].
  - by apply refines_new.
  - destruct (refines_fetch s st n p Hs Hl Hq) as (s' & r & st' & ? & ? & ? & ?).
    exists s', r, st', n. by split_and!.
  - inversion Hl as [| |? p c ? Hf Hlen| | | |]. subst.
    destruct (store_write s st n f p c data Hs Hf Hlen) as (s' & Hrun & Hs' & Hts).
    do 4 eexists. split; [apply (answered_Ok _ _ _ _ _ Hrun)|]. split; [by econstructor|].
    split; [reflexivity|split; [exact Hs'|lia]].
  - inversion Hl as [| | |? p c Hf Hmax| | |]. subst.
    destruct (store_drop s st n f p c Hs Hf Hmax) as (s' & Hrun & Hs' & Hts).
    do 4 eexists. split; [apply (answered_Ok _ _ _ _ _ Hrun)|]. split; [by econstructor|].
    split; [reflexivity|split; [exact Hs'|lia]].
  - destruct (refines_flush s st n p Hs) as (s' & b & Hrun & Hs' & Hts).
    do 4 eexists. split; [by apply answered_Ok|]. split; [constructor|].
    split; [reflexivity|split; [exact Hs'|lia]].
  - destruct (refines_flush_all s st n Hs) as (s' & Hrun & Hs' & Hts & _).
    do 4 eexists. split; [apply (answered_Ok _ _ _ _ _ Hrun)|]. split; [constructor|].
    split; [reflexivity|split; [exact Hs'|lia]].
  - by apply refines_delete.
Qed.

(** C27: after [flush_all_pages] the disk has every page: it changes no page, and a new
    pool of any size on the disk it leaves shows the same pages with nothing pinned. *)
Theorem flush_all_durable (s : BufferPoolManager.t D) st n num_pages :
  shows s st n →
  ∃ s', flush_all_pages s = (s', Ok tt) ∧ shows s' st n ∧
    shows (new num_pages (disk_manager s')) (Mk num_pages (pages st) ∅) n.
Proof.
  intros Hs. destruct (refines_flush_all s st n Hs) as (s' & Hrun & Hs' & _ & Hd).
  exists s'. split_and!; try done.
  apply shows_new; [apply (shows_ok _ _ _ Hs')|].
  intros p data Hp. rewrite Hd by (by eapply elem_of_dom_2). by apply (shows_pages _ _ _ Hs').
Qed.

End spec.

(** The pool of a database just created: four zeroed catalog pages. *)
Definition created_store (num_pages : nat) (d : DiskManager.t) : PageStore.t :=
  Mk num_pages (gset_to_gmap EMPTY_PAGE (DiskOpenFacts.catalog_pages (DiskManager.meta d))) ∅.

Lemma created_shows num_pages n :
  (n ≤ 1000)%nat →
  ∃ d, DiskManager.try_new 0 1 None = Ok d ∧
    shows (new num_pages d) (created_store num_pages d) n ∧ timestamp (new num_pages d) = 0.
Proof.
  intros Hn. destruct (DiskOpenFacts.create_Ok 0 1) as (d & Hd & Hrep & _ & _ & Hid & Hz); [done..|].
  exists d. split; [done|]. apply shows_new.
  - split; [lia|]. eexists. rewrite dom_gset_to_gmap. exact Hrep.
  - intros p data Hp. apply lookup_gset_to_gmap_Some in Hp as [Hp <-]. by apply Hz.
Qed.

Lemma buffer_pool_refines_store_witness :
  ∃ d s' r st', DiskManager.try_new 0 1 None = Ok d ∧ exec New (new 3 d) = (s', r) ∧
    step (created_store 3 d) New r st'.
Proof.
  destruct (created_shows 3 (room New + 10)) as (d & Hd & Hs & _); [simpl; lia|].
  destruct (buffer_pool_refines_store (new 3 d) _ 10 New Hs) as (s' & r & st' & n' & ? & ? & _);
    [constructor|done|].
  exists d, s', r, st'. by split_and!.
Defined.

Lemma flush_all_durable_witness :
  ∃ d s', DiskManager.try_new 0 1 None = Ok d ∧ flush_all_pages (new 3 d) = (s', Ok tt).
Proof.
  destruct (created_shows 3 10) as (d & Hd & Hs & _); [lia|].
  destruct (flush_all_durable (new 3 d) _ 10 5 Hs) as (s' & ? & _). by exists d, s'.
Defined.

End BufferPoolSpec.
