(* ===== verification/TableHeap.v ===== *)
(** * TableHeap: a table as a linked list of pages

    Models [bustubx/src/storage/table_heap.rs] over the buffer pool. A [PageRef] held
    by a method is dropped at every way out of it but a panic ([holding]). The store
    of the pool ([PageStore]) holds the pages; [chain] relates them to the rows. *)
From S2P Require Import Prelude CommonCodec Schema TupleCodec TablePage DiskPages DiskManager.
From S2P Require Import Replacer BufferPool PageStore.
Local Open Scope Z_scope.

(** common/util.rs: [copy_from_slice] panics on another length. *)
Definition page_bytes_to_array (bytes : list Z) : result (list Z) :=
  if (length bytes =? BUSTUBX_PAGE_SIZE)%nat then Ok bytes else Panic.

Module TableHeap.
Section heap.
Context {D : Type} `{Disk D}.

Record t := Mk {
  schema : Schema.t;
  buffer_pool : BufferPoolManager.t D;
  first_page_id : Z;
  last_page_id : Z;
}.

Definition set_pool (x : BufferPoolManager.t D) (self : t) : t :=
  Mk (schema self) x (first_page_id self) (last_page_id self).
Definition set_last (x : Z) (self : t) : t :=
  Mk (schema self) (buffer_pool self) (first_page_id self) x.

Definition on_pool {A} (m : SR (BufferPoolManager.t D) A) : SR t A := λ self,
  let '(s, r) := m (buffer_pool self) in (set_pool s self, r).

(** A block that owns the [PageRef] of [frame_id]: dropped after a result or an error. *)
Definition holding {A} (frame_id : FrameId) (m : SR t A) : SR t A := λ self,
  let '(self, r) := m self in
  match r with
  | Panic => (self, Panic)
  | _ =>
      let '(self, dropped) := on_pool (BufferPoolManager.drop_page_ref frame_id) self in
      match dropped with Ok _ => (self, r) | _ => (self, Panic) end
  end.

(** [page.read().unwrap().page_id] *)
Definition ref_page_id (frame_id : FrameId) : SR t Z :=
  page ← on_pool (BufferPoolManager.frame frame_id); ret (Page.page_id page).

(** [page.write().unwrap().set_data(page_bytes_to_array(&TablePageCodec::encode(&p)))] *)
Definition write_table_page (frame_id : FrameId) (p : TablePage.t) : SR t unit :=
  bytes ← lift (TablePageCodec.encode p);
  data ← lift (page_bytes_to_array bytes);
  on_pool (BufferPoolManager.set_page_data frame_id data).

Definition fetch_table_page (page_id : Z) : SR t (FrameId * TablePage.t) :=
  schema ← gets schema;
  on_pool (BufferPoolManager.fetch_table_page page_id schema).

(** [let (_, table_page) = fetch_table_page(page_id)?;]: the reference is dropped at
    the end of the statement. *)
Definition read_table_page (page_id : Z) : SR t TablePage.t :=
  '(frame_id, table_page) ← fetch_table_page page_id;
  holding frame_id (ret table_page).

(** A new page with an empty table page: its reference, its id and the table page. *)
Definition new_table_page : SR t (FrameId * Z * TablePage.t) :=
  schema ← gets schema;
  frame_id ← on_pool BufferPoolManager.new_page;
  page_id ← ref_page_id frame_id;
  let table_page := TablePage.new schema INVALID_PAGE_ID in
  _ ← write_table_page frame_id table_page;
  ret (frame_id, page_id, table_page).

Definition try_new (s : Schema.t) (pool : BufferPoolManager.t D) :
    BufferPoolManager.t D * result t :=
  let '(self, r) :=
    ('(frame_id, page_id, _) ← new_table_page; holding frame_id (ret page_id))
      (Mk s pool INVALID_PAGE_ID INVALID_PAGE_ID) in
  (buffer_pool self, page_id ← r; Ok (Mk s (buffer_pool self) page_id page_id)).

Definition with_next (next_page_id : Z) (p : TablePage.t) : TablePage.t :=
  let h := TablePage.header p in
  TablePage.Mk (TablePage.schema p)
    (TablePageHeader.Mk next_page_id (TablePageHeader.num_tuples h)
       (TablePageHeader.num_deleted_tuples h) (TablePageHeader.tuple_infos h))
    (TablePage.data p).

(** The loop of [insert_tuple]: the page that has room, with its reference; the one of
    an error is dropped. A new page that has no room fails the assertion, so the loop
    runs at most twice. *)
Fixpoint insert_loop (fuel : nat) (tuple : Tuple.t) (last_page : FrameId) (last_page_id : Z)
    (last_table_page : TablePage.t) : SR t (FrameId * Z * TablePage.t) :=
  match TablePage.next_tuple_offset last_table_page tuple with
  | Ok _ => ret (last_page, last_page_id, last_table_page)
  | Panic => lift Panic
  | Err _ =>
      match fuel with
      | O => lift Panic
      | S fuel' =>
          _ ← lift (assert_true
                (0 <? TablePageHeader.num_tuples (TablePage.header last_table_page)));
          '(next_page, next_page_id, next_table_page) ← holding last_page (
            '(next_page, next_page_id, next_table_page) ← new_table_page;
            _ ← write_table_page last_page (with_next next_page_id last_table_page);
            ret (next_page, next_page_id, next_table_page));
          _ ← modify (set_last next_page_id);
          insert_loop fuel' tuple next_page next_page_id next_table_page
      end
  end.

Definition insert_tuple (meta : TupleMeta.t) (tuple : Tuple.t) : SR t RecordId.t :=
  last_page_id ← gets last_page_id;
  '(last_page, last_table_page) ← fetch_table_page last_page_id;
  '(last_page, last_page_id, last_table_page) ←
    insert_loop 2 tuple last_page last_page_id last_table_page;
  holding last_page (
    '(last_table_page, slot_id) ← lift (TablePage.insert_tuple last_table_page meta tuple);
    _ ← write_table_page last_page last_table_page;
    ret (RecordId.Mk last_page_id slot_id)).

(** A change of the table page of [page_id] that is written back. *)
Definition modify_table_page (page_id : Z) (f : TablePage.t → result TablePage.t) : SR t unit :=
  '(page, table_page) ← fetch_table_page page_id;
  holding page (
    table_page ← lift (f table_page);
    write_table_page page table_page).

Definition update_tuple (rid : RecordId.t) (tuple : Tuple.t) : SR t unit :=
  modify_table_page (RecordId.page_id rid)
    (λ p, TablePage.update_tuple p tuple (wrap 16 (RecordId.slot_num rid))).

Definition update_tuple_meta (meta : TupleMeta.t) (rid : RecordId.t) : SR t unit :=
  modify_table_page (RecordId.page_id rid)
    (λ p, TablePage.update_tuple_meta p meta (wrap 16 (RecordId.slot_num rid))).

Definition full_tuple (rid : RecordId.t) : SR t (TupleMeta.t * Tuple.t) :=
  table_page ← read_table_page (RecordId.page_id rid);
  lift (TablePage.tuple table_page (wrap 16 (RecordId.slot_num rid))).

Definition tuple (rid : RecordId.t) : SR t Tuple.t :=
  '(_, tuple) ← full_tuple rid; ret tuple.

Definition tuple_meta (rid : RecordId.t) : SR t TupleMeta.t :=
  '(meta, _) ← full_tuple rid; ret meta.

Definition get_first_rid : SR t (option RecordId.t) :=
  first_page_id ← gets first_page_id;
  table_page ← read_table_page first_page_id;
  if TablePageHeader.num_tuples (TablePage.header table_page) =? 0 then ret None
  else ret (Some (RecordId.Mk first_page_id 0)).

Definition get_next_rid (rid : RecordId.t) : SR t (option RecordId.t) :=
  table_page ← read_table_page (RecordId.page_id rid);
  next_rid ← lift (TablePage.get_next_rid table_page rid);
  match next_rid with
  | Some next_rid => ret (Some next_rid)
  | None =>
      let next_page_id := TablePageHeader.next_page_id (TablePage.header table_page) in
      if next_page_id =? INVALID_PAGE_ID then ret None
      else
        next_table_page ← read_table_page next_page_id;
        if TablePageHeader.num_tuples (TablePage.header next_table_page) =? 0 then ret None
        else ret (Some (RecordId.Mk next_page_id 0))
  end.

End heap.
Arguments t D : clear implicits.
End TableHeap.

(** [std::ops::Bound] *)
Inductive Bound (A : Type) := Included (a : A) | Excluded (a : A) | Unbounded.
Arguments Included {A} a.
Arguments Excluded {A} a.
Arguments Unbounded {A}.

Module TableIterator.
Section iterator.
Context {D : Type} `{Disk D}.

Record t := Mk {
  heap : TableHeap.t D;
  start_bound : Bound RecordId.t;
  end_bound : Bound RecordId.t;
  cursor : RecordId.t;
  started : bool;
  ended : bool;
}.

Definition new (heap : TableHeap.t D) (start_bound end_bound : Bound RecordId.t) : t :=
  Mk heap start_bound end_bound INVALID_RID false false.

Definition set_heap (x : TableHeap.t D) (self : t) : t :=
  Mk x (start_bound self) (end_bound self) (cursor self) (started self) (ended self).
Definition set_cursor (x : RecordId.t) (self : t) : t :=
  Mk (heap self) (start_bound self) (end_bound self) x (started self) (ended self).
Definition set_started (self : t) : t :=
  Mk (heap self) (start_bound self) (end_bound self) (cursor self) true (ended self).
Definition set_ended (self : t) : t :=
  Mk (heap self) (start_bound self) (end_bound self) (cursor self) (started self) true.

Definition on_heap {A} (m : SR (TableHeap.t D) A) : SR t A := λ self,
  let '(h, r) := m (heap self) in (set_heap h self, r).

(** [self.cursor = rid], then
    [Ok(self.heap.tuple(self.cursor).ok().map(|tuple| (self.cursor, tuple)))]. *)
Definition read_at (rid : RecordId.t) : SR t (option (RecordId.t * Tuple.t)) := λ self,
  let '(h, r) := TableHeap.tuple rid (heap self) in
  (set_heap h (set_cursor rid self),
   match r with
   | Ok tuple => Ok (Some (rid, tuple))
   | Err _ => Ok None
   | Panic => Panic
   end).

Definition next : SR t (option (RecordId.t * Tuple.t)) :=
  is_ended ← gets ended;
  if is_ended : bool then ret None
  else
  is_started ← gets started;
  if is_started : bool then
    bound ← gets end_bound;
    at_ ← gets cursor;
    next_rid ← on_heap (TableHeap.get_next_rid at_);
    match bound, next_rid with
    | Included rid, Some next_rid =>
        _ ← (if bool_decide (next_rid = rid) then modify set_ended else ret tt);
        read_at next_rid
    | Excluded rid, Some next_rid =>
        if bool_decide (next_rid = rid) then ret None else read_at next_rid
    | Unbounded, Some next_rid => read_at next_rid
    | _, None => ret None
    end
  else
    _ ← modify set_started;
    bound ← gets start_bound;
    match bound with
    | Included rid => read_at rid
    | Excluded rid =>
        next_rid ← on_heap (TableHeap.get_next_rid rid);
        match next_rid with
        | Some next_rid => read_at next_rid
        | None => _ ← modify set_ended; ret None
        end
    | Unbounded =>
        first_rid ← on_heap TableHeap.get_first_rid;
        match first_rid with
        | Some first_rid => read_at first_rid
        | None => _ ← modify set_ended; ret None
        end
    end.

End iterator.
Arguments t D : clear implicits.
End TableIterator.

(** ** Facts *)
Module TableHeapFacts.
Import TableHeap.
Import (notations) TablePageFacts.

Notation row := (TupleMeta.t * Tuple.t)%type.
Notation pages_rows := (list (Z * list row)).

(** The bytes of page [p] are a table page with the rows [rows] and the link [next]. *)
Definition page_at (s : Schema.t) (m : gmap Z (list Z)) (p next : Z) (rows : list row) : Prop :=
  ∃ bytes tp, m !! p = Some bytes ∧ TablePageCodec.decode bytes s = Ok (tp, BUSTUBX_PAGE_SIZE) ∧
    TablePageFacts.rep tp rows ∧ TablePage.schema tp = s ∧
    TablePageHeader.next_page_id (TablePage.header tp) = next.

(** The link of the [k]-th page of a chain. *)
Definition next_of (cs : pages_rows) (k : nat) : Z :=
  match cs !! S k with Some c => c.1 | None => INVALID_PAGE_ID end.

(** The pages of [m] hold the chain [cs] of pages and rows. *)
Definition chain (s : Schema.t) (m : gmap Z (list Z)) (cs : pages_rows) : Prop :=
  NoDup cs.*1 ∧ ∀ k p rows, cs !! k = Some (p, rows) → page_at s m p (next_of cs k) rows.

Lemma app_pair {A} (l : list A) x y : l ++ [x; y] = (l ++ [x]) ++ [y].
Proof. by rewrite <- (assoc_L (++)). Qed.

Lemma page_at_frame s m m' p next rows :
  page_at s m p next rows → m' !! p = m !! p → page_at s m' p next rows.
Proof. intros (bytes & tp & Hm & ?) E. exists bytes, tp. by rewrite E. Qed.

Lemma chain_inj s m cs k j p rows rows' :
  chain s m cs → cs !! k = Some (p, rows) → cs !! j = Some (p, rows') → k = j.
Proof.
  intros [Hnd _] Hk Hj. apply (NoDup_lookup _ _ _ p Hnd); rewrite list_lookup_fmap; [by rewrite Hk|by rewrite Hj].
Qed.

Lemma next_of_insert cs k p rows rows' j :
  cs !! k = Some (p, rows) → next_of (<[k := (p, rows')]> cs) j = next_of cs j.
Proof.
  intros Hk. unfold next_of. rewrite list_lookup_insert. case_decide as Hd; [|done].
  destruct Hd as [<- _]. by rewrite Hk.
Qed.

Lemma ids_insert (cs : pages_rows) k p rows rows' :
  cs !! k = Some (p, rows) → (<[k := (p, rows')]> cs).*1 = cs.*1.
Proof.
  intros Hk. rewrite list_fmap_insert. apply list_insert_id. rewrite list_lookup_fmap. by rewrite Hk.
Qed.

(** A page of the chain gets other rows. *)
Lemma chain_update s m cs k p rows rows' bytes :
  chain s m cs → cs !! k = Some (p, rows) →
  page_at s (<[p := bytes]> m) p (next_of cs k) rows' →
  chain s (<[p := bytes]> m) (<[k := (p, rows')]> cs).
Proof.
  intros Hc Hk Hp. pose proof Hc as [Hnd Hall]. split; [by rewrite (ids_insert _ _ _ _ _ Hk)|].
  intros j q rs Hj. rewrite (next_of_insert _ _ _ _ _ _ Hk).
  rewrite list_lookup_insert in Hj. case_decide as Hd.
  - destruct Hd as [<- _]. by injection Hj as <- <-.
  - eapply page_at_frame; [by apply Hall|]. apply lookup_insert_ne. intros ->.
    apply Hd. split; [|by eapply lookup_lt_Some]. by eapply chain_inj.
Qed.

(** A new empty page is linked after the last one. *)
Lemma chain_snoc s m cs last rows q b1 b2 :
  chain s m (cs ++ [(last, rows)]) → m !! q = None →
  let m' := <[last := b1]> (<[q := b2]> m) in
  page_at s m' last q rows → page_at s m' q INVALID_PAGE_ID [] →
  chain s m' (cs ++ [(last, rows); (q, [])]).
Proof.
  intros [Hnd Hall] Hq m' Hlast Hpq.
  assert (∀ k p rs, (cs ++ [(last, rows)]) !! k = Some (p, rs) → p ≠ q) as Hne.
  { intros k p rs Hk ->. destruct (Hall k q rs Hk) as (bytes & tp & Hm & _). congruence. }
  split.
  - rewrite fmap_app. simpl. rewrite fmap_app in Hnd. simpl in Hnd.
    rewrite app_pair. apply NoDup_app. split_and!.
    + done.
    + intros p Hp ->%list_elem_of_singleton. change [last] with ([(last, rows)].*1) in Hp.
      rewrite <- fmap_app in Hp. apply list_elem_of_fmap in Hp as ([p rs] & Heq & Hin).
      apply list_elem_of_lookup in Hin as [k Hk]. apply Hne in Hk. simpl in Heq. congruence.
    + apply NoDup_singleton.
  - intros k p rs Hk. rewrite app_pair in *. destruct (decide (k < length (cs ++ [(last, rows)]))%nat) as [Hlt|Hge].
    + rewrite lookup_app_l in Hk by done.
      destruct (decide (k = length cs)) as [->|Hkl].
      * rewrite lookup_app_r, Nat.sub_diag in Hk by lia. simpl in Hk. injection Hk as <- <-.
        unfold next_of. rewrite lookup_app_r by (rewrite length_app; simpl; lia).
        rewrite length_app. simpl. by replace (S (length cs) - (length cs + 1))%nat with 0%nat by lia.
      * rewrite length_app in Hlt. simpl in Hlt.
        assert (next_of ((cs ++ [(last, rows)]) ++ [(q, [])]) k = next_of (cs ++ [(last, rows)]) k) as ->.
        { unfold next_of. rewrite lookup_app_l; [done|]. rewrite length_app. simpl. lia. }
        eapply page_at_frame; [by apply Hall|]. pose proof (Hne k p rs Hk) as Hpq'.
        assert (p ≠ last) as Hpl.
        { intros ->. apply Hkl. eapply (chain_inj s m (cs ++ [(last, rows)])); [done|exact Hk|].
          by rewrite lookup_app_r, Nat.sub_diag by lia. }
        unfold m'. by rewrite !lookup_insert_ne.
    + rewrite lookup_app_r in Hk by lia.
      destruct (k - length (cs ++ [(last, rows)]))%nat eqn:E; [|done]. simpl in Hk. injection Hk as <- <-.
      unfold next_of. rewrite lookup_ge_None_2; [done|]. rewrite length_app. simpl. lia.
Qed.

(** *** Calls of the pool *)
Section pool.
Context {D : Type} `{DiskLaws D}.
Implicit Types (h : t D) (st : PageStore.t) (s : BufferPoolManager.t D).

Definition now h : Z := BufferPoolFacts.timestamp (buffer_pool h).

Lemma on_pool_run {A} (m : SR (BufferPoolManager.t D) A) h s r :
  m (buffer_pool h) = (s, r) → on_pool m h = (set_pool s h, r).
Proof. intros Hm. unfold on_pool. by rewrite Hm. Qed.

(** [n] more frames than the pinned ones. *)
Definition spare_frames (n : nat) st : Prop :=
  (base.size (PageStore.refs st) + n ≤ PageStore.frames st)%nat.

Lemma spare_available s st n :
  PageStore.shows s st n → spare_frames 1 st → BufferPoolFacts.available s = true.
Proof.
  intros Hs Hf. destruct (BufferPoolFacts.available s) eqn:Hav; [done|].
  apply (PageStoreFacts.shows_available s st n Hs) in Hav.
  unfold PageStore.full, spare_frames in *. lia.
Qed.

Lemma spare_pin st f p c n :
  spare_frames (S n) st → PageStore.refs st !! f = None →
  spare_frames n (PageStore.set_refs (<[f := (p, c)]> (PageStore.refs st)) st).
Proof. unfold spare_frames. intros Hn Hf. simpl. rewrite map_size_insert_None by done. lia. Qed.

Lemma unpin st f p :
  PageStore.refs st !! f = None →
  PageStore.set_refs (delete f (<[f := (p, 1)]> (PageStore.refs st))) st = st.
Proof. destruct st as [fr m rf]. simpl. intros Hf. unfold PageStore.set_refs. simpl. by rewrite delete_insert_id. Qed.

Lemma page_unsigned s st n p :
  PageStore.shows s st n → is_Some (PageStore.pages st !! p) → p ≠ INVALID_PAGE_ID ∧ unsigned_ok 32 p.
Proof.
  intros Hs Hp%elem_of_dom. pose proof (BufferPoolFacts.pool_disk _ _ _ (PageStore.shows_ok _ _ _ Hs)) as Hd.
  destruct (disk_live _ _ _ p Hd Hp) as (? & ? & _). done.
Qed.

Lemma fetch_Ok h st n p next rows :
  PageStore.shows (buffer_pool h) st n → page_at (schema h) (PageStore.pages st) p next rows →
  PageStore.free_page st p → spare_frames 1 st → now h < 2 ^ 63 →
  ∃ s f tp, fetch_table_page p h = (set_pool s h, Ok (f, tp)) ∧
    PageStore.refs st !! f = None ∧
    PageStore.shows s (PageStore.set_refs (<[f := (p, 1)]> (PageStore.refs st)) st) n ∧
    BufferPoolFacts.timestamp s ≤ now h + 1 ∧
    TablePageFacts.rep tp rows ∧ TablePage.schema tp = schema h ∧
    TablePageHeader.next_page_id (TablePage.header tp) = next.
Proof.
  intros Hs (bytes & tp & Hm & Hd & Hrep & Hsch & Hn) Hfree Hsp Hq.
  destruct (PageStoreFacts.store_fetch (buffer_pool h) st n p Hs) as (s & f & Hrun & Hf & Hs' & Hts);
    [by eexists|done|done|by eapply spare_available|].
  exists s, f, tp. split_and!; [|done..].
  destruct (PageStoreFacts.store_read s _ n f p 1 Hs') as (g & Hfr & _ & Hg); [by apply lookup_insert_eq|].
  simpl in Hg. assert (Page.data g = bytes) as Hgd by congruence.
  unfold fetch_table_page, gets, mbind, SR_bind, on_pool. cbn [buffer_pool].
  unfold BufferPoolManager.fetch_table_page, BufferPoolManager.fetch_decoded.
  rewrite (SR_bind_Ok _ _ _ _ _ Hrun), (SR_bind_Ok _ _ _ _ _ Hfr), Hgd, Hd. done.
Qed.

(** A reference taken by the method is dropped at the end of its block. *)
Lemma holding_Ok {A} f (m : SR (t D) A) h h' st n p r :
  m h = (h', r) → r ≠ Panic → PageStore.refs st !! f = None →
  PageStore.shows (buffer_pool h') (PageStore.set_refs (<[f := (p, 1)]> (PageStore.refs st)) st) n →
  ∃ s, holding f m h = (set_pool s h', r) ∧ PageStore.shows s st n ∧
    BufferPoolFacts.timestamp s = now h'.
Proof.
  intros Hm Hr Hf Hs.
  destruct (PageStoreFacts.store_drop _ _ n f p 1 Hs) as (s & Hrun & Hs' & Hts);
    [by apply lookup_insert_eq|done|].
  cbn [PageStore.refs PageStore.set_refs PageStore.frames PageStore.pages] in Hs'.
  rewrite Z.eqb_refl in Hs'. exists s. split_and!; [|by rewrite <- (unpin st f p Hf)|done].
  unfold holding. rewrite Hm. unfold on_pool. rewrite Hrun. by destruct r.
Qed.

Lemma read_Ok h st n p next rows :
  PageStore.shows (buffer_pool h) st n → page_at (schema h) (PageStore.pages st) p next rows →
  PageStore.free_page st p → spare_frames 1 st → now h < 2 ^ 63 →
  ∃ s tp, read_table_page p h = (set_pool s h, Ok tp) ∧ PageStore.shows s st n ∧
    BufferPoolFacts.timestamp s ≤ now h + 1 ∧ TablePageFacts.rep tp rows ∧
    TablePageHeader.next_page_id (TablePage.header tp) = next.
Proof.
  intros Hs Hp Hfree Hsp Hq.
  destruct (fetch_Ok h st n p next rows Hs Hp Hfree Hsp Hq)
    as (s & f & tp & Hrun & Hf & Hs' & Hts & Hrep & _ & Hn).
  destruct (holding_Ok f (ret tp) (set_pool s h) _ st n p (Ok tp) eq_refl ltac:(done) Hf Hs')
    as (s' & Hd & Hs'' & Hts').
  exists s', tp. unfold read_table_page. rewrite (SR_bind_Ok _ _ _ _ _ Hrun).
  split_and!; [exact Hd|done|rewrite Hts'; exact Hts|done..].
Qed.

(** A table page written through a reference. *)
Lemma write_Ok h st n f p c tp rows :
  PageStore.shows (buffer_pool h) st n → PageStore.refs st !! f = Some (p, c) →
  TablePageFacts.rep tp rows →
  ∃ s bytes, write_table_page f tp h = (set_pool s h, Ok tt) ∧
    PageStore.shows s (PageStore.set_pages (<[p := bytes]> (PageStore.pages st)) st) n ∧
    BufferPoolFacts.timestamp s = now h ∧
    ∀ m, m !! p = Some bytes →
      page_at (TablePage.schema tp) m p (TablePageHeader.next_page_id (TablePage.header tp)) rows.
Proof.
  intros Hs Hf Hrep.
  destruct (TablePageFacts.page_round_trip tp rows Hrep) as (bs & tp' & He & Hl & Hd & Hrep' & Hsch & Hh).
  destruct (PageStoreFacts.store_write _ st n f p c bs Hs Hf Hl) as (s & Hrun & Hs' & Hts).
  exists s, bs. split_and!; [|done|done|].
  - unfold write_table_page, lift, mbind, SR_bind. rewrite He. unfold page_bytes_to_array.
    rewrite Hl, Nat.eqb_refl. unfold on_pool. by rewrite Hrun.
  - intros m Hm. exists bs, tp'. split_and!; [done..|]. by rewrite Hh.
Qed.

(** A new page with an empty table page. *)
Lemma new_table_page_Ok h st n :
  PageStore.shows (buffer_pool h) st (S n) → spare_frames 1 st → now h < 2 ^ 63 →
  ∃ s f p bytes, new_table_page h
      = (set_pool s h, Ok (f, p, TablePage.new (schema h) INVALID_PAGE_ID)) ∧
    PageStore.pages st !! p = None ∧ PageStore.refs st !! f = None ∧
    PageStore.shows s (PageStore.Mk (PageStore.frames st) (<[p := bytes]> (PageStore.pages st))
      (<[f := (p, 1)]> (PageStore.refs st))) n ∧
    BufferPoolFacts.timestamp s = now h + 1 ∧
    (∀ m, m !! p = Some bytes → page_at (schema h) m p INVALID_PAGE_ID []).
Proof.
  intros Hs Hsp Hq.
  destruct (PageStoreFacts.store_new (buffer_pool h) st n Hs) as (s & f & p & Hrun & Hp & Hf & Hs' & Hts);
    [done|by eapply spare_available|].
  destruct (PageStoreFacts.store_read s _ n f p 1 Hs') as (g & Hfr & Hid & _); [by apply lookup_insert_eq|].
  assert (TablePageFacts.rep (TablePage.new (schema h) INVALID_PAGE_ID) []) as Hrep
    by (by apply TablePageFacts.rep_new).
  destruct (write_Ok (set_pool s h) _ n f p 1 _ [] Hs' ltac:(by apply lookup_insert_eq) Hrep)
    as (s' & bytes & Hw & Hs'' & Hts' & Hpage).
  exists s', f, p, bytes. split_and!; [|done|done| | |].
  - unfold new_table_page. rewrite (SR_bind_Ok (gets schema) _ h h (schema h) eq_refl).
    rewrite (SR_bind_Ok _ _ _ _ _ (on_pool_run _ _ _ _ Hrun)).
    assert (ref_page_id f (set_pool s h) = (set_pool s h, Ok p)) as Hr.
    { unfold ref_page_id. by rewrite (SR_bind_Ok _ _ _ _ _ (on_pool_run _ (set_pool s h) _ _ Hfr)), Hid. }
    by rewrite (SR_bind_Ok _ _ _ _ _ Hr), (SR_bind_Ok _ _ _ _ _ Hw).
  - cbn [PageStore.pages PageStore.set_pages PageStore.set_refs PageStore.refs PageStore.frames] in Hs''.
    unfold PageStore.set_pages in Hs''. cbn [PageStore.refs PageStore.frames PageStore.pages] in Hs''.
    by rewrite insert_insert_eq in Hs''.
  - rewrite Hts'. exact Hts.
  - exact Hpage.
Qed.

(** The heap [h] lists the pages [cs] of the memory [m]: every page but the last has
    rows. *)
Record listed h (m : gmap Z (list Z)) (cs : pages_rows) : Prop := Listed {
  listed_chain : chain (schema h) m cs;
  listed_first : fst <$> head cs = Some (first_page_id h);
  listed_last : fst <$> last cs = Some (last_page_id h);
  listed_rows : ∀ k c, cs !! k = Some c → (S k < length cs)%nat → c.2 ≠ [];
}.

(** The pool of the heap [h] shows the store [st], with room for [n] more pages, where
    the heap has the pages [cs], unpinned. *)
Record heap_ok h st cs (n : nat) : Prop := HeapOk {
  heap_shows : PageStore.shows (buffer_pool h) st n;
  heap_listed : listed h (PageStore.pages st) cs;
  heap_free : Forall (λ c, PageStore.free_page st c.1) cs;
}.

Lemma listed_pool h m cs s : listed h m cs → listed (set_pool s h) m cs.
Proof. intros []. by split. Qed.

Lemma listed_frame h m m' cs :
  listed h m cs → (∀ p, p ∈ cs.*1 → m' !! p = m !! p) → listed h m' cs.
Proof.
  intros [[Hn Hc] ? ? ?] Hm. split; [|done..]. split; [done|]. intros k p rows Hk.
  destruct (Hc k p rows Hk) as (bytes & tp & Hb & Hp). exists bytes, tp. split; [|done].
  rewrite Hm; [done|]. apply list_elem_of_fmap. exists (p, rows). split; [done|]. by eapply list_elem_of_lookup_2.
Qed.

Lemma listed_update h m cs k p rows rows' bytes :
  listed h m cs → cs !! k = Some (p, rows) →
  page_at (schema h) (<[p := bytes]> m) p (next_of cs k) rows' → (rows ≠ [] → rows' ≠ []) →
  listed h (<[p := bytes]> m) (<[k := (p, rows')]> cs).
Proof.
  intros [Hc Hf Hl Hr] Hk Hp Hne. pose proof (ids_insert cs k p rows rows' Hk) as Hids.
  split; [by eapply chain_update|..].
  - rewrite <- Hf. assert (∀ l : pages_rows, fst <$> head l = head l.*1) as Hh by (by intros []).
    by rewrite !Hh, Hids.
  - by rewrite <- fmap_last, Hids, fmap_last.
  - intros j c Hj Hlt. rewrite length_insert in Hlt. rewrite list_lookup_insert in Hj.
    case_decide as Hd; [|by eapply Hr]. destruct Hd as [<- _]. injection Hj as <-.
    apply Hne, (Hr _ _ Hk Hlt).
Qed.

Lemma listed_split h m cs k p rows :
  listed h m cs → cs !! k = Some (p, rows) → S k = length cs →
  p = last_page_id h ∧ ∃ pre, cs = pre ++ [(p, rows)] ∧ k = length pre.
Proof.
  intros [_ _ Hl _] Hk Hlast. destruct cs as [|c pre] using rev_ind; [done|].
  rewrite last_snoc in Hl. injection Hl as <-. rewrite length_app in Hlast. simpl in Hlast.
  assert (k = length pre) as -> by lia.
  rewrite lookup_app_r, Nat.sub_diag in Hk by lia. injection Hk as ->. split; [done|by exists pre].
Qed.

Lemma listed_snoc h m cs k p rows q b1 b2 :
  listed h m cs → cs !! k = Some (p, rows) → S k = length cs → rows ≠ [] → m !! q = None →
  let m' := <[p := b1]> (<[q := b2]> m) in
  page_at (schema h) m' p q rows → page_at (schema h) m' q INVALID_PAGE_ID [] →
  listed (set_last q h) m' (cs ++ [(q, [])]).
Proof.
  intros Hlist Hk Hlast Hne Hq m' H1 H2.
  destruct (listed_split _ _ _ _ _ _ Hlist Hk Hlast) as (-> & pre & -> & ->).
  destruct Hlist as [Hc Hf Hl Hr]. split.
  - rewrite <- app_pair. by eapply chain_snoc.
  - destruct pre; exact Hf.
  - by rewrite last_snoc.
  - intros j c Hj Hlt. rewrite length_app in Hlt. simpl in Hlt. rewrite lookup_app_l in Hj by lia.
    destruct (decide (S j < length (pre ++ [(last_page_id h, rows)]))%nat) as [Hlt'|Hge]; [by eapply Hr|].
    replace j with (length pre) in Hj by lia. rewrite Hk in Hj. by injection Hj as <-.
Qed.

Lemma listed_page h m cs k p rows :
  listed h m cs → cs !! k = Some (p, rows) → page_at (schema h) m p (next_of cs k) rows.
Proof. intros [[_ Hc] _ _ _]. apply Hc. Qed.

Lemma heap_page_free h st cs n k p rows :
  heap_ok h st cs n → cs !! k = Some (p, rows) → PageStore.free_page st p.
Proof. intros Hh Hk. apply (Forall_lookup_1 _ _ _ _ (heap_free _ _ _ _ Hh) Hk). Qed.

(** A block that ends by writing a table page and drops its reference. *)
Lemma holding_write_Ok {A} f (m : SR (t D) A) h st n p tp rows a :
  (∀ s, write_table_page f tp h = (set_pool s h, Ok tt) → m h = (set_pool s h, Ok a)) →
  PageStore.refs st !! f = None →
  PageStore.shows (buffer_pool h) (PageStore.set_refs (<[f := (p, 1)]> (PageStore.refs st)) st) n →
  TablePageFacts.rep tp rows →
  ∃ s bytes, holding f m h = (set_pool s h, Ok a) ∧
    PageStore.shows s (PageStore.set_pages (<[p := bytes]> (PageStore.pages st)) st) n ∧
    BufferPoolFacts.timestamp s = now h ∧
    ∀ m, m !! p = Some bytes →
      page_at (TablePage.schema tp) m p (TablePageHeader.next_page_id (TablePage.header tp)) rows.
Proof.
  intros Hm Hf Hs Hrep.
  destruct (write_Ok h _ n f p 1 tp rows Hs ltac:(by apply lookup_insert_eq) Hrep)
    as (s & bytes & Hw & Hs' & Hts & Hpage).
  destruct (holding_Ok f m h (set_pool s h)
    (PageStore.set_pages (<[p := bytes]> (PageStore.pages st)) st) n p (Ok a) (Hm _ Hw) ltac:(done) Hf Hs')
    as (s' & Hd & Hs'' & Hts').
  exists s', bytes. split_and!; [exact Hd|done| |done]. by rewrite Hts'.
Qed.

Lemma heap_same h st cs n s :
  heap_ok h st cs n → PageStore.shows s st n → heap_ok (set_pool s h) st cs n.
Proof. intros [_ Hl Hfree] Hs. split; [done|by apply listed_pool|done]. Qed.

Lemma heap_update h st cs n s k p rows rows' bytes :
  listed h (PageStore.pages st) cs → Forall (λ c, PageStore.free_page st c.1) cs →
  cs !! k = Some (p, rows) →
  PageStore.shows s (PageStore.set_pages (<[p := bytes]> (PageStore.pages st)) st) n →
  page_at (schema h) (<[p := bytes]> (PageStore.pages st)) p (next_of cs k) rows' →
  (rows ≠ [] → rows' ≠ []) →
  heap_ok (set_pool s h) (PageStore.set_pages (<[p := bytes]> (PageStore.pages st)) st)
    (<[k := (p, rows')]> cs) n.
Proof.
  intros Hl Hfree Hk Hs Hp Hne. split; [done| |].
  - apply listed_pool. by eapply listed_update.
  - apply Forall_insert; [done|]. apply (Forall_lookup_1 _ _ _ _ Hfree Hk).
Qed.

(** *** The methods *)
Lemma heap_read_Ok h st cs n k p rows :
  heap_ok h st cs n → cs !! k = Some (p, rows) → spare_frames 1 st → now h < 2 ^ 63 →
  ∃ s tp, read_table_page p h = (set_pool s h, Ok tp) ∧ heap_ok (set_pool s h) st cs n ∧
    BufferPoolFacts.timestamp s ≤ now h + 1 ∧ TablePageFacts.rep tp rows ∧
    TablePageHeader.next_page_id (TablePage.header tp) = next_of cs k.
Proof.
  intros Hh Hk Hsp Hq. pose proof (heap_page_free _ _ _ _ _ _ _ Hh Hk) as Hfree.
  destruct (read_Ok h st n p _ rows (heap_shows _ _ _ _ Hh)
    (listed_page _ _ _ _ _ _ (heap_listed _ _ _ _ Hh) Hk) Hfree Hsp Hq)
    as (s & tp & Hrun & Hs & Hts & Hrep & Hn).
  exists s, tp. split_and!; [done|by eapply heap_same|done..].
Qed.

Lemma modify_Ok h st cs n k p rows rows' g :
  heap_ok h st cs n → cs !! k = Some (p, rows) → spare_frames 1 st → now h < 2 ^ 63 →
  (∀ tp, TablePageFacts.rep tp rows → TablePage.schema tp = schema h →
    ∃ tp', g tp = Ok tp' ∧ TablePageFacts.rep tp' rows' ∧ TablePage.schema tp' = TablePage.schema tp ∧
      TablePageHeader.next_page_id (TablePage.header tp') = TablePageHeader.next_page_id (TablePage.header tp)) →
  (rows ≠ [] → rows' ≠ []) →
  ∃ s bytes, modify_table_page p g h = (set_pool s h, Ok tt) ∧
    heap_ok (set_pool s h) (PageStore.set_pages (<[p := bytes]> (PageStore.pages st)) st)
      (<[k := (p, rows')]> cs) n ∧
    BufferPoolFacts.timestamp s ≤ now h + 1.
Proof.
  intros Hh Hk Hsp Hq Hg Hne. pose proof (heap_page_free _ _ _ _ _ _ _ Hh Hk) as Hfree.
  destruct (fetch_Ok h st n p _ rows (heap_shows _ _ _ _ Hh)
    (listed_page _ _ _ _ _ _ (heap_listed _ _ _ _ Hh) Hk) Hfree Hsp Hq)
    as (s & f & tp & Hrun & Hf & Hs & Hts & Hrep & Hsch & Hn).
  destruct (Hg tp Hrep Hsch) as (tp' & Hgt & Hrep' & Hsch' & Hn').
  destruct (holding_write_Ok f (table_page ← lift (g tp); write_table_page f table_page)
    (set_pool s h) st n p tp' rows' tt) as (s' & bytes & Hd & Hs' & Hts' & Hpage); [|done..|].
  { intros s' Hw. by rewrite (SR_bind_Ok (lift (g tp)) _ _ _ tp' (f_equal (pair _) Hgt)). }
  exists s', bytes. split_and!.
  - unfold modify_table_page. by rewrite (SR_bind_Ok _ _ _ _ _ Hrun).
  - eapply heap_update; [apply Hh|apply Hh|done..| |done].
    rewrite <- Hn, <- Hn', <- Hsch, <- Hsch'. apply Hpage, lookup_insert_eq.
  - rewrite Hts'. exact Hts.
Qed.

Lemma modify_Err h st cs n k p rows g e :
  heap_ok h st cs n → cs !! k = Some (p, rows) → spare_frames 1 st → now h < 2 ^ 63 →
  (∀ tp, TablePageFacts.rep tp rows → TablePage.schema tp = schema h → g tp = Err e) →
  ∃ s, modify_table_page p g h = (set_pool s h, Err e) ∧ heap_ok (set_pool s h) st cs n ∧
    BufferPoolFacts.timestamp s ≤ now h + 1.
Proof.
  intros Hh Hk Hsp Hq Hg. pose proof (heap_page_free _ _ _ _ _ _ _ Hh Hk) as Hfree.
  destruct (fetch_Ok h st n p _ rows (heap_shows _ _ _ _ Hh)
    (listed_page _ _ _ _ _ _ (heap_listed _ _ _ _ Hh) Hk) Hfree Hsp Hq)
    as (s & f & tp & Hrun & Hf & Hs & Hts & Hrep & Hsch & _).
  destruct (holding_Ok f (table_page ← lift (g tp); write_table_page f table_page)
    (set_pool s h) (set_pool s h) st n p (Err e)) as (s' & Hd & Hs' & Hts'); [|done..|].
  { by rewrite (SR_bind_Err (lift (g tp)) _ _ _ e (f_equal (pair _) (Hg tp Hrep Hsch))). }
  exists s'. split_and!.
  - unfold modify_table_page. by rewrite (SR_bind_Ok _ _ _ _ _ Hrun).
  - by eapply heap_same.
  - rewrite Hts'. exact Hts.
Qed.

(** The end of [insert_tuple], on a page with room. *)
Lemma insert_tail_Ok h st n f p tp rows meta tup :
  PageStore.shows (buffer_pool h) (PageStore.set_refs (<[f := (p, 1)]> (PageStore.refs st)) st) n →
  PageStore.refs st !! f = None → TablePageFacts.rep tp rows → TablePage.schema tp = schema h →
  TablePageFacts.row_ok (schema h) (meta, tup) →
  TablePageFacts.space (rows ++ [(meta, tup)]) ≤ TablePageFacts.page_end →
  ∃ s bytes,
    holding f (
      '(last_table_page, slot_id) ← lift (TablePage.insert_tuple tp meta tup);
      _ ← write_table_page f last_table_page;
      ret (RecordId.Mk p slot_id)) h
      = (set_pool s h, Ok (RecordId.Mk p (Z.of_nat (length rows)))) ∧
    PageStore.shows s (PageStore.set_pages (<[p := bytes]> (PageStore.pages st)) st) n ∧
    BufferPoolFacts.timestamp s = now h ∧
    ∀ m, m !! p = Some bytes →
      page_at (schema h) m p (TablePageHeader.next_page_id (TablePage.header tp)) (rows ++ [(meta, tup)]).
Proof.
  intros Hs Hf Hrep Hsch Hrow Hspace. rewrite <- Hsch in *.
  destruct (TablePageFacts.insert_tuple_rep tp rows (meta, tup) Hrep Hrow Hspace)
    as (tp' & Hins & Hrep' & Hsch' & Hn'). simpl in Hins.
  rewrite <- Hsch', <- Hn'. eapply holding_write_Ok; [|done..].
  intros s Hw. unfold lift. unfold mbind at 1, SR_bind at 1. rewrite Hins.
  by rewrite (SR_bind_Ok _ _ _ _ _ Hw).
Qed.

Lemma insert_loop_room fuel tup f p tp h off :
  TablePage.next_tuple_offset tp tup = Ok off → insert_loop fuel tup f p tp h = (h, Ok (f, p, tp)).
Proof. intros Hoff. destruct fuel; simpl; by rewrite Hoff. Qed.

Lemma rep_with_next q tp rows :
  unsigned_ok 32 q → TablePageFacts.rep tp rows → TablePageFacts.rep (with_next q tp) rows.
Proof. intros Hq []. by split. Qed.

(** One round of the loop: a new page is linked after [p]. *)
Lemma insert_grow_Ok h st n f p tp rows :
  PageStore.shows (buffer_pool h) (PageStore.set_refs (<[f := (p, 1)]> (PageStore.refs st)) st) (S n) →
  PageStore.refs st !! f = None → spare_frames 2 st → now h < 2 ^ 63 →
  TablePageFacts.rep tp rows → TablePage.schema tp = schema h → is_Some (PageStore.pages st !! p) →
  ∃ s f2 q b1 b2,
    holding f (
      '(next_page, next_page_id, next_table_page) ← new_table_page;
      _ ← write_table_page f (with_next next_page_id tp);
      ret (next_page, next_page_id, next_table_page)) h
      = (set_pool s h, Ok (f2, q, TablePage.new (schema h) INVALID_PAGE_ID)) ∧
    PageStore.pages st !! q = None ∧ PageStore.refs st !! f2 = None ∧
    PageStore.shows s (PageStore.Mk (PageStore.frames st) (<[p := b1]> (<[q := b2]> (PageStore.pages st)))
      (<[f2 := (q, 1)]> (PageStore.refs st))) n ∧
    BufferPoolFacts.timestamp s = now h + 1 ∧
    page_at (schema h) (<[p := b1]> (<[q := b2]> (PageStore.pages st))) p q rows ∧
    page_at (schema h) (<[p := b1]> (<[q := b2]> (PageStore.pages st))) q INVALID_PAGE_ID [].
Proof.
  intros Hs Hf Hsp Hq Hrep Hsch Hp.
  destruct (new_table_page_Ok h _ n Hs (spare_pin st f p 1 1 Hsp Hf) Hq)
    as (s1 & f2 & q & b2 & Hnew & Hq2 & Hf2 & Hs1 & Hts1 & Hpage2).
  cbn [PageStore.pages PageStore.refs PageStore.set_refs PageStore.frames] in *.
  apply lookup_insert_None in Hf2 as [Hf2 Hff].
  destruct (page_unsigned s1 _ n q Hs1) as [_ Hqu]; [simpl; rewrite lookup_insert_eq; by eexists|].
  destruct (write_Ok (set_pool s1 h) _ n f p 1 (with_next q tp) rows Hs1)
    as (s2 & b1 & Hw & Hs2 & Hts2 & Hpage1).
  { simpl. rewrite lookup_insert_ne by done. apply lookup_insert_eq. }
  { by apply rep_with_next. }
  unfold PageStore.set_pages in Hs2. cbn [PageStore.pages PageStore.refs PageStore.frames] in Hs2.
  rewrite (insert_insert_ne (PageStore.refs st)) in Hs2 by done.
  destruct (holding_Ok f
    ('(next_page, next_page_id, next_table_page) ← new_table_page;
      _ ← write_table_page f (with_next next_page_id tp);
      ret (next_page, next_page_id, next_table_page)) h (set_pool s2 h)
    (PageStore.Mk (PageStore.frames st) (<[p := b1]> (<[q := b2]> (PageStore.pages st)))
      (<[f2 := (q, 1)]> (PageStore.refs st))) n p
    (Ok (f2, q, TablePage.new (schema h) INVALID_PAGE_ID))) as (s & Hd & Hs' & Hts);
    [|done|simpl; by rewrite lookup_insert_ne|exact Hs2|].
  { by rewrite (SR_bind_Ok _ _ _ _ _ Hnew), (SR_bind_Ok _ _ _ _ _ Hw). }
  exists s, f2, q, b1, b2. split_and!; try done.
  - rewrite Hts. change (now (set_pool s2 h)) with (BufferPoolFacts.timestamp s2).
    by rewrite Hts2.
  - rewrite <- Hsch. apply (Hpage1 _), lookup_insert_eq.
  - apply Hpage2. rewrite lookup_insert_ne; [by rewrite lookup_insert_eq|].
    intros ->. rewrite Hq2 in Hp. by destruct Hp.
Qed.

Lemma refs_pages s st n f p c :
  PageStore.shows s st n → PageStore.refs st !! f = Some (p, c) → is_Some (PageStore.pages st !! p).
Proof.
  intros Hs Hf. destruct (PageStoreFacts.store_read s st n f p c Hs Hf) as (g & _ & _ & Hp). by eexists.
Qed.

Lemma insert_room_Ok h st cs n k p rows meta tup :
  heap_ok h st cs n → cs !! k = Some (p, rows) → S k = length cs → spare_frames 1 st → now h < 2 ^ 63 →
  TablePageFacts.row_ok (schema h) (meta, tup) →
  TablePageFacts.space (rows ++ [(meta, tup)]) ≤ TablePageFacts.page_end →
  ∃ s bytes, insert_tuple meta tup h = (set_pool s h, Ok (RecordId.Mk p (Z.of_nat (length rows)))) ∧
    heap_ok (set_pool s h) (PageStore.set_pages (<[p := bytes]> (PageStore.pages st)) st)
      (<[k := (p, rows ++ [(meta, tup)])]> cs) n ∧
    BufferPoolFacts.timestamp s ≤ now h + 1.
Proof.
  intros Hh Hk Hlast Hsp Hq Hrow Hspace. pose proof (heap_page_free _ _ _ _ _ _ _ Hh Hk) as Hfree.
  pose proof (heap_listed _ _ _ _ Hh) as Hl.
  destruct (listed_split _ _ _ _ _ _ Hl Hk Hlast) as [Hid _].
  destruct (fetch_Ok h st n p _ rows (heap_shows _ _ _ _ Hh) (listed_page _ _ _ _ _ _ Hl Hk) Hfree Hsp Hq)
    as (s & f & tp & Hrun & Hf & Hs & Hts & Hrep & Hsch & Hn).
  destruct (insert_tail_Ok (set_pool s h) st n f p tp rows meta tup Hs Hf Hrep Hsch Hrow Hspace)
    as (s' & bytes & Htail & Hs' & Hts' & Hpage).
  destruct (TablePageFacts.row_ok_encode _ _ Hrow) as (bs & He & _). simpl in He.
  pose proof (TablePageFacts.next_tuple_offset_spec tp rows (meta, tup) bs Hrep He) as Hoff.
  rewrite (proj2 (Z.leb_le _ _) Hspace) in Hoff.
  exists s', bytes. split_and!.
  - unfold insert_tuple. rewrite (SR_bind_Ok (gets last_page_id) _ h h (last_page_id h) eq_refl), <- Hid.
    rewrite (SR_bind_Ok _ _ _ _ _ Hrun), (SR_bind_Ok _ _ _ _ _ (insert_loop_room _ _ _ _ _ _ _ Hoff)).
    exact Htail.
  - eapply heap_update; [apply Hh|apply Hh|done..| |by destruct rows].
    rewrite <- Hn. apply Hpage, lookup_insert_eq.
  - rewrite Hts'. exact Hts.
Qed.

(** The loop from a page without room, up to the new page. *)
Lemma insert_loop_grow fuel tup f p tp h s f2 q off :
  TablePage.next_tuple_offset tp tup = TablePage.no_space_error →
  0 < TablePageHeader.num_tuples (TablePage.header tp) →
  holding f (
    '(next_page, next_page_id, next_table_page) ← new_table_page;
    _ ← write_table_page f (with_next next_page_id tp);
    ret (next_page, next_page_id, next_table_page)) h
    = (set_pool s h, Ok (f2, q, TablePage.new (schema h) INVALID_PAGE_ID)) →
  TablePage.next_tuple_offset (TablePage.new (schema h) INVALID_PAGE_ID) tup = Ok off →
  insert_loop (S fuel) tup f p tp h
  = (set_last q (set_pool s h), Ok (f2, q, TablePage.new (schema h) INVALID_PAGE_ID)).
Proof.
  intros Hno Hpos Hrun Hoff. cbn [insert_loop]. rewrite Hno. unfold TablePage.no_space_error.
  rewrite (proj2 (Z.ltb_lt _ _) Hpos).
  rewrite (SR_bind_Ok (lift (assert_true true)) _ h h tt eq_refl).
  rewrite (SR_bind_Ok _ _ _ _ _ Hrun).
  rewrite (SR_bind_Ok (modify (set_last q)) _ _ (set_last q (set_pool s h)) tt eq_refl).
  by eapply insert_loop_room.
Qed.

(** The heap after a page [q] with one row is linked to the last one. *)
Lemma heap_grow h st cs n k p rows q b1 b2 b3 s r :
  listed h (PageStore.pages st) cs → Forall (λ c, PageStore.free_page st c.1) cs →
  cs !! k = Some (p, rows) → S k = length cs → rows ≠ [] →
  PageStore.pages st !! q = None → PageStore.free_page st q →
  let m := <[p := b1]> (<[q := b2]> (PageStore.pages st)) in
  page_at (schema h) m p q rows → page_at (schema h) m q INVALID_PAGE_ID [] →
  page_at (schema h) (<[q := b3]> m) q INVALID_PAGE_ID [r] →
  PageStore.shows s (PageStore.set_pages (<[q := b3]> m) st) n →
  heap_ok (set_pool s (set_last q h)) (PageStore.set_pages (<[q := b3]> m) st) (cs ++ [(q, [r])]) n.
Proof.
  intros Hl Hfree Hk Hlast Hne Hq Hqf m H1 H2 H3 Hs.
  assert (cs ++ [(q, [r])] = <[length cs := (q, [r])]> (cs ++ [(q, [])])) as ->
    by (by rewrite insert_app_r_alt, Nat.sub_diag by lia).
  eapply (heap_update (set_last q h) (PageStore.set_pages m st) _ n s _ q []).
  - by eapply listed_snoc.
  - apply Forall_app. split; [done|]. by apply Forall_singleton.
  - by rewrite lookup_app_r, Nat.sub_diag by lia.
  - exact Hs.
  - unfold next_of. rewrite lookup_ge_None_2; [exact H3|]. rewrite length_app. simpl. lia.
  - done.
Qed.

Lemma insert_new_page_Ok h st cs n k p rows meta tup :
  heap_ok h st cs (S n) → cs !! k = Some (p, rows) → S k = length cs → spare_frames 2 st →
  now h + 1 < 2 ^ 63 → TablePageFacts.row_ok (schema h) (meta, tup) →
  TablePageFacts.space [(meta, tup)] ≤ TablePageFacts.page_end →
  TablePageFacts.page_end < TablePageFacts.space (rows ++ [(meta, tup)]) →
  ∃ s q m, insert_tuple meta tup h = (set_pool s (set_last q h), Ok (RecordId.Mk q 0)) ∧
    PageStore.pages st !! q = None ∧ (∀ x, x ≠ p → x ≠ q → m !! x = PageStore.pages st !! x) ∧
    heap_ok (set_pool s (set_last q h)) (PageStore.set_pages m st) (cs ++ [(q, [(meta, tup)])]) n ∧
    BufferPoolFacts.timestamp s ≤ now h + 2.
Proof.
  intros Hh Hk Hlast Hsp Hq Hrow Hone Hspace.
  pose proof (heap_page_free _ _ _ _ _ _ _ Hh Hk) as Hfree. pose proof (heap_listed _ _ _ _ Hh) as Hl.
  destruct (listed_split _ _ _ _ _ _ Hl Hk Hlast) as (-> & _).
  assert (rows ≠ []) as Hne by (intros ->; simpl in Hspace; lia).
  destruct (fetch_Ok h st (S n) _ _ rows (heap_shows _ _ _ _ Hh) (listed_page _ _ _ _ _ _ Hl Hk) Hfree)
    as (s & f & tp & Hrun & Hf & Hs & Hts & Hrep & Hsch & _); [unfold spare_frames in *; lia|lia|].
  destruct (insert_grow_Ok (set_pool s h) st n f _ tp rows Hs Hf Hsp) as
    (s1 & f2 & q & b1 & b2 & Hgrow & Hq2 & Hf2 & Hs1 & Hts1 & Hp1 & Hp2);
    [change (BufferPoolFacts.timestamp s < 2 ^ 63); lia|done..| |].
  { destruct (listed_page _ _ _ _ _ _ Hl Hk) as (b & _ & Hb & _). by eexists. }
  destruct (TablePageFacts.row_ok_encode _ _ Hrow) as (bs & He & _). simpl in He.
  pose proof (TablePageFacts.next_tuple_offset_spec tp rows (meta, tup) bs Hrep He) as Hno.
  rewrite (proj2 (Z.leb_gt _ _) Hspace) in Hno.
  assert (TablePageFacts.rep (TablePage.new (schema h) INVALID_PAGE_ID) []) as Hnew
    by (by apply TablePageFacts.rep_new).
  pose proof (TablePageFacts.next_tuple_offset_spec _ [] (meta, tup) bs Hnew He) as Hoff.
  cbn [app] in Hoff. rewrite (proj2 (Z.leb_le _ _) Hone) in Hoff.
  set (m1 := <[last_page_id h := b1]> (<[q := b2]> (PageStore.pages st))) in *.
  set (h2 := set_last q (set_pool s1 h)).
  destruct (insert_tail_Ok h2 (PageStore.Mk (PageStore.frames st) m1 (PageStore.refs st)) n f2 q _ [] meta tup
    Hs1 Hf2 Hnew eq_refl Hrow Hone) as (s2 & b3 & Htail & Hs2 & Hts2 & Hpage).
  exists s2, q, (<[q := b3]> m1). split_and!; [|done| | |].
  - unfold insert_tuple. rewrite (SR_bind_Ok (gets last_page_id) _ h h (last_page_id h) eq_refl).
    rewrite (SR_bind_Ok _ _ _ _ _ Hrun).
    assert (0 < TablePageHeader.num_tuples (TablePage.header tp)) as Hpos.
    { rewrite (TablePageFacts.rep_num _ _ Hrep), (TablePageFacts.rep_length _ _ Hrep). destruct rows; [done|simpl; lia]. }
    rewrite (SR_bind_Ok _ _ _ _ _ (insert_loop_grow 1 tup f (last_page_id h) tp _ s1 f2 q _ Hno Hpos Hgrow Hoff)).
    exact Htail.
  - intros x Hx1 Hx2. unfold m1. by rewrite !lookup_insert_ne.
  - eapply heap_grow; [done|apply Hh|done..| |exact Hp1|exact Hp2| |exact Hs2].
    + intros g c Hg. destruct (refs_pages _ _ _ _ _ _ (heap_shows _ _ _ _ Hh) Hg) as [? ?]. congruence.
    + apply Hpage, lookup_insert_eq.
  - rewrite Hts2. change (now h2) with (BufferPoolFacts.timestamp s1). rewrite Hts1.
    change (now (set_pool s h)) with (BufferPoolFacts.timestamp s). lia.
Qed.

End pool.

End TableHeapFacts.

(** ** The rows of a heap

    What the methods promise: a heap is a list of pages of rows; [step] says what each
    call answers and how the rows change. *)
Module HeapRows.
Import TableHeapFacts.

Inductive op : Type :=
  | Insert (meta : TupleMeta.t) (tuple : Tuple.t)
  | Update (rid : RecordId.t) (tuple : Tuple.t)
  | UpdateMeta (rid : RecordId.t) (meta : TupleMeta.t)
  | Full (rid : RecordId.t) | Read (rid : RecordId.t) | ReadMeta (rid : RecordId.t).

Inductive answer : Type :=
  | Rid (rid : RecordId.t) | Done | Row (r : row) | Data (tuple : Tuple.t) | Meta (meta : TupleMeta.t).

(** [rid] names slot [slot] of the [k]-th page. *)
Definition at_slot (cs : pages_rows) (rid : RecordId.t) (k : nat) (rows : list row) (slot : nat) : Prop :=
  cs !! k = Some (RecordId.page_id rid, rows) ∧ RecordId.slot_num rid = Z.of_nat slot ∧ Z.of_nat slot < 2 ^ 16.

(** What a client may ask: rows of the schema that fit in an empty page, rids of pages
    of the heap; a deleted row stays deleted. *)
Inductive legal (s : Schema.t) (cs : pages_rows) : op → Prop :=
  | legal_insert meta tup :
      TablePageFacts.row_ok s (meta, tup) → TablePageFacts.space [(meta, tup)] ≤ TablePageFacts.page_end →
      legal s cs (Insert meta tup)
  | legal_update rid tup k rows slot :
      at_slot cs rid k rows slot → Tuple.ok s tup ∧ Forall TupleCodecFacts.encodable (Tuple.data tup) →
      legal s cs (Update rid tup)
  | legal_update_meta rid meta k rows slot :
      at_slot cs rid k rows slot → TablePageFacts.meta_ok meta →
      (∀ r, rows !! slot = Some r → TupleMeta.is_deleted r.1 = true → TupleMeta.is_deleted meta = true) →
      legal s cs (UpdateMeta rid meta)
  | legal_full rid k rows slot : at_slot cs rid k rows slot → legal s cs (Full rid)
  | legal_read rid k rows slot : at_slot cs rid k rows slot → legal s cs (Read rid)
  | legal_read_meta rid k rows slot : at_slot cs rid k rows slot → legal s cs (ReadMeta rid).

(** The page a call that names a row reads. *)
Definition rid_of (o : op) : option RecordId.t :=
  match o with
  | Insert _ _ => None
  | Update rid _ | UpdateMeta rid _ | Full rid | Read rid | ReadMeta rid => Some rid
  end.

Inductive step (cs : pages_rows) : op → result answer → pages_rows → Prop :=
  | step_append k p rows meta tup :
      cs !! k = Some (p, rows) → S k = length cs →
      TablePageFacts.space (rows ++ [(meta, tup)]) ≤ TablePageFacts.page_end →
      step cs (Insert meta tup) (Ok (Rid (RecordId.Mk p (Z.of_nat (length rows)))))
        (<[k := (p, rows ++ [(meta, tup)])]> cs)
  | step_new_page k p rows meta tup q :
      cs !! k = Some (p, rows) → S k = length cs →
      TablePageFacts.page_end < TablePageFacts.space (rows ++ [(meta, tup)]) → q ∉ cs.*1 →
      step cs (Insert meta tup) (Ok (Rid (RecordId.Mk q 0))) (cs ++ [(q, [(meta, tup)])])
  | step_update rid tup k rows slot r :
      at_slot cs rid k rows slot → rows !! slot = Some r →
      TablePageFacts.space (<[slot := (r.1, tup)]> rows) ≤ TablePageFacts.page_end →
      step cs (Update rid tup) (Ok Done) (<[k := (RecordId.page_id rid, <[slot := (r.1, tup)]> rows)]> cs)
  | step_update_full rid tup k rows slot r :
      at_slot cs rid k rows slot → rows !! slot = Some r →
      TablePageFacts.page_end < TablePageFacts.space (<[slot := (r.1, tup)]> rows) →
      step cs (Update rid tup) TablePage.no_space_error cs
  | step_update_meta rid meta k rows slot r :
      at_slot cs rid k rows slot → rows !! slot = Some r →
      step cs (UpdateMeta rid meta) (Ok Done) (<[k := (RecordId.page_id rid, <[slot := (meta, r.2)]> rows)]> cs)
  | step_full rid k rows slot r :
      at_slot cs rid k rows slot → rows !! slot = Some r → step cs (Full rid) (Ok (Row r)) cs
  | step_read rid k rows slot r :
      at_slot cs rid k rows slot → rows !! slot = Some r → step cs (Read rid) (Ok (Data r.2)) cs
  | step_read_meta rid k rows slot r :
      at_slot cs rid k rows slot → rows !! slot = Some r → step cs (ReadMeta rid) (Ok (Meta r.1)) cs
  | step_out_of_range o rid k rows slot :
      rid_of o = Some rid → at_slot cs rid k rows slot → rows !! slot = None →
      step cs o TablePage.out_of_range_error cs.

Section exec.
Context {D : Type} `{Disk D}.

(** The methods the operations stand for. *)
Definition exec (o : op) : SR (TableHeap.t D) answer :=
  match o with
  | Insert meta tup => rid ← TableHeap.insert_tuple meta tup; ret (Rid rid)
  | Update rid tup => _ ← TableHeap.update_tuple rid tup; ret Done
  | UpdateMeta rid meta => _ ← TableHeap.update_tuple_meta meta rid; ret Done
  | Full rid => r ← TableHeap.full_tuple rid; ret (Row r)
  | Read rid => tup ← TableHeap.tuple rid; ret (Data tup)
  | ReadMeta rid => meta ← TableHeap.tuple_meta rid; ret (Meta meta)
  end.
End exec.

End HeapRows.

(** ** Properties *)
Module TableHeapSpec.
Import TableHeapFacts HeapRows.

Section spec.
Context {D : Type} `{DiskLaws D}.
Implicit Types (h : TableHeap.t D) (st : PageStore.t) (s : BufferPoolManager.t D).

Lemma run_answer {A} (m : SR (TableHeap.t D) A) (f : A → answer) h h' r :
  m h = (h', r) → (a ← m; ret (f a)) h = (h', f <$> r).
Proof. intros Hm. unfold mbind, SR_bind. rewrite Hm. by destruct r. Qed.

(** What an operation leaves: the heap shows the new rows in a store with the same
    pins, and pages of others are as they were. *)
Definition leaves h st (n : nat) (budget : Z) h' (cs' : pages_rows) : Prop :=
  ∃ st' n', heap_ok h' st' cs' n' ∧ (n ≤ n')%nat ∧ now h' ≤ now h + budget ∧
    TableHeap.schema h' = TableHeap.schema h ∧
    PageStore.refs st' = PageStore.refs st ∧ PageStore.frames st' = PageStore.frames st ∧
    ∀ x, x ∉ cs'.*1 → PageStore.pages st' !! x = PageStore.pages st !! x.

(** An insertion takes its new page from the unused ones. *)
Lemma insert_Ok h st cs n meta tup :
  heap_ok h st cs (S n) → legal (TableHeap.schema h) cs (Insert meta tup) → spare_frames 2 st →
  now h + 1 < 2 ^ 63 →
  ∃ h' rid cs', TableHeap.insert_tuple meta tup h = (h', Ok rid) ∧ step cs (Insert meta tup) (Ok (Rid rid)) cs' ∧
    leaves h st n 2 h' cs' ∧ (∀ x, x ∈ cs'.*1 → x ∈ cs.*1 ∨ PageStore.pages st !! x = None).
Proof.
  intros Hh Hl Hsp Hq. inversion Hl as [? ? Hrow Hone| | | | |]; subst.
  pose proof (listed_last _ _ _ (heap_listed _ _ _ _ Hh)) as Hlast. rewrite last_lookup in Hlast.
  destruct (cs !! pred (length cs)) as [[p rows]|] eqn:Hk; [|done].
  pose proof (lookup_lt_Some _ _ _ Hk) as Hlt.
  assert (S (pred (length cs)) = length cs) as Hlen by lia.
  destruct (Z.le_gt_cases (TablePageFacts.space (rows ++ [(meta, tup)])) TablePageFacts.page_end) as [Hle|Hgt].
  - destruct (insert_room_Ok h st cs _ _ p rows meta tup Hh Hk Hlen) as (s & bytes & Hrun & Hh' & Hts);
      [unfold spare_frames in *; lia|lia|done..|].
    do 3 eexists. split_and!; [exact Hrun|by eapply step_append| |].
    + do 2 eexists. split_and!; [exact Hh'|lia|change (BufferPoolFacts.timestamp s ≤ now h + 2); lia|done..|].
      intros x Hx. simpl. apply lookup_insert_ne. intros <-. apply Hx. erewrite ids_insert by done.
      apply list_elem_of_fmap. exists (p, rows). split; [done|]. by eapply list_elem_of_lookup_2.
    + erewrite ids_insert by done. by left.
  - destruct (insert_new_page_Ok h st cs n _ p rows meta tup Hh Hk Hlen Hsp Hq Hrow Hone Hgt)
      as (s & q & m & Hrun & Hq2 & Hfr & Hh' & Hts).
    do 3 eexists. split_and!; [exact Hrun| | |].
    + eapply step_new_page; [done..|]. intros ([q' rs] & -> & [j Hj]%list_elem_of_lookup)%list_elem_of_fmap.
      destruct (listed_page _ _ _ _ _ _ (heap_listed _ _ _ _ Hh) Hj) as (b & ? & Hb & _).
      simpl in Hq2. congruence.
    + do 2 eexists. split_and!; [exact Hh'|done|done|done..|].
      intros x Hx. simpl. apply Hfr; intros ->; apply Hx; rewrite fmap_app, elem_of_app; [left|right].
      * apply list_elem_of_fmap. exists (p, rows). split; [done|]. by eapply list_elem_of_lookup_2.
      * by apply list_elem_of_singleton.
    + intros x. rewrite fmap_app, elem_of_app. intros [Hx|Hx%list_elem_of_singleton]; [by left|].
      right. by simplify_eq/=.
Qed.

Lemma insert_refines h st cs n meta tup :
  heap_ok h st cs (S n) → legal (TableHeap.schema h) cs (Insert meta tup) → spare_frames 2 st →
  now h + 1 < 2 ^ 63 →
  ∃ h' r cs', exec (Insert meta tup) h = (h', r) ∧ step cs (Insert meta tup) r cs' ∧
    leaves h st n 2 h' cs'.
Proof.
  intros Hh Hl Hsp Hq. destruct (insert_Ok h st cs n meta tup Hh Hl Hsp Hq) as (h' & rid & cs' & Hrun & Hs & Hl' & _).
  exists h', (Ok (Rid rid)), cs'. split; [by apply (run_answer _ Rid _ _ _ Hrun)|done].
Qed.

(** Reading a row. *)
Lemma slot_wrap (cs : pages_rows) rid k rows slot :
  at_slot cs rid k rows slot → wrap 16 (RecordId.slot_num rid) = Z.of_nat slot.
Proof. intros (_ & -> & Hlt). apply wrap_small. unfold unsigned_ok. lia. Qed.

Lemma leaves_same h st cs n s budget :
  heap_ok h st cs n → heap_ok (TableHeap.set_pool s h) st cs n →
  BufferPoolFacts.timestamp s ≤ now h + budget →
  leaves h st n budget (TableHeap.set_pool s h) cs.
Proof. intros Hh Hh' Hts. by exists st, n. Qed.

Lemma full_tuple_Ok h st cs n rid k rows slot :
  heap_ok h st cs n → at_slot cs rid k rows slot → spare_frames 1 st → now h < 2 ^ 63 →
  ∃ s, TableHeap.full_tuple rid h
      = (TableHeap.set_pool s h,
         match rows !! slot with Some r => Ok r | None => TablePage.out_of_range_error end) ∧
    heap_ok (TableHeap.set_pool s h) st cs n ∧ BufferPoolFacts.timestamp s ≤ now h + 1.
Proof.
  intros Hh Hat Hsp Hq. pose proof Hat as (Hk & _).
  destruct (heap_read_Ok h st cs n k _ rows Hh Hk Hsp Hq) as (s & tp & Hrun & Hh' & Hts & Hrep & _).
  exists s. split_and!; [|done|done]. unfold TableHeap.full_tuple.
  rewrite (SR_bind_Ok _ _ _ _ _ Hrun), (slot_wrap _ _ _ _ _ Hat), (TablePageFacts.tuple_rep _ _ _ Hrep). done.
Qed.

Lemma read_refines h st cs n o rid k rows slot :
  o = Full rid ∨ o = Read rid ∨ o = ReadMeta rid →
  heap_ok h st cs n → at_slot cs rid k rows slot → spare_frames 1 st → now h < 2 ^ 63 →
  ∃ h' r, exec o h = (h', r) ∧ step cs o r cs ∧ leaves h st n 2 h' cs.
Proof.
  intros Ho Hh Hat Hsp Hq.
  destruct (full_tuple_Ok h st cs n rid k rows slot Hh Hat Hsp Hq) as (s & Hrun & Hh' & Hts).
  exists (TableHeap.set_pool s h).
  assert (leaves h st n 2 (TableHeap.set_pool s h) cs) as Hl by (apply leaves_same; [done..|lia]).
  destruct (rows !! slot) as [r|] eqn:Hr.
  - destruct Ho as [->|[->| ->]]; eexists; split; try (split; [|exact Hl]).
    + apply (run_answer _ Row _ _ _ Hrun).
    + by econstructor.
    + apply (run_answer (TableHeap.tuple rid) Data _ _ (Ok r.2)). unfold TableHeap.tuple.
      rewrite (SR_bind_Ok _ _ _ _ _ Hrun). by destruct r.
    + by econstructor.
    + apply (run_answer (TableHeap.tuple_meta rid) Meta _ _ (Ok r.1)). unfold TableHeap.tuple_meta.
      rewrite (SR_bind_Ok _ _ _ _ _ Hrun). by destruct r.
    + by econstructor.
  - exists TablePage.out_of_range_error. unfold TablePage.out_of_range_error in *.
    split; [|split; [|exact Hl]].
    + destruct Ho as [->|[->| ->]]; unfold exec, TableHeap.tuple, TableHeap.tuple_meta;
        repeat first [exact Hrun | apply SR_bind_Err].
    + eapply step_out_of_range; [|done..]. by destruct Ho as [->|[->| ->]].
Qed.

(** Writing a row. *)
Lemma modify_refines h st cs n o rid k rows rows' slot g :
  exec o h = (_ ← TableHeap.modify_table_page (RecordId.page_id rid) g; ret Done) h →
  heap_ok h st cs n → at_slot cs rid k rows slot → spare_frames 1 st → now h < 2 ^ 63 →
  (∀ tp, TablePageFacts.rep tp rows → TablePage.schema tp = TableHeap.schema h →
    ∃ tp', g tp = Ok tp' ∧ TablePageFacts.rep tp' rows' ∧ TablePage.schema tp' = TablePage.schema tp ∧
      TablePageHeader.next_page_id (TablePage.header tp') = TablePageHeader.next_page_id (TablePage.header tp)) →
  length rows' = length rows →
  step cs o (Ok Done) (<[k := (RecordId.page_id rid, rows')]> cs) →
  ∃ s r cs', exec o h = (TableHeap.set_pool s h, r) ∧ step cs o r cs' ∧ leaves h st n 2 (TableHeap.set_pool s h) cs'.
Proof.
  intros Ho Hh (Hk & _) Hsp Hq Hg Hlen Hstep.
  destruct (modify_Ok h st cs n k _ rows rows' g Hh Hk Hsp Hq Hg) as (s & bytes & Hrun & Hh' & Hts).
  { intros Hne ->. by destruct rows. }
  exists s. do 2 eexists. split; [rewrite Ho; apply (run_answer _ (λ _, Done) _ _ _ Hrun)|].
  split; [exact Hstep|]. do 2 eexists.
  split_and!; [exact Hh'|done|change (BufferPoolFacts.timestamp s ≤ now h + 2); lia|done..|].
  intros x Hx. simpl. apply lookup_insert_ne. intros <-. apply Hx. erewrite ids_insert by done.
  apply list_elem_of_fmap. exists (RecordId.page_id rid, rows). split; [done|]. by eapply list_elem_of_lookup_2.
Qed.

Lemma modify_refines_Err h st cs n o rid k rows slot g e :
  exec o h = (_ ← TableHeap.modify_table_page (RecordId.page_id rid) g; ret Done) h →
  heap_ok h st cs n → at_slot cs rid k rows slot → spare_frames 1 st → now h < 2 ^ 63 →
  (∀ tp, TablePageFacts.rep tp rows → TablePage.schema tp = TableHeap.schema h → g tp = Err e) →
  step cs o (Err e) cs →
  ∃ s r cs', exec o h = (TableHeap.set_pool s h, r) ∧ step cs o r cs' ∧ leaves h st n 2 (TableHeap.set_pool s h) cs'.
Proof.
  intros Ho Hh (Hk & _) Hsp Hq Hg Hstep.
  destruct (modify_Err h st cs n k _ rows g e Hh Hk Hsp Hq Hg) as (s & Hrun & Hh' & Hts).
  exists s. do 2 eexists. split; [rewrite Ho; apply (run_answer _ (λ _, Done) _ _ _ Hrun)|].
  split; [exact Hstep|]. apply leaves_same; [done..|lia].
Qed.

Lemma rep_no_slot g tp rows slot :
  TablePageFacts.rep tp rows → rows !! slot = None →
  (if TablePageHeader.num_tuples (TablePage.header tp) <=? Z.of_nat slot
   then TablePage.out_of_range_error else g) = TablePage.out_of_range_error (A := TablePage.t).
Proof.
  intros Hrep Hr%lookup_ge_None. by rewrite (TablePageFacts.rep_out_of_range _ _ _ Hrep Hr).
Qed.

Lemma update_refines h st cs n rid tup :
  heap_ok h st cs n → legal (TableHeap.schema h) cs (Update rid tup) → spare_frames 1 st → now h < 2 ^ 63 →
  ∃ s r cs', exec (Update rid tup) h = (TableHeap.set_pool s h, r) ∧ step cs (Update rid tup) r cs' ∧
    leaves h st n 2 (TableHeap.set_pool s h) cs'.
Proof.
  intros Hh Hl Hsp Hq. inversion Hl as [|? ? k rows slot Hat Htup| | | |]; subst.
  pose proof (slot_wrap _ _ _ _ _ Hat) as Hw.
  destruct (rows !! slot) as [r|] eqn:Hr.
  2:{ eapply (modify_refines_Err h st cs n _ rid k rows slot); [done|done|done|done|done| |by eapply step_out_of_range].
      intros tp Hrep _. rewrite Hw. by eapply rep_no_slot. }
  assert (∀ tp, TablePageFacts.rep tp rows → TablePage.schema tp = TableHeap.schema h →
    TablePageFacts.row_ok (TablePage.schema tp) (r.1, tup)) as Hrow.
  { intros tp Hrep Hsch. rewrite Hsch. split; [|done].
    by destruct (Forall_lookup_1 _ _ _ _ (TablePageFacts.rep_rows _ _ Hrep) Hr). }
  destruct (Z.le_gt_cases (TablePageFacts.space (<[slot := (r.1, tup)]> rows)) TablePageFacts.page_end) as [Hle|Hgt].
  - eapply (modify_refines h st cs n _ rid k rows (<[slot := (r.1, tup)]> rows) slot); [done..| | |].
    + intros tp Hrep Hsch. rewrite Hw.
      by apply (TablePageFacts.update_tuple_rep tp rows slot r tup Hrep Hr (Hrow _ Hrep Hsch)).
    + apply length_insert.
    + by eapply step_update.
  - eapply (modify_refines_Err h st cs n _ rid k rows slot); [done..| |by eapply step_update_full].
    intros tp Hrep Hsch. rewrite Hw.
    by apply (TablePageFacts.update_tuple_rep tp rows slot r tup Hrep Hr (Hrow _ Hrep Hsch)).
Qed.

Lemma update_meta_refines h st cs n rid meta :
  heap_ok h st cs n → legal (TableHeap.schema h) cs (UpdateMeta rid meta) → spare_frames 1 st → now h < 2 ^ 63 →
  ∃ s r cs', exec (UpdateMeta rid meta) h = (TableHeap.set_pool s h, r) ∧ step cs (UpdateMeta rid meta) r cs' ∧
    leaves h st n 2 (TableHeap.set_pool s h) cs'.
Proof.
  intros Hh Hl Hsp Hq. inversion Hl as [| |? ? k rows slot Hat Hm Hdel| | |]; subst.
  pose proof (slot_wrap _ _ _ _ _ Hat) as Hw.
  destruct (rows !! slot) as [r|] eqn:Hr.
  2:{ eapply (modify_refines_Err h st cs n _ rid k rows slot); [done|done|done|done|done| |by eapply step_out_of_range].
      intros tp Hrep _. rewrite Hw. by eapply rep_no_slot. }
  eapply (modify_refines h st cs n _ rid k rows (<[slot := (meta, r.2)]> rows) slot); [done..| | |].
  - intros tp Hrep _. rewrite Hw.
    by apply (TablePageFacts.update_tuple_meta_rep tp rows slot r meta Hrep Hr Hm (Hdel r eq_refl)).
  - apply length_insert.
  - by eapply step_update_meta.
Qed.

(** C11: the methods of a table heap that read and write a row refine a list of pages of
    rows. On a heap whose pages hold the rows [cs], each of the six methods answers and
    changes the rows as the contract says: [insert_tuple] appends to the last page when the
    row fits there and otherwise links a new page, and answers the rid of the row;
    [update_tuple] and [update_tuple_meta] change the row they name only, the first failing
    when the page has no room; the reads [full_tuple], [tuple] and [tuple_meta] answer the
    row last stored; a slot past the rows of a page is an error. An error changes nothing,
    every page the method pinned is unpinned when it returns, pages outside the heap keep
    their bytes, and nothing panics. The calls are [legal]: the record id is on a page of
    the heap, an inserted tuple fits an empty page (a larger one panics), and
    [update_tuple_meta] does not restore a deleted row (which the page miscounts). *)
Theorem table_heap_refines_rows h st cs n o :
  heap_ok h st cs (S n) → legal (TableHeap.schema h) cs o → spare_frames 2 st → now h + 1 < 2 ^ 63 →
  ∃ h' r cs', exec o h = (h', r) ∧ step cs o r cs' ∧ leaves h st n 2 h' cs'.
Proof.
  intros Hh Hl Hsp Hq. assert (spare_frames 1 st) as Hsp1 by (unfold spare_frames in *; lia).
  assert (∀ h' cs', leaves h st (S n) 2 h' cs' → leaves h st n 2 h' cs') as Hle.
  { intros h' cs' (st' & n' & ? & ? & Hr). exists st', n'. split_and!; [done|lia|apply Hr..]. }
  pose proof Hl as Hl'. destruct o; inversion Hl' as [|? ? k rows slot Hat|? ? k rows slot Hat
    |? k rows slot Hat|? k rows slot Hat|? k rows slot Hat]; subst.
  - by apply insert_refines.
  - destruct (update_refines h st cs (S n) rid tuple Hh Hl Hsp1) as (s & r & cs' & ? & ? & ?%Hle);
      [lia|by exists (TableHeap.set_pool s h), r, cs'].
  - destruct (update_meta_refines h st cs (S n) rid meta Hh Hl Hsp1) as (s & r & cs' & ? & ? & ?%Hle);
      [lia|by exists (TableHeap.set_pool s h), r, cs'].
  - destruct (read_refines h st cs (S n) (Full rid) rid k rows slot) as (h' & r & ? & ? & ?%Hle);
      [by auto|done..|lia|by exists h', r, cs].
  - destruct (read_refines h st cs (S n) (Read rid) rid k rows slot) as (h' & r & ? & ? & ?%Hle);
      [by auto|done..|lia|by exists h', r, cs].
  - destruct (read_refines h st cs (S n) (ReadMeta rid) rid k rows slot) as (h' & r & ? & ? & ?%Hle);
      [by auto|done..|lia|by exists h', r, cs].
Qed.

(** *** Scans *)
Definition page_rows (c : Z * list row) : list (RecordId.t * row) :=
  imap (λ i r, (RecordId.Mk c.1 (Z.of_nat i), r)) c.2.

(** The rows of a heap, in order, with their rids. *)
Definition rows_of (cs : pages_rows) : list (RecordId.t * row) := concat (page_rows <$> cs).

(** The rows after slot [i] of the [k]-th page. *)
Definition after (cs : pages_rows) (k i : nat) : list (RecordId.t * row) :=
  match cs !! k with
  | Some c => drop (S i) (page_rows c) ++ rows_of (drop (S k) cs)
  | None => []
  end.

Definition next_rid (cs : pages_rows) (k i : nat) : option RecordId.t :=
  match cs !! k with
  | Some (p, rows) =>
      if (S i <? length rows)%nat then Some (RecordId.Mk p (Z.of_nat (S i)))
      else match cs !! S k with Some (q, _ :: _) => Some (RecordId.Mk q 0) | _ => None end
  | None => None
  end.

Lemma after_next (cs : pages_rows) k i p rows :
  (∀ j c, cs !! j = Some c → (S j < length cs)%nat → c.2 ≠ []) →
  cs !! k = Some (p, rows) →
  match next_rid cs k i with
  | Some rid => ∃ k' i' rows' r, cs !! k' = Some (RecordId.page_id rid, rows') ∧
      rid = RecordId.Mk (RecordId.page_id rid) (Z.of_nat i') ∧ rows' !! i' = Some r ∧
      after cs k i = (rid, r) :: after cs k' i'
  | None => after cs k i = []
  end.
Proof.
  intros Hne Hk. unfold next_rid, after at 1 3. rewrite Hk.
  destruct (Nat.ltb_spec (S i) (length rows)) as [Hlt|Hge].
  - destruct (lookup_lt_is_Some_2 rows (S i) Hlt) as [r Hr].
    exists k, (S i), rows, r. split_and!; [done..|]. unfold after. rewrite Hk.
    rewrite (drop_S (page_rows (p, rows)) (RecordId.Mk p (Z.of_nat (S i)), r) (S i)); [done|].
    unfold page_rows. cbn [fst snd]. by rewrite list_lookup_imap, Hr.
  - rewrite (drop_ge (page_rows (p, rows))) by (unfold page_rows; rewrite length_imap; simpl; lia).
    cbn [app]. destruct (cs !! S k) as [[q rows2]|] eqn:Hk2.
    2:{ apply lookup_ge_None in Hk2. by rewrite drop_ge. }
    rewrite (drop_S cs (q, rows2) (S k) Hk2). destruct rows2 as [|r rows2].
    + rewrite drop_ge; [done|]. destruct (decide (S (S k) < length cs)%nat) as [Hlt|]; [|lia].
      by destruct (Hne _ _ Hk2 Hlt).
    + exists (S k), 0%nat, (r :: rows2), r. split_and!; [done..|]. unfold after. by rewrite Hk2.
Qed.

Lemma get_next_rid_Ok h st cs n k i p rows :
  heap_ok h st cs n → cs !! k = Some (p, rows) → (i < length rows)%nat → spare_frames 1 st →
  now h + 1 < 2 ^ 63 →
  ∃ s, TableHeap.get_next_rid (RecordId.Mk p (Z.of_nat i)) h = (TableHeap.set_pool s h, Ok (next_rid cs k i)) ∧
    heap_ok (TableHeap.set_pool s h) st cs n ∧ BufferPoolFacts.timestamp s ≤ now h + 2.
Proof.
  intros Hh Hk Hi Hsp Hq.
  destruct (heap_read_Ok h st cs n k p rows Hh Hk Hsp ltac:(lia)) as (s & tp & Hrun & Hh' & Hts & Hrep & Hn).
  pose proof (TablePageFacts.rep_length_bound _ _ Hrep) as Hb.
  unfold TableHeap.get_next_rid. cbn [RecordId.page_id]. rewrite (SR_bind_Ok _ _ _ _ _ Hrun).
  pose proof (TablePageFacts.get_next_rid_rep tp rows p i Hrep ltac:(lia)) as Hnext.
  unfold next_rid. rewrite Hk.
  rewrite (SR_bind_Ok (lift _) _ _ _ _ (f_equal (pair _) Hnext)).
  destruct (Nat.ltb_spec (S i) (length rows)); [exists s; split_and!; [done|done|lia]|].
  rewrite Hn. unfold next_of. destruct (cs !! S k) as [[q rows2]|] eqn:Hk2; [|exists s; split_and!; [done|done|lia]].
  cbn [fst]. destruct (listed_page _ _ _ _ _ _ (heap_listed _ _ _ _ Hh) Hk2) as (b & _ & Hb2 & _).
  destruct (page_unsigned _ _ _ q (heap_shows _ _ _ _ Hh) ltac:(by eexists)) as [Hq0 _].
  rewrite (proj2 (Z.eqb_neq _ _) Hq0).
  destruct (heap_read_Ok _ st cs n (S k) q rows2 Hh' Hk2 Hsp) as (s2 & tp2 & Hrun2 & Hh2 & Hts2 & Hrep2 & _).
  { change (BufferPoolFacts.timestamp s < 2 ^ 63). lia. }
  change (now (TableHeap.set_pool s h)) with (BufferPoolFacts.timestamp s) in Hts2.
  exists s2. split_and!; [|exact Hh2|lia]. rewrite (SR_bind_Ok _ _ _ _ _ Hrun2).
  rewrite (TablePageFacts.rep_num _ _ Hrep2), (TablePageFacts.rep_length _ _ Hrep2). by destruct rows2.
Qed.

(** The position of a scan, on a heap that shows [cs]. *)
Definition scanning (it : TableIterator.t D) st cs n : Prop :=
  heap_ok (TableIterator.heap it) st cs n ∧ TableIterator.end_bound it = Unbounded ∧
  TableIterator.ended it = false ∧ TableIterator.started it = true.

Definition clock (it : TableIterator.t D) : Z := now (TableIterator.heap it).

(** Only the pool and the position of the iterator changed. *)
Definition same_handle (it it' : TableIterator.t D) : Prop :=
  ∃ s, TableIterator.heap it' = TableHeap.set_pool s (TableIterator.heap it).

Lemma read_at_Ok (it : TableIterator.t D) st cs n k i rid rows r :
  scanning it st cs n → cs !! k = Some (RecordId.page_id rid, rows) →
  rid = RecordId.Mk (RecordId.page_id rid) (Z.of_nat i) → rows !! i = Some r →
  spare_frames 1 st → clock it < 2 ^ 63 →
  ∃ it', TableIterator.read_at rid it = (it', Ok (Some (rid, r.2))) ∧ scanning it' st cs n ∧
    TableIterator.cursor it' = rid ∧ clock it' ≤ clock it + 1 ∧ same_handle it it'.
Proof.
  intros (Hh & Hend & Hed & Hstd) Hk Hrid Hr Hsp Hq.
  destruct (heap_read_Ok _ st cs n k _ rows Hh Hk Hsp Hq) as (_ & tp & _ & _ & _ & Hrep & _).
  pose proof (TablePageFacts.rep_length_bound _ _ Hrep) as Hb. pose proof (lookup_lt_Some _ _ _ Hr).
  assert (at_slot cs rid k rows i) as Hat by (split_and!; [done|by rewrite Hrid|lia]).
  destruct (full_tuple_Ok _ st cs n rid k rows i Hh Hat Hsp Hq) as (s & Hrun & Hh' & Hts).
  rewrite Hr in Hrun.
  eexists. split; [|split; [|split; [|split]]].
  - unfold TableIterator.read_at, TableHeap.tuple. rewrite (SR_bind_Ok _ _ _ _ _ Hrun).
    destruct r. reflexivity.
  - by split_and!.
  - done.
  - exact Hts.
  - by exists s.
Qed.

(** One call of [next] of a scan to the end. *)
Lemma next_Ok (it : TableIterator.t D) st cs n k i p rows :
  scanning it st cs n → cs !! k = Some (p, rows) → (i < length rows)%nat →
  TableIterator.cursor it = RecordId.Mk p (Z.of_nat i) → spare_frames 1 st → clock it + 2 < 2 ^ 63 →
  match after cs k i with
  | [] => ∃ it', TableIterator.next it = (it', Ok None) ∧ scanning it' st cs n ∧
      TableIterator.cursor it' = TableIterator.cursor it ∧ clock it' ≤ clock it + 2 ∧ same_handle it it'
  | (rid, r) :: rest => ∃ it' k' i' rows', TableIterator.next it = (it', Ok (Some (rid, r.2))) ∧
      scanning it' st cs n ∧ cs !! k' = Some (RecordId.page_id rid, rows') ∧ (i' < length rows')%nat ∧
      TableIterator.cursor it' = RecordId.Mk (RecordId.page_id rid) (Z.of_nat i') ∧
      rest = after cs k' i' ∧ clock it' ≤ clock it + 3 ∧ same_handle it it' ∧
      rid = RecordId.Mk (RecordId.page_id rid) (Z.of_nat i') ∧ rows' !! i' = Some r
  end.
Proof.
  intros Hsc Hk Hi Hcur Hsp Hq. pose proof Hsc as (Hh & Hend & Hed & Hstd).
  destruct (get_next_rid_Ok _ st cs n k i p rows Hh Hk Hi Hsp) as (s & Hrun & Hh' & Hts);
    [unfold clock in Hq; lia|].
  set (it1 := TableIterator.set_heap (TableHeap.set_pool s (TableIterator.heap it)) it).
  assert (TableIterator.next it = match next_rid cs k i with
    | Some rid => TableIterator.read_at rid it1 | None => (it1, Ok None) end) as Hnext.
  { unfold TableIterator.next, gets, TableIterator.on_heap, mbind, SR_bind.
    rewrite Hed, Hstd, Hcur, Hrun, Hend. by destruct (next_rid cs k i). }
  pose proof (after_next cs k i p rows (listed_rows _ _ _ (heap_listed _ _ _ _ Hh)) Hk) as Ha.
  assert (scanning it1 st cs n) as Hsc1 by (by split_and!).
  assert (same_handle it it1) as Hsm1 by (by exists s).
  destruct (next_rid cs k i) as [rid|]; [|rewrite Ha; by exists it1].
  destruct Ha as (k' & i' & rows' & r & Hk' & Hrid & Hr & ->).
  destruct (read_at_Ok it1 st cs n k' i' rid rows' r Hsc1 Hk' Hrid Hr Hsp) as (it' & Hread & Hsc' & Hcur' & Hts' & s' & Hsm').
  { unfold clock in *. change (BufferPoolFacts.timestamp s < 2 ^ 63). lia. }
  exists it', k', i', rows'. split_and!; [by rewrite Hnext|done|done|by eapply lookup_lt_Some|by rewrite Hcur'|done| |by exists s'|done|done].
  change (clock it1) with (BufferPoolFacts.timestamp s) in Hts'. unfold clock in *. lia.
Qed.

(** [n] calls of [next] and their answers. *)
Fixpoint scan (n : nat) (it : TableIterator.t D) : list (result (option (RecordId.t * Tuple.t))) :=
  match n with
  | O => []
  | S n' => let '(it, r) := TableIterator.next it in r :: scan n' it
  end.

Lemma scan_S n (it : TableIterator.t D) :
  scan (S n) it = let '(it, r) := TableIterator.next it in r :: scan n it.
Proof. done. Qed.

Definition found (l : list (RecordId.t * row)) : list (result (option (RecordId.t * Tuple.t))) :=
  (λ x, Ok (Some (x.1, x.2.2))) <$> l.

Lemma scan_rest l (it : TableIterator.t D) st cs n k i p rows :
  after cs k i = l → scanning it st cs n → cs !! k = Some (p, rows) → (i < length rows)%nat →
  TableIterator.cursor it = RecordId.Mk p (Z.of_nat i) → spare_frames 1 st →
  clock it + 3 * Z.of_nat (S (length l)) < 2 ^ 63 →
  scan (S (length l)) it = found l ++ [Ok None].
Proof.
  revert it k i p rows. induction l as [|[rid r] l IH]; intros it k i p rows Ha Hsc Hk Hi Hcur Hsp Hq;
    pose proof (next_Ok it st cs n k i p rows Hsc Hk Hi Hcur Hsp ltac:(lia)) as Hn; rewrite Ha in Hn.
  - destruct Hn as (it' & Hn & _). cbn [scan length]. by rewrite Hn.
  - destruct Hn as (it' & k' & i' & rows' & Hn & Hsc' & Hk' & Hi' & Hcur' & Hl & Hts & _).
    cbn [length]. rewrite scan_S, Hn. unfold found. cbn [fmap list_fmap app]. f_equal.
    eapply IH; [by symmetry|done..|]. cbn [length] in Hq. lia.
Qed.

Lemma get_first_rid_Ok h st cs n p rows :
  heap_ok h st cs n → cs !! 0%nat = Some (p, rows) → spare_frames 1 st → now h < 2 ^ 63 →
  ∃ s, TableHeap.get_first_rid h
      = (TableHeap.set_pool s h, Ok (match rows with [] => None | _ => Some (RecordId.Mk p 0) end)) ∧
    heap_ok (TableHeap.set_pool s h) st cs n ∧ BufferPoolFacts.timestamp s ≤ now h + 1.
Proof.
  intros Hh Hk Hsp Hq.
  destruct (heap_read_Ok h st cs n 0 p rows Hh Hk Hsp Hq) as (s & tp & Hrun & Hh' & Hts & Hrep & _).
  exists s. split_and!; [|done|done].
  pose proof (listed_first _ _ _ (heap_listed _ _ _ _ Hh)) as Hf.
  destruct cs as [|c cs]; [done|]. injection Hk as ->. injection Hf as Hf. simpl in Hf.
  unfold TableHeap.get_first_rid.
  rewrite (SR_bind_Ok (gets TableHeap.first_page_id) _ h h (TableHeap.first_page_id h) eq_refl), <- Hf.
  rewrite (SR_bind_Ok _ _ _ _ _ Hrun).
  rewrite (TablePageFacts.rep_num _ _ Hrep), (TablePageFacts.rep_length _ _ Hrep). by destruct rows.
Qed.

(** The first call of [next] of an unbounded scan. *)
Lemma first_next_Ok h st cs n :
  heap_ok h st cs n → spare_frames 1 st → now h + 1 < 2 ^ 63 →
  match rows_of cs with
  | [] => ∃ it', TableIterator.next (TableIterator.new h Unbounded Unbounded) = (it', Ok None) ∧
      TableIterator.ended it' = true ∧ heap_ok (TableIterator.heap it') st cs n ∧ clock it' ≤ now h + 1 ∧
      (∃ s, TableIterator.heap it' = TableHeap.set_pool s h)
  | (rid, r) :: rest => ∃ it' k i rows,
      TableIterator.next (TableIterator.new h Unbounded Unbounded) = (it', Ok (Some (rid, r.2))) ∧
      scanning it' st cs n ∧ cs !! k = Some (RecordId.page_id rid, rows) ∧ (i < length rows)%nat ∧
      TableIterator.cursor it' = RecordId.Mk (RecordId.page_id rid) (Z.of_nat i) ∧
      rest = after cs k i ∧ clock it' ≤ now h + 2 ∧ (∃ s, TableIterator.heap it' = TableHeap.set_pool s h) ∧
      rid = RecordId.Mk (RecordId.page_id rid) (Z.of_nat i) ∧ rows !! i = Some r
  end.
Proof.
  intros Hh Hsp Hq. pose proof (heap_listed _ _ _ _ Hh) as Hl.
  destruct cs as [|[p rows] cs]; [by pose proof (listed_first _ _ _ Hl)|].
  destruct (get_first_rid_Ok h st _ n p rows Hh eq_refl Hsp ltac:(lia)) as (s & Hrun & Hh' & Hts).
  set (it := TableIterator.new h Unbounded Unbounded).
  set (it1 := TableIterator.Mk (TableHeap.set_pool s h) Unbounded Unbounded INVALID_RID true false).
  assert (TableIterator.next it = match rows with
    | [] => (TableIterator.set_ended it1, Ok None)
    | _ => TableIterator.read_at (RecordId.Mk p 0) it1 end) as Hnext.
  { unfold TableIterator.next, it, gets, modify, TableIterator.on_heap, mbind, SR_bind.
    cbn [TableIterator.new TableIterator.ended TableIterator.started TableIterator.set_started
      TableIterator.start_bound TableIterator.heap]. rewrite Hrun. by destruct rows. }
  assert (rows_of ((p, rows) :: cs) = match rows with
    | [] => [] | r :: _ => (RecordId.Mk p 0, r) :: after ((p, rows) :: cs) 0 0 end) as ->.
  { destruct rows as [|r rows]; [|done]. destruct cs as [|c cs]; [done|].
    by destruct (listed_rows _ _ _ Hl 0%nat (p, []) eq_refl ltac:(simpl; lia)). }
  destruct rows as [|r rows]; [exists (TableIterator.set_ended it1); split_and!; [done..|by exists s]|].
  assert (scanning it1 st ((p, r :: rows) :: cs) n) as Hsc by (by split_and!).
  destruct (read_at_Ok it1 st _ n 0 0 (RecordId.Mk p 0) (r :: rows) r Hsc eq_refl eq_refl eq_refl Hsp)
    as (it' & Hread & Hsc' & Hcur & Hts' & s' & Hsm').
  { change (BufferPoolFacts.timestamp s < 2 ^ 63). lia. }
  exists it', 0%nat, 0%nat, (r :: rows). split_and!; [by rewrite Hnext|done|done|simpl; lia|by rewrite Hcur|done| |by exists s'|done|done].
  change (clock it1) with (BufferPoolFacts.timestamp s) in Hts'. lia.
Qed.

(** C24: an unbounded [TableIterator] visits every row of the heap once, in page and slot
    order, with its rid, and then answers [None]: the links between pages are followed
    to the end and no page is skipped. *)
Theorem table_scan_complete h st cs n :
  heap_ok h st cs n → spare_frames 1 st → now h + 3 * Z.of_nat (S (length (rows_of cs))) < 2 ^ 63 →
  scan (S (length (rows_of cs))) (TableIterator.new h Unbounded Unbounded)
  = found (rows_of cs) ++ [Ok None].
Proof.
  intros Hh Hsp Hq. pose proof (first_next_Ok h st cs n Hh Hsp ltac:(lia)) as Hf.
  rewrite scan_S.
  destruct (rows_of cs) as [|[rid r] rest]; [by destruct Hf as (it' & -> & _)|].
  destruct Hf as (it' & k & i & rows & -> & Hsc & Hk & Hi & Hcur & Hrest & Hts & _).
  unfold found. cbn [fmap list_fmap app]. f_equal.
  eapply (scan_rest _ it' st _ n k i _ rows); [by symmetry|done..|]. cbn [length] in Hq. lia.
Qed.

(** A new heap is one empty page. *)
Lemma try_new_Ok s st n sch :
  PageStore.shows s st (S n) → spare_frames 1 st → BufferPoolFacts.timestamp s < 2 ^ 63 →
  ∃ s' h st', TableHeap.try_new sch s = (s', Ok h) ∧ TableHeap.buffer_pool h = s' ∧
    TableHeap.schema h = sch ∧ heap_ok h st' [(TableHeap.first_page_id h, [])] n ∧
    PageStore.refs st' = PageStore.refs st ∧ PageStore.frames st' = PageStore.frames st ∧
    now h ≤ BufferPoolFacts.timestamp s + 1 ∧ PageStore.pages st !! TableHeap.first_page_id h = None ∧
    ∀ x, x ≠ TableHeap.first_page_id h → PageStore.pages st' !! x = PageStore.pages st !! x.
Proof.
  intros Hs Hsp Hq. set (h0 := TableHeap.Mk sch s INVALID_PAGE_ID INVALID_PAGE_ID).
  destruct (new_table_page_Ok h0 st n Hs Hsp Hq) as (s1 & f & p & bytes & Hrun & Hp & Hf & Hs1 & Hts & Hpage).
  destruct (holding_Ok f (ret p) (TableHeap.set_pool s1 h0) _
    (PageStore.set_pages (<[p := bytes]> (PageStore.pages st)) st) n p (Ok p) eq_refl ltac:(done) Hf Hs1)
    as (s2 & Hd & Hs2 & Hts2).
  exists s2, (TableHeap.Mk sch s2 p p), (PageStore.set_pages (<[p := bytes]> (PageStore.pages st)) st).
  split_and!; [|done|done| |done|done| |done|intros x Hx; by apply lookup_insert_ne].
  - unfold TableHeap.try_new. fold h0. by rewrite (SR_bind_Ok _ _ _ _ _ Hrun), Hd.
  - split; [exact Hs2| |].
    + split; [|done|done|].
      * split; [apply NoDup_singleton|]. intros [|k] q rs Hk; [|done]. injection Hk as <- <-.
        apply Hpage, lookup_insert_eq.
      * intros k c _ ?. simpl in *. lia.
    + apply Forall_singleton. intros g c Hg. simpl in Hg.
      destruct (refs_pages _ _ _ _ _ _ Hs Hg) as [? ?]. congruence.
  - unfold now. cbn [TableHeap.buffer_pool]. rewrite Hts2. change (BufferPoolFacts.timestamp s1 ≤ BufferPoolFacts.timestamp s + 1).
    rewrite Hts. done.
Qed.

End spec.

(** *** A heap of a new database *)

Definition demo_row : row := (EMPTY_TUPLE_META, TablePageSpec.demo_tuple 5 "five").

Lemma demo_insert_legal cs : legal TablePageSpec.demo_schema cs (Insert demo_row.1 demo_row.2).
Proof. constructor; [|done]. split; [done|]. by apply TablePageSpec.demo_row_ok. Qed.

Lemma demo_heap n :
  (n ≤ 900)%nat →
  ∃ d s h st, DiskManager.try_new 0 1 None = Ok d ∧
    TableHeap.try_new TablePageSpec.demo_schema (BufferPoolManager.new 3 d) = (s, Ok h) ∧
    heap_ok h st [(TableHeap.first_page_id h, [])] (S n) ∧ TableHeap.schema h = TablePageSpec.demo_schema ∧
    spare_frames 3 st ∧ now h ≤ 1.
Proof.
  intros Hn. destruct (BufferPoolSpec.created_shows 3 (S (S n))) as (d & Hd & Hs & Hts); [lia|].
  destruct (try_new_Ok (BufferPoolManager.new 3 d) _ (S n) TablePageSpec.demo_schema Hs)
    as (s & h & st & Hrun & _ & Hsch & Hh & Hr & Hf & Hnow & _).
  - unfold spare_frames. simpl. rewrite map_size_empty. lia.
  - rewrite Hts. done.
  - exists d, s, h, st. split_and!; try done.
    unfold spare_frames. rewrite Hr, Hf. simpl. rewrite map_size_empty. lia.
Qed.

Lemma table_heap_refines_rows_witness :
  ∃ d s h h' r cs', DiskManager.try_new 0 1 None = Ok d ∧
    TableHeap.try_new TablePageSpec.demo_schema (BufferPoolManager.new 3 d) = (s, Ok h) ∧
    exec (Insert demo_row.1 demo_row.2) h = (h', r) ∧
    step [(TableHeap.first_page_id h, [])] (Insert demo_row.1 demo_row.2) r cs'.
Proof.
  destruct (demo_heap 5) as (d & s & h & st & Hd & Hrun & Hh & Hsch & Hsp & Hnow); [lia|].
  destruct (table_heap_refines_rows h st _ 5 (Insert demo_row.1 demo_row.2) Hh) as (h' & r & cs' & ? & ? & _).
  - rewrite Hsch. apply demo_insert_legal.
  - unfold spare_frames in *; lia.
  - lia.
  - exists d, s, h, h', r, cs'. by split_and!.
Defined.

Lemma table_scan_complete_witness :
  ∃ h rid, scan 2 (TableIterator.new h Unbounded Unbounded) = [Ok (Some (rid, demo_row.2)); Ok None].
Proof.
  destruct (demo_heap 5) as (d & s & h & st & Hd & Hrun & Hh & Hsch & Hsp & Hnow); [lia|].
  destruct (insert_room_Ok h st _ _ 0 _ [] demo_row.1 demo_row.2 Hh eq_refl eq_refl) as (s' & bytes & _ & Hh' & Hts).
  - unfold spare_frames in *. lia.
  - lia.
  - rewrite Hsch. split; [done|]. by apply TablePageSpec.demo_row_ok.
  - done.
  - exists (TableHeap.set_pool s' h), (RecordId.Mk (TableHeap.first_page_id h) 0).
    apply (table_scan_complete _ _ _ _ Hh'); [unfold spare_frames in *; simpl; lia|].
    unfold now. cbn [TableHeap.buffer_pool TableHeap.set_pool]. simpl length. lia.
Defined.

End TableHeapSpec.
