(* ===== verification/Index.v ===== *)
(** * Index: the B+ tree index

    Models [bustubx/src/storage/index.rs] over the buffer pool: search, insertion with
    splits, deletion with borrowing and merging, and the iterator. A [PageRef] held by
    a method is dropped at every way out of it but a panic ([holding]); one bound by
    [_] is dropped at the end of its statement. *)
From S2P Require Import Prelude CommonCodec Schema TupleCodec TablePage IndexPage IndexPageCodec.
From S2P Require Import DiskPages DiskManager Replacer BufferPool PageStore TableHeap.
Local Open Scope Z_scope.

(** The loops that go down a tree take a step for each level. Page ids have 32 bits and
    an internal page at least two children, so no tree is higher; on a cycle of pages,
    where the code would not return, the fuel ends in a panic. *)
Definition TREE_FUEL : nat := 64.

Module BPlusTreeIndex.
Section index.
Context {D : Type} `{Disk D}.

Record t := Mk {
  key_schema : Schema.t;
  buffer_pool : BufferPoolManager.t D;
  internal_max_size : Z;
  leaf_max_size : Z;
  root_page_id : Z;
}.

Definition new (key_schema : Schema.t) (buffer_pool : BufferPoolManager.t D)
    (internal_max_size leaf_max_size : Z) : t :=
  Mk key_schema buffer_pool internal_max_size leaf_max_size INVALID_PAGE_ID.

Definition set_pool (x : BufferPoolManager.t D) (self : t) : t :=
  Mk (key_schema self) x (internal_max_size self) (leaf_max_size self) (root_page_id self).
Definition set_root (x : Z) (self : t) : t :=
  Mk (key_schema self) (buffer_pool self) (internal_max_size self) (leaf_max_size self) x.

Definition on_pool {A} (m : SR (BufferPoolManager.t D) A) : SR t A := λ self,
  let '(s, r) := m (buffer_pool self) in (set_pool s self, r).

(** [drop(page)]: a failure of [drop] is a panic. *)
Definition drop_ref (frame_id : FrameId) : SR t unit := λ self,
  let '(self, r) := on_pool (BufferPoolManager.drop_page_ref frame_id) self in
  (self, match r with Ok _ => Ok tt | _ => Panic end).

(** A block that owns the [PageRef] of [frame_id]: dropped after a result or an error. *)
Definition holding {A} (frame_id : FrameId) (m : SR t A) : SR t A := λ self,
  let '(self, r) := m self in
  match r with
  | Panic => (self, Panic)
  | _ => (_ ← drop_ref frame_id; lift r) self
  end.

(** A block the [PageRef] outlives, unless the block returns early with an error. *)
Definition guarding {A} (frame_id : FrameId) (m : SR t A) : SR t A := λ self,
  let '(self, r) := m self in
  match r with
  | Err _ => (_ ← drop_ref frame_id; lift r) self
  | _ => (self, r)
  end.

Definition ref_page_id (frame_id : FrameId) : SR t Z :=
  page ← on_pool (BufferPoolManager.frame frame_id); ret (Page.page_id page).

(** [page.write().unwrap().set_data(page_bytes_to_array(&bytes))] *)
Definition set_data (frame_id : FrameId) (bytes : result (list Z)) : SR t unit :=
  bytes ← lift bytes;
  data ← lift (page_bytes_to_array bytes);
  on_pool (BufferPoolManager.set_page_data frame_id data).

Definition fetch_tree_page (page_id : Z) : SR t (FrameId * BPlusTreePage.t) :=
  key_schema ← gets key_schema;
  on_pool (BufferPoolManager.fetch_tree_page page_id key_schema).

Definition fetch_tree_internal_page (page_id : Z) : SR t (FrameId * BPlusTreeInternalPage.t) :=
  key_schema ← gets key_schema;
  on_pool (BufferPoolManager.fetch_tree_internal_page page_id key_schema).

Definition fetch_tree_leaf_page (page_id : Z) : SR t (FrameId * BPlusTreeLeafPage.t) :=
  key_schema ← gets key_schema;
  on_pool (BufferPoolManager.fetch_tree_leaf_page page_id key_schema).

(** [let (_, page) = fetch(..)?;] *)
Definition read_page {A} (fetch : SR t (FrameId * A)) : SR t A :=
  '(frame_id, a) ← fetch; holding frame_id (ret a).

(** [BPlusTreeLeafPageCodec::decode(leaf_page.read().unwrap().data(), ..)?] *)
Definition decode_leaf (frame_id : FrameId) : SR t BPlusTreeLeafPage.t :=
  key_schema ← gets key_schema;
  page ← on_pool (BufferPoolManager.frame frame_id);
  '(leaf, _) ← lift (BPlusTreeLeafPageCodec.decode (Page.data page) key_schema);
  ret leaf.

Definition is_empty (self : t) : bool := root_page_id self =? INVALID_PAGE_ID.

Definition start_new_tree (key : Tuple.t) (rid : RecordId.t) : SR t unit :=
  new_page ← on_pool BufferPoolManager.new_page;
  holding new_page (
    new_page_id ← ref_page_id new_page;
    key_schema ← gets key_schema;
    leaf_max_size ← gets leaf_max_size;
    leaf_page ← lift (BPlusTreeLeafPage.insert (BPlusTreeLeafPage.new key_schema leaf_max_size) key rid);
    _ ← set_data new_page (BPlusTreeLeafPageCodec.encode leaf_page);
    modify (set_root new_page_id)).

(** The loop of [find_leaf_page]: the reference of the leaf, and the [read_set] of the
    context, the ids of the internal pages on the way. *)
Fixpoint find_leaf_loop (fuel : nat) (key : Tuple.t) (curr_page : FrameId)
    (curr_tree_page : BPlusTreePage.t) (read_set : list Z) : SR t (FrameId * list Z) :=
  match curr_tree_page with
  | BPlusTreePage.Leaf _ => ret (curr_page, read_set)
  | BPlusTreePage.Internal internal_page =>
      match fuel with
      | O => lift Panic
      | S fuel' =>
          '(page_id, next_page, next_tree_page) ← holding curr_page (
            page_id ← ref_page_id curr_page;
            next_page_id ← lift (BPlusTreeInternalPage.look_up internal_page key);
            '(next_page, next_tree_page) ← fetch_tree_page next_page_id;
            ret (page_id, next_page, next_tree_page));
          find_leaf_loop fuel' key next_page next_tree_page (read_set ++ [page_id])
      end
  end.

Definition find_leaf_page (key : Tuple.t) : SR t (option (FrameId * list Z)) :=
  empty ← gets is_empty;
  if empty : bool then ret None
  else
    root ← gets root_page_id;
    '(curr_page, curr_tree_page) ← fetch_tree_page root;
    r ← find_leaf_loop TREE_FUEL key curr_page curr_tree_page [];
    ret (Some r).

(** [min_or_max]: the first or the last entry of the subtree. *)
Fixpoint find_subtree_loop (fuel : nat) (min_or_max : bool) (curr_tree_page : BPlusTreePage.t) :
    SR t LeafKV :=
  match curr_tree_page with
  | BPlusTreePage.Internal internal_page =>
      match fuel with
      | O => lift Panic
      | S fuel' =>
          index ← lift (if min_or_max then Ok O
                        else usub (Z.to_nat (BPlusTreeInternalPage.current_size
                                               (BPlusTreeInternalPage.header internal_page))) 1);
          next_page_id ← lift (BPlusTreeInternalPage.value_at internal_page index);
          next_tree_page ← read_page (fetch_tree_page next_page_id);
          find_subtree_loop fuel' min_or_max next_tree_page
      end
  | BPlusTreePage.Leaf leaf_page =>
      index ← lift (if min_or_max then Ok O
                    else usub (Z.to_nat (BPlusTreeLeafPage.current_size
                                           (BPlusTreeLeafPage.header leaf_page))) 1);
      lift (BPlusTreeLeafPage.kv_at leaf_page index)
  end.

Definition find_subtree_leafkv (page_id : Z) (min_or_max : bool) : SR t LeafKV :=
  curr_tree_page ← read_page (fetch_tree_page page_id);
  find_subtree_loop TREE_FUEL min_or_max curr_tree_page.

Definition find_subtree_min_leafkv (page_id : Z) : SR t LeafKV := find_subtree_leafkv page_id true.
Definition find_subtree_max_leafkv (page_id : Z) : SR t LeafKV := find_subtree_leafkv page_id false.

(** [leaf_page.header.next_page_id = page_id] *)
Definition with_next_page_id (page_id : Z) (p : BPlusTreeLeafPage.t) : BPlusTreeLeafPage.t :=
  let h := BPlusTreeLeafPage.header p in
  BPlusTreeLeafPage.Mk (BPlusTreeLeafPage.schema p)
    (BPlusTreeLeafPage.MkHeader (BPlusTreeLeafPage.page_type h) (BPlusTreeLeafPage.current_size h)
       (BPlusTreeLeafPage.max_size h) page_id)
    (BPlusTreeLeafPage.array p).

(** The page with its lower half, and the key and id of the new page on its right. *)
Definition split (tree_page : BPlusTreePage.t) : SR t (BPlusTreePage.t * InternalKV) :=
  new_page ← on_pool BufferPoolManager.new_page;
  holding new_page (
    new_page_id ← ref_page_id new_page;
    key_schema ← gets key_schema;
    match tree_page with
    | BPlusTreePage.Leaf leaf_page =>
        leaf_max_size ← gets leaf_max_size;
        '(leaf_page, kvs) ← lift (BPlusTreeLeafPage.split_off leaf_page
          (Z.to_nat (BPlusTreeLeafPage.current_size (BPlusTreeLeafPage.header leaf_page)) / 2));
        new_leaf_page ← lift (BPlusTreeLeafPage.batch_insert
          (BPlusTreeLeafPage.new key_schema leaf_max_size) kvs);
        let new_leaf_page := with_next_page_id
          (BPlusTreeLeafPage.next_page_id (BPlusTreeLeafPage.header leaf_page)) new_leaf_page in
        let leaf_page := with_next_page_id new_page_id leaf_page in
        _ ← set_data new_page (BPlusTreeLeafPageCodec.encode new_leaf_page);
        key ← lift (BPlusTreeLeafPage.key_at new_leaf_page 0);
        ret (BPlusTreePage.Leaf leaf_page, (key, new_page_id))
    | BPlusTreePage.Internal internal_page =>
        internal_max_size ← gets internal_max_size;
        '(internal_page, kvs) ← lift (BPlusTreeInternalPage.split_off internal_page
          (Z.to_nat (BPlusTreeInternalPage.current_size
                       (BPlusTreeInternalPage.header internal_page)) / 2));
        new_internal_page ← lift (BPlusTreeInternalPage.batch_insert
          (BPlusTreeInternalPage.new key_schema internal_max_size) kvs);
        _ ← set_data new_page (BPlusTreeInternalPageCodec.encode new_internal_page);
        min_leafkv ← find_subtree_min_leafkv new_page_id;
        ret (BPlusTreePage.Internal internal_page, (min_leafkv.1, new_page_id))
    end).

(** A new root over the old one and the page split off it. *)
Definition new_root (internalkv : InternalKV) : SR t (FrameId * BPlusTreePage.t) :=
  new_root_page ← on_pool BufferPoolManager.new_page;
  new_root_page_id ← ref_page_id new_root_page;
  key_schema ← gets key_schema;
  internal_max_size ← gets internal_max_size;
  root ← gets root_page_id;
  empty ← lift (Tuple.empty key_schema);
  page ← lift (BPlusTreeInternalPage.insert
    (BPlusTreeInternalPage.new key_schema internal_max_size) empty root);
  page ← lift (BPlusTreeInternalPage.insert page internalkv.1 internalkv.2);
  _ ← set_data new_root_page (BPlusTreeInternalPageCodec.encode page);
  _ ← modify (set_root new_root_page_id);
  ret (new_root_page, BPlusTreePage.Internal page).

(** The loop of [insert] with the write after it: a round for each page of [read_set],
    one for the root and one that finds room. *)
Fixpoint insert_loop (fuel : nat) (curr_page : FrameId) (curr_tree_page : BPlusTreePage.t)
    (read_set : list Z) : SR t unit :=
  if BPlusTreePage.is_full curr_tree_page then
    match fuel with
    | O => lift Panic
    | S fuel' =>
        '(parent, curr_tree_page, read_set) ← guarding curr_page (
          '(curr_tree_page, internalkv) ← split curr_tree_page;
          _ ← set_data curr_page (BPlusTreePageCodec.encode curr_tree_page);
          curr_page_id ← ref_page_id curr_page;
          root ← gets root_page_id;
          match last read_set with
          | Some parent_page_id =>
              '(parent_page, parent_tree_page) ← fetch_tree_page parent_page_id;
              parent_tree_page ← lift (BPlusTreePage.insert_internalkv parent_tree_page internalkv);
              ret (Some parent_page, parent_tree_page, removelast read_set)
          | None =>
              if curr_page_id =? root then
                '(new_root_page, page) ← new_root internalkv;
                ret (Some new_root_page, page, [])
              else ret (None, curr_tree_page, [])
          end);
        match parent with
        | Some parent_page =>
            _ ← drop_ref curr_page;
            insert_loop fuel' parent_page curr_tree_page read_set
        | None => insert_loop fuel' curr_page curr_tree_page read_set
        end
    end
  else holding curr_page (set_data curr_page (BPlusTreePageCodec.encode curr_tree_page)).

Definition insert (key : Tuple.t) (rid : RecordId.t) : SR t unit :=
  empty ← gets is_empty;
  if empty : bool then start_new_tree key rid
  else
    leaf ← find_leaf_page key;
    match leaf with
    | None => fail (Storage "Cannot find leaf page to insert")
    | Some (leaf_page, read_set) =>
        leaf_tree_page ← guarding leaf_page (decode_leaf leaf_page);
        leaf_tree_page ← lift (BPlusTreeLeafPage.insert leaf_tree_page key rid);
        insert_loop (S (S (length read_set))) leaf_page (BPlusTreePage.Leaf leaf_tree_page) read_set
    end.

Definition get (key : Tuple.t) : SR t (option RecordId.t) :=
  empty ← gets is_empty;
  if empty : bool then ret None
  else
    leaf ← find_leaf_page key;
    match leaf with
    | None => ret None
    | Some (leaf_page, _) =>
        holding leaf_page (
          leaf_tree_page ← decode_leaf leaf_page;
          lift (BPlusTreeLeafPage.look_up leaf_tree_page key))
    end.

(** *** Deletion *)

(** One entry moves from [borrowed_tree_page] to [tree_page]: both pages, and the key of
    the parent that is replaced, with its new value. *)
Definition borrow_kv (min_max : bool) (borrowed_tree_page tree_page : BPlusTreePage.t) :
    SR t (BPlusTreePage.t * BPlusTreePage.t * Tuple.t * Tuple.t) :=
  match borrowed_tree_page, tree_page with
  | BPlusTreePage.Internal borrowed, BPlusTreePage.Internal page =>
      if min_max then
        '(borrowed, kvs) ← lift (BPlusTreeInternalPage.reverse_split_off borrowed 0);
        '(kv, _) ← lift (vec_remove kvs 0);
        page ← lift (BPlusTreeInternalPage.insert page kv.1 kv.2);
        first ← lift (BPlusTreeInternalPage.value_at borrowed 0);
        min_leafkv ← find_subtree_min_leafkv first;
        ret (BPlusTreePage.Internal borrowed, BPlusTreePage.Internal page, kv.1, min_leafkv.1)
      else
        at_ ← lift (usub (Z.to_nat (BPlusTreeInternalPage.current_size
                                      (BPlusTreeInternalPage.header borrowed))) 1);
        '(borrowed, kvs) ← lift (BPlusTreeInternalPage.split_off borrowed at_);
        '(kv, _) ← lift (vec_remove kvs 0);
        min_key ← lift (BPlusTreeInternalPage.key_at page 0);
        page ← lift (BPlusTreeInternalPage.insert page kv.1 kv.2);
        first ← lift (BPlusTreeInternalPage.value_at borrowed 0);
        min_leafkv ← find_subtree_min_leafkv first;
        ret (BPlusTreePage.Internal borrowed, BPlusTreePage.Internal page, min_key, min_leafkv.1)
  | BPlusTreePage.Leaf borrowed, BPlusTreePage.Leaf page =>
      if min_max then
        '(borrowed, kvs) ← lift (BPlusTreeLeafPage.reverse_split_off borrowed 0);
        '(kv, _) ← lift (vec_remove kvs 0);
        page ← lift (BPlusTreeLeafPage.insert page kv.1 kv.2);
        new_key ← lift (BPlusTreeLeafPage.key_at borrowed 0);
        ret (BPlusTreePage.Leaf borrowed, BPlusTreePage.Leaf page, kv.1, new_key)
      else
        at_ ← lift (usub (Z.to_nat (BPlusTreeLeafPage.current_size
                                      (BPlusTreeLeafPage.header borrowed))) 1);
        '(borrowed, kvs) ← lift (BPlusTreeLeafPage.split_off borrowed at_);
        '(kv, _) ← lift (vec_remove kvs 0);
        page ← lift (BPlusTreeLeafPage.insert page kv.1 kv.2);
        old_key ← lift (BPlusTreeLeafPage.key_at page 1);
        new_key ← lift (BPlusTreeLeafPage.key_at page 0);
        ret (BPlusTreePage.Leaf borrowed, BPlusTreePage.Leaf page, old_key, new_key)
  | BPlusTreePage.Internal _, _ => fail (Storage "Leaf page can not borrow from internal page")
  | BPlusTreePage.Leaf _, _ => fail (Storage "Internal page can not borrow from leaf page")
  end.

Definition borrow (parent_page_id page_id borrowed_page_id : Z) (min_max : bool) : SR t bool :=
  '(borrowed_page, borrowed_tree_page) ← fetch_tree_page borrowed_page_id;
  holding borrowed_page (
    if negb (BPlusTreePage.can_borrow borrowed_tree_page) then ret false
    else
      '(page, tree_page) ← fetch_tree_page page_id;
      holding page (
        '(borrowed_tree_page, tree_page, old_internal_key, new_internal_key) ←
          borrow_kv min_max borrowed_tree_page tree_page;
        _ ← set_data page (BPlusTreePageCodec.encode tree_page);
        _ ← set_data borrowed_page (BPlusTreePageCodec.encode borrowed_tree_page);
        '(parent_page, parent_internal_page) ← fetch_tree_internal_page parent_page_id;
        holding parent_page (
          parent_internal_page ← lift (BPlusTreeInternalPage.replace_key parent_internal_page
                                         old_internal_key new_internal_key);
          _ ← set_data parent_page (BPlusTreeInternalPageCodec.encode parent_internal_page);
          ret true))).

Definition borrow_min_kv (parent_page_id page_id borrowed_page_id : Z) : SR t bool :=
  borrow parent_page_id page_id borrowed_page_id true.
Definition borrow_max_kv (parent_page_id page_id borrowed_page_id : Z) : SR t bool :=
  borrow parent_page_id page_id borrowed_page_id false.

Definition find_sibling_pages (parent_page_id child_page_id : Z) : SR t (option Z * option Z) :=
  parent_internal_page ← read_page (fetch_tree_internal_page parent_page_id);
  lift (BPlusTreeInternalPage.sibling_page_ids parent_internal_page child_page_id).

(** The left page with the entries of the right one. *)
Definition merge_kvs (left_tree_page right_tree_page : BPlusTreePage.t) : SR t BPlusTreePage.t :=
  match left_tree_page, right_tree_page with
  | BPlusTreePage.Internal left_page, BPlusTreePage.Internal right_page =>
      first ← lift (BPlusTreeInternalPage.value_at right_page 0);
      min_leaf_kv ← find_subtree_min_leafkv first;
      kv ← lift (index (BPlusTreeInternalPage.array right_page) 0);
      let kvs := <[O := (min_leaf_kv.1, kv.2)]> (BPlusTreeInternalPage.array right_page) in
      left_page ← lift (BPlusTreeInternalPage.batch_insert left_page kvs);
      ret (BPlusTreePage.Internal left_page)
  | BPlusTreePage.Leaf left_page, BPlusTreePage.Leaf right_page =>
      left_page ← lift (BPlusTreeLeafPage.batch_insert left_page (BPlusTreeLeafPage.array right_page));
      ret (BPlusTreePage.Leaf (with_next_page_id
        (BPlusTreeLeafPage.next_page_id (BPlusTreeLeafPage.header right_page)) left_page))
  | BPlusTreePage.Internal _, _ => fail (Storage "Leaf page can not merge from internal page")
  | BPlusTreePage.Leaf _, _ => fail (Storage "Internal page can not merge from leaf page")
  end.

Definition merge (parent_page_id left_page_id right_page_id : Z) : SR t Z :=
  '(left_page, left_tree_page) ← fetch_tree_page left_page_id;
  holding left_page (
    right_tree_page ← read_page (fetch_tree_page right_page_id);
    left_tree_page ← merge_kvs left_tree_page right_tree_page;
    _ ← set_data left_page (BPlusTreePageCodec.encode left_tree_page);
    _ ← on_pool (BufferPoolManager.delete_page right_page_id);
    '(parent_page, parent_internal_page) ← fetch_tree_internal_page parent_page_id;
    holding parent_page (
      parent_internal_page ← lift (BPlusTreeInternalPage.delete_page_id parent_internal_page
                                     right_page_id);
      root ← gets root_page_id;
      if (parent_page_id =? root) &&
         (BPlusTreeInternalPage.current_size (BPlusTreeInternalPage.header parent_internal_page) =? 1)
      then
        _ ← modify (set_root left_page_id);
        _ ← on_pool (BufferPoolManager.delete_page parent_page_id);
        ret left_page_id
      else
        _ ← set_data parent_page (BPlusTreeInternalPageCodec.encode parent_internal_page);
        ret parent_page_id)).

(** [if let Some(id) = sibling { if borrow(id)? { break; } }] *)
Definition try_borrow (sibling : option Z) (borrow : Z → SR t bool) : SR t bool :=
  match sibling with Some id => borrow id | None => ret false end.

(** The loop of [delete], up the pages of [read_set]. *)
Fixpoint delete_loop (fuel : nat) (curr_page_id : Z) (curr_tree_page : BPlusTreePage.t)
    (read_set : list Z) : SR t unit :=
  root ← gets root_page_id;
  if BPlusTreePage.is_underflow curr_tree_page (root =? curr_page_id) then
    match fuel with
    | O => lift Panic
    | S fuel' =>
        match last read_set with
        | None => fail (Storage "Cannot find parent page")
        | Some parent_page_id =>
            '(left_sibling, right_sibling) ← find_sibling_pages parent_page_id curr_page_id;
            borrowed ← try_borrow left_sibling (borrow_max_kv parent_page_id curr_page_id);
            if borrowed : bool then ret tt
            else
              borrowed ← try_borrow right_sibling (borrow_min_kv parent_page_id curr_page_id);
              if borrowed : bool then ret tt
              else
                new_parent_page_id ←
                  match left_sibling, right_sibling with
                  | Some left_id, _ => merge parent_page_id left_id curr_page_id
                  | None, Some right_id => merge parent_page_id curr_page_id right_id
                  | None, None => fail (Storage "Cannot process index page borrow or merge")
                  end;
                new_parent_tree_page ← read_page (fetch_tree_page new_parent_page_id);
                delete_loop fuel' new_parent_page_id new_parent_tree_page (removelast read_set)
        end
    end
  else ret tt.

Definition delete (key : Tuple.t) : SR t unit :=
  empty ← gets is_empty;
  if empty : bool then ret tt
  else
    leaf ← find_leaf_page key;
    match leaf with
    | None => fail (Storage "Cannot find leaf page to delete")
    | Some (leaf_page, read_set) =>
        holding leaf_page (
          leaf_tree_page ← decode_leaf leaf_page;
          leaf_tree_page ← lift (BPlusTreeLeafPage.delete leaf_tree_page key);
          _ ← set_data leaf_page (BPlusTreeLeafPageCodec.encode leaf_tree_page);
          curr_page_id ← ref_page_id leaf_page;
          delete_loop (S (length read_set)) curr_page_id (BPlusTreePage.Leaf leaf_tree_page) read_set)
    end.

(** *** The first leaf *)
Fixpoint first_leaf_loop (fuel : nat) (curr_tree_page : BPlusTreePage.t) : SR t BPlusTreeLeafPage.t :=
  match curr_tree_page with
  | BPlusTreePage.Leaf leaf_page => ret leaf_page
  | BPlusTreePage.Internal internal_page =>
      match fuel with
      | O => lift Panic
      | S fuel' =>
          next_page_id ← lift (BPlusTreeInternalPage.value_at internal_page 0);
          next_tree_page ← read_page (fetch_tree_page next_page_id);
          first_leaf_loop fuel' next_tree_page
      end
  end.

Definition get_first_leaf_page : SR t BPlusTreeLeafPage.t :=
  root ← gets root_page_id;
  curr_tree_page ← read_page (fetch_tree_page root);
  first_leaf_loop TREE_FUEL curr_tree_page.

End index.
Arguments t D : clear implicits.
End BPlusTreeIndex.

(** ** The iterator *)
Module TreeIndexIterator.
Section iterator.
Context {D : Type} `{Disk D}.

Record t := Mk {
  index : BPlusTreeIndex.t D;
  start_bound : Bound Tuple.t;
  end_bound : Bound Tuple.t;
  leaf_page : BPlusTreeLeafPage.t;
  cursor : nat;
  started : bool;
}.

Definition new (index : BPlusTreeIndex.t D) (start_bound end_bound : Bound Tuple.t) : t :=
  Mk index start_bound end_bound BPlusTreeLeafPage.empty 0 false.

Definition set_index (x : BPlusTreeIndex.t D) (self : t) : t :=
  Mk x (start_bound self) (end_bound self) (leaf_page self) (cursor self) (started self).
Definition set_leaf (x : BPlusTreeLeafPage.t) (self : t) : t :=
  Mk (index self) (start_bound self) (end_bound self) x (cursor self) (started self).
Definition set_cursor (x : nat) (self : t) : t :=
  Mk (index self) (start_bound self) (end_bound self) (leaf_page self) x (started self).
Definition set_started (self : t) : t :=
  Mk (index self) (start_bound self) (end_bound self) (leaf_page self) (cursor self) true.

Definition on_index {A} (m : SR (BPlusTreeIndex.t D) A) : SR t A := λ self,
  let '(x, r) := m (index self) in (set_index x self, r).

Definition holding {A} (frame_id : FrameId) (m : SR t A) : SR t A := λ self,
  let '(self, r) := m self in
  match r with
  | Panic => (self, Panic)
  | _ => (_ ← on_index (BPlusTreeIndex.drop_ref frame_id); lift r) self
  end.

Definition load_next_leaf_page : SR t bool :=
  page ← gets leaf_page;
  let next_page_id := BPlusTreeLeafPage.next_page_id (BPlusTreeLeafPage.header page) in
  if next_page_id =? INVALID_PAGE_ID then ret false
  else
    next_leaf_page ← on_index (BPlusTreeIndex.read_page
                                 (BPlusTreeIndex.fetch_tree_leaf_page next_page_id));
    _ ← modify (set_leaf next_leaf_page);
    ret true.

(** [self.leaf_page.array[self.cursor]] *)
Definition current : SR t LeafKV :=
  page ← gets leaf_page;
  i ← gets cursor;
  lift (Prelude.index (BPlusTreeLeafPage.array page) i).

(** The first entry of the next leaf, if there is one. *)
Definition next_leaf : SR t (option LeafKV) :=
  loaded ← load_next_leaf_page;
  if loaded : bool then
    _ ← modify (set_cursor 0);
    kv ← current; ret (Some kv)
  else ret None.

(** One entry forward: what the three branches of a started iterator share. *)
Definition advance : SR t (option LeafKV) :=
  _ ← modify (λ self, set_cursor (S (cursor self)) self);
  page ← gets leaf_page;
  i ← gets cursor;
  if BPlusTreeLeafPage.current_size (BPlusTreeLeafPage.header page) <=? Z.of_nat i
  then next_leaf
  else kv ← current; ret (Some kv).

(** The first entry at or after a start bound. *)
Definition start_at (start_tuple : Tuple.t) (included : bool) : SR t (option RecordId.t) :=
  leaf ← on_index (BPlusTreeIndex.find_leaf_page start_tuple);
  match leaf with
  | None => ret None
  | Some (frame_id, _) =>
      holding frame_id (
        page ← on_index (BPlusTreeIndex.decode_leaf frame_id);
        _ ← modify (set_leaf page);
        match BPlusTreeLeafPage.next_closest page start_tuple included with
        | Some idx =>
            _ ← modify (set_cursor idx);
            kv ← current; ret (Some kv.2)
        | None => kv ← next_leaf; ret (snd <$> kv)
        end)
  end.

(** [kv.0 <= end_tuple] and [kv.0 < end_tuple] *)
Definition before (included : bool) (key end_tuple : Tuple.t) : bool :=
  match Tuple.partial_cmp key end_tuple with
  | Some Lt => true
  | Some Eq => included
  | _ => false
  end.

Definition next : SR t (option RecordId.t) :=
  empty ← gets (λ self, BPlusTreeIndex.is_empty (index self));
  if empty : bool then ret None
  else
  is_started ← gets started;
  if is_started : bool then
    bound ← gets end_bound;
    kv ← advance;
    match bound, kv with
    | _, None => ret None
    | Included end_tuple, Some kv => ret (if before true kv.1 end_tuple then Some kv.2 else None)
    | Excluded end_tuple, Some kv => ret (if before false kv.1 end_tuple then Some kv.2 else None)
    | Unbounded, Some kv => ret (Some kv.2)
    end
  else
    _ ← modify set_started;
    bound ← gets start_bound;
    match bound with
    | Included start_tuple => start_at start_tuple true
    | Excluded start_tuple => start_at start_tuple false
    | Unbounded =>
        page ← on_index BPlusTreeIndex.get_first_leaf_page;
        _ ← modify (set_leaf page);
        _ ← modify (set_cursor 0);
        kv ← current; ret (Some kv.2)
    end.

End iterator.
Arguments t D : clear implicits.
End TreeIndexIterator.
