(* ===== verification/Tree.v ===== *)
(** * Tree: the B+ tree as a data structure

    What the pages of an index stand for. A [tree] is a leaf with its entries or a node
    with its children; [tree_at] says that the pages of a memory hold a tree: every
    page with its links, the keys between the separators around it, each leaf linked
    to the next one. A [zipper] is the way from the root to a subtree. The operations
    of [Index] are proved against these definitions in [IndexSpec]. *)
From S2P Require Import Prelude CommonCodec Schema TupleCodec TablePage IndexPage IndexPageCodec.
Local Open Scope Z_scope.

Module BTree.
Import KeyArray KeyArrayFacts SchemaFacts LeafFacts InternalFacts IndexPageCodecFacts.

Inductive tree :=
  | Leaf (page : Z) (kvs : list LeafKV)
  | Node (page : Z) (children : list (Tuple.t * tree)).

Notation child := (Tuple.t * tree)%type.

Definition root (t : tree) : Z := match t with Leaf p _ | Node p _ => p end.

(** The first leaf. *)
Fixpoint leftmost (t : tree) : Z :=
  match t with
  | Leaf p _ => p
  | Node p ((_, t') :: _) => leftmost t'
  | Node p [] => p
  end.

(** The entries, from left to right, and the pages. *)
Fixpoint contents (t : tree) : list LeafKV :=
  match t with
  | Leaf _ kvs => kvs
  | Node _ cs => flat_map (λ c, contents c.2) cs
  end.

Fixpoint page_ids (t : tree) : list Z :=
  match t with
  | Leaf p _ => [p]
  | Node p cs => p :: flat_map (λ c, page_ids c.2) cs
  end.

Definition entries (cs : list child) : list LeafKV := flat_map (λ c, contents c.2) cs.
Definition ids (cs : list child) : list Z := flat_map (λ c, page_ids c.2) cs.

(** What a node stores of its children. *)
Definition links (cs : list child) : list InternalKV := (λ c, (c.1, root c.2)) <$> cs.

(** ** Pages of a tree *)
Section params.
Context (ks : Schema.t) (imax lmax : Z) (room : nat).

(** Keys have an encoding of at most [room] bytes, with which a page that is not over
    its maximal size can be written; an internal page has two halves of two. *)
Definition key_ok (k : Tuple.t) : Prop :=
  Tuple.ok ks k ∧ Forall TupleCodecFacts.encodable (Tuple.data k) ∧
  ∃ bs, TupleCodec.encode k = Ok bs ∧ (length bs ≤ room)%nat.

Record params_ok : Prop := ParamsOk {
  params_internal : 3 ≤ imax < 2 ^ 29;
  params_leaf : 1 ≤ lmax < 2 ^ 29;
  params_internal_room : 9 + imax * (Z.of_nat room + 4) ≤ Z.of_nat BUSTUBX_PAGE_SIZE;
  params_leaf_room : 13 + lmax * (Z.of_nat room + 8) ≤ Z.of_nat BUSTUBX_PAGE_SIZE;
  params_empty : ∃ e, Tuple.empty ks = Ok e ∧ key_ok e;
}.

Definition leaf_is (lp : BPlusTreeLeafPage.t) (next : Z) (kvs : list LeafKV) : Prop :=
  leaf_ok ks lp ∧ BPlusTreeLeafPage.array lp = kvs ∧
  BPlusTreeLeafPage.next_page_id (BPlusTreeLeafPage.header lp) = next ∧ unsigned_ok 32 next ∧
  BPlusTreeLeafPage.max_size (BPlusTreeLeafPage.header lp) = lmax ∧
  Forall (λ kv, key_ok kv.1 ∧ rid_ok kv.2) kvs.

Definition internal_is (ip : BPlusTreeInternalPage.t) (kvs : list InternalKV) : Prop :=
  (∃ first rest, kvs = first :: rest ∧ internal_ok ks ip first rest) ∧
  BPlusTreeInternalPage.max_size (BPlusTreeInternalPage.header ip) = imax ∧
  Forall (λ kv, key_ok kv.1 ∧ unsigned_ok 32 kv.2) kvs ∧ (2 ≤ length kvs)%nat.

(** The bytes of page [p] are the tree page [tp]. *)
Definition page_shows (m : gmap Z (list Z)) (p : Z) (tp : BPlusTreePage.t) : Prop :=
  ∃ bytes, m !! p = Some bytes ∧ BPlusTreePageCodec.decode bytes ks = Ok (tp, BUSTUBX_PAGE_SIZE) ∧
    match tp with
    | BPlusTreePage.Leaf lp => BPlusTreeLeafPageCodec.decode bytes ks = Ok (lp, BUSTUBX_PAGE_SIZE)
    | BPlusTreePage.Internal ip => BPlusTreeInternalPageCodec.decode bytes ks = Ok (ip, BUSTUBX_PAGE_SIZE)
    end.

(** ** Trees in a memory *)

(** [lo <= k] and [k < hi], where there is a bound. *)
Definition at_least (lo : option Tuple.t) (k : Tuple.t) : Prop :=
  match lo with Some l => kle l k | None => True end.
Definition under (hi : option Tuple.t) (k : Tuple.t) : Prop :=
  match hi with Some h => klt k h | None => True end.

Definition between (lo hi : option Tuple.t) (kvs : list LeafKV) : Prop :=
  Forall (λ kv, at_least lo kv.1 ∧ under hi kv.1) kvs.

(** The children of a node, each with the leaf after it and the separators around it. *)
Fixpoint forest_at (P : Z → option Tuple.t → option Tuple.t → tree → Prop) (next : Z)
    (lo hi : option Tuple.t) (cs : list child) : Prop :=
  match cs with
  | [] => False
  | (_, t) :: cs' =>
      contents t ≠ [] ∧
      match cs' with
      | [] => P next lo hi t
      | (k', t') :: _ => Tuple.ok ks k' ∧ P (leftmost t') lo (Some k') t ∧ forest_at P next (Some k') hi cs'
      end
  end.

(** The tree page [tp] of the root of [t], over children that are in the memory. *)
Definition node_is (sub : Z → option Tuple.t → option Tuple.t → tree → Prop) (leaf : bool)
    (next : Z) (lo hi : option Tuple.t) (t : tree) (tp : BPlusTreePage.t) : Prop :=
  match t, tp with
  | Leaf _ kvs, BPlusTreePage.Leaf lp => leaf = true ∧ leaf_is lp next kvs ∧ between lo hi kvs
  | Node _ cs, BPlusTreePage.Internal ip =>
      leaf = false ∧ internal_is ip (links cs) ∧ forest_at sub next lo hi cs
  | _, _ => False
  end.

(** A tree of height [h]: all leaves are at the same depth. *)
Fixpoint tree_at (m : gmap Z (list Z)) (h : nat) (next : Z) (lo hi : option Tuple.t) (t : tree) : Prop :=
  ∃ tp, page_shows m (root t) tp ∧ BPlusTreePage.is_full tp = false ∧
    match h with
    | O => node_is (λ _ _ _ _, False) true next lo hi t tp
    | S h' => node_is (tree_at m h') false next lo hi t tp
    end.

(** The page of a subtree of height [h], whatever is in its place in the memory. *)
Definition top_is (m : gmap Z (list Z)) (h : nat) (next : Z) (lo hi : option Tuple.t) (t : tree)
    (tp : BPlusTreePage.t) : Prop :=
  match h with
  | O => node_is (λ _ _ _ _, False) true next lo hi t tp
  | S h' => node_is (tree_at m h') false next lo hi t tp
  end.

(** *** The way to a subtree: the page, and the children left and right of it. *)
Record step := Step { above : Z; before : list child; key : Tuple.t; after : list child }.

Fixpoint plug (z : list step) (t : tree) : tree :=
  match z with
  | [] => t
  | Step p l k r :: z' => plug z' (Node p (l ++ (k, t) :: r))
  end.

Definition first_of (l : list child) (start : Z) : Z :=
  match l with (_, t) :: _ => leftmost t | [] => start end.

Section zipper.
Context (m : gmap Z (list Z)).

(** The children left of a subtree of height [h] with first leaf [start] and first key
    [k], and those right of it. *)
Definition left_at (h : nat) (start : Z) (lo' : option Tuple.t) (l : list child) (k : Tuple.t)
    (lo : option Tuple.t) : Prop :=
  match l with
  | [] => lo = lo'
  | _ => Tuple.ok ks k ∧ forest_at (tree_at m h) start lo' (Some k) l ∧ lo = Some k
  end.

Definition right_at (h : nat) (next' : Z) (hi' : option Tuple.t) (r : list child) (next : Z)
    (hi : option Tuple.t) : Prop :=
  match r with
  | [] => hi = hi' ∧ next = next'
  | (k, t) :: _ => Tuple.ok ks k ∧ forest_at (tree_at m h) next' (Some k) hi' r ∧ hi = Some k ∧ next = leftmost t
  end.

(** The steps above a subtree of height [h], with root [q] and first leaf [start], in
    the place [next], [lo], [hi] of a whole tree. *)
Fixpoint zipper_at (h : nat) (q start next : Z) (lo hi : option Tuple.t) (z : list step) : Prop :=
  match z with
  | [] => next = INVALID_PAGE_ID ∧ lo = None ∧ hi = None
  | Step p l k r :: z' => ∃ ip next' lo' hi',
      page_shows m p (BPlusTreePage.Internal ip) ∧
      BPlusTreePage.is_full (BPlusTreePage.Internal ip) = false ∧
      internal_is ip (links l ++ (k, q) :: links r) ∧
      left_at h start lo' l k lo ∧ right_at h next' hi' r next hi ∧
      zipper_at (S h) p (first_of l start) next' lo' hi' z'
  end.
End zipper.

Definition zipper_ids (z : list step) : list Z :=
  z ≫= λ s, above s :: ids (before s) ++ ids (after s).
Definition zipper_entries (z : list step) : list LeafKV :=
  z ≫= λ s, entries (before s) ++ entries (after s).

End params.
End BTree.

Module TreeFacts.
Import KeyArray KeyArrayFacts SchemaFacts LeafFacts InternalFacts IndexPageCodecFacts BTree.

Section params.
Context (ks : Schema.t) (imax lmax : Z) (room : nat).
Notation tree_at := (tree_at ks imax lmax room).
Notation top_is := (top_is ks imax lmax room).
Notation zipper_at := (zipper_at ks imax lmax room).
Notation forest_at := (forest_at ks).

Lemma tree_at_top m h next lo hi t :
  tree_at m h next lo hi t ↔
  ∃ tp, page_shows ks m (root t) tp ∧ BPlusTreePage.is_full tp = false ∧ top_is m h next lo hi t tp.
Proof. by destruct h. Qed.

(** *** Children *)
Section forest.
Context (P : Z → option Tuple.t → option Tuple.t → tree → Prop).

Lemma forest_app next lo hi l k t r :
  l ≠ [] →
  forest_at P next lo hi (l ++ (k, t) :: r) ↔
  Tuple.ok ks k ∧ forest_at P (leftmost t) lo (Some k) l ∧ forest_at P next (Some k) hi ((k, t) :: r).
Proof.
  revert lo. induction l as [|[k1 t1] l IH]; intros lo Hl; [done|]. clear Hl.
  destruct l as [|[k2 t2] l].
  - cbn [app BTree.forest_at]. tauto.
  - specialize (IH (Some k2) ltac:(done)). cbn [app] in *.
    change (forest_at P next lo hi ((k1, t1) :: (k2, t2) :: l ++ (k, t) :: r)) with
      (contents t1 ≠ [] ∧ Tuple.ok ks k2 ∧ P (leftmost t2) lo (Some k2) t1 ∧
       forest_at P next (Some k2) hi ((k2, t2) :: l ++ (k, t) :: r)).
    change (forest_at P (leftmost t) lo (Some k) ((k1, t1) :: (k2, t2) :: l)) with
      (contents t1 ≠ [] ∧ Tuple.ok ks k2 ∧ P (leftmost t2) lo (Some k2) t1 ∧
       forest_at P (leftmost t) (Some k2) (Some k) ((k2, t2) :: l)).
    rewrite IH. tauto.
Qed.

Lemma forest_not_nil next lo hi cs : forest_at P next lo hi cs → entries cs ≠ [].
Proof.
  destruct cs as [|[k t] cs]; [done|]. intros [Hne _]. unfold entries. simpl.
  by destruct (contents t).
Qed.

Lemma forest_impl (Q : Z → option Tuple.t → option Tuple.t → tree → Prop) next lo hi cs :
  (∀ c next lo hi, c ∈ cs → P next lo hi c.2 → Q next lo hi c.2) →
  forest_at P next lo hi cs → forest_at Q next lo hi cs.
Proof.
  revert lo. induction cs as [|[k t] cs IH]; intros lo HPQ; [done|]. intros [Hne Hf]. split; [done|].
  destruct cs as [|[k' t'] cs].
  - apply (HPQ (k, t)); [by left|done].
  - destruct Hf as (Hk & Ht & Hf). split_and!; [done|apply (HPQ (k, t)); [by left|done]|].
    apply IH; [|done]. intros c ? ? ? Hc. apply HPQ. by right.
Qed.

(** *** The keys of a forest *)
Definition bound_ok (b : option Tuple.t) : Prop := match b with Some k => Tuple.ok ks k | None => True end.

Definition ordered (lo hi : option Tuple.t) (kvs : list LeafKV) : Prop :=
  between lo hi kvs ∧ keys_ok ks kvs ∧ sorted_lt kvs.

Notation laws := (tuple_cmp_laws ks).

Lemma at_least_trans lo k k' :
  bound_ok lo → Tuple.ok ks k → Tuple.ok ks k' → at_least lo k → kle k k' → at_least lo k'.
Proof. destruct lo as [l|]; [|done]. intros ? ? ? ? ?. by apply (cmp_le_trans _ _ laws l k k'). Qed.

Lemma under_trans hi k k' :
  bound_ok hi → Tuple.ok ks k → Tuple.ok ks k' → under hi k → kle k' k → under hi k'.
Proof. destruct hi as [h|]; [|done]. intros ? ? ? ? ?. by apply (cmp_le_lt_trans _ _ laws k' k h). Qed.

Lemma klt_trans k1 k2 k3 :
  Tuple.ok ks k1 → Tuple.ok ks k2 → Tuple.ok ks k3 → klt k1 k2 → kle k2 k3 → klt k1 k3.
Proof. intros. by apply (cmp_lt_le_trans _ _ laws k1 k2 k3). Qed.

Lemma sorted_app_intro {V} (l1 l2 : list (Tuple.t * V)) :
  sorted_lt l1 → sorted_lt l2 → (∀ x y, x ∈ l1 → y ∈ l2 → klt x.1 y.1) → sorted_lt (l1 ++ l2).
Proof.
  intros H1 H2 H. induction H1 as [|x l1 _ IH Hx]; [done|]. simpl. constructor.
  - apply IH. intros a b Ha. apply H. by right.
  - apply Forall_app. split; [done|]. apply Forall_forall. intros y Hy. apply H; [by left|done].
Qed.

(** What is below a separator, and what is not. *)
Lemma ordered_app lo hi k l1 l2 :
  bound_ok lo → bound_ok hi → Tuple.ok ks k → l1 ≠ [] → l2 ≠ [] →
  ordered lo (Some k) l1 → ordered (Some k) hi l2 → ordered lo hi (l1 ++ l2).
Proof.
  intros Hlo Hhi Hk Hn1 Hn2 (Hb1 & Hk1 & Hs1) (Hb2 & Hk2 & Hs2). unfold ordered, between, keys_ok in *.
  rewrite Forall_forall in Hb1, Hb2, Hk1, Hk2. destruct l1 as [|x1 l1]; [done|]. destruct l2 as [|x2 l2]; [done|].
  pose proof (Hb1 x1 ltac:(by left)) as [Hlo1 Hu1]. pose proof (Hb2 x2 ltac:(by left)) as [Hl2 Hhi2].
  pose proof (Hk1 x1 ltac:(by left)) as Hok1. pose proof (Hk2 x2 ltac:(by left)) as Hok2. simpl in Hu1, Hl2.
  split_and!.
  - apply Forall_app. split; apply Forall_forall; intros x Hx.
    + destruct (Hb1 x Hx) as [Ha Hu]. split; [done|]. specialize (Hk1 x Hx).
      apply (under_trans hi x2.1); [done..|]. apply klt_kle, (klt_trans _ k); done.
    + destruct (Hb2 x Hx) as [Ha Hu]. split; [|done]. specialize (Hk2 x Hx).
      apply (at_least_trans lo x1.1); [done..|]. apply klt_kle, (klt_trans _ k); done.
  - apply Forall_app. split; by apply Forall_forall.
  - apply sorted_app_intro; [done..|]. intros x y Hx Hy. apply (klt_trans _ k); auto.
    + by destruct (Hb1 x Hx).
    + by destruct (Hb2 y Hy).
Qed.

Lemma forest_ordered next lo hi cs :
  (∀ next lo hi t, bound_ok lo → bound_ok hi → P next lo hi t → ordered lo hi (contents t)) →
  bound_ok lo → bound_ok hi → forest_at P next lo hi cs → ordered lo hi (entries cs).
Proof.
  intros HP. revert lo. induction cs as [|[k t] cs IH]; intros lo Hlo Hhi; [done|]. intros [Hne Hf].
  unfold entries. cbn [flat_map snd]. destruct cs as [|[k' t'] cs].
  - rewrite app_nil_r. by eapply HP.
  - destruct Hf as (Hk & Ht & Hf). apply (ordered_app _ _ k'); [done..| | |].
    + exact (forest_not_nil _ _ _ _ Hf).
    + by eapply HP.
    + by apply IH.
Qed.
End forest.

(** *** The whole tree *)
Lemma top_ordered m h next lo hi t tp :
  bound_ok lo → bound_ok hi → top_is m h next lo hi t tp → ordered lo hi (contents t).
Proof.
  revert next lo hi t tp. induction h as [|h IH]; intros next lo hi [p kvs|p cs] tp Hlo Hhi Ht;
    destruct tp as [ip|lp]; try (by destruct Ht).
  - destruct Ht as (_ & (Hok & Ha & _) & Hb). cbn [contents]. subst kvs. split_and!; [done|apply Hok..].
  - destruct Ht as (_ & _ & Hf). cbn [contents]. eapply forest_ordered; [|done..|exact Hf].
    clear -IH. intros next lo hi t Hlo Hhi (tp & _ & _ & Ht)%tree_at_top. by eapply IH.
Qed.

Lemma tree_ordered m h next lo hi t :
  bound_ok lo → bound_ok hi → tree_at m h next lo hi t → ordered lo hi (contents t).
Proof. intros Hlo Hhi (tp & _ & _ & Ht)%tree_at_top. by eapply top_ordered. Qed.

Lemma root_in t : root t ∈ page_ids t.
Proof. destruct t; by left. Qed.

Lemma ids_elem p (cs : list (Tuple.t * tree)) c : c ∈ cs → p ∈ page_ids c.2 → p ∈ ids cs.
Proof. intros Hc Hp. unfold ids. apply list_elem_of_In, in_flat_map. exists c. by rewrite <- !list_elem_of_In. Qed.

(** A memory with the same pages holds the same tree. *)
Lemma page_shows_same m m' p tp : page_shows ks m p tp → m' !! p = m !! p → page_shows ks m' p tp.
Proof. intros (bytes & Hm & ?) E. exists bytes. by rewrite E. Qed.

Definition same_on (ps : list Z) (m m' : gmap Z (list Z)) : Prop := ∀ p, p ∈ ps → m' !! p = m !! p.

Lemma same_on_app l1 l2 m m' : same_on (l1 ++ l2) m m' ↔ same_on l1 m m' ∧ same_on l2 m m'.
Proof.
  unfold same_on. split.
  - intros Hs. split; intros p Hp; apply Hs, elem_of_app; auto.
  - intros [H1 H2] p [Hp|Hp]%elem_of_app; auto.
Qed.

Lemma same_on_cons p l m m' : same_on (p :: l) m m' ↔ m' !! p = m !! p ∧ same_on l m m'.
Proof.
  unfold same_on. split.
  - intros Hs. split; [by apply Hs; left|intros q Hq; by apply Hs; right].
  - intros [H1 H2] q [-> |Hq]%elem_of_cons; auto.
Qed.

Lemma same_on_insert ps m p bytes : p ∉ ps → same_on ps m (<[p := bytes]> m).
Proof. intros Hp q Hq. apply lookup_insert_ne. by intros ->. Qed.

Lemma forest_frame m m' h next lo hi cs :
  (∀ next lo hi t, tree_at m h next lo hi t → same_on (page_ids t) m m' → tree_at m' h next lo hi t) →
  forest_at (tree_at m h) next lo hi cs → same_on (ids cs) m m' → forest_at (tree_at m' h) next lo hi cs.
Proof.
  intros HP Hf Hs. eapply forest_impl; [|exact Hf]. intros c next' lo' hi' Hc Ht. apply HP; [done|].
  intros p Hp. apply Hs. by eapply ids_elem.
Qed.

Lemma tree_frame m m' h next lo hi t :
  tree_at m h next lo hi t → same_on (page_ids t) m m' → tree_at m' h next lo hi t.
Proof.
  revert next lo hi t. induction h as [|h IH]; intros next lo hi t Ht Hs; apply tree_at_top in Ht as (tp & Hp & Hf & Ht);
    apply tree_at_top; exists tp; (split; [eapply page_shows_same; [exact Hp|apply Hs, root_in]|]); (split; [done|]).
  - done.
  - destruct t as [p kvs|p cs], tp as [ip|lp]; try (by destruct Ht). destruct Ht as (? & Hi & Hfo).
    split_and!; [done..|]. apply (forest_frame m); [by intros; apply IH|done|].
    cbn [page_ids] in Hs. by apply same_on_cons in Hs as [_ Hs].
Qed.

Lemma children_frame m m' h next lo hi cs :
  forest_at (tree_at m h) next lo hi cs → same_on (ids cs) m m' → forest_at (tree_at m' h) next lo hi cs.
Proof. apply forest_frame. intros ? ? ? ?. apply tree_frame. Qed.

(** The same for the page that is not in the memory. *)
Lemma top_frame m m' h next lo hi t tp :
  top_is m h next lo hi t tp → same_on (tl (page_ids t)) m m' → top_is m' h next lo hi t tp.
Proof.
  destruct h as [|h]; [done|]. intros Ht Hs. destruct t as [p kvs|p cs], tp as [ip|lp]; try (by destruct Ht).
  destruct Ht as (? & Hi & Hf). split_and!; [done..|]. by apply (children_frame m).
Qed.

Lemma ids_app l1 l2 : ids (l1 ++ l2) = ids l1 ++ ids l2.
Proof. apply flat_map_app. Qed.
Lemma entries_app l1 l2 : entries (l1 ++ l2) = entries l1 ++ entries l2.
Proof. apply flat_map_app. Qed.
Lemma links_app l1 l2 : links (l1 ++ l2) = links l1 ++ links l2.
Proof. apply fmap_app. Qed.
Lemma ids_cons c l : ids (c :: l) = page_ids c.2 ++ ids l.
Proof. done. Qed.
Lemma entries_cons c l : entries (c :: l) = contents c.2 ++ entries l.
Proof. done. Qed.

(** *** Zippers *)
Lemma zipper_frame m m' h q start next lo hi z :
  zipper_at m h q start next lo hi z → same_on (zipper_ids z) m m' → zipper_at m' h q start next lo hi z.
Proof.
  revert h q start next lo hi. induction z as [|[p l k r] z IH]; intros h q start next lo hi; [done|].
  intros (ip & next' & lo' & hi' & Hp & Hf & Hi & Hl & Hr & Hz) Hs.
  change (zipper_ids (Step p l k r :: z)) with ((p :: ids l ++ ids r) ++ zipper_ids z) in Hs.
  apply same_on_app in Hs as [[Hsp [Hsl Hsr]%same_on_app]%same_on_cons Hsz].
  exists ip, next', lo', hi'. split_and!; [by eapply page_shows_same|done|done| | |by apply IH].
  - destruct l as [|c l]; [done|]. destruct Hl as (? & Hl & ?). split_and!; [done|by eapply children_frame|done].
  - destruct r as [|[k2 t2] r]; [done|]. destruct Hr as (? & Hr & ? & ?). split_and!; [done|by eapply children_frame|done..].
Qed.

Lemma plug_contents z t : contents (plug z t) ≡ₚ contents t ++ zipper_entries z.
Proof.
  revert t. induction z as [|[p l k r] z IH]; intros t; cbn [plug]; [by rewrite app_nil_r|].
  rewrite IH. change (zipper_entries (Step p l k r :: z)) with ((entries l ++ entries r) ++ zipper_entries z).
  change (contents (Node p (l ++ (k, t) :: r))) with (entries (l ++ (k, t) :: r)).
  rewrite entries_app, entries_cons. cbn [snd]. solve_Permutation.
Qed.

Lemma plug_ids z t : page_ids (plug z t) ≡ₚ page_ids t ++ zipper_ids z.
Proof.
  revert t. induction z as [|[p l k r] z IH]; intros t; cbn [plug]; [by rewrite app_nil_r|].
  rewrite IH. change (zipper_ids (Step p l k r :: z)) with ((p :: ids l ++ ids r) ++ zipper_ids z).
  change (page_ids (Node p (l ++ (k, t) :: r))) with (p :: ids (l ++ (k, t) :: r)).
  rewrite ids_app, ids_cons. cbn [snd]. solve_Permutation.
Qed.

Lemma leftmost_node p l k t r : leftmost (Node p (l ++ (k, t) :: r)) = first_of l (leftmost t).
Proof. by destruct l as [|[k1 t1] l]. Qed.

Lemma links_at l k t r : links (l ++ (k, t) :: r) = links l ++ (k, root t) :: links r.
Proof. by rewrite links_app. Qed.

(** Children put between the ones left and right of a subtree. *)
Lemma forest_between m h next' lo' hi' l k t mid r next lo hi :
  left_at ks imax lmax room m h (leftmost t) lo' l k lo →
  right_at ks imax lmax room m h next' hi' r next hi →
  forest_at (tree_at m h) next lo hi ((k, t) :: mid) →
  forest_at (tree_at m h) next' lo' hi' (l ++ (k, t) :: mid ++ r).
Proof.
  intros Hl Hr Hm.
  assert (forest_at (tree_at m h) next' lo hi' ((k, t) :: mid ++ r)) as Hmr.
  { destruct r as [|[k2 t2] r]; [rewrite app_nil_r; by destruct Hr as [-> ->]|]. destruct Hr as (Hk2 & Hr & -> & ->).
    change ((k, t) :: mid ++ (k2, t2) :: r) with (((k, t) :: mid) ++ (k2, t2) :: r). by apply forest_app. }
  destruct l as [|c l]; [by rewrite Hl in Hmr|]. destruct Hl as (Hk & Hl & ->). by apply forest_app.
Qed.

Lemma forest_one m h next lo hi k t :
  forest_at (tree_at m h) next lo hi [(k, t)] ↔ contents t ≠ [] ∧ tree_at m h next lo hi t.
Proof. done. Qed.

(** A subtree in its place is a tree. *)
Lemma plug_tree m h next lo hi t z :
  tree_at m h next lo hi t → zipper_at m h (root t) (leftmost t) next lo hi z → z = [] ∨ contents t ≠ [] →
  tree_at m (h + length z) INVALID_PAGE_ID None None (plug z t).
Proof.
  revert h next lo hi t. induction z as [|[p l k r] z IH]; intros h next lo hi t Ht Hz Hne.
  { destruct Hz as (-> & -> & ->). by rewrite Nat.add_0_r. }
  destruct Hne as [|Hne]; [done|]. destruct Hz as (ip & next' & lo' & hi' & Hp & Hf & Hi & Hl & Hr & Hz).
  assert (forest_at (tree_at m h) next' lo' hi' (l ++ (k, t) :: [] ++ r)) as Hfo
    by (by eapply forest_between; [..|apply forest_one]).
  cbn [app plug length] in *. rewrite Nat.add_succ_r. apply (IH (S h) next' lo' hi').
  - apply tree_at_top. exists (BPlusTreePage.Internal ip). split_and!; [done..|]. cbn.
    split_and!; [done| |exact Hfo]. by rewrite links_at.
  - by rewrite leftmost_node.
  - right. change (entries (l ++ (k, t) :: r) ≠ []). by eapply forest_not_nil.
Qed.

(** *** The height *)
Lemma forest_length m h next lo hi cs :
  (∀ next lo hi t, tree_at m h next lo hi t → (2 ^ h ≤ length (page_ids t))%nat) →
  forest_at (tree_at m h) next lo hi cs → (length cs * 2 ^ h ≤ length (ids cs))%nat.
Proof.
  intros HP. revert lo. induction cs as [|[k t] cs IH]; intros lo; [done|]. intros [_ Hf].
  rewrite ids_cons, length_app. cbn [snd length]. destruct cs as [|[k' t'] cs].
  - apply HP in Hf. simpl. lia.
  - destruct Hf as (_ & Ht & Hf). apply HP in Ht. apply IH in Hf. lia.
Qed.

Lemma tree_length m h next lo hi t : tree_at m h next lo hi t → (2 ^ h ≤ length (page_ids t))%nat.
Proof.
  revert next lo hi t. induction h as [|h IH]; intros next lo hi t (tp & _ & _ & Ht)%tree_at_top.
  - destruct t; simpl; lia.
  - destruct t as [p kvs|p cs], tp as [ip|lp]; try (by destruct Ht).
    destruct Ht as (_ & (_ & _ & _ & H2) & Hf). apply forest_length in Hf; [|done].
    unfold links in H2. rewrite length_fmap in H2. change (page_ids (Node p cs)) with (p :: ids cs).
    cbn [length Nat.pow]. nia.
Qed.

Lemma NoDup_length_bound (n : nat) (l : list Z) :
  NoDup l → Forall (λ z, 0 ≤ z < Z.of_nat n) l → (length l ≤ n)%nat.
Proof.
  intros Hnd Hl. assert (l ⊆+ seqZ 0 (Z.of_nat n)) as Hs.
  { apply NoDup_submseteq; [done|]. intros z Hz. rewrite Forall_forall in Hl. apply elem_of_seqZ. specialize (Hl z Hz). lia. }
  apply submseteq_length in Hs. rewrite length_seqZ in Hs. lia.
Qed.

(** Page ids have 32 bits, and every level has twice the pages of the one above. *)
Lemma tree_height m h next lo hi t :
  tree_at m h next lo hi t → NoDup (page_ids t) → Forall (unsigned_ok 32) (page_ids t) → (h ≤ 32)%nat.
Proof.
  intros Ht%tree_length Hnd Hu. assert (length (page_ids t) ≤ 2 ^ 32)%nat as Hl.
  { apply NoDup_length_bound; [done|]. eapply Forall_impl; [exact Hu|]. intros z Hz. unfold unsigned_ok in Hz.
    rewrite Nat2Z.inj_pow. exact Hz. }
  apply (Nat.pow_le_mono_r_iff 2); [lia|]. by etrans.
Qed.

(** *** Going down *)
Lemma forest_split m h next lo hi l k t r :
  forest_at (tree_at m h) next lo hi (l ++ (k, t) :: r) →
  ∃ next1 lo1 hi1, tree_at m h next1 lo1 hi1 t ∧ contents t ≠ [] ∧
    left_at ks imax lmax room m h (leftmost t) lo l k lo1 ∧
    right_at ks imax lmax room m h next hi r next1 hi1.
Proof.
  intros Hf. assert (∃ lo1, left_at ks imax lmax room m h (leftmost t) lo l k lo1 ∧
    forest_at (tree_at m h) next lo1 hi ((k, t) :: r)) as (lo1 & Hl & Hr).
  { destruct l as [|c l]; [by exists lo|]. apply forest_app in Hf as (Hk & Hl & Hr); [|done]. by exists (Some k). }
  destruct Hr as [Hne Hr]. destruct r as [|[k2 t2] r].
  - by exists next, lo1, hi.
  - destruct Hr as (Hk2 & Ht & Hr). by exists (leftmost t2), lo1, (Some k2).
Qed.

Lemma routes_split first rest k v :
  keys_ok ks rest → sorted_lt rest → Tuple.ok ks k → routes first rest k v →
  ∃ l x r, first :: rest = l ++ x :: r ∧ v = x.2 ∧ (l = [] ∨ kle x.1 k) ∧ Forall (λ y, klt k y.1) r.
Proof.
  intros Hok Hs Hk [[-> Hall]|(x & Hx & -> & Hle & Hup)].
  - exists [], first, rest. split_and!; [done..|by left|]. by apply Forall_forall.
  - apply list_elem_of_split in Hx as (l & r & ->). exists (first :: l), x, r.
    split_and!; [done..|by right|]. apply Forall_forall. intros y Hy. apply Hup.
    + apply elem_of_app. right. by right.
    + apply sorted_app in Hs as (_ & Hs & _). apply StronglySorted_inv in Hs as [_ Hs].
      rewrite Forall_forall in Hs. by apply Hs.
Qed.

Lemma descend m h next lo hi cs ip k :
  internal_is ks imax room ip (links cs) → forest_at (tree_at m h) next lo hi cs → Tuple.ok ks k →
  ∃ l k1 t r next1 lo1 hi1, BPlusTreeInternalPage.look_up ip k = Ok (root t) ∧ cs = l ++ (k1, t) :: r ∧
    tree_at m h next1 lo1 hi1 t ∧ contents t ≠ [] ∧
    left_at ks imax lmax room m h (leftmost t) lo l k1 lo1 ∧
    right_at ks imax lmax room m h next hi r next1 hi1 ∧
    (at_least lo k → at_least lo1 k) ∧ (under hi k → under hi1 k).
Proof.
  intros ((first & rest & Hlinks & Hi) & _ & _ & H2) Hf Hk.
  destruct (internal_look_up ks ip first rest k Hi) as (v & Hv & Hr); [|done|].
  { rewrite Hlinks in H2. destruct rest; [simpl in H2; lia|done]. }
  destruct (routes_split first rest k v (internal_keys _ _ _ _ Hi) (internal_sorted _ _ _ _ Hi) Hk Hr)
    as (l' & [k1 q] & r' & Hsplit & -> & Hle & Hup).
  rewrite Hsplit in Hlinks.
  apply fmap_app_inv in Hlinks as (l & cs' & -> & Hcs' & ->). symmetry in Hcs'.
  apply fmap_cons_inv in Hcs' as ([k1' t] & r & Hq & -> & ->). injection Hq as -> ->.
  destruct (forest_split m h next lo hi l k1' t r Hf) as (next1 & lo1 & hi1 & Ht & Hne & Hl & Hr1).
  exists l, k1', t, r, next1, lo1, hi1. split_and!; [done..| |].
  - destruct l as [|c l]; [by rewrite Hl|]. destruct Hl as (_ & _ & ->). by destruct Hle.
  - destruct r as [|[k2 t2] r]; [by destruct Hr1 as [-> _]|]. destruct Hr1 as (_ & _ & -> & _).
    apply Forall_cons in Hup as [Hup _]. done.
Qed.

(** *** Keys around a subtree *)
Lemma left_outside m h start lo' l k lo x :
  left_at ks imax lmax room m h start lo' l k lo → bound_ok lo' → Tuple.ok ks x → at_least lo x →
  at_least lo' x ∧ ∀ e, e ∈ entries l → klt e.1 x.
Proof.
  destruct l as [|c l].
  { intros -> _ _ Hx. split; [done|]. intros e He. by apply not_elem_of_nil in He. }
  intros (Hk & Hf & ->) Hlo' Hx Hkx. simpl in Hkx.
  pose proof (forest_not_nil _ _ _ _ _ Hf) as Hne.
  destruct (forest_ordered _ start lo' (Some k) (c :: l) (tree_ordered m h) Hlo' Hk Hf) as (Hb & Hok & _).
  unfold between, keys_ok in Hb, Hok. rewrite Forall_forall in Hb, Hok.
  assert (∀ e, e ∈ entries (c :: l) → klt e.1 x) as Hlt.
  { intros e He. destruct (Hb e He) as [_ Hu]. apply (klt_trans _ k); [by apply Hok|done..]. }
  split; [|done]. destruct (entries (c :: l)) as [|e es]; [done|].
  destruct (Hb e ltac:(by left)) as [Ha _]. apply (at_least_trans lo' e.1); [done|apply Hok; by left|done..|].
  apply klt_kle, Hlt. by left.
Qed.

Lemma right_outside m h next' hi' r next hi x :
  right_at ks imax lmax room m h next' hi' r next hi → bound_ok hi' → Tuple.ok ks x → under hi x →
  under hi' x ∧ ∀ e, e ∈ entries r → klt x e.1.
Proof.
  destruct r as [|[k t] r].
  { intros [-> _] _ _ Hx. split; [done|]. intros e He. by apply not_elem_of_nil in He. }
  intros (Hk & Hf & -> & _) Hhi' Hx Hkx. simpl in Hkx.
  pose proof (forest_not_nil _ _ _ _ _ Hf) as Hne.
  destruct (forest_ordered _ next' (Some k) hi' ((k, t) :: r) (tree_ordered m h) Hk Hhi' Hf) as (Hb & Hok & _).
  unfold between, keys_ok in Hb, Hok. rewrite Forall_forall in Hb, Hok.
  assert (∀ e, e ∈ entries ((k, t) :: r) → klt x e.1) as Hlt.
  { intros e He. destruct (Hb e He) as [Ha _]. apply (klt_trans _ k); [done|done|by apply Hok|done..]. }
  split; [|done]. destruct (entries ((k, t) :: r)) as [|e es]; [done|].
  destruct (Hb e ltac:(by left)) as [_ Hu]. apply (under_trans hi' e.1); [done|apply Hok; by left|done..|].
  apply klt_kle, Hlt. by left.
Qed.

Lemma zipper_bounds m h q start next lo hi z :
  zipper_at m h q start next lo hi z → bound_ok lo ∧ bound_ok hi.
Proof.
  revert h q start next lo hi. induction z as [|[p l k r] z IH]; intros h q start next lo hi.
  { by intros (_ & -> & ->). }
  intros (ip & next' & lo' & hi' & _ & _ & _ & Hl & Hr & Hz). apply IH in Hz as [Hlo' Hhi']. split.
  - destruct l; [by rewrite Hl|]. by destruct Hl as (? & _ & ->).
  - destruct r as [|[k2 t2] r]; [by destruct Hr as [-> _]|]. by destruct Hr as (? & _ & -> & _).
Qed.

Lemma zipper_outside m h q start next lo hi z x :
  zipper_at m h q start next lo hi z → Tuple.ok ks x → at_least lo x → under hi x →
  ∀ e, e ∈ zipper_entries z → e.1 ≠ x.
Proof.
  revert h q start next lo hi. induction z as [|[p l k r] z IH]; intros h q start next lo hi Hz Hx Hlo Hhi e He.
  { by apply not_elem_of_nil in He. }
  destruct Hz as (ip & next' & lo' & hi' & _ & _ & _ & Hl & Hr & Hz). pose proof (zipper_bounds _ _ _ _ _ _ _ _ Hz) as [Hlo' Hhi'].
  destruct (left_outside _ _ _ _ _ _ _ x Hl Hlo' Hx Hlo) as [Hlo1 Hbefore].
  destruct (right_outside _ _ _ _ _ _ _ x Hr Hhi' Hx Hhi) as [Hhi1 Hafter].
  assert (∀ y, klt x y ∨ klt y x → y ≠ x) as Hne.
  { intros y Hy ->. unfold klt in Hy. rewrite (cmp_refl _ _ (tuple_cmp_laws ks)) in Hy by done. by destruct Hy. }
  change (zipper_entries (Step p l k r :: z)) with ((entries l ++ entries r) ++ zipper_entries z) in He.
  rewrite !elem_of_app in He. destruct He as [[He|He]|He].
  - apply Hne. right. by apply Hbefore.
  - apply Hne. left. by apply Hafter.
  - by eapply IH.
Qed.

(** *** Other bounds *)
Lemma between_app lo hi l1 l2 : between lo hi (l1 ++ l2) ↔ between lo hi l1 ∧ between lo hi l2.
Proof. apply Forall_app. Qed.

Lemma between_mix lo hi lo' hi' l : between lo hi l → between lo' hi' l → between lo' hi l ∧ between lo hi' l.
Proof. unfold between. rewrite !Forall_forall. intros H1 H2. split; intros x Hx; destruct (H1 x Hx), (H2 x Hx); by split. Qed.

Lemma forest_rebound (P : Z → option Tuple.t → option Tuple.t → tree → Prop) next lo hi lo' hi' cs :
  (∀ next lo hi t, bound_ok lo → bound_ok hi → P next lo hi t → ordered lo hi (contents t)) →
  (∀ next lo hi lo' hi' t, bound_ok lo → bound_ok hi → P next lo hi t → between lo' hi' (contents t) → P next lo' hi' t) →
  bound_ok lo → bound_ok hi → forest_at P next lo hi cs → between lo' hi' (entries cs) → forest_at P next lo' hi' cs.
Proof.
  intros HO HP Hlo Hhi. revert lo lo' Hlo. induction cs as [|[k t] cs IH]; intros lo lo' Hlo; [done|]. intros [Hne Hf] Hb.
  rewrite entries_cons in Hb. apply between_app in Hb as [Hb1 Hb2]. split; [done|]. cbn [snd] in Hb1.
  destruct cs as [|[k' t'] cs]; [by apply (HP _ lo hi)|]. destruct Hf as (Hk & Ht & Hf). split_and!; [done| |].
  - apply (HP _ lo (Some k')); [done..|]. destruct (HO (leftmost t') lo (Some k') t Hlo Hk Ht) as (Hb & _). by apply (between_mix lo _ _ hi').
  - apply (IH (Some k')); [done..|]. 
    destruct (forest_ordered P _ (Some k') hi _ HO Hk Hhi Hf) as (Hb & _). by apply (between_mix _ hi lo').
Qed.

Lemma tree_rebound m h next lo hi lo' hi' t :
  bound_ok lo → bound_ok hi → tree_at m h next lo hi t → between lo' hi' (contents t) → tree_at m h next lo' hi' t.
Proof.
  revert next lo hi lo' hi' t. induction h as [|h IH]; intros next lo hi lo' hi' t Hlo Hhi Ht Hb;
    apply tree_at_top in Ht as (tp & Hp & Hfull & Ht); apply tree_at_top; exists tp; (split; [done|]); (split; [done|]);
    destruct t as [p kvs|p cs], tp as [ip|lp]; try (by destruct Ht).
  - destruct Ht as (? & ? & _). by split_and!.
  - destruct Ht as (? & ? & Hf). split_and!; [done..|].
    apply (forest_rebound (tree_at m h) next lo hi); [intros; by eapply tree_ordered| |done..].
    intros. by apply (IH _ lo0 hi0).
Qed.

Lemma children_rebound m h next lo hi lo' hi' cs :
  bound_ok lo → bound_ok hi → forest_at (tree_at m h) next lo hi cs → between lo' hi' (entries cs) →
  forest_at (tree_at m h) next lo' hi' cs.
Proof.
  intros Hlo Hhi Hf Hb. apply (forest_rebound (tree_at m h) next lo hi); [intros; by eapply tree_ordered| |done..].
  intros. by apply (tree_rebound _ _ _ lo0 hi0).
Qed.

(** Children cut in two: the separator is the least key of the second half. *)
Lemma forest_cut m h next lo hi l k t r sep v rest :
  bound_ok lo → bound_ok hi → forest_at (tree_at m h) next lo hi (l ++ (k, t) :: r) → l ≠ [] →
  entries ((k, t) :: r) = (sep, v) :: rest →
  Tuple.ok ks sep ∧ at_least lo sep ∧ under hi sep ∧ (∀ b, lo = Some b → klt b sep) ∧
  forest_at (tree_at m h) (leftmost t) lo (Some sep) l ∧
  forest_at (tree_at m h) next (Some sep) hi ((k, t) :: r).
Proof.
  intros Hlo Hhi Hf Hl He. pose proof (forest_ordered _ next lo hi _ (tree_ordered m h) Hlo Hhi Hf) as (Hball & Hokall & Hsall).
  rewrite entries_app, He in Hball, Hokall, Hsall. apply between_app in Hball as [Hb1 Hb2].
  apply Forall_app in Hokall as [Hok1 Hok2]. apply sorted_app in Hsall as (Hs1 & Hs2 & Hlt).
  apply forest_app in Hf as (Hk & Hf1 & Hf2); [|done].
  pose proof (forest_not_nil _ _ _ _ _ Hf1) as Hne. apply Forall_cons in Hb2 as [[Ha Hu] Hb2].
  apply Forall_cons in Hok2 as [Hsep Hok2]. apply StronglySorted_inv in Hs2 as [_ Hleast]. cbn [fst] in *.
  split_and!; [done..| | |].
  - intros b ->. destruct (entries l) as [|e es] eqn:Hes; [done|].
    apply (cmp_le_lt_trans _ _ (tuple_cmp_laws ks) b e.1 sep); [done|by apply Forall_cons in Hok1 as [? _]|done| |].
    + by apply Forall_cons in Hb1 as [[? _] _].
    + apply (Hlt e (sep, v)); by left.
  - apply (children_rebound _ _ _ lo (Some k)); [done..|]. apply Forall_forall. intros e Hel.
    unfold between in Hb1. rewrite Forall_forall in Hb1. split; [by apply Hb1|]. apply (Hlt e (sep, v)); [done|by left].
  - apply (children_rebound _ _ _ (Some k) hi); [done..|]. rewrite He. apply Forall_cons. split.
    + split; [|done]. unfold at_least, kle. cbn [fst]. by rewrite (cmp_refl _ _ (tuple_cmp_laws ks)).
    + unfold between in Hb2. rewrite Forall_forall in Hb2, Hleast. apply Forall_forall. intros e Hel. split; [|by apply Hb2].
      apply klt_kle, (Hleast e Hel).
Qed.

(** *** Pages that can be written *)
Lemma entries_room {V} (enc : V → list Z) n kvs :
  (∀ v, length (enc v) = n) → Forall (λ kv, key_ok ks room kv.1) kvs →
  (entries_length enc kvs ≤ length kvs * (room + n))%nat.
Proof.
  intros Henc. induction 1 as [|[k v] kvs (_ & _ & bs & Hbs & Hl) _ IH]; [done|].
  cbn [entries_length foldr fst snd length]. cbn [fst] in Hbs. rewrite Hbs, Henc. unfold entries_length in IH. simpl in Hl. lia.
Qed.

Lemma written m p bs tp :
  m !! p = Some bs → BPlusTreePageCodec.decode bs ks = Ok (tp, BUSTUBX_PAGE_SIZE) →
  match tp with
  | BPlusTreePage.Leaf lp => BPlusTreeLeafPageCodec.decode bs ks = Ok (lp, BUSTUBX_PAGE_SIZE)
  | BPlusTreePage.Internal ip => BPlusTreeInternalPageCodec.decode bs ks = Ok (ip, BUSTUBX_PAGE_SIZE)
  end → page_shows ks m p tp.
Proof. intros. by exists bs. Qed.

Lemma write_leaf lp next kvs :
  params_ok ks imax lmax room → leaf_is ks lmax room lp next kvs → BPlusTreeLeafPage.is_full lp = false →
  ∃ bs, BPlusTreeLeafPageCodec.encode lp = Ok bs ∧ length bs = BUSTUBX_PAGE_SIZE ∧
    ∀ m p, m !! p = Some bs → page_shows ks m p (BPlusTreePage.Leaf lp).
Proof.
  intros Hp (Hok & Ha & Hn & Hnu & Hm & Hk) Hf. pose proof (not_full_bound _ _ Hok Hf) as Hb.
  destruct Hp as [_ Hl _ Hroom _]. rewrite Hm in Hb.
  assert (leaf_encodable ks lp) as Henc.
  { split_and!; [apply Hok|apply Hok| |apply Hok|].
    - split_and!; [|rewrite Hm; unfold unsigned_ok; lia|by rewrite Hn].
      rewrite (leaf_size _ _ Hok). unfold unsigned_ok. lia.
    - rewrite Ha. eapply Forall_impl; [exact Hk|]. intros kv [(? & ? & _) ?]. by split_and!. }
  pose proof (leaf_round_trip ks lp Henc) as Hrt.
  assert (page_length (BPlusTreePage.Leaf lp) ≤ BUSTUBX_PAGE_SIZE)%nat as Hle.
  { cbn [page_length]. rewrite Ha in *. assert (entries_length RidCodec.encode kvs ≤ length kvs * (room + 8))%nat as Hr.
    { apply entries_room; [done|]. eapply Forall_impl; [exact Hk|]. by intros ? []. }
    apply Nat2Z.inj_le. rewrite Nat2Z.inj_add. nia. }
  rewrite (proj2 (Nat.leb_le _ _) Hle) in Hrt. destruct Hrt as (bs & He & Hlen & Hd & Hty).
  exists bs. split_and!; [done..|]. intros m p Hmp. apply (written m p bs); [done| |done].
  unfold BPlusTreePageCodec.decode. rewrite Hlen, Nat.eqb_refl. cbn [negb]. rewrite Hty. cbn [mbind result_bind]. by rewrite Hd.
Qed.

Lemma write_internal ip kvs :
  params_ok ks imax lmax room → internal_is ks imax room ip kvs → BPlusTreeInternalPage.is_full ip = false →
  ∃ bs, BPlusTreeInternalPageCodec.encode ip = Ok bs ∧ length bs = BUSTUBX_PAGE_SIZE ∧
    ∀ m p, m !! p = Some bs → page_shows ks m p (BPlusTreePage.Internal ip).
Proof.
  intros Hp ((first & rest & -> & Hi) & Hm & Hk & _) Hf. destruct Hp as [Hb _ Hroom _ _].
  apply Z.ltb_ge in Hf. rewrite Hm, (internal_size _ _ _ _ Hi) in Hf.
  assert (internal_encodable ks ip) as Henc.
  { split_and!; [apply Hi|apply Hi| | |].
    - split; [rewrite (internal_size _ _ _ _ Hi)|rewrite Hm]; unfold unsigned_ok; lia.
    - by rewrite (internal_size _ _ _ _ Hi), (internal_array _ _ _ _ Hi).
    - rewrite (internal_array _ _ _ _ Hi). eapply Forall_impl; [exact Hk|]. intros kv [(? & ? & _) ?]. by split_and!. }
  pose proof (internal_round_trip ks ip Henc) as Hrt.
  assert (page_length (BPlusTreePage.Internal ip) ≤ BUSTUBX_PAGE_SIZE)%nat as Hle.
  { cbn [page_length]. rewrite (internal_array _ _ _ _ Hi).
    assert (entries_length encode_u32 (first :: rest) ≤ length (first :: rest) * (room + 4))%nat as Hr.
    { apply entries_room; [done|]. eapply Forall_impl; [exact Hk|]. by intros ? []. }
    apply Nat2Z.inj_le. rewrite Nat2Z.inj_add. cbn [length] in Hr. nia. }
  rewrite (proj2 (Nat.leb_le _ _) Hle) in Hrt. destruct Hrt as (bs & He & Hlen & Hd & Hty).
  exists bs. split_and!; [done..|]. intros m p Hmp. apply (written m p bs); [done| |done].
  unfold BPlusTreePageCodec.decode. rewrite Hlen, Nat.eqb_refl. cbn [negb]. rewrite Hty. cbn [mbind result_bind]. by rewrite Hd.
Qed.

(** *** What holds of every page and of every entry *)
Lemma forest_elem (P : Z → option Tuple.t → option Tuple.t → tree → Prop) next lo hi cs c :
  forest_at P next lo hi cs → c ∈ cs → ∃ next' lo' hi', P next' lo' hi' c.2.
Proof.
  revert lo. induction cs as [|[k t] cs IH]; intros lo; [done|]. intros [_ Hf] [-> |Hc]%elem_of_cons.
  - destruct cs as [|[k' t'] cs]; [by eauto|]. destruct Hf as (_ & Ht & _). by eauto.
  - destruct cs as [|[k' t'] cs]; [by apply not_elem_of_nil in Hc|]. destruct Hf as (_ & _ & Hf). by eapply IH.
Qed.

Lemma forest_Forall {A} (P : Z → option Tuple.t → option Tuple.t → tree → Prop) (g : tree → list A) (R : A → Prop)
    next lo hi (cs : list (Tuple.t * tree)) :
  (∀ next lo hi t, P next lo hi t → Forall R (g t)) →
  forest_at P next lo hi cs → Forall R (flat_map (λ c, g c.2) cs).
Proof.
  intros HP Hf. apply Forall_flat_map, Forall_forall. intros c Hc.
  destruct (forest_elem P next lo hi cs c Hf Hc) as (? & ? & ? & Hc'). by eapply HP.
Qed.

Definition in_memory (m : gmap Z (list Z)) (ps : list Z) : Prop := Forall (λ p, is_Some (m !! p)) ps.

Lemma tree_pages m h next lo hi t : tree_at m h next lo hi t → in_memory m (page_ids t).
Proof.
  revert next lo hi t. induction h as [|h IH]; intros next lo hi t (tp & (bytes & Hm & _) & _ & Ht)%tree_at_top;
    destruct t as [p kvs|p cs], tp as [ip|lp]; try (by destruct Ht); apply Forall_cons; (split; [by eexists|]); [done|].
  destruct Ht as (_ & _ & Hf). eapply forest_Forall; [|exact Hf]. intros. by eapply IH.
Qed.

Lemma top_keys m h next lo hi t tp :
  top_is m h next lo hi t tp → Forall (λ kv, key_ok ks room kv.1) (contents t).
Proof.
  revert next lo hi t tp. induction h as [|h IH]; intros next lo hi [p kvs|p cs] [ip|lp] Ht; try (by destruct Ht).
  - destruct Ht as (_ & (_ & _ & _ & _ & _ & Hk) & _). eapply Forall_impl; [exact Hk|]. by intros ? [].
  - destruct Ht as (_ & _ & Hf). cbn [contents]. eapply forest_Forall; [|exact Hf].
    intros next' lo' hi' t (tp & _ & _ & Ht)%tree_at_top. by eapply IH.
Qed.

Lemma zipper_pages m h q start next lo hi z :
  zipper_at m h q start next lo hi z → in_memory m (zipper_ids z).
Proof.
  revert h q start next lo hi. induction z as [|[p l k r] z IH]; intros h q start next lo hi; [by constructor|].
  intros (ip & next' & lo' & hi' & (bytes & Hm & _) & _ & _ & Hl & Hr & Hz).
  change (zipper_ids (Step p l k r :: z)) with ((p :: ids l ++ ids r) ++ zipper_ids z).
  apply Forall_app. split; [|by eapply IH]. apply Forall_cons. split; [by eexists|].
  apply Forall_app. split.
  - destruct l as [|c l]; [by constructor|]. destruct Hl as (_ & Hf & _).
    eapply forest_Forall; [|exact Hf]. intros. by eapply tree_pages.
  - destruct r as [|[k2 t2] r]; [by constructor|]. destruct Hr as (_ & Hf & _).
    eapply forest_Forall; [|exact Hf]. intros. by eapply tree_pages.
Qed.

(** A page that can be written holds what was written. *)
Lemma write_page m h next lo hi t tp :
  params_ok ks imax lmax room → top_is m h next lo hi t tp → BPlusTreePage.is_full tp = false →
  ∃ bs, BPlusTreePageCodec.encode tp = Ok bs ∧ length bs = BUSTUBX_PAGE_SIZE ∧
    ∀ m p, m !! p = Some bs → page_shows ks m p tp.
Proof.
  intros Hp Ht Hf. destruct h, t as [p kvs|p cs], tp as [ip|lp]; try (by destruct Ht).
  - destruct Ht as (_ & Hl & _). by eapply write_leaf.
  - destruct Ht as (_ & Hi & _). by eapply write_internal.
Qed.

End params.
End TreeFacts.
