(* ===== verification/TreePages.v ===== *)
(** * TreePages: the pages of a tree under insertion

    What the operations of [IndexPage] do to the pages of [Tree]: a new entry in a leaf,
    a page over its maximal size in two halves, the entry of the new page in the parent,
    a first root. No pool is involved: [IndexInsert] runs the code on these facts. *)
From S2P Require Import Prelude CommonCodec Schema TupleCodec TablePage IndexPage IndexPageCodec.
From S2P Require Import DiskPages DiskManager Replacer BufferPool PageStore TableHeap Index Tree.
Local Open Scope Z_scope.

Module SplitFacts.
Import BPlusTreeIndex BTree TreeFacts KeyArray KeyArrayFacts SchemaFacts LeafFacts InternalFacts IndexPageCodecFacts.

Section params.
Context (ks : Schema.t) (imax lmax : Z) (room : nat) (params : params_ok ks imax lmax room).
Notation leaf_is := (leaf_is ks lmax room).
Notation internal_is := (internal_is ks imax room).

Lemma sorted_perm_eq {V} (l1 l2 : list (Tuple.t * V)) :
  keys_ok ks l1 → sorted_lt l1 → sorted_lt l2 → l1 ≡ₚ l2 → l1 = l2.
Proof.
  intros Hk H1 H2 Hp. unfold keys_ok in Hk. rewrite Forall_forall in Hk.
  apply (StronglySorted_unique_strong (λ x y, klt x.1 y.1)); [|done..].
  intros x y Hx Hy Hxy Hyx. rewrite <- Hp in Hy.
  exfalso. pose proof (klt_trans ks x.1 y.1 x.1 (Hk x Hx) (Hk y Hy) (Hk x Hx) Hxy (klt_kle _ _ Hyx)) as Hlt.
  unfold klt in Hlt. by rewrite (cmp_refl _ _ (tuple_cmp_laws ks)) in Hlt by auto.
Qed.

(** *** Leaves *)
Lemma leaf_is_next q lp next kvs : leaf_is lp next kvs → unsigned_ok 32 q → leaf_is (with_next_page_id q lp) q kvs.
Proof. intros ([] & ? & ? & ? & ? & ?) Hq. split_and!; [by split|done..]. Qed.

Lemma leaf_is_new : leaf_is (BPlusTreeLeafPage.new ks lmax) INVALID_PAGE_ID [].
Proof. destruct params. split_and!; [|done|done|done|done|by constructor]. split; try done; simpl; [by constructor|constructor|lia|lia]. Qed.

Lemma leaf_is_full lp next kvs :
  leaf_is lp next kvs → BPlusTreeLeafPage.is_full lp = bool_decide (lmax < Z.of_nat (length kvs)).
Proof.
  intros (Hok & Ha & _ & _ & Hm & _). unfold BPlusTreeLeafPage.is_full.
  rewrite Hm, (leaf_size _ _ Hok), Ha. symmetry. by case_bool_decide as E; [apply Z.ltb_lt in E|apply Z.nlt_ge, Z.ltb_ge in E].
Qed.

Lemma leaf_is_insert lp next kvs key rid :
  leaf_is lp next kvs → Z.of_nat (length kvs) ≤ lmax → key_ok ks room key → rid_ok rid → key ∉ kvs.*1 →
  ∃ lp' kvs', BPlusTreeLeafPage.insert lp key rid = Ok lp' ∧ leaf_is lp' next kvs' ∧ kvs' ≡ₚ (key, rid) :: kvs.
Proof.
  intros Hl Hlen Hk Hr Hn. pose proof (leaf_is_full _ _ _ Hl) as Hf. rewrite bool_decide_eq_false_2 in Hf by lia.
  destruct Hl as (Hok & <- & Hnext & Hu & Hm & Hall).
  destruct (leaf_insert ks lp key rid) as (lp' & Hi & Hok' & Hp & Hn' & Hm'); [done|apply Hk|done| |].
  { intros v Hv. apply Hn. apply list_elem_of_fmap. by exists (key, v). }
  exists lp', (BPlusTreeLeafPage.array lp'). split_and!; [done| |done].
  split_and!; [done|done|congruence|done|congruence|]. rewrite Hp. by constructor.
Qed.

(** A full leaf in two halves. *)
Lemma leaf_halves lp next kvs q :
  leaf_is lp next kvs → BPlusTreeLeafPage.is_full lp = true → unsigned_ok 32 q →
  ∃ k1 k2 lp1 lp2, kvs = k1 ++ k2 ∧ k1 ≠ [] ∧ k2 ≠ [] ∧
    BPlusTreeLeafPage.split_off lp
      (Z.to_nat (BPlusTreeLeafPage.current_size (BPlusTreeLeafPage.header lp)) / 2) = Ok (lp1, k2) ∧
    BPlusTreeLeafPage.next_page_id (BPlusTreeLeafPage.header lp1) = next ∧
    BPlusTreeLeafPage.batch_insert (BPlusTreeLeafPage.new ks lmax) k2 = Ok lp2 ∧
    leaf_is (with_next_page_id q lp1) q k1 ∧ leaf_is (with_next_page_id next lp2) next k2 ∧
    Z.of_nat (length k1) ≤ lmax ∧ Z.of_nat (length k2) ≤ lmax.
Proof.
  intros Hl Hf Hq. rewrite (leaf_is_full _ _ _ Hl) in Hf. apply bool_decide_eq_true_1 in Hf.
  destruct Hl as (Hok & <- & Hnext & Hu & Hm & Hall). pose proof (params_leaf _ _ _ _ params) as Hlmax.
  pose proof (leaf_bound _ _ Hok) as Hb. rewrite Hm in Hb. rewrite (leaf_size _ _ Hok), Nat2Z.id.
  set (kvs := BPlusTreeLeafPage.array lp) in *. set (i := (length kvs / 2)%nat).
  assert (0 < i ∧ i < length kvs)%nat as Hi.
  { pose proof (Nat.div_str_pos (length kvs) 2). pose proof (Nat.div_lt (length kvs) 2). lia. }
  destruct (leaf_split_off ks lp i Hok) as (lp1 & Hs & Hok1 & Ha1 & Hn1 & Hm1 & Hk2 & Hs2 & _); [fold kvs; lia|]. fold kvs in Ha1, Hk2, Hs2.
  destruct leaf_is_new as (Hnew & _). 
  destruct (leaf_batch_insert ks _ (drop i kvs) Hnew Hk2) as (lp2 & Hbi & Hok2 & Hp2 & Hn2 & Hm2);
    [by apply (sorted_lt_NoDup ks)|intros k _ Hin; by apply not_elem_of_nil in Hin|simpl; rewrite length_drop; lia|].
  assert (BPlusTreeLeafPage.array lp2 = drop i kvs) as Ha2.
  { symmetry. apply sorted_perm_eq; [done|done|apply Hok2|by rewrite Hp2]. }
  rewrite <- (take_drop i kvs), Forall_app in Hall. destruct Hall as [Hall1 Hall2].
  exists (take i kvs), (drop i kvs), lp1, lp2.
  split_and!; [by rewrite take_drop| | |done|by rewrite Hn1|done| | |rewrite length_take; lia|rewrite length_drop; lia].
  - intros E. apply (f_equal length) in E. rewrite length_take in E. simpl in E. lia.
  - intros E. apply (f_equal length) in E. rewrite length_drop in E. simpl in E. lia.
  - apply (leaf_is_next q lp1 next); [|done]. split_and!; [done|done|by rewrite Hn1|done|by rewrite Hm1|done].
  - apply (leaf_is_next next lp2 INVALID_PAGE_ID); [|done].
    split_and!; [done|done|by rewrite Hn2|done|by rewrite Hm2|done].
Qed.

(** *** Internal pages *)
Lemma internal_is_full ip kvs :
  internal_is ip kvs → BPlusTreeInternalPage.is_full ip = bool_decide (imax < Z.of_nat (length kvs)).
Proof.
  intros ((first & rest & -> & Hok) & Hm & _). unfold BPlusTreeInternalPage.is_full.
  rewrite Hm, (internal_size _ _ _ _ Hok). symmetry. by case_bool_decide as E; [apply Z.ltb_lt in E|apply Z.nlt_ge, Z.ltb_ge in E].
Qed.

Lemma internal_not_full ip kvs :
  internal_is ip kvs → Z.of_nat (length kvs) ≤ imax → BPlusTreeInternalPage.is_full ip = false.
Proof. intros Hi Hn. rewrite (internal_is_full _ _ Hi). apply bool_decide_eq_false_2. lia. Qed.

(** An entry put where its key belongs. *)
Lemma internal_is_insert ip first rest key q rest' :
  internal_is ip (first :: rest) → Z.of_nat (length (first :: rest)) ≤ imax → key_ok ks room key → unsigned_ok 32 q →
  rest' ≡ₚ (key, q) :: rest → sorted_lt rest' →
  ∃ ip', BPlusTreeInternalPage.insert ip key q = Ok ip' ∧ internal_is ip' (first :: rest').
Proof.
  intros Hi Hlen Hk Hq Hp Hs. pose proof (internal_is_full _ _ Hi) as Hf. rewrite bool_decide_eq_false_2 in Hf by lia.
  destruct Hi as ((first' & r & [= <- <-] & Hok) & Hm & Hall & H2).
  assert (keys_ok ks rest') as Hk'.
  { unfold keys_ok. rewrite Hp. constructor; [apply Hk|apply Hok]. }
  destruct (internal_insert ks ip first rest key q Hok) as (ip' & r' & Hins & Hok' & Hp' & Hm'); [apply Hk|done| |].
  { pose proof (sorted_lt_NoDup ks _ Hk' Hs) as Hnd. rewrite Hp in Hnd. by apply NoDup_cons in Hnd as [? _]. }
  assert (rest' = r') as <- by (apply sorted_perm_eq; [done|done|apply Hok'|by rewrite Hp, Hp']).
  exists ip'. split; [done|]. split_and!; [by exists first, rest'|congruence| |].
  - apply Forall_cons in Hall as [Hfirst Hall]. constructor; [done|]. rewrite Hp. by constructor.
  - simpl. rewrite Hp. simpl in *. lia.
Qed.

(** A full internal page in two halves: the key of the first entry of the second half
    stays there. *)
Lemma internal_halves ip kvs :
  internal_is ip kvs → BPlusTreeInternalPage.is_full ip = true →
  ∃ k1 k2 ip1 ip2, kvs = k1 ++ k2 ∧
    BPlusTreeInternalPage.split_off ip
      (Z.to_nat (BPlusTreeInternalPage.current_size (BPlusTreeInternalPage.header ip)) / 2) = Ok (ip1, k2) ∧
    BPlusTreeInternalPage.batch_insert (BPlusTreeInternalPage.new ks imax) k2 = Ok ip2 ∧
    internal_is ip1 k1 ∧ internal_is ip2 k2 ∧
    Z.of_nat (length k1) ≤ imax ∧ Z.of_nat (length k2) ≤ imax.
Proof.
  intros Hl Hf. rewrite (internal_is_full _ _ Hl) in Hf. apply bool_decide_eq_true_1 in Hf.
  destruct Hl as ((first & rest & -> & Hok) & Hm & Hall & _). pose proof (params_internal _ _ _ _ params) as Himax.
  pose proof (internal_bound _ _ _ _ Hok) as Hb. rewrite Hm in Hb. rewrite (internal_size _ _ _ _ Hok), Nat2Z.id.
  cbn [length] in Hf. set (i := (S (length rest) / 2)%nat).
  assert (2 ≤ i ∧ i + 2 ≤ S (length rest))%nat as [Hi2 Hi].
  { assert (4 ≤ S (length rest))%nat by lia. pose proof (Nat.div_mod (S (length rest)) 2 ltac:(lia)).
    pose proof (Nat.mod_upper_bound (S (length rest)) 2 ltac:(lia)). lia. }
  destruct i as [|j] eqn:Hij; [lia|]. 
  pose proof (internal_keys _ _ _ _ Hok) as Hk. pose proof (internal_sorted _ _ _ _ Hok) as Hs.
  rewrite <- (take_drop j rest) in Hk, Hs. apply Forall_app in Hk as [Hk1 Hk2]. apply sorted_app in Hs as (Hs1 & Hs2 & _).
  pose proof Hall as Hall'. apply Forall_cons in Hall' as [Hfirst Hrest].
  rewrite <- (take_drop j rest), Forall_app in Hrest. destruct Hrest as [Hr1 Hr2].
  assert (length (take j rest) = j ∧ length (drop j rest) = S (length rest) - S j)%nat as [Hlt Hld]
    by (rewrite length_take, length_drop; lia).
  destruct (drop j rest) as [|x rest2] eqn:Hdrop; [simpl in Hld; lia|]. cbn [length] in Hld.
  exists (first :: take j rest), (x :: rest2),
    (BPlusTreeInternalPage.with_array ip (first :: take j rest) (Z.of_nat (S (length (take j rest))))),
    (BPlusTreeInternalPage.with_array (BPlusTreeInternalPage.new ks imax) (x :: rest2) (Z.of_nat (S (length rest2)))).
  split_and!; [by rewrite <- Hdrop; cbn [app]; rewrite take_drop| | | | |cbn [length]; lia..].
  - unfold BPlusTreeInternalPage.split_off. rewrite (internal_array _ _ _ _ Hok), vec_split_off_Ok by (cbn [length]; lia).
    cbn [mbind result_bind take drop]. rewrite Hdrop, (internal_size _ _ _ _ Hok). cbn [length].
    rewrite wrap_small by (unfold unsigned_ok; lia). rewrite checked_Ok by (unfold unsigned_ok; lia).
    cbn [mbind result_bind]. do 3 f_equal. lia.
  - unfold BPlusTreeInternalPage.batch_insert. cbn [BPlusTreeInternalPage.header BPlusTreeInternalPage.new BPlusTreeInternalPage.current_size BPlusTreeInternalPage.array app].
    rewrite wrap_small by (unfold unsigned_ok; cbn [length]; lia). rewrite checked_Ok by (unfold unsigned_ok; cbn [length]; lia).
    cbn [mbind result_bind]. rewrite (sort_by_sorted ks) by (done || by apply sorted_lt_le). cbn [mbind result_bind]. done.
  - split_and!; [|done|by constructor|cbn [length]; lia]. exists first, (take j rest). split; [done|].
    apply (internal_with_array ks ip first rest); [done..|]. rewrite Hm. lia.
  - apply Forall_cons in Hk2 as [Hx Hk2]. apply StronglySorted_inv in Hs2 as [Hs2 _].
    split_and!; [|done|done|cbn [length]; lia]. exists x, rest2. split; [done|].
    split; try done; cbn; lia.
Qed.

(** The first root over two pages. *)
Lemma root_page e root key q :
  Tuple.empty ks = Ok e → key_ok ks room e → key_ok ks room key → unsigned_ok 32 root → unsigned_ok 32 q →
  ∃ p1 p2, BPlusTreeInternalPage.insert (BPlusTreeInternalPage.new ks imax) e root = Ok p1 ∧
    BPlusTreeInternalPage.insert p1 key q = Ok p2 ∧ internal_is p2 [(e, root); (key, q)].
Proof.
  intros He Hek Hk Hr Hq. pose proof (params_internal _ _ _ _ params) as Himax.
  do 2 eexists. split; [reflexivity|]. split; [reflexivity|].
  split_and!; [|done|apply Forall_cons; split; [done|]; by apply Forall_cons|simpl; lia]. exists (e, root), [(key, q)]. split; [done|].
  split; try done; cbn; try lia.
  - apply Hek.
  - constructor; [apply Hk|by constructor].
  - by repeat constructor.
Qed.

(** *** A page over its maximal size in two halves *)
Notation tree_at := (tree_at ks imax lmax room).
Notation top_is := (top_is ks imax lmax room).

(** The subtree [t] keeps its page with the lower half [t1]; the new page [q] has the
    upper half [t2], whose least key is [sep]. *)
Record halves (m : gmap Z (list Z)) (h : nat) (next : Z) (lo hi : option Tuple.t) (t : BTree.tree) (q : Z)
    (tp1 : BPlusTreePage.t) (t1 t2 : BTree.tree) (sep : Tuple.t) : Prop := Halves {
  halves_roots : BTree.root t1 = BTree.root t ∧ BTree.root t2 = q ∧ leftmost t1 = leftmost t;
  halves_left : top_is m h (leftmost t2) lo (Some sep) t1 tp1 ∧ BPlusTreePage.is_full tp1 = false;
  halves_right : tree_at m h next (Some sep) hi t2;
  halves_sep : key_ok ks room sep ∧ (∀ b, lo = Some b → klt b sep) ∧ under hi sep;
  halves_contents : contents t = contents t1 ++ contents t2 ∧ contents t1 ≠ [] ∧ contents t2 ≠ [];
  halves_ids : page_ids t2 ++ tl (page_ids t1) ≡ₚ q :: tl (page_ids t);
}.

Lemma halves_leaf m next lo hi p q k1 sep v rest lp1 lp2 :
  bound_ok ks lo → bound_ok ks hi → ordered ks lo hi (k1 ++ (sep, v) :: rest) → k1 ≠ [] →
  leaf_is lp1 q k1 → leaf_is lp2 next ((sep, v) :: rest) → Z.of_nat (length k1) ≤ lmax →
  Z.of_nat (length ((sep, v) :: rest)) ≤ lmax → page_shows ks m q (BPlusTreePage.Leaf lp2) →
  halves m 0 next lo hi (BTree.Leaf p (k1 ++ (sep, v) :: rest)) q (BPlusTreePage.Leaf lp1)
    (BTree.Leaf p k1) (BTree.Leaf q ((sep, v) :: rest)) sep.
Proof.
  intros Hlo Hhi (Hb & Hk & Hs) Hne Hl1 Hl2 Hn1 Hn2 Hp. apply between_app in Hb as [Hb1 Hb2].
  apply Forall_app in Hk as [Hk1 Hk2]. apply sorted_app in Hs as (Hs1 & Hs2 & Hlt).
  apply Forall_cons in Hb2 as [[Ha Hu] Hb2]. apply Forall_cons in Hk2 as [Hsep Hk2].
  apply StronglySorted_inv in Hs2 as [_ Hleast]. cbn [fst] in *.
  assert (∀ x, x ∈ k1 → klt x.1 sep) as Hbelow by (intros x Hx; apply (Hlt x (sep, v)); [done|by left]).
  unfold between, keys_ok in *. rewrite Forall_forall in Hb1, Hb2, Hk1, Hleast.
  assert (BPlusTreeLeafPage.is_full lp1 = false ∧ BPlusTreeLeafPage.is_full lp2 = false) as [Hf1 Hf2].
  { rewrite (leaf_is_full _ _ _ Hl1), (leaf_is_full _ _ _ Hl2). split; apply bool_decide_eq_false_2; lia. }
  split; try done.
  - split; [|done]. split_and!; [done..|]. apply Forall_forall. intros x Hx. split; [by apply Hb1|by apply Hbelow].
  - apply tree_at_top. exists (BPlusTreePage.Leaf lp2).
    split; [done|]. split; [done|]. split_and!; [done..|]. apply Forall_cons. split.
    + split; [|done]. unfold at_least, kle. cbn [fst]. by rewrite (cmp_refl _ _ (tuple_cmp_laws ks)).
    + apply Forall_forall. intros x Hx. split; [|by apply Hb2]. apply klt_kle, (Hleast x Hx).
  - split_and!; [|intros b ->|done].
    + destruct Hl2 as (_ & _ & _ & _ & _ & Hall). apply Forall_cons in Hall as [[? _] _]. done.
    + destruct k1 as [|x k1]; [done|].
      apply (cmp_le_lt_trans _ _ (tuple_cmp_laws ks) b x.1 sep); [done|apply Hk1; by left|done| |apply Hbelow; by left].
      apply Hb1. by left.
Qed.

Lemma halves_node m h next lo hi p q l k t r sep v rest ip1 ip2 :
  bound_ok ks lo → bound_ok ks hi → forest_at ks (tree_at m h) next lo hi (l ++ (k, t) :: r) → l ≠ [] →
  entries ((k, t) :: r) = (sep, v) :: rest → key_ok ks room sep →
  internal_is ip1 (links l) → internal_is ip2 (links ((k, t) :: r)) → Z.of_nat (length (links l)) ≤ imax →
  Z.of_nat (length (links ((k, t) :: r))) ≤ imax → page_shows ks m q (BPlusTreePage.Internal ip2) →
  halves m (S h) next lo hi (Node p (l ++ (k, t) :: r)) q (BPlusTreePage.Internal ip1)
    (Node p l) (Node q ((k, t) :: r)) sep.
Proof.
  intros Hlo Hhi Hf Hne He Hk Hi1 Hi2 Hn1 Hn2 Hp.
  destruct (forest_cut ks imax lmax room m h next lo hi l k t r sep v rest Hlo Hhi Hf Hne He)
    as (_ & Ha & Hu & Hlt & Hf1 & Hf2).
  assert (BPlusTreeInternalPage.is_full ip1 = false ∧ BPlusTreeInternalPage.is_full ip2 = false) as [Hfull1 Hfull2].
  { rewrite (internal_is_full _ _ Hi1), (internal_is_full _ _ Hi2). split; apply bool_decide_eq_false_2; lia. }
  split; try done.
  - split_and!; [done..|]. by destruct l as [|[k1 t1] l].
  - apply tree_at_top. exists (BPlusTreePage.Internal ip2). by split_and!.
  - split_and!; [apply entries_app|by eapply forest_not_nil|].
    change (entries ((k, t) :: r) ≠ []). by rewrite He.
  - change (q :: ids ((k, t) :: r) ++ ids l ≡ₚ q :: ids (l ++ (k, t) :: r)). constructor.
    by rewrite ids_app, Permutation_app_comm.
Qed.

(** *** The entry of the new page in the parent *)
Lemma sorted_put {V} (l r : list (Tuple.t * V)) key v :
  sorted_lt (l ++ r) → (∀ x, x ∈ l → klt x.1 key) → (∀ y, y ∈ r → klt key y.1) → sorted_lt (l ++ (key, v) :: r).
Proof.
  intros (Hl & Hr & Hlt)%sorted_app Hk1 Hk2. apply sorted_app_intro; [done| |].
  - constructor; [done|]. by apply Forall_forall.
  - intros x y Hx [-> |Hy]%elem_of_cons; [by apply Hk1|by apply Hlt].
Qed.

Lemma parent_insert ip m h start next' lo' hi' l k q1 r next lo hi sep q :
  internal_is ip (links l ++ (k, q1) :: links r) → BPlusTreeInternalPage.is_full ip = false →
  left_at ks imax lmax room m h start lo' l k lo → right_at ks imax lmax room m h next' hi' r next hi →
  key_ok ks room sep → (∀ b, lo = Some b → klt b sep) → under hi sep → unsigned_ok 32 q →
  ∃ ip', BPlusTreeInternalPage.insert ip sep q = Ok ip' ∧ internal_is ip' (links l ++ (k, q1) :: (sep, q) :: links r).
Proof.
  intros Hi Hf Hl Hr Hk Hlo Hhi Hq. rewrite (internal_is_full _ _ Hi) in Hf. apply bool_decide_eq_false_1 in Hf.
  pose proof Hi as ((first & rest & Hkvs & Hok) & _). rewrite Hkvs in Hi, Hf.
  pose proof (internal_keys _ _ _ _ Hok) as Hkeys. pose proof (internal_sorted _ _ _ _ Hok) as Hs.
  assert (∀ A, rest = A ++ links r → ∀ y, y ∈ links r → klt sep y.1) as Habove.
  { intros A -> y Hy. destruct r as [|[k2 t2] r]; [by apply not_elem_of_nil in Hy|]. destruct Hr as (_ & _ & -> & _).
    apply sorted_app in Hs as (_ & Hs & _). apply StronglySorted_inv in Hs as [_ Hs]. rewrite Forall_forall in Hs.
    apply Forall_app in Hkeys as [_ Hkeys]. unfold keys_ok in Hkeys. rewrite Forall_forall in Hkeys.
    apply elem_of_cons in Hy as [-> |Hy]; [done|].
    apply (klt_trans ks _ k2); [apply Hk|apply (Hkeys (k2, BTree.root t2)); by left|apply Hkeys; by right|done|apply klt_kle; by apply Hs]. }
  destruct l as [|c l].
  - injection Hkvs as <- <-. apply (internal_is_insert ip (k, q1) (links r)); [done|lia|done..|].
    apply (sorted_put []); [done| |by apply (Habove [])]. intros x Hx. by apply not_elem_of_nil in Hx.
  - destruct Hl as (Hkok & _ & ->). injection Hkvs as <- <-. specialize (Hlo k eq_refl).
    apply (internal_is_insert ip (c.1, BTree.root c.2) (links l ++ (k, q1) :: links r)); [done|lia|done..|solve_Permutation|].
    change (sorted_lt ((links l ++ (k, q1) :: (sep, q) :: links r))). rewrite cons_middle, app_assoc.
    apply sorted_put; [by rewrite <- app_assoc| |].
    + intros x [Hx|Hx]%elem_of_app; [|by apply list_elem_of_singleton in Hx as ->].
      apply (klt_trans ks _ k); [|done|apply Hk| |by apply klt_kle].
      * unfold keys_ok in Hkeys. rewrite Forall_forall in Hkeys. apply Hkeys, elem_of_app. by left.
      * apply sorted_app in Hs as (_ & _ & Hlt). apply (Hlt x (k, q1)); [done|by left].
    + apply (Habove (links l ++ [(k, q1)])). by rewrite <- app_assoc.
Qed.
End params.
End SplitFacts.
