(* ===== verification/IndexSteps.v ===== *)
(** * IndexSteps: the calls of the index, and search

    The methods of [Index] over the contract of the buffer pool ([PageStore]). Each is
    run step by step: [runs m self Q] says that [m] succeeds in [self] with an answer
    and a state that satisfy [Q]. Then [find_leaf_page] and [get] on an index whose
    pages hold a tree. *)
From S2P Require Import Prelude CommonCodec Schema TupleCodec TablePage IndexPage IndexPageCodec.
From S2P Require Import DiskPages DiskManager Replacer BufferPool PageStore TableHeap Index Tree.
Local Open Scope Z_scope.

Module IndexFacts.
Import BPlusTreeIndex BTree TreeFacts KeyArray KeyArrayFacts SchemaFacts LeafFacts InternalFacts IndexPageCodecFacts TableHeapFacts.

(** ** Successful runs *)
Section runs.
Context {S : Type}.

Definition runs {A} (m : SR S A) (s : S) (Q : A → S → Prop) : Prop := ∃ s' a, m s = (s', Ok a) ∧ Q a s'.

Lemma runs_bind {A B} (m : SR S A) (f : A → SR S B) s Q :
  runs m s (λ a s', runs (f a) s' Q) → runs (a ← m; f a) s Q.
Proof.
  intros (s1 & a & Hm & s2 & b & Hf & HQ). exists s2, b. split; [|done]. by rewrite (SR_bind_Ok _ _ _ _ _ Hm).
Qed.

Lemma runs_weaken {A} (m : SR S A) s (Q Q' : A → S → Prop) :
  runs m s Q → (∀ a s', Q a s' → Q' a s') → runs m s Q'.
Proof. intros (s' & a & Hm & HQ) H. exists s', a. split; [done|by apply H]. Qed.

Lemma runs_ret {A} (a : A) s (Q : A → S → Prop) : Q a s → runs (ret a) s Q.
Proof. by exists s, a. Qed.

Lemma runs_lift {A} (r : result A) a s (Q : A → S → Prop) : r = Ok a → Q a s → runs (lift r) s Q.
Proof. intros ->. by exists s, a. Qed.

Lemma runs_gets {A} (f : S → A) s (Q : A → S → Prop) : Q (f s) s → runs (gets f) s Q.
Proof. by exists s, (f s). Qed.

Lemma runs_modify (f : S → S) s (Q : unit → S → Prop) : Q tt (f s) → runs (modify f) s Q.
Proof. by exists (f s), tt. Qed.
End runs.

Section index.
Context {D : Type} `{DiskLaws D}.
Context (ks : Schema.t) (imax lmax : Z) (room : nat) (params : params_ok ks imax lmax room).
Implicit Types (self : BPlusTreeIndex.t D) (st : PageStore.t).
Notation tree_at := (tree_at ks imax lmax room).
Notation page_shows := (page_shows ks).

(** The index over a pool that shows the store [st], with room for [n] more pages and
    [b] ticks of the clock. *)
Record idx self (root : Z) st (n b : nat) : Prop := Idx {
  idx_schema : key_schema self = ks;
  idx_internal : internal_max_size self = imax;
  idx_leaf : leaf_max_size self = lmax;
  idx_root : root_page_id self = root;
  idx_shows : PageStore.shows (buffer_pool self) st n;
  idx_clock : BufferPoolFacts.timestamp (buffer_pool self) + Z.of_nat b < 2 ^ 63;
}.

Lemma idx_pool self root st n b s st' n' b' :
  idx self root st n b → PageStore.shows s st' n' → BufferPoolFacts.timestamp s + Z.of_nat b' < 2 ^ 63 →
  idx (set_pool s self) root st' n' b'.
Proof. intros [] ? ?. by split. Qed.

Lemma idx_fewer self root st n b b' : (b' ≤ b)%nat → idx self root st n b → idx self root st n b'.
Proof. intros Hb [? ? ? ? ? Hc]. split; [done..|lia]. Qed.

Lemma idx_quiet self root st n b : idx self root st n (S b) → BufferPoolFacts.quiet (buffer_pool self).
Proof. intros Hi. pose proof (idx_clock _ _ _ _ _ Hi). change (BufferPoolFacts.timestamp (buffer_pool self) < 2 ^ 63). lia. Qed.

(** A page with a reference of the method. *)
Definition pin (f : FrameId) (p : Z) st : PageStore.t := PageStore.set_refs (<[f := (p, 1)]> (PageStore.refs st)) st.
Definition unpin (f : FrameId) st : PageStore.t := PageStore.set_refs (base.delete f (PageStore.refs st)) st.

Lemma unpin_pin f p st : PageStore.refs st !! f = None → unpin f (pin f p st) = st.
Proof.
  intros Hf. unfold unpin, pin, PageStore.set_refs. simpl. rewrite delete_insert_id by done. by destruct st.
Qed.

Lemma unpin_other f f' p st :
  f ≠ f' → unpin f (pin f' p st) = pin f' p (unpin f st).
Proof. intros Hf. unfold unpin, pin, PageStore.set_refs. simpl. by rewrite delete_insert_ne by done. Qed.

Lemma on_pool_ok {A} (m : SR (BufferPoolManager.t D) A) self s a (Q : A → BPlusTreeIndex.t D → Prop) :
  m (buffer_pool self) = (s, Ok a) → Q a (set_pool s self) → runs (on_pool m) self Q.
Proof. intros Hm HQ. exists (set_pool s self), a. split; [|done]. unfold on_pool. by rewrite Hm. Qed.

(** A page is fetched and decoded. *)
Lemma runs_decoded {A} (decode : Schema.t → list Z → result (DecodedData A)) self root st n b p bytes a l
    (Q : FrameId * A → BPlusTreeIndex.t D → Prop) :
  idx self root st n (S b) → PageStore.pages st !! p = Some bytes → decode ks bytes = Ok (a, l) →
  PageStore.free_page st p → spare_frames 1 st →
  (∀ self' f, PageStore.refs st !! f = None → idx self' root (pin f p st) n b → Q (f, a) self') →
  runs (key_schema ← gets key_schema; on_pool (BufferPoolManager.fetch_decoded (decode key_schema) p)) self Q.
Proof.
  intros Hi Hm Hd Hfree Hsp HQ. pose proof (idx_clock _ _ _ _ _ Hi) as Hc.
  destruct (PageStoreFacts.store_fetch (buffer_pool self) st n p (idx_shows _ _ _ _ _ Hi)) as (s & f & Hrun & Hf & Hs & Hts);
    [by eexists|done|by eapply idx_quiet|by eapply spare_available; [apply Hi|]|].
  destruct (PageStoreFacts.store_read s _ n f p 1 Hs) as (g & Hfr & _ & Hg); [by apply lookup_insert_eq|].
  simpl in Hg. assert (Page.data g = bytes) as Hgd by congruence.
  apply runs_bind, runs_gets. apply (on_pool_ok _ _ s (f, a)).
  - unfold BufferPoolManager.fetch_decoded.
    rewrite (SR_bind_Ok _ _ _ _ _ Hrun), (SR_bind_Ok _ _ _ _ _ Hfr), Hgd, (idx_schema _ _ _ _ _ Hi), Hd. done.
  - apply HQ; [done|]. apply (idx_pool _ _ _ _ _ _ _ _ _ Hi Hs). lia.
Qed.

(** A page of the tree is fetched. *)
Lemma runs_fetch self root st n b p tp (Q : FrameId * BPlusTreePage.t → BPlusTreeIndex.t D → Prop) :
  idx self root st n (S b) → page_shows (PageStore.pages st) p tp → PageStore.free_page st p →
  spare_frames 1 st →
  (∀ self' f, PageStore.refs st !! f = None → idx self' root (pin f p st) n b → Q (f, tp) self') →
  runs (fetch_tree_page p) self Q.
Proof. intros Hi (bytes & Hm & Hd & _). by apply (runs_decoded (λ ks bytes, BPlusTreePageCodec.decode bytes ks) _ _ _ _ _ _ bytes _ _ _ Hi Hm Hd). Qed.

Lemma runs_fetch_leaf self root st n b p lp (Q : FrameId * BPlusTreeLeafPage.t → BPlusTreeIndex.t D → Prop) :
  idx self root st n (S b) → page_shows (PageStore.pages st) p (BPlusTreePage.Leaf lp) → PageStore.free_page st p →
  spare_frames 1 st →
  (∀ self' f, PageStore.refs st !! f = None → idx self' root (pin f p st) n b → Q (f, lp) self') →
  runs (fetch_tree_leaf_page p) self Q.
Proof. intros Hi (bytes & Hm & _ & Hd). by apply (runs_decoded (λ ks bytes, BPlusTreeLeafPageCodec.decode bytes ks) _ _ _ _ _ _ bytes _ _ _ Hi Hm Hd). Qed.

(** A page that is pinned already. *)
Lemma runs_fetch_again self root st n b f p tp (Q : FrameId * BPlusTreePage.t → BPlusTreeIndex.t D → Prop) :
  idx self root st n b → page_shows (PageStore.pages st) p tp → PageStore.refs st !! f = Some (p, 1) →
  (∀ self', idx self' root (PageStore.set_refs (<[f := (p, 2)]> (PageStore.refs st)) st) n b → Q (f, tp) self') →
  runs (fetch_tree_page p) self Q.
Proof.
  intros Hi (bytes & Hm & Hd & _) Hf HQ. pose proof (idx_clock _ _ _ _ _ Hi) as Hc.
  destruct (PageStoreFacts.store_fetch_again (buffer_pool self) st n p f 1 (idx_shows _ _ _ _ _ Hi) Hf)
    as (s & Hrun & Hs & Hts); [done|].
  destruct (PageStoreFacts.store_read s _ n f p 2 Hs) as (g & Hfr & _ & Hg); [by apply lookup_insert_eq|].
  simpl in Hg. assert (Page.data g = bytes) as Hgd by congruence.
  unfold fetch_tree_page. apply runs_bind, runs_gets. apply (on_pool_ok _ _ s (f, tp)).
  - unfold BufferPoolManager.fetch_tree_page, BufferPoolManager.fetch_decoded.
    rewrite (SR_bind_Ok _ _ _ _ _ Hrun), (SR_bind_Ok _ _ _ _ _ Hfr), Hgd, (idx_schema _ _ _ _ _ Hi), Hd. done.
  - apply HQ, (idx_pool _ _ _ _ _ _ _ _ _ Hi Hs). lia.
Qed.

(** The reference is dropped. *)
Lemma runs_drop self root st n b f p (Q : unit → BPlusTreeIndex.t D → Prop) :
  idx self root st n b → PageStore.refs st !! f = Some (p, 1) →
  (∀ self', idx self' root (unpin f st) n b → Q tt self') → runs (drop_ref f) self Q.
Proof.
  intros Hi Hf HQ. pose proof (idx_clock _ _ _ _ _ Hi) as Hc.
  destruct (PageStoreFacts.store_drop _ _ n f p 1 (idx_shows _ _ _ _ _ Hi) Hf) as (s & Hrun & Hs & Hts); [done|].
  exists (set_pool s self), tt. split.
  - unfold drop_ref, on_pool. by rewrite Hrun.
  - apply HQ, (idx_pool _ _ _ _ _ _ _ _ _ Hi Hs). lia.
Qed.

Lemma runs_drop_again self root st n b f p (Q : unit → BPlusTreeIndex.t D → Prop) :
  idx self root (PageStore.set_refs (<[f := (p, 2)]> (PageStore.refs st)) st) n b →
  PageStore.refs st !! f = Some (p, 1) →
  (∀ self', idx self' root st n b → Q tt self') → runs (drop_ref f) self Q.
Proof.
  intros Hi Hf HQ. pose proof (idx_clock _ _ _ _ _ Hi) as Hc.
  destruct (PageStoreFacts.store_drop _ _ n f p 2 (idx_shows _ _ _ _ _ Hi)) as (s & Hrun & Hs & Hts);
    [by apply lookup_insert_eq|done|].
  exists (set_pool s self), tt. split.
  - unfold drop_ref, on_pool. by rewrite Hrun.
  - assert (PageStore.shows s st n) as Hs'.
    { cbn in Hs. rewrite insert_insert_eq in Hs. unfold PageStore.set_refs in Hs. simpl in Hs.
      rewrite insert_id in Hs by done. by destruct st. }
    apply HQ, (idx_pool _ _ _ _ _ _ _ _ _ Hi Hs'). lia.
Qed.

(** A block that owns a reference. *)
Lemma runs_holding {A} f (m : SR (BPlusTreeIndex.t D) A) self (Q : A → BPlusTreeIndex.t D → Prop) :
  runs m self (λ a self', runs (drop_ref f) self' (λ _ s, Q a s)) → runs (holding f m) self Q.
Proof.
  intros (s1 & a & Hm & s2 & [] & Hd & HQ). exists s2, a. split; [|done].
  unfold holding. rewrite Hm. by rewrite (SR_bind_Ok _ _ _ _ _ Hd).
Qed.

Lemma runs_guarding {A} f (m : SR (BPlusTreeIndex.t D) A) self (Q : A → BPlusTreeIndex.t D → Prop) :
  runs m self Q → runs (guarding f m) self Q.
Proof. intros (s1 & a & Hm & HQ). exists s1, a. split; [|done]. unfold guarding. by rewrite Hm. Qed.

(** A page is read: fetched and dropped again. *)
Lemma runs_reading {A} (fetch : SR (BPlusTreeIndex.t D) (FrameId * A)) a self root st n b p (Q : A → BPlusTreeIndex.t D → Prop) :
  (∀ Q' : FrameId * A → BPlusTreeIndex.t D → Prop,
    (∀ self' f, PageStore.refs st !! f = None → idx self' root (pin f p st) n b → Q' (f, a) self') → runs fetch self Q') →
  (∀ self', idx self' root st n b → Q a self') → runs (read_page fetch) self Q.
Proof.
  intros Hfetch HQ. unfold read_page. apply runs_bind, Hfetch.
  intros self1 f Hf Hi1. apply runs_holding, runs_ret. apply (runs_drop _ root (pin f p st) n b f p); [done|by apply lookup_insert_eq|].
  intros self2 Hi2. rewrite unpin_pin in Hi2 by done. by apply HQ.
Qed.

Lemma runs_read self root st n b p tp (Q : BPlusTreePage.t → BPlusTreeIndex.t D → Prop) :
  idx self root st n (S b) → page_shows (PageStore.pages st) p tp → PageStore.free_page st p →
  spare_frames 1 st → (∀ self', idx self' root st n b → Q tp self') →
  runs (read_page (fetch_tree_page p)) self Q.
Proof. intros Hi Hp Hfree Hsp. eapply runs_reading. intros Q' HQ'. by eapply runs_fetch. Qed.

Lemma runs_read_leaf self root st n b p lp (Q : BPlusTreeLeafPage.t → BPlusTreeIndex.t D → Prop) :
  idx self root st n (S b) → page_shows (PageStore.pages st) p (BPlusTreePage.Leaf lp) → PageStore.free_page st p →
  spare_frames 1 st → (∀ self', idx self' root st n b → Q lp self') →
  runs (read_page (fetch_tree_leaf_page p)) self Q.
Proof. intros Hi Hp Hfree Hsp. eapply runs_reading. intros Q' HQ'. by eapply runs_fetch_leaf. Qed.

Lemma runs_page_id self root st n b f p c (Q : Z → BPlusTreeIndex.t D → Prop) :
  idx self root st n b → PageStore.refs st !! f = Some (p, c) → Q p self → runs (ref_page_id f) self Q.
Proof.
  intros Hi Hf HQ. destruct (PageStoreFacts.store_read _ st n f p c (idx_shows _ _ _ _ _ Hi) Hf) as (g & Hfr & Hid & _).
  unfold ref_page_id. apply runs_bind. apply (on_pool_ok _ _ _ _ _ Hfr), runs_ret.
  rewrite Hid. by destruct self.
Qed.

Lemma runs_decode_leaf self root st n b f p c lp (Q : BPlusTreeLeafPage.t → BPlusTreeIndex.t D → Prop) :
  idx self root st n b → PageStore.refs st !! f = Some (p, c) →
  page_shows (PageStore.pages st) p (BPlusTreePage.Leaf lp) → Q lp self → runs (decode_leaf f) self Q.
Proof.
  intros Hi Hf (bytes & Hm & _ & Hd) HQ.
  destruct (PageStoreFacts.store_read _ st n f p c (idx_shows _ _ _ _ _ Hi) Hf) as (g & Hfr & _ & Hg).
  assert (Page.data g = bytes) as Hgd by congruence.
  unfold decode_leaf. apply runs_bind, runs_gets, runs_bind. apply (on_pool_ok _ _ _ _ _ Hfr).
  apply runs_bind. eapply runs_lift; [by rewrite Hgd, (idx_schema _ _ _ _ _ Hi)|]. apply runs_ret. by destruct self.
Qed.

(** A page is written through a reference. *)
Lemma runs_set_data self root st n b f p c enc bytes (Q : unit → BPlusTreeIndex.t D → Prop) :
  idx self root st n b → PageStore.refs st !! f = Some (p, c) → enc = Ok bytes →
  length bytes = BUSTUBX_PAGE_SIZE →
  (∀ self', idx self' root (PageStore.set_pages (<[p := bytes]> (PageStore.pages st)) st) n b → Q tt self') →
  runs (set_data f enc) self Q.
Proof.
  intros Hi Hf -> Hl HQ. pose proof (idx_clock _ _ _ _ _ Hi) as Hc.
  destruct (PageStoreFacts.store_write _ st n f p c bytes (idx_shows _ _ _ _ _ Hi) Hf Hl) as (s & Hrun & Hs & Hts).
  unfold set_data. apply runs_bind. eapply runs_lift; [done|]. apply runs_bind. eapply runs_lift.
  { unfold page_bytes_to_array. by rewrite Hl, Nat.eqb_refl. }
  apply (on_pool_ok _ _ _ _ _ Hrun), HQ, (idx_pool _ _ _ _ _ _ _ _ _ Hi Hs). lia.
Qed.

(** A new page. *)
Lemma runs_new_page self root st n b (Q : FrameId → BPlusTreeIndex.t D → Prop) :
  idx self root st (S n) (S b) → spare_frames 1 st →
  (∀ self' f q, PageStore.pages st !! q = None → PageStore.refs st !! f = None →
    idx self' root (pin f q (PageStore.set_pages (<[q := EMPTY_PAGE]> (PageStore.pages st)) st)) n b → Q f self') →
  runs (on_pool BufferPoolManager.new_page) self Q.
Proof.
  intros Hi Hsp HQ. pose proof (idx_clock _ _ _ _ _ Hi) as Hc.
  destruct (PageStoreFacts.store_new _ st n (idx_shows _ _ _ _ _ Hi)) as (s & f & q & Hrun & Hq & Hf & Hs & Hts);
    [by eapply idx_quiet|by eapply spare_available; [apply Hi|]|].
  apply (on_pool_ok _ _ _ _ _ Hrun), (HQ _ f q); [done..|]. apply (idx_pool _ _ _ _ _ _ _ _ _ Hi Hs). lia.
Qed.

(** *** References of the method *)
Lemma pin_refs f p st : PageStore.refs (pin f p st) !! f = Some (p, 1).
Proof. apply lookup_insert_eq. Qed.

Lemma pin_free f p q st : p ≠ q → PageStore.free_page st q → PageStore.free_page (pin f p st) q.
Proof.
  intros Hpq Hq g c. simpl. destruct (decide (g = f)) as [-> |Hg].
  - rewrite lookup_insert_eq. by intros [= ->].
  - rewrite lookup_insert_ne by done. apply Hq.
Qed.

Lemma pin_all_free f p ps st :
  p ∉ ps → Forall (PageStore.free_page st) ps → Forall (PageStore.free_page (pin f p st)) ps.
Proof. rewrite !Forall_forall. intros Hp Hall q Hq. apply pin_free; [by intros -> |by apply Hall]. Qed.

Lemma pin_spare f p st n :
  spare_frames (S n) st → PageStore.refs st !! f = None → spare_frames n (pin f p st).
Proof. apply spare_pin. Qed.

(** The reference to a page is exchanged for one to another page. *)
Lemma unpin_below f f' p q st :
  PageStore.refs st !! f = None → PageStore.refs (pin f p st) !! f' = None →
  unpin f (pin f' q (pin f p st)) = pin f' q st ∧ PageStore.refs st !! f' = None.
Proof.
  intros Hf Hf'. simpl in Hf'. apply lookup_insert_None in Hf' as [Hf' Hne].
  rewrite unpin_other by done. by rewrite unpin_pin.
Qed.

(** ** Search *)
Notation zipper_at := (zipper_at ks imax lmax room).

(** The [read_set]: the pages of the way, from the root on. *)
Definition path (z : list step) : list Z := reverse (BTree.above <$> z).

(** What the loop of [find_leaf_page] ends with: a pinned leaf with the key in its
    bounds, in its place in the tree. *)
Record found_leaf (m : gmap Z (list Z)) (whole : BTree.tree) (k : Tuple.t) (p : Z) (kvs : list LeafKV)
    (lp : BPlusTreeLeafPage.t) (next : Z) (lo hi : option Tuple.t) (z : list step) : Prop := FoundLeaf {
  found_page : page_shows m p (BPlusTreePage.Leaf lp);
  found_is : leaf_is ks lmax room lp next kvs ∧ BPlusTreeLeafPage.is_full lp = false;
  found_between : between lo hi kvs;
  found_zipper : zipper_at m 0 p p next lo hi z;
  found_whole : plug z (BTree.Leaf p kvs) = whole;
  found_bounds : at_least lo k ∧ under hi k;
  found_entries : z = [] ∨ kvs ≠ [];
}.

Lemma runs_find_leaf_loop fuel k self root st n b h f t tp next lo hi z
    (Q : FrameId * list Z → BPlusTreeIndex.t D → Prop) :
  idx self root (pin f (BTree.root t) st) n (b + h) → PageStore.refs st !! f = None → spare_frames 2 st →
  Tuple.ok ks k → (h ≤ fuel)%nat →
  page_shows (PageStore.pages st) (BTree.root t) tp → BPlusTreePage.is_full tp = false →
  top_is ks imax lmax room (PageStore.pages st) h next lo hi t tp →
  zipper_at (PageStore.pages st) h (BTree.root t) (leftmost t) next lo hi z →
  z = [] ∨ contents t ≠ [] → at_least lo k → under hi k →
  NoDup (page_ids t) → Forall (PageStore.free_page st) (page_ids t) →
  (∀ self' f' p kvs lp next' lo' hi' z', PageStore.refs st !! f' = None →
    idx self' root (pin f' p st) n b →
    found_leaf (PageStore.pages st) (plug z t) k p kvs lp next' lo' hi' z' →
    (h + length z = length z')%nat → Q (f', path z') self') →
  runs (find_leaf_loop fuel k f tp (path z)) self Q.
Proof.
  revert fuel self b f t tp next lo hi z Q.
  induction h as [|h IH]; intros fuel self b f t tp next lo hi z Q Hi Hf Hsp Hk Hfuel Hp Hfull Ht Hz Hne Hlo Hhi Hnd Hfree HQ;
    destruct t as [p kvs|p cs], tp as [ip|lp]; try (by destruct Ht).
  - destruct Ht as (_ & Hl & Hb). rewrite Nat.add_0_r in Hi.
    destruct fuel; cbn [find_leaf_loop]; apply runs_ret; by eapply HQ.
  - destruct Ht as (_ & Hint & Hfo). destruct fuel as [|fuel]; [lia|].
    destruct (descend ks imax lmax room _ h next lo hi cs ip k Hint Hfo Hk)
      as (l & k1 & t1 & r & next1 & lo1 & hi1 & Hlook & -> & Ht1 & Hne1 & Hl1 & Hr1 & Hlo1 & Hhi1).
    cbn [BTree.root] in Hi, Hp, Hz. cbn [page_ids] in Hnd, Hfree. apply NoDup_cons in Hnd as [Hpn Hnd]. apply Forall_cons in Hfree as [Hpf Hfree].
    change (flat_map (λ c, page_ids c.2)) with ids in *. rewrite ids_app, ids_cons in Hpn, Hnd, Hfree. cbn [snd] in *.
    apply NoDup_app in Hnd as (_ & _ & Hnd). apply NoDup_app in Hnd as (Hnd & _ & _).
    apply Forall_app in Hfree as [_ Hfree]. apply Forall_app in Hfree as [Hfree _].
    assert (p ≠ BTree.root t1) as Hpt.
    { intros ->. apply Hpn, elem_of_app. right. apply elem_of_app. left. apply root_in. }
    pose proof Ht1 as Ht1'. apply tree_at_top in Ht1' as (tp1 & Hp1 & Hfull1 & Htop1).
    cbn [find_leaf_loop]. apply runs_bind, runs_holding, runs_bind.
    eapply runs_page_id; [exact Hi|apply pin_refs|]. apply runs_bind. eapply runs_lift; [exact Hlook|].
    apply runs_bind. rewrite Nat.add_succ_r in Hi. eapply runs_fetch; [exact Hi|exact Hp1| |by apply pin_spare|].
    { apply pin_free; [done|]. rewrite Forall_forall in Hfree. apply Hfree, root_in. }
    intros self1 f1 Hf1 Hi1. apply runs_ret.
    destruct (unpin_below f f1 p (BTree.root t1) st Hf Hf1) as [Hun Hf1'].
    eapply runs_drop; [exact Hi1| |]. 
    { simpl in Hf1. apply lookup_insert_None in Hf1 as [_ Hne']. simpl. rewrite lookup_insert_ne by done. apply pin_refs. }
    intros self2 Hi2. rewrite Hun in Hi2.
    assert (path z ++ [p] = path (Step p l k1 r :: z)) as -> by (unfold path; by rewrite fmap_cons, reverse_cons).
    eapply (IH fuel self2 b f1 t1 tp1 next1 lo1 hi1); try done; [lia| |by right|by apply Hlo1|by apply Hhi1|].
    + exists ip, next, lo, hi. split_and!; [done..| | | |by rewrite <- leftmost_node with (p := p) (k := k1) (r := r)].
      * by rewrite <- links_at.
      * done.
      * done.
    + intros self3 f3 p3 kvs lp next3 lo3 hi3 z3 Hf3 Hi3 Hfound Hlen. eapply HQ; [done..|]. simpl in Hlen. lia.
Qed.

(** A tree of unpinned pages. *)
Record rooted st (h : nat) (t : BTree.tree) : Prop := Rooted {
  rooted_tree : tree_at (PageStore.pages st) h INVALID_PAGE_ID None None t;
  rooted_pages : NoDup (page_ids t);
  rooted_free : Forall (PageStore.free_page st) (page_ids t);
}.

(** The index with the root page [root] has the pages [ps] and the entries [kvs]. *)
Definition holds st (root : Z) (ps : list Z) (kvs : list LeafKV) : Prop :=
  (root = INVALID_PAGE_ID ∧ ps = [] ∧ kvs = []) ∨
  ∃ h t, rooted st h t ∧ root = BTree.root t ∧ page_ids t = ps ∧ contents t = kvs.

Lemma idx_page self root st n b p :
  idx self root st n b → is_Some (PageStore.pages st !! p) → p ≠ INVALID_PAGE_ID ∧ unsigned_ok 32 p.
Proof. intros Hi. eapply page_unsigned, Hi. Qed.

Lemma idx_pages self root st n b ps :
  idx self root st n b → in_memory (PageStore.pages st) ps → Forall (unsigned_ok 32) ps.
Proof. intros Hi Hps. eapply Forall_impl; [exact Hps|]. intros p Hp. by eapply idx_page. Qed.

Lemma rooted_height self root st n b h t : idx self root st n b → rooted st h t → (h ≤ 32)%nat.
Proof.
  intros Hi [Ht Hnd _]. eapply tree_height; [exact Ht|done|]. eapply idx_pages; [exact Hi|]. by eapply tree_pages.
Qed.

Lemma rooted_not_empty self root st n b h t : idx self root st n b → rooted st h t → BTree.root t =? INVALID_PAGE_ID = false.
Proof.
  intros Hi [Ht _ _]. apply Z.eqb_neq. eapply idx_page; [exact Hi|]. apply tree_pages in Ht.
  unfold in_memory in Ht. rewrite Forall_forall in Ht. apply Ht, root_in.
Qed.

Lemma runs_find_leaf k self st n b h t (Q : option (FrameId * list Z) → BPlusTreeIndex.t D → Prop) :
  idx self (BTree.root t) st n (b + 40) → rooted st h t → spare_frames 2 st → Tuple.ok ks k →
  (∀ self' f p kvs lp next lo hi z, PageStore.refs st !! f = None →
    idx self' (BTree.root t) (pin f p st) n b → found_leaf (PageStore.pages st) t k p kvs lp next lo hi z →
    length z = h → Q (Some (f, path z)) self') →
  runs (find_leaf_page k) self Q.
Proof.
  intros Hi Ht Hsp Hk HQ. pose proof (rooted_height _ _ _ _ _ _ _ Hi Ht) as Hh.
  pose proof (rooted_not_empty _ _ _ _ _ _ _ Hi Ht) as Hne. destruct Ht as [Ht Hnd Hfree].
  unfold find_leaf_page. apply runs_bind, runs_gets. unfold is_empty. rewrite (idx_root _ _ _ _ _ Hi), Hne.
  apply runs_bind, runs_gets, runs_bind. rewrite (idx_root _ _ _ _ _ Hi).
  pose proof Ht as Ht'. apply tree_at_top in Ht' as (tp & Hp & Hfull & Htop).
  apply (idx_fewer _ _ _ _ _ (S (b + h))) in Hi; [|lia].
  eapply runs_fetch; [exact Hi|exact Hp| |unfold spare_frames in *; lia|].
  { rewrite Forall_forall in Hfree. apply Hfree, root_in. }
  intros self1 f Hf Hi1. apply runs_bind. change [] with (path []).
  eapply runs_find_leaf_loop; [exact Hi1|exact Hf|done|done|unfold TREE_FUEL; lia|exact Hp|done|exact Htop|done|by left|done..|].
  intros self2 f2 p kvs lp next lo hi z Hf2 Hi2 Hfound Hlen. simpl in Hlen. rewrite Nat.add_0_r in Hlen.
  apply runs_ret. by eapply HQ.
Qed.

(** The entries of the key are those of the leaf found. *)
Lemma found_entry m t k p kvs lp next lo hi z v :
  found_leaf m t k p kvs lp next lo hi z → Tuple.ok ks k → (k, v) ∈ contents t ↔ (k, v) ∈ kvs.
Proof.
  intros [_ _ _ Hz <- [Hlo Hhi] _] Hk. rewrite plug_contents, elem_of_app. split; [|by left].
  intros [Hv|Hv]; [done|]. by eapply zipper_outside in Hv.
Qed.

Lemma runs_get k self root st n b ps kvs (Q : option RecordId.t → BPlusTreeIndex.t D → Prop) :
  idx self root st n (b + 40) → holds st root ps kvs → spare_frames 2 st → Tuple.ok ks k →
  (∀ self' b' o, (b ≤ b')%nat → idx self' root st n b' → (∀ v, o = Some v ↔ (k, v) ∈ kvs) → Q o self') →
  runs (get k) self Q.
Proof.
  intros Hi Hh Hsp Hk HQ. unfold get. apply runs_bind, runs_gets. unfold is_empty.
  rewrite (idx_root _ _ _ _ _ Hi). destruct Hh as [(-> & _ & ->)|(h & t & Ht & -> & _ & <-)].
  { rewrite Z.eqb_refl. apply runs_ret. eapply HQ; [|exact Hi|]; [lia|].
    intros v. split; [done|]. intros Hv. by apply not_elem_of_nil in Hv. }
  rewrite (rooted_not_empty _ _ _ _ _ _ _ Hi Ht). apply runs_bind.
  eapply runs_find_leaf; [exact Hi|exact Ht|done..|].
  intros self1 f p kvs lp next lo hi z Hf Hi1 Hfound _.
  destruct (found_is _ _ _ _ _ _ _ _ _ _ Hfound) as [(Hok & Ha & _) _].
  apply runs_holding, runs_bind. eapply runs_decode_leaf; [exact Hi1|apply pin_refs|by apply Hfound|].
  destruct (leaf_look_up ks lp k Hok Hk) as (o & Ho & Hv). eapply runs_lift; [exact Ho|].
  eapply runs_drop; [exact Hi1|apply pin_refs|]. intros self2 Hi2. rewrite unpin_pin in Hi2 by done.
  eapply HQ; [|exact Hi2|]; [done|]. intros v. rewrite (found_entry _ _ _ _ _ _ _ _ _ _ v Hfound Hk), Hv. by rewrite Ha.
Qed.

End index.
End IndexFacts.
