(* ===== verification/IndexInsert.v ===== *)
(** * IndexInsert: insertion into the B+ tree

    [insert] of [Index]: the leaf is found, and as long as a page is over its maximal
    size it is split, up to a new root. It ends with the tree of the old entries and the
    new one, in the old pages and fresh ones. *)
From S2P Require Import Prelude CommonCodec Schema TupleCodec TablePage IndexPage IndexPageCodec.
From S2P Require Import DiskPages DiskManager Replacer BufferPool PageStore TableHeap Index Tree TreePages IndexSteps.
Local Open Scope Z_scope.

Module InsertFacts.
Import BPlusTreeIndex BTree TreeFacts KeyArray KeyArrayFacts SchemaFacts LeafFacts InternalFacts IndexPageCodecFacts TableHeapFacts.
Import SplitFacts IndexFacts.

Section index.
Context {D : Type} `{DiskLaws D}.
Context (ks : Schema.t) (imax lmax : Z) (room : nat) (params : params_ok ks imax lmax room).
Implicit Types (self : BPlusTreeIndex.t D) (st : PageStore.t).
Notation tree_at := (tree_at ks imax lmax room).
Notation page_shows := (page_shows ks).
Notation zipper_at := (zipper_at ks imax lmax room).
Notation idx := (idx ks imax lmax).
Notation rooted := (rooted ks imax lmax room).
Notation holds := (holds ks imax lmax room).
Notation found_leaf := (found_leaf ks imax lmax room).

(** ** Splits *)
Lemma runs_read_again self root st n b f p tp (Q : BPlusTreePage.t → BPlusTreeIndex.t D → Prop) :
  idx self root st n b → page_shows (PageStore.pages st) p tp → PageStore.refs st !! f = Some (p, 1) →
  (∀ self', idx self' root st n b → Q tp self') → runs (read_page (fetch_tree_page p)) self Q.
Proof.
  intros Hi Hp Hf HQ. unfold read_page. apply runs_bind. eapply runs_fetch_again; [exact Hi|exact Hp|exact Hf|].
  intros self1 Hi1. apply runs_holding, runs_ret. eapply runs_drop_again; [exact Hi1|exact Hf|]. done.
Qed.

(** The least entry of a subtree. *)
Lemma runs_min fuel self root st n b h t tp next lo hi (Q : LeafKV → BPlusTreeIndex.t D → Prop) :
  idx self root st n (b + h) → top_is ks imax lmax room (PageStore.pages st) h next lo hi t tp →
  contents t ≠ [] → (h ≤ fuel)%nat → Forall (PageStore.free_page st) (tl (page_ids t)) → spare_frames 1 st →
  (∀ self' kv rest, contents t = kv :: rest → idx self' root st n b → Q kv self') →
  runs (find_subtree_loop fuel true tp) self Q.
Proof.
  revert fuel self next lo hi t tp Q.
  induction h as [|h IH]; intros fuel self next lo hi [p kvs|p cs] [ip|lp] Q Hi Ht Hne Hfuel Hfree Hsp HQ; try (by destruct Ht).
  - destruct Ht as (_ & (_ & <- & _) & _). cbn [contents] in *. rewrite Nat.add_0_r in Hi.
    destruct (BPlusTreeLeafPage.array lp) as [|kv rest] eqn:Ha; [done|].
    destruct fuel; cbn [find_subtree_loop]; apply runs_bind; (eapply runs_lift; [reflexivity|]);
      (eapply runs_lift; [unfold BPlusTreeLeafPage.kv_at; by rewrite Ha|by eapply HQ]).
  - destruct Ht as (_ & ((first & rest & Hlinks & Hok) & _) & Hf). destruct fuel as [|fuel]; [lia|].
    destruct cs as [|[k1 t1] cs]; [done|]. injection Hlinks as <- <-.
    destruct (forest_elem ks _ _ _ _ _ (k1, t1) Hf ltac:(by left)) as (next1 & lo1 & hi1 & Ht1). cbn [snd] in Ht1.
    destruct Hf as [Hne1 _]. apply tree_at_top in Ht1 as (tp1 & Hp1 & _ & Ht1).
    change (tl (page_ids (Node p ((k1, t1) :: cs)))) with (page_ids t1 ++ ids cs) in Hfree.
    apply Forall_app in Hfree as [Hfree _].
    assert (page_ids t1 = BTree.root t1 :: tl (page_ids t1)) as Hids by (by destruct t1).
    rewrite Hids in Hfree. apply Forall_cons in Hfree as [Hroot Hfree].
    cbn [find_subtree_loop]. apply runs_bind. eapply runs_lift; [reflexivity|]. apply runs_bind.
    eapply runs_lift. { unfold BPlusTreeInternalPage.value_at. by rewrite (internal_array _ _ _ _ Hok). }
    apply runs_bind. rewrite Nat.add_succ_r in Hi. eapply runs_read; [exact Hi|exact Hp1|done..|].
    intros self1 Hi1. apply (IH fuel self1 next1 lo1 hi1 t1 tp1); [done..|lia|done|done|].
    intros self2 kv rest Hkv. apply (HQ self2 kv (rest ++ entries cs)).
    change (contents t1 ++ entries cs = kv :: rest ++ entries cs). by rewrite Hkv.
Qed.

Lemma pin_write f q b1 b2 st :
  PageStore.set_pages (<[q := b2]> (PageStore.pages (pin f q (PageStore.set_pages (<[q := b1]> (PageStore.pages st)) st))))
    (pin f q (PageStore.set_pages (<[q := b1]> (PageStore.pages st)) st))
  = pin f q (PageStore.set_pages (<[q := b2]> (PageStore.pages st)) st).
Proof. unfold pin, PageStore.set_pages, PageStore.set_refs. simpl. by rewrite insert_insert_eq. Qed.

Lemma idx_new self root st n b f q :
  idx self root (pin f q (PageStore.set_pages (<[q := EMPTY_PAGE]> (PageStore.pages st)) st)) n b →
  q ≠ INVALID_PAGE_ID ∧ unsigned_ok 32 q.
Proof. intros Hi. eapply idx_page; [exact Hi|]. simpl. rewrite lookup_insert_eq. by eexists. Qed.

Definition with_page (q : Z) (bytes : list Z) st : PageStore.t :=
  PageStore.set_pages (<[q := bytes]> (PageStore.pages st)) st.

(** [split] from the page of a subtree to its halves. *)
Definition split_to (self : BPlusTreeIndex.t D) root st n b f (t : BTree.tree) h next lo hi
    (Q : BPlusTreePage.t * InternalKV → BPlusTreeIndex.t D → Prop) : Prop :=
  ∀ self' q bytes tp1 t1 t2 sep, PageStore.pages st !! q = None → unsigned_ok 32 q →
    idx self' root (pin f (BTree.root t) (with_page q bytes st)) n b →
    halves ks imax lmax room (<[q := bytes]> (PageStore.pages st)) h next lo hi t q tp1 t1 t2 sep →
    Q (tp1, (sep, q)) self'.

Lemma runs_split_leaf self root st n b f p kvs lp next lo hi Q :
  idx self root (pin f p st) (S n) (S b) → PageStore.refs st !! f = None → spare_frames 2 st →
  leaf_is ks lmax room lp next kvs → between lo hi kvs → BPlusTreeLeafPage.is_full lp = true →
  bound_ok ks lo → bound_ok ks hi → is_Some (PageStore.pages st !! p) →
  split_to self root st n b f (BTree.Leaf p kvs) 0 next lo hi Q →
  runs (split (BPlusTreePage.Leaf lp)) self Q.
Proof.
  intros Hi Hf Hsp Hl Hb Hfull Hlo Hhi Hp HQ. unfold split. apply runs_bind.
  eapply runs_new_page; [exact Hi|by apply pin_spare|]. intros self1 g q Hq Hg Hi1.
  destruct (idx_new _ _ _ _ _ _ _ Hi1) as [_ Hqu].
  apply runs_holding, runs_bind. eapply runs_page_id; [exact Hi1|apply pin_refs|].
  apply runs_bind, runs_gets, runs_bind, runs_gets. rewrite (idx_schema _ _ _ _ _ _ _ _ Hi1), (idx_leaf _ _ _ _ _ _ _ _ Hi1).
  destruct (leaf_halves ks imax lmax room params lp next kvs q Hl Hfull Hqu)
    as (k1 & k2 & lp1 & lp2 & -> & Hne1 & Hne2 & Hs & Hn & Hbi & Hl1 & Hl2 & Hc1 & Hc2).
  apply runs_bind. eapply runs_lift; [exact Hs|]. apply runs_bind. eapply runs_lift; [exact Hbi|]. rewrite Hn.
  pose proof (leaf_is_full ks lmax room _ _ _ Hl2) as Hf2. rewrite bool_decide_eq_false_2 in Hf2 by lia.
  destruct (write_leaf ks imax lmax room _ _ _ params Hl2 Hf2) as (bytes & He & Hlen & Hshows).
  apply runs_bind. eapply runs_set_data; [exact Hi1|apply pin_refs|exact He|done|].
  intros self2 Hi2. rewrite pin_write in Hi2. destruct k2 as [|[sep v] rest]; [done|].
  apply runs_bind. eapply runs_lift.
  { unfold BPlusTreeLeafPage.key_at. destruct Hl2 as (_ & -> & _). reflexivity. }
  apply runs_ret. eapply runs_drop; [exact Hi2|apply pin_refs|]. intros self3 Hi3. rewrite unpin_pin in Hi3 by done.
  apply (HQ self3 q bytes _ (BTree.Leaf p k1) (BTree.Leaf q ((sep, v) :: rest)) sep); [done..|].
  eapply halves_leaf; [done|done| |done|exact Hl1|exact Hl2|done|done|].
  - split; [done|]. destruct Hl as (Hok & <- & _). split; apply Hok.
  - apply Hshows, lookup_insert_eq.
Qed.

Lemma fresh_free ps q st g f p :
  PageStore.pages st !! q = None → in_memory (PageStore.pages st) ps → p ∉ ps → Forall (PageStore.free_page st) ps →
  ∀ bytes, Forall (PageStore.free_page (pin g q (pin f p (with_page q bytes st)))) ps ∧ q ∉ ps ∧
    same_on ps (PageStore.pages st) (<[q := bytes]> (PageStore.pages st)).
Proof.
  intros Hq Hin Hp Hfree bytes. assert (q ∉ ps) as Hqn.
  { intros Hqp. unfold in_memory in Hin. rewrite Forall_forall in Hin. destruct (Hin q Hqp). congruence. }
  split_and!; [|done|by apply same_on_insert]. apply pin_all_free; [done|]. by apply pin_all_free.
Qed.

Lemma runs_split_node self root st n b f p cs ip h next lo hi Q :
  idx self root (pin f p st) (S n) (S (b + S h)) → PageStore.refs st !! f = None → spare_frames 3 st →
  internal_is ks imax room ip (links cs) → forest_at ks (tree_at (PageStore.pages st) h) next lo hi cs →
  BPlusTreeInternalPage.is_full ip = true → bound_ok ks lo → bound_ok ks hi → (h < TREE_FUEL)%nat →
  in_memory (PageStore.pages st) (ids cs) → p ∉ ids cs → Forall (PageStore.free_page st) (ids cs) →
  split_to self root st n b f (Node p cs) (S h) next lo hi Q →
  runs (split (BPlusTreePage.Internal ip)) self Q.
Proof.
  intros Hi Hf Hsp Hint Hfo Hfull Hlo Hhi Hh Hin Hp Hfree HQ. unfold split. apply runs_bind.
  eapply runs_new_page; [exact Hi|apply pin_spare; [by unfold spare_frames in *; lia|done]|]. intros self1 g q Hq Hg Hi1.
  destruct (idx_new _ _ _ _ _ _ _ Hi1) as [_ Hqu].
  apply runs_holding, runs_bind. eapply runs_page_id; [exact Hi1|apply pin_refs|].
  apply runs_bind, runs_gets, runs_bind, runs_gets. rewrite (idx_schema _ _ _ _ _ _ _ _ Hi1), (idx_internal _ _ _ _ _ _ _ _ Hi1).
  destruct (internal_halves ks imax lmax room params ip _ Hint Hfull)
    as (k1 & k2 & ip1 & ip2 & Hlinks & Hs & Hbi & Hi1' & Hi2' & Hc1 & Hc2).
  apply runs_bind. eapply runs_lift; [exact Hs|]. apply runs_bind. eapply runs_lift; [exact Hbi|].
  pose proof (internal_is_full ks imax room _ _ Hi2') as Hf2. rewrite bool_decide_eq_false_2 in Hf2 by lia.
  destruct (write_internal ks imax lmax room _ _ params Hi2' Hf2) as (bytes & He & Hlen & Hshows).
  apply runs_bind. eapply runs_set_data; [exact Hi1|apply pin_refs|exact He|done|].
  intros self2 Hi2. rewrite pin_write in Hi2. change (idx self2 root (pin g q (pin f p (with_page q bytes st))) n (b + S h)) in Hi2.
  apply fmap_app_inv in Hlinks as (l & r' & -> & -> & ->).
  destruct r' as [|[k t] r]; [by destruct Hi2' as (_ & _ & _ & ?); simpl in *; lia|].
  assert (l ≠ []) as Hl by (by intros ->; destruct Hi1' as (_ & _ & _ & ?); simpl in *; lia).
  destruct (fresh_free _ q st g f p Hq Hin Hp Hfree bytes) as (Hfree' & Hqn & Hsame).
  apply (children_frame ks imax lmax room _ (<[q := bytes]> (PageStore.pages st))) in Hfo; [|done].
  pose proof Hfo as Hfo2. apply forest_app in Hfo2 as (_ & _ & Hfo2); [|done].
  destruct (entries ((k, t) :: r)) as [|[sep v] rest] eqn:Hent; [by apply forest_not_nil in Hfo2|].
  assert (page_shows (<[q := bytes]> (PageStore.pages st)) q (BPlusTreePage.Internal ip2)) as Hpq
    by (apply Hshows, lookup_insert_eq).
  assert (top_is ks imax lmax room (<[q := bytes]> (PageStore.pages st)) (S h) next (Some k) hi
    (Node q ((k, t) :: r)) (BPlusTreePage.Internal ip2)) as Htop by done.
  apply runs_bind. unfold find_subtree_min_leafkv, find_subtree_leafkv. apply runs_bind.
  eapply runs_read_again; [exact Hi2|exact Hpq|apply pin_refs|]. intros self3 Hi3.
  eapply runs_min; [exact Hi3|exact Htop|by change (entries ((k, t) :: r) ≠ []); rewrite Hent|unfold TREE_FUEL in *; lia| |
    by repeat apply pin_spare|].
  { rewrite ids_app in Hfree'. apply Forall_app in Hfree' as [_ Hfree']. exact Hfree'. }
  intros self4 kv rest' Hkv Hi4. change (entries ((k, t) :: r) = kv :: rest') in Hkv. rewrite Hent in Hkv. injection Hkv as <- <-.
  apply runs_ret. eapply runs_drop; [exact Hi4|apply pin_refs|]. intros self5 Hi5. rewrite unpin_pin in Hi5 by done.
  apply (HQ self5 q bytes _ (Node p l) (Node q ((k, t) :: r)) sep); [done..|].
  eapply halves_node; [done|done|exact Hfo|done|exact Hent| |exact Hi1'|exact Hi2'|done|done|done].
  apply top_keys in Htop. change (Forall (λ kv, key_ok ks room kv.1) (entries ((k, t) :: r))) in Htop.
  rewrite Hent in Htop. by apply Forall_cons in Htop as [? _].
Qed.

Lemma runs_split self root st n b f t tp h next lo hi Q :
  idx self root (pin f (BTree.root t) st) (S n) (S (b + h)) → PageStore.refs st !! f = None → spare_frames 3 st →
  top_is ks imax lmax room (PageStore.pages st) h next lo hi t tp → BPlusTreePage.is_full tp = true →
  bound_ok ks lo → bound_ok ks hi → (h ≤ TREE_FUEL)%nat →
  in_memory (PageStore.pages st) (page_ids t) → NoDup (page_ids t) → Forall (PageStore.free_page st) (page_ids t) →
  split_to self root st n b f t h next lo hi Q → runs (split tp) self Q.
Proof.
  intros Hi Hf Hsp Ht Hfull Hlo Hhi Hh Hin Hnd Hfree HQ.
  destruct h as [|h], t as [p kvs|p cs], tp as [ip|lp]; try (by destruct Ht).
  - destruct Ht as (_ & Hl & Hb). rewrite Nat.add_0_r in Hi. apply Forall_cons in Hin as [Hp _].
    eapply runs_split_leaf; [exact Hi|exact Hf|unfold spare_frames in *; lia|exact Hl|done..].
  - destruct Ht as (_ & Hint & Hfo). apply Forall_cons in Hin as [_ Hin]. apply Forall_cons in Hfree as [_ Hfree].
    apply NoDup_cons in Hnd as [Hp _]. by eapply runs_split_node.
Qed.

Lemma plug_root z t t' : BTree.root t = BTree.root t' → BTree.root (plug z t) = BTree.root (plug z t').
Proof. revert t t'. induction z as [|[p l k r] z IH]; intros t t' Ht; [done|]. by apply IH. Qed.

(** The store [st] with the pages [m], where a method that owns the pages [ps] ends with
    the pages [ps']: other pages are as before, and what is new is fresh. *)
Definition grows (ps : list Z) st (m : gmap Z (list Z)) (ps' : list Z) : Prop :=
  (∀ p, p ∉ ps → is_Some (PageStore.pages st !! p) → m !! p = PageStore.pages st !! p) ∧
  (∀ p, p ∈ ps' → p ∈ ps ∨ PageStore.pages st !! p = None).

Lemma grows_write ps st q bytes : q ∈ ps ∨ PageStore.pages st !! q = None →
  grows ps st (<[q := bytes]> (PageStore.pages st)) (q :: ps).
Proof.
  intros Hq. split.
  - intros p Hp [d Hd]. apply lookup_insert_ne. intros <-. destruct Hq as [|Hq]; [done|]. by rewrite Hq in Hd.
  - intros p [-> |Hp]%elem_of_cons; [done|by left].
Qed.

Lemma grows_trans ps ps1 ps2 st m m' :
  grows ps st m ps1 → grows ps1 (PageStore.set_pages m st) m' ps2 → (∀ p, is_Some (PageStore.pages st !! p) → is_Some (m !! p)) →
  grows ps st m' ps2.
Proof.
  intros [H1 H2] [H3 H4] Hm. simpl in H3, H4. split.
  - intros p Hp Hs. rewrite <- (H1 p Hp Hs). apply H3; [|by apply Hm].
    intros Hp1. destruct (H2 p Hp1) as [|Hn]; [done|]. rewrite Hn in Hs. by destruct Hs.
  - intros p Hp. destruct (H4 p Hp) as [Hp1|Hn]; [by apply H2|]. right.
    destruct (PageStore.pages st !! p) as [d|] eqn:E; [|done]. destruct (Hm p) as [d' Hd]; [by eexists|]. congruence.
Qed.

Lemma grows_perm ps ps1 ps2 st m : (∀ p, p ∈ ps2 → p ∈ ps1) → grows ps st m ps1 → grows ps st m ps2.
Proof. intros Hp [H1 H2]. split; [done|]. auto. Qed.

(** Where an insertion into the pages [ps] ends: a tree of unpinned pages with the
    entries [kvs]. *)
Definition inserted st n b ps kvs (self : BPlusTreeIndex.t D) : Prop :=
  ∃ m t h n' b', (n ≤ n')%nat ∧ (b ≤ b')%nat ∧ idx self (BTree.root t) (PageStore.set_pages m st) n' b' ∧
    rooted (PageStore.set_pages m st) h t ∧ contents t ≡ₚ kvs ∧ grows ps st m (page_ids t).

Lemma inserted_after q bytes st n b ps ps' kvs self :
  q ∈ ps ∨ PageStore.pages st !! q = None → (∀ p, p ∈ ps' → p = q ∨ p ∈ ps) →
  inserted (with_page q bytes st) n b ps' kvs self → inserted st n b ps kvs self.
Proof.
  intros Hq Hps (m & t & h & n' & b' & ? & ? & ? & ? & ? & Hg). exists m, t, h, n', b'. split_and!; [done..|].
  apply (grows_trans ps ps' _ st (<[q := bytes]> (PageStore.pages st))); [|done|].
  - eapply grows_perm; [|by apply grows_write]. intros p [-> |Hp]%Hps; [by left|by right].
  - intros p Hp. apply lookup_insert_is_Some'. by right.
Qed.

Lemma inserted_halves p q b1 b2 st n b ps ps' kvs self :
  PageStore.pages st !! q = None → p ∈ ps → (∀ x, x ∈ ps' → x = q ∨ x ∈ ps) →
  inserted (with_page p b2 (with_page q b1 st)) n b ps' kvs self → inserted st n b ps kvs self.
Proof.
  intros Hq Hp Hps Hi. apply (inserted_after q b1 _ _ _ ps (q :: ps)); [by right|by intros x ?%elem_of_cons|].
  apply (inserted_after p b2 _ _ _ _ ps'); [left; by right| |done]. intros x [-> |]%Hps; right; [by left|by right].
Qed.

Lemma inserted_same st n b ps ps' kvs self :
  (∀ x, x ∈ ps' ↔ x ∈ ps) → inserted st n b ps' kvs self → inserted st n b ps kvs self.
Proof.
  intros Hps (m & t & h & n' & b' & ? & ? & ? & ? & ? & Hg & Hn). exists m, t, h, n', b'. split_and!; [done..|]. split.
  - intros p Hp. apply Hg. by rewrite Hps.
  - intros p Hp. rewrite <- Hps. by apply Hn.
Qed.

Lemma inserted_weaken st n b n1 b1 ps kvs kvs' self :
  (n ≤ n1)%nat → (b ≤ b1)%nat → kvs ≡ₚ kvs' → inserted st n1 b1 ps kvs self → inserted st n b ps kvs' self.
Proof.
  intros Hn Hb Hp (m & t & h & n' & b' & ? & ? & ? & ? & Hc & ?). exists m, t, h, n', b'.
  split_and!; [lia|lia|done|done|by rewrite Hc|done].
Qed.

(** Different pages in the memory, pinned by nobody. *)
Definition own st (ps : list Z) : Prop :=
  in_memory (PageStore.pages st) ps ∧ NoDup ps ∧ Forall (PageStore.free_page st) ps.

Lemma own_perm st ps ps' : ps ≡ₚ ps' → own st ps → own st ps'.
Proof. intros Hp (? & ? & ?). unfold own, in_memory. by rewrite <- Hp. Qed.

Lemma own_app st ps ps' : own st (ps ++ ps') → own st ps ∧ own st ps'.
Proof.
  intros ([]%Forall_app & Hnd & []%Forall_app). apply NoDup_app in Hnd as (? & _ & ?). by repeat split.
Qed.

Lemma own_write st ps p bytes : own st ps → own (with_page p bytes st) ps.
Proof.
  intros (Hin & ? & ?). split_and!; [|done..]. eapply Forall_impl; [exact Hin|]. intros q Hq. simpl.
  apply lookup_insert_is_Some'. by right.
Qed.

Lemma own_fresh st ps q bytes :
  own st ps → PageStore.pages st !! q = None → PageStore.free_page st q → own (with_page q bytes st) (q :: ps) ∧ q ∉ ps.
Proof.
  intros Ho Hq Hfree. assert (q ∉ ps) as Hn.
  { destruct Ho as (Hin & _). intros Hqp. unfold in_memory in Hin. rewrite Forall_forall in Hin. destruct (Hin q Hqp). congruence. }
  split; [|done]. apply (own_write _ _ q bytes) in Ho as (Hin & Hnd & Hf). split_and!; [|by constructor|by constructor].
  constructor; [|done]. simpl. rewrite lookup_insert_eq. by eexists.
Qed.

Lemma idx_fresh self root st n b q : idx self root st n b → PageStore.pages st !! q = None → PageStore.free_page st q.
Proof.
  intros Hi Hq f c Hf. destruct (PageStoreFacts.store_read _ st n f q c (idx_shows _ _ _ _ _ _ _ _ Hi) Hf) as (g & _ & _ & Hg). congruence.
Qed.

(** A subtree and the way to it. *)
Record placed st (h : nat) (next : Z) (lo hi : option Tuple.t) (t : BTree.tree) (tp : BPlusTreePage.t) (z : list step) : Prop :=
  Placed {
    placed_top : top_is ks imax lmax room (PageStore.pages st) h next lo hi t tp;
    placed_zipper : zipper_at (PageStore.pages st) h (BTree.root t) (leftmost t) next lo hi z;
    placed_entries : contents t ≠ [];
    placed_pages : own st (page_ids t ++ zipper_ids z);
  }.

(** A page that is not over its maximal size is written, and the insertion is done. *)
Lemma runs_insert_end fuel self root st n b f t tp h next lo hi z :
  idx self root (pin f (BTree.root t) st) n b → PageStore.refs st !! f = None → root = BTree.root (plug z t) →
  placed st h next lo hi t tp z → BPlusTreePage.is_full tp = false →
  runs (insert_loop fuel f tp (path z)) self (λ _, inserted st n b (page_ids t ++ zipper_ids z) (contents t ++ zipper_entries z)).
Proof.
  intros Hi Hf Hroot [Ht Hz Hne (Hin & Hnd & Hfree)] Hfull.
  destruct (write_page ks imax lmax room _ _ _ _ _ _ _ params Ht Hfull) as (bs & He & Hlen & Hshows).
  assert (insert_loop fuel f tp (path z)
    = BPlusTreeIndex.holding f (set_data (D := D) f (BPlusTreePageCodec.encode tp))) as -> by (by destruct fuel; simpl; rewrite Hfull).
  apply runs_holding. eapply runs_set_data; [exact Hi|apply pin_refs|exact He|done|]. intros self1 Hi1.
  change (idx self1 root (pin f (BTree.root t) (with_page (BTree.root t) bs st)) n b) in Hi1. eapply runs_drop; [exact Hi1|apply pin_refs|]. intros self2 Hi2. rewrite unpin_pin in Hi2 by done.
  set (m' := <[BTree.root t := bs]> (PageStore.pages st)) in *.
  assert (page_ids t = BTree.root t :: tl (page_ids t)) as Hids by (by destruct t).
  assert (BTree.root t ∉ tl (page_ids t) ++ zipper_ids z) as Hp.
  { rewrite Hids in Hnd. by apply NoDup_cons in Hnd as [? _]. }
  assert (same_on (tl (page_ids t) ++ zipper_ids z) (PageStore.pages st) m') as [Hs1 Hs2]%same_on_app by (by apply same_on_insert).
  exists m', (plug z t), (h + length z)%nat, n, b. rewrite <- Hroot. split_and!; [done..| |apply plug_contents|].
  2:{ eapply grows_perm; [|apply (grows_write (page_ids t ++ zipper_ids z)); left; apply elem_of_app; left; apply root_in].
      intros p Hpp. rewrite plug_ids in Hpp. by right. }
  split.
  - eapply plug_tree; [|by eapply zipper_frame|by right]. apply tree_at_top. exists tp.
    split_and!; [apply Hshows, lookup_insert_eq|done|by eapply top_frame].
  - by rewrite plug_ids.
  - by rewrite plug_ids.
Qed.


Lemma halves_pages m h next lo hi t q tp1 t1 t2 sep :
  halves ks imax lmax room m h next lo hi t q tp1 t1 t2 sep → page_ids t1 ++ page_ids t2 ≡ₚ q :: page_ids t.
Proof.
  intros [(Hr1 & _) _ _ _ _ Hids]. assert (page_ids t = BTree.root t :: tl (page_ids t)) as Hpt by (by destruct t).
  assert (page_ids t1 = BTree.root t :: tl (page_ids t1)) as Hpt1 by (rewrite <- Hr1; by destruct t1).
  rewrite Hpt, Hpt1. transitivity (BTree.root t :: (page_ids t2 ++ tl (page_ids t1))); [solve_Permutation|].
  rewrite Hids. apply Permutation_swap.
Qed.

(** Both halves in the memory, the page of the lower one written. *)
Lemma halves_memory st h next lo hi t tp z q b1 b2 tp1 t1 t2 sep :
  placed st h next lo hi t tp z → PageStore.pages st !! q = None → PageStore.free_page st q →
  halves ks imax lmax room (<[q := b1]> (PageStore.pages st)) h next lo hi t q tp1 t1 t2 sep →
  let st' := with_page (BTree.root t) b2 (with_page q b1 st) in
  page_shows (PageStore.pages st') (BTree.root t) tp1 →
  (∀ k, forest_at ks (tree_at (PageStore.pages st') h) next lo hi [(k, t1); (sep, t2)]) ∧
  same_on (zipper_ids z) (PageStore.pages st) (PageStore.pages st') ∧
  own st' (page_ids t1 ++ page_ids t2 ++ zipper_ids z).
Proof.
  intros [Ht Hz Hne Hown] Hq Hqfree Hh st' Hshow.
  pose proof Hh as [(Hr1 & Hr2 & _) (Hl & Hfull) Hr (Hsep & _) (_ & Hn1 & Hn2) Hids].
  assert (page_ids t = BTree.root t :: tl (page_ids t)) as Hpt by (by destruct t).
  assert (page_ids t1 = BTree.root t :: tl (page_ids t1)) as Hpt1 by (rewrite <- Hr1; by destruct t1).
  destruct (own_fresh _ _ q b1 Hown Hq Hqfree) as [Hown' Hqn].
  assert (BTree.root t ∉ tl (page_ids t) ++ zipper_ids z) as Hp.
  { destruct Hown as (_ & Hnd & _). rewrite Hpt in Hnd. by apply NoDup_cons in Hnd as [? _]. }
  rewrite Hpt in Hqn. apply not_elem_of_cons in Hqn as [Hqp Hqn].
  assert (BTree.root t ∉ page_ids t2 ++ tl (page_ids t1)) as Hp2.
  { rewrite Hids. rewrite elem_of_app in Hp. rewrite elem_of_cons. intros [|]; [done|tauto]. }
  assert (same_on (page_ids t2 ++ tl (page_ids t1)) (<[q := b1]> (PageStore.pages st)) (PageStore.pages st'))
    as [Hs2 Hs1]%same_on_app by (by apply same_on_insert).
  split_and!.
  - intros k. split; [done|]. split; [apply Hsep|]. split; [|split; [done|by eapply tree_frame]].
    apply tree_at_top. exists tp1. rewrite Hr1. split_and!; [done..|]. by eapply top_frame.
  - intros x Hx. simpl. rewrite !lookup_insert_ne; [done| |]; intros <-; [apply Hqn|apply Hp]; apply elem_of_app; by right.
  - apply own_write. eapply own_perm; [|exact Hown']. rewrite app_assoc. change (q :: page_ids t ++ zipper_ids z) with ((q :: page_ids t) ++ zipper_ids z).
    rewrite <- (halves_pages _ _ _ _ _ _ _ _ _ _ _ Hh). done.
Qed.

Lemma parent_pages pp l k r z t1 sep t2 :
  page_ids (Node pp (l ++ (k, t1) :: (sep, t2) :: r)) ++ zipper_ids z
  ≡ₚ (page_ids t1 ++ page_ids t2) ++ zipper_ids (Step pp l k r :: z).
Proof.
  change (zipper_ids (Step pp l k r :: z)) with ((pp :: ids l ++ ids r) ++ zipper_ids z).
  change (page_ids (Node pp (l ++ (k, t1) :: (sep, t2) :: r))) with (pp :: ids (l ++ (k, t1) :: (sep, t2) :: r)).
  rewrite ids_app, !ids_cons. cbn [snd]. solve_Permutation.
Qed.

Lemma placed_parent st h next lo hi t tp pp l k r z q b1 b2 tp1 t1 t2 sep :
  placed st h next lo hi t tp (Step pp l k r :: z) → PageStore.pages st !! q = None → PageStore.free_page st q →
  unsigned_ok 32 q → halves ks imax lmax room (<[q := b1]> (PageStore.pages st)) h next lo hi t q tp1 t1 t2 sep →
  let st' := with_page (BTree.root t) b2 (with_page q b1 st) in
  page_shows (PageStore.pages st') (BTree.root t) tp1 →
  ∃ ip ip' next' lo' hi', page_shows (PageStore.pages st') pp (BPlusTreePage.Internal ip) ∧
    BPlusTreeInternalPage.insert ip sep q = Ok ip' ∧
    placed st' (S h) next' lo' hi' (Node pp (l ++ (k, t1) :: (sep, t2) :: r)) (BPlusTreePage.Internal ip') z.
Proof.
  intros Hpl Hq Hqfree Hqu Hh st' Hshow.
  destruct (halves_memory _ _ _ _ _ _ _ _ _ b1 b2 _ _ _ _ Hpl Hq Hqfree Hh Hshow) as (Hf & Hsame & Hown).
  destruct Hpl as [_ Hz _ _], Hh as [(Hr1 & Hr2 & Hlm) _ _ (Hsep & Hlo & Hhi) _ _].
  apply (zipper_frame ks imax lmax room _ (PageStore.pages st')) in Hz; [|done].
  destruct Hz as (ip & next' & lo' & hi' & Hp & Hfull & Hi & Hl & Hr & Hz).
  destruct (parent_insert ks imax lmax room ip _ _ _ _ _ _ _ _ _ _ _ _ _ sep q Hi Hfull Hl Hr) as (ip' & Hins & Hi'); [done..|].
  exists ip, ip', next', lo', hi'. split_and!; [done..|]. rewrite <- Hlm in Hl.
  pose proof (forest_between ks imax lmax room _ h next' lo' hi' l k t1 [(sep, t2)] r next lo hi Hl Hr (Hf k)) as Hfo.
  split.
  - split_and!; [done| |done]. unfold links in *. rewrite fmap_app, !fmap_cons. cbn [fst snd]. by rewrite Hr1, Hr2.
  - by rewrite leftmost_node, Hlm.
  - change (entries (l ++ (k, t1) :: (sep, t2) :: r) ≠ []). by eapply forest_not_nil.
  - eapply own_perm; [|exact Hown]. by rewrite parent_pages, <- app_assoc.
Qed.

Lemma placed_root st h next lo hi t tp q b1 b2 tp1 t1 t2 sep e q' b3 ip' :
  placed st h next lo hi t tp [] → PageStore.pages st !! q = None → PageStore.free_page st q →
  halves ks imax lmax room (<[q := b1]> (PageStore.pages st)) h next lo hi t q tp1 t1 t2 sep →
  let st' := with_page (BTree.root t) b2 (with_page q b1 st) in
  page_shows (PageStore.pages st') (BTree.root t) tp1 →
  PageStore.pages st' !! q' = None → PageStore.free_page st' q' →
  internal_is ks imax room ip' [(e, BTree.root t); (sep, q)] →
  placed (with_page q' b3 st') (S h) next lo hi (Node q' [(e, t1); (sep, t2)]) (BPlusTreePage.Internal ip') [].
Proof.
  intros Hpl Hq Hqfree Hh st' Hshow Hq' Hqfree' Hi.
  destruct (halves_memory _ _ _ _ _ _ _ _ _ b1 b2 _ _ _ _ Hpl Hq Hqfree Hh Hshow) as (Hf & _ & Hown).
  destruct (own_fresh st' _ q' b3 Hown Hq' Hqfree') as [Hown' Hn].
  destruct Hpl as [_ Hz _ _], Hh as [(Hr1 & Hr2 & _) _ _ _ (_ & Hne & _) _].
  assert (ids [(e, t1); (sep, t2)] = page_ids t1 ++ page_ids t2 ++ []) as Hids by done.
  split; [|done| |].
  - split_and!; [done|by cbn; rewrite Hr1, Hr2|]. eapply children_frame; [apply Hf|]. rewrite Hids. by apply same_on_insert.
  - change (contents t1 ++ contents t2 ++ [] ≠ []). by destruct (contents t1).
  - change (own (with_page q' b3 st') (q' :: ids [(e, t1); (sep, t2)] ++ [])). by rewrite app_nil_r, Hids.
Qed.

Lemma runs_new_root self root st n b sep q (Q : FrameId * BPlusTreePage.t → BPlusTreeIndex.t D → Prop) :
  idx self root st (S n) (S b) → spare_frames 1 st → key_ok ks room sep → unsigned_ok 32 root → unsigned_ok 32 q →
  (∀ self' g q' e bytes ip, PageStore.pages st !! q' = None → PageStore.refs st !! g = None →
    idx self' q' (pin g q' (with_page q' bytes st)) n b → internal_is ks imax room ip [(e, root); (sep, q)] →
    Q (g, BPlusTreePage.Internal ip) self') →
  runs (new_root (sep, q)) self Q.
Proof.
  intros Hi Hsp Hk Hr Hq HQ. unfold new_root. apply runs_bind. eapply runs_new_page; [exact Hi|done|].
  intros self1 g q' Hq' Hg Hi1. apply runs_bind. eapply runs_page_id; [exact Hi1|apply pin_refs|].
  apply runs_bind, runs_gets, runs_bind, runs_gets, runs_bind, runs_gets.
  rewrite (idx_schema _ _ _ _ _ _ _ _ Hi1), (idx_internal _ _ _ _ _ _ _ _ Hi1), (idx_root _ _ _ _ _ _ _ _ Hi1).
  destruct (params_empty _ _ _ _ params) as (e & He & Hek).
  destruct (root_page ks imax lmax room params e root sep q He Hek Hk Hr Hq) as (p1 & p2 & Hp1 & Hp2 & Hint).
  apply runs_bind. eapply runs_lift; [exact He|]. apply runs_bind. eapply runs_lift; [exact Hp1|].
  apply runs_bind. eapply runs_lift; [exact Hp2|].
  pose proof (internal_is_full ks imax room _ _ Hint) as Hf. pose proof (params_internal _ _ _ _ params).
  rewrite bool_decide_eq_false_2 in Hf by (simpl; lia).
  destruct (write_internal ks imax lmax room _ _ params Hint Hf) as (bytes & Henc & Hlen & _).
  apply runs_bind. eapply runs_set_data; [exact Hi1|apply pin_refs|exact Henc|done|].
  intros self2 Hi2. rewrite pin_write in Hi2. apply runs_bind. exists (set_root q' self2), tt. split; [done|].
  apply runs_ret. apply (HQ _ g q' e bytes p2); [done..| |done]. destruct Hi2. by split.
Qed.

Lemma unpin_swap f g p q bytes st :
  PageStore.refs st !! f = None → PageStore.refs (pin f p st) !! g = None →
  unpin f (pin g q (with_page q bytes (pin f p st))) = pin g q (with_page q bytes st) ∧
  PageStore.refs st !! g = None ∧ PageStore.refs (pin g q (with_page q bytes (pin f p st))) !! f = Some (p, 1).
Proof.
  intros Hf Hg. change (with_page q bytes (pin f p st)) with (pin f p (with_page q bytes st)).
  destruct (unpin_below f g p q (with_page q bytes st) Hf Hg) as [-> Hg']. split_and!; [done..|].
  simpl in *. apply lookup_insert_None in Hg as [_ Hne]. rewrite lookup_insert_ne by done. apply lookup_insert_eq.
Qed.

Lemma last_path p l k r z : last (path (Step p l k r :: z)) = Some p ∧ removelast (path (Step p l k r :: z)) = path z.
Proof. unfold path. rewrite fmap_cons, reverse_cons. split; [apply last_snoc|apply removelast_last]. Qed.

(** The first part of a round: [split], and the write of the lower half. *)
Lemma runs_split_write {A} (m : BPlusTreePage.t → InternalKV → SR (BPlusTreeIndex.t D) A)
    self root st n b f t tp h next lo hi z (Q : A → BPlusTreeIndex.t D → Prop) :
  idx self root (pin f (BTree.root t) st) (S n) (S (b + h)) → PageStore.refs st !! f = None → spare_frames 3 st →
  placed st h next lo hi t tp z → BPlusTreePage.is_full tp = true → (h ≤ TREE_FUEL)%nat →
  (∀ self' q b1 b2 tp1 t1 t2 sep, PageStore.pages st !! q = None → PageStore.free_page st q → unsigned_ok 32 q →
    halves ks imax lmax room (<[q := b1]> (PageStore.pages st)) h next lo hi t q tp1 t1 t2 sep →
    page_shows (PageStore.pages (with_page (BTree.root t) b2 (with_page q b1 st))) (BTree.root t) tp1 →
    idx self' root (pin f (BTree.root t) (with_page (BTree.root t) b2 (with_page q b1 st))) n b →
    runs (m tp1 (sep, q)) self' Q) →
  runs ('(x, kv) ← split tp; _ ← set_data f (BPlusTreePageCodec.encode x); m x kv) self Q.
Proof.
  intros Hi Hf Hsp Hpl Hfull Hh HQ. destruct Hpl as [Ht Hz _ Hown]. apply own_app in Hown as [(Hin & Hnd & Hfree) _].
  destruct (zipper_bounds ks imax lmax room _ _ _ _ _ _ _ _ Hz) as [Hlo Hhi].
  apply runs_bind. eapply runs_split; [exact Hi|exact Hf|exact Hsp|exact Ht|exact Hfull|exact Hlo|exact Hhi|done..|].
  intros self1 q b1 tp1 t1 t2 sep Hq Hqu Hi1 Hh1.
  destruct (halves_left _ _ _ _ _ _ _ _ _ _ _ _ _ _ _ Hh1) as [Ht1 Hf1].
  destruct (write_page ks imax lmax room _ _ _ _ _ _ _ params Ht1 Hf1) as (b2 & He & Hlen & Hshows).
  apply runs_bind. eapply runs_set_data; [exact Hi1|apply pin_refs|exact He|done|]. intros self2 Hi2.
  apply (HQ self2 q b1 b2 tp1 t1 t2 sep); [done| |done|done| |exact Hi2].
  - intros g c Hg. apply (idx_fresh _ _ _ _ _ q) in Hi; [|done]. apply (Hi g c). simpl.
    rewrite lookup_insert_ne; [done|]. intros <-. congruence.
  - apply Hshows. simpl. apply lookup_insert_eq.
Qed.

(** The loop ends: with every round the way gets shorter, and a new root is not full. *)
(** A full root is split under a new root. *)
Lemma runs_split_root fuel self root st n b f t tp h next lo hi :
  idx self root (pin f (BTree.root t) st) (2 + n) (b + 40) →
  root = BTree.root t → PageStore.refs st !! f = None → spare_frames 3 st →
  placed st h next lo hi t tp [] → (h ≤ 32)%nat → BPlusTreePage.is_full tp = true →
  runs (insert_loop (S fuel) f tp []) self (λ _, inserted st n b (page_ids t ++ []) (contents t ++ [])).
Proof.
  intros Hi Hroot Hf Hsp Hpl Hh Hfull. cbn [insert_loop]. rewrite Hfull. apply runs_bind, runs_guarding.
  assert (1 + n = S n)%nat as E by lia. apply (idx_fewer _ _ _ _ _ _ _ _ (S (S b + h))) in Hi; [|lia].
  eapply runs_split_write; [exact Hi|exact Hf|exact Hsp|exact Hpl|exact Hfull|unfold TREE_FUEL; lia|].
  intros self1 q b1 b2 tp1 t1 t2 sep Hq Hqfree Hqu Hh1 Hshow Hi1. cbn [plug] in Hroot. subst root.
  apply runs_bind. eapply runs_page_id; [exact Hi1|apply pin_refs|]. apply runs_bind, runs_gets.
  rewrite (idx_root _ _ _ _ _ _ _ _ Hi1). change (last (path [])) with (@None Z). cbn iota. rewrite Z.eqb_refl.
  apply runs_bind. eapply runs_new_root; [exact Hi1|by apply pin_spare; [unfold spare_frames in *; simpl; lia|]| | |done|].
  + by destruct Hh1 as [_ _ _ [? _] _ _].
  + eapply idx_page; [exact Hi|]. destruct Hpl as [_ _ _ Hown]. apply own_app in Hown as [(Hin & _) _].
    destruct t; by apply Forall_cons in Hin as [? _].
  + intros self2 g q' e b3 ip Hq' Hg Hi2 Hint. apply runs_ret.
    destruct (unpin_swap f g (BTree.root t) q' b3 (with_page (BTree.root t) b2 (with_page q b1 st)) Hf Hg) as (Hun & Hg' & Hfg).
    apply runs_bind. eapply runs_drop; [exact Hi2|exact Hfg|]. intros self3 Hi3.
    rewrite Hun in Hi3.
    assert (PageStore.free_page (with_page (BTree.root t) b2 (with_page q b1 st)) q') as Hqfree'.
    { intros g' c Hg''. apply (idx_fresh _ _ _ _ _ q') in Hi1; [|done]. apply (Hi1 g' c). simpl in *.
      rewrite lookup_insert_ne; [done|]. intros <-. congruence. }
    pose proof (placed_root _ _ _ _ _ _ _ _ _ _ _ _ _ _ e q' b3 ip Hpl Hq Hqfree Hh1 Hshow Hq' Hqfree' Hint) as Hpl'.
    eapply runs_weaken; [eapply (runs_insert_end fuel self3 _ _ _ _ _ (Node q' [(e, t1); (sep, t2)]) _ _ _ _ _ []); [exact Hi3|done|done|exact Hpl'|]|].
    { eapply internal_not_full; [exact Hint|]. pose proof (params_internal _ _ _ _ params). simpl. lia. }
    intros a self4 Hins. pose proof (halves_pages _ _ _ _ _ _ _ _ _ _ _ Hh1) as Hpages.
    apply (inserted_halves (BTree.root t) q b1 b2 st _ _ _ (page_ids t1 ++ page_ids t2)); [done|apply elem_of_app; left; apply root_in| |].
    { intros x. rewrite Hpages, elem_of_cons, elem_of_app. tauto. }
    apply (inserted_after q' b3 _ _ _ _ (page_ids (Node q' [(e, t1); (sep, t2)]) ++ [])); [by right| |].
    { intros x. rewrite app_nil_r. change (page_ids (Node q' [(e, t1); (sep, t2)])) with (q' :: page_ids t1 ++ page_ids t2 ++ []).
      rewrite app_nil_r. by rewrite elem_of_cons. }
    eapply inserted_weaken; [done|done| |exact Hins].
    destruct (halves_contents _ _ _ _ _ _ _ _ _ _ _ _ _ _ _ Hh1) as [-> _]. cbn. by rewrite !app_nil_r.
Qed.

(** A full page below is split, and the loop goes on with its parent. *)
Lemma runs_split_below fuel self root st n b f t tp h next lo hi pp l k r z :
  (∀ self root st n b f t tp h next lo hi,
    idx self root (pin f (BTree.root t) st) (length z + 2 + n) (b + 40 * S (length z)) →
    root = BTree.root (plug z t) → PageStore.refs st !! f = None → spare_frames 3 st →
    placed st h next lo hi t tp z → (h + length z ≤ 32)%nat →
    runs (insert_loop fuel f tp (path z)) self (λ _, inserted st n b (page_ids t ++ zipper_ids z) (contents t ++ zipper_entries z))) →
  idx self root (pin f (BTree.root t) st) (S (length z) + 2 + n) (b + 40 * S (S (length z))) →
  root = BTree.root (plug (Step pp l k r :: z) t) → PageStore.refs st !! f = None → spare_frames 3 st →
  placed st h next lo hi t tp (Step pp l k r :: z) → (h + S (length z) ≤ 32)%nat → BPlusTreePage.is_full tp = true →
  runs (insert_loop (S fuel) f tp (path (Step pp l k r :: z))) self
    (λ _, inserted st n b (page_ids t ++ zipper_ids (Step pp l k r :: z)) (contents t ++ zipper_entries (Step pp l k r :: z))).
Proof.
  intros IH Hi Hroot Hf Hsp Hpl Hh Hfull. cbn [insert_loop]. rewrite Hfull. apply runs_bind, runs_guarding.
  apply (idx_fewer _ _ _ _ _ _ _ _ (S (S (b + 40 * S (length z)) + h))) in Hi; [|lia].
  eapply runs_split_write; [exact Hi|exact Hf|exact Hsp|exact Hpl|exact Hfull|unfold TREE_FUEL; lia|].
  intros self1 q b1 b2 tp1 t1 t2 sep Hq Hqfree Hqu Hh1 Hshow Hi1.
  apply runs_bind. eapply runs_page_id; [exact Hi1|apply pin_refs|]. apply runs_bind, runs_gets.
  destruct (last_path pp l k r z) as [-> ->]. cbn iota.
  destruct (placed_parent _ _ _ _ _ _ _ _ _ _ _ _ _ b1 b2 _ _ _ _ Hpl Hq Hqfree Hqu Hh1 Hshow)
    as (ip & ip' & next' & lo' & hi' & Hpp & Hins & Hpl').
  apply runs_bind. eapply runs_fetch; [exact Hi1|exact Hpp| |by apply pin_spare; [unfold spare_frames in *; simpl; lia|]|].
  { destruct Hpl as [_ _ _ (_ & Hnd & Hfree)]. assert (BTree.root t ∈ page_ids t) as Hrt by apply root_in.
    change (zipper_ids (Step pp l k r :: z)) with (pp :: (ids l ++ ids r) ++ zipper_ids z) in *.
    apply pin_free; [|].
    - intros Heq. apply NoDup_app in Hnd as (_ & Hdis & _). apply (Hdis (BTree.root t) Hrt). rewrite Heq. by left.
    - apply Forall_app in Hfree as [_ Hfree]. by apply Forall_cons in Hfree as [? _]. }
  intros self2 g Hg Hi2. apply runs_bind. eapply runs_lift; [cbn; by rewrite Hins|]. apply runs_ret.
  destruct (unpin_below f g (BTree.root t) pp (with_page (BTree.root t) b2 (with_page q b1 st)) Hf Hg) as [Hun Hg'].
  apply runs_bind. eapply runs_drop; [exact Hi2| |].
  { simpl in Hg. apply lookup_insert_None in Hg as [_ Hne]. simpl. rewrite lookup_insert_ne by done. apply lookup_insert_eq. }
  intros self3 Hi3. rewrite Hun in Hi3.
  eapply runs_weaken; [eapply (IH self3 _ _ _ _ _ (Node pp (l ++ (k, t1) :: (sep, t2) :: r))); [exact Hi3| |done|done|exact Hpl'|lia]|].
  { rewrite Hroot. cbn [plug]. by apply plug_root. }
  intros a self4 Hins'. pose proof (halves_pages _ _ _ _ _ _ _ _ _ _ _ Hh1) as Hpages.
  apply (inserted_halves (BTree.root t) q b1 b2 st _ _ _ (page_ids (Node pp (l ++ (k, t1) :: (sep, t2) :: r)) ++ zipper_ids z));
    [done|apply elem_of_app; left; apply root_in| |].
  { intros x. rewrite parent_pages, Hpages. by intros ?%elem_of_cons. }
  eapply inserted_weaken; [done|done| |exact Hins'].
  destruct (halves_contents _ _ _ _ _ _ _ _ _ _ _ _ _ _ _ Hh1) as [-> _].
  change (contents (Node pp (l ++ (k, t1) :: (sep, t2) :: r))) with (entries (l ++ (k, t1) :: (sep, t2) :: r)).
  change (zipper_entries (Step pp l k r :: z)) with ((entries l ++ entries r) ++ zipper_entries z).
  rewrite entries_app, !entries_cons. cbn [snd]. solve_Permutation.
Qed.

Lemma runs_insert_loop z : ∀ fuel self root st n b f t tp h next lo hi,
  idx self root (pin f (BTree.root t) st) (length z + 2 + n) (b + 40 * S (length z)) →
  root = BTree.root (plug z t) → PageStore.refs st !! f = None → spare_frames 3 st →
  placed st h next lo hi t tp z → (h + length z ≤ 32)%nat → (length z < fuel)%nat →
  runs (insert_loop fuel f tp (path z)) self (λ _, inserted st n b (page_ids t ++ zipper_ids z) (contents t ++ zipper_entries z)).
Proof.
  induction z as [|[pp l k r] z IH]; intros fuel self root st n b f t tp h next lo hi Hi Hroot Hf Hsp Hpl Hh Hfuel;
    (destruct (BPlusTreePage.is_full tp) eqn:Hfull;
     [|eapply runs_weaken; [eapply runs_insert_end; [exact Hi|exact Hf|exact Hroot|exact Hpl|exact Hfull]|];
       intros a self' Hm; eapply inserted_weaken; [..|exact Hm]; [lia|lia|done]]);
    (destruct fuel as [|fuel]; [cbn [length] in Hfuel; lia|]); cbn [length] in *.
  - eapply runs_split_root; [exact Hi|done..|exact Hpl|lia|done].
  - eapply runs_split_below; [|exact Hi|done..|exact Hpl|lia|done].
    intros. eapply IH; [done..|lia].
Qed.

(** ** Insertion *)
Lemma found_placed st h t k p kvs lp next lo hi z lp' kvs' rid :
  rooted st h t → found_leaf (PageStore.pages st) t k p kvs lp next lo hi z →
  leaf_is ks lmax room lp' next kvs' → kvs' ≡ₚ (k, rid) :: kvs →
  placed st 0 next lo hi (BTree.Leaf p kvs') (BPlusTreePage.Leaf lp') z.
Proof.
  intros [Ht Hnd Hfree] [_ _ Hb Hz Hpl Hk _] Hl Hp. split; [|done| |].
  - split_and!; [done..|]. unfold between. rewrite Hp. by constructor.
  - cbn. intros ->. by apply Permutation_nil_cons in Hp.
  - apply (own_perm _ (page_ids t)); [by rewrite <- Hpl, plug_ids|]. split_and!; [by eapply tree_pages|done..].
Qed.

Lemma runs_start_new_tree k rid self st n b :
  idx self INVALID_PAGE_ID st (S n) (S b) → spare_frames 1 st → key_ok ks room k → rid_ok rid →
  runs (start_new_tree k rid) self (λ _, inserted st n b [] [(k, rid)]).
Proof.
  intros Hi Hsp Hk Hr. unfold start_new_tree. apply runs_bind. eapply runs_new_page; [exact Hi|done|].
  intros self1 g q Hq Hg Hi1. apply runs_holding, runs_bind. eapply runs_page_id; [exact Hi1|apply pin_refs|].
  apply runs_bind, runs_gets, runs_bind, runs_gets. rewrite (idx_schema _ _ _ _ _ _ _ _ Hi1), (idx_leaf _ _ _ _ _ _ _ _ Hi1).
  pose proof (leaf_is_new ks imax lmax room params) as Hnew. pose proof (params_leaf _ _ _ _ params).
  destruct (leaf_is_insert ks lmax room _ _ _ k rid Hnew) as (lp & kvs & Hins & Hl & Hp); [simpl; lia|done..|apply not_elem_of_nil|].
  apply runs_bind. eapply runs_lift; [exact Hins|].
  pose proof (leaf_is_full ks lmax room _ _ _ Hl) as Hf. rewrite bool_decide_eq_false_2 in Hf by (rewrite Hp; simpl; lia).
  destruct (write_leaf ks imax lmax room _ _ _ params Hl Hf) as (bytes & He & Hlen & Hshows).
  apply runs_bind. eapply runs_set_data; [exact Hi1|apply pin_refs|exact He|done|]. intros self2 Hi2. rewrite pin_write in Hi2.
  exists (set_root q self2), tt. split; [done|].
  assert (idx (set_root q self2) q (pin g q (with_page q bytes st)) n b) as Hi3 by (destruct Hi2; by split).
  eapply runs_drop; [exact Hi3|apply pin_refs|]. intros self4 Hi4. rewrite unpin_pin in Hi4 by done.
  exists (<[q := bytes]> (PageStore.pages st)), (BTree.Leaf q kvs), 0%nat, n, b. split_and!; [done|done|exact Hi4| |done|by apply grows_write; right]. split.
  - apply tree_at_top. exists (BPlusTreePage.Leaf lp). split; [apply Hshows, lookup_insert_eq|]. split; [done|].
    split_and!; [done..|]. unfold between. rewrite Hp. by apply Forall_cons.
  - apply NoDup_singleton.
  - constructor; [|by constructor]. intros f c Hfc. apply (idx_fresh _ _ _ _ _ q) in Hi; [|done]. by apply (Hi f c).
Qed.

Lemma runs_insert k rid self root st n b ps kvs :
  idx self root st (40 + n) (b + 2000) → holds st root ps kvs → spare_frames 3 st →
  key_ok ks room k → rid_ok rid → k ∉ kvs.*1 →
  runs (insert k rid) self (λ _, inserted st n b ps ((k, rid) :: kvs)).
Proof.
  intros Hi Hh Hsp Hk Hr Hn. unfold insert. apply runs_bind, runs_gets. unfold is_empty.
  rewrite (idx_root _ _ _ _ _ _ _ _ Hi). destruct Hh as [(-> & -> & ->)|(h & t & Ht & -> & <- & <-)].
  { rewrite Z.eqb_refl. apply (idx_fewer _ _ _ _ _ _ _ _ (S (b + 1999))) in Hi; [|lia].
    eapply runs_weaken; [apply (runs_start_new_tree k rid self st (39 + n) (b + 1999)); [exact Hi|unfold spare_frames in *; lia|done..]|].
    intros a self' Hm; eapply inserted_weaken; [..|exact Hm]; [lia|lia|done]. }
  pose proof (rooted_height _ _ _ _ _ _ _ _ _ _ _ Hi Ht) as Hheight.
  rewrite (rooted_not_empty _ _ _ _ _ _ _ _ _ _ _ Hi Ht). apply runs_bind.
  apply (idx_fewer _ _ _ _ _ _ _ _ (b + 40 * S h + 40)) in Hi; [|lia].
  eapply runs_find_leaf; [exact Hi|exact Ht|unfold spare_frames in *; lia|apply Hk|].
  intros self1 f p lkvs lp next lo hi z Hf Hi1 Hfound Hlen.
  destruct (found_is _ _ _ _ _ _ _ _ _ _ _ _ _ _ Hfound) as [Hl Hfull]. rewrite (leaf_is_full ks lmax room _ _ _ Hl) in Hfull.
  apply bool_decide_eq_false_1 in Hfull.
  apply runs_bind, runs_guarding. eapply runs_decode_leaf; [exact Hi1|apply pin_refs|by apply Hfound|].
  assert (contents t ≡ₚ lkvs ++ zipper_entries z) as Hcont
    by (rewrite <- (found_whole _ _ _ _ _ _ _ _ _ _ _ _ _ _ Hfound); apply plug_contents).
  destruct (leaf_is_insert ks lmax room lp next lkvs k rid Hl) as (lp' & kvs' & Hins & Hl' & Hp); [lia|done..| |].
  { intros Hin. apply Hn. rewrite Hcont, fmap_app. apply elem_of_app. by left. }
  apply runs_bind. eapply runs_lift; [exact Hins|]. unfold path at 1. rewrite length_reverse, length_fmap.
  assert (idx self1 (BTree.root t) (pin f p st) (length z + 2 + (38 - h + n)) (b + 40 * S (length z))) as Hi2.
  { rewrite Hlen. by replace (h + 2 + (38 - h + n))%nat with (40 + n)%nat by lia. }
  eapply runs_weaken; [eapply (runs_insert_loop z _ self1 _ _ _ _ _ (BTree.Leaf p kvs')); [exact Hi2| |done|done|by eapply found_placed|lia|lia]|].
  { rewrite <- (found_whole _ _ _ _ _ _ _ _ _ _ _ _ _ _ Hfound). by apply plug_root. }
  intros a self2 Hdone. assert (page_ids (BTree.Leaf p kvs') ++ zipper_ids z ≡ₚ page_ids t) as Hpages
    by (rewrite <- (found_whole _ _ _ _ _ _ _ _ _ _ _ _ _ _ Hfound), plug_ids; done).
  eapply inserted_weaken; [| | |eapply inserted_same; [|exact Hdone]]; [lia|done| |intros x; by rewrite Hpages].
  rewrite Hcont. cbn. by rewrite Hp.
Qed.

End index.
End InsertFacts.
