(* ===== verification/IndexScan.v ===== *)
(** * IndexScan: the range iterator of the B+ tree index

    [TreeIndexIterator] of [Index] against the list of entries: the leaves of a tree are
    linked in the order of their keys ([leaf_chain]), the iterator starts at the first
    entry at its start bound and goes on along the links. *)
From S2P Require Import Prelude CommonCodec Schema TupleCodec TablePage IndexPage IndexPageCodec.
From S2P Require Import DiskPages DiskManager Replacer BufferPool PageStore TableHeap Index Tree TreePages IndexSteps.
Local Open Scope Z_scope.

(** ** What a range scan lists *)
Module IndexRange.

(** Calls of [next] until it answers [None], at most [fuel] of them. *)
Fixpoint collect {D} `{Disk D} (fuel : nat) : SR (TreeIndexIterator.t D) (option (list RecordId.t)) :=
  match fuel with
  | O => ret None
  | S fuel' =>
      o ← TreeIndexIterator.next;
      match o with
      | None => ret (Some [])
      | Some rid => l ← collect fuel'; ret (match l with Some l => Some (rid :: l) | None => None end)
      end
  end.

Definition at_start (start : Bound Tuple.t) (kv : LeafKV) : bool :=
  match start with
  | Unbounded => true
  | Included k => match Tuple.partial_cmp kv.1 k with Some Lt => false | _ => true end
  | Excluded k => match Tuple.partial_cmp kv.1 k with Some Gt => true | _ => false end
  end.

Definition at_end (end_ : Bound Tuple.t) (kv : LeafKV) : bool :=
  match end_ with
  | Unbounded => true
  | Included k => TreeIndexIterator.before true kv.1 k
  | Excluded k => TreeIndexIterator.before false kv.1 k
  end.

(** The entries between the bounds. *)
Definition range (start end_ : Bound Tuple.t) (kvs : list LeafKV) : list LeafKV :=
  List.filter (λ kv, at_start start kv && at_end end_ kv) kvs.

(** What the iterator gives: from the start bound on, the first entry, which it does not
    compare with the end bound, and of the others those that are not past it. *)
Definition listed (start end_ : Bound Tuple.t) (kvs : list LeafKV) : list LeafKV :=
  match List.filter (at_start start) kvs with
  | [] => []
  | kv :: rest => kv :: List.filter (at_end end_) rest
  end.

Definition bound_is (ks : Schema.t) (x : Bound Tuple.t) : Prop :=
  match x with Unbounded => True | Included k | Excluded k => Tuple.ok ks k end.

End IndexRange.

Module RangeFacts.
Import BPlusTreeIndex BTree TreeFacts KeyArray KeyArrayFacts SchemaFacts LeafFacts InternalFacts IndexPageCodecFacts TableHeapFacts.
Import IndexFacts IndexRange.

Lemma filter_none {A} (f : A → bool) l : (∀ x, x ∈ l → f x = false) → List.filter f l = [].
Proof.
  induction l as [|x l IH]; intros Hf; [done|]. simpl. rewrite (Hf x) by (by left). apply IH. intros y Hy. apply Hf. by right.
Qed.

Lemma filter_all {A} (f : A → bool) l : (∀ x, x ∈ l → f x = true) → List.filter f l = l.
Proof.
  induction l as [|x l IH]; intros Hf; [done|]. simpl. rewrite (Hf x) by (by left). f_equal. apply IH. intros y Hy. apply Hf. by right.
Qed.

Section range.
Context (ks : Schema.t) (imax lmax : Z) (room : nat).
Notation tree_at := (tree_at ks imax lmax room).
Notation zipper_at := (zipper_at ks imax lmax room).

(** *** Bounds on sorted entries *)
Lemma at_start_cmp included k kv :
  Tuple.ok ks k → Tuple.ok ks kv.1 →
  at_start (if included : bool then Included k else Excluded k) kv
  = match tuple_cmp kv.1 k with Lt => false | Eq => included | Gt => true end.
Proof. intros Hk Hkv. destruct included; simpl; rewrite (tuple_partial_cmp_Some ks) by done; by destruct (tuple_cmp kv.1 k). Qed.

Lemma at_start_above included k kv :
  Tuple.ok ks k → Tuple.ok ks kv.1 → klt k kv.1 → at_start (if included : bool then Included k else Excluded k) kv = true.
Proof.
  intros Hk Hkv Hlt. rewrite at_start_cmp by done. apply (cmp_Gt_Lt _ _ (tuple_cmp_laws ks)) in Hlt; [|done..]. by rewrite Hlt.
Qed.

Lemma at_start_below included k kv :
  Tuple.ok ks k → Tuple.ok ks kv.1 → klt kv.1 k → at_start (if included : bool then Included k else Excluded k) kv = false.
Proof. intros Hk Hkv Hlt. rewrite at_start_cmp by done. unfold klt in Hlt. by rewrite Hlt. Qed.

(** Part of sorted entries. *)
Lemma filter_ordered (f : LeafKV → bool) l :
  keys_ok ks l → sorted_lt l →
  keys_ok ks (List.filter f l) ∧ sorted_lt (List.filter f l) ∧ (length (List.filter f l) ≤ length l)%nat.
Proof.
  intros Hk Hsort. induction Hsort as [|x l _ IH Hx]; [split_and!; [constructor|constructor|simpl; lia]|].
  apply Forall_cons in Hk as [Hxok Hk]. destruct (IH Hk) as (IH1 & IH2 & IH3). cbn [List.filter].
  destruct (f x); [|simpl; split_and!; [done..|lia]].
  split_and!; [by constructor| |simpl; lia]. constructor; [done|]. rewrite Forall_forall in Hx |- *.
  intros y Hy. apply Hx. apply list_elem_of_In, List.filter_In in Hy as [Hy _]. by apply list_elem_of_In.
Qed.

(** Past the end bound, always past it. *)
Lemma at_end_past end_ kv l :
  bound_is ks end_ → keys_ok ks (kv :: l) → sorted_lt (kv :: l) → at_end end_ kv = false → List.filter (at_end end_) l = [].
Proof.
  intros He Hk Hs Hkv. apply filter_none. intros x Hx. apply Forall_cons in Hk as [Hkv' Hk]. apply StronglySorted_inv in Hs as [_ Hs].
  unfold keys_ok in Hk. rewrite Forall_forall in Hk, Hs. specialize (Hk x Hx). specialize (Hs x Hx).
  destruct end_ as [k|k|]; simpl in *; [| |done]; unfold TreeIndexIterator.before in *;
    rewrite (tuple_partial_cmp_Some ks) in Hkv |- * by done;
    (assert (tuple_cmp x.1 k = Gt) as ->; [|done]); apply (cmp_Gt_Lt _ _ (tuple_cmp_laws ks)); [done..| |done|done|];
    apply (cmp_le_lt_trans _ _ (tuple_cmp_laws ks) k kv.1 x.1); try done;
    rewrite (cmp_opp _ _ (tuple_cmp_laws ks) kv.1 k) by done; by destruct (tuple_cmp kv.1 k).
Qed.

Lemma filter_filter {A} (f g : A → bool) l :
  List.filter g (List.filter f l) = List.filter (λ x, f x && g x) l.
Proof. induction l as [|x l IH]; [done|]. simpl. destruct (f x); simpl; [destruct (g x); by rewrite IH|done]. Qed.

(** The iterator gives the entries between the bounds, if there is one; otherwise the
    first entry at the start bound, if there is one. *)
Lemma listed_range start end_ kvs :
  bound_is ks end_ → keys_ok ks kvs → sorted_lt kvs →
  (range start end_ kvs ≠ [] → listed start end_ kvs = range start end_ kvs) ∧
  (range start end_ kvs = [] → listed start end_ kvs = take 1 (List.filter (at_start start) kvs)).
Proof.
  intros He Hk Hs. unfold range, listed. rewrite <- filter_filter.
  destruct (filter_ordered (at_start start) kvs Hk Hs) as (Hk' & Hs' & _).
  destruct (List.filter (at_start start) kvs) as [|kv rest]; [done|]. cbn [List.filter].
  destruct (at_end end_ kv) eqn:Hkv; [done|]. by rewrite (at_end_past end_ kv rest).
Qed.

Lemma listed_ordered start end_ kvs : keys_ok ks kvs → sorted_lt kvs → sorted_lt (listed start end_ kvs).
Proof.
  intros Hk Hsort. unfold listed. destruct (filter_ordered (at_start start) _ Hk Hsort) as (Hk' & Hs' & _).
  destruct (List.filter (at_start start) kvs) as [|kv rest]; [constructor|].
  apply Forall_cons in Hk' as [_ Hk']. apply StronglySorted_inv in Hs' as [Hs' Hlt].
  destruct (filter_ordered (at_end end_) rest Hk' Hs') as (_ & Hs2 & _). constructor; [done|].
  rewrite Forall_forall in Hlt |- *. intros y [Hy _]%list_elem_of_In%List.filter_In. by apply Hlt, list_elem_of_In.
Qed.

Lemma Forall_listed (P : LeafKV → Prop) start end_ kvs : Forall P kvs → Forall P (listed start end_ kvs).
Proof.
  rewrite !Forall_forall. intros HP kv Hkv. apply HP. unfold listed in Hkv.
  assert (kv ∈ List.filter (at_start start) kvs) as [Hin _]%list_elem_of_In%List.filter_In; [|by apply list_elem_of_In].
  destruct (List.filter (at_start start) kvs) as [|kv' rest]; [done|].
  apply elem_of_cons in Hkv as [->|[Hin _]%list_elem_of_In%List.filter_In]; [by left|right; by apply list_elem_of_In].
Qed.

(** The entries of a tree are sorted. *)
Lemma holds_ordered st root ps kvs :
  holds ks imax lmax room st root ps kvs → keys_ok ks kvs ∧ sorted_lt kvs.
Proof.
  intros [(_ & _ & ->)|(h & t & Ht & _ & _ & <-)]; [by split; constructor|].
  by destruct (tree_ordered ks _ _ _ _ _ _ None None _ I I (rooted_tree _ _ _ _ _ _ _ Ht)) as (_ & ? & ?).
Qed.

(** The entries of a leaf from where [next_closest] points. *)
Lemma filter_drop {A} (f : A → bool) l i :
  (∀ j x, (j < i)%nat → l !! j = Some x → f x = false) → (∀ j x, (i ≤ j)%nat → l !! j = Some x → f x = true) →
  List.filter f l = drop i l.
Proof.
  revert i. induction l as [|x l IH]; intros i Hlo Hhi; [by rewrite drop_nil|].
  destruct i as [|i]; simpl.
  - rewrite (Hhi 0%nat x) by (done || lia). f_equal. rewrite (IH 0%nat); [by rewrite drop_0|lia|].
    intros j y _ Hy. by apply (Hhi (S j)); [lia|].
  - rewrite (Hlo 0%nat x) by (done || lia). apply IH.
    + intros j y Hj Hy. by apply (Hlo (S j)); [lia|].
    + intros j y Hj Hy. by apply (Hhi (S j)); [lia|].
Qed.

Lemma next_closest_filter lp included k :
  leaf_ok ks lp → Tuple.ok ks k → let kvs := BPlusTreeLeafPage.array lp in
  let f := at_start (if included : bool then Included k else Excluded k) in
  match BPlusTreeLeafPage.next_closest lp k included with
  | Some i => List.filter f kvs = drop i kvs ∧ (i < length kvs)%nat
  | None => List.filter f kvs = []
  end.
Proof.
  intros Hok Hk kvs f. pose proof (leaf_keys _ _ Hok) as Hkeys. fold kvs in Hkeys.
  assert (∀ j y, kvs !! j = Some y → klt y.1 k ∨ included = false ∧ y.1 = k → f y = false) as Hmiss.
  { intros j y Hy Hc. assert (Tuple.ok ks y.1) as Hyok by (eapply Forall_lookup_1 in Hkeys; [exact Hkeys|done]).
    destruct Hc as [Hlt|[-> <-]]; [by apply at_start_below|]. subst f. rewrite (at_start_cmp false) by done.
    by rewrite (cmp_refl _ _ (tuple_cmp_laws ks)). }
  unfold BPlusTreeLeafPage.next_closest. pose proof (next_closest_from_spec ks 0 kvs k included Hk Hkeys) as Hs.
  fold kvs. destruct (BPlusTreeLeafPage.next_closest_from 0 kvs k included) as [i|].
  - destruct Hs as (j & x & -> & Hx & Hhit & Hbefore). simpl. split; [|by eapply lookup_lt_Some].
    assert (f x = true) as Hfx.
    { assert (Tuple.ok ks x.1) as Hxok by (eapply Forall_lookup_1 in Hkeys; [exact Hkeys|done]).
      destruct Hhit as [Hlt|[-> <-]]; [by apply at_start_above|]. subst f. rewrite (at_start_cmp true) by done.
      by rewrite (cmp_refl _ _ (tuple_cmp_laws ks)). }
    apply filter_drop; [intros i y Hi Hy; apply (Hmiss i y Hy), (Hbefore i y Hi Hy)|].
    intros i y Hi Hy. destruct (decide (i = j)) as [-> |Hne]; [by simplify_eq|].
    assert (Tuple.ok ks x.1 ∧ Tuple.ok ks y.1) as [Hxok Hyok] by (split; eapply Forall_lookup_1 in Hkeys; done).
    assert (klt x.1 y.1) as Hxy by (apply (sorted_lookup (λ a b, klt a.1 b.1) kvs j i); [apply Hok|lia|done..]).
    apply at_start_above; [done..|]. destruct Hhit as [Hlt|[_ <-]]; [|done].
    apply (klt_trans ks k x.1 y.1); [done..|by apply klt_kle].
  - apply filter_none. intros y (i & Hi)%list_elem_of_lookup_1. by apply (Hmiss i y Hi), (Hs i).
Qed.

(** *** The links between the leaves *)
Definition usable st (p : Z) : Prop := PageStore.free_page st p ∧ p ≠ INVALID_PAGE_ID.

(** The leaves from page [p] on have the entries [kvs]. *)
Inductive leaf_chain st : Z → list LeafKV → Prop :=
  | chain_end : leaf_chain st INVALID_PAGE_ID []
  | chain_leaf p lp next kvs rest :
      page_shows ks (PageStore.pages st) p (BPlusTreePage.Leaf lp) → leaf_is ks lmax room lp next kvs → kvs ≠ [] →
      usable st p → leaf_chain st next rest → leaf_chain st p (kvs ++ rest).

Lemma forest_chain st h next lo hi cs rest :
  (∀ next lo hi t rest, tree_at (PageStore.pages st) h next lo hi t → contents t ≠ [] → Forall (usable st) (page_ids t) →
     leaf_chain st next rest → leaf_chain st (leftmost t) (contents t ++ rest)) →
  forest_at ks (tree_at (PageStore.pages st) h) next lo hi cs → Forall (usable st) (ids cs) → leaf_chain st next rest →
  ∃ k t cs', cs = (k, t) :: cs' ∧ leaf_chain st (leftmost t) (entries cs ++ rest).
Proof.
  intros HP. revert lo. induction cs as [|[k t] cs IH]; intros lo; [done|]. intros [Hne Hf] Hu Hrest.
  rewrite ids_cons in Hu. apply Forall_app in Hu as [Hu1 Hu2]. exists k, t, cs. split; [done|].
  rewrite entries_cons, <- app_assoc. destruct cs as [|[k' t'] cs]; [by eapply HP|].
  destruct Hf as (_ & Ht & Hf). destruct (IH _ Hf Hu2 Hrest) as (k2 & t2 & cs2 & [= <- <- <-] & Hc). by eapply HP.
Qed.

Lemma tree_chain st h next lo hi t rest :
  tree_at (PageStore.pages st) h next lo hi t → contents t ≠ [] → Forall (usable st) (page_ids t) →
  leaf_chain st next rest → leaf_chain st (leftmost t) (contents t ++ rest).
Proof.
  revert next lo hi t rest. induction h as [|h IH]; intros next lo hi t rest Ht Hne Hu Hrest;
    apply tree_at_top in Ht as (tp & Hp & _ & Ht); destruct t as [p kvs|p cs], tp as [ip|lp]; try (by destruct Ht).
  - destruct Ht as (_ & Hl & _). apply Forall_cons in Hu as [Hu _]. by eapply chain_leaf.
  - destruct Ht as (_ & _ & Hf). apply Forall_cons in Hu as [_ Hu].
    destruct (forest_chain st h next lo hi cs rest IH Hf Hu Hrest) as (k & t & cs' & -> & Hc). exact Hc.
Qed.

(** *** The entries before and after a subtree *)
Fixpoint entries_before (z : list step) : list LeafKV :=
  match z with [] => [] | Step _ l _ _ :: z => entries_before z ++ entries l end.
Fixpoint entries_after (z : list step) : list LeafKV :=
  match z with [] => [] | Step _ _ _ r :: z => entries r ++ entries_after z end.

Lemma plug_entries z t : contents (plug z t) = entries_before z ++ contents t ++ entries_after z.
Proof.
  revert t. induction z as [|[p l k r] z IH]; intros t; [by rewrite app_nil_r|]. cbn [plug]. rewrite IH.
  change (contents (Node p (l ++ (k, t) :: r))) with (entries (l ++ (k, t) :: r)). rewrite entries_app, entries_cons.
  cbn [snd entries_before entries_after]. by rewrite <- !app_assoc.
Qed.

Lemma zipper_sides m h q start next lo hi z x :
  zipper_at m h q start next lo hi z → Tuple.ok ks x → at_least lo x → under hi x →
  (∀ e, e ∈ entries_before z → klt e.1 x) ∧ (∀ e, e ∈ entries_after z → klt x e.1).
Proof.
  revert h q start next lo hi. induction z as [|[p l k r] z IH]; intros h q start next lo hi Hz Hx Hlo Hhi.
  { split; intros e He; by apply not_elem_of_nil in He. }
  destruct Hz as (ip & next' & lo' & hi' & _ & _ & _ & Hl & Hr & Hz).
  destruct (zipper_bounds _ _ _ _ _ _ _ _ _ _ _ _ Hz) as [Hlo' Hhi'].
  destruct (left_outside _ _ _ _ _ _ _ _ _ _ _ x Hl Hlo' Hx Hlo) as [Hlo1 Hbefore].
  destruct (right_outside _ _ _ _ _ _ _ _ _ _ _ x Hr Hhi' Hx Hhi) as [Hhi1 Hafter].
  destruct (IH _ _ _ _ _ _ Hz Hx Hlo1 Hhi1) as [IH1 IH2]. cbn [entries_before entries_after].
  split; intros e [He|He]%elem_of_app; auto.
Qed.

Lemma zipper_chain st h q start next lo hi z :
  zipper_at (PageStore.pages st) h q start next lo hi z → Forall (usable st) (zipper_ids z) → leaf_chain st next (entries_after z).
Proof.
  revert h q start next lo hi. induction z as [|[p l k r] z IH]; intros h q start next lo hi Hz Hu.
  { destruct Hz as (-> & _). constructor. }
  destruct Hz as (ip & next' & lo' & hi' & _ & _ & _ & _ & Hr & Hz).
  change (zipper_ids (Step p l k r :: z)) with ((p :: ids l ++ ids r) ++ zipper_ids z) in Hu.
  apply Forall_app in Hu as [Hu Huz]. apply Forall_cons in Hu as [_ Hu]. apply Forall_app in Hu as [_ Hur].
  specialize (IH _ _ _ _ _ _ Hz Huz). destruct r as [|[k2 t2] r]; [by destruct Hr as [_ ->]|].
  destruct Hr as (_ & Hf & _ & ->).
  destruct (forest_chain st h next' (Some k2) hi' _ (entries_after z) (tree_chain st h) Hf Hur IH) as (k3 & t3 & cs' & [= <- <- <-] & Hc).
  exact Hc.
Qed.
End range.

(** *** The iterator *)
Section iterator.
Context {D : Type} `{DiskLaws D}.
Context (ks : Schema.t) (imax lmax : Z) (room : nat).
Implicit Types (it : TreeIndexIterator.t D) (st : PageStore.t).
Notation tree_at := (tree_at ks imax lmax room).
Notation idx := (idx ks imax lmax).
Notation leaf_chain := (leaf_chain ks lmax room).

Lemma runs_on_index {A} (m : SR (BPlusTreeIndex.t D) A) it (Q : A → TreeIndexIterator.t D → Prop) :
  runs m (TreeIndexIterator.index it) (λ a x, Q a (TreeIndexIterator.set_index x it)) → runs (TreeIndexIterator.on_index m) it Q.
Proof. intros (x & a & Hm & HQ). exists (TreeIndexIterator.set_index x it), a. split; [|done]. unfold TreeIndexIterator.on_index. by rewrite Hm. Qed.

Lemma runs_iterator_holding {A} f (m : SR (TreeIndexIterator.t D) A) it (Q : A → TreeIndexIterator.t D → Prop) :
  runs m it (λ a it', runs (drop_ref f) (TreeIndexIterator.index it') (λ _ x, Q a (TreeIndexIterator.set_index x it'))) →
  runs (TreeIndexIterator.holding f m) it Q.
Proof.
  intros (it1 & a & Hm & Hd). apply (runs_on_index _ _ (λ _ it, Q a it)) in Hd as (it2 & [] & Hd & HQ).
  exists it2, a. split; [|done]. unfold TreeIndexIterator.holding. rewrite Hm. by rewrite (SR_bind_Ok _ _ _ _ _ Hd).
Qed.

Lemma page_shows_fun m p tp tp' : page_shows ks m p tp → page_shows ks m p tp' → tp = tp'.
Proof. intros (bytes & Hm & Hd & _) (bytes' & Hm' & Hd' & _). congruence. Qed.

Lemma runs_first_leaf fuel self root st n b h t tp next lo hi (Q : BPlusTreeLeafPage.t → BPlusTreeIndex.t D → Prop) :
  idx self root st n (b + h) → page_shows ks (PageStore.pages st) (BTree.root t) tp →
  top_is ks imax lmax room (PageStore.pages st) h next lo hi t tp → (h ≤ fuel)%nat →
  Forall (PageStore.free_page st) (tl (page_ids t)) → spare_frames 1 st →
  (∀ self' lp, page_shows ks (PageStore.pages st) (leftmost t) (BPlusTreePage.Leaf lp) → idx self' root st n b → Q lp self') →
  runs (first_leaf_loop fuel tp) self Q.
Proof.
  revert fuel self next lo hi t tp Q.
  induction h as [|h IH]; intros fuel self next lo hi [p kvs|p cs] [ip|lp] Q Hi Hp Ht Hfuel Hfree Hsp HQ; try (by destruct Ht).
  - rewrite Nat.add_0_r in Hi. destruct fuel; apply runs_ret; by apply HQ.
  - destruct Ht as (_ & ((first & rest & Hlinks & Hok) & _) & Hf). destruct fuel as [|fuel]; [lia|].
    destruct cs as [|[k1 t1] cs]; [done|]. injection Hlinks as <- <-.
    destruct (forest_elem ks _ _ _ _ _ (k1, t1) Hf ltac:(by left)) as (next1 & lo1 & hi1 & Ht1). cbn [snd] in Ht1.
    apply tree_at_top in Ht1 as (tp1 & Hp1 & _ & Ht1).
    change (tl (page_ids (Node p ((k1, t1) :: cs)))) with (page_ids t1 ++ ids cs) in Hfree.
    apply Forall_app in Hfree as [Hfree _].
    assert (page_ids t1 = BTree.root t1 :: tl (page_ids t1)) as Hids by (by destruct t1).
    rewrite Hids in Hfree. apply Forall_cons in Hfree as [Hroot Hfree].
    cbn [first_leaf_loop]. apply runs_bind.
    eapply runs_lift. { unfold BPlusTreeInternalPage.value_at. by rewrite (internal_array _ _ _ _ Hok). }
    apply runs_bind. rewrite Nat.add_succ_r in Hi. eapply runs_read; [exact Hi|exact Hp1|done..|].
    intros self1 Hi1. apply (IH fuel self1 next1 lo1 hi1 t1 tp1); [done..|lia|done|done|]. done.
Qed.

(** The iterator is at an entry, with the entries [kvs] after it. *)
Record scanning it (start end_ : Bound Tuple.t) root st n b (kvs : list LeafKV) : Prop := Scanning {
  scan_bounds : TreeIndexIterator.start_bound it = start ∧ TreeIndexIterator.end_bound it = end_;
  scan_index : idx (TreeIndexIterator.index it) root st n (b + length kvs);
  scan_started : TreeIndexIterator.started it = true;
  scan_leaf : ∃ next leaf_kvs rest, leaf_is ks lmax room (TreeIndexIterator.leaf_page it) next leaf_kvs ∧
    (TreeIndexIterator.cursor it < length leaf_kvs)%nat ∧
    kvs = drop (S (TreeIndexIterator.cursor it)) leaf_kvs ++ rest ∧ leaf_chain st next rest;
}.

(** The entry the iterator is at. *)
Lemma runs_current it next kvs i kv (Q : LeafKV → TreeIndexIterator.t D → Prop) :
  leaf_is ks lmax room (TreeIndexIterator.leaf_page it) next kvs → TreeIndexIterator.cursor it = i → kvs !! i = Some kv →
  Q kv it → runs TreeIndexIterator.current it Q.
Proof.
  intros (_ & Ha & _) Hc Hkv HQ. unfold TreeIndexIterator.current. apply runs_bind, runs_gets, runs_bind, runs_gets.
  eapply runs_lift; [|done]. rewrite Hc, Ha. unfold Prelude.index. by rewrite Hkv.
Qed.

(** What the calls that go forward end with. *)
Definition reached it start end_ root st n b kvs (o : option LeafKV) : Prop :=
  match kvs with
  | [] => o = None ∧ idx (TreeIndexIterator.index it) root st n b
  | kv :: rest => o = Some kv ∧ scanning it start end_ root st n b rest
  end.

Lemma runs_next_leaf it start end_ root st n b next lp kvs rest :
  TreeIndexIterator.start_bound it = start → TreeIndexIterator.end_bound it = end_ → TreeIndexIterator.started it = true →
  TreeIndexIterator.leaf_page it = lp → leaf_is ks lmax room lp next kvs → leaf_chain st next rest → spare_frames 1 st →
  idx (TreeIndexIterator.index it) root st n (b + length rest) →
  runs TreeIndexIterator.next_leaf it (λ o it', reached it' start end_ root st n b rest o).
Proof.
  intros Hs He Hst Hlp Hl Hc Hsp Hi. unfold TreeIndexIterator.next_leaf, TreeIndexIterator.load_next_leaf_page.
  apply runs_bind, runs_bind, runs_gets. rewrite Hlp. destruct Hl as (_ & _ & -> & _).
  destruct Hc as [|p lp' next' kvs' rest' Hp Hl' Hne [Hfree Hpn] Hc].
  - cbn. apply runs_ret, runs_ret. split; [done|]. by rewrite Nat.add_0_r in Hi.
  - apply Z.eqb_neq in Hpn. rewrite Hpn. destruct kvs' as [|kv kvs']; [done|]. clear Hne.
    replace (b + length ((kv :: kvs') ++ rest'))%nat with (S (b + length (kvs' ++ rest'))) in Hi by (simpl; lia).
    apply runs_bind, runs_on_index. eapply runs_read_leaf; [exact Hi|exact Hp|done..|]. intros self1 Hi1.
    apply runs_bind, runs_modify, runs_ret, runs_bind, runs_modify, runs_bind.
    eapply (runs_current _ next' (kv :: kvs') 0 kv); [exact Hl'|done..|]. apply runs_ret.
    split; [done|]. split; [done| |done|].
    + exact Hi1.
    + exists next', (kv :: kvs'), rest'. split_and!; [done|simpl; lia|done|done].
Qed.

Lemma runs_advance it start end_ root st n b kvs :
  scanning it start end_ root st n b kvs → spare_frames 1 st →
  runs TreeIndexIterator.advance it (λ o it', reached it' start end_ root st n b kvs o).
Proof.
  intros [[Hs He] Hi Hst (next & lkvs & rest & Hl & Hc & -> & Hch)] Hsp. unfold TreeIndexIterator.advance.
  apply runs_bind, runs_modify, runs_bind, runs_gets, runs_bind, runs_gets. cbn [TreeIndexIterator.leaf_page TreeIndexIterator.set_cursor TreeIndexIterator.cursor].
  pose proof Hl as (Hok & Ha & _). rewrite (leaf_size _ _ Hok), Ha.
  destruct (Z.leb_spec (Z.of_nat (length lkvs)) (Z.of_nat (S (TreeIndexIterator.cursor it)))) as [Hge|Hlt].
  - rewrite drop_ge in Hi |- * by lia. eapply runs_next_leaf; [done..|exact Hl|done|done|exact Hi].
  - destruct (drop (S (TreeIndexIterator.cursor it)) lkvs) as [|kv rest'] eqn:Hd.
    { apply (f_equal length) in Hd. rewrite length_drop in Hd. simpl in Hd. lia. }
    assert (lkvs !! S (TreeIndexIterator.cursor it) = Some kv) as Hkv
      by (by rewrite <- (Nat.add_0_r (S _)), <- lookup_drop, Hd).
    apply runs_bind. eapply runs_current; [exact Hl|done|exact Hkv|]. apply runs_ret. split; [done|].
    split; [done| |done|].
    + eapply idx_fewer; [|exact Hi]. rewrite !length_app. cbn [length]. lia.
    + exists next, lkvs, rest. split_and!; [done|simpl; lia| |done]. cbn [TreeIndexIterator.cursor TreeIndexIterator.set_cursor].
      f_equal. apply (f_equal (drop 1)) in Hd. rewrite drop_drop in Hd. simpl in Hd. rewrite drop_0 in Hd.
      rewrite <- Hd. f_equal. lia.
Qed.
(** *** The first entry *)
Lemma unpin_chain f p st q kvs :
  PageStore.refs st !! f = None → leaf_chain (pin f p st) q kvs → leaf_chain st q kvs.
Proof.
  intros Hf. induction 1 as [|q lp next kvs rest Hp Hl Hne [Hfree Hq] _ IH]; [constructor|].
  eapply chain_leaf; [exact Hp|exact Hl|done| |exact IH]. split; [|done]. intros g c Hg. apply (Hfree g c). simpl.
  rewrite lookup_insert_ne; [done|]. intros <-. congruence.
Qed.

Lemma reached_unpin it start end_ root st n b kvs o f p :
  PageStore.refs st !! f = None → reached it start end_ root (pin f p st) n b kvs o →
  runs (drop_ref f) (TreeIndexIterator.index it)
    (λ _ x, reached (TreeIndexIterator.set_index x it) start end_ root st n b kvs o).
Proof.
  intros Hf. destruct kvs as [|kv rest]; intros [-> Hr].
  - eapply runs_drop; [exact Hr|apply pin_refs|]. intros x Hx. rewrite unpin_pin in Hx by done. by split.
  - destruct Hr as [Hb Hi Hst (next & lkvs & rest' & Hl & Hc & Hrest & Hch)].
    eapply runs_drop; [exact Hi|apply pin_refs|]. intros x Hx. rewrite unpin_pin in Hx by done. split; [done|].
    split; [done|exact Hx|done|]. exists next, lkvs, rest'. split_and!; [done..|by eapply unpin_chain].
Qed.

(** What [next] answers. *)
Definition answers it start end_ root st n b kvs (o : option RecordId.t) : Prop :=
  ∃ kv, reached it start end_ root st n b kvs kv ∧ o = (λ kv : LeafKV, kv.2) <$> kv.

Definition starts (included : bool) (k : Tuple.t) : Bound Tuple.t := if included then Included k else Excluded k.

(** The entries of the tree from a start bound on are those of the leaf found, from
    where [next_closest] points, and those after it. *)
Lemma found_filter st h t included k p kvs lp next lo hi z :
  rooted ks imax lmax room st h t → found_leaf ks imax lmax room (PageStore.pages st) t k p kvs lp next lo hi z → Tuple.ok ks k →
  List.filter (at_start (starts included k)) (contents t)
  = match BPlusTreeLeafPage.next_closest lp k included with Some i => drop i kvs | None => [] end ++ entries_after z.
Proof.
  intros [Ht _ _] [_ [(Hok & Ha & _) _] _ Hz <- [Hlo Hhi] _] Hk.
  destruct (tree_ordered ks imax lmax room _ _ _ None None _ I I Ht) as (_ & Hkeys & _).
  rewrite plug_entries in Hkeys |- *. apply Forall_app in Hkeys as [Hk1 Hk2]. apply Forall_app in Hk2 as [_ Hk3].
  rewrite Forall_forall in Hk1, Hk3. destruct (zipper_sides ks imax lmax room _ _ _ _ _ _ _ _ k Hz Hk Hlo Hhi) as [Hbefore Hafter].
  rewrite !List.filter_app. rewrite (filter_none _ (entries_before z)), (filter_all _ (entries_after z)).
  - cbn [app contents]. f_equal. pose proof (next_closest_filter ks lp included k Hok Hk) as Hn. cbn zeta in Hn. rewrite Ha in Hn.
    destruct (BPlusTreeLeafPage.next_closest lp k included); [by destruct Hn|done].
  - intros e He. apply (at_start_above ks); auto.
  - intros e He. apply (at_start_below ks); auto.
Qed.

Lemma runs_start_at it end_ included k st n b h t :
  TreeIndexIterator.start_bound it = starts included k → TreeIndexIterator.end_bound it = end_ → TreeIndexIterator.started it = true →
  idx (TreeIndexIterator.index it) (BTree.root t) st n (b + length (contents t) + 40) →
  rooted ks imax lmax room st h t → Forall (usable st) (page_ids t) → spare_frames 2 st → Tuple.ok ks k →
  runs (TreeIndexIterator.start_at k included) it
    (λ o it', answers it' (starts included k) end_ (BTree.root t) st n b (List.filter (at_start (starts included k)) (contents t)) o).
Proof.
  intros Hs He Hst Hi Ht Hu Hsp Hk. unfold TreeIndexIterator.start_at. apply runs_bind, runs_on_index.
  eapply runs_find_leaf; [exact Hi|exact Ht|done|done|]. intros self1 f p kvs lp next lo hi z Hf Hi1 Hfound _.
  rewrite (found_filter st h t included k p kvs lp next lo hi z Ht Hfound Hk).
  pose proof Hfound as [_ [Hl _] _ Hz Hwhole _ _].
  set (kvs' := match BPlusTreeLeafPage.next_closest lp k included with Some i => drop i kvs | None => [] end ++ entries_after z).
  assert (length kvs' ≤ length (contents t))%nat as Hlen.
  { rewrite <- Hwhole, plug_entries, !length_app. unfold kvs'. rewrite length_app. cbn [contents].
    destruct (BPlusTreeLeafPage.next_closest lp k included); rewrite ?length_drop; simpl; lia. }
  assert (leaf_chain (pin f p st) next (entries_after z)) as Hch.
  { eapply zipper_chain; [exact Hz|]. rewrite <- Hwhole in Hu. rewrite plug_ids in Hu. apply Forall_app in Hu as [_ Hu].
    destruct Ht as [_ Hnd _]. rewrite <- Hwhole, plug_ids in Hnd. apply NoDup_cons in Hnd as [Hp _].
    rewrite Forall_forall in Hu |- *. intros q Hq. destruct (Hu q Hq). split; [|done]. apply pin_free; [by intros ->|done]. }
  apply runs_iterator_holding, runs_bind, runs_on_index. eapply runs_decode_leaf; [exact Hi1|apply pin_refs|by apply Hfound|].
  apply runs_bind, runs_modify.
  set (it1 := TreeIndexIterator.set_leaf lp (TreeIndexIterator.set_index self1 (TreeIndexIterator.set_index self1 it))).
  apply (runs_weaken _ _ (λ o it', answers it' (starts included k) end_ (BTree.root t) (pin f p st) n b kvs' o)).
  2:{ intros o it' (kv & Hr & ->). eapply runs_weaken; [by eapply reached_unpin|]. intros u x Hx. by exists kv. }
  pose proof Hl as (Hok & Ha & _). pose proof (next_closest_filter ks lp included k Hok Hk) as Hn. cbn zeta in Hn. rewrite Ha in Hn.
  assert (idx (TreeIndexIterator.index it1) (BTree.root t) (pin f p st) n (b + length kvs')) as Hi2 by (eapply idx_fewer; [|exact Hi1]; lia).
  unfold kvs' in *. clear kvs' Hlen. destruct (BPlusTreeLeafPage.next_closest lp k included) as [i|].
  - destruct Hn as [_ Hi']. destruct (lookup_lt_is_Some_2 kvs i Hi') as [kv Hkv]. rewrite (drop_S kvs kv i Hkv) in Hi2 |- *.
    apply runs_bind, runs_modify, runs_bind. eapply (runs_current _ next kvs i kv); [exact Hl|done|done|].
    apply runs_ret. exists (Some kv). split; [|done]. split; [done|]. split; [done| |done|].
    + eapply idx_fewer; [|exact Hi2]. cbn [length app]. lia.
    + exists next, kvs, (entries_after z). by split_and!.
  - apply runs_bind. eapply runs_weaken.
    + eapply (runs_next_leaf it1); [exact Hs|exact He|exact Hst|done|exact Hl|exact Hch|by apply pin_spare|exact Hi2].
    + intros kv it2 Hr. apply runs_ret. by exists kv.
Qed.
(** *** [next] *)
Lemma runs_first_entry it end_ st n b h t :
  TreeIndexIterator.start_bound it = Unbounded → TreeIndexIterator.end_bound it = end_ → TreeIndexIterator.started it = true →
  idx (TreeIndexIterator.index it) (BTree.root t) st n (b + length (contents t) + 40) →
  rooted ks imax lmax room st h t → Forall (usable st) (page_ids t) → spare_frames 2 st → contents t ≠ [] →
  runs (page ← TreeIndexIterator.on_index get_first_leaf_page;
        _ ← modify (TreeIndexIterator.set_leaf page);
        _ ← modify (TreeIndexIterator.set_cursor 0);
        kv ← TreeIndexIterator.current; ret (Some kv.2)) it
    (λ o it', answers it' Unbounded end_ (BTree.root t) st n b (contents t) o).
Proof.
  intros Hs He Hst Hi Ht Hu Hsp Hne. pose proof (rooted_height _ _ _ _ _ _ _ _ _ _ _ Hi Ht) as Hh.
  destruct Ht as [Ht _ Hfree].
  assert (leaf_chain st (leftmost t) (contents t ++ [])) as Hch
    by (eapply tree_chain; [exact Ht|done|done|constructor]).
  rewrite app_nil_r in Hch. pose proof Ht as (tp & Hp & _ & Htop)%tree_at_top.
  assert (page_ids t = BTree.root t :: tl (page_ids t)) as Hids by (by destruct t).
  rewrite Hids in Hfree. apply Forall_cons in Hfree as [Hroot Hfree].
  apply runs_bind, runs_on_index. unfold get_first_leaf_page. apply runs_bind, runs_gets.
  rewrite (idx_root _ _ _ _ _ _ _ _ Hi). apply runs_bind.
  apply (idx_fewer _ _ _ _ _ _ _ _ (S (b + length (contents t) + h))) in Hi; [|lia].
  eapply runs_read; [exact Hi|exact Hp|done|unfold spare_frames in *; lia|]. intros self1 Hi1.
  eapply runs_first_leaf; [exact Hi1|exact Hp|exact Htop|unfold TREE_FUEL; lia|done|unfold spare_frames in *; lia|].
  intros self2 lp Hlp Hi2.
  inversion Hch as [|p lp' next kvs rest Hp' Hl Hkvs _ Hrest Hpe Hce]; [by rewrite <- H2 in Hne|]. subst p.
  assert (lp' = lp) as -> by (pose proof (page_shows_fun _ _ _ _ Hp' Hlp); congruence).
  destruct kvs as [|kv kvs]; [done|].
  apply runs_bind, runs_modify, runs_bind, runs_modify, runs_bind.
  eapply (runs_current _ next (kv :: kvs) 0 kv); [exact Hl|done|done|]. apply runs_ret.
  exists (Some kv). split; [|done]. split; [done|]. split; [done| |done|].
  - eapply idx_fewer; [|exact Hi2]. simpl. lia.
  - exists next, (kv :: kvs), rest. split_and!; [exact Hl|simpl; lia|done|done].
Qed.

Lemma rooted_usable self root st n b h t :
  idx self root st n b → rooted ks imax lmax room st h t → Forall (usable st) (page_ids t).
Proof.
  intros Hi [Ht _ Hfree]. apply tree_pages in Ht. unfold in_memory in Ht. rewrite Forall_forall in Ht, Hfree |- *.
  intros p Hp. split; [by apply Hfree|]. eapply idx_page; [exact Hi|by apply Ht].
Qed.

Lemma runs_next_first self start end_ st n b h t :
  idx self (BTree.root t) st n (b + length (contents t) + 40) →
  rooted ks imax lmax room st h t → spare_frames 2 st → bound_is ks start → contents t ≠ [] ∨ start ≠ Unbounded →
  runs TreeIndexIterator.next (TreeIndexIterator.new self start end_)
    (λ o it', answers it' start end_ (BTree.root t) st n b (List.filter (at_start start) (contents t)) o).
Proof.
  intros Hi Ht Hsp Hb Hne. pose proof (rooted_usable _ _ _ _ _ _ _ Hi Ht) as Hu.
  unfold TreeIndexIterator.next. apply runs_bind, runs_gets. cbn [TreeIndexIterator.new TreeIndexIterator.index].
  unfold is_empty at 1. rewrite (idx_root _ _ _ _ _ _ _ _ Hi), (rooted_not_empty _ _ _ _ _ _ _ _ _ _ _ Hi Ht).
  apply runs_bind, runs_gets. cbn [TreeIndexIterator.new TreeIndexIterator.started].
  apply runs_bind, runs_modify, runs_bind, runs_gets. cbn [TreeIndexIterator.new TreeIndexIterator.start_bound TreeIndexIterator.set_started].
  destruct start as [k|k|].
  - by eapply (runs_start_at _ end_ true).
  - by eapply (runs_start_at _ end_ false).
  - rewrite (filter_all (at_start Unbounded)) by done. eapply runs_first_entry; [done..|]. by destruct Hne.
Qed.

Lemma runs_next it start end_ root st n b kvs :
  scanning it start end_ root st n b kvs → spare_frames 1 st → (root =? INVALID_PAGE_ID) = false →
  runs TreeIndexIterator.next it (λ o it', match kvs with
    | [] => o = None ∧ idx (TreeIndexIterator.index it') root st n b
    | kv :: rest => o = (if at_end end_ kv then Some kv.2 else None) ∧ scanning it' start end_ root st n b rest
    end).
Proof.
  intros Hsc Hsp Hroot. pose proof Hsc as [[Hs He] Hi Hst _]. unfold TreeIndexIterator.next.
  apply runs_bind, runs_gets. unfold is_empty. rewrite (idx_root _ _ _ _ _ _ _ _ Hi), Hroot.
  apply runs_bind, runs_gets. rewrite Hst. apply runs_bind, runs_gets. rewrite He.
  apply runs_bind. eapply runs_weaken; [by eapply runs_advance|]. intros o it' Hr.
  destruct kvs as [|kv rest]; destruct Hr as [-> Hr]; destruct end_; by apply runs_ret.
Qed.

(** *** All calls *)
Lemma runs_collect fuel it start end_ root st n b kvs :
  scanning it start end_ root st n b kvs → spare_frames 1 st → (root =? INVALID_PAGE_ID) = false →
  keys_ok ks kvs → sorted_lt kvs → bound_is ks end_ → (length kvs < fuel)%nat →
  runs (collect fuel) it (λ o it', o = Some (snd <$> List.filter (at_end end_) kvs) ∧ idx (TreeIndexIterator.index it') root st n b).
Proof.
  revert fuel it. induction kvs as [|kv kvs IH]; intros fuel it Hsc Hsp Hroot Hk Hs Hb Hfuel; (destruct fuel as [|fuel]; [simpl in Hfuel; lia|]);
    cbn [collect]; apply runs_bind; (eapply runs_weaken; [by eapply runs_next|]); intros o it'; cbn beta iota.
  - intros [-> Hi]. by apply runs_ret.
  - intros [-> Hsc']. cbn [List.filter]. destruct (at_end end_ kv) eqn:Hend.
    + apply runs_bind. eapply runs_weaken; [apply (IH fuel); [done..| | |done|cbn [length] in Hfuel; lia]|].
      * by apply Forall_cons in Hk as [_ ?].
      * by apply StronglySorted_inv in Hs as [? _].
      * intros l it'' [-> Hi]. by apply runs_ret.
    + apply runs_ret. rewrite (at_end_past ks end_ kv kvs) by done. split; [done|].
      destruct Hsc' as [_ Hi _ _]. eapply idx_fewer; [|exact Hi]. lia.
Qed.

Lemma runs_range fuel self start end_ root st n b ps kvs :
  idx self root st n (b + length kvs + 40) → holds ks imax lmax room st root ps kvs → spare_frames 2 st →
  bound_is ks start → bound_is ks end_ → kvs ≠ [] ∨ ps = [] ∨ start ≠ Unbounded → (length kvs < fuel)%nat →
  runs (collect fuel) (TreeIndexIterator.new self start end_)
    (λ o it', o = Some (snd <$> listed start end_ kvs) ∧ idx (TreeIndexIterator.index it') root st n b).
Proof.
  intros Hi Hh Hsp Hs He Hne Hfuel. destruct fuel as [|fuel]; [lia|]. cbn [collect]. apply runs_bind.
  destruct Hh as [(-> & _ & ->)|(h & t & Ht & -> & <- & <-)].
  { unfold TreeIndexIterator.next. apply runs_bind, runs_gets. cbn [TreeIndexIterator.new TreeIndexIterator.index].
    unfold is_empty. rewrite (idx_root _ _ _ _ _ _ _ _ Hi), Z.eqb_refl. apply runs_ret, runs_ret. split; [done|].
    eapply idx_fewer; [|exact Hi]. lia. }
  pose proof (rooted_not_empty _ _ _ _ _ _ _ _ _ _ _ Hi Ht) as Hroot.
  eapply runs_weaken; [eapply runs_next_first; [exact Hi|exact Ht|done|done|]|].
  { destruct Hne as [|[Hps|]]; [by left|by destruct t|by right]. }
  intros o it' (kv & Hr & ->). unfold listed.
  destruct (tree_ordered ks imax lmax room _ _ _ None None _ I I (rooted_tree _ _ _ _ _ _ _ Ht)) as (_ & Hk & Hsort).
  destruct (filter_ordered ks (at_start start) _ Hk Hsort) as (Hk' & Hs' & Hlen).
  destruct (List.filter (at_start start) (contents t)) as [|kv' rest]; destruct Hr as [-> Hr]; cbn beta iota delta [fmap option_fmap option_map].
  - by apply runs_ret.
  - apply runs_bind. eapply runs_weaken; [eapply runs_collect; [exact Hr|unfold spare_frames in *; lia|done| | |done|cbn [length] in Hlen; lia]|].
    + by apply Forall_cons in Hk' as [_ ?].
    + by apply StronglySorted_inv in Hs' as [? _].
    + intros l it'' [-> Hi']. by apply runs_ret.
Qed.
End iterator.
End RangeFacts.
