(* ===== verification/IndexSpec.v ===== *)
(** * IndexSpec: the B+ tree index is an ordered map

    What an index promises to the code above it ([index_ok]: its entries in the order
    of their keys, and the pages it owns) and the theorems on [get], [insert] and the
    range iterator. *)
From S2P Require Import Prelude CommonCodec Schema TupleCodec TablePage IndexPage IndexPageCodec.
From S2P Require Import DiskPages DiskManager Replacer BufferPool PageStore TableHeap Index Tree TreePages IndexSteps IndexInsert IndexScan.
Local Open Scope Z_scope.

Module IndexSpec.
Import BPlusTreeIndex BTree TreeFacts KeyArrayFacts IndexPageCodecFacts TableHeapFacts IndexFacts InsertFacts IndexRange RangeFacts.

Section spec.
Context {D : Type} `{DiskLaws D}.
Context (ks : Schema.t) (imax lmax : Z) (room : nat).
Implicit Types (self : BPlusTreeIndex.t D) (st : PageStore.t).

(** The index has the entries [kvs] on the pages [ps] of the store [st] its pool shows,
    with room for [n] more pages and [b] ticks of the clock of the replacer. *)
Record index_ok self st (n b : nat) (ps : list Z) (kvs : list LeafKV) : Prop := IndexOk {
  index_pool : idx ks imax lmax self (root_page_id self) st n b;
  index_entries : holds ks imax lmax room st (root_page_id self) ps kvs;
}.

Lemma index_ok_root self root st n b ps kvs :
  idx ks imax lmax self root st n b → holds ks imax lmax room st root ps kvs → index_ok self st n b ps kvs.
Proof. intros Hi Hh. pose proof (idx_root _ _ _ _ _ _ _ _ Hi). by subst root. Qed.

(** C13: [get] finds the record id of a key exactly when the index has an entry for it:
    the search goes down at most 33 pages and ends in the leaf the separators lead to;
    it answers without an error or a panic, and leaves the pages as they were with
    nothing pinned. *)
Theorem index_get self st n b ps kvs k :
  index_ok self st n (b + 40) ps kvs → spare_frames 2 st → Tuple.ok ks k →
  ∃ self' o, get k self = (self', Ok o) ∧ (∀ v, o = Some v ↔ (k, v) ∈ kvs) ∧ index_ok self' st n b ps kvs.
Proof.
  intros [Hi Hh] Hsp Hk.
  destruct (runs_get ks imax lmax room k self _ st n b ps kvs (λ o self', (∀ v, o = Some v ↔ (k, v) ∈ kvs) ∧ index_ok self' st n b ps kvs)
    Hi Hh Hsp Hk) as (self' & o & Hrun & Ho & Hok); [|by exists self', o].
  intros self' b' o Hb Hi' Ho. split; [done|]. eapply index_ok_root; [|exact Hh]. by eapply idx_fewer.
Qed.

(** C12: [insert] of a new key gives the index with the old entries and the new one, in
    the order of their keys: the leaf is found, and pages over their maximal size are
    split on the way up to a new root, with at most 40 new pages. It ends without an
    error or a panic and with nothing pinned; pages the index does not own are as they
    were, and those it now owns were its own or are fresh. *)
Theorem index_insert self st n b ps kvs k rid :
  params_ok ks imax lmax room → index_ok self st (40 + n) (b + 2000) ps kvs → spare_frames 3 st →
  key_ok ks room k → rid_ok rid → k ∉ kvs.*1 →
  ∃ self' m n' ps' kvs', insert k rid self = (self', Ok tt) ∧
    index_ok self' (PageStore.set_pages m st) n' b ps' kvs' ∧ (n ≤ n')%nat ∧
    kvs' ≡ₚ (k, rid) :: kvs ∧ sorted_lt kvs' ∧ grows ps st m ps'.
Proof.
  intros Hp [Hi Hh] Hsp Hk Hr Hn.
  destruct (runs_insert ks imax lmax room Hp k rid self _ st n b ps kvs Hi Hh Hsp Hk Hr Hn) as (self' & [] & Hrun & Hins).
  destruct Hins as (m & t & h & n' & b' & Hn' & Hb' & Hi' & Ht & Hc & Hg).
  exists self', m, n', (page_ids t), (contents t). split_and!; [done| |done|done| |done].
  - apply (index_ok_root _ (BTree.root t)); [by eapply idx_fewer|]. right. by exists h, t.
  - by destruct (tree_ordered ks imax lmax room _ _ _ None None _ I I (rooted_tree _ _ _ _ _ _ _ Ht)) as (_ & _ & ?).
Qed.

(** C14: a scan ends and lists a range of the index. For an index whose pages are a well
    formed tree, calling [next] of a new iterator until it answers [None] takes at most
    one call more than there are entries, and gives the record ids of the entries between
    the bounds in the order of their keys, along the links of the leaves, if there is such
    an entry. When there is none it gives the first entry at the start bound, if any,
    since the first call does not look at the end bound. The pages are left as they were.
    Left out is a scan without a start bound of an index that has pages and no entries. *)
Theorem index_scan self st n b ps kvs start end_ :
  index_ok self st n (b + length kvs + 40) ps kvs → spare_frames 2 st → bound_is ks start → bound_is ks end_ →
  kvs ≠ [] ∨ ps = [] ∨ start ≠ Unbounded →
  ∃ it l, collect (S (length kvs)) (TreeIndexIterator.new self start end_) = (it, Ok (Some (snd <$> l))) ∧
    (range start end_ kvs ≠ [] → l = range start end_ kvs) ∧
    (range start end_ kvs = [] → l = take 1 (List.filter (at_start start) kvs)) ∧
    sorted_lt l ∧ index_ok (TreeIndexIterator.index it) st n b ps kvs.
Proof.
  intros [Hi Hh] Hsp Hs He Hne. destruct (holds_ordered ks imax lmax room _ _ _ _ Hh) as [Hk Hsort].
  destruct (runs_range ks imax lmax room (S (length kvs)) self start end_ _ st n b ps kvs Hi Hh Hsp Hs He Hne ltac:(lia))
    as (it & o & Hrun & -> & Hi'). destruct (listed_range ks start end_ kvs He Hk Hsort).
  exists it, (listed start end_ kvs). split_and!; [done..|by eapply listed_ordered|by eapply index_ok_root].
Qed.
End spec.

(** ** An index in a new database *)
Definition schema : Schema.t := IndexPageSpec.key_schema.
Definition one : Tuple.t := IndexPageSpec.demo_key 1.
Definition two : Tuple.t := IndexPageSpec.demo_key 2.

Lemma demo_params : params_ok schema 3 2 16.
Proof.
  split; [lia|lia|vm_compute; congruence|vm_compute; congruence|].
  eexists. split; [reflexivity|]. split; [split; [done|by apply Forall2_cons]|].
  split; [by repeat constructor|]. eexists. split; [vm_compute; reflexivity|simpl; lia].
Qed.

Lemma demo_keys_fit : key_ok schema 16 one ∧ key_ok schema 16 two.
Proof.
  assert (∀ a, signed_ok 8 a → (∃ bs, TupleCodec.encode (IndexPageSpec.demo_key a) = Ok bs ∧ (length bs ≤ 16)%nat) →
    key_ok schema 16 (IndexPageSpec.demo_key a)) as Hkey.
  { intros a Ha He. split; [by apply IndexPageSpec.demo_key_ok|]. split; [by repeat constructor|done]. }
  split; (apply Hkey; [done|]); (eexists; split; [vm_compute; reflexivity|simpl; lia]).
Qed.

(** The empty index of a database that was just created. *)
Definition demo_index (d : DiskManager.t) : BPlusTreeIndex.t DiskManager.t :=
  BPlusTreeIndex.new schema (BufferPoolManager.new 8 d) 3 2.

Lemma demo_index_ok :
  ∃ d, DiskManager.try_new 0 1 None = Ok d ∧
    index_ok schema 3 2 16 (demo_index d) (BufferPoolSpec.created_store 8 d) 900 4050 [] [].
Proof.
  destruct (BufferPoolSpec.created_shows 8 900) as (d & Hd & Hs & Ht); [lia|].
  exists d. split; [done|]. split; [|by left]. by split.
Qed.

(** The index after an insertion, and what it leaves for the next one. *)
Lemma demo_index_one :
  ∃ d self st n ps, DiskManager.try_new 0 1 None = Ok d ∧ insert one (RecordId.Mk 5 1) (demo_index d) = (self, Ok tt) ∧
    spare_frames 8 st ∧ index_ok schema 3 2 16 self st (40 + n) (2000 + 50) ps [(one, RecordId.Mk 5 1)].
Proof.
  destruct demo_index_ok as (d & Hd & [Hi Hh]).
  destruct (runs_insert schema 3 2 16 demo_params one (RecordId.Mk 5 1) _ _ _ 860 2050 [] [] Hi Hh)
    as (self & [] & Hrun & (m & t & h & n' & b' & Hn' & Hb' & Hi' & Ht & Hc & Hg)).
  - unfold spare_frames. simpl. rewrite map_size_empty. lia.
  - apply demo_keys_fit.
  - done.
  - apply not_elem_of_nil.
  - exists d, self, (PageStore.set_pages m (BufferPoolSpec.created_store 8 d)), (n' - 40)%nat, (page_ids t). split_and!; [done|done| |].
    + unfold spare_frames. simpl. rewrite map_size_empty. lia.
    + apply Permutation_singleton_r in Hc. replace (40 + (n' - 40))%nat with n' by lia.
      apply (index_ok_root _ _ _ _ _ (BTree.root t)); [by eapply idx_fewer|]. right. by exists h, t.
Qed.

Lemma index_get_witness :
  ∃ d self self' o, DiskManager.try_new 0 1 None = Ok d ∧ insert one (RecordId.Mk 5 1) (demo_index d) = (self, Ok tt) ∧
    get one self = (self', Ok o) ∧ o = Some (RecordId.Mk 5 1).
Proof.
  destruct demo_index_one as (d & self & st & n & ps & Hd & Hins & Hsp & Hok).
  destruct (index_get schema 3 2 16 self st (40 + n) 2010 ps _ one Hok) as (self' & o & Hget & Ho & _).
  - unfold spare_frames in *. lia.
  - apply demo_keys_fit.
  - exists d, self, self', o. split_and!; [done..|]. apply Ho. by left.
Defined.

Lemma index_insert_witness :
  ∃ d self self' kvs, DiskManager.try_new 0 1 None = Ok d ∧ insert one (RecordId.Mk 5 1) (demo_index d) = (self, Ok tt) ∧
    insert two (RecordId.Mk 5 2) self = (self', Ok tt) ∧ kvs ≡ₚ [(two, RecordId.Mk 5 2); (one, RecordId.Mk 5 1)] ∧ sorted_lt kvs.
Proof.
  destruct demo_index_one as (d & self & st & n & ps & Hd & Hins & Hsp & Hok).
  destruct (index_insert schema 3 2 16 self st n 50 ps _ two (RecordId.Mk 5 2) demo_params Hok)
    as (self' & m & n' & ps' & kvs' & Hrun & _ & _ & Hp & Hs & _).
  - unfold spare_frames in *. lia.
  - apply demo_keys_fit.
  - done.
  - intros Hin. apply list_elem_of_singleton in Hin. vm_compute in Hin. congruence.
  - exists d, self, self', kvs'. by split_and!.
Defined.

(** A range with an entry, and one whose bounds leave nothing, which still lists one. *)
Lemma index_scan_witness :
  ∃ d self it it', DiskManager.try_new 0 1 None = Ok d ∧ insert one (RecordId.Mk 5 1) (demo_index d) = (self, Ok tt) ∧
    collect 2 (TreeIndexIterator.new self Unbounded (Excluded two)) = (it, Ok (Some [RecordId.Mk 5 1])) ∧
    collect 2 (TreeIndexIterator.new self Unbounded (Excluded one)) = (it', Ok (Some [RecordId.Mk 5 1])).
Proof.
  destruct demo_index_one as (d & self & st & n & ps & Hd & Hins & Hsp & Hok).
  assert (spare_frames 2 st) as Hsp2 by (unfold spare_frames in *; lia).
  destruct (index_scan schema 3 2 16 self st (40 + n) 2009 ps [(one, RecordId.Mk 5 1)] Unbounded (Excluded two)
    Hok Hsp2 I (proj1 (proj2 demo_keys_fit)) ltac:(by left)) as (it & l & Hrun & Hin & _).
  destruct (index_scan schema 3 2 16 self st (40 + n) 2009 ps [(one, RecordId.Mk 5 1)] Unbounded (Excluded one)
    Hok Hsp2 I (proj1 (proj1 demo_keys_fit)) ltac:(by left)) as (it' & l' & Hrun' & _ & Hout & _).
  exists d, self, it, it'. split_and!; [done..| |].
  - rewrite Hin in Hrun by (vm_compute; congruence). exact Hrun.
  - rewrite Hout in Hrun' by (vm_compute; reflexivity). exact Hrun'.
Defined.
End IndexSpec.
