(* ===== verification/Catalog.v ===== *)
(** * Catalog: schemas, tables and indexes by name

    Models [bustubx/src/catalog/catalog.rs] and the loading of the information schema of
    [catalog/information.rs]. The heaps and the indexes of a catalog share its buffer
    pool, so the catalog keeps what is their own ([TableHandle], [IndexHandle]) and a
    method of a heap or an index runs on the handle with the pool ([on_heap],
    [on_index]). A hash map is a [gmap]. The name of an SQL type and the printing of a
    value are parameters. *)
From S2P Require Import Prelude CommonCodec Floats Scalar Schema TupleCodec TablePage IndexPage.
From S2P Require Import DiskPages DiskManager Replacer BufferPool PageStore TableHeap Index.
Local Open Scope Z_scope.

Definition DEFAULT_CATALOG_NAME : string := "bustubx".
Definition DEFAULT_SCHEMA_NAME : string := "public".

Definition INFORMATION_SCHEMA_NAME : string := "information_schema".
Definition INFORMATION_SCHEMA_SCHEMAS : string := "schemas".
Definition INFORMATION_SCHEMA_TABLES : string := "tables".
Definition INFORMATION_SCHEMA_COLUMNS : string := "columns".
Definition INFORMATION_SCHEMA_INDEXES : string := "indexes".

Definition SCHEMAS_SCHMEA : Schema.t := Schema.Mk [
  Column.new "catalog" (DataType.Varchar None) false;
  Column.new "schema" (DataType.Varchar None) false].

Definition TABLES_SCHMEA : Schema.t := Schema.Mk [
  Column.new "table_catalog" (DataType.Varchar None) false;
  Column.new "table_schema" (DataType.Varchar None) false;
  Column.new "table_name" (DataType.Varchar None) false;
  Column.new "first_page_id" DataType.UInt32 false].

Definition COLUMNS_SCHMEA : Schema.t := Schema.Mk [
  Column.new "table_catalog" (DataType.Varchar None) false;
  Column.new "table_schema" (DataType.Varchar None) false;
  Column.new "table_name" (DataType.Varchar None) false;
  Column.new "column_name" (DataType.Varchar None) false;
  Column.new "data_type" (DataType.Varchar None) false;
  Column.new "nullable" DataType.Boolean false].

Definition INDEXES_SCHMEA : Schema.t := Schema.Mk [
  Column.new "table_catalog" (DataType.Varchar None) false;
  Column.new "table_schema" (DataType.Varchar None) false;
  Column.new "table_name" (DataType.Varchar None) false;
  Column.new "index_name" (DataType.Varchar None) false;
  Column.new "key_schema" (DataType.Varchar None) false;
  Column.new "internal_max_size" DataType.UInt32 false;
  Column.new "leaf_max_size" DataType.UInt32 false;
  Column.new "root_page_id" DataType.UInt32 false].

(** A [TableHeap] and a [BPlusTreeIndex] without the shared pool. *)
Module TableHandle.
Record t := Mk { schema : Schema.t; first_page_id : Z; last_page_id : Z }.
End TableHandle.

Module IndexHandle.
Record t := Mk {
  key_schema : Schema.t;
  internal_max_size : Z;
  leaf_max_size : Z;
  root_page_id : Z;
}.
End IndexHandle.

Module CatalogTable.
Record t := Mk {
  name : string;
  table : TableHandle.t;
  indexes : gmap string IndexHandle.t;
}.

Definition new (name : string) (table : TableHandle.t) : t := Mk name table ∅.

Definition set_table (x : TableHandle.t) (self : t) : t := Mk (name self) x (indexes self).
Definition set_indexes (x : gmap string IndexHandle.t) (self : t) : t := Mk (name self) (table self) x.
End CatalogTable.

Module CatalogSchema.
Record t := Mk { name : string; tables : gmap string CatalogTable.t }.

Definition new (name : string) : t := Mk name ∅.

Definition set_tables (x : gmap string CatalogTable.t) (self : t) : t := Mk (name self) x.
End CatalogSchema.

(** The name of the schema and of the table a reference means. *)
Definition schema_name (table_ref : TableReference.t) : string :=
  default DEFAULT_SCHEMA_NAME (TableReference.schema table_ref).
Definition catalog_name (table_ref : TableReference.t) : string :=
  default DEFAULT_CATALOG_NAME (TableReference.catalog table_ref).

Definition varchar (s : string) : ScalarValue.t := ScalarValue.Varchar (Some s).
Definition uint32 (z : Z) : ScalarValue.t := ScalarValue.UInt32 (Some z).

(** [key_schema_to_varchar]: the names of the columns, joined by a comma and a space. *)
Definition key_schema_to_varchar (key_schema : Schema.t) : string :=
  String.concat ", " (Column.name <$> Schema.columns key_schema).

Module Catalog.
Section catalog.
Context {D : Type} `{Disk D}.

Record t := Mk { schemas : gmap string CatalogSchema.t; buffer_pool : BufferPoolManager.t D }.

Definition new (buffer_pool : BufferPoolManager.t D) : t := Mk ∅ buffer_pool.

Definition set_schemas (x : gmap string CatalogSchema.t) (self : t) : t := Mk x (buffer_pool self).
Definition set_pool (x : BufferPoolManager.t D) (self : t) : t := Mk (schemas self) x.

Definition on_pool {A} (m : SR (BufferPoolManager.t D) A) : SR t A := λ self,
  let '(s, r) := m (buffer_pool self) in (set_pool s self, r).

Definition find_table (schema table : string) (self : t) : option CatalogTable.t :=
  catalog_schema ← schemas self !! schema; CatalogSchema.tables catalog_schema !! table.

Definition alter_table (schema table : string) (f : CatalogTable.t → CatalogTable.t) (self : t) : t :=
  set_schemas (alter (λ s, CatalogSchema.set_tables (alter f table (CatalogSchema.tables s)) s)
    schema (schemas self)) self.

(** A heap with the pool of the catalog, and back. *)
Definition heap_of (self : t) (table : TableHandle.t) : TableHeap.t D :=
  TableHeap.Mk (TableHandle.schema table) (buffer_pool self)
    (TableHandle.first_page_id table) (TableHandle.last_page_id table).
Definition handle_of (heap : TableHeap.t D) : TableHandle.t :=
  TableHandle.Mk (TableHeap.schema heap) (TableHeap.first_page_id heap) (TableHeap.last_page_id heap).

(** A method of the heap of a table that is in the catalog. *)
Definition on_heap {A} (schema table : string) (m : SR (TableHeap.t D) A) : SR t A := λ self,
  match find_table schema table self with
  | Some catalog_table =>
      let '(heap, r) := m (heap_of self (CatalogTable.table catalog_table)) in
      (alter_table schema table (CatalogTable.set_table (handle_of heap))
         (set_pool (TableHeap.buffer_pool heap) self), r)
  | None => (self, Panic)
  end.

Definition index_of_handle (self : t) (x : IndexHandle.t) : BPlusTreeIndex.t D :=
  BPlusTreeIndex.Mk (IndexHandle.key_schema x) (buffer_pool self)
    (IndexHandle.internal_max_size x) (IndexHandle.leaf_max_size x) (IndexHandle.root_page_id x).
Definition handle_of_index (x : BPlusTreeIndex.t D) : IndexHandle.t :=
  IndexHandle.Mk (BPlusTreeIndex.key_schema x) (BPlusTreeIndex.internal_max_size x)
    (BPlusTreeIndex.leaf_max_size x) (BPlusTreeIndex.root_page_id x).

(** A method of an index that is in the catalog. *)
Definition on_index {A} (schema table index_name : string) (m : SR (BPlusTreeIndex.t D) A) :
    SR t A := λ self,
  match find_table schema table self with
  | Some catalog_table =>
      match CatalogTable.indexes catalog_table !! index_name with
      | Some x =>
          let '(x, r) := m (index_of_handle self x) in
          (alter_table schema table (λ ct, CatalogTable.set_indexes
             (<[index_name := handle_of_index x]> (CatalogTable.indexes ct)) ct)
             (set_pool (BPlusTreeIndex.buffer_pool x) self), r)
      | None => (self, Panic)
      end
  | None => (self, Panic)
  end.

(** The lookup of a table by its reference, shared by the methods below. *)
Definition catalog_table (table_ref : TableReference.t) (self : t) : result CatalogTable.t :=
  catalog_schema ← ok_or (schemas self !! schema_name table_ref)
                     (Storage "catalog schema {} not created yet");
  ok_or (CatalogSchema.tables catalog_schema !! TableReference.table table_ref)
    (Storage "table {} not created yet").

Definition table_heap (table_ref : TableReference.t) (self : t) : result TableHandle.t :=
  CatalogTable.table <$> catalog_table table_ref self.

(** The names and handles of the indexes of a table, in the order of the map. *)
Definition table_indexes (table_ref : TableReference.t) (self : t) :
    result (list (string * IndexHandle.t)) :=
  (λ ct, map_to_list (CatalogTable.indexes ct)) <$> catalog_table table_ref self.

Definition index (table_ref : TableReference.t) (index_name : string) (self : t) :
    result (option IndexHandle.t) :=
  (λ ct, CatalogTable.indexes ct !! index_name) <$> catalog_table table_ref self.

(** *** The tables of the information schema *)

(** [self.schemas.get_mut(INFORMATION_SCHEMA_NAME)] and [tables.get_mut(name)]. *)
Definition check_information_schema : SR t unit := λ self,
  (self, _ ← ok_or (schemas self !! INFORMATION_SCHEMA_NAME)
                (Internal "catalog schema information_schema not created yet"); Ok tt).

Definition check_information_table (name msg : string) : SR t unit := λ self,
  (self, _ ← ok_or (find_table INFORMATION_SCHEMA_NAME name self) (Internal msg); Ok tt).

Definition insert_information (name : string) (tuple : result Tuple.t) : SR t unit :=
  tuple ← lift tuple;
  _ ← on_heap INFORMATION_SCHEMA_NAME name (TableHeap.insert_tuple EMPTY_TUPLE_META tuple);
  ret tt.

Definition create_schema (name : string) : SR t unit :=
  exists_ ← gets (λ self, bool_decide (is_Some (schemas self !! name)));
  if exists_ : bool then fail (Storage "Cannot create duplicated schema")
  else
    _ ← modify (λ self, set_schemas (<[name := CatalogSchema.new name]> (schemas self)) self);
    _ ← check_information_schema;
    _ ← check_information_table INFORMATION_SCHEMA_SCHEMAS
          "table information_schema.schemas not created yet";
    insert_information INFORMATION_SCHEMA_SCHEMAS
      (Tuple.new SCHEMAS_SCHMEA [varchar DEFAULT_CATALOG_NAME; varchar name]).

(** [for col in schema.columns.iter() { ..insert_tuple(..)?; }] *)
Fixpoint insert_columns (sql_type_name : DataType.t → string) (catalog schema table : string)
    (columns : list Column.t) : SR t unit :=
  match columns with
  | [] => ret tt
  | col :: columns' =>
      _ ← insert_information INFORMATION_SCHEMA_COLUMNS
            (Tuple.new COLUMNS_SCHMEA [varchar catalog; varchar schema; varchar table;
               varchar (Column.name col); varchar (sql_type_name (Column.data_type col));
               ScalarValue.Boolean (Some (Column.nullable col))]);
      insert_columns sql_type_name catalog schema table columns'
  end.

(** [create_table]; the result is the handle of the new heap. *)
Definition create_table (sql_type_name : DataType.t → string) (table_ref : TableReference.t)
    (schema : Schema.t) : SR t TableHandle.t :=
  let table_name := TableReference.table table_ref in
  found ← gets (λ self, schemas self !! schema_name table_ref);
  catalog_schema ← lift (ok_or found (Storage "catalog schema {} not created yet"));
  if bool_decide (is_Some (CatalogSchema.tables catalog_schema !! table_name))
  then fail (Storage "Cannot create duplicated table")
  else
    heap ← on_pool (TableHeap.try_new schema);
    let handle := handle_of heap in
    _ ← modify (λ self, set_schemas (alter (λ s, CatalogSchema.set_tables
           (<[table_name := CatalogTable.new table_name handle]> (CatalogSchema.tables s)) s)
           (schema_name table_ref) (schemas self)) self);
    _ ← check_information_schema;
    _ ← check_information_table INFORMATION_SCHEMA_TABLES
          "table information_schema.tables not created yet";
    _ ← insert_information INFORMATION_SCHEMA_TABLES
          (Tuple.new TABLES_SCHMEA [varchar (catalog_name table_ref); varchar (schema_name table_ref);
             varchar table_name; uint32 (TableHandle.first_page_id handle)]);
    _ ← check_information_table INFORMATION_SCHEMA_COLUMNS
          "table information_schema.columns not created yet";
    _ ← insert_columns sql_type_name (catalog_name table_ref) (schema_name table_ref) table_name
          (Schema.columns schema);
    ret handle.

(** An index under construction: not in the catalog yet, on the pool of the catalog. *)
Definition on_new_index {A} (x : IndexHandle.t) (m : SR (BPlusTreeIndex.t D) A) :
    SR t (IndexHandle.t * A) := λ self,
  let '(x, r) := m (index_of_handle self x) in
  (set_pool (BPlusTreeIndex.buffer_pool x) self, a ← r; Ok (handle_of_index x, a)).

(** An iterator over a heap, on the pool of the catalog: the iterator after the call,
    and its result. *)
Definition on_iterator {A} (m : SR (TableIterator.t D) A) (iterator : TableIterator.t D) :
    SR t (TableIterator.t D * result A) := λ self,
  let '(iterator, r) := m (TableIterator.set_heap
    (TableHeap.set_pool (buffer_pool self) (TableIterator.heap iterator)) iterator) in
  (set_pool (TableHeap.buffer_pool (TableIterator.heap iterator)) self, Ok (iterator, r)).

(** An iterator over an index of the catalog, which shares the root of the index. *)
Definition on_index_iterator {A} (table_ref : TableReference.t) (index_name : string)
    (m : SR (TreeIndexIterator.t D) A) (iterator : TreeIndexIterator.t D) :
    SR t (TreeIndexIterator.t D * result A) := λ self,
  match index table_ref index_name self with
  | Ok (Some x) =>
      let '(iterator, r) := m (TreeIndexIterator.set_index (index_of_handle self x) iterator) in
      (set_pool (BPlusTreeIndex.buffer_pool (TreeIndexIterator.index iterator)) self, Ok (iterator, r))
  | _ => (self, Panic)
  end.

(** [while let Some((rid, tuple)) = iterator.next()? { ..index.insert(&key, rid)?; }]: a
    round for each row, [fuel] of them. *)
Fixpoint fill_index (fuel : nat) (key_schema : Schema.t) (iterator : TableIterator.t D)
    (x : IndexHandle.t) : SR t IndexHandle.t :=
  match fuel with
  | O => lift Panic
  | S fuel' =>
      '(iterator, next) ← on_iterator TableIterator.next iterator;
      next ← lift next;
      match next with
      | None => ret x
      | Some (rid, tuple) =>
          key ← lift (Tuple.project_with_schema tuple key_schema);
          '(x, _) ← on_new_index x (BPlusTreeIndex.insert key rid);
          fill_index fuel' key_schema iterator x
      end
  end.

Definition create_index (fuel : nat) (index_name : string) (table_ref : TableReference.t)
    (key_schema : Schema.t) : SR t IndexHandle.t :=
  let schema_name := schema_name table_ref in
  let table_name := TableReference.table table_ref in
  found ← gets (catalog_table table_ref);
  catalog_table ← lift found;
  if bool_decide (is_Some (CatalogTable.indexes catalog_table !! index_name))
  then fail (Storage "Cannot create duplicated index")
  else
    heap ← gets (λ self, heap_of self (CatalogTable.table catalog_table));
    x ← fill_index fuel key_schema (TableIterator.new heap Unbounded Unbounded)
          (IndexHandle.Mk key_schema BPLUS_INTERNAL_PAGE_MAX_SIZE BPLUS_LEAF_PAGE_MAX_SIZE
             INVALID_PAGE_ID);
    _ ← modify (alter_table schema_name table_name (λ ct,
           CatalogTable.set_indexes (<[index_name := x]> (CatalogTable.indexes ct)) ct));
    _ ← check_information_schema;
    _ ← check_information_table INFORMATION_SCHEMA_INDEXES
          "table information_schema.indexes not created yet";
    _ ← insert_information INFORMATION_SCHEMA_INDEXES
          (Tuple.new INDEXES_SCHMEA [varchar (catalog_name table_ref); varchar schema_name;
             varchar table_name; varchar index_name; varchar (key_schema_to_varchar key_schema);
             uint32 (IndexHandle.internal_max_size x); uint32 (IndexHandle.leaf_max_size x);
             uint32 (IndexHandle.root_page_id x)]);
    ret x.

(** The loop of [sync_index_roots]; [display] is [to_string] of a value. *)
Fixpoint sync_loop (fuel : nat) (display : ScalarValue.t → string) (iterator : TableIterator.t D) :
    SR t unit :=
  match fuel with
  | O => lift Panic
  | S fuel' =>
      '(iterator, next) ← on_iterator TableIterator.next iterator;
      next ← lift next;
      match next with
      | None => ret tt
      | Some (rid, tuple) =>
          schema ← lift (Prelude.index (Tuple.data tuple) 1);
          table_name ← lift (Prelude.index (Tuple.data tuple) 2);
          index_name ← lift (Prelude.index (Tuple.data tuple) 3);
          found ← gets (index (TableReference.Full DEFAULT_CATALOG_NAME (display schema)
                                 (display table_name)) (display index_name));
          index ← lift found;
          _ ← match index with
              | Some x =>
                  let root := uint32 (IndexHandle.root_page_id x) in
                  old ← lift (Prelude.index (Tuple.data tuple) 7);
                  if ScalarValue.eqb old root then ret tt
                  else on_heap INFORMATION_SCHEMA_NAME INFORMATION_SCHEMA_INDEXES
                         (TableHeap.update_tuple rid
                            (Tuple.Mk (Tuple.schema tuple) (<[7%nat := root]> (Tuple.data tuple))))
              | None => ret tt
              end;
          sync_loop fuel' display iterator
      end
  end.

Definition sync_index_roots (fuel : nat) (display : ScalarValue.t → string) : SR t unit :=
  found ← gets (table_heap (TableReference.Full DEFAULT_CATALOG_NAME INFORMATION_SCHEMA_NAME
                              INFORMATION_SCHEMA_INDEXES));
  table ← lift found;
  heap ← gets (λ self, heap_of self table);
  sync_loop fuel display (TableIterator.new heap Unbounded Unbounded).

(** *** Loading *)
Definition load_schema (name : string) (schema : CatalogSchema.t) (self : t) : t :=
  set_schemas (<[name := schema]> (schemas self)) self.

Definition load_table (table_ref : TableReference.t) (table : CatalogTable.t) (self : t) : result t :=
  catalog_schema ← ok_or (schemas self !! schema_name table_ref)
                     (Storage "catalog schema {} not created yet");
  Ok (load_schema (schema_name table_ref) (CatalogSchema.set_tables
        (<[TableReference.table table_ref := table]> (CatalogSchema.tables catalog_schema))
        catalog_schema) self).

Definition load_index (table_ref : TableReference.t) (index_name : string) (x : IndexHandle.t)
    (self : t) : result t :=
  catalog_schema ← ok_or (schemas self !! schema_name table_ref)
                     (Storage "catalog schema {} not created yet");
  catalog_table ← ok_or (CatalogSchema.tables catalog_schema !! TableReference.table table_ref)
                    (Storage "catalog table {} not created yet");
  Ok (alter_table (schema_name table_ref) (TableReference.table table_ref) (λ ct,
        CatalogTable.set_indexes (<[index_name := x]> (CatalogTable.indexes ct)) ct) self).

(** [load_table_last_page_id]: a round for each page of the chain. *)
Fixpoint load_table_last_page_id (fuel : nat) (page_id : Z) (schema : Schema.t) : SR t Z :=
  match fuel with
  | O => lift Panic
  | S fuel' =>
      '(frame_id, table_page) ← on_pool (BufferPoolManager.fetch_table_page page_id schema);
      _ ← on_pool (BufferPoolManager.drop_page_ref frame_id);
      let next_page_id := TablePageHeader.next_page_id (TablePage.header table_page) in
      if next_page_id =? INVALID_PAGE_ID then ret page_id
      else load_table_last_page_id fuel' next_page_id schema
  end.

(** One table of the information schema, from its first page. *)
Definition information_table (fuel : nat) (name : string) (schema : Schema.t) (first_page_id : Z) :
    SR t (string * CatalogTable.t) :=
  last_page_id ← load_table_last_page_id fuel first_page_id schema;
  ret (name, CatalogTable.new name (TableHandle.Mk schema first_page_id last_page_id)).

(** [load_information_schema]; [meta] is the meta page of the disk manager. *)
Definition load_information_schema (fuel : nat) (meta : MetaPage.t) : SR t unit :=
  schemas_table ← information_table fuel INFORMATION_SCHEMA_SCHEMAS SCHEMAS_SCHMEA
    (MetaPage.information_schema_schemas_first_page_id meta);
  tables_table ← information_table fuel INFORMATION_SCHEMA_TABLES TABLES_SCHMEA
    (MetaPage.information_schema_tables_first_page_id meta);
  columns_table ← information_table fuel INFORMATION_SCHEMA_COLUMNS COLUMNS_SCHMEA
    (MetaPage.information_schema_columns_first_page_id meta);
  indexes_table ← information_table fuel INFORMATION_SCHEMA_INDEXES INDEXES_SCHMEA
    (MetaPage.information_schema_indexes_first_page_id meta);
  modify (load_schema INFORMATION_SCHEMA_NAME (CatalogSchema.Mk INFORMATION_SCHEMA_NAME
    (list_to_map [indexes_table; columns_table; tables_table; schemas_table]))).

Definition create_default_schema_if_not_exists : SR t unit :=
  exists_ ← gets (λ self, bool_decide (is_Some (schemas self !! DEFAULT_SCHEMA_NAME)));
  if exists_ : bool then ret tt else create_schema DEFAULT_SCHEMA_NAME.

End catalog.
Arguments t D : clear implicits.
End Catalog.
