(* ===== verification/Expressions.v ===== *)
(** * Expressions: scalar expressions and aggregate functions

    Models [bustubx/src/expression/*.rs]: evaluation, type and nullability, printing,
    and the columns named after expressions; and the aggregate functions of
    [bustubx/src/function/aggregate/*.rs] with their accumulators. *)
From S2P Require Import Prelude CommonCodec Floats Text Scalar Schema.
Local Open Scope Z_scope.

(** ** Expressions *)
Module AggregateFunctionKind.
Inductive t := Count | Avg.

#[global] Instance eq_dec : EqDecision t.
Proof. solve_decision. Defined.

(** [Display] *)
Definition display (self : t) : string :=
  match self with Count => "Count" | Avg => "Avg" end.

(** [AggregateFunctionKind::iter().find(..)] *)
Definition find (name : string) : option t :=
  List.find (λ kind, Text.eq_ignore_ascii_case (display kind) name) [Count; Avg].
End AggregateFunctionKind.

Module BinaryOp.
Inductive t :=
  | Plus | Minus | Multiply | Divide | Gt | Lt | GtEq | LtEq | Eq | NotEq | And | Or.

(** [Display] *)
Definition display (self : t) : string :=
  match self with
  | Plus => "Plus" | Minus => "Minus" | Multiply => "Multiply" | Divide => "Divide"
  | Gt => "Gt" | Lt => "Lt" | GtEq => "GtEq" | LtEq => "LtEq" | Eq => "Eq" | NotEq => "NotEq"
  | And => "And" | Or => "Or"
  end.
End BinaryOp.

Definition evaluate_comparison (left right : ScalarValue.t) (accepted_orderings : list comparison) :
    result ScalarValue.t :=
  coercion_type ← DataType.comparison_numeric_coercion
    (ScalarValue.data_type left) (ScalarValue.data_type right);
  l ← ScalarValue.cast_to left coercion_type;
  r ← ScalarValue.cast_to right coercion_type;
  order ← ok_or (ScalarValue.partial_cmp l r) (Execution "Can not compare {:?} and {:?}");
  Ok (ScalarValue.Boolean (Some (bool_decide (order ∈ accepted_orderings)))).

Module BinaryExpr.

(** The [match] of [BinaryExpr::evaluate] on the values of the operands. *)
Definition apply (op : BinaryOp.t) (l r : ScalarValue.t) : result ScalarValue.t :=
  match op with
  | BinaryOp.Gt => evaluate_comparison l r [Gt]
  | BinaryOp.Lt => evaluate_comparison l r [Lt]
  | BinaryOp.GtEq => evaluate_comparison l r [Gt; Eq]
  | BinaryOp.LtEq => evaluate_comparison l r [Lt; Eq]
  | BinaryOp.Eq => evaluate_comparison l r [Eq]
  | BinaryOp.NotEq => evaluate_comparison l r [Gt; Lt]
  | BinaryOp.And =>
      l_bool ← ScalarValue.as_boolean l;
      r_bool ← ScalarValue.as_boolean r;
      match l_bool, r_bool with
      | Some v1, Some v2 => Ok (ScalarValue.Boolean (Some (v1 && v2)))
      | _, _ => Ok (ScalarValue.Boolean (Some false))
      end
  | _ => Err (NotSupport "binary operator {:?} not support evaluating yet")
  end.

(** The type of the result; [todo!()] panics. *)
Definition result_type (op : BinaryOp.t) : result DataType.t :=
  match op with
  | BinaryOp.Gt | BinaryOp.Lt | BinaryOp.GtEq | BinaryOp.LtEq | BinaryOp.Eq
  | BinaryOp.NotEq | BinaryOp.And | BinaryOp.Or => Ok DataType.Boolean
  | BinaryOp.Plus | BinaryOp.Minus | BinaryOp.Multiply | BinaryOp.Divide => Panic
  end.

End BinaryExpr.

Module Expr.

Inductive t :=
  | Alias (expr : t) (name : string)
  | Column (relation : option TableReference.t) (name : string)
  | Literal (value : ScalarValue.t)
  | Binary (left : t) (op : BinaryOp.t) (right : t)
  | Cast (expr : t) (data_type : DataType.t)
  | AggregateFunction (func_kind : AggregateFunctionKind.t) (args : list t) (distinct : bool).

Fixpoint data_type (self : t) (input_schema : Schema.t) : result DataType.t :=
  match self with
  | Alias expr _ => data_type expr input_schema
  | Column relation name =>
      column ← Schema.column_with_name input_schema relation name;
      Ok (Column.data_type column)
  | Literal value => Ok (ScalarValue.data_type value)
  | Binary l_expr op r_expr =>
      _ ← data_type l_expr input_schema;
      _ ← data_type r_expr input_schema;
      BinaryExpr.result_type op
  | Cast _ dt => Ok dt
  | AggregateFunction func_kind _ _ =>
      match func_kind with
      | AggregateFunctionKind.Count => Ok DataType.Int64
      | AggregateFunctionKind.Avg => Ok DataType.Float64
      end
  end.

Fixpoint nullable (self : t) (input_schema : Schema.t) : result bool :=
  match self with
  | Alias expr _ => nullable expr input_schema
  | Column relation name =>
      column ← Schema.column_with_name input_schema relation name;
      Ok (Column.nullable column)
  | Literal value => Ok (ScalarValue.is_null value)
  | Binary l_expr _ r_expr =>
      l ← nullable l_expr input_schema;
      if l : bool then Ok true else nullable r_expr input_schema
  | Cast expr _ => nullable expr input_schema
  | AggregateFunction _ _ _ => Ok true
  end.

Fixpoint evaluate (self : t) (tuple : Tuple.t) : result ScalarValue.t :=
  match self with
  | Alias expr _ => evaluate expr tuple
  | Column relation name => Tuple.value_by_name tuple relation name
  | Literal value => Ok value
  | Binary l_expr op r_expr =>
      l ← evaluate l_expr tuple;
      r ← evaluate r_expr tuple;
      BinaryExpr.apply op l r
  | Cast expr dt =>
      value ← evaluate expr tuple;
      ScalarValue.cast_to value dt
  | AggregateFunction _ args _ =>
      match args with
      | expr :: _ => evaluate expr tuple
      | [] => Err (Internal "aggregate function {} should have one arg instead of {:?}")
      end
  end.

(** [Display]; an aggregate function prints without its arguments. *)
Fixpoint display (self : t) : string :=
  match self with
  | Alias expr name => display expr +:+ " AS " +:+ name
  | Column relation name =>
      match relation with
      | Some relation => TableReference.display relation +:+ "." +:+ name
      | None => name
      end
  | Literal value => ScalarValue.display value
  | Binary l_expr op r_expr =>
      "(" +:+ display l_expr +:+ " " +:+ BinaryOp.display op +:+ " " +:+ display r_expr +:+ ")"
  | Cast expr data_type => "CAST " +:+ display expr +:+ " AS " +:+ DataType.display data_type
  | AggregateFunction func_kind _ _ => AggregateFunctionKind.display func_kind
  end.

(** The column named [column_name], of the type and nullability of [self]. *)
Definition new_column (self : t) (column_name : string) (input_schema : Schema.t) :
    result Column.t :=
  data_type ← data_type self input_schema;
  nullable ← nullable self input_schema;
  Ok (Column.new column_name data_type nullable).

(** [to_column] of each kind of expression. *)
Definition alias_to_column (self : t) (name : string) (input_schema : Schema.t) : result Column.t :=
  new_column self name input_schema.

Definition column_to_column (self : t) (relation : option TableReference.t) (name : string)
    (input_schema : Schema.t) : result Column.t :=
  column ← Schema.column_with_name input_schema relation name;
  c ← new_column self name input_schema;
  Ok (Column.with_relation
        (match relation with Some _ => relation | None => Column.relation column end) c).

Definition literal_to_column (self : t) (value : ScalarValue.t) (input_schema : Schema.t) :
    result Column.t :=
  new_column self (ScalarValue.display value) input_schema.

Definition binary_to_column (self : t) (input_schema : Schema.t) : result Column.t :=
  new_column self (display self) input_schema.

Definition cast_to_column : result Column.t := Err (Plan "expr {:?} as column not supported").

Definition aggregate_to_column (self : t) (input_schema : Schema.t) : result Column.t :=
  new_column self (display self) input_schema.

Definition to_column (self : t) (input_schema : Schema.t) : result Column.t :=
  match self with
  | Alias _ name => alias_to_column self name input_schema
  | Column relation name => column_to_column self relation name input_schema
  | Literal value => literal_to_column self value input_schema
  | Binary _ _ _ => binary_to_column self input_schema
  | Cast _ _ => cast_to_column
  | AggregateFunction _ _ _ => aggregate_to_column self input_schema
  end.

End Expr.

(** ** util.rs *)
Fixpoint columnize_expr (e : Expr.t) (input_schema : Schema.t) : result Expr.t :=
  match e with
  | Expr.Column _ _ => Ok e
  | Expr.Alias expr name =>
      expr ← columnize_expr expr input_schema; Ok (Expr.Alias expr name)
  | Expr.Cast expr data_type =>
      expr ← columnize_expr expr input_schema; Ok (Expr.Cast expr data_type)
  | _ =>
      let name := Expr.display e in
      idx ← Schema.index_of input_schema None name;
      col ← Schema.column_with_index input_schema idx;
      Ok (Expr.Column (Column.relation col) name)
  end.

(** ** Accumulators *)
Module Accumulator.

(** [AccumulatorState], which is also all an accumulator holds. *)
Inductive t :=
  | Count (count : Z)
  | Avg (sum : option Z) (count : Z).

Definition create (kind : AggregateFunctionKind.t) : t :=
  match kind with
  | AggregateFunctionKind.Count => Count 0
  | AggregateFunctionKind.Avg => Avg None 0
  end.

Definition state (self : t) : t := self.

Definition checked_add_i64 (a b : Z) : option Z :=
  if (- 2 ^ 63 <=? a + b) && (a + b <? 2 ^ 63) then Some (a + b) else None.

Definition checked_add_u64 (a b : Z) : option Z :=
  if a + b <? 2 ^ 64 then Some (a + b) else None.

Definition count_merge (count : Z) (state : t) : result t :=
  match state with
  | Count count' =>
      count ← ok_or (checked_add_i64 count count') (Execution "COUNT overflow");
      Ok (Count count)
  | Avg _ _ => Err (Execution "Invalid COUNT partial state")
  end.

Definition avg_merge (sum : option Z) (count : Z) (state : t) : result t :=
  match state with
  | Avg sum' count' =>
      new_count ← ok_or (checked_add_u64 count count') (Execution "AVG count overflow");
      Ok (Avg (match sum' with
               | Some value => Some (f64_add (default 0 sum) value)
               | None => sum
               end) new_count)
  | Count _ => Err (Execution "Invalid AVG partial state")
  end.

Definition merge (self state : t) : result t :=
  match self with
  | Count count => count_merge count state
  | Avg sum count => avg_merge sum count state
  end.

Definition count_update_value (count : Z) (value : ScalarValue.t) : result t :=
  if ScalarValue.is_null value then Ok (Count count) else count_merge count (Count 1).

Definition avg_update_value (sum : option Z) (count : Z) (value : ScalarValue.t) : result t :=
  if ScalarValue.is_null value then Ok (Avg sum count)
  else
    casted ← ScalarValue.cast_to value DataType.Float64;
    match casted with
    | ScalarValue.Float64 (Some v) => avg_merge sum count (Avg (Some v) 1)
    | _ => Err (Internal "Failed to cast value {} to float64")
    end.

Definition update_value (self : t) (value : ScalarValue.t) : result t :=
  match self with
  | Count count => count_update_value count value
  | Avg sum count => avg_update_value sum count value
  end.

Definition count_evaluate (count : Z) : result ScalarValue.t :=
  Ok (ScalarValue.Int64 (Some count)).

Definition avg_evaluate (sum : option Z) (count : Z) : result ScalarValue.t :=
  Ok (ScalarValue.Float64 ((λ f, f64_div f (f64_of_int count)) <$> sum)).

Definition evaluate (self : t) : result ScalarValue.t :=
  match self with
  | Count count => count_evaluate count
  | Avg sum count => avg_evaluate sum count
  end.

End Accumulator.

(** ** Facts *)
Module ExpressionFacts.
Import Expr.

(** No aggregate call inside: these are fed to accumulators, not evaluated. *)
Fixpoint scalar (e : t) : bool :=
  match e with
  | Alias e _ | Cast e _ => scalar e
  | Binary e1 _ e2 => scalar e1 && scalar e2
  | Column _ _ | Literal _ => true
  | AggregateFunction _ _ _ => false
  end.

(** The columns that are not nullable hold values. *)
Definition nulls_ok (s : Schema.t) (tuple : Tuple.t) : Prop :=
  Forall2 (λ col v, Column.nullable col = false → ScalarValue.is_null v = false)
    (Schema.columns s) (Tuple.data tuple).

(** A tuple of a schema: one value of its type for each column. *)
Definition has_types (s : Schema.t) (tuple : Tuple.t) : Prop :=
  Tuple.schema tuple = s ∧
  Forall2 (λ col v, ScalarValue.data_type v = ScalarValue.erase (Column.data_type col))
    (Schema.columns s) (Tuple.data tuple).

Lemma ok_has_types s tuple : Tuple.ok s tuple → has_types s tuple.
Proof. intros [Hs Hd]. split; [done|]. eapply Forall2_impl; [exact Hd|]. by intros col v []. Qed.

Lemma new_has_types s data tuple : Tuple.new s data = Ok tuple → has_types s tuple ∧ Tuple.data tuple = data.
Proof.
  unfold Tuple.new, assert_true. destruct (Nat.eqb_spec (length (Schema.columns s)) (length data)) as [Hl|];
    [|done]. cbn [mbind result_bind]. destruct (Tuple.types_match _ _) eqn:Ht; [|done]. intros [= <-].
  split; [|done]. split; [done|]. cbn [Tuple.data]. unfold Tuple.types_match in Ht.
  apply Forall2_same_length_lookup. split; [done|]. intros i col v Hc Hv.
  rewrite forallb_forall in Ht.
  specialize (Ht (col, v)). apply bool_decide_eq_true in Ht; [by rewrite <- Ht|].
  apply list_elem_of_In, list_elem_of_lookup. exists i. by apply lookup_zip_with_Some; eauto.
Qed.

Lemma has_types_new s data :
  Forall2 (λ col v, ScalarValue.data_type v = ScalarValue.erase (Column.data_type col))
    (Schema.columns s) data → Tuple.new s data = Ok (Tuple.Mk s data).
Proof.
  intros Hd. unfold Tuple.new, assert_true. rewrite (Forall2_length _ _ _ Hd), Nat.eqb_refl.
  cbn [mbind result_bind].
  assert (Tuple.types_match (Schema.columns s) data = true) as ->; [|done].
  unfold Tuple.types_match. apply forallb_forall. intros [col v] [i Hi]%list_elem_of_In%list_elem_of_lookup.
  apply lookup_zip_with_Some in Hi as (? & ? & [= <- <-] & Hc & Hv).
  rewrite bool_decide_eq_true. symmetry. apply (Forall2_lookup_lr _ _ _ _ _ _ Hd Hc Hv).
Qed.

Lemma bind_not_Panic {A B} (r : result A) (f : A → result B) :
  r ≠ Panic → (∀ a, f a ≠ Panic) → r ≫= f ≠ Panic.
Proof. destruct r; naive_solver. Qed.

Lemma ok_or_not_Panic {A} (o : option A) e : ok_or o e ≠ Panic.
Proof. by destruct o. Qed.

Lemma coercion_not_Panic l r : DataType.comparison_numeric_coercion l r ≠ Panic.
Proof. unfold DataType.comparison_numeric_coercion. destruct (decide (l = r)); [done|]. by destruct l, r. Qed.

Lemma cast_to_not_Panic v dt : ScalarValue.cast_to v dt ≠ Panic.
Proof.
  unfold ScalarValue.cast_to. destruct (decide _); [done|]. by destruct dt, v.
Qed.

Lemma comparison_not_Panic l r acc : evaluate_comparison l r acc ≠ Panic.
Proof.
  unfold evaluate_comparison. apply bind_not_Panic; [apply coercion_not_Panic|]. intros ct.
  do 2 (apply bind_not_Panic; [apply cast_to_not_Panic|]; intros ?).
  apply bind_not_Panic; [apply ok_or_not_Panic|done].
Qed.

Lemma apply_not_Panic op l r : BinaryExpr.apply op l r ≠ Panic.
Proof.
  destruct op; simpl; try apply comparison_not_Panic; try done.
  apply bind_not_Panic; [by destruct l|]. intros b1.
  apply bind_not_Panic; [by destruct r|]. intros b2. by destruct b1, b2.
Qed.

Lemma value_by_name_not_Panic tuple relation name : Tuple.value_by_name tuple relation name ≠ Panic.
Proof.
  unfold Tuple.value_by_name, Tuple.value, Schema.index_of.
  apply bind_not_Panic; [apply ok_or_not_Panic|]. intros. apply ok_or_not_Panic.
Qed.

(** Evaluation never panics. *)
Fixpoint evaluate_not_Panic (e : t) (tuple : Tuple.t) {struct e} : evaluate e tuple ≠ Panic.
Proof.
  destruct e as [e ?|relation name|v|e1 op e2|e dt|kind args ?]; simpl.
  - apply evaluate_not_Panic.
  - apply value_by_name_not_Panic.
  - done.
  - apply bind_not_Panic; [apply evaluate_not_Panic|]. intros l.
    apply bind_not_Panic; [apply evaluate_not_Panic|]. intros r. apply apply_not_Panic.
  - apply bind_not_Panic; [apply evaluate_not_Panic|]. intros v. apply cast_to_not_Panic.
  - destruct args as [|e args]; [done|]. apply evaluate_not_Panic.
Qed.

Lemma comparison_Boolean l r acc v :
  evaluate_comparison l r acc = Ok v → ∃ b, v = ScalarValue.Boolean (Some b).
Proof. unfold evaluate_comparison. intros H. inv_res. by eexists. Qed.

Lemma apply_Boolean op l r v :
  BinaryExpr.apply op l r = Ok v → ∃ b, v = ScalarValue.Boolean (Some b).
Proof.
  destruct op; simpl; try apply comparison_Boolean; try done.
  intros H. inv_res. destruct a as [v1|], a0 as [v2|]; injection H as <-; by eexists.
Qed.

Lemma column_value s tuple relation name c v :
  has_types s tuple → Schema.column_with_name s relation name = Ok c →
  Tuple.value_by_name tuple relation name = Ok v →
  ScalarValue.data_type v = ScalarValue.erase (Column.data_type c) ∧
  (nulls_ok s tuple → Column.nullable c = false → ScalarValue.is_null v = false).
Proof.
  intros [Hs Hd]. unfold Schema.column_with_name, Tuple.value_by_name. rewrite Hs.
  destruct (Schema.index_of s relation name) as [i| |]; [|done..]. cbn [mbind result_bind].
  intros Hc%index_Ok_inv. unfold Tuple.value. destruct (Tuple.data tuple !! i) as [w|] eqn:Hi; [|done].
  intros [= <-]. split.
  - apply (Forall2_lookup_lr _ _ _ _ _ _ Hd Hc Hi).
  - intros Hn. apply (Forall2_lookup_lr _ _ _ _ _ _ Hn Hc Hi).
Qed.

Lemma evaluate_type e s tuple dt v :
  scalar e = true → has_types s tuple → data_type e s = Ok dt → evaluate e tuple = Ok v →
  ScalarValue.data_type v = ScalarValue.erase dt.
Proof.
  intros Hsc Ht. revert dt v Hsc.
  induction e as [e IH ?|relation name|w|e1 _ op e2 _|e _ dt'|kind args ?]; intros dt v Hsc; simpl in *.
  - by apply IH.
  - intros Hdt Hv. inv_res. by destruct (column_value _ _ _ _ _ _ Ht Ha Hv).
  - intros [= <-] [= <-]. by destruct w.
  - intros Hdt Hv. inv_res. destruct (apply_Boolean _ _ _ _ Hv) as [b ->].
    by destruct op; simplify_eq/=.
  - intros [= <-] Hv. inv_res. destruct (ScalarValueFacts.cast_to_data_type _ _ _ Hv) as [H1 _].
    by rewrite <- H1, ScalarValueFacts.erase_data_type.
  - done.
Qed.

Lemma evaluate_not_null e s tuple v :
  has_types s tuple → nulls_ok s tuple → nullable e s = Ok false → evaluate e tuple = Ok v →
  ScalarValue.is_null v = false.
Proof.
  intros Ht Hn. revert v.
  induction e as [e IH ?|relation name|w|e1 _ op e2 _|e IH dt'|kind args ?]; intros v; simpl in *.
  - by apply IH.
  - intros Hdt Hv. inv_res. by destruct (column_value _ _ _ _ _ _ Ht Ha Hv) as [_ ?]; auto.
  - by intros [= Hw] [= <-].
  - intros _ Hv. inv_res. by destruct (apply_Boolean _ _ _ _ Hv) as [b ->].
  - intros Hnull Hv. inv_res. destruct (ScalarValueFacts.cast_to_data_type _ _ _ Hv) as [_ ->]. by apply IH.
  - done.
Qed.

(** *** Comparisons of integers *)

(** The mathematical value of an integer, [None] for a null. *)
Definition as_int (v : ScalarValue.t) : option (option Z) :=
  match v with
  | ScalarValue.Int8 o | ScalarValue.Int16 o | ScalarValue.Int32 o | ScalarValue.Int64 o
  | ScalarValue.UInt8 o | ScalarValue.UInt16 o | ScalarValue.UInt32 o | ScalarValue.UInt64 o => Some o
  | _ => None
  end.

Definition ints_cmp (a b : option Z) : comparison := ScalarValue.option_cmp Z.compare a b.

(** A widening cast keeps the integer. *)
Lemma widen w w' o :
  0 < w ≤ w' → from_option (signed_ok w) True o → to_signed w' <$> o = o.
Proof.
  intros Hw. destruct o as [z|]; simpl; [|done]. intros [H1 H2]. f_equal.
  apply to_signed_small; [lia|]. unfold signed_ok.
  assert (2 ^ (w - 1) ≤ 2 ^ (w' - 1)) by (apply Z.pow_le_mono_r; lia). lia.
Qed.

(** The pairs of integer types [cast_to] has the casts for. *)
Definition comparable (l r : DataType.t) : bool :=
  bool_decide (l = r) ||
  match l, r with
  | DataType.Int64, (DataType.Int8 | DataType.Int32) | (DataType.Int8 | DataType.Int32), DataType.Int64
  | DataType.Int8, (DataType.Int16 | DataType.Int32) | (DataType.Int16 | DataType.Int32), DataType.Int8 => true
  | _, _ => false
  end.

Lemma comparison_ints l r a b acc :
  as_int l = Some a → as_int r = Some b → ScalarValue.ok l → ScalarValue.ok r →
  evaluate_comparison l r acc
  = if comparable (ScalarValue.data_type l) (ScalarValue.data_type r)
    then Ok (ScalarValue.Boolean (Some (bool_decide (ints_cmp a b ∈ acc))))
    else Err (NotSupport "Failed to cast {:?} to {} type").
Proof.
  intros Ha Hb Hl Hr.
  assert (∀ o, ScalarValue.ok (ScalarValue.Int8 o) → from_option (signed_ok 8) True o) as H8 by (by intros []).
  assert (∀ o, ScalarValue.ok (ScalarValue.Int32 o) → from_option (signed_ok 32) True o) as H32 by (by intros []).
  destruct l; simplify_eq/=; destruct r; simplify_eq/=; try done;
    unfold evaluate_comparison; simpl;
    by rewrite ?(widen 8 16), ?(widen 8 32), ?(widen 8 64), ?(widen 32 64) by (lia || auto).
Qed.

End ExpressionFacts.

Module AccumulatorFacts.
Import Accumulator.

Definition nonnull (v : ScalarValue.t) : bool := negb (ScalarValue.is_null v).
Definition values (vs : list ScalarValue.t) : list ScalarValue.t := List.filter nonnull vs.

Definition to_f64 (v : ScalarValue.t) : result Z :=
  casted ← ScalarValue.cast_to v DataType.Float64;
  match casted with
  | ScalarValue.Float64 (Some x) => Ok x
  | _ => Err (Internal "Failed to cast value {} to float64")
  end.

(** [x] is a sum of the floats [fs] in order, with some bracketing: float addition does
    not associate, and partial sums are added as they are merged. *)
Inductive sums : list Z → Z → Prop :=
  | sums_one v : sums [v] v
  | sums_zero fs x : sums fs x → sums fs (f64_add 0 x)
  | sums_app fs gs x y : sums fs x → sums gs y → sums (fs ++ gs) (f64_add x y).

(** What an accumulator holds after the values [vs]. *)
Definition summary (kind : AggregateFunctionKind.t) (vs : list ScalarValue.t) (acc : t) : Prop :=
  match kind with
  | AggregateFunctionKind.Count => acc = Count (Z.of_nat (length (values vs)))
  | AggregateFunctionKind.Avg => ∃ fs sum, mapR to_f64 (values vs) = Ok fs ∧
      acc = Avg sum (Z.of_nat (length fs)) ∧
      match sum with Some x => sums fs x | None => fs = [] end
  end.

(** The values an aggregate function takes. *)
Definition accepted (kind : AggregateFunctionKind.t) (v : ScalarValue.t) : Prop :=
  match kind with
  | AggregateFunctionKind.Count => True
  | AggregateFunctionKind.Avg => nonnull v = true → is_ok (to_f64 v) = true
  end.

Lemma values_app vs ws : values (vs ++ ws) = values vs ++ values ws.
Proof. apply List.filter_app. Qed.

Lemma values_length vs : (length (values vs) ≤ length vs)%nat.
Proof. apply List.filter_length_le. Qed.

Lemma mapR_app {A B} (f : A → result B) l k ys zs :
  mapR f l = Ok ys → mapR f k = Ok zs → mapR f (l ++ k) = Ok (ys ++ zs).
Proof. rewrite !mapR_Ok. apply Forall2_app. Qed.

Lemma summary_create kind : summary kind [] (create kind).
Proof. destruct kind; simpl; [done|]. by exists [], None. Qed.

Lemma summary_merge kind vs ws acc acc' :
  summary kind vs acc → summary kind ws acc' → Z.of_nat (length (vs ++ ws)) < 2 ^ 63 →
  ∃ acc'', merge acc (state acc') = Ok acc'' ∧ summary kind (vs ++ ws) acc''.
Proof.
  intros Hv Hw Hlen. pose proof (values_length (vs ++ ws)) as Hb.
  rewrite values_app, length_app in Hb. unfold summary in *. rewrite values_app, length_app.
  destruct kind.
  - subst. eexists. split; [|reflexivity]. unfold merge, count_merge, state, checked_add_i64.
    rewrite (proj2 (Z.leb_le _ _)), (proj2 (Z.ltb_lt _ _)) by lia. simpl. do 2 f_equal. lia.
  - destruct Hv as (fs & sum & Hfs & -> & Hsum), Hw as (gs & sum' & Hgs & -> & Hsum').
    pose proof (mapR_length _ _ _ Hfs). pose proof (mapR_length _ _ _ Hgs).
    eexists. split.
    { unfold merge, avg_merge, state, checked_add_u64. rewrite (proj2 (Z.ltb_lt _ _)) by lia. reflexivity. }
    exists (fs ++ gs). eexists. split; [by apply mapR_app|]. split.
    { rewrite length_app, Nat2Z.inj_add. reflexivity. }
    destruct sum' as [y|]; simpl.
    + destruct sum as [x|]; simpl; [by apply sums_app|]. subst. by apply sums_zero.
    + subst. by rewrite app_nil_r.
Qed.

Lemma summary_one kind v :
  accepted kind v → nonnull v = true →
  ∃ acc, summary kind [v] acc ∧ ∀ self, (∃ vs, summary kind vs self) →
    update_value self v = merge self (state acc).
Proof.
  unfold accepted, summary, values. intros Hacc Hnull. simpl List.filter. rewrite Hnull.
  assert (ScalarValue.is_null v = false) as Hnv by (by apply negb_true_iff).
  destruct kind.
  - eexists. split; [reflexivity|]. intros self (vs & ->). unfold update_value, count_update_value. by rewrite Hnv.
  - specialize (Hacc Hnull). destruct (to_f64 v) as [x| |] eqn:Hx; [|done..].
    exists (Avg (Some x) 1). split.
    + exists [x], (Some x). simpl. rewrite Hx. split_and!; [done..|constructor].
    + intros self (vs & fs & sum & _ & -> & _). unfold update_value, avg_update_value. rewrite Hnv.
      unfold to_f64 in Hx. destruct (ScalarValue.cast_to v DataType.Float64) as [w| |]; [|done..].
      cbn [mbind result_bind] in *. by destruct w as [| | | | | | | | | |[]|]; simplify_eq.
Qed.

Lemma summary_update kind vs acc v :
  summary kind vs acc → accepted kind v → Z.of_nat (length (vs ++ [v])) < 2 ^ 63 →
  ∃ acc', update_value acc v = Ok acc' ∧ summary kind (vs ++ [v]) acc'.
Proof.
  intros Hs Hv Hlen. destruct (nonnull v) eqn:Hnull.
  - destruct (summary_one kind v Hv Hnull) as (one & Hone & Hu).
    rewrite Hu by (by exists vs). by eapply summary_merge.
  - exists acc. split.
    + apply negb_false_iff in Hnull. destruct acc; simpl; unfold count_update_value, avg_update_value;
        by rewrite Hnull.
    + unfold summary in *. rewrite values_app. unfold values at 2 4. simpl List.filter. rewrite Hnull.
      by rewrite app_nil_r.
Qed.

Lemma sums_exists fs : fs ≠ [] → ∃ x, sums fs x.
Proof.
  induction fs as [|f fs IH]; [done|]. intros _. destruct fs as [|g fs].
  - exists f. constructor.
  - destruct IH as [x Hx]; [done|]. exists (f64_add f x). apply (sums_app [f]); [constructor|done].
Qed.

Lemma summary_exists kind vs : Forall (accepted kind) vs → ∃ acc, summary kind vs acc.
Proof.
  intros Hvs. destruct kind; simpl; [by eexists|].
  destruct (mapR_is_ok to_f64 (values vs)) as [fs Hfs].
  { apply Forall_forall. intros v [Hv Hn]%list_elem_of_In%List.filter_In.
    rewrite Forall_forall in Hvs. apply Hvs; [by apply list_elem_of_In|done]. }
  destruct (decide (fs = [])) as [->|Hne].
  - by exists (Avg None 0), [], None.
  - destruct (sums_exists fs Hne) as [x Hx]. by exists (Avg (Some x) (Z.of_nat (length fs))), fs, (Some x).
Qed.

(** One accumulator over the values, and one for each chunk merged into another. *)
Definition accumulate (acc : t) (vs : list ScalarValue.t) : result t := foldR update_value acc vs.

Definition merge_chunk (kind : AggregateFunctionKind.t) (acc : t) (vs : list ScalarValue.t) : result t :=
  partial ← accumulate (create kind) vs; merge acc (state partial).

Lemma accumulate_summary kind ws acc vs :
  summary kind vs acc → Forall (accepted kind) ws → Z.of_nat (length (vs ++ ws)) < 2 ^ 63 →
  ∃ acc', accumulate acc ws = Ok acc' ∧ summary kind (vs ++ ws) acc'.
Proof.
  intros Hs Hw. revert acc vs Hs. induction Hw as [|w ws Hw _ IH]; intros acc vs Hs Hlen.
  { exists acc. by rewrite app_nil_r. }
  change (w :: ws) with ([w] ++ ws) in *. rewrite (assoc_L (++)) in *.
  destruct (summary_update kind vs acc w Hs Hw) as (acc1 & Hu & Hs1).
  { rewrite !length_app in *. simpl in *. lia. }
  destruct (IH acc1 (vs ++ [w]) Hs1 Hlen) as (acc2 & Hr & Hs2).
  exists acc2. split; [|done]. unfold accumulate. cbn [foldR app]. by rewrite Hu.
Qed.

Lemma merge_chunks_summary kind chunks acc vs :
  summary kind vs acc → Forall (Forall (accepted kind)) chunks →
  Z.of_nat (length (vs ++ concat chunks)) < 2 ^ 63 →
  ∃ acc', foldR (merge_chunk kind) acc chunks = Ok acc' ∧ summary kind (vs ++ concat chunks) acc'.
Proof.
  intros Hs Hc. revert acc vs Hs. induction Hc as [|c chunks Hc _ IH]; intros acc vs Hs Hlen.
  { exists acc. by rewrite app_nil_r. }
  cbn [concat] in *. rewrite (assoc_L (++)) in *.
  destruct (accumulate_summary kind c (create kind) []) as (p & Hp & Hsp); [apply summary_create|done| |].
  { rewrite !length_app in *. simpl. lia. }
  destruct (summary_merge kind vs c acc p Hs Hsp) as (acc1 & Hm & Hs1).
  { rewrite !length_app in *. lia. }
  destruct (IH acc1 _ Hs1 Hlen) as (acc2 & Hr & Hs2).
  exists acc2. split; [|done]. cbn [foldR].
  assert (merge_chunk kind acc c = Ok acc1) as -> by (unfold merge_chunk; by rewrite Hp). done.
Qed.

End AccumulatorFacts.

(** ** Properties *)
Module ExpressionSpec.
Import Expr ExpressionFacts AccumulatorFacts.

(** C37: evaluation is type safe. Evaluating an expression never panics. On a tuple of the
    schema it was typed with, a value is not null when [nullable] says so, and, when the
    expression has no aggregate function ([scalar]), has the type [data_type] gives (the
    declared length of a varchar aside). An aggregate function that is evaluated on a row
    gives the value of its argument, whatever [data_type] says. *)
Theorem evaluate_type_safe e s tuple :
  Tuple.ok s tuple → nulls_ok s tuple →
  evaluate e tuple ≠ Panic ∧
  ∀ v, evaluate e tuple = Ok v →
    (∀ dt, scalar e = true → data_type e s = Ok dt →
      ScalarValue.data_type v = ScalarValue.erase dt) ∧
    (nullable e s = Ok false → ScalarValue.is_null v = false).
Proof.
  intros Ht%ok_has_types Hn. split; [apply evaluate_not_Panic|]. intros v Hv. split.
  - intros dt Hsc Hdt. by eapply evaluate_type.
  - intros Hnull. by eapply evaluate_not_null.
Qed.

Definition demo_expr : t :=
  Binary (Column None "a") BinaryOp.Gt (Literal (ScalarValue.Int64 (Some 21))).

Lemma evaluate_type_safe_witness :
  evaluate demo_expr (SchemaSpec.demo_tuple 30 0) ≠ Panic ∧
  ∀ v, evaluate demo_expr (SchemaSpec.demo_tuple 30 0) = Ok v →
    ScalarValue.data_type v = DataType.Boolean.
Proof.
  destruct (evaluate_type_safe demo_expr SchemaSpec.demo_schema (SchemaSpec.demo_tuple 30 0)) as [Hn H].
  - by apply SchemaSpec.demo_tuple_ok.
  - repeat (apply Forall2_cons; split; [done|]). done.
  - split; [done|]. intros v Hv. destruct (H v Hv) as [Ht _]. by apply (Ht DataType.Boolean).
Defined.

(** C38: comparing two integers, whatever their types, either compares their
    mathematical values, a null before every integer and equal to a null, or fails
    because a cast is missing; it never compares wrapped values. It fails exactly for the pairs of
    different types other than [Int64] with [Int8] or [Int32], and [Int8] with [Int16]
    or [Int32]. *)
Theorem comparison_of_integers l r a b accepted_orderings :
  as_int l = Some a → as_int r = Some b → ScalarValue.ok l → ScalarValue.ok r →
  evaluate_comparison l r accepted_orderings
  = if comparable (ScalarValue.data_type l) (ScalarValue.data_type r)
    then Ok (ScalarValue.Boolean (Some (bool_decide (ints_cmp a b ∈ accepted_orderings))))
    else Err (NotSupport "Failed to cast {:?} to {} type").
Proof. apply comparison_ints. Qed.

Lemma comparison_of_integers_witness :
  evaluate_comparison (ScalarValue.Int8 (Some (-1))) (ScalarValue.Int64 (Some 4294967295)) [Lt]
    = Ok (ScalarValue.Boolean (Some true)) ∧
  is_ok (evaluate_comparison (ScalarValue.UInt8 (Some 1)) (ScalarValue.Int64 (Some 1)) [Eq]) = false.
Proof.
  rewrite (comparison_of_integers (ScalarValue.Int8 (Some (-1))) _ (Some (-1)) (Some 4294967295)) by done.
  rewrite (comparison_of_integers (ScalarValue.UInt8 (Some 1)) _ (Some 1) (Some 1)) by done.
  done.
Defined.

(** C39: partial aggregation. Cutting the values of a group into chunks in any way,
    accumulating each chunk from a fresh accumulator and merging the partial states, and
    accumulating all the values, both succeed below 2^63 values. For COUNT they give the
    same accumulator, the number of values that are not null. For AVG both give that
    number and a sum of these values in order; the sums may differ in the bracketing of the
    floating-point additions, and so by rounding, and are not claimed to be equal. *)
Theorem partial_aggregation kind chunks :
  Forall (Forall (accepted kind)) chunks → Z.of_nat (length (concat chunks)) < 2 ^ 63 →
  ∃ acc acc', foldR (merge_chunk kind) (Accumulator.create kind) chunks = Ok acc ∧
    accumulate (Accumulator.create kind) (concat chunks) = Ok acc' ∧
    summary kind (concat chunks) acc ∧ summary kind (concat chunks) acc' ∧
    (kind = AggregateFunctionKind.Count → acc = acc').
Proof.
  intros Hc Hlen.
  destruct (merge_chunks_summary kind chunks (Accumulator.create kind) [] (summary_create kind) Hc Hlen)
    as (acc & Hacc & Hs).
  destruct (accumulate_summary kind (concat chunks) (Accumulator.create kind) [] (summary_create kind))
    as (acc' & Hacc' & Hs'); [by apply Forall_concat|done|].
  exists acc, acc'. split_and!; [done..|]. intros ->. simpl in Hs, Hs'. congruence.
Qed.

Definition demo_values : list (list ScalarValue.t) :=
  [[ScalarValue.Int32 (Some 1); ScalarValue.Int32 None]; []; [ScalarValue.Int32 (Some 5)]].

Lemma partial_aggregation_witness :
  foldR (merge_chunk AggregateFunctionKind.Count) (Accumulator.Count 0) demo_values
  = Ok (Accumulator.Count 2).
Proof.
  destruct (partial_aggregation AggregateFunctionKind.Count demo_values) as (acc & acc' & H & _ & Hs & _).
  - by repeat constructor.
  - done.
  - simpl in Hs. by rewrite Hs in H.
Defined.

End ExpressionSpec.
