(* ===== verification/LogicalPlan.v ===== *)
(** * LogicalPlan: logical query plans

    Models [bustubx/src/planner/logical_plan/*.rs]: the plan nodes, their schemas,
    their inputs and [with_new_inputs], and the schema of a join. The assignments of an
    update, a hash map, are an association list. *)
From S2P Require Import Prelude CommonCodec Floats Text Scalar Schema Expressions.
Local Open Scope Z_scope.

Module JoinType.
Inductive t := Inner | LeftOuter | RightOuter | FullOuter | Cross.

#[global] Instance eq_dec : EqDecision t.
Proof. solve_decision. Defined.
End JoinType.

Module OrderByExpr.
Record t := Mk { expr : Expr.t; asc : bool; nulls_first : bool }.
End OrderByExpr.

(** [INSERT_OUTPUT_SCHEMA_REF] and [UPDATE_OUTPUT_SCHEMA_REF] of catalog/schema.rs. *)
Definition INSERT_OUTPUT_SCHEMA : Schema.t :=
  Schema.Mk [Column.new "insert_rows" DataType.Int32 false].
Definition UPDATE_OUTPUT_SCHEMA : Schema.t :=
  Schema.Mk [Column.new "update_rows" DataType.Int32 false].

Module LogicalPlan.

Inductive t :=
  | CreateTable (name : TableReference.t) (columns : list Column.t)
  | CreateIndex (index_name : string) (table : TableReference.t) (table_schema : Schema.t)
      (columns : list OrderByExpr.t)
  | Filter (predicate : Expr.t) (input : t)
  | Insert (table : TableReference.t) (table_schema projected_schema : Schema.t) (input : t)
  | Join (l_plan r_plan : t) (join_type : JoinType.t) (condition : option Expr.t)
      (schema : Schema.t)
  | Limit (limit : option Z) (offset : Z) (input : t)
  | Project (exprs : list Expr.t) (input : t) (schema : Schema.t)
  | TableScan (table_ref : TableReference.t) (table_schema : Schema.t) (filters : list Expr.t)
      (limit : option Z)
  | Sort (order_by : list OrderByExpr.t) (input : t) (limit : option Z)
  | Values (schema : Schema.t) (values : list (list Expr.t))
  | EmptyRelation (produce_one_row : bool) (schema : Schema.t)
  | Aggregate (input : t) (group_exprs aggr_exprs : list Expr.t) (schema : Schema.t)
  | Update (table : TableReference.t) (table_schema : Schema.t)
      (assignments : list (string * Expr.t)) (selection : option Expr.t).

Fixpoint schema (self : t) : Schema.t :=
  match self with
  | CreateTable _ _ => Schema.empty
  | CreateIndex _ _ _ _ => Schema.empty
  | Filter _ input => schema input
  | Insert _ _ _ _ => INSERT_OUTPUT_SCHEMA
  | Join _ _ _ _ schema => schema
  | Limit _ _ input => schema input
  | Project _ _ schema => schema
  | TableScan _ table_schema _ _ => table_schema
  | Sort _ input _ => schema input
  | Values schema _ => schema
  | EmptyRelation _ schema => schema
  | Aggregate _ _ _ schema => schema
  | Update _ _ _ _ => UPDATE_OUTPUT_SCHEMA
  end.

Definition inputs (self : t) : list t :=
  match self with
  | Filter _ input => [input]
  | Insert _ _ _ input => [input]
  | Join l_plan r_plan _ _ _ => [l_plan; r_plan]
  | Limit _ _ input => [input]
  | Project _ input _ => [input]
  | Sort _ input _ => [input]
  | Aggregate input _ _ _ => [input]
  | CreateTable _ _ | CreateIndex _ _ _ _ | TableScan _ _ _ _ | Values _ _ | Update _ _ _ _
  | EmptyRelation _ _ => []
  end.

(** [inputs.first().ok_or_else(..)] *)
Definition first_input (inputs : list t) (msg : string) : result t :=
  ok_or (head inputs) (Internal msg).

Definition with_new_inputs (self : t) (inputs : list t) : result t :=
  let at_least_one := "inputs {:?} should have at least one"%string in
  let at_least_two := "inputs {:?} should have at least two"%string in
  match self with
  | Filter predicate _ =>
      input ← first_input inputs at_least_one; Ok (Filter predicate input)
  | Insert table table_schema projected_schema _ =>
      input ← first_input inputs at_least_one;
      Ok (Insert table table_schema projected_schema input)
  | Join _ _ join_type condition schema =>
      l_plan ← first_input inputs at_least_two;
      r_plan ← first_input inputs at_least_two;
      Ok (Join l_plan r_plan join_type condition schema)
  | Limit limit offset _ =>
      input ← first_input inputs at_least_one; Ok (Limit limit offset input)
  | Project exprs _ schema =>
      input ← first_input inputs at_least_one; Ok (Project exprs input schema)
  | Sort order_by _ limit =>
      input ← first_input inputs at_least_one; Ok (Sort order_by input limit)
  | Aggregate _ group_exprs aggr_exprs schema =>
      input ← first_input inputs at_least_one;
      Ok (Aggregate input group_exprs aggr_exprs schema)
  | CreateTable _ _ | CreateIndex _ _ _ _ | TableScan _ _ _ _ | Values _ _ | Update _ _ _ _
  | EmptyRelation _ _ => Ok self
  end.

End LogicalPlan.

(** ** util.rs *)
Definition with_nullable (nullable : bool) (self : Column.t) : Column.t :=
  Column.Mk (Column.relation self) (Column.name self) (Column.data_type self) nullable.

Definition nullify_columns (columns : list Column.t) : list Column.t :=
  with_nullable true <$> columns.

Definition build_join_schema (l_schema r_schema : Schema.t) (join_type : JoinType.t) : Schema.t :=
  let left_cols := Schema.columns l_schema in
  let right_cols := Schema.columns r_schema in
  Schema.Mk
    match join_type with
    | JoinType.Inner | JoinType.Cross => left_cols ++ right_cols
    | JoinType.LeftOuter => left_cols ++ nullify_columns right_cols
    | JoinType.RightOuter => nullify_columns left_cols ++ right_cols
    | JoinType.FullOuter => nullify_columns left_cols ++ nullify_columns right_cols
    end.

Definition project_schema (input : LogicalPlan.t) (exprs : list Expr.t) : result Schema.t :=
  columns ← mapR (λ expr, Expr.to_column expr (LogicalPlan.schema input)) exprs;
  Schema.new columns.
