(* ===== verification/Ast.v ===== *)
(** * Ast: SQL syntax trees

    The part of the syntax trees of the sqlparser package that the engine reads: a type
    has a constructor for each pattern of the code and one more for all the others; a
    struct has the fields that are read. What the package computes is the class
    [Sqlparser]. [SqlDataType] converts its data types, as [bustubx/src/catalog/data_type.rs]
    does. *)
From Stdlib Require Import Ascii.
From S2P Require Import Prelude CommonCodec Floats Text Scalar.
Local Open Scope Z_scope.

Module Ast.

Record Ident := MkIdent { value : string; quote_style : option ascii }.
Definition ObjectName := list Ident.

Inductive BinaryOperator :=
  | Plus | Minus | Multiply | Divide | Gt | Lt | GtEq | LtEq | Eq | NotEq | And | Or
  | OtherOperator.

Inductive Value :=
  | Number (s : string) (long : bool)
  | Boolean (b : bool)
  | Null
  | SingleQuotedString (s : string)
  | OtherValue.

Inductive Expr :=
  | Identifier (ident : Ident)
  | CompoundIdentifier (idents : list Ident)
  | BinaryOp (l_expr : Expr) (op : BinaryOperator) (r_expr : Expr)
  | ValueExpr (value : Value)
  | Function (name : ObjectName) (args : list FunctionArg) (distinct : bool)
  | OtherExpr
with FunctionArg :=
  | Named (name : Ident) (arg : FunctionArgExpr)
  | Unnamed (arg : FunctionArgExpr)
with FunctionArgExpr :=
  | ArgExpr (e : Expr)
  | OtherArg.

Record OrderByExpr := MkOrderBy { expr : Expr; asc : option bool; nulls_first : option bool }.

Inductive SelectItem :=
  | UnnamedExpr (e : Expr)
  | ExprWithAlias (e : Expr) (alias : Ident)
  | Wildcard
  | OtherItem.

Inductive JoinConstraint :=
  | On (e : Expr)
  | OtherConstraint.

Inductive JoinOperator :=
  | Inner (constraint : JoinConstraint)
  | LeftOuter (constraint : JoinConstraint)
  | RightOuter (constraint : JoinConstraint)
  | FullOuter (constraint : JoinConstraint)
  | CrossJoin
  | OtherJoin.

(** [offset] is the [value] of an [Offset]. *)
Inductive Query :=
  | MkQuery (body : SetExpr) (order_by : list OrderByExpr) (limit offset : option Expr)
with SetExpr :=
  | SelectExpr (select : Select)
  | ValuesExpr (rows : list (list Expr))
  | OtherSetExpr
with Select :=
  | MkSelect (projection : list SelectItem) (from : list TableWithJoins) (selection : option Expr)
      (group_by : list Expr)
with TableWithJoins :=
  | MkTable (relation : TableFactor) (joins : list Join)
with Join :=
  | MkJoin (relation : TableFactor) (join_operator : JoinOperator)
with TableFactor :=
  | Table (name : ObjectName)
  | NestedJoin (table_with_joins : TableWithJoins)
  | Derived (subquery : Query)
  | OtherFactor.

Inductive DataType :=
  | BooleanType
  | TinyInt (display : option Z)
  | SmallInt (display : option Z)
  | Int (display : option Z)
  | Integer (display : option Z)
  | BigInt (display : option Z)
  | UnsignedTinyInt (display : option Z)
  | UnsignedSmallInt (display : option Z)
  | UnsignedInt (display : option Z)
  | UnsignedInteger (display : option Z)
  | UnsignedBigInt (display : option Z)
  | Float (precision : option Z)
  | Double
  | Varchar (length : option Z)
  | CharVarying (length : option Z)
  | CharacterVarying (length : option Z)
  | OtherType.

Inductive ColumnOption :=
  | NotNull
  | OtherOption.

Record ColumnDef := MkColumnDef {
  name : Ident;
  data_type : DataType;
  options : list ColumnOption;
}.

Record Assignment := MkAssignment { id : list Ident; assigned : Expr }.

Inductive Statement :=
  | CreateTable (name : ObjectName) (columns : list ColumnDef)
  | CreateIndex (name table_name : ObjectName) (columns : list OrderByExpr)
  | QueryStatement (query : Query)
  | Insert (table_name : ObjectName) (columns : list Ident) (source : Query)
  | Update (table : TableWithJoins) (assignments : list Assignment) (selection : option Expr)
  | OtherStatement.

End Ast.

(** ** The package

    [parse_sql] is [Parser::parse_sql] with the dialect of PostgreSQL, [parse_data_type]
    the method of that name on a parser of the string, and the others are the [Display]
    of names and data types. *)
Class Sqlparser := {
  parse_sql : string → result (list Ast.Statement);
  parse_data_type : string → result Ast.DataType;
  show_object_name : Ast.ObjectName → string;
  show_data_type : Ast.DataType → string;
}.

(** ** Data types *)
Module SqlDataType.

(** [TryFrom<&sqlparser::ast::DataType> for DataType] *)
Definition try_from (value : Ast.DataType) : result DataType.t :=
  match value with
  | Ast.BooleanType => Ok DataType.Boolean
  | Ast.TinyInt _ => Ok DataType.Int8
  | Ast.SmallInt _ => Ok DataType.Int16
  | Ast.Int _ | Ast.Integer _ => Ok DataType.Int32
  | Ast.BigInt _ => Ok DataType.Int64
  | Ast.UnsignedTinyInt _ => Ok DataType.UInt8
  | Ast.UnsignedSmallInt _ => Ok DataType.UInt16
  | Ast.UnsignedInt _ | Ast.UnsignedInteger _ => Ok DataType.UInt32
  | Ast.UnsignedBigInt _ => Ok DataType.UInt64
  | Ast.Float _ => Ok DataType.Float32
  | Ast.Double => Ok DataType.Float32
  | Ast.Varchar len => Ok (DataType.Varchar len)
  | Ast.CharVarying len => Ok (DataType.Varchar len)
  | Ast.CharacterVarying len => Ok (DataType.Varchar len)
  | Ast.OtherType => Err (NotSupport "Not support datatype {}")
  end.

(** [From<&DataType> for sqlparser::ast::DataType] *)
Definition from (value : DataType.t) : Ast.DataType :=
  match value with
  | DataType.Boolean => Ast.BooleanType
  | DataType.Int8 => Ast.TinyInt None
  | DataType.Int16 => Ast.SmallInt None
  | DataType.Int32 => Ast.Integer None
  | DataType.Int64 => Ast.BigInt None
  | DataType.UInt8 => Ast.UnsignedTinyInt None
  | DataType.UInt16 => Ast.UnsignedSmallInt None
  | DataType.UInt32 => Ast.UnsignedInteger None
  | DataType.UInt64 => Ast.UnsignedBigInt None
  | DataType.Float32 => Ast.Float None
  | DataType.Float64 => Ast.Double
  | DataType.Varchar len => Ast.Varchar len
  end.

Section sqlparser.
Context `{Sqlparser}.

(** [TryFrom<&str> for DataType] *)
Definition try_from_str (value : string) : result DataType.t :=
  sql_data_type ← parse_data_type value; try_from sql_data_type.

(** [sqlparser::ast::DataType::from(data_type).to_string()] *)
Definition sql_type_name (data_type : DataType.t) : string := show_data_type (from data_type).
End sqlparser.

(** A data type survives the conversion, but for the wide float. *)
Lemma try_from_from dt : dt ≠ DataType.Float64 → try_from (from dt) = Ok dt.
Proof. by destruct dt. Qed.

End SqlDataType.

(** ** Induction over queries

    Queries, selects, tables and joins at once, through the lists between them. *)
Module AstFacts.
Import Ast.

Section query_ind.
Context (Pq : Query → Prop) (Ps : SetExpr → Prop) (Pl : Select → Prop) (Pt : TableWithJoins → Prop)
  (Pj : Join → Prop) (Pf : TableFactor → Prop).
Context (Hquery : ∀ body order_by limit offset, Ps body → Pq (MkQuery body order_by limit offset)).
Context (Hselect : ∀ select, Pl select → Ps (SelectExpr select)).
Context (Hvalues : ∀ rows, Ps (ValuesExpr rows)).
Context (Hset : Ps OtherSetExpr).
Context (Hmk : ∀ projection from selection group_by,
  Forall Pt from → Pl (MkSelect projection from selection group_by)).
Context (Htable : ∀ relation joins, Pf relation → Forall Pj joins → Pt (MkTable relation joins)).
Context (Hjoin : ∀ relation join_operator, Pf relation → Pj (MkJoin relation join_operator)).
Context (Hname : ∀ name, Pf (Table name)).
Context (Hnested : ∀ t, Pt t → Pf (NestedJoin t)).
Context (Hderived : ∀ q, Pq q → Pf (Derived q)).
Context (Hfactor : Pf OtherFactor).

Fixpoint query_induction (q : Query) : Pq q :=
  match q with
  | MkQuery body order_by limit offset => Hquery body order_by limit offset (set_expr_induction body)
  end
with set_expr_induction (s : SetExpr) : Ps s :=
  match s with
  | SelectExpr select => Hselect select (select_induction select)
  | ValuesExpr rows => Hvalues rows
  | OtherSetExpr => Hset
  end
with select_induction (l : Select) : Pl l :=
  match l with
  | MkSelect projection from selection group_by =>
      Hmk projection from selection group_by
        ((fix go l : Forall Pt l :=
            match l with
            | [] => List.Forall_nil Pt
            | t :: l' => @List.Forall_cons _ Pt t l' (table_induction t) (go l')
            end) from)
  end
with table_induction (t : TableWithJoins) : Pt t :=
  match t with
  | MkTable relation joins =>
      Htable relation joins (factor_induction relation)
        ((fix go l : Forall Pj l :=
            match l with
            | [] => List.Forall_nil Pj
            | j :: l' => @List.Forall_cons _ Pj j l' (join_induction j) (go l')
            end) joins)
  end
with join_induction (j : Join) : Pj j :=
  match j with
  | MkJoin relation join_operator => Hjoin relation join_operator (factor_induction relation)
  end
with factor_induction (f : TableFactor) : Pf f :=
  match f with
  | Table name => Hname name
  | NestedJoin t => Hnested t (table_induction t)
  | Derived q => Hderived q (query_induction q)
  | OtherFactor => Hfactor
  end.
End query_ind.
End AstFacts.
