(* ===== verification/SqlPlanner.v ===== *)
(** * SqlPlanner: logical plans from SQL syntax trees

    Models [bustubx/src/planner/logical_planner/*.rs]: expressions are bound, and the
    statements the engine has become logical plans over the tables of the catalog. The
    functions over queries, tables and joins call each other as in the code. *)
From S2P Require Import Prelude CommonCodec Floats Text Scalar Schema TupleCodec TablePage IndexPage.
From S2P Require Import DiskPages DiskManager Replacer BufferPool PageStore TableHeap Index Catalog.
From S2P Require Import Expressions LogicalPlan Ast.
Local Open Scope Z_scope.

(** [TryFrom<&sqlparser::ast::BinaryOperator> for BinaryOp] *)
Definition binary_op (value : Ast.BinaryOperator) : result BinaryOp.t :=
  match value with
  | Ast.Plus => Ok BinaryOp.Plus
  | Ast.Minus => Ok BinaryOp.Minus
  | Ast.Multiply => Ok BinaryOp.Multiply
  | Ast.Divide => Ok BinaryOp.Divide
  | Ast.Gt => Ok BinaryOp.Gt
  | Ast.Lt => Ok BinaryOp.Lt
  | Ast.GtEq => Ok BinaryOp.GtEq
  | Ast.LtEq => Ok BinaryOp.LtEq
  | Ast.Eq => Ok BinaryOp.Eq
  | Ast.NotEq => Ok BinaryOp.NotEq
  | Ast.And => Ok BinaryOp.And
  | Ast.Or => Ok BinaryOp.Or
  | Ast.OtherOperator => Err (NotSupport "sqlparser binary operator {} not supported")
  end.

Module LogicalPlanner.
Section planner.
Context {D : Type} `{Disk D} `{Sqlparser}.

(** [PlannerContext], all that a planner holds. *)
Record t := Mk { catalog : Catalog.t D }.

(** *** Expressions *)
Definition bind_value (value : Ast.Value) : result Expr.t :=
  match value with
  | Ast.Number s _ =>
      match Text.parse_i64 s with
      | Some num => Ok (Expr.Literal (ScalarValue.Int64 (Some num)))
      | None =>
          match Text.parse_f64 s with
          | Some num => Ok (Expr.Literal (ScalarValue.Float64 (Some num)))
          | None => Err (Internal "Failed to parse sql number value")
          end
      end
  | Ast.Boolean b => Ok (Expr.Literal (ScalarValue.Boolean (Some b)))
  | Ast.Null => Ok (Expr.Literal (ScalarValue.Int8 None))
  | Ast.SingleQuotedString s => Ok (Expr.Literal (ScalarValue.Varchar (Some s)))
  | Ast.OtherValue => Err (NotSupport "sqlparser value {} not supported")
  end.

Definition bind_compound_identifier (idents : list Ast.Ident) : result Expr.t :=
  match Ast.value <$> idents with
  | [col] => Ok (Expr.Column None col)
  | [table; col] => Ok (Expr.Column (Some (TableReference.Bare table)) col)
  | [schema; table; col] => Ok (Expr.Column (Some (TableReference.Partial schema table)) col)
  | [catalog; schema; table; col] =>
      Ok (Expr.Column (Some (TableReference.Full catalog schema table)) col)
  | _ => Err (NotSupport
           "sqlparser expr CompoundIdentifier has more than 4 identifiers: {:?}")
  end.

(** [bind_function], given the binding of an argument. *)
Definition bind_function (bind_function_arg : Ast.FunctionArg → result Expr.t)
    (name : Ast.ObjectName) (args : list Ast.FunctionArg) (distinct : bool) : result Expr.t :=
  match AggregateFunctionKind.find (show_object_name name) with
  | Some func_kind =>
      args ← mapR bind_function_arg args;
      Ok (Expr.AggregateFunction func_kind args distinct)
  | None => Err (Plan "The function {} is not supported")
  end.

Fixpoint bind_expr (sql : Ast.Expr) : result Expr.t :=
  match sql with
  | Ast.Identifier ident => Ok (Expr.Column None (Ast.value ident))
  | Ast.BinaryOp l_expr op r_expr =>
      l_expr ← bind_expr l_expr;
      r_expr ← bind_expr r_expr;
      op ← binary_op op;
      Ok (Expr.Binary l_expr op r_expr)
  | Ast.ValueExpr value => bind_value value
  | Ast.CompoundIdentifier idents => bind_compound_identifier idents
  | Ast.Function name args distinct => bind_function bind_function_arg name args distinct
  | Ast.OtherExpr => Err (NotSupport "sqlparser expr {} not supported")
  end
with bind_function_arg (arg : Ast.FunctionArg) : result Expr.t :=
  match arg with
  | Ast.Named _ arg | Ast.Unnamed arg => bind_function_arg_expr arg
  end
with bind_function_arg_expr (arg : Ast.FunctionArgExpr) : result Expr.t :=
  match arg with
  | Ast.ArgExpr e => bind_expr e
  | Ast.OtherArg => Err (Plan "The function arg {} is not supported")
  end.

Definition bind_order_by_expr (order_by : Ast.OrderByExpr) : result OrderByExpr.t :=
  expr ← bind_expr (Ast.expr order_by);
  Ok (OrderByExpr.Mk expr (default true (Ast.asc order_by)) (default false (Ast.nulls_first order_by))).

Definition bind_table_name (table_name : Ast.ObjectName) : result TableReference.t :=
  match Ast.value <$> table_name with
  | [table] => Ok (TableReference.Bare table)
  | [schema; table] => Ok (TableReference.Partial schema table)
  | [catalog; schema; table] => Ok (TableReference.Full catalog schema table)
  | _ => Err (Plan "Fail to plan table name: {}")
  end.

(** *** Queries *)
Definition plan_order_by (input : LogicalPlan.t) (order_by : list Ast.OrderByExpr) :
    result LogicalPlan.t :=
  match order_by with
  | [] => Ok input
  | _ => order_by_exprs ← mapR bind_order_by_expr order_by;
         Ok (LogicalPlan.Sort order_by_exprs input None)
  end.

Definition bind_limit (limit : option Ast.Expr) : result (option Z) :=
  match limit with
  | None => Ok None
  | Some limit_expr =>
      e ← bind_expr limit_expr;
      match e with
      | Expr.Literal (ScalarValue.Int64 (Some v)) =>
          if 0 <=? v then Ok (Some v) else Err (Plan "LIMIT must not be negative, {}")
      | Expr.Literal _ => Err (Plan "LIMIT must not be negative, {}")
      | _ => Err (Plan "LIMIT must be literal, {}")
      end
  end.

Definition bind_offset (offset : option Ast.Expr) : result Z :=
  match offset with
  | None => Ok 0
  | Some offset_expr =>
      e ← bind_expr offset_expr;
      match e with
      | Expr.Literal (ScalarValue.Int64 (Some v)) =>
          if v <? 0 then Err (Plan "Offset must be >= 0, {}") else Ok v
      | Expr.Literal _ => Err (Plan "Offset value not int64, {}")
      | _ => Err (Plan "Offset expression not expected, {}")
      end
  end.

Definition plan_limit (input : LogicalPlan.t) (limit offset : option Ast.Expr) :
    result LogicalPlan.t :=
  match limit, offset with
  | None, None => Ok input
  | _, _ =>
      limit ← bind_limit limit;
      offset ← bind_offset offset;
      Ok (LogicalPlan.Limit limit offset input)
  end.

Definition bind_select_item (input : LogicalPlan.t) (item : Ast.SelectItem) : result (list Expr.t) :=
  match item with
  | Ast.UnnamedExpr expr => e ← bind_expr expr; Ok [e]
  | Ast.ExprWithAlias expr alias => e ← bind_expr expr; Ok [Expr.Alias e (Ast.value alias)]
  | Ast.Wildcard =>
      Ok ((λ col, Expr.Column (Column.relation col) (Column.name col)) <$>
          Schema.columns (LogicalPlan.schema input))
  | Ast.OtherItem => Err (Plan "sqlparser select item {} not supported")
  end.

(** The expressions of all the select items. *)
Definition bind_select_items (input : LogicalPlan.t) (project : list Ast.SelectItem) :
    result (list Expr.t) :=
  exprs ← mapR (bind_select_item input) project; Ok (concat exprs).

Definition is_aggregate (e : Expr.t) : bool :=
  match e with Expr.AggregateFunction _ _ _ => true | _ => false end.

Definition plan_aggregate (input : LogicalPlan.t) (project : list Ast.SelectItem)
    (group_by : list Ast.Expr) : result LogicalPlan.t :=
  exprs ← bind_select_items input project;
  let aggr_exprs := List.filter is_aggregate exprs in
  group_exprs ← mapR bind_expr group_by;
  match aggr_exprs, group_exprs with
  | [], [] => Ok input
  | _, _ =>
      columns ← mapR (λ e, Expr.to_column e (LogicalPlan.schema input)) aggr_exprs;
      group_columns ← mapR (λ e, Expr.to_column e (LogicalPlan.schema input)) group_exprs;
      schema ← Schema.new (columns ++ group_columns);
      Ok (LogicalPlan.Aggregate input group_exprs aggr_exprs schema)
  end.

(** [if let Ok(new_expr) = columnize_expr(..) { new_expr } else { e }] *)
Definition columnize_or_keep (input : LogicalPlan.t) (e : Expr.t) : Expr.t :=
  match columnize_expr e (LogicalPlan.schema input) with
  | Ok new_expr => new_expr
  | _ => e
  end.

Definition plan_project (input : LogicalPlan.t) (project : list Ast.SelectItem) :
    result LogicalPlan.t :=
  exprs ← bind_select_items input project;
  let columnized_exprs := columnize_or_keep input <$> exprs in
  schema ← project_schema input columnized_exprs;
  Ok (LogicalPlan.Project columnized_exprs input schema).

Definition plan_selection (input : LogicalPlan.t) (selection : option Ast.Expr) :
    result LogicalPlan.t :=
  match selection with
  | None => Ok input
  | Some predicate =>
      predicate ← bind_expr predicate; Ok (LogicalPlan.Filter predicate input)
  end.

Definition plan_join (l_plan r_plan : LogicalPlan.t) (constraint : Ast.JoinConstraint)
    (join_type : JoinType.t) : result LogicalPlan.t :=
  match constraint with
  | Ast.On expr =>
      expr ← bind_expr expr;
      let schema := build_join_schema (LogicalPlan.schema l_plan) (LogicalPlan.schema r_plan) join_type in
      Ok (LogicalPlan.Join l_plan r_plan join_type (Some expr) schema)
  | Ast.OtherConstraint => Err (Plan "Only support join on constraint, {:?}")
  end.

Definition plan_cross_join (l_plan r_plan : LogicalPlan.t) : result LogicalPlan.t :=
  let schema := build_join_schema (LogicalPlan.schema l_plan) (LogicalPlan.schema r_plan) JoinType.Cross in
  Ok (LogicalPlan.Join l_plan r_plan JoinType.Cross None schema).

Definition plan_join_operator (l_plan r_plan : LogicalPlan.t) (join_operator : Ast.JoinOperator) :
    result LogicalPlan.t :=
  match join_operator with
  | Ast.Inner constraint => plan_join l_plan r_plan constraint JoinType.Inner
  | Ast.LeftOuter constraint => plan_join l_plan r_plan constraint JoinType.LeftOuter
  | Ast.RightOuter constraint => plan_join l_plan r_plan constraint JoinType.RightOuter
  | Ast.FullOuter constraint => plan_join l_plan r_plan constraint JoinType.FullOuter
  | Ast.CrossJoin => plan_cross_join l_plan r_plan
  | Ast.OtherJoin => Err (Plan "sqlparser join operator {:?} not supported")
  end.

(** The scan of a named table, with the schema it has in the catalog. *)
Definition plan_table (self : t) (name : Ast.ObjectName) : result LogicalPlan.t :=
  table_ref ← bind_table_name name;
  table ← Catalog.table_heap table_ref (catalog self);
  Ok (LogicalPlan.TableScan table_ref (TableHandle.schema table) [] None).

(** The schema will be replaced later. *)
Definition plan_values (rows : list (list Ast.Expr)) : result LogicalPlan.t :=
  values ← mapR (mapR bind_expr) rows;
  Ok (LogicalPlan.Values Schema.empty values).

(** [plan_from_tables], given the plan of one table with its joins. *)
Definition from_tables (plan_table_with_joins : Ast.TableWithJoins → result LogicalPlan.t)
    (from : list Ast.TableWithJoins) : result LogicalPlan.t :=
  match from with
  | [] => Ok (LogicalPlan.EmptyRelation true Schema.empty)
  | [t] => plan_table_with_joins t
  | t :: from' =>
      l_plan ← plan_table_with_joins t;
      foldR (λ l_plan t, r_plan ← plan_table_with_joins t; plan_cross_join l_plan r_plan) l_plan from'
  end.

Fixpoint plan_query (self : t) (query : Ast.Query) : result LogicalPlan.t :=
  let 'Ast.MkQuery body order_by limit offset := query in
  plan ← plan_set_expr self body;
  plan ← plan_order_by plan order_by;
  plan_limit plan limit offset
with plan_set_expr (self : t) (set_expr : Ast.SetExpr) : result LogicalPlan.t :=
  match set_expr with
  | Ast.SelectExpr select => plan_select self select
  | Ast.ValuesExpr rows => plan_values rows
  | Ast.OtherSetExpr => Err (Plan "Failed to plan set expr: {}")
  end
with plan_select (self : t) (select : Ast.Select) : result LogicalPlan.t :=
  let 'Ast.MkSelect projection from selection group_by := select in
  table_scan ← from_tables (plan_table_with_joins self) from;
  selection ← plan_selection table_scan selection;
  aggregate ← plan_aggregate selection projection group_by;
  plan_project aggregate projection
with plan_table_with_joins (self : t) (t : Ast.TableWithJoins) : result LogicalPlan.t :=
  let 'Ast.MkTable relation joins := t in
  l_plan ← plan_relation self relation;
  foldR (plan_relation_join self) l_plan joins
with plan_relation_join (self : t) (l_plan : LogicalPlan.t) (join : Ast.Join) : result LogicalPlan.t :=
  let 'Ast.MkJoin relation join_operator := join in
  r_plan ← plan_relation self relation;
  plan_join_operator l_plan r_plan join_operator
with plan_relation (self : t) (relation : Ast.TableFactor) : result LogicalPlan.t :=
  match relation with
  | Ast.Table name => plan_table self name
  | Ast.NestedJoin table_with_joins => plan_table_with_joins self table_with_joins
  | Ast.Derived subquery => plan_query self subquery
  | Ast.OtherFactor => Err (Plan "sqlparser relation {} not supported")
  end.

Definition plan_from_tables (self : t) : list Ast.TableWithJoins → result LogicalPlan.t :=
  from_tables (plan_table_with_joins self).

(** *** Other statements *)
Definition plan_insert (self : t) (table_name : Ast.ObjectName) (columns_ident : list Ast.Ident)
    (source : Ast.Query) : result LogicalPlan.t :=
  let 'Ast.MkQuery body _ _ _ := source in
  input ← plan_set_expr self body;
  table ← bind_table_name table_name;
  heap ← Catalog.table_heap table (catalog self);
  let table_schema := TableHandle.schema heap in
  projected_schema ← match columns_ident with
    | [] => Ok table_schema
    | _ =>
        indices ← mapR (λ ident, Schema.index_of table_schema (Some table) (Ast.value ident)) columns_ident;
        Schema.project table_schema indices
    end;
  let input := match input with
               | LogicalPlan.Values _ values => LogicalPlan.Values projected_schema values
               | _ => input
               end in
  Ok (LogicalPlan.Insert table table_schema projected_schema input).

(** [HashMap::insert] on an association list: the old value of a key is replaced. *)
Fixpoint hash_insert {A} (k : string) (x : A) (l : list (string * A)) : list (string * A) :=
  match l with
  | [] => [(k, x)]
  | (k', y) :: l' => if String.eqb k k' then (k, x) :: l' else (k', y) :: hash_insert k x l'
  end.

Definition bind_assignment (assignment_map : list (string * Expr.t)) (assign : Ast.Assignment) :
    result (list (string * Expr.t)) :=
  ident ← ok_or (head (Ast.id assign)) (Plan "Assignment {} is not supported");
  value ← bind_expr (Ast.assigned assign);
  Ok (hash_insert (Ast.value ident) value assignment_map).

Definition plan_update (self : t) (table : Ast.TableWithJoins) (assignments : list Ast.Assignment)
    (selection : option Ast.Expr) : result LogicalPlan.t :=
  let 'Ast.MkTable relation _ := table in
  table_ref ← match relation with
              | Ast.Table name => bind_table_name name
              | _ => Err (Plan "table {} is not supported")
              end;
  heap ← Catalog.table_heap table_ref (catalog self);
  assignment_map ← foldR bind_assignment [] assignments;
  selection ← match selection with
              | Some e => e ← bind_expr e; Ok (Some e)
              | None => Ok None
              end;
  Ok (LogicalPlan.Update table_ref (TableHandle.schema heap) assignment_map selection).

Definition bind_column (name : TableReference.t) (col_def : Ast.ColumnDef) : result Column.t :=
  let not_null := existsb (λ option, match option with Ast.NotNull => true | _ => false end)
                    (Ast.options col_def) in
  data_type ← SqlDataType.try_from (Ast.data_type col_def);
  Ok (Column.with_relation (Some name)
        (Column.new (Ast.value (Ast.name col_def)) data_type (negb not_null))).

(** The loop of [check_column_name_conflict] over the rest of the columns, with the
    names before them. *)
Fixpoint check_names (names : list string) (columns : list Column.t) : result unit :=
  match columns with
  | [] => Ok tt
  | col :: columns' =>
      if existsb (String.eqb (Column.name col)) names
      then Err (Plan "Column names have conflict on '{}'")
      else check_names (Column.name col :: names) columns'
  end.

Definition check_column_name_conflict (columns : list Column.t) : result unit := check_names [] columns.

Definition plan_create_table (name : Ast.ObjectName) (column_defs : list Ast.ColumnDef) :
    result LogicalPlan.t :=
  name ← bind_table_name name;
  columns ← mapR (bind_column name) column_defs;
  _ ← check_column_name_conflict columns;
  Ok (LogicalPlan.CreateTable name columns).

Definition plan_create_index (self : t) (index_name table_name : Ast.ObjectName)
    (columns : list Ast.OrderByExpr) : result LogicalPlan.t :=
  index_name ← ok_or (head index_name) (Plan "Index name {index_name} is not expected");
  table ← bind_table_name table_name;
  columns_expr ← mapR bind_order_by_expr columns;
  heap ← Catalog.table_heap table (catalog self);
  Ok (LogicalPlan.CreateIndex (Ast.value index_name) table (TableHandle.schema heap) columns_expr).

(** [unimplemented!()] panics. *)
Definition plan (self : t) (stmt : Ast.Statement) : result LogicalPlan.t :=
  match stmt with
  | Ast.CreateTable name columns => plan_create_table name columns
  | Ast.CreateIndex name table_name columns => plan_create_index self name table_name columns
  | Ast.QueryStatement query => plan_query self query
  | Ast.Insert table_name columns source => plan_insert self table_name columns source
  | Ast.Update table assignments selection => plan_update self table assignments selection
  | Ast.OtherStatement => Panic
  end.

End planner.
Arguments t D : clear implicits.
End LogicalPlanner.
