(* ===== verification/Operators.v ===== *)
(** * Operators: what the physical operators do with rows

    The methods of [bustubx/src/execution/physical_plan/*.rs] that compute on tuples
    without touching the state of the operator: predicates, projections, combining
    the sides of a join, comparing and accumulating rows; and [ordered_map] of
    [bustubx/src/execution/parallel.rs]. The operators themselves, which pull rows
    from their inputs, are in [Execution]. *)
From S2P Require Import Prelude CommonCodec Floats Scalar Schema Expressions LogicalPlan.
Local Open Scope Z_scope.

(** [lazy_static EMPTY_TUPLE] *)
Definition EMPTY_TUPLE : Tuple.t := Tuple.Mk Schema.empty [].

(** ** Parallel evaluation (parallel.rs) *)
Definition BATCH_SIZE : nat := 1024.
#[global] Arguments BATCH_SIZE : simpl never.

Definition div_ceil (a b : nat) : nat := (a + b - 1) / b.

(** [slice::chunks(n)] with [n > 0]; the fuel is the length. *)
Fixpoint chunks_fuel {A} (fuel n : nat) (l : list A) : list (list A) :=
  match fuel, l with
  | S fuel', _ :: _ => take n l :: chunks_fuel fuel' n (drop n l)
  | _, _ => []
  end.
Definition chunks {A} (n : nat) (l : list A) : list (list A) := chunks_fuel (length l) n l.

(** [input.iter().map(evaluate).collect::<Vec<_>>()], whose elements are results: it
    fails only if an evaluation panics. *)
Fixpoint map_collect {A B} (evaluate : A → result B) (l : list A) : result (list (result B)) :=
  match l with
  | [] => Ok []
  | x :: l' =>
      match evaluate x with
      | Panic => Panic
      | r => rs ← map_collect evaluate l'; Ok (r :: rs)
      end
  end.

(** Joining the workers in order: a worker that panicked sets [failure]. *)
Fixpoint join_workers {B} (handles : list (result (list (result B)))) (output : list (result B))
    (failure : option BustubxError) : list (result B) * option BustubxError :=
  match handles with
  | [] => (output, failure)
  | Ok rows :: handles' => join_workers handles' (output ++ rows) failure
  | _ :: handles' => join_workers handles' output (Some (Execution "Execution worker panicked"))
  end.

(** [spawn_fails] is the worker the operating system does not start, if any: no
    further one is started. *)
Definition ordered_map {A B} (spawn_fails : option nat) (input : list A) (workers : nat)
    (evaluate : A → result B) : result (list (result B)) :=
  match input with
  | [] => Ok []
  | _ =>
      let workers := Nat.min (Nat.max workers 1) (length input) in
      if (workers =? 1)%nat then map_collect evaluate input
      else
        let chunk_size := div_ceil (length input) workers in
        let parts := chunks chunk_size input in
        let '(parts, failure) :=
          match spawn_fails with
          | Some n =>
              if (n <? length parts)%nat
              then (take n parts, Some (Execution "Cannot start execution worker: {error}"))
              else (parts, None)
          | None => (parts, None)
          end in
        let '(output, failure) := join_workers (map_collect evaluate <$> parts) [] failure in
        match failure with
        | Some error => Err error
        | None => Ok output
        end
  end.

(** ** Filter, Project, Values, Empty *)
Module PhysicalFilter.
Definition matches (predicate : Expr.t) (tuple : Tuple.t) : result bool :=
  value ← Expr.evaluate predicate tuple;
  match value with
  | ScalarValue.Boolean (Some value) => Ok value
  | _ => Err (Execution "filter predicate value should be boolean")
  end.
End PhysicalFilter.

Module PhysicalProject.
Definition project (exprs : list Expr.t) (output_schema : Schema.t) (tuple : Tuple.t) :
    result Tuple.t :=
  values ← mapR (λ expr, Expr.evaluate expr tuple) exprs;
  Tuple.new output_schema values.
End PhysicalProject.

Module PhysicalValues.
(** One row of [next]. *)
Definition row (schema : Schema.t) (exprs : list Expr.t) : result Tuple.t :=
  values ← mapR (λ e, Expr.evaluate e EMPTY_TUPLE) exprs;
  _ ← assert_true (Schema.column_count schema =? length values)%nat;
  casted_values ← mapR (λ '(val, col), ScalarValue.cast_to val (Column.data_type col))
                    (zip values (Schema.columns schema));
  Tuple.new schema casted_values.
End PhysicalValues.

(** ** Nested loop join *)
Module PhysicalNestedLoopJoin.

Definition nulls (schema : Schema.t) : list ScalarValue.t :=
  (λ column, ScalarValue.new_empty (Column.data_type column)) <$> Schema.columns schema.

(** [l_schema] and [r_schema] are the output schemas of the inputs. *)
Definition combine (l_schema r_schema schema : Schema.t) (l_row r_row : option Tuple.t) :
    result Tuple.t :=
  let l_data := match l_row with Some tuple => Tuple.data tuple | None => nulls l_schema end in
  let r_data := match r_row with Some tuple => Tuple.data tuple | None => nulls r_schema end in
  Tuple.new schema (l_data ++ r_data).

Definition join (l_schema r_schema schema : Schema.t) (condition : option Expr.t)
    (l_row r_row : Tuple.t) : result (option Tuple.t) :=
  tuple ← combine l_schema r_schema schema (Some l_row) (Some r_row);
  match condition with
  | Some condition =>
      value ← Expr.evaluate condition tuple;
      match value with
      | ScalarValue.Boolean (Some true) => Ok (Some tuple)
      | ScalarValue.Boolean _ => Ok None
      | _ => Err (Execution "join condition should be boolean")
      end
  | None => Ok (Some tuple)
  end.

Definition preserves_left (join_type : JoinType.t) : bool :=
  match join_type with JoinType.LeftOuter | JoinType.FullOuter => true | _ => false end.

Definition preserves_right (join_type : JoinType.t) : bool :=
  match join_type with JoinType.RightOuter | JoinType.FullOuter => true | _ => false end.

End PhysicalNestedLoopJoin.

(** ** Sort *)
Module PhysicalSort.

(** The [while] loop of [sort_tuples] from [ordering = Equal]. *)
Fixpoint sort_tuples (order_bys : list OrderByExpr.t) (a b : Tuple.t) : result comparison :=
  match order_bys with
  | [] => Ok Eq
  | order_by :: order_bys' =>
      a_value ← Expr.evaluate (OrderByExpr.expr order_by) a;
      b_value ← Expr.evaluate (OrderByExpr.expr order_by) b;
      ordering ← ok_or (if OrderByExpr.asc order_by then ScalarValue.partial_cmp a_value b_value
                        else ScalarValue.partial_cmp b_value a_value)
                   (Execution "Can not compare {:?} and {:?}");
      match ordering with
      | Eq => sort_tuples order_bys' a b
      | _ => Ok ordering
      end
  end.

(** The closure given to [sort_by]: a failed comparison is [Equal] and is remembered. *)
Definition closure (order_bys : list OrderByExpr.t) (a b : Tuple.t) :
    SR (option BustubxError) comparison := λ error,
  match sort_tuples order_bys a b with
  | Ok ordering => (error, Ok ordering)
  | Err e => (Some e, Ok Eq)
  | Panic => (error, Panic)
  end.

(** [sort_by]: a stable sort, here by insertion from the right. On the rows of one schema
    the closure is a total preorder, also when comparisons fail, and all failures are the
    same error ([SortComparator.sort_comparator] of Typing), so that the sort of the
    standard library does not panic and the result does not depend on its algorithm. *)
Fixpoint sort_insert (order_bys : list OrderByExpr.t) (x : Tuple.t) (l : list Tuple.t) :
    SR (option BustubxError) (list Tuple.t) :=
  match l with
  | [] => ret [x]
  | y :: l' =>
      c ← closure order_bys x y;
      match c with
      | Gt => r ← sort_insert order_bys x l'; ret (y :: r)
      | _ => ret (x :: y :: l')
      end
  end.

Fixpoint sort_by (order_bys : list OrderByExpr.t) (l : list Tuple.t) :
    SR (option BustubxError) (list Tuple.t) :=
  match l with
  | [] => ret []
  | x :: l' => r ← sort_by order_bys l'; sort_insert order_bys x r
  end.

(** The sort of [next] and its check of [error]. *)
Definition sort_all (order_bys : list OrderByExpr.t) (all_tuples : list Tuple.t) :
    result (list Tuple.t) :=
  let '(error, r) := sort_by order_bys all_tuples None in
  sorted ← r;
  match error with Some e => Err e | None => Ok sorted end.

End PhysicalSort.

(** ** Aggregate *)
Module PhysicalAggregate.

(** [Groups], a hash map: an association list without duplicate keys. The order in
    which it is iterated is a parameter of the operator. *)
Definition Groups : Type := list (list ScalarValue.t * list Accumulator.t).

Definition get (key : list ScalarValue.t) (groups : Groups) : option (list Accumulator.t) :=
  snd <$> List.find (λ '(k, _), bool_decide (k = key)) groups.

(** [insert] of a new key, and the update through [get_mut] of a present one. *)
Fixpoint put (key : list ScalarValue.t) (accs : list Accumulator.t) (groups : Groups) : Groups :=
  match groups with
  | [] => [(key, accs)]
  | (k, a) :: groups' =>
      if bool_decide (k = key) then (k, accs) :: groups' else (k, a) :: put key accs groups'
  end.

Definition build_accumulators (aggr_exprs : list Expr.t) : result (list Accumulator.t) :=
  mapR (λ expr,
    match expr with
    | Expr.AggregateFunction func_kind _ distinct =>
        if distinct : bool then Err (NotSupport "DISTINCT aggregate is not implemented")
        else Ok (Accumulator.create func_kind)
    | _ => Err (Execution "Invalid aggregate expression: {expr}")
    end) aggr_exprs.

(** [for (acc, expr) in accs.zip(&self.aggr_exprs) { acc.update_value(..)?; }] *)
Fixpoint update_all (aggr_exprs : list Expr.t) (tuple : Tuple.t) (accs : list Accumulator.t) :
    result (list Accumulator.t) :=
  match accs, aggr_exprs with
  | acc :: accs', expr :: aggr_exprs' =>
      value ← Expr.evaluate expr tuple;
      acc ← Accumulator.update_value acc value;
      accs' ← update_all aggr_exprs' tuple accs';
      Ok (acc :: accs')
  | _, _ => Ok accs
  end.

Definition accumulate_row (group_exprs aggr_exprs : list Expr.t) (groups : Groups)
    (tuple : Tuple.t) : result Groups :=
  key ← mapR (λ expr, Expr.evaluate expr tuple) group_exprs;
  accs ← match get key groups with
         | Some accs => Ok accs
         | None => build_accumulators aggr_exprs
         end;
  accs ← update_all aggr_exprs tuple accs;
  Ok (put key accs groups).

Definition accumulate (group_exprs aggr_exprs : list Expr.t) (rows : list Tuple.t) :
    result Groups :=
  foldR (accumulate_row group_exprs aggr_exprs) [] rows.

(** [for (dest, source) in target.iter_mut().zip(accumulators) { dest.merge(..)?; }] *)
Fixpoint merge_all (target accumulators : list Accumulator.t) : result (list Accumulator.t) :=
  match target, accumulators with
  | dest :: target', source :: accumulators' =>
      dest ← Accumulator.merge dest (Accumulator.state source);
      target' ← merge_all target' accumulators';
      Ok (dest :: target')
  | _, _ => Ok target
  end.

(** One entry of a partial result, merged into [groups] or added to it. *)
Definition merge_group (groups : Groups) (entry : list ScalarValue.t * list Accumulator.t) :
    result Groups :=
  let '(key, accumulators) := entry in
  match get key groups with
  | Some target => target ← merge_all target accumulators; Ok (put key target groups)
  | None => Ok (put key accumulators groups)
  end.

(** The row of a group. *)
Definition group_row (schema : Schema.t) (entry : list ScalarValue.t * list Accumulator.t) :
    result Tuple.t :=
  let '(key, accumulators) := entry in
  values ← mapR Accumulator.evaluate accumulators;
  Tuple.new schema (values ++ key).

End PhysicalAggregate.
