(* ===== verification/Meaning.v ===== *)
(** * Meaning: what a query plan computes

    The specification of the query engine. A query yields rows and then ends, fails or
    panics ([outcome]); each relational operator is a function or a relation on
    outcomes, and [means] is the meaning of a logical plan over the contents of the
    tables. [approximates] orders outcomes by how far they go before a failure; the
    optimizer and the operators are proved against these definitions. *)
From S2P Require Import Prelude CommonCodec Floats Scalar Schema Expressions LogicalPlan Operators.
Local Open Scope Z_scope.

(** ** Outcomes *)
Inductive ending := Done | Failed (e : BustubxError) | Crashed.

Record outcome := Out { rows : list Tuple.t; ended : ending }.

(** What a pipeline yields: each step a row, nothing or a failure; then the ending of
    its input. *)
Fixpoint emit (steps : list (result (option Tuple.t))) (e : ending) : outcome :=
  match steps with
  | [] => Out [] e
  | Ok (Some row) :: steps' => let o := emit steps' e in Out (row :: rows o) (ended o)
  | Ok None :: steps' => emit steps' e
  | Err error :: _ => Out [] (Failed error)
  | Panic :: _ => Out [] Crashed
  end.

(** One query after the other, if the first one ends. *)
Definition and_then (o1 o2 : outcome) : outcome :=
  match ended o1 with
  | Done => Out (rows o1 ++ rows o2) (ended o2)
  | _ => o1
  end.

Definition all_outcomes (os : list outcome) : outcome := foldr and_then (Out [] Done) os.

(** ** Operators on outcomes *)
Definition filter_step (predicate : Expr.t) (t : Tuple.t) : result (option Tuple.t) :=
  b ← PhysicalFilter.matches predicate t; Ok (if b : bool then Some t else None).

Definition filter_rows (predicate : Expr.t) (o : outcome) : outcome :=
  emit (filter_step predicate <$> rows o) (ended o).

Definition project_rows (exprs : list Expr.t) (s : Schema.t) (o : outcome) : outcome :=
  emit ((λ t, Some <$> PhysicalProject.project exprs s t) <$> rows o) (ended o).

(** Rows after the limit are not asked for, so they cannot fail. *)
Definition limit_rows (limit : option Z) (offset : Z) (o : outcome) : outcome :=
  let rest := drop (Z.to_nat offset) (rows o) in
  match limit with
  | Some n =>
      if (Z.to_nat n <=? length rest)%nat then Out (take (Z.to_nat n) rest) Done
      else Out rest (ended o)
  | None => Out rest (ended o)
  end.

Definition values_rows (s : Schema.t) (values : list (list Expr.t)) : outcome :=
  emit ((λ r, Some <$> PhysicalValues.row s r) <$> values) Done.

Definition empty_rows (produce_one_row : bool) (s : Schema.t) : outcome :=
  emit (if produce_one_row then [Some <$> Tuple.new s []] else []) Done.

Section join.
Context (l_schema r_schema s : Schema.t) (join_type : JoinType.t) (condition : option Expr.t).
Notation join := (PhysicalNestedLoopJoin.join l_schema r_schema s condition).
Notation combine := (PhysicalNestedLoopJoin.combine l_schema r_schema s).

Definition is_match (l r : Tuple.t) : bool :=
  match join l r with Ok (Some _) => true | _ => false end.

(** The rows of one row of the left side: its matches, or itself with nulls. *)
Definition left_rows (right : outcome) (l : Tuple.t) : outcome :=
  let matching := emit (join l <$> rows right) (ended right) in
  and_then matching
    (match rows matching with
     | [] => if PhysicalNestedLoopJoin.preserves_left join_type
             then emit [Some <$> combine (Some l) None] Done
             else Out [] Done
     | _ => Out [] Done
     end).

(** The rows of the right side that match nothing, with nulls. *)
Definition unmatched_right (left : list Tuple.t) (right : outcome) : outcome :=
  emit ((λ r, if existsb (λ l, is_match l r) left then Ok None
              else Some <$> combine None (Some r)) <$> rows right) (ended right).

Definition join_rows (left right : outcome) : outcome :=
  and_then (all_outcomes (left_rows right <$> rows left))
    (and_then (Out [] (ended left))
       (if PhysicalNestedLoopJoin.preserves_right join_type
        then unmatched_right (rows left) right else Out [] Done)).

End join.

(** *** Sorting *)
Section sorting.
Context (order_bys : list OrderByExpr.t).
Notation cmp := (PhysicalSort.sort_tuples order_bys).

Definition comparable (l : list Tuple.t) : bool :=
  forallb (λ a, forallb (λ b, is_ok (cmp a b)) l) l.

Definition ties (a b : Tuple.t) : bool := bool_decide (cmp a b = Ok Eq).

(** [k] has the rows of [l] in ascending order, ties in the order of [l]. *)
Definition sorted_of (l k : list Tuple.t) : Prop :=
  k ≡ₚ l ∧ StronglySorted (λ a b, cmp a b ≠ Ok Gt) k ∧
  ∀ a, a ∈ l → List.filter (ties a) k = List.filter (ties a) l.

(** A sort with a limit yields at least that many rows, if there are so many. When
    rows cannot be compared it fails, or a comparison it did not need was the one that
    fails. *)
Definition sorts (limit : option Z) (oi o : outcome) : Prop :=
  match ended oi with
  | Done =>
      if comparable (rows oi) then
        ∃ k, sorted_of (rows oi) k ∧
          (o = Out k Done ∨ ∃ n m, limit = Some n ∧ n ≤ m ∧ o = Out (take (Z.to_nat m) k) Done)
      else (∃ e, o = Out [] (Failed e)) ∨ (∃ k, k ≡ₚ rows oi ∧ o = Out k Done)
  | e => o = Out [] e
  end.
End sorting.

(** *** Aggregation *)
Section aggregation.
Context (group_exprs aggr_exprs : list Expr.t) (s : Schema.t).

Definition key_of (t : Tuple.t) : result (list ScalarValue.t) :=
  mapR (λ expr, Expr.evaluate expr t) group_exprs.

Definition in_group (key : list ScalarValue.t) (t : Tuple.t) : bool := bool_decide (key_of t = Ok key).

(** The value an aggregate takes of a row is one it accepts. *)
Definition takes (e : Expr.t) (t : Tuple.t) : bool :=
  match e with
  | Expr.AggregateFunction kind _ false =>
      match Expr.evaluate e t with
      | Ok v =>
          match kind with
          | AggregateFunctionKind.Count => true
          | AggregateFunctionKind.Avg =>
              ScalarValue.is_null v || is_ok (AccumulatorFacts.to_f64 v)
          end
      | _ => false
      end
  | _ => false
  end.

(** Everything the aggregation evaluates succeeds. *)
Definition aggregable (l : list Tuple.t) : bool :=
  (match group_exprs with
   | [] => is_ok (PhysicalAggregate.build_accumulators aggr_exprs)
   | _ => true
   end) &&
  forallb (λ t, is_ok (key_of t) && forallb (λ e, takes e t) aggr_exprs) l.

(** The accumulator of [e] over the rows [l]. *)
Definition accumulated (l : list Tuple.t) (e : Expr.t) (acc : Accumulator.t) : Prop :=
  ∃ kind args vs, e = Expr.AggregateFunction kind args false ∧
    mapR (Expr.evaluate e) l = Ok vs ∧ AccumulatorFacts.summary kind vs acc.

(** One group for each key, in some order; without keys one group. *)
Definition aggregated (l : list Tuple.t) (groups : PhysicalAggregate.Groups) : Prop :=
  NoDup groups.*1 ∧
  (∀ key, key ∈ groups.*1 ↔ (∃ t, t ∈ l ∧ key_of t = Ok key) ∨ (group_exprs = [] ∧ key = [])) ∧
  Forall (λ '(key, accs),
    Forall2 (accumulated (List.filter (in_group key) l)) aggr_exprs accs) groups.

(** All the rows of a result, or none. *)
Definition collected (r : result (list Tuple.t)) : outcome :=
  match r with
  | Ok k => Out k Done
  | Err e => Out [] (Failed e)
  | Panic => Out [] Crashed
  end.

Definition aggregates (oi o : outcome) : Prop :=
  match ended oi with
  | Done =>
      if aggregable (rows oi)
      then ∃ groups, aggregated (rows oi) groups ∧
             o = collected (mapR (PhysicalAggregate.group_row s) groups)
      else ∃ e, o = Out [] (Failed e)
  | _ => ∃ e, o = Out [] (Failed e)
  end.

End aggregation.

(** ** The meaning of a plan over the contents of the tables *)
Section meaning.
Context (tables : TableReference.t → option (list Tuple.t)).

Fixpoint means (p : LogicalPlan.t) (o : outcome) : Prop :=
  match p with
  | LogicalPlan.TableScan table_ref _ _ _ => ∃ l, tables table_ref = Some l ∧ o = Out l Done
  | LogicalPlan.Values s values => o = values_rows s values
  | LogicalPlan.EmptyRelation produce_one_row s => o = empty_rows produce_one_row s
  | LogicalPlan.Filter predicate input => ∃ oi, means input oi ∧ o = filter_rows predicate oi
  | LogicalPlan.Project exprs input s => ∃ oi, means input oi ∧ o = project_rows exprs s oi
  | LogicalPlan.Limit limit offset input => ∃ oi, means input oi ∧ o = limit_rows limit offset oi
  | LogicalPlan.Sort order_by input limit => ∃ oi, means input oi ∧ sorts order_by limit oi o
  | LogicalPlan.Join l_plan r_plan join_type condition s =>
      ∃ ol or, means l_plan ol ∧ means r_plan or ∧
        o = join_rows (LogicalPlan.schema l_plan) (LogicalPlan.schema r_plan) s join_type
              condition ol or
  | LogicalPlan.Aggregate input group_exprs aggr_exprs s =>
      ∃ oi, means input oi ∧ aggregates group_exprs aggr_exprs s oi o
  | LogicalPlan.CreateTable _ _ | LogicalPlan.CreateIndex _ _ _ _ | LogicalPlan.Insert _ _ _ _
  | LogicalPlan.Update _ _ _ _ => False
  end.

End meaning.

(** ** How far an outcome goes

    [o] approximates [o'] when it is [o'], or stopped with a failure on the way. *)
Definition approximates (o o' : outcome) : Prop :=
  o = o' ∨ (ended o ≠ Done ∧ rows o `prefix_of` rows o').

(** ** Sorting *)
Module SortFacts.
Import PhysicalSort.

(** The lexicographic combination of two orderings other than [Gt]. *)
Definition lex (c1 c2 : comparison) : comparison := match c1 with Eq => c2 | _ => c1 end.

Definition weak_order {A} (cmp : A → A → comparison) : Prop :=
  (∀ x y, cmp y x = CompOpp (cmp x y)) ∧
  ∀ x y z, cmp x y ≠ Gt → cmp y z ≠ Gt → cmp x z = lex (cmp x y) (cmp y z).

Lemma weak_order_laws {A} (cmp : A → A → comparison) :
  cmp_laws (λ _, True) cmp → weak_order cmp.
Proof.
  intros [_ Ho He Ht]. split; [by intros; apply Ho|]. intros x y z.
  destruct (cmp x y) eqn:Hxy; [apply He in Hxy as ->; done| |done].
  destruct (cmp y z) eqn:Hyz; [apply He in Hyz as <-; done| |done]. eauto.
Qed.

Lemma weak_order_option {A} (cmp : A → A → comparison) :
  weak_order cmp → weak_order (ScalarValue.option_cmp cmp).
Proof.
  intros [Ho Ht]. split.
  - intros [x|] [y|]; simpl; auto.
  - intros [x|] [y|] [z|]; simpl; auto; done.
Qed.

Lemma weak_order_total_cmp fmt : weak_order (total_cmp fmt).
Proof.
  unfold total_cmp. destruct (weak_order_laws _ ScalarValueFacts.Z_cmp_laws) as [Ho Ht].
  split; intros; auto.
Qed.

Lemma weak_orders :
  weak_order (ScalarValue.option_cmp Z.compare) ∧
  weak_order (ScalarValue.option_cmp Bool.compare) ∧
  weak_order (ScalarValue.option_cmp String.compare) ∧
  ∀ fmt, weak_order (ScalarValue.option_cmp (total_cmp fmt)).
Proof.
  split_and!; intros; apply weak_order_option; try apply weak_order_total_cmp; apply weak_order_laws;
    [apply ScalarValueFacts.Z_cmp_laws|apply ScalarValueFacts.bool_cmp_laws|
     apply ScalarValueFacts.string_cmp_laws].
Qed.

(** Values that can be compared are weakly ordered. *)
Lemma partial_cmp_opp v w :
  ScalarValue.partial_cmp w v = CompOpp <$> ScalarValue.partial_cmp v w.
Proof.
  destruct weak_orders as ([HZ _] & [HB _] & [HS _] & HF).
  destruct v, w; simpl; try done; f_equal; auto; by apply (HF _).
Qed.

Lemma partial_cmp_trans u v w c1 c2 :
  ScalarValue.partial_cmp u v = Some c1 → ScalarValue.partial_cmp v w = Some c2 →
  c1 ≠ Gt → c2 ≠ Gt → ScalarValue.partial_cmp u w = Some (lex c1 c2).
Proof.
  destruct weak_orders as ([_ HZ] & [_ HB] & [_ HS] & HF).
  destruct u, v; try done; destruct w; try done; simpl; intros [= <-] [= <-] H1 H2; f_equal; auto;
    by apply (HF _).
Qed.

Section sort.
Context (order_bys : list OrderByExpr.t).

Lemma sort_tuples_opp a b c :
  sort_tuples order_bys a b = Ok c → sort_tuples order_bys b a = Ok (CompOpp c).
Proof.
  induction order_bys as [|ord ords IH]; simpl; [by intros [= <-]|].
  destruct (Expr.evaluate (OrderByExpr.expr ord) a) as [va| |]; [|done..].
  destruct (Expr.evaluate (OrderByExpr.expr ord) b) as [vb| |]; [|done..]. simpl.
  destruct (OrderByExpr.asc ord);
    [rewrite (partial_cmp_opp va vb)|rewrite (partial_cmp_opp vb va)];
    (destruct (ScalarValue.partial_cmp _ _) as [[]|]; simpl; [auto|by intros [= <-]..|done]).
Qed.

Lemma sort_tuples_trans a b c c1 c2 :
  sort_tuples order_bys a b = Ok c1 → sort_tuples order_bys b c = Ok c2 →
  c1 ≠ Gt → c2 ≠ Gt → is_ok (sort_tuples order_bys a c) = true →
  sort_tuples order_bys a c = Ok (lex c1 c2).
Proof.
  induction order_bys as [|ord ords IH]; simpl; [by intros [= <-] [= <-]|].
  destruct (Expr.evaluate (OrderByExpr.expr ord) a) as [va| |]; [|done..].
  destruct (Expr.evaluate (OrderByExpr.expr ord) b) as [vb| |]; [|done..].
  destruct (Expr.evaluate (OrderByExpr.expr ord) c) as [vc| |]; [|done..]. simpl.
  destruct (OrderByExpr.asc ord).
  - destruct (ScalarValue.partial_cmp va vb) as [o1|] eqn:H1; [|done].
    destruct (ScalarValue.partial_cmp vb vc) as [o2|] eqn:H2; [|done]. simpl.
    intros Hc1 Hc2 Hn1 Hn2.
    rewrite (partial_cmp_trans va vb vc o1 o2 H1 H2) by (intros ->; simplify_eq/=).
    destruct o1, o2; simplify_eq/=; auto; by destruct c1.
  - destruct (ScalarValue.partial_cmp vb va) as [o1|] eqn:H1; [|done].
    destruct (ScalarValue.partial_cmp vc vb) as [o2|] eqn:H2; [|done]. simpl.
    intros Hc1 Hc2 Hn1 Hn2.
    rewrite (partial_cmp_trans vc vb va o2 o1 H2 H1) by (intros ->; simplify_eq/=).
    destruct o1, o2; simplify_eq/=; auto; by destruct c1.
Qed.

(** Rows that can all be compared are sorted. *)
Context (U : list Tuple.t) (HU : comparable order_bys U = true).
Notation cmp := (sort_tuples order_bys).

Lemma comparable_Ok a b : a ∈ U → b ∈ U → ∃ c, cmp a b = Ok c.
Proof using HU.
  intros Ha%list_elem_of_In Hb%list_elem_of_In. unfold comparable in HU.
  rewrite forallb_forall in HU. specialize (HU a Ha). rewrite forallb_forall in HU.
  specialize (HU b Hb). destruct (cmp a b); by eauto.
Qed.

Lemma closure_Ok a b error :
  a ∈ U → b ∈ U → ∃ c, cmp a b = Ok c ∧ closure order_bys a b error = (error, Ok c).
Proof using HU.
  intros Ha Hb. destruct (comparable_Ok a b Ha Hb) as [c Hc]. exists c. split; [done|].
  unfold closure. by rewrite Hc.
Qed.

Lemma not_Gt_trans a b c :
  a ∈ U → b ∈ U → c ∈ U → cmp a b ≠ Ok Gt → cmp b c ≠ Ok Gt → cmp a c ≠ Ok Gt.
Proof using HU.
  intros Ha Hb Hc Hab Hbc.
  destruct (comparable_Ok a b Ha Hb) as [c1 H1], (comparable_Ok b c Hb Hc) as [c2 H2],
    (comparable_Ok a c Ha Hc) as [c3 H3].
  rewrite (sort_tuples_trans a b c c1 c2); [|congruence..|by rewrite H3].
  destruct c1, c2; simpl; congruence.
Qed.

Lemma ties_Gt a x y :
  a ∈ U → x ∈ U → y ∈ U → cmp x y = Ok Gt → ties order_bys a x = true → ties order_bys a y = false.
Proof using HU.
  intros Ha Hx Hy Hxy Hax%bool_decide_eq_true. apply bool_decide_eq_false. intros Hay.
  rewrite (sort_tuples_trans x a y Eq Eq) in Hxy; try done.
  - by apply (sort_tuples_opp a x Eq).
  - by rewrite Hxy.
Qed.

Lemma order_insert_spec x l error :
  x ∈ U → Forall (.∈ U) l → StronglySorted (λ a b, cmp a b ≠ Ok Gt) l →
  ∃ k, sort_insert order_bys x l error = (error, Ok k) ∧ k ≡ₚ x :: l ∧
    StronglySorted (λ a b, cmp a b ≠ Ok Gt) k ∧
    ∀ a, a ∈ U → List.filter (ties order_bys a) k = List.filter (ties order_bys a) (x :: l).
Proof using HU.
  intros Hx Hl Hs. induction Hs as [|y l Hs IH Hy]; simpl.
  { exists [x]. repeat constructor. }
  apply Forall_cons in Hl as [HyU Hl]. destruct (closure_Ok x y error Hx HyU) as (c & Hc & Hcl).
  rewrite (SR_bind_Ok _ _ _ _ _ Hcl). destruct (decide (c = Gt)) as [->|Hn].
  - destruct (IH Hl) as (k & Hk & Hp & Hks & Hf). rewrite (SR_bind_Ok _ _ _ _ _ Hk).
    exists (y :: k). split_and!; [done| | |].
    + rewrite Hp. constructor.
    + constructor; [done|]. rewrite Hp. constructor; [|done].
      rewrite (sort_tuples_opp x y Gt Hc). done.
    + intros a Ha. simpl. rewrite (Hf a Ha). simpl.
      pose proof (ties_Gt a x y Ha Hx HyU Hc) as Ht.
      destruct (ties order_bys a x); [by rewrite Ht|]. by destruct (ties order_bys a y).
  - exists (x :: y :: l). split_and!; [by destruct c|done| |done].
    constructor; [by constructor|]. constructor; [congruence|].
    rewrite Forall_forall in Hy, Hl |- *. intros z Hz. apply (not_Gt_trans x y z); auto. congruence.
Qed.

Lemma order_by_spec l error :
  Forall (.∈ U) l →
  ∃ k, sort_by order_bys l error = (error, Ok k) ∧ k ≡ₚ l ∧
    StronglySorted (λ a b, cmp a b ≠ Ok Gt) k ∧
    ∀ a, a ∈ U → List.filter (ties order_bys a) k = List.filter (ties order_bys a) l.
Proof using HU.
  intros Hl. induction Hl as [|x l Hx Hl IH]; simpl.
  { exists []. repeat constructor. }
  destruct IH as (k & Hk & Hp & Hs & Hf). rewrite (SR_bind_Ok _ _ _ _ _ Hk).
  destruct (order_insert_spec x k error Hx) as (k' & Hk' & Hp' & Hs' & Hf'); [by rewrite Hp|done|].
  exists k'. split_and!; [done|by rewrite Hp', Hp|done|].
  intros a Ha. rewrite (Hf' a Ha). simpl. by rewrite (Hf a Ha).
Qed.

End sort.

Lemma sort_all_Ok order_bys l :
  comparable order_bys l = true → ∃ k, sort_all order_bys l = Ok k ∧ sorted_of order_bys l k.
Proof.
  intros Hl. destruct (order_by_spec order_bys l Hl l None) as (k & Hk & Hp & Hs & Hf).
  { by apply Forall_forall. }
  exists k. split; [|done]. unfold sort_all. by rewrite Hk.
Qed.

(** Whatever fails, all the rows come out, or an error. *)
Lemma sort_insert_perm order_bys x l error :
  (∀ a b, sort_tuples order_bys a b ≠ Panic) →
  ∃ k error', sort_insert order_bys x l error = (error', Ok k) ∧ k ≡ₚ x :: l.
Proof.
  intros Hn. revert error. induction l as [|y l IH]; intros error; simpl; [by eexists _, _|].
  assert (∃ e c, closure order_bys x y error = (e, Ok c)) as (e & c & Hcl).
  { unfold closure. specialize (Hn x y). destruct (sort_tuples order_bys x y); by eauto. }
  rewrite (SR_bind_Ok _ _ _ _ _ Hcl). destruct (decide (c = Gt)) as [->|Hc].
  - destruct (IH e) as (k & e' & Hk & Hp). rewrite (SR_bind_Ok _ _ _ _ _ Hk).
    exists (y :: k), e'. split; [done|]. rewrite Hp. constructor.
  - exists (x :: y :: l), e. by destruct c.
Qed.

Lemma sort_tuples_not_Panic order_bys a b : sort_tuples order_bys a b ≠ Panic.
Proof.
  induction order_bys as [|ord ords IH]; simpl; [done|].
  do 2 (apply ExpressionFacts.bind_not_Panic; [apply ExpressionFacts.evaluate_not_Panic|intros ?]).
  apply ExpressionFacts.bind_not_Panic; [apply ExpressionFacts.ok_or_not_Panic|]. by intros [].
Qed.

Lemma sort_by_perm order_bys l error :
  ∃ k error', sort_by order_bys l error = (error', Ok k) ∧ k ≡ₚ l.
Proof.
  induction l as [|x l IH]; simpl; [by eexists _, _|].
  destruct IH as (k & e & Hk & Hp). rewrite (SR_bind_Ok _ _ _ _ _ Hk).
  destruct (sort_insert_perm order_bys x k e (sort_tuples_not_Panic order_bys)) as (k' & e' & Hk' & Hp').
  exists k', e'. split; [done|by rewrite Hp', Hp].
Qed.

(** The sort of the operator is a sort of the specification. *)
Lemma sort_all_sorts order_bys limit l :
  (∃ k, sort_all order_bys l = Ok k ∧ sorts order_bys limit (Out l Done) (Out k Done)) ∨
  (∃ e, sort_all order_bys l = Err e ∧ sorts order_bys limit (Out l Done) (Out [] (Failed e))).
Proof.
  unfold sorts. simpl. destruct (comparable order_bys l) eqn:Hc.
  - destruct (sort_all_Ok order_bys l Hc) as (k & Hk & Hs). left. exists k. split; [done|].
    exists k. split; [done|by left].
  - unfold sort_all. destruct (sort_by_perm order_bys l None) as (k & e & -> & Hp). simpl.
    destruct e as [e|]; [right|left]; by eauto 10.
Qed.

End SortFacts.

(** ** Every query has a meaning *)
Module TotalFacts.
Import ScalarValueFacts.

Section aggregation.
Context (group_exprs aggr_exprs : list Expr.t) (l : list Tuple.t).
Context (Hl : aggregable group_exprs aggr_exprs l = true).

Lemma aggregable_row t :
  t ∈ l → (∃ key, key_of group_exprs t = Ok key) ∧ Forall (λ e, takes e t = true) aggr_exprs.
Proof using Hl.
  intros Ht%list_elem_of_In. unfold aggregable in Hl. apply andb_true_iff in Hl as [_ H].
  rewrite forallb_forall in H. specialize (H t Ht). apply andb_true_iff in H as [Hk Ha].
  split; [destruct (key_of group_exprs t); by eauto|]. by apply Forall_forall; intros e He;
    rewrite forallb_forall in Ha; apply Ha, list_elem_of_In.
Qed.

(** An aggregate call, and the values it takes of rows. *)
Lemma takes_values e rs :
  (∃ kind args, e = Expr.AggregateFunction kind args false) → Forall (λ t, takes e t = true) rs →
  ∃ acc, accumulated rs e acc.
Proof.
  intros (kind & args & ->) Hrs. unfold accumulated.
  destruct (mapR_is_ok (Expr.evaluate (Expr.AggregateFunction kind args false)) rs) as [vs Hvs].
  { eapply Forall_impl; [exact Hrs|]. intros t Ht. unfold takes in Ht. by destruct (Expr.evaluate _ t). }
  destruct (AccumulatorFacts.summary_exists kind vs) as [acc Hacc]; [|by exists acc, kind, args, vs].
  apply mapR_Ok in Hvs. induction Hvs as [|t v rs vs Htv _ IH]; [done|].
  apply Forall_cons in Hrs as [Ht Hrs]. constructor; [|by apply IH]. unfold takes in Ht.
  rewrite Htv in Ht. unfold AccumulatorFacts.accepted, AccumulatorFacts.nonnull.
  destruct kind; [done|]. intros Hn. by destruct (ScalarValue.is_null v).
Qed.

Lemma aggregate_calls rs key :
  (∃ t, t ∈ l) ∨ group_exprs = [] → rs = List.filter (in_group group_exprs key) l →
  ∃ accs, Forall2 (accumulated rs) aggr_exprs accs.
Proof using Hl.
  intros Hne ->. apply Forall_choice, Forall_forall. intros e He. apply takes_values.
  - destruct Hne as [[t Ht]|Hg].
    + destruct (aggregable_row t Ht) as [_ Ha]. rewrite Forall_forall in Ha. specialize (Ha e He).
      unfold takes in Ha. destruct e as [| | | | |kind args []]; try done. by exists kind, args.
    + unfold aggregable in Hl. rewrite Hg in Hl. apply andb_true_iff in Hl as [Hb _].
      destruct (PhysicalAggregate.build_accumulators aggr_exprs) as [accs| |] eqn:Hb'; [|done..].
      apply mapR_Ok in Hb'. apply list_elem_of_lookup in He as [i Hi].
      destruct (Forall2_lookup_l _ _ _ _ _ Hb' Hi) as (acc & _ & Hacc).
      destruct e as [| | | | |kind args []]; try done. by exists kind, args.
  - apply Forall_forall. intros t [Ht%list_elem_of_In _]%list_elem_of_In%List.filter_In.
    destruct (aggregable_row t Ht) as [_ Ha]. rewrite Forall_forall in Ha. by apply Ha.
Qed.

Lemma aggregated_exists : ∃ groups, aggregated group_exprs aggr_exprs l groups.
Proof using Hl.
  set (keys := (if decide (group_exprs = []) then [[]] else []) ++
    ((λ t, match key_of group_exprs t with Ok key => key | _ => [] end) <$> l)).
  assert (Hkeys : ∀ key, key ∈ keys ↔
    (∃ t, t ∈ l ∧ key_of group_exprs t = Ok key) ∨ (group_exprs = [] ∧ key = [])).
  { intros key. unfold keys. rewrite elem_of_app, list_elem_of_fmap. split.
    - intros [Hk|(t & -> & Ht)].
      + right. destruct (decide _); [|by apply not_elem_of_nil in Hk].
        by apply list_elem_of_singleton in Hk as ->.
      + left. exists t. destruct (aggregable_row t Ht) as [[key Hk] _]. by rewrite Hk.
    - intros [(t & Ht & Hk)|[Hg ->]].
      + right. exists t. by rewrite Hk.
      + left. destruct (decide _); [by apply list_elem_of_singleton|done]. }
  destruct (Forall_choice (λ key accs,
    Forall2 (accumulated (List.filter (in_group group_exprs key) l)) aggr_exprs accs)
    (remove_dups keys)) as [accss Haccs].
  { apply Forall_forall. intros key Hk%elem_of_remove_dups%Hkeys.
    eapply aggregate_calls; [|done]. destruct Hk as [(t & Ht & _)|[Hg _]]; [left; by exists t|by right]. }
  pose proof (Forall2_length _ _ _ Haccs) as Hlen.
  exists (zip (remove_dups keys) accss). unfold aggregated.
  rewrite fst_zip by lia. split_and!.
  - apply NoDup_remove_dups.
  - intros key. by rewrite elem_of_remove_dups.
  - clear Hkeys. induction Haccs as [|key accs ks accss Ha _ IH]; simpl; constructor; [done|].
    apply IH. simpl in Hlen. lia.
Qed.

End aggregation.

Lemma aggregates_total group_exprs aggr_exprs s oi : ∃ o, aggregates group_exprs aggr_exprs s oi o.
Proof.
  unfold aggregates. destruct (ended oi); [|by exists (Out [] (Failed (Internal ""))); eexists..].
  destruct (aggregable _ _ _) eqn:Hl.
  - destruct (aggregated_exists _ _ _ Hl) as [groups Hg]. by eexists _, groups.
  - by exists (Out [] (Failed (Internal ""))); eexists.
Qed.

Lemma sorts_total order_bys limit oi : ∃ o, sorts order_bys limit oi o.
Proof.
  destruct oi as [l [| |]]; [|by eexists..].
  destruct (SortFacts.sort_all_sorts order_bys limit l) as [(k & _ & Hk)|(e & _ & He)]; by eexists.
Qed.
(** A query over tables that exist. *)
Fixpoint readable (tables : TableReference.t → option (list Tuple.t)) (p : LogicalPlan.t) : Prop :=
  match p with
  | LogicalPlan.TableScan table_ref _ _ _ => is_Some (tables table_ref)
  | LogicalPlan.Values _ _ | LogicalPlan.EmptyRelation _ _ => True
  | LogicalPlan.Filter _ input | LogicalPlan.Project _ input _ | LogicalPlan.Limit _ _ input
  | LogicalPlan.Sort _ input _ | LogicalPlan.Aggregate input _ _ _ => readable tables input
  | LogicalPlan.Join l_plan r_plan _ _ _ => readable tables l_plan ∧ readable tables r_plan
  | LogicalPlan.CreateTable _ _ | LogicalPlan.CreateIndex _ _ _ _ | LogicalPlan.Insert _ _ _ _
  | LogicalPlan.Update _ _ _ _ => False
  end.

Lemma means_total tables p : readable tables p → ∃ o, means tables p o.
Proof.
  induction p; simpl; try done.
  - intros (oi & Hoi)%IHp. by eexists _, oi.
  - intros [(ol & Hol)%IHp1 (or & Hor)%IHp2]. by eexists _, ol, or.
  - intros (oi & Hoi)%IHp. by eexists _, oi.
  - intros (oi & Hoi)%IHp. by eexists _, oi.
  - intros [l Hl]. by eexists _, l.
  - intros (oi & Hoi)%IHp. destruct (sorts_total order_by limit oi) as [o Ho]. by exists o, oi.
  - by eexists.
  - by eexists.
  - intros (oi & Hoi)%IHp.
    destruct (aggregates_total group_exprs aggr_exprs schema oi) as [o Ho]. by exists o, oi.
Qed.

End TotalFacts.

Module MeaningFacts.

#[export] Instance approximates_refl : Reflexive approximates.
Proof. by left. Qed.

#[export] Instance approximates_trans : Transitive approximates.
Proof.
  intros o1 o2 o3 [->|[H1 P1]] H; [done|]. right. split; [done|].
  destruct H as [<-|[_ P2]]; [done|by etrans].
Qed.

(** Nothing further than an outcome that is done. *)
Lemma approximates_Done l o : approximates (Out l Done) o → o = Out l Done.
Proof. by intros [<-|[H _]]. Qed.

Lemma stopped_approximates e o : e ≠ Done → approximates (Out [] e) o.
Proof. intros He. right. split; [done|apply prefix_nil]. Qed.

Lemma and_then_cons t o1 o2 :
  and_then (Out (t :: rows o1) (ended o1)) o2
  = Out (t :: rows (and_then o1 o2)) (ended (and_then o1 o2)).
Proof. destruct o1 as [rs []]; done. Qed.

Lemma approximates_cons t o o' :
  approximates o o' → approximates (Out (t :: rows o) (ended o)) (Out (t :: rows o') (ended o')).
Proof. intros [->|[H1 H2]]; [done|]. right. split; [done|]. by apply prefix_cons. Qed.

Lemma emit_app steps1 steps2 e :
  emit (steps1 ++ steps2) e = and_then (emit steps1 Done) (emit steps2 e).
Proof.
  induction steps1 as [|[[t|]|?|] steps1 IH]; simpl; [|by rewrite IH, and_then_cons|done..].
  unfold and_then. simpl. by destruct (emit steps2 e).
Qed.

(** An earlier ending, after which there may be other steps. *)
Lemma emit_stopped steps e o :
  e ≠ Done → approximates (emit steps e) (and_then (emit steps Done) o).
Proof.
  intros He. induction steps as [|[[t|]|?|] steps IH]; simpl; [| |done|by left..].
  - by apply stopped_approximates.
  - rewrite and_then_cons. by apply approximates_cons.
Qed.

Lemma emit_approximates f o o' :
  approximates o o' → approximates (emit (f <$> rows o) (ended o)) (emit (f <$> rows o') (ended o')).
Proof.
  intros [->|[He [k ->]]]; [done|]. rewrite fmap_app, emit_app. by apply emit_stopped.
Qed.

Lemma limit_approximates limit offset o o' :
  approximates o o' → approximates (limit_rows limit offset o) (limit_rows limit offset o').
Proof.
  intros [->|[He [k Hk]]]; [done|]. unfold limit_rows. rewrite Hk.
  assert (drop (Z.to_nat offset) (rows o) `prefix_of` drop (Z.to_nat offset) (rows o ++ k)) as [m Hm].
  { rewrite drop_app. by eexists. }
  rewrite Hm. set (rest := drop (Z.to_nat offset) (rows o)).
  destruct limit as [n|]; [|right; split; [done|by eexists]].
  destruct (Nat.leb_spec (Z.to_nat n) (length rest)) as [Hn|Hn].
  - left. rewrite (proj2 (Nat.leb_le _ _)) by (rewrite length_app; lia).
    f_equal. by rewrite take_app_le.
  - right. split; [done|]. destruct (Nat.leb_spec (Z.to_nat n) (length (rest ++ m))); simpl.
    + rewrite take_app_ge by lia. by eexists.
    + by eexists.
Qed.

Lemma sorts_stopped order_bys limit oi o' :
  ended oi ≠ Done → ∃ o, sorts order_bys limit oi o ∧ approximates o o'.
Proof.
  intros He. exists (Out [] (ended oi)). unfold sorts. split; [by destruct (ended oi)|].
  by apply stopped_approximates.
Qed.

Lemma aggregates_stopped group_exprs aggr_exprs s oi o' :
  ended oi ≠ Done → ∃ o, aggregates group_exprs aggr_exprs s oi o ∧ approximates o o'.
Proof.
  intros He. exists (Out [] (Failed (Internal ""))). unfold aggregates. split.
  - destruct (ended oi); [done|by eexists..].
  - by apply stopped_approximates.
Qed.

(** [p'] implements [p]: what it does is what [p] may do, or goes on where [p] fails. *)
Definition implements (tables : TableReference.t → option (list Tuple.t)) (p' p : LogicalPlan.t) : Prop :=
  ∀ o', means tables p' o' → ∃ o, means tables p o ∧ approximates o o'.

Section implements.
Context (tables : TableReference.t → option (list Tuple.t)).
Notation implements := (implements tables).

#[export] Instance implements_refl : Reflexive implements.
Proof. intros p o Ho. by exists o. Qed.

#[export] Instance implements_trans : Transitive implements.
Proof.
  intros p1 p2 p3 H12 H23 o1 (o2 & (o3 & Ho3 & A3)%H23 & A2)%H12. exists o3. split; [done|by etrans].
Qed.

(** A plan with one input implements the plan with the input it implements. *)
Lemma implements_input p p' i i' :
  LogicalPlan.inputs p = [i] → LogicalPlan.with_new_inputs p [i'] = Ok p' →
  implements i' i → implements p' p.
Proof.
  intros Hi Hp Hii. destruct p as [| |predicate i0| | |limit offset i0|exprs i0 s| |order_by i0 limit
    | | |i0 group_exprs aggr_exprs s|]; try done; injection Hi as ->; injection Hp as <-;
    intros o' Ho'; try done; destruct Ho' as (oi' & (oi & Hoi & A)%Hii & Ho').
  - subst o'. exists (filter_rows predicate oi). split; [by exists oi|by apply emit_approximates].
  - subst o'. exists (limit_rows limit offset oi). split; [by exists oi|by apply limit_approximates].
  - subst o'. exists (project_rows exprs s oi). split; [by exists oi|by apply emit_approximates].
  - destruct A as [->|[He _]]; [by exists o'; split; [exists oi'|]|].
    edestruct sorts_stopped as (o & Ho & A); [done|]. exists o. split; [by exists oi|done].
  - destruct A as [->|[He _]]; [by exists o'; split; [exists oi'|]|].
    edestruct aggregates_stopped as (o & Ho & A); [done|]. exists o. split; [by exists oi|done].
Qed.

End implements.
End MeaningFacts.
