(* ===== verification/Typing.v ===== *)
(** * Typing: well typed plans do not panic

    The only panics of a query are the assertions of [Tuple::new] and of
    [PhysicalValues]. A plan is well typed when the schemas of its nodes are those of
    the expressions they evaluate; then every row has the schema of the plan. *)
From S2P Require Import Prelude CommonCodec Floats Scalar Schema Expressions LogicalPlan Operators.
From S2P Require Import Meaning.
Local Open Scope Z_scope.

(** ** Well typed plans *)
Module Typing.
Import ExpressionFacts.

(** Values of the type [dt] may be stored in the column. *)
Definition fits (dt : DataType.t) (col : Column.t) : Prop :=
  ScalarValue.erase dt = ScalarValue.erase (Column.data_type col).

(** [e], evaluated on rows of [s], gives the values of the column. *)
Definition typed_expr (s : Schema.t) (e : Expr.t) (col : Column.t) : Prop :=
  scalar e = true ∧ ∃ dt, Expr.data_type e s = Ok dt ∧ fits dt col.

(** The aggregate call [e] gives the values of the column. *)
Definition typed_call (s : Schema.t) (e : Expr.t) (col : Column.t) : Prop :=
  scalar e = false ∧ ∃ dt, Expr.data_type e s = Ok dt ∧ fits dt col.

Fixpoint well_typed (tables : TableReference.t → option (list Tuple.t)) (p : LogicalPlan.t) : Prop :=
  match p with
  | LogicalPlan.TableScan table_ref s _ _ =>
      ∀ l, tables table_ref = Some l → Forall (has_types s) l
  | LogicalPlan.Values s values =>
      Forall (λ r, length r = length (Schema.columns s)) values
  | LogicalPlan.EmptyRelation produce_one_row s => produce_one_row = true → Schema.columns s = []
  | LogicalPlan.Filter _ input | LogicalPlan.Limit _ _ input | LogicalPlan.Sort _ input _ =>
      well_typed tables input
  | LogicalPlan.Project exprs input s =>
      well_typed tables input ∧
      Forall2 (typed_expr (LogicalPlan.schema input)) exprs (Schema.columns s)
  | LogicalPlan.Join l_plan r_plan _ _ s =>
      well_typed tables l_plan ∧ well_typed tables r_plan ∧
      Forall2 (λ c1 c2, fits (Column.data_type c1) c2)
        (Schema.columns (LogicalPlan.schema l_plan) ++ Schema.columns (LogicalPlan.schema r_plan))
        (Schema.columns s)
  | LogicalPlan.Aggregate input group_exprs aggr_exprs s =>
      well_typed tables input ∧
      ∃ cols1 cols2, Schema.columns s = cols1 ++ cols2 ∧
        Forall2 (typed_call (LogicalPlan.schema input)) aggr_exprs cols1 ∧
        Forall2 (typed_expr (LogicalPlan.schema input)) group_exprs cols2
  | LogicalPlan.CreateTable _ _ | LogicalPlan.CreateIndex _ _ _ _ | LogicalPlan.Insert _ _ _ _
  | LogicalPlan.Update _ _ _ _ => False
  end.

(** An outcome of rows of [s]. *)
Definition sound (s : Schema.t) (o : outcome) : Prop :=
  ended o ≠ Crashed ∧ Forall (has_types s) (rows o).

(** A step that yields a row of [s], or fails. *)
Definition sound_step (s : Schema.t) (r : result (option Tuple.t)) : Prop :=
  match r with
  | Ok (Some t) => has_types s t
  | Ok None | Err _ => True
  | Panic => False
  end.

End Typing.

Module TypingFacts.
Import Typing ExpressionFacts.

Definition typed_values (s : Schema.t) (vs : list ScalarValue.t) : Prop :=
  Forall2 (λ col v, ScalarValue.data_type v = ScalarValue.erase (Column.data_type col))
    (Schema.columns s) vs.

Lemma emit_sound s steps e :
  Forall (sound_step s) steps → e ≠ Crashed → sound s (emit steps e).
Proof.
  intros Hs He. induction Hs as [|[[t|]| |] steps Ht _ [IH1 IH2]]; simpl; [by split|..]; try done.
  - split; [done|]. by constructor.
Qed.

Lemma and_then_sound s o1 o2 : sound s o1 → sound s o2 → sound s (and_then o1 o2).
Proof.
  destruct o1 as [rs1 []]; [|done..]. intros [_ H1] [He H2]. split; [done|]. by apply Forall_app.
Qed.

Lemma all_outcomes_sound s os : Forall (sound s) os → sound s (all_outcomes os).
Proof. induction 1; [by split|]. by apply and_then_sound. Qed.

Lemma mapR_not_Panic {A B} (f : A → result B) l : (∀ x, f x ≠ Panic) → mapR f l ≠ Panic.
Proof.
  intros Hf. induction l as [|x l IH]; [done|]. simpl.
  apply bind_not_Panic; [apply Hf|]. intros y. by apply bind_not_Panic.
Qed.

(** *** Each operator *)
Lemma evaluate_exprs s exprs cols t vs :
  has_types s t → Forall2 (typed_expr s) exprs cols →
  mapR (λ e, Expr.evaluate e t) exprs = Ok vs →
  Forall2 (λ col v, ScalarValue.data_type v = ScalarValue.erase (Column.data_type col)) cols vs.
Proof.
  intros Ht He Hv%mapR_Ok. revert vs Hv.
  induction He as [|e col exprs cols (Hsc & dt & Hdt & Hf) _ IH]; inversion 1 as [|? v ? vs' Hv' Hvs]; subst;
    constructor; [|by apply IH].
  by rewrite (evaluate_type e s t dt v).
Qed.

Lemma filter_sound s predicate o : sound s o → sound s (filter_rows predicate o).
Proof.
  intros [He Hr]. apply emit_sound; [|done]. apply Forall_fmap. eapply Forall_impl; [exact Hr|].
  intros t Ht. unfold filter_step, PhysicalFilter.matches. simpl.
  pose proof (evaluate_not_Panic predicate t) as Hp.
  destruct (Expr.evaluate predicate t) as [[[[]|]| | | | | | | | | | |]| |]; done.
Qed.

Lemma project_sound s s' exprs o :
  Forall2 (typed_expr s) exprs (Schema.columns s') → sound s o → sound s' (project_rows exprs s' o).
Proof.
  intros Hx [He Hr]. apply emit_sound; [|done]. apply Forall_fmap. eapply Forall_impl; [exact Hr|].
  intros t Ht. unfold PhysicalProject.project. simpl.
  destruct (mapR _ exprs) as [vs| |] eqn:Hv; [|done|].
  - pose proof (evaluate_exprs s exprs _ t vs Ht Hx Hv) as Hvs.
    cbn [mbind result_bind]. by rewrite (has_types_new s' vs Hvs).
  - by destruct (mapR_not_Panic _ _ (λ e, evaluate_not_Panic e t) Hv).
Qed.

Lemma limit_sound s limit offset o : sound s o → sound s (limit_rows limit offset o).
Proof.
  intros [He Hr]. unfold limit_rows. repeat case_match; (split; [done|]); simpl;
    repeat first [apply Forall_take|apply Forall_drop]; done.
Qed.

Lemma values_sound s values :
  Forall (λ r, length r = length (Schema.columns s)) values → sound s (values_rows s values).
Proof.
  intros Hv. apply emit_sound; [|done]. apply Forall_fmap. eapply Forall_impl; [exact Hv|].
  intros r Hr. cbv beta in Hr. unfold PhysicalValues.row. simpl.
  destruct (mapR _ r) as [vs| |] eqn:Hvs; [|done|].
  2:{ by destruct (mapR_not_Panic _ _ (λ e, evaluate_not_Panic e EMPTY_TUPLE) Hvs). }
  apply mapR_length in Hvs. cbn [mbind result_bind]. unfold Schema.column_count, assert_true.
  rewrite <- Hr, <- Hvs, Nat.eqb_refl. cbn [mbind result_bind].
  destruct (mapR _ (zip _ _)) as [cs| |] eqn:Hc; [|done|].
  2:{ exfalso. revert Hc. apply mapR_not_Panic. intros [v col]. apply cast_to_not_Panic. }
  cbn [mbind result_bind]. assert (typed_values s cs) as Hcs; [|by rewrite (has_types_new s cs Hcs)].
  apply mapR_Ok in Hc. apply Forall2_same_length_lookup. pose proof (Forall2_length _ _ _ Hc) as Hl.
  rewrite length_zip in Hl. split; [lia|]. intros i col v Hcol Hcv.
  destruct (Forall2_lookup_r _ _ _ _ _ Hc Hcv) as ([w col'] & Hz & Hw).
  apply lookup_zip_with_Some in Hz as (? & ? & [= <- <-] & _ & Hcol'). simplify_eq.
  apply ScalarValueFacts.cast_to_data_type in Hw as [Hw _]. rewrite <- Hw. by rewrite ScalarValueFacts.erase_data_type.
Qed.

Lemma empty_sound produce_one_row s :
  (produce_one_row = true → Schema.columns s = []) → sound s (empty_rows produce_one_row s).
Proof.
  intros Hs. apply emit_sound; [|done]. destruct produce_one_row; [|by constructor].
  apply Forall_singleton. rewrite (has_types_new s []); [|rewrite Hs by done; constructor].
  split; [done|]. simpl. rewrite Hs by done. constructor.
Qed.

Lemma sorts_sound s order_bys limit oi o : sound s oi → sorts order_bys limit oi o → sound s o.
Proof.
  intros [He Hr] Ho. unfold sorts in Ho. destruct oi as [l []]; simpl in *; [|by subst..].
  assert (∀ k, k ≡ₚ l → Forall (has_types s) k) as Hk by (intros k ->; done).
  destruct (Meaning.comparable order_bys l).
  - destruct Ho as (k & (Hp & _) & [->|(n & m & _ & _ & ->)]).
    + by split; [|apply Hk].
    + split; [done|]. simpl. by apply Forall_take, Hk.
  - destruct Ho as [[e ->]|(k & Hp & ->)]; [by split|]. by split; [|apply Hk].
Qed.

(** *** Joins *)
Section join.
Context (l_schema r_schema s : Schema.t) (join_type : JoinType.t) (condition : option Expr.t).
Context (Hs : Forall2 (λ c1 c2, fits (Column.data_type c1) c2)
  (Schema.columns l_schema ++ Schema.columns r_schema) (Schema.columns s)).

Lemma nulls_typed sch : typed_values sch (PhysicalNestedLoopJoin.nulls sch).
Proof. unfold typed_values, PhysicalNestedLoopJoin.nulls. apply Forall2_fmap_r. by apply Forall_Forall2_diag, Forall_true. Qed.

Definition side_ok (sch : Schema.t) (row : option Tuple.t) : Prop :=
  match row with Some t => has_types sch t | None => True end.

Lemma combine_Ok l_row r_row :
  side_ok l_schema l_row → side_ok r_schema r_row →
  ∃ t, PhysicalNestedLoopJoin.combine l_schema r_schema s l_row r_row = Ok t ∧ has_types s t.
Proof.
  intros Hl Hr. unfold PhysicalNestedLoopJoin.combine.
  set (ld := match l_row with Some t => _ | None => _ end).
  set (rd := match r_row with Some t => _ | None => _ end).
  assert (typed_values l_schema ld) as Hld.
  { destruct l_row; [apply Hl|apply nulls_typed]. }
  assert (typed_values r_schema rd) as Hrd.
  { destruct r_row; [apply Hr|apply nulls_typed]. }
  assert (typed_values s (ld ++ rd)) as Hd; [|by eexists; split; [apply has_types_new|]].
  pose proof (Forall2_app Hld Hrd) as Hd. unfold typed_values.
  apply Forall2_same_length_lookup. pose proof (Forall2_length _ _ _ Hs). pose proof (Forall2_length _ _ _ Hd).
  split; [lia|]. intros i col v Hc Hv.
  destruct (Forall2_lookup_r _ _ _ _ _ Hs Hc) as (c1 & Hc1 & Hf).
  pose proof (Forall2_lookup_lr _ _ _ _ _ _ Hd Hc1 Hv) as E. simpl in E. by rewrite E.
Qed.

Lemma join_step_sound l r :
  has_types l_schema l → has_types r_schema r →
  sound_step s (PhysicalNestedLoopJoin.join l_schema r_schema s condition l r).
Proof.
  intros Hl Hr. unfold PhysicalNestedLoopJoin.join.
  destruct (combine_Ok (Some l) (Some r) Hl Hr) as (t & -> & Ht). cbn [mbind result_bind].
  destruct condition as [c|]; [|done]. pose proof (evaluate_not_Panic c t).
  by destruct (Expr.evaluate c t) as [[[[]|]| | | | | | | | | | |]| |].
Qed.

Lemma left_rows_sound right l :
  has_types l_schema l → sound r_schema right →
  sound s (left_rows l_schema r_schema s join_type condition right l).
Proof.
  intros Hl [He Hr]. apply and_then_sound.
  - apply emit_sound; [|done]. apply Forall_fmap. eapply Forall_impl; [exact Hr|].
    intros r Hr'. by apply join_step_sound.
  - repeat case_match; [|by split..]. apply emit_sound; [|done]. apply Forall_singleton.
    by destruct (combine_Ok (Some l) None Hl I) as (t & -> & Ht).
Qed.

Lemma join_sound left right :
  sound l_schema left → sound r_schema right →
  sound s (join_rows l_schema r_schema s join_type condition left right).
Proof.
  intros [Hle Hl] [Hre Hr]. apply and_then_sound; [|apply and_then_sound].
  - apply all_outcomes_sound, Forall_fmap. eapply Forall_impl; [exact Hl|].
    intros l Hl'. by apply left_rows_sound.
  - by split.
  - case_match; [|by split]. apply emit_sound; [|done]. apply Forall_fmap.
    eapply Forall_impl; [exact Hr|]. intros r Hr'. simpl. case_match; [done|].
    by destruct (combine_Ok None (Some r) I Hr') as (t & -> & Ht).
Qed.

End join.

(** *** Aggregation *)
Section aggregation.
Context (s0 s : Schema.t) (group_exprs aggr_exprs : list Expr.t) (cols1 cols2 : list Column.t).
Context (Hcols : Schema.columns s = cols1 ++ cols2).
Context (Ha : Forall2 (typed_call s0) aggr_exprs cols1) (Hg : Forall2 (typed_expr s0) group_exprs cols2).

Lemma summary_typed rs e acc col :
  accumulated rs e acc → typed_call s0 e col →
  ∃ v, Accumulator.evaluate acc = Ok v ∧
    ScalarValue.data_type v = ScalarValue.erase (Column.data_type col).
Proof.
  intros (kind & args & vs & -> & _ & Hs) (_ & dt & Hdt & Hf). unfold fits in Hf. rewrite <- Hf.
  destruct kind; simpl in *; simplify_eq.
  - by eexists.
  - destruct Hs as (fs & sum & _ & -> & _). by eexists.
Qed.

Lemma group_row_Ok l key accs :
  Forall (has_types s0) l → (∃ t, t ∈ l ∧ key_of group_exprs t = Ok key) ∨ (group_exprs = [] ∧ key = []) →
  Forall2 (accumulated (List.filter (in_group group_exprs key) l)) aggr_exprs accs →
  ∃ t, PhysicalAggregate.group_row s (key, accs) = Ok t ∧ has_types s t.
Proof.
  intros Hl Hk Haccs.
  assert (∃ vs, mapR Accumulator.evaluate accs = Ok vs ∧
    Forall2 (λ col v, ScalarValue.data_type v = ScalarValue.erase (Column.data_type col)) cols1 vs)
    as (vs & Hvs & Hvt).
  { clear Hcols. revert cols1 Ha. induction Haccs as [|e acc es accs Hacc _ IH]; intros cs Hcs;
      inversion Hcs as [|? col ? cs' Hc Hcs']; subst; [by exists []|].
    destruct (summary_typed _ _ _ _ Hacc Hc) as (v & Hv & Ht).
    destruct (IH cs' Hcs') as (vs & Hvs & Hvt). exists (v :: vs). split; [|by constructor].
    simpl. rewrite Hv. cbn [mbind result_bind]. by rewrite Hvs. }
  assert (Forall2 (λ col v, ScalarValue.data_type v = ScalarValue.erase (Column.data_type col)) cols2 key)
    as Hkt.
  { destruct Hk as [(t & Ht & Hk)|[E ->]]; [|rewrite E in Hg; inversion Hg; constructor].
    eapply evaluate_exprs; [|exact Hg|exact Hk]. by eapply Forall_forall in Hl. }
  exists (Tuple.Mk s (vs ++ key)). unfold PhysicalAggregate.group_row. rewrite Hvs. cbn [mbind result_bind].
  assert (typed_values s (vs ++ key)) as Ht by (unfold typed_values; rewrite Hcols; by apply Forall2_app).
  by rewrite has_types_new.
Qed.

Lemma aggregates_sound oi o :
  sound s0 oi → aggregates group_exprs aggr_exprs s oi o → sound s o.
Proof.
  intros [He Hr] Ho. unfold aggregates in Ho. destruct (ended oi); [|by destruct Ho as [? ->]|done].
  destruct (aggregable _ _ _); [|by destruct Ho as [? ->]].
  destruct Ho as (groups & (_ & Hkeys & Haccs) & Ho). subst o.
  assert (∃ k, mapR (PhysicalAggregate.group_row s) groups = Ok k ∧ Forall (has_types s) k) as (k & -> & Hk);
    [|by split].
  assert (Forall (λ g, g ∈ groups) groups) as Hin by (apply Forall_forall; done).
  revert Hin. generalize groups at 2 3. intros ks Hin.
  induction Hin as [|[key accs] ks Hg' _ (k & Hk & Ht)]; [by exists []|].
  destruct (group_row_Ok (rows oi) key accs Hr) as (t & Hrow & Htt).
  - apply Hkeys, list_elem_of_fmap. by exists (key, accs).
  - rewrite Forall_forall in Haccs. exact (Haccs _ Hg').
  - exists (t :: k). split; [|by constructor]. cbn [mapR]. rewrite Hrow. cbn [mbind result_bind]. by rewrite Hk.
Qed.

End aggregation.

Lemma well_typed_sound tables p o :
  well_typed tables p → means tables p o → sound (LogicalPlan.schema p) o.
Proof.
  revert o. induction p; simpl; intros o Hp Ho; try done.
  - destruct Ho as (oi & Hoi & ->). by apply filter_sound, IHp.
  - destruct Ho as (ol & or & Hol & Hor & ->), Hp as (Hl & Hr & Hs).
    by apply join_sound; [|apply IHp1|apply IHp2].
  - destruct Ho as (oi & Hoi & ->). by apply limit_sound, IHp.
  - destruct Ho as (oi & Hoi & ->), Hp as [Hp Hx]. by eapply project_sound; [|apply IHp].
  - destruct Ho as (l & Hl & ->). split; [done|]. by apply Hp.
  - destruct Ho as (oi & Hoi & Ho). eapply sorts_sound; [|done]. by apply IHp.
  - subst o. by apply values_sound.
  - subst o. by apply empty_sound.
  - destruct Ho as (oi & Hoi & Ho), Hp as (Hp & cols1 & cols2 & Hc & Ha & Hg).
    eapply aggregates_sound; [done..| |done]. by apply IHp.
Qed.

End TypingFacts.

(** ** Property *)
Module TypingSpec.
Import Typing TypingFacts.

(** C35: queries are type safe. Whatever a well typed plan computes over the tables, it
    does not panic, and every row it yields has the schema of the plan: one value for
    each column, of the type of the column. *)
Theorem query_type_safe tables p o :
  well_typed tables p → means tables p o → sound (LogicalPlan.schema p) o.
Proof. apply well_typed_sound. Qed.

(** [select count(a), b from t where a > 1 group by b] *)
Definition demo_query : LogicalPlan.t :=
  LogicalPlan.Aggregate
    (LogicalPlan.Filter
       (Expr.Binary (Expr.Column None "a") BinaryOp.Gt (Expr.Literal (ScalarValue.Int64 (Some 1))))
       (LogicalPlan.TableScan (TableReference.Bare "t") SchemaSpec.demo_schema [] None))
    [Expr.Column None "b"]
    [Expr.AggregateFunction AggregateFunctionKind.Count [Expr.Column None "a"] false]
    (Schema.Mk [Column.new "count" DataType.Int64 true; Column.new "b" DataType.Float32 true]).

Definition demo_tables (_ : TableReference.t) : option (list Tuple.t) :=
  Some [SchemaSpec.demo_tuple 3 0; SchemaSpec.demo_tuple 1 0; SchemaSpec.demo_tuple 2 0].

Lemma demo_query_typed : well_typed demo_tables demo_query.
Proof.
  split.
  - intros l [= <-]. repeat constructor.
  - exists [Column.new "count" DataType.Int64 true], [Column.new "b" DataType.Float32 true].
    split; [done|]. split; (constructor; [|constructor]); split; [done| |done|]; by eexists.
Qed.

Lemma query_type_safe_witness :
  ∃ o, means demo_tables demo_query o ∧ sound (LogicalPlan.schema demo_query) o.
Proof.
  destruct (TotalFacts.means_total demo_tables demo_query) as [o Ho]; [by eexists|].
  exists o. split; [done|]. exact (query_type_safe _ _ _ demo_query_typed Ho).
Defined.

End TypingSpec.

(** ** The comparator of a sort

    [sort_by] is given a closure that answers [Equal] when a comparison fails. On rows of
    one schema this is a total preorder all the same: whether an expression can be
    evaluated and compared depends on the types only, so that a failing key fails on all
    rows, with the same error. The sort of the standard library therefore does not panic,
    and every stable sort gives the same result: the same order, or that error when two
    neighbours of the sorted rows tie on the keys before the failing one, which any sort
    has to compare. *)
Module SortComparator.
Import Expr ExpressionFacts SortFacts PhysicalSort.

Section schema.
Context (s : Schema.t).

(** Equal errors, or values of the same type. *)
Definition alike (r1 r2 : result ScalarValue.t) : Prop :=
  match r1, r2 with
  | Ok v1, Ok v2 => ScalarValue.data_type v1 = ScalarValue.data_type v2
  | Err e1, Err e2 => e1 = e2
  | _, _ => False
  end.

Lemma cast_alike v1 v2 dt :
  ScalarValue.data_type v1 = ScalarValue.data_type v2 →
  alike (ScalarValue.cast_to v1 dt) (ScalarValue.cast_to v2 dt).
Proof.
  intros Ht. unfold ScalarValue.cast_to. rewrite Ht. destruct (decide (ScalarValue.data_type v2 = dt)); [done|].
  by destruct v1, v2; simpl in Ht; try discriminate Ht; destruct dt.
Qed.

Lemma bind_alike r1 r2 f1 f2 :
  alike r1 r2 →
  (∀ v1 v2, ScalarValue.data_type v1 = ScalarValue.data_type v2 → alike (f1 v1) (f2 v2)) →
  alike (r1 ≫= f1) (r2 ≫= f2).
Proof. intros Hr Hf. destruct r1, r2; try done. by apply Hf. Qed.

Lemma comparison_alike l1 l2 r1 r2 acc :
  ScalarValue.data_type l1 = ScalarValue.data_type l2 → ScalarValue.data_type r1 = ScalarValue.data_type r2 →
  alike (evaluate_comparison l1 r1 acc) (evaluate_comparison l2 r2 acc).
Proof.
  intros Hl Hr. unfold evaluate_comparison. rewrite Hl, Hr.
  destruct (DataType.comparison_numeric_coercion _ _) as [dt| |] eqn:Hc; [|done|by apply coercion_not_Panic in Hc].
  cbn [mbind result_bind].
  apply bind_alike; [by apply cast_alike|]. intros v1 v2 Hv. apply bind_alike; [by apply cast_alike|]. intros w1 w2 Hw.
  destruct (ScalarValue.partial_cmp v1 w1) as [c1|] eqn:H1, (ScalarValue.partial_cmp v2 w2) as [c2|] eqn:H2; try done.
  - assert (is_Some (ScalarValue.partial_cmp v1 w1)) as Hs by (by rewrite H1).
    apply ScalarValueFacts.partial_cmp_Some in Hs. rewrite Hv, Hw in Hs.
    apply ScalarValueFacts.partial_cmp_Some in Hs as [? Hs]. congruence.
  - assert (is_Some (ScalarValue.partial_cmp v2 w2)) as Hs by (by rewrite H2).
    apply ScalarValueFacts.partial_cmp_Some in Hs. rewrite <- Hv, <- Hw in Hs.
    apply ScalarValueFacts.partial_cmp_Some in Hs as [? Hs]. congruence.
Qed.

Lemma apply_alike op l1 l2 r1 r2 :
  ScalarValue.data_type l1 = ScalarValue.data_type l2 → ScalarValue.data_type r1 = ScalarValue.data_type r2 →
  alike (BinaryExpr.apply op l1 r1) (BinaryExpr.apply op l2 r2).
Proof.
  intros Hl Hr. destruct op; simpl; try (by apply comparison_alike); try done.
  destruct l1, l2; simpl in Hl; try discriminate Hl; try done;
    destruct r1, r2; simpl in Hr; try discriminate Hr; try done; simpl; by repeat case_match.
Qed.

(** Evaluation succeeds or fails by the schema of the row. *)
Fixpoint evaluate_alike (e : t) (a b : Tuple.t) {struct e} :
  has_types s a → has_types s b → alike (evaluate e a) (evaluate e b).
Proof.
  intros Ha Hb. destruct e as [e ?|relation name|v|e1 op e2|e dt|kind args ?]; simpl.
  - by apply evaluate_alike.
  - unfold Tuple.value_by_name. destruct Ha as [-> Ha], Hb as [-> Hb].
    unfold Schema.index_of. destruct (Schema.find_from 0 _ _) as [i|]; [|done]. cbn [ok_or mbind result_bind].
    unfold Tuple.value. destruct (Schema.columns s !! i) as [c|] eqn:Hi.
    + destruct (Forall2_lookup_l _ _ _ _ _ Ha Hi) as (va & -> & Hta), (Forall2_lookup_l _ _ _ _ _ Hb Hi) as (vb & -> & Htb).
      simpl. congruence.
    + apply lookup_ge_None in Hi. rewrite (lookup_ge_None_2 (Tuple.data a)), (lookup_ge_None_2 (Tuple.data b))
        by (rewrite <- ?(Forall2_length _ _ _ Ha), <- ?(Forall2_length _ _ _ Hb); lia). done.
  - done.
  - apply bind_alike; [by apply evaluate_alike|]. intros l1 l2 Hl.
    apply bind_alike; [by apply evaluate_alike|]. intros r1 r2 Hr. by apply apply_alike.
  - apply bind_alike; [by apply evaluate_alike|]. intros v1 v2 Hv. by apply cast_alike.
  - destruct args as [|e args]; [done|]. by apply evaluate_alike.
Qed.

(** The keys before the first that fails, and what the others answer on rows that are
    equal by these. *)
Lemma sort_keys order_bys t0 : has_types s t0 →
  ∃ ks end_, (end_ = Ok Eq ∨ ∃ e, end_ = Err e) ∧
    ∀ a b, has_types s a → has_types s b →
      ∃ c, sort_tuples ks a b = Ok c ∧
        sort_tuples order_bys a b = match c with Eq => end_ | _ => Ok c end.
Proof.
  intros H0. induction order_bys as [|k order_bys (ks & end_ & Hend & IH)].
  { exists [], (Ok Eq). split; [by left|]. intros a b _ _. by exists Eq. }
  destruct (evaluate (OrderByExpr.expr k) t0) as [v0|e|] eqn:Hk.
  - exists (k :: ks), end_. split; [done|]. intros a b Ha Hb. simpl.
    pose proof (evaluate_alike (OrderByExpr.expr k) t0 a H0 Ha) as Hva.
    pose proof (evaluate_alike (OrderByExpr.expr k) t0 b H0 Hb) as Hvb. rewrite Hk in Hva, Hvb.
    destruct (evaluate _ a) as [va| |], (evaluate _ b) as [vb| |]; try done. simpl in Hva, Hvb |- *.
    assert (∃ o, (if OrderByExpr.asc k then ScalarValue.partial_cmp va vb else ScalarValue.partial_cmp vb va) = Some o)
      as [o ->].
    { destruct (OrderByExpr.asc k); apply ScalarValueFacts.partial_cmp_Some; congruence. }
    destruct (IH a b Ha Hb) as (c & Hc & Hs). simpl. destruct o; [exists c; by split|by eexists..].
  - exists [], (Err e). split; [right; by exists e|]. intros a b Ha Hb. exists Eq. split; [done|]. simpl.
    pose proof (evaluate_alike (OrderByExpr.expr k) t0 a H0 Ha) as Hva. rewrite Hk in Hva.
    destruct (evaluate _ a) as [va|ea|]; try done. simpl in Hva. by subst ea.
  - by apply evaluate_not_Panic in Hk.
Qed.

Definition order (order_bys : list OrderByExpr.t) (a b : Tuple.t) : comparison :=
  match sort_tuples order_bys a b with Ok c => c | _ => Eq end.

Lemma closure_order order_bys a b error :
  sort_tuples order_bys a b ≠ Panic →
  (closure order_bys a b error).2 = Ok (order order_bys a b).
Proof. unfold closure, order. by destruct (sort_tuples order_bys a b). Qed.

(** The answers of the closure on rows of a schema: a total preorder, and one error. *)
Lemma sort_comparator order_bys a b c :
  has_types s a → has_types s b → has_types s c →
  (∀ error, (closure order_bys a b error).2 = Ok (order order_bys a b)) ∧
  order order_bys b a = CompOpp (order order_bys a b) ∧
  (order order_bys a b ≠ Gt → order order_bys b c ≠ Gt → order order_bys a c ≠ Gt) ∧
  (∀ e1 e2, sort_tuples order_bys a b = Err e1 → sort_tuples order_bys b c = Err e2 → e1 = e2).
Proof.
  intros Ha Hb Hc. destruct (sort_keys order_bys a Ha) as (ks & end_ & Hend & Hs).
  assert (∀ x y, has_types s x → has_types s y → ∃ o, sort_tuples ks x y = Ok o ∧ order order_bys x y = o) as Ho.
  { intros x y Hx Hy. destruct (Hs x y Hx Hy) as (o & Ho & Hxy). exists o. split; [done|]. unfold order. rewrite Hxy.
    destruct o; [by destruct Hend as [->|[e ->]]|done..]. }
  split_and!.
  - intros error. apply closure_order. destruct (Hs a b Ha Hb) as (o & _ & ->).
    destruct o; [by destruct Hend as [->|[e ->]]|done..].
  - destruct (Ho a b Ha Hb) as (o & Hab & ->), (Ho b a Hb Ha) as (o' & Hba & ->).
    apply sort_tuples_opp in Hab. congruence.
  - destruct (Ho a b Ha Hb) as (o1 & Hab & ->), (Ho b c Hb Hc) as (o2 & Hbc & ->), (Ho a c Ha Hc) as (o3 & Hac & ->).
    intros H1 H2. pose proof (sort_tuples_trans ks a b c o1 o2 Hab Hbc H1 H2) as Ht. rewrite Hac in Ht.
    specialize (Ht eq_refl). injection Ht as ->. by destruct o1, o2.
  - intros e1 e2. destruct (Hs a b Ha Hb) as (o1 & _ & ->), (Hs b c Hb Hc) as (o2 & _ & ->).
    destruct o1, o2; try done. congruence.
Qed.
End schema.
End SortComparator.
