(* ===== verification/Optimizer.v ===== *)
(** * Optimizer: the rules of the logical optimizer

    Models [bustubx/src/optimizer/logical_optimizer.rs] and the rules of
    [optimizer/rule/*.rs], and proves that an optimized plan computes what the plan
    computes, when no limit is below a join. *)
From S2P Require Import Prelude CommonCodec Floats Scalar Schema Expressions LogicalPlan Operators.
From S2P Require Import Meaning.
Local Open Scope Z_scope.

Module ApplyOrder.
Inductive t := TopDown | BottomUp.
End ApplyOrder.

(** The trait [LogicalOptimizerRule], without the name of the rule. *)
Module LogicalOptimizerRule.
Record t := Mk {
  try_optimize : LogicalPlan.t → result (option LogicalPlan.t);
  apply_order : option ApplyOrder.t;
}.
End LogicalOptimizerRule.

Definition usize_bits : Z := 64.
Definition saturating_sub (a b : Z) : Z := Z.max 0 (a - b).

Module EliminateLimit.

Fixpoint try_optimize (plan : LogicalPlan.t) : result (option LogicalPlan.t) :=
  match plan with
  | LogicalPlan.Limit limit offset input =>
      match limit with
      | Some fetch =>
          if fetch =? 0
          then Ok (Some (LogicalPlan.EmptyRelation false (LogicalPlan.schema input)))
          else Ok None
      | None =>
          if offset =? 0 then
            o ← try_optimize input;
            Ok (Some (default input o))
          else Ok None
      end
  | _ => Ok None
  end.

Definition rule : LogicalOptimizerRule.t :=
  LogicalOptimizerRule.Mk try_optimize (Some ApplyOrder.BottomUp).

End EliminateLimit.

Module MergeLimit.

Definition new_limit (parent_limit : option Z) (parent_offset : Z) (child_limit : option Z) :
    option Z :=
  match parent_limit, child_limit with
  | Some parent_limit, Some child_limit =>
      Some (Z.min parent_limit (saturating_sub child_limit parent_offset))
  | Some parent_limit, None => Some parent_limit
  | None, Some child_limit => Some (saturating_sub child_limit parent_offset)
  | None, None => None
  end.

(** [try_optimize] of [Limit { limit, offset, input }]: the recursive call is on a limit
    over the input of [input]. *)
Fixpoint merge (limit : option Z) (offset : Z) (input : LogicalPlan.t) :
    result (option LogicalPlan.t) :=
  match input with
  | LogicalPlan.Limit child_limit child_offset child_input =>
      let limit := new_limit limit offset child_limit in
      offset ← checked usize_bits (child_offset + offset);
      opt_plan ← merge limit offset child_input;
      Ok (Some (default (LogicalPlan.Limit limit offset child_input) opt_plan))
  | _ => Ok None
  end.

Definition try_optimize (plan : LogicalPlan.t) : result (option LogicalPlan.t) :=
  match plan with
  | LogicalPlan.Limit limit offset input => merge limit offset input
  | _ => Ok None
  end.

Definition rule : LogicalOptimizerRule.t :=
  LogicalOptimizerRule.Mk try_optimize (Some ApplyOrder.TopDown).

End MergeLimit.

Module PushDownLimit.

Definition try_optimize (plan : LogicalPlan.t) : result (option LogicalPlan.t) :=
  match plan with
  | LogicalPlan.Limit (Some limit_value) offset (LogicalPlan.Sort order_by input sort_limit) =>
      new_limit ← checked usize_bits (offset + limit_value);
      let new_limit := Some (match sort_limit with
                             | Some f => Z.min f new_limit
                             | None => new_limit
                             end) in
      if bool_decide (new_limit = sort_limit) then Ok None
      else
        plan ← LogicalPlan.with_new_inputs plan [LogicalPlan.Sort order_by input new_limit];
        Ok (Some plan)
  | _ => Ok None
  end.

Definition rule : LogicalOptimizerRule.t :=
  LogicalOptimizerRule.Mk try_optimize (Some ApplyOrder.TopDown).

End PushDownLimit.

Module LogicalOptimizer.

Record t := Mk { rules : list LogicalOptimizerRule.t; max_passes : nat }.

Definition new : t := Mk [EliminateLimit.rule; MergeLimit.rule; PushDownLimit.rule] 3.
Definition with_rules (rules : list LogicalOptimizerRule.t) : t := Mk rules 3.

(** [Option::or] *)
Definition or {A} (a b : option A) : option A := match a with Some _ => a | None => b end.

(** The inputs of a plan, each optimized by [recurse]. *)
Definition optimize_inputs (recurse : LogicalPlan.t → result (option LogicalPlan.t))
    (plan : LogicalPlan.t) : result (option LogicalPlan.t) :=
  let inputs := LogicalPlan.inputs plan in
  result ← mapR recurse inputs;
  if forallb ScalarValue.is_none result then Ok None
  else
    let new_inputs := zip_with (λ new_plan old_plan, default old_plan new_plan) result inputs in
    plan ← LogicalPlan.with_new_inputs plan new_inputs;
    Ok (Some plan).

(** A rewritten plan is not deeper than the plan, so [depth] is enough fuel. *)
Fixpoint optimize_recursively (fuel : nat) (rule : LogicalOptimizerRule.t) (plan : LogicalPlan.t) :
    result (option LogicalPlan.t) :=
  match fuel with
  | O => Panic
  | S fuel' =>
      let optimize_inputs := optimize_inputs (optimize_recursively fuel' rule) in
      match LogicalOptimizerRule.apply_order rule with
      | Some ApplyOrder.TopDown =>
          optimize_self_opt ← LogicalOptimizerRule.try_optimize rule plan;
          optimize_inputs_opt ← optimize_inputs (default plan optimize_self_opt);
          Ok (or optimize_inputs_opt optimize_self_opt)
      | Some ApplyOrder.BottomUp =>
          optimize_inputs_opt ← optimize_inputs plan;
          optimize_self_opt ←
            LogicalOptimizerRule.try_optimize rule (default plan optimize_inputs_opt);
          Ok (or optimize_self_opt optimize_inputs_opt)
      | None => LogicalOptimizerRule.try_optimize rule plan
      end
  end.

Fixpoint depth (plan : LogicalPlan.t) : nat :=
  match plan with
  | LogicalPlan.Filter _ input | LogicalPlan.Insert _ _ _ input | LogicalPlan.Limit _ _ input
  | LogicalPlan.Project _ input _ | LogicalPlan.Sort _ input _
  | LogicalPlan.Aggregate input _ _ _ => S (depth input)
  | LogicalPlan.Join l_plan r_plan _ _ _ => S (Nat.max (depth l_plan) (depth r_plan))
  | _ => 1
  end.

(** One rule over the whole plan. *)
Definition apply_rule (new_plan : LogicalPlan.t) (rule : LogicalOptimizerRule.t) :
    result LogicalPlan.t :=
  optimized_plan ← optimize_recursively (depth new_plan) rule new_plan;
  Ok (default new_plan optimized_plan).

Fixpoint optimize_passes (passes : nat) (rules : list LogicalOptimizerRule.t)
    (new_plan : LogicalPlan.t) : result LogicalPlan.t :=
  match passes with
  | O => Ok new_plan
  | S passes' =>
      new_plan ← foldR apply_rule new_plan rules;
      optimize_passes passes' rules new_plan
  end.

Definition optimize (self : t) (plan : LogicalPlan.t) : result LogicalPlan.t :=
  optimize_passes (max_passes self) (rules self) plan.

End LogicalOptimizer.

(** ** The optimizer preserves the meaning of plans *)
Module OptimizerFacts.
Import MeaningFacts TotalFacts LogicalOptimizer.

Fixpoint limit_free (p : LogicalPlan.t) : bool :=
  match p with
  | LogicalPlan.Limit _ _ _ => false
  | LogicalPlan.Filter _ input | LogicalPlan.Insert _ _ _ input | LogicalPlan.Project _ input _
  | LogicalPlan.Sort _ input _ | LogicalPlan.Aggregate input _ _ _ => limit_free input
  | LogicalPlan.Join l_plan r_plan _ _ _ => limit_free l_plan && limit_free r_plan
  | _ => true
  end.

(** Limits and offsets are [usize] values, and no limit is below a join. *)
Fixpoint limits_ok (p : LogicalPlan.t) : Prop :=
  match p with
  | LogicalPlan.Limit limit offset input =>
      (∀ n, limit = Some n → 0 ≤ n) ∧ 0 ≤ offset ∧ limits_ok input
  | LogicalPlan.Filter _ input | LogicalPlan.Insert _ _ _ input | LogicalPlan.Project _ input _
  | LogicalPlan.Sort _ input _ | LogicalPlan.Aggregate input _ _ _ => limits_ok input
  | LogicalPlan.Join l_plan r_plan _ _ _ => limit_free l_plan && limit_free r_plan = true
  | _ => True
  end.

(** The sum of the limits and offsets on the way down: a bound of every sum of them. *)
Fixpoint weight (p : LogicalPlan.t) : Z :=
  match p with
  | LogicalPlan.Limit limit offset input => default 0 limit + offset + weight input
  | LogicalPlan.Filter _ input | LogicalPlan.Insert _ _ _ input | LogicalPlan.Project _ input _
  | LogicalPlan.Sort _ input _ | LogicalPlan.Aggregate input _ _ _ => weight input
  | _ => 0
  end.

Lemma weight_nonneg p : limits_ok p → 0 ≤ weight p.
Proof.
  induction p; simpl; try lia; auto. intros (Hn & Ho & Hi). specialize (IHp Hi).
  destruct limit as [n|]; simpl; [specialize (Hn n eq_refl)|]; lia.
Qed.

(** *** The rules on limits *)
Lemma limit_rows_0 offset o : limit_rows (Some 0) offset o = Out [] Done.
Proof. done. Qed.

Lemma limit_rows_None o : limit_rows None 0 o = o.
Proof. by destruct o. Qed.

Lemma approximates_nil e : approximates (Out [] e) (Out [] Done).
Proof. destruct e; [done|by apply stopped_approximates..]. Qed.

(** [take] of [n], as [limit_rows] does it on the rows left after the offset. *)
Definition take_rows (n : nat) (o : outcome) : outcome :=
  if (n <=? length (rows o))%nat then Out (take n (rows o)) Done else o.

Lemma take_rows_merge p c m o :
  approximates (take_rows p (Out (drop m (rows (take_rows c o))) (ended (take_rows c o))))
    (take_rows (Nat.min p (c - m)) (Out (drop m (rows o)) (ended o))).
Proof.
  unfold take_rows. destruct (Nat.leb_spec c (length (rows o))) as [Hc|Hc]; simpl;
    rewrite ?skipn_firstn_comm, ?length_take, !length_drop.
  - destruct (Nat.leb_spec p (Nat.min (c - m) (length (rows o) - m))) as [Hp|Hp];
      rewrite (proj2 (Nat.leb_le _ _)) by lia; rewrite ?take_take.
    + done.
    + by rewrite Nat.min_r by lia.
  - destruct (Nat.leb_spec p (length (rows o) - m)) as [Hp|Hp].
    + rewrite (proj2 (Nat.leb_le _ _)) by lia. by rewrite Nat.min_l by lia.
    + destruct (Nat.leb_spec (Nat.min p (c - m)) (length (rows o) - m)) as [Hk|Hk]; [|done].
      rewrite drop_ge by lia. rewrite take_nil. apply approximates_nil.
Qed.

Lemma take_rows_drop c m o :
  approximates (Out (drop m (rows (take_rows c o))) (ended (take_rows c o)))
    (take_rows (c - m) (Out (drop m (rows o)) (ended o))).
Proof.
  unfold take_rows. destruct (Nat.leb_spec c (length (rows o))) as [Hc|Hc]; simpl;
    rewrite ?skipn_firstn_comm, !length_drop.
  - by rewrite (proj2 (Nat.leb_le _ _)) by lia.
  - destruct (Nat.leb_spec (c - m) (length (rows o) - m)) as [Hk|Hk]; [|done].
    rewrite drop_ge by lia. rewrite take_nil. apply approximates_nil.
Qed.

Lemma limit_rows_take n offset o :
  limit_rows (Some n) offset o
  = take_rows (Z.to_nat n) (Out (drop (Z.to_nat offset) (rows o)) (ended o)).
Proof. done. Qed.

Lemma limit_rows_drop offset o :
  limit_rows None offset o = Out (drop (Z.to_nat offset) (rows o)) (ended o).
Proof. done. Qed.

Lemma limit_merge pl po cl co o :
  0 ≤ po → 0 ≤ co → (∀ n, pl = Some n → 0 ≤ n) → (∀ n, cl = Some n → 0 ≤ n) →
  approximates (limit_rows pl po (limit_rows cl co o))
    (limit_rows (MergeLimit.new_limit pl po cl) (co + po) o).
Proof.
  intros Hpo Hco Hpl Hcl.
  assert (drop (Z.to_nat (co + po)) (rows o) = drop (Z.to_nat po) (drop (Z.to_nat co) (rows o))) as Hd.
  { by rewrite drop_drop, Z2Nat.inj_add. }
  destruct cl as [c|]; [specialize (Hcl c eq_refl)|].
  2:{ rewrite (limit_rows_drop co). destruct pl as [p|]; unfold MergeLimit.new_limit.
      - by rewrite !limit_rows_take, Hd.
      - by rewrite !limit_rows_drop, Hd. }
  rewrite (limit_rows_take c co). destruct pl as [p|]; unfold MergeLimit.new_limit; rewrite !limit_rows_take, Hd.
  - specialize (Hpl p eq_refl).
    replace (Z.to_nat (Z.min p (saturating_sub c po)))
      with (Nat.min (Z.to_nat p) (Z.to_nat c - Z.to_nat po)) by (unfold saturating_sub; lia).
    apply (take_rows_merge _ _ _ (Out _ _)).
  - replace (Z.to_nat (saturating_sub c po)) with (Z.to_nat c - Z.to_nat po)%nat
      by (unfold saturating_sub; lia).
    rewrite limit_rows_drop. apply (take_rows_drop _ _ (Out _ _)).
Qed.

(** *** Better plans *)

(** A preorder on plans that every rewriting of the rules follows. *)
Class Preserved (R : LogicalPlan.t → LogicalPlan.t → Prop) : Prop := {
  preserved_refl p : R p p;
  preserved_trans p1 p2 p3 : R p1 p2 → R p2 p3 → R p1 p3;
  preserved_input p p' i i' :
    LogicalPlan.inputs p = [i] → LogicalPlan.with_new_inputs p [i'] = Ok p' →
    LogicalPlan.schema i' = LogicalPlan.schema i → R i' i → R p' p;
  preserved_zero offset p :
    R (LogicalPlan.EmptyRelation false (LogicalPlan.schema p)) (LogicalPlan.Limit (Some 0) offset p);
  preserved_none p : R p (LogicalPlan.Limit None 0 p);
  preserved_merge pl po cl co input :
    limits_ok (LogicalPlan.Limit pl po (LogicalPlan.Limit cl co input)) →
    R (LogicalPlan.Limit (MergeLimit.new_limit pl po cl) (co + po) input)
      (LogicalPlan.Limit pl po (LogicalPlan.Limit cl co input));
  preserved_push limit offset order_by input n n' :
    R (LogicalPlan.Limit limit offset (LogicalPlan.Sort order_by input n'))
      (LogicalPlan.Limit limit offset (LogicalPlan.Sort order_by input n));
}.

#[export] Instance Preserved_True : Preserved (λ _ _, True).
Proof. by split. Qed.

Section better.
Context (tables : TableReference.t → option (list Tuple.t)).
Context (R : LogicalPlan.t → LogicalPlan.t → Prop) `{Preserved R}.

Definition good (p : LogicalPlan.t) : Prop :=
  limits_ok p ∧ readable tables p ∧ weight p < 2 ^ usize_bits.

Record better (p' p : LogicalPlan.t) : Prop := Better {
  better_implements : implements tables p' p;
  better_schema : LogicalPlan.schema p' = LogicalPlan.schema p;
  better_limits : limits_ok p';
  better_readable : readable tables p';
  better_weight : weight p' ≤ weight p;
  better_depth : (depth p' ≤ depth p)%nat;
  better_preserved : R p' p;
}.

Lemma better_refl p : good p → better p p.
Proof using Type*. intros (H1 & H2 & H3). split; try done. apply preserved_refl. Qed.

Lemma better_trans p1 p2 p3 : better p1 p2 → better p2 p3 → better p1 p3.
Proof using Type*.
  intros [] []. split; [by etrans|congruence|done|done|lia|lia|by eapply preserved_trans].
Qed.

Lemma better_good p' p : better p' p → good p → good p'.
Proof. intros [] (H1 & H2 & H3). split_and!; [done..|lia]. Qed.

(** What a rule may do to a plan. *)
Definition rewrites (f : result (option LogicalPlan.t)) (p : LogicalPlan.t) : Prop :=
  ∃ o, f = Ok o ∧ (∀ p', o = Some p' → better p' p) ∧ (limit_free p = true → o = None).

Definition rule_sound (rule : LogicalOptimizerRule.t) : Prop :=
  ∀ p, good p → rewrites (LogicalOptimizerRule.try_optimize rule p) p.

Lemma rewrites_None p : rewrites (Ok None) p.
Proof. by exists None. Qed.

Lemma rewrites_limit limit offset input p' :
  better p' (LogicalPlan.Limit limit offset input) →
  rewrites (Ok (Some p')) (LogicalPlan.Limit limit offset input).
Proof. intros Hb. exists (Some p'). split_and!; [done|by intros ? [= <-]|done]. Qed.

Lemma good_input limit offset input :
  good (LogicalPlan.Limit limit offset input) → good input ∧ 0 ≤ default 0 limit ∧ 0 ≤ offset.
Proof.
  intros ((Hn & Ho & Hi) & Hr & Hw). cbn [weight] in Hw.
  assert (0 ≤ default 0 limit) by (destruct limit; simpl; auto; lia).
  split_and!; [split_and!; [done..|lia]|done|done].
Qed.

Lemma eliminate_sound : rule_sound EliminateLimit.rule.
Proof.
  intros p. simpl. induction p; intros Hg; try apply rewrites_None. simpl.
  destruct (good_input _ _ _ Hg) as ([Hi [Hr Hw]] & Hn & Ho). destruct limit as [n|].
  - destruct (Z.eqb_spec n 0) as [->|]; [|apply rewrites_None]. apply rewrites_limit. split; try done.
    + intros o' ->. destruct (means_total tables p Hr) as [oi Hoi].
      exists (limit_rows (Some 0) offset oi). by split; [exists oi|].
    + simpl. pose proof (weight_nonneg p Hi). lia.
    + simpl. lia.
    + apply preserved_zero.
  - destruct (Z.eqb_spec offset 0) as [->|]; [|apply rewrites_None].
    destruct (IHp (conj Hi (conj Hr Hw))) as (o & Ho' & Hb & _). rewrite Ho'. simpl.
    apply rewrites_limit.
    assert (better (default p o) p) as [Hbi Hbs Hbl Hbr Hbw Hbd HR].
    { destruct o as [p'|]; simpl; [by apply Hb|by apply better_refl]. }
    split; try done.
    + intros o' (oi & Hoi & A)%Hbi. exists oi. split; [|done]. exists oi. by rewrite limit_rows_None.
    + simpl. lia.
    + eapply preserved_trans; [exact HR|apply preserved_none].
Qed.

Lemma merge_better pl po cl co input :
  good (LogicalPlan.Limit pl po (LogicalPlan.Limit cl co input)) →
  better (LogicalPlan.Limit (MergeLimit.new_limit pl po cl) (co + po) input)
    (LogicalPlan.Limit pl po (LogicalPlan.Limit cl co input)).
Proof.
  intros (Hl & Hr & Hw). pose proof Hl as (Hpl & Hpo & Hcl & Hco & Hi).
  split; [..|by apply preserved_merge]; simpl in *; try done.
  - intros o' (oi & Hoi & ->). exists (limit_rows pl po (limit_rows cl co oi)). split.
    + exists (limit_rows cl co oi). split; [by exists oi|done].
    + by apply limit_merge.
  - split_and!; [|lia|done]. intros n. destruct pl as [p|], cl as [c|]; simpl; intros [= <-];
      unfold saturating_sub; try specialize (Hpl _ eq_refl); lia.
  - destruct pl as [p|], cl as [c|]; simpl; unfold saturating_sub;
      try specialize (Hpl _ eq_refl); try specialize (Hcl _ eq_refl); lia.
  - lia.
Qed.

Lemma merge_sound : rule_sound MergeLimit.rule.
Proof.
  intros p Hg. simpl. destruct p; try apply rewrites_None. simpl.
  revert limit offset Hg. induction p; intros limit' offset' Hg; try apply rewrites_None. simpl.
  pose proof (merge_better _ _ _ _ _ Hg) as Hb. pose proof (better_good _ _ Hb Hg) as Hg'.
  destruct (good_input _ _ _ Hg') as (_ & Hn & Ho). destruct Hg' as (Hg1 & Hg2 & Hw).
  cbn [weight] in Hw. rewrite checked_Ok by (split; [lia|];
    pose proof (weight_nonneg p (proj2 (proj2 Hg1))); lia). cbn [mbind result_bind].
  destruct (IHp _ _ (conj Hg1 (conj Hg2 Hw))) as (o & -> & Hb' & _). cbn [mbind result_bind].
  apply rewrites_limit. destruct o as [p'|]; simpl; [|done]. by eapply better_trans; [apply Hb'|].
Qed.

(** A limit above a sort: the rows it asks for, or more of them. *)
Lemma limit_take n m offset k :
  0 ≤ n → 0 ≤ offset → offset + n ≤ m →
  limit_rows (Some n) offset (Out (take (Z.to_nat m) k) Done) = limit_rows (Some n) offset (Out k Done).
Proof.
  intros Hn Ho Hm. rewrite !limit_rows_take. unfold take_rows. simpl.
  rewrite skipn_firstn_comm, length_take, !length_drop.
  destruct (Nat.leb_spec (Z.to_nat n) (length k - Z.to_nat offset)) as [Hk|Hk].
  - rewrite (proj2 (Nat.leb_le _ _)) by lia. by rewrite take_take, Nat.min_l by lia.
  - rewrite (proj2 (Nat.leb_gt _ _)) by lia. by rewrite take_ge by (rewrite length_drop; lia).
Qed.

Lemma sorts_limit order_by sort_limit oi o n offset :
  0 ≤ n → 0 ≤ offset → sorts order_by (Some (offset + n)) oi o →
  ∃ o', sorts order_by sort_limit oi o' ∧ limit_rows (Some n) offset o' = limit_rows (Some n) offset o.
Proof.
  intros Hn Ho. unfold sorts. destruct (ended oi); [|by eexists..].
  destruct (comparable _ _); [|by eexists]. intros (k & Hk & [->|(x & m & [= <-] & Hm & ->)]).
  - exists (Out k Done). split; [|done]. exists k. split; [done|by left].
  - exists (Out k Done). split; [exists k; split; [done|by left]|]. symmetry. by apply limit_take.
Qed.

Lemma push_down_sound : rule_sound PushDownLimit.rule.
Proof.
  intros p Hg. simpl. destruct p; try apply rewrites_None. simpl.
  destruct limit as [n|]; [|apply rewrites_None]. destruct p; try apply rewrites_None.
  destruct (good_input _ _ _ Hg) as (Hgi & Hn & Ho). simpl in Hn. destruct Hg as (Hg1 & Hg2 & Hw).
  cbn [weight] in Hw. simpl in Hw.
  rewrite checked_Ok by (split; [lia|]; pose proof (weight_nonneg p (proj1 Hgi)); lia).
  cbn [mbind result_bind]. case_bool_decide as Heq; [apply rewrites_None|]. simpl.
  apply rewrites_limit. split; try done; [|apply preserved_push].
  intros o' (os' & (oi & Hoi & Hs) & ->). destruct limit as [f|].
  - rewrite Z.min_r in Hs.
    2:{ destruct (Z.leb_spec f (offset + n)); [|lia]. by rewrite Z.min_l in Heq by done. }
    destruct (sorts_limit order_by (Some f) oi os' n offset Hn Ho Hs) as (o & Hso & Hl).
    exists (limit_rows (Some n) offset o). split; [|by rewrite Hl]. exists o. split; [by exists oi|done].
  - destruct (sorts_limit order_by None oi os' n offset Hn Ho Hs) as (o & Hso & Hl).
    exists (limit_rows (Some n) offset o). split; [|by rewrite Hl]. exists o. split; [by exists oi|done].
Qed.

(** *** The traversal *)
Lemma better_input p p' i i' :
  LogicalPlan.inputs p = [i] → LogicalPlan.with_new_inputs p [i'] = Ok p' →
  good p → better i' i → better p' p.
Proof.
  intros Hi Hp (Hl & Hr & Hw) [Hbi Hbs Hbl Hbr Hbw Hbd HR]. split; [..|by eapply preserved_input].
  - by eapply implements_input.
  - destruct p; try done; injection Hi as ->; by injection Hp as <-.
  - destruct p; try done; injection Hi as ->; injection Hp as <-; simpl in *; try done.
    by destruct Hl as (? & ? & ?).
  - destruct p; try done; injection Hi as ->; by injection Hp as <-.
  - destruct p; try done; injection Hi as ->; injection Hp as <-; simpl in *; lia.
  - destruct p; try done; injection Hi as ->; injection Hp as <-; simpl in *; lia.
Qed.

Lemma good_sub p i : LogicalPlan.inputs p = [i] → good p → good i.
Proof.
  intros Hi (Hl & Hr & Hw). destruct p; try done; injection Hi as ->; try done.
  apply (good_input limit offset). done.
Qed.

Lemma depth_sub p i : i ∈ LogicalPlan.inputs p → (depth i < depth p)%nat.
Proof.
  intros Hi. destruct p; simpl in *; try (by apply not_elem_of_nil in Hi);
    repeat (apply elem_of_cons in Hi as [->|Hi]; [lia|]); by apply not_elem_of_nil in Hi.
Qed.

Lemma limit_free_input p i : LogicalPlan.inputs p = [i] → limit_free p = true → limit_free i = true.
Proof. intros Hi Hf. destruct p; try done; by injection Hi as ->. Qed.

(** A rule over a part of a plan with no limit does nothing. *)
Lemma recurse_limit_free rule fuel p :
  (∀ p, limit_free p = true → LogicalOptimizerRule.try_optimize rule p = Ok None) →
  limit_free p = true → (depth p ≤ fuel)%nat → optimize_recursively fuel rule p = Ok None.
Proof.
  intros Hrule. revert p. induction fuel as [|fuel IH]; intros p Hf Hd.
  { destruct p; simpl in Hd; lia. }
  assert (optimize_inputs (optimize_recursively fuel rule) p = Ok None) as Hin.
  { assert (∀ i, i ∈ LogicalPlan.inputs p → optimize_recursively fuel rule i = Ok None) as Hi.
    { intros i Hi. apply IH; [|apply depth_sub in Hi; lia].
      destruct p; simpl in *; try (by apply not_elem_of_nil in Hi);
        repeat (apply elem_of_cons in Hi as [->|Hi]; [done || by apply andb_true_iff in Hf as []|]);
        by apply not_elem_of_nil in Hi. }
    unfold optimize_inputs. destruct p; simpl in *; try done; by rewrite !Hi by (by repeat constructor). }
  simpl. destruct (LogicalOptimizerRule.apply_order rule) as [[]|].
  - rewrite Hrule by done. simpl. by rewrite Hin.
  - rewrite Hin. simpl. by rewrite Hrule.
  - by apply Hrule.
Qed.

Lemma optimize_inputs_sound rule fuel p :
  (∀ p, limit_free p = true → LogicalOptimizerRule.try_optimize rule p = Ok None) →
  (∀ p, good p → (depth p ≤ fuel)%nat → rewrites (optimize_recursively fuel rule p) p) →
  good p → (depth p ≤ S fuel)%nat →
  rewrites (optimize_inputs (optimize_recursively fuel rule) p) p.
Proof.
  intros Hfree IH Hg Hd. unfold optimize_inputs.
  destruct (LogicalPlan.inputs p) as [|i [|j is_]] eqn:Hi.
  - apply rewrites_None.
  - destruct (IH i) as (o & Ho & Hb & Hf); [by eapply good_sub| |].
    { assert (depth i < depth p)%nat; [|lia]. apply depth_sub. rewrite Hi. constructor. }
    simpl. rewrite Ho. simpl. destruct o as [i'|]; [|apply rewrites_None]. simpl.
    destruct (LogicalPlan.with_new_inputs p [i']) as [p'| |] eqn:Hp';
      [|by destruct p; try done..]. simpl.
    eexists. split_and!; [done| |].
    + intros ? [= <-]. eapply better_input; [done..|by apply Hb].
    + intros Hfp. eapply limit_free_input in Hfp; [|done]. by specialize (Hf Hfp).
  - destruct p; try done. injection Hi as -> -> <-. destruct Hg as (Hl & _). simpl in Hl, Hd.
    apply andb_true_iff in Hl as [Hl1 Hl2]. simpl.
    rewrite !recurse_limit_free by (done || lia). apply rewrites_None.
Qed.

Lemma optimize_recursively_sound rule fuel p :
  (∀ p, limit_free p = true → LogicalOptimizerRule.try_optimize rule p = Ok None) →
  rule_sound rule → good p → (depth p ≤ fuel)%nat →
  rewrites (optimize_recursively fuel rule p) p.
Proof.
  intros Hfree Hrule. revert p. induction fuel as [|fuel IH]; intros p Hg Hd; [destruct p; simpl in Hd; lia|].
  pose proof (optimize_inputs_sound rule fuel p Hfree IH Hg Hd) as (oi & Hoi & Hbi & Hfi).
  destruct (Hrule p Hg) as (os & Hos & Hbs & Hfs).
  simpl. destruct (LogicalOptimizerRule.apply_order rule) as [[]|].
  - rewrite Hos. simpl. destruct os as [p1|]; simpl.
    + specialize (Hbs p1 eq_refl).
      destruct (optimize_inputs_sound rule fuel p1 Hfree IH) as (oi' & -> & Hbi' & Hfi');
        [by eapply better_good|destruct Hbs; lia|].
      eexists. split_and!; [done| |].
      * destruct oi' as [p2|]; simpl; [|by intros ? [= <-]]. intros ? [= <-].
        eapply better_trans; [by apply Hbi'|done].
      * intros Hf. by specialize (Hfs Hf).
    + rewrite Hoi. simpl. exists oi. split_and!; [by destruct oi|done|done].
  - rewrite Hoi. simpl. destruct oi as [p1|]; simpl.
    + specialize (Hbi p1 eq_refl).
      destruct (Hrule p1) as (os' & -> & Hbs' & Hfs'); [by eapply better_good|].
      eexists. split_and!; [done| |].
      * destruct os' as [p2|]; simpl; [|by intros ? [= <-]]. intros ? [= <-].
        eapply better_trans; [by apply Hbs'|done].
      * intros Hf. by specialize (Hfi Hf).
    + rewrite Hos. simpl. exists os. split_and!; [by destruct os|done|done].
  - by exists os.
Qed.

Lemma rules_limit_free rule p :
  rule ∈ LogicalOptimizer.rules LogicalOptimizer.new → limit_free p = true →
  LogicalOptimizerRule.try_optimize rule p = Ok None.
Proof.
  intros Hr Hf. repeat (apply elem_of_cons in Hr as [->|Hr]; [by destruct p|]).
  by apply not_elem_of_nil in Hr.
Qed.

Lemma rules_sound rule : rule ∈ LogicalOptimizer.rules LogicalOptimizer.new → rule_sound rule.
Proof.
  intros Hr. apply elem_of_cons in Hr as [->|Hr]; [apply eliminate_sound|].
  apply elem_of_cons in Hr as [->|Hr]; [apply merge_sound|].
  apply elem_of_cons in Hr as [->|Hr]; [apply push_down_sound|]. by apply not_elem_of_nil in Hr.
Qed.

Lemma apply_rules_sound rules p :
  Forall (λ rule, rule ∈ LogicalOptimizer.rules LogicalOptimizer.new) rules → good p →
  ∃ p', foldR apply_rule p rules = Ok p' ∧ better p' p.
Proof.
  intros Hrs. revert p. induction Hrs as [|rule rules Hr _ IH]; intros p Hg.
  { exists p. split; [done|by apply better_refl]. }
  destruct (optimize_recursively_sound rule (depth p) p) as (o & Ho & Hb & _);
    [by intros; apply rules_limit_free|by apply rules_sound|done|done|].
  assert (apply_rule p rule = Ok (default p o)) as Ha by (unfold apply_rule; by rewrite Ho).
  cbn [foldR]. rewrite Ha. cbn [mbind result_bind].
  assert (better (default p o) p) as Hbd.
  { destruct o as [p1|]; simpl; [by apply Hb|by apply better_refl]. }
  destruct (IH (default p o)) as (p' & Hp' & Hb'); [by eapply better_good|].
  exists p'. split; [done|by eapply better_trans].
Qed.

Lemma optimize_passes_sound passes p :
  good p → ∃ p', optimize_passes passes (LogicalOptimizer.rules LogicalOptimizer.new) p = Ok p' ∧
    better p' p.
Proof.
  revert p. induction passes as [|passes IH]; intros p Hg.
  { exists p. split; [done|by apply better_refl]. }
  cbn [optimize_passes].
  destruct (apply_rules_sound (LogicalOptimizer.rules LogicalOptimizer.new) p) as (p1 & -> & Hb1);
    [by apply Forall_forall|done|]. cbn [mbind result_bind].
  destruct (IH p1) as (p' & Hp' & Hb'); [by eapply better_good|].
  exists p'. split; [done|by eapply better_trans].
Qed.

End better.
End OptimizerFacts.

(** ** Properties *)
Module OptimizerSpec.
Import OptimizerFacts TotalFacts.

(** C40: the optimizer preserves what a query without a limit below a join computes. On a
    query over tables that exist, with no limit below a join and limits that add up below
    2^64, [optimize] ends with a plan of the same schema; each outcome of that plan is an
    outcome of the query, or goes on where the query may fail. In particular, when the
    query cannot fail the optimized plan yields exactly rows the query yields. (Below a
    join, the rewriting of a limit replaces the right input by the left one:
    [optimizer_below_join].) *)
Theorem optimizer_preserves_meaning tables plan :
  limits_ok plan → readable tables plan → weight plan < 2 ^ usize_bits →
  ∃ plan', LogicalOptimizer.optimize LogicalOptimizer.new plan = Ok plan' ∧
    LogicalPlan.schema plan' = LogicalPlan.schema plan ∧
    (∀ o', means tables plan' o' → ∃ o, means tables plan o ∧ approximates o o') ∧
    ((∀ o, means tables plan o → ended o = Done) →
     ∀ o', means tables plan' o' → means tables plan o').
Proof.
  intros Hl Hr Hw.
  destruct (optimize_passes_sound tables (λ _ _, True) 3 plan) as (plan' & Hp & [Hi Hs _ _ _ _ _]); [done|].
  exists plan'. split_and!; [done..|]. intros Hdone o' (o & Ho & A)%Hi.
  specialize (Hdone o Ho) as He. destruct o as [rs e]. simpl in He. subst e.
  apply MeaningFacts.approximates_Done in A as ->. done.
Qed.

Definition demo_values : LogicalPlan.t :=
  LogicalPlan.Values (Schema.Mk [Column.new "a" DataType.Int8 true])
    [[Expr.Literal (ScalarValue.Int8 (Some 3))]; [Expr.Literal (ScalarValue.Int8 (Some 1))];
     [Expr.Literal (ScalarValue.Int8 (Some 2))]].

Definition demo_plan : LogicalPlan.t :=
  LogicalPlan.Limit (Some 10) 1 (LogicalPlan.Limit (Some 2) 0
    (LogicalPlan.Sort [OrderByExpr.Mk (Expr.Column None "a") true false]
      (LogicalPlan.Limit None 0 demo_values) None)).

Example demo_optimized :
  LogicalOptimizer.optimize LogicalOptimizer.new demo_plan
  = Ok (LogicalPlan.Limit (Some 1) 1
      (LogicalPlan.Sort [OrderByExpr.Mk (Expr.Column None "a") true false] demo_values (Some 2))).
Proof. reflexivity. Qed.

Lemma optimizer_preserves_meaning_witness :
  ∃ plan', LogicalOptimizer.optimize LogicalOptimizer.new demo_plan = Ok plan' ∧
    LogicalPlan.schema plan' = Schema.Mk [Column.new "a" DataType.Int8 true] ∧
    ∀ o', means (λ _, None) plan' o' → ∃ o, means (λ _, None) demo_plan o ∧ approximates o o'.
Proof.
  destruct (optimizer_preserves_meaning (λ _, None) demo_plan) as (plan' & Hp & Hs & Hm & _).
  - simpl. split_and!; try lia; intros; simplify_eq; lia.
  - done.
  - vm_compute. reflexivity.
  - exists plan'. split_and!; [done..|]. exact Hm.
Defined.

(** Below a join a rewritten input replaces both sides ([with_new_inputs]): the limit on
    the right side is lost, and so is the right side. *)
Example optimizer_below_join l_plan :
  LogicalPlan.inputs l_plan = [] → ∀ s,
  LogicalOptimizer.optimize LogicalOptimizer.new
    (LogicalPlan.Join l_plan (LogicalPlan.Limit None 0 demo_values) JoinType.Cross None s)
  = Ok (LogicalPlan.Join l_plan l_plan JoinType.Cross None s).
Proof. intros Hl s. destruct l_plan; done. Qed.

End OptimizerSpec.
