(* ===== verification/Execution.v ===== *)
(** * Execution: the physical operators

    Models [bustubx/src/execution/mod.rs] and [execution/physical_plan/*.rs]: each
    operator's [init] and [next] over the [next] of its inputs, and the engine. The
    fields of a plan that do not change are [PhysicalPlan.t]; what the operators keep
    in mutexes and atomics is [State]. The context is the catalog, with a counter of
    what the platform decides: the order a hash map is iterated in, and whether a
    thread starts. The loops take fuel, a round for each row they pull. *)
From S2P Require Import Prelude CommonCodec Floats Scalar Schema TupleCodec TablePage IndexPage.
From S2P Require Import DiskPages DiskManager Replacer BufferPool PageStore TableHeap Index Catalog.
From S2P Require Import Expressions LogicalPlan Operators.
Local Open Scope Z_scope.

(** What the standard library and the operating system decide at the [n]-th event. *)
Class Platform := {
  spawn_fails : nat → option nat;
  hash_order : nat → PhysicalAggregate.Groups → PhysicalAggregate.Groups;
}.

(** ** State and worlds

    The state of an operator is next to its world: the states of its inputs and the
    context. *)
Definition on_world {S W A} (m : SR W A) : SR (S * W) A := λ '(s, w),
  let '(w, r) := m w in ((s, w), r).

Definition get_state {S W} : SR (S * W) S := λ '(s, w), ((s, w), Ok s).
Definition set_state {S W} (s : S) : SR (S * W) unit := λ '(_, w), ((s, w), Ok tt).
Definition modify_state {S W} (f : S → S) : SR (S * W) unit := λ '(s, w), ((f s, w), Ok tt).

(** A result that is looked at instead of returned early. *)
Definition catch {W A} (m : SR W A) : SR W (result A) := λ w,
  let '(w, r) := m w in
  match r with
  | Panic => (w, Panic)
  | r => (w, Ok r)
  end.

(** [for x in l { f(acc, x)?; }] in a world. *)
Fixpoint foldS {W A B} (f : A → B → SR W A) (a : A) (l : list B) : SR W A :=
  match l with
  | [] => ret a
  | x :: l' => a ← f a x; foldS f a l'
  end.

Section batch.
Context {W : Type} (input_next : SR W (option Tuple.t)).

(** [for _ in 0..n { match self.input.next(context) { .. } }]: the rows, whether the
    input ended, and its error. *)
Fixpoint collect_batch (n : nat) (batch : list Tuple.t) :
    SR W (list Tuple.t * bool * option BustubxError) :=
  match n with
  | O => ret (batch, false, None)
  | S n' =>
      r ← catch input_next;
      match r with
      | Ok (Some tuple) => collect_batch n' (batch ++ [tuple])
      | Ok None => ret (batch, true, None)
      | Err error => ret (batch, true, Some error)
      | Panic => lift Panic
      end
  end.

(** [while let Some(tuple) = self.input.next(context)? { all_tuples.push(tuple); }] *)
Fixpoint drain (fuel : nat) (all_tuples : list Tuple.t) : SR W (list Tuple.t) :=
  match fuel with
  | O => lift Panic
  | S fuel' =>
      next ← input_next;
      match next with
      | Some tuple => drain fuel' (all_tuples ++ [tuple])
      | None => ret all_tuples
      end
  end.
End batch.

(** ** Filter *)
Module FilterState.
Record t := Mk { pending : list (result Tuple.t); exhausted : bool }.
Definition default : t := Mk [] false.
End FilterState.

Module FilterOp.
Import FilterState.
Section filter.
Context {W : Type} (spawn : SR W (option nat)).
Context (input_init : SR W unit) (input_next : SR W (option Tuple.t)).
Context (predicate : Expr.t) (parallelism : nat).

Definition init : SR (FilterState.t * W) unit :=
  _ ← set_state default; on_world input_init.

Fixpoint serial_loop (fuel : nat) : SR W (option Tuple.t) :=
  match fuel with
  | O => lift Panic
  | S fuel' =>
      next ← input_next;
      match next with
      | Some tuple =>
          matches ← lift (PhysicalFilter.matches predicate tuple);
          if matches : bool then ret (Some tuple) else serial_loop fuel'
      | None => ret None
      end
  end.

(** The rows of a batch that match, and the failures of the predicate. *)
Fixpoint select (batch : list Tuple.t) (decisions : list (result bool)) : list (result Tuple.t) :=
  match batch, decisions with
  | tuple :: batch', Ok true :: decisions' => Ok tuple :: select batch' decisions'
  | _ :: batch', Ok false :: decisions' => select batch' decisions'
  | _ :: batch', Err error :: decisions' => Err error :: select batch' decisions'
  | _ :: batch', Panic :: decisions' => select batch' decisions'
  | _, _ => []
  end.

Definition error_row (input_error : option BustubxError) : list (result Tuple.t) :=
  match input_error with Some error => [Err error] | None => [] end.

(** The next batch into [pending]. *)
Definition refill : SR (FilterState.t * W) unit :=
  '(batch, ended, input_error) ← on_world (collect_batch input_next BATCH_SIZE []);
  _ ← modify_state (λ s, Mk (pending s) (exhausted s || ended));
  fails ← on_world spawn;
  match ordered_map fails batch parallelism (PhysicalFilter.matches predicate) with
  | Ok decisions =>
      modify_state (λ s, Mk (pending s ++ select batch decisions ++ error_row input_error) (exhausted s))
  | Err error => _ ← modify_state (λ s, Mk (pending s) true); fail error
  | Panic => lift Panic
  end.

Fixpoint parallel_loop (fuel : nat) : SR (FilterState.t * W) (option Tuple.t) :=
  match fuel with
  | O => lift Panic
  | S fuel' =>
      state ← get_state;
      match pending state with
      | r :: pending' =>
          _ ← set_state (Mk pending' (exhausted state)); lift (Some <$> r)
      | [] =>
          if exhausted state then ret None
          else _ ← refill; parallel_loop fuel'
      end
  end.

Definition next (fuel : nat) : SR (FilterState.t * W) (option Tuple.t) :=
  if (parallelism =? 1)%nat then on_world (serial_loop fuel) else parallel_loop fuel.

End filter.
End FilterOp.

(** ** Project *)
Module ProjectOp.
Import FilterState.
Section project.
Context {W : Type} (spawn : SR W (option nat)).
Context (input_init : SR W unit) (input_next : SR W (option Tuple.t)).
Context (exprs : list Expr.t) (schema : Schema.t) (parallelism : nat).

(** [ProjectState] has the fields of [FilterState]. *)
Definition init : SR (FilterState.t * W) unit :=
  _ ← set_state default; on_world input_init.

Definition refill : SR (FilterState.t * W) unit :=
  '(batch, ended, input_error) ← on_world (collect_batch input_next BATCH_SIZE []);
  _ ← modify_state (λ s, Mk (pending s) (exhausted s || ended));
  fails ← on_world spawn;
  match ordered_map fails batch parallelism (PhysicalProject.project exprs schema) with
  | Ok rows =>
      modify_state (λ s, Mk (pending s ++ rows ++ FilterOp.error_row input_error) (exhausted s))
  | Err error => _ ← modify_state (λ s, Mk (pending s) true); fail error
  | Panic => lift Panic
  end.

Definition pop_pending : SR (FilterState.t * W) (option Tuple.t) :=
  state ← get_state;
  match pending state with
  | r :: pending' => _ ← set_state (Mk pending' (exhausted state)); lift (Some <$> r)
  | [] => ret None
  end.

Definition next : SR (FilterState.t * W) (option Tuple.t) :=
  if (parallelism =? 1)%nat then
    next ← on_world input_next;
    match next with
    | Some tuple => lift (Some <$> PhysicalProject.project exprs schema tuple)
    | None => ret None
    end
  else
    state ← get_state;
    _ ← match pending state with
        | [] => if exhausted state then ret tt else refill
        | _ => ret tt
        end;
    pop_pending.

End project.
End ProjectOp.

(** ** Limit *)
Module LimitState.
Record t := Mk { to_skip : Z; remaining : option Z; exhausted : bool }.
End LimitState.

Module LimitOp.
Import LimitState.
Section limit.
Context {W : Type} (input_init : SR W unit) (input_next : SR W (option Tuple.t)).
Context (limit : option Z) (offset : Z).

Definition new : LimitState.t := Mk offset limit false.

Definition init : SR (LimitState.t * W) unit := _ ← set_state new; on_world input_init.

Fixpoint next_loop (fuel : nat) : SR (LimitState.t * W) (option Tuple.t) :=
  match fuel with
  | O => lift Panic
  | S fuel' =>
      next ← on_world input_next;
      state ← get_state;
      match next with
      | None => _ ← set_state (Mk (to_skip state) (remaining state) true); ret None
      | Some tuple =>
          if 0 <? to_skip state then
            _ ← set_state (Mk (to_skip state - 1) (remaining state) (exhausted state));
            next_loop fuel'
          else
            remaining' ← lift match remaining state with
                              | Some n => n ← checked 64 (n - 1); Ok (Some n)
                              | None => Ok None
                              end;
            _ ← set_state (Mk (to_skip state) remaining' (exhausted state));
            ret (Some tuple)
      end
  end.

Definition next (fuel : nat) : SR (LimitState.t * W) (option Tuple.t) :=
  state ← get_state;
  if exhausted state || bool_decide (remaining state = Some 0) then ret None
  else next_loop fuel.

End limit.
End LimitOp.

(** ** Sort *)
Module SortState.
Record t := Mk { all_tuples : list Tuple.t; cursor : nat }.
End SortState.

Module SortOp.
Import SortState.
Section sort.
Context {W : Type} (input_init : SR W unit) (input_next : SR W (option Tuple.t)).
Context (order_bys : list OrderByExpr.t).

Definition init : SR (SortState.t * W) unit :=
  _ ← on_world input_init; set_state (Mk [] 0).

(** All the tuples of the input, sorted. *)
Definition load (fuel : nat) : SR (SortState.t * W) unit :=
  all_tuples ← on_world (drain input_next fuel []);
  sorted ← lift (PhysicalSort.sort_all order_bys all_tuples);
  modify_state (λ s, Mk sorted (cursor s)).

Definition next (fuel : nat) : SR (SortState.t * W) (option Tuple.t) :=
  state ← get_state;
  _ ← match all_tuples state with [] => load fuel | _ => ret tt end;
  state ← get_state;
  _ ← set_state (Mk (all_tuples state) (S (cursor state)));
  ret (all_tuples state !! cursor state).

End sort.
End SortOp.

(** ** Aggregate *)
Module AggregateState.
Record t := Mk { rows : list Tuple.t; built : bool }.
Definition default : t := Mk [] false.
End AggregateState.

Module AggregateOp.
Import AggregateState PhysicalAggregate.
Section aggregate.
Context {W : Type} (spawn : SR W (option nat)) (iteration : SR W (Groups → Groups)).
Context (input_init : SR W unit) (input_next : SR W (option Tuple.t)).
Context (group_exprs aggr_exprs : list Expr.t) (schema : Schema.t) (parallelism : nat).

(** [for _ in 0..BATCH_SIZE { match self.input.next(context)? { .. } }] *)
Fixpoint next_batch (n : nat) (batch : list Tuple.t) : SR W (list Tuple.t) :=
  match n with
  | O => ret batch
  | S n' =>
      next ← input_next;
      match next with
      | Some row => next_batch n' (batch ++ [row])
      | None => ret batch
      end
  end.

(** [for (key, accumulators) in partial? { .. }] *)
Definition merge_partial (groups : Groups) (partial : result Groups) : SR W Groups :=
  partial ← lift partial;
  order ← iteration;
  lift (foldR merge_group groups (order partial)).

Fixpoint aggregate_loop (fuel : nat) (groups : Groups) : SR W Groups :=
  match fuel with
  | O => lift Panic
  | S fuel' =>
      batch ← next_batch BATCH_SIZE [];
      match batch with
      | [] => ret groups
      | _ =>
          fails ← spawn;
          partials ← lift (ordered_map fails (chunks (div_ceil (length batch) parallelism) batch)
                             parallelism (accumulate group_exprs aggr_exprs));
          groups ← foldS merge_partial groups partials;
          aggregate_loop fuel' groups
      end
  end.

Definition aggregate (fuel : nat) : SR W (list Tuple.t) :=
  groups ← lift match group_exprs with
                | [] => accs ← build_accumulators aggr_exprs; Ok [([], accs)]
                | _ => Ok []
                end;
  groups ← aggregate_loop fuel groups;
  order ← iteration;
  lift (mapR (group_row schema) (order groups)).

Definition init : SR (AggregateState.t * W) unit :=
  _ ← set_state default; on_world input_init.

Definition next (fuel : nat) : SR (AggregateState.t * W) (option Tuple.t) :=
  state ← get_state;
  _ ← (if built state then ret tt
       else
         _ ← set_state (Mk (rows state) true);
         rows ← on_world (aggregate fuel);
         set_state (Mk rows true));
  state ← get_state;
  match rows state with
  | row :: rows' => _ ← set_state (Mk rows' (built state)); ret (Some row)
  | [] => ret None
  end.

End aggregate.
End AggregateOp.

(** ** Nested loop join *)
Module JoinState.
Record t := Mk {
  left : option Tuple.t;
  right_finished : bool;
  exhausted : bool;
  current_left_matched : bool;
  right_ordinal : nat;
  matched_right : gset nat;
  emitting_unmatched_right : bool;
  pending : list (result Tuple.t);
}.

Definition default : t := Mk None false false false 0 ∅ false [].

Definition set_left x s := Mk x (right_finished s) (exhausted s) (current_left_matched s)
  (right_ordinal s) (matched_right s) (emitting_unmatched_right s) (pending s).
Definition set_right_finished x s := Mk (left s) x (exhausted s) (current_left_matched s)
  (right_ordinal s) (matched_right s) (emitting_unmatched_right s) (pending s).
Definition set_exhausted x s := Mk (left s) (right_finished s) x (current_left_matched s)
  (right_ordinal s) (matched_right s) (emitting_unmatched_right s) (pending s).
Definition set_left_matched x s := Mk (left s) (right_finished s) (exhausted s) x
  (right_ordinal s) (matched_right s) (emitting_unmatched_right s) (pending s).
Definition set_ordinal x s := Mk (left s) (right_finished s) (exhausted s) (current_left_matched s)
  x (matched_right s) (emitting_unmatched_right s) (pending s).
Definition set_matched_right x s := Mk (left s) (right_finished s) (exhausted s)
  (current_left_matched s) (right_ordinal s) x (emitting_unmatched_right s) (pending s).
Definition set_emitting x s := Mk (left s) (right_finished s) (exhausted s) (current_left_matched s)
  (right_ordinal s) (matched_right s) x (pending s).
Definition set_pending x s := Mk (left s) (right_finished s) (exhausted s) (current_left_matched s)
  (right_ordinal s) (matched_right s) (emitting_unmatched_right s) x.
End JoinState.

Module JoinOp.
Import JoinState PhysicalNestedLoopJoin.
Section join.
Context {W : Type} (spawn : SR W (option nat)).
Context (left_init right_init : SR W unit) (left_next right_next : SR W (option Tuple.t)).
Context (l_schema r_schema schema : Schema.t) (join_type : JoinType.t) (condition : option Expr.t).
Context (parallelism : nat).
Notation SRJ := (SR (JoinState.t * W)).
Notation combine := (combine l_schema r_schema schema).
Notation join := (join l_schema r_schema schema condition).

Definition init : SRJ unit :=
  _ ← set_state default; _ ← on_world left_init; on_world right_init.

(** What a round of the loop does: return, or [continue]. *)
Inductive flow := Return (r : option Tuple.t) | Continue.

(** [if state.emitting_unmatched_right { .. }] *)
Definition emit_unmatched_right : SRJ flow :=
  r ← on_world (catch right_next);
  match r with
  | Ok (Some right_row) =>
      state ← get_state;
      let ordinal := right_ordinal state in
      _ ← modify_state (set_ordinal (S ordinal));
      if bool_decide (ordinal ∈ matched_right state) then ret Continue
      else tuple ← lift (combine None (Some right_row)); ret (Return (Some tuple))
  | Ok None => _ ← modify_state (set_exhausted true); ret (Return None)
  | Err error => _ ← modify_state (set_exhausted true); fail error
  | Panic => lift Panic
  end.

(** [if state.right_finished { .. }]: the right side restarts; [true] to [continue]. *)
Definition finish_right : SRJ bool :=
  state ← get_state;
  let unmatched_left := preserves_left join_type && negb (current_left_matched state) in
  _ ← modify_state (λ s, set_right_finished false (set_ordinal 0 (set_left_matched false (set_left None s))));
  _ ← on_world right_init;
  if unmatched_left then
    tuple ← lift (combine (left state) None);
    _ ← modify_state (λ s, set_pending (pending s ++ [Ok tuple]) s);
    ret true
  else ret false.

(** [if state.left.is_none() { .. }]: [None] to go on with a left row. *)
Definition next_left : SRJ (option flow) :=
  state ← get_state;
  match left state with
  | Some _ => ret None
  | None =>
      row ← on_world left_next;
      _ ← modify_state (set_left row);
      match row with
      | Some _ => ret None
      | None =>
          if preserves_right join_type then
            _ ← on_world right_init;
            _ ← modify_state (λ s, set_ordinal 0 (set_emitting true s));
            ret (Some Continue)
          else _ ← modify_state (set_exhausted true); ret (Some (Return None))
      end
  end.

(** The [for] loop over the right side. *)
Fixpoint right_batch (n : nat) (batch : list Tuple.t) :
    SRJ (list Tuple.t * option BustubxError) :=
  match n with
  | O => ret (batch, None)
  | S n' =>
      r ← on_world (catch right_next);
      match r with
      | Ok (Some row) =>
          _ ← modify_state (λ s, set_ordinal (S (right_ordinal s)) s);
          right_batch n' (batch ++ [row])
      | Ok None => _ ← modify_state (set_right_finished true); ret (batch, None)
      | Err error => _ ← modify_state (set_exhausted true); ret (batch, Some error)
      | Panic => lift Panic
      end
  end.

(** [for (index, row) in rows.into_iter().enumerate() { .. }] *)
Fixpoint push_rows (ordinal : nat) (rows : list (result (option Tuple.t))) (s : JoinState.t) :
    JoinState.t :=
  match rows with
  | [] => s
  | Ok (Some tuple) :: rows' =>
      push_rows (S ordinal) rows'
        (set_pending (pending s ++ [Ok tuple])
          (set_matched_right ({[ordinal]} ∪ matched_right s) (set_left_matched true s)))
  | Err error :: rows' => push_rows (S ordinal) rows' (set_pending (pending s ++ [Err error]) s)
  | _ :: rows' => push_rows (S ordinal) rows' s
  end.

(** The rest of the round: a batch of the right side against the left row. *)
Definition join_batch : SRJ flow :=
  state ← get_state;
  let first_ordinal := right_ordinal state in
  '(batch, failure) ← right_batch (if (1 <? parallelism)%nat then BATCH_SIZE else 1) [];
  left_row ← lift (unwrap (left state));
  fails ← on_world spawn;
  match ordered_map fails batch parallelism (join left_row) with
  | Ok rows =>
      _ ← modify_state (push_rows first_ordinal rows);
      _ ← modify_state (λ s, set_pending (pending s ++ FilterOp.error_row failure) s);
      ret Continue
  | Err error => _ ← modify_state (set_exhausted true); fail error
  | Panic => lift Panic
  end.

Definition round : SRJ flow :=
  state ← get_state;
  match pending state with
  | row :: pending' =>
      _ ← modify_state (set_pending pending');
      tuple ← lift row; ret (Return (Some tuple))
  | [] =>
      if exhausted state then ret (Return None)
      else if emitting_unmatched_right state then emit_unmatched_right
      else
        continue ← (if right_finished state then finish_right else ret false);
        if continue : bool then ret Continue
        else
          flow ← next_left;
          match flow with
          | Some flow => ret flow
          | None => join_batch
          end
  end.

Fixpoint next (fuel : nat) : SRJ (option Tuple.t) :=
  match fuel with
  | O => lift Panic
  | S fuel' =>
      flow ← round;
      match flow with
      | Return r => ret r
      | Continue => next fuel'
      end
  end.

End join.
End JoinOp.

(** ** The context *)
Module ExecutionContext.
Record t (D : Type) := Mk { catalog : Catalog.t D; events : nat }.
Arguments Mk {D}.
Arguments catalog {D}.
Arguments events {D}.
End ExecutionContext.

Section context.
Context {D : Type} `{Disk D} `{Platform}.
Notation Ctx := (ExecutionContext.t D).

Definition on_catalog {A} (m : SR (Catalog.t D) A) : SR Ctx A := λ c,
  let '(x, r) := m (ExecutionContext.catalog c) in
  (ExecutionContext.Mk x (ExecutionContext.events c), r).

(** A catalog method that only reads. *)
Definition ask_catalog {A} (f : Catalog.t D → result A) : SR Ctx A := λ c,
  (c, f (ExecutionContext.catalog c)).

Definition next_event {A} (f : nat → A) : SR Ctx A := λ c,
  (ExecutionContext.Mk (ExecutionContext.catalog c) (S (ExecutionContext.events c)),
   Ok (f (ExecutionContext.events c))).

Definition spawn_ctx : SR Ctx (option nat) := next_event spawn_fails.
Definition iteration_ctx : SR Ctx (PhysicalAggregate.Groups → PhysicalAggregate.Groups) :=
  next_event hash_order.

(** *** Empty *)
Definition empty_next (produce_row_count : Z) (schema : Schema.t) : SR (Z * Ctx) (option Tuple.t) :=
  outputted_count ← get_state;
  _ ← set_state (wrap 64 (outputted_count + 1));
  if outputted_count <? produce_row_count
  then tuple ← lift (Tuple.new schema []); ret (Some tuple)
  else ret None.

(** *** Values *)
Definition values_next (schema : Schema.t) (rows : list (list Expr.t)) :
    SR (Z * Ctx) (option Tuple.t) :=
  cursor ← get_state;
  _ ← set_state (wrap 32 (cursor + 1));
  match rows !! Z.to_nat cursor with
  | Some exprs => tuple ← lift (PhysicalValues.row schema exprs); ret (Some tuple)
  | None => ret None
  end.

(** *** Sequential scan *)
Record ScanState := MkScanState {
  heap : TableHandle.t;
  next_page : Z;
  visited : gset Z;
  pending : list (result Tuple.t);
}.

Record SeqScanState := MkSeqScanState {
  iterator : option (TableIterator.t D);
  scan : option ScanState;
}.

(** [fetch_table_page] of a page, whose reference is dropped at the end of the arm. *)
Definition read_scan_page (page_id : Z) (schema : Schema.t) : SR Ctx TablePage.t :=
  '(frame_id, page) ← on_catalog (Catalog.on_pool (BufferPoolManager.fetch_table_page page_id schema));
  _ ← on_catalog (Catalog.on_pool (BufferPoolManager.drop_page_ref frame_id));
  ret page.

(** [for _ in 0..16 { .. }]: the pages read, and the failure that stopped it. *)
Fixpoint scan_pages (n : nat) (state : ScanState) (pages : list TablePage.t) :
    SR Ctx (ScanState * list TablePage.t * option BustubxError) :=
  match n with
  | O => ret (state, pages, None)
  | S n' =>
      let page_id := next_page state in
      if page_id =? INVALID_PAGE_ID then ret (state, pages, None)
      else if bool_decide (page_id ∈ visited state) then
        ret (MkScanState (heap state) INVALID_PAGE_ID (visited state) (pending state), pages,
             Some (Storage "Cycle in table page chain"))
      else
        r ← catch (read_scan_page page_id (TableHandle.schema (heap state)));
        match r with
        | Ok page =>
            scan_pages n'
              (MkScanState (heap state) (TablePageHeader.next_page_id (TablePage.header page))
                 ({[page_id]} ∪ visited state) (pending state)) (pages ++ [page])
        | Err error =>
            ret (MkScanState (heap state) INVALID_PAGE_ID ({[page_id]} ∪ visited state)
                   (pending state), pages, Some error)
        | Panic => lift Panic
        end
  end.

(** The worker of a page: its rows up to the first failure. *)
Fixpoint page_rows (n : nat) (slot : Z) (page : TablePage.t) : result (list (result Tuple.t)) :=
  match n with
  | O => Ok []
  | S n' =>
      match TablePage.tuple page slot with
      | Ok (_, tuple) => rows ← page_rows n' (slot + 1) page; Ok (Ok tuple :: rows)
      | Err error => Ok [Err error]
      | Panic => Panic
      end
  end.

Definition decode_page (page : TablePage.t) : result (list (result Tuple.t)) :=
  page_rows (Z.to_nat (TablePageHeader.num_tuples (TablePage.header page))) 0 page.

(** [pages.into_iter().flatten()] *)
Definition flatten_pages (pages : list (result (list (result Tuple.t)))) : list (result Tuple.t) :=
  concat ((λ r, match r with Ok rows => rows | _ => [] end) <$> pages).

Definition set_scan (x : ScanState) : SR (SeqScanState * Ctx) unit :=
  modify_state (λ s, MkSeqScanState (iterator s) (Some x)).

Fixpoint next_parallel (parallelism fuel : nat) : SR (SeqScanState * Ctx) (option Tuple.t) :=
  match fuel with
  | O => lift Panic
  | S fuel' =>
      guard ← get_state;
      state ← lift (ok_or (scan guard) (Execution "scan not initialized"));
      match pending state with
      | row :: pending' =>
          _ ← set_scan (MkScanState (heap state) (next_page state) (visited state) pending');
          lift (Some <$> row)
      | [] =>
          if next_page state =? INVALID_PAGE_ID then ret None
          else
            '(state, pages, failure) ← on_world (scan_pages 16 state []);
            fails ← on_world spawn_ctx;
            match ordered_map fails pages parallelism decode_page with
            | Ok decoded =>
                _ ← set_scan (MkScanState (heap state) (next_page state) (visited state)
                      (pending state ++ flatten_pages decoded ++ FilterOp.error_row failure));
                next_parallel parallelism fuel'
            | Err error =>
                _ ← set_scan (MkScanState (heap state) INVALID_PAGE_ID (visited state) (pending state));
                fail error
            | Panic => lift Panic
            end
      end
  end.

Definition seq_scan_init (table : TableReference.t) (parallelism : nat) : SR (SeqScanState * Ctx) unit :=
  table_heap ← on_world (ask_catalog (Catalog.table_heap table));
  if (1 <? parallelism)%nat then
    set_state (MkSeqScanState None
      (Some (MkScanState table_heap (TableHandle.first_page_id table_heap) ∅ [])))
  else
    heap ← on_world (ask_catalog (λ c, Ok (Catalog.heap_of c table_heap)));
    set_state (MkSeqScanState (Some (TableIterator.new heap Unbounded Unbounded)) None).

Definition seq_scan_next (parallelism fuel : nat) : SR (SeqScanState * Ctx) (option Tuple.t) :=
  if (1 <? parallelism)%nat then next_parallel parallelism fuel
  else
    state ← get_state;
    it ← lift (ok_or (iterator state) (Execution "table iterator not created"));
    '(it, full) ← on_world (on_catalog (Catalog.on_iterator TableIterator.next it));
    _ ← set_state (MkSeqScanState (Some it) (scan state));
    full ← lift full;
    ret (snd <$> full).

(** *** Index scan *)
Definition index_scan_init (table_ref : TableReference.t) (index_name : string)
    (start_bound end_bound : Bound Tuple.t) : SR (option (TreeIndexIterator.t D) * Ctx) unit :=
  found ← on_world (ask_catalog (Catalog.index table_ref index_name));
  x ← lift (unwrap found);
  index ← on_world (ask_catalog (λ c, Ok (Catalog.index_of_handle c x)));
  set_state (Some (TreeIndexIterator.new index start_bound end_bound)).

Definition index_scan_next (table_ref : TableReference.t) (index_name : string) :
    SR (option (TreeIndexIterator.t D) * Ctx) (option Tuple.t) :=
  state ← get_state;
  it ← lift (ok_or state (Execution "index iterator not created"));
  _ ← on_world (ask_catalog (Catalog.table_heap table_ref));
  '(it, rid) ← on_world (on_catalog
    (Catalog.on_index_iterator table_ref index_name TreeIndexIterator.next it));
  _ ← set_state (Some it);
  rid ← lift rid;
  match rid with
  | Some rid =>
      tuple ← on_world (on_catalog (Catalog.on_heap (schema_name table_ref)
                (TableReference.table table_ref) (TableHeap.tuple rid)));
      ret (Some tuple)
  | None => ret None
  end.

(** *** Create table and create index *)
Definition create_table_next (sql_type_name : DataType.t → string) (table : TableReference.t)
    (schema : Schema.t) : SR (unit * Ctx) (option Tuple.t) :=
  _ ← on_world (on_catalog (Catalog.create_table sql_type_name table schema)); ret None.

(** The columns of the index: only named columns. *)
Definition key_index (table_schema : Schema.t) (col : OrderByExpr.t) : result nat :=
  match OrderByExpr.expr col with
  | Expr.Column _ name => Schema.index_of table_schema None name
  | _ => Err (Execution "The expr should be column instead of {}")
  end.

Definition create_index_next (fuel : nat) (name : string) (table : TableReference.t)
    (table_schema : Schema.t) (columns : list OrderByExpr.t) : SR (unit * Ctx) (option Tuple.t) :=
  key_indices ← lift (mapR (key_index table_schema) columns);
  key_schema ← lift (Schema.project table_schema key_indices);
  _ ← on_world (on_catalog (Catalog.create_index fuel name table key_schema)); ret None.

(** *** Insert *)
Section insert.
Context {W : Type} (input_init : SR W unit) (input_next : SR W (option Tuple.t)).
Context (run_catalog : SR (Catalog.t D) unit → SR W unit).
Context (table : TableReference.t) (table_schema projected_schema : Schema.t).

(** [for (idx, value) in tuple.data.iter().enumerate() { .. }] *)
Fixpoint cast_values (idx : nat) (data : list ScalarValue.t) : result (list ScalarValue.t) :=
  match data with
  | [] => Ok []
  | value :: data' =>
      column ← Schema.column_with_index projected_schema idx;
      value ← (if bool_decide (Column.data_type column = ScalarValue.data_type value) then Ok value
               else ScalarValue.cast_to value (Column.data_type column));
      rest ← cast_values (S idx) data';
      Ok (value :: rest)
  end.

(** [for index in indexes { .. }]: an index whose key the tuple does not have is skipped. *)
Fixpoint insert_keys (tuple : Tuple.t) (rid : RecordId.t) (indexes : list (string * IndexHandle.t)) :
    SR (Catalog.t D) unit :=
  match indexes with
  | [] => ret tt
  | (index_name, x) :: indexes' =>
      _ ← match Tuple.project_with_schema tuple (IndexHandle.key_schema x) with
          | Ok key_tuple =>
              Catalog.on_index (schema_name table) (TableReference.table table) index_name
                (BPlusTreeIndex.insert key_tuple rid)
          | Err _ => ret tt
          | Panic => lift Panic
          end;
      insert_keys tuple rid indexes'
  end.

Definition insert_row (tuple : Tuple.t) : SR (Catalog.t D) unit :=
  casted_data ← lift (cast_values 0 (Tuple.data tuple));
  tuple ← lift (Tuple.new table_schema casted_data);
  found ← gets (Catalog.table_heap table);
  _ ← lift found;
  rid ← Catalog.on_heap (schema_name table) (TableReference.table table)
          (TableHeap.insert_tuple EMPTY_TUPLE_META tuple);
  found ← gets (Catalog.table_indexes table);
  indexes ← lift found;
  insert_keys tuple rid indexes.

Definition insert_init : SR (Z * W) unit := _ ← on_world input_init; set_state 0.

(** The state is [insert_rows]. *)
Fixpoint insert_next (fuel : nat) : SR (Z * W) (option Tuple.t) :=
  match fuel with
  | O => lift Panic
  | S fuel' =>
      next_tuple ← on_world input_next;
      match next_tuple with
      | None =>
          insert_rows ← get_state;
          if insert_rows =? 0 then ret None
          else
            _ ← set_state 0;
            tuple ← lift (Tuple.new INSERT_OUTPUT_SCHEMA
                            [ScalarValue.Int32 (Some (to_signed 32 insert_rows))]);
            ret (Some tuple)
      | Some tuple =>
          _ ← on_world (run_catalog (insert_row tuple));
          _ ← modify_state (λ insert_rows, wrap 32 (insert_rows + 1));
          insert_next fuel'
      end
  end.
End insert.

(** *** Update *)
Record UpdateState := MkUpdateState {
  update_rows : Z;
  table_iterator : option (TableIterator.t D);
}.

Definition update_init (table : TableReference.t) : SR (UpdateState * Ctx) unit :=
  _ ← modify_state (λ s, MkUpdateState 0 (table_iterator s));
  table_heap ← on_world (ask_catalog (Catalog.table_heap table));
  heap ← on_world (ask_catalog (λ c, Ok (Catalog.heap_of c table_heap)));
  modify_state (λ s, MkUpdateState (update_rows s) (Some (TableIterator.new heap Unbounded Unbounded))).

(** [for (col_name, value_expr) in self.assignments.iter() { .. }] *)
Definition assign (tuple : Tuple.t) (assignment : string * Expr.t) : result Tuple.t :=
  let '(col_name, value_expr) := assignment in
  index ← Schema.index_of (Tuple.schema tuple) None col_name;
  column ← Prelude.index (Schema.columns (Tuple.schema tuple)) index;
  value ← Expr.evaluate value_expr EMPTY_TUPLE;
  new_value ← ScalarValue.cast_to value (Column.data_type column);
  if (index <? length (Tuple.data tuple))%nat
  then Ok (Tuple.Mk (Tuple.schema tuple) (<[index := new_value]> (Tuple.data tuple)))
  else Panic.

(** The selection of an update. *)
Definition selected (selection : option Expr.t) (tuple : Tuple.t) : result bool :=
  match selection with
  | Some selection =>
      value ← Expr.evaluate selection tuple;
      b ← ScalarValue.as_boolean value;
      Ok (default false b)
  | None => Ok true
  end.

(** The assignments are a hash map; the list is the map in the order it is iterated in
    ([UpdateFacts.assign_order] of UpdateSpec: any order gives the same row). *)
Fixpoint update_next (table : TableReference.t) (assignments : list (string * Expr.t))
    (selection : option Expr.t) (fuel : nat) : SR (UpdateState * Ctx) (option Tuple.t) :=
  match fuel with
  | O => lift Panic
  | S fuel' =>
      state ← get_state;
      it ← lift (ok_or (table_iterator state) (Execution "table iterator not created"));
      _ ← on_world (ask_catalog (Catalog.table_heap table));
      '(it, full) ← on_world (on_catalog (Catalog.on_iterator TableIterator.next it));
      _ ← set_state (MkUpdateState (update_rows state) (Some it));
      full ← lift full;
      match full with
      | Some (rid, tuple) =>
          chosen ← lift (selected selection tuple);
          if chosen : bool then
            tuple ← lift (foldR assign tuple assignments);
            _ ← on_world (on_catalog (Catalog.on_heap (schema_name table)
                  (TableReference.table table) (TableHeap.update_tuple rid tuple)));
            _ ← modify_state (λ s, MkUpdateState (wrap 32 (update_rows s + 1)) (table_iterator s));
            update_next table assignments selection fuel'
          else update_next table assignments selection fuel'
      | None =>
          if update_rows state =? 0 then ret None
          else
            _ ← modify_state (λ s, MkUpdateState 0 (table_iterator s));
            tuple ← lift (Tuple.new UPDATE_OUTPUT_SCHEMA
                            [ScalarValue.Int32 (Some (to_signed 32 (update_rows state)))]);
            ret (Some tuple)
      end
  end.

End context.

(** ** Plans *)
Module PhysicalPlan.

Inductive t :=
  | Empty (produce_row_count : Z) (schema : Schema.t)
  | CreateTable (table : TableReference.t) (schema : Schema.t)
  | CreateIndex (name : string) (table : TableReference.t) (table_schema : Schema.t)
      (columns : list OrderByExpr.t)
  | Project (exprs : list Expr.t) (schema : Schema.t) (input : t) (parallelism : nat)
  | Filter (predicate : Expr.t) (input : t) (parallelism : nat)
  | SeqScan (table : TableReference.t) (table_schema : Schema.t) (parallelism : nat)
  | IndexScan (table_ref : TableReference.t) (index_name : string) (table_schema : Schema.t)
      (start_bound end_bound : Bound Tuple.t)
  | Limit (limit : option Z) (offset : Z) (input : t)
  | Insert (table : TableReference.t) (table_schema projected_schema : Schema.t) (input : t)
  | Values (schema : Schema.t) (rows : list (list Expr.t))
  | NestedLoopJoin (join_type : JoinType.t) (condition : option Expr.t)
      (left_input right_input : t) (schema : Schema.t) (parallelism : nat)
  | Sort (order_bys : list OrderByExpr.t) (input : t)
  | Aggregate (input : t) (group_exprs aggr_exprs : list Expr.t) (schema : Schema.t)
      (parallelism : nat)
  | Update (table : TableReference.t) (table_schema : Schema.t)
      (assignments : list (string * Expr.t)) (selection : option Expr.t).

(** [with_parallelism]: [workers.clamp(1, 64)]. *)
Definition clamp_workers (workers : nat) : nat := Nat.min (Nat.max workers 1) 64.

Definition inputs (self : t) : list t :=
  match self with
  | Project _ _ input _ | Filter _ input _ | Limit _ _ input | Insert _ _ _ input
  | Sort _ input | Aggregate input _ _ _ _ => [input]
  | NestedLoopJoin _ _ left_input right_input _ _ => [left_input; right_input]
  | Empty _ _ | CreateTable _ _ | CreateIndex _ _ _ _ | SeqScan _ _ _ | IndexScan _ _ _ _ _
  | Update _ _ _ _ | Values _ _ => []
  end.

Fixpoint output_schema (self : t) : Schema.t :=
  match self with
  | Empty _ schema => schema
  | CreateTable _ schema => schema
  | CreateIndex _ _ _ _ => Schema.empty
  | Project _ schema _ _ => schema
  | Filter _ input _ => output_schema input
  | SeqScan _ table_schema _ => table_schema
  | IndexScan _ _ table_schema _ _ => table_schema
  | Limit _ _ input => output_schema input
  | Insert _ _ _ _ => INSERT_OUTPUT_SCHEMA
  | Values schema _ => schema
  | NestedLoopJoin _ _ _ _ schema _ => schema
  | Sort _ input => output_schema input
  | Aggregate _ _ _ schema _ => schema
  | Update _ _ _ _ => UPDATE_OUTPUT_SCHEMA
  end.

End PhysicalPlan.

(** ** The executor *)
Section executor.
Context {D : Type} `{Disk D} `{Platform} (sql_type_name : DataType.t → string).
Notation Ctx := (ExecutionContext.t D).

(** The state of an operator, and with it the states of its inputs. *)
Fixpoint State (p : PhysicalPlan.t) : Type :=
  match p with
  | PhysicalPlan.Empty _ _ => Z
  | PhysicalPlan.CreateTable _ _ => unit
  | PhysicalPlan.CreateIndex _ _ _ _ => unit
  | PhysicalPlan.Project _ _ input _ => FilterState.t * State input
  | PhysicalPlan.Filter _ input _ => FilterState.t * State input
  | PhysicalPlan.SeqScan _ _ _ => SeqScanState (D:=D)
  | PhysicalPlan.IndexScan _ _ _ _ _ => option (TreeIndexIterator.t D)
  | PhysicalPlan.Limit _ _ input => LimitState.t * State input
  | PhysicalPlan.Insert _ _ _ input => Z * State input
  | PhysicalPlan.Values _ _ => Z
  | PhysicalPlan.NestedLoopJoin _ _ left_input right_input _ _ =>
      JoinState.t * (State left_input * State right_input)
  | PhysicalPlan.Sort _ input => SortState.t * State input
  | PhysicalPlan.Aggregate input _ _ _ _ => AggregateState.t * State input
  | PhysicalPlan.Update _ _ _ _ => UpdateState (D:=D)
  end.

(** The state [new] makes. *)
Fixpoint initial (p : PhysicalPlan.t) : State p :=
  match p with
  | PhysicalPlan.Empty _ _ => 0
  | PhysicalPlan.CreateTable _ _ => tt
  | PhysicalPlan.CreateIndex _ _ _ _ => tt
  | PhysicalPlan.Project _ _ input _ => (FilterState.default, initial input)
  | PhysicalPlan.Filter _ input _ => (FilterState.default, initial input)
  | PhysicalPlan.SeqScan _ _ _ => MkSeqScanState None None
  | PhysicalPlan.IndexScan _ _ _ _ _ => None
  | PhysicalPlan.Limit limit offset input => (LimitOp.new limit offset, initial input)
  | PhysicalPlan.Insert _ _ _ input => (0, initial input)
  | PhysicalPlan.Values _ _ => 0
  | PhysicalPlan.NestedLoopJoin _ _ left_input right_input _ _ =>
      (JoinState.default, (initial left_input, initial right_input))
  | PhysicalPlan.Sort _ input => (SortState.Mk [] 0, initial input)
  | PhysicalPlan.Aggregate input _ _ _ _ => (AggregateState.default, initial input)
  | PhysicalPlan.Update _ _ _ _ => MkUpdateState 0 None
  end.

(** The world of an operator: the states of its inputs, and the context. *)
Definition with_input {S I C A} (m : SR (S * (I * C)) A) : SR ((S * I) * C) A := λ '((s, i), c),
  let '((s, (i, c)), r) := m (s, (i, c)) in (((s, i), c), r).

Definition on_context {S A} (m : SR Ctx A) : SR (S * Ctx) A := on_world m.

Definition on_left {L R C A} (m : SR (L * C) A) : SR ((L * R) * C) A := λ '((l, r), c),
  let '((l, c), res) := m (l, c) in (((l, r), c), res).
Definition on_right {L R C A} (m : SR (R * C) A) : SR ((L * R) * C) A := λ '((l, r), c),
  let '((r, c), res) := m (r, c) in (((l, r), c), res).

Fixpoint init (p : PhysicalPlan.t) : SR (State p * Ctx) unit :=
  match p return SR (State p * Ctx) unit with
  | PhysicalPlan.Empty _ _ => set_state 0
  | PhysicalPlan.CreateTable _ _ => ret tt
  | PhysicalPlan.CreateIndex _ _ _ _ => ret tt
  | PhysicalPlan.Project _ _ input _ => with_input (ProjectOp.init (init input))
  | PhysicalPlan.Filter _ input _ => with_input (FilterOp.init (init input))
  | PhysicalPlan.SeqScan table _ parallelism => seq_scan_init table parallelism
  | PhysicalPlan.IndexScan table_ref index_name _ start_bound end_bound =>
      index_scan_init table_ref index_name start_bound end_bound
  | PhysicalPlan.Limit limit offset input => with_input (LimitOp.init (init input) limit offset)
  | PhysicalPlan.Insert _ _ _ input => with_input (insert_init (init input))
  | PhysicalPlan.Values _ _ => set_state 0
  | PhysicalPlan.NestedLoopJoin _ _ left_input right_input _ _ =>
      with_input (JoinOp.init (on_left (init left_input)) (on_right (init right_input)))
  | PhysicalPlan.Sort _ input => with_input (SortOp.init (init input))
  | PhysicalPlan.Aggregate input _ _ _ _ => with_input (AggregateOp.init (init input))
  | PhysicalPlan.Update table _ _ _ => update_init table
  end.

Fixpoint next (fuel : nat) (p : PhysicalPlan.t) : SR (State p * Ctx) (option Tuple.t) :=
  match p return SR (State p * Ctx) (option Tuple.t) with
  | PhysicalPlan.Empty produce_row_count schema => empty_next produce_row_count schema
  | PhysicalPlan.CreateTable table schema => create_table_next sql_type_name table schema
  | PhysicalPlan.CreateIndex name table table_schema columns =>
      create_index_next fuel name table table_schema columns
  | PhysicalPlan.Project exprs schema input parallelism =>
      with_input (ProjectOp.next (on_context spawn_ctx) (next fuel input) exprs schema parallelism)
  | PhysicalPlan.Filter predicate input parallelism =>
      with_input (FilterOp.next (on_context spawn_ctx) (next fuel input) predicate parallelism fuel)
  | PhysicalPlan.SeqScan _ _ parallelism => seq_scan_next parallelism fuel
  | PhysicalPlan.IndexScan table_ref index_name _ _ _ => index_scan_next table_ref index_name
  | PhysicalPlan.Limit _ _ input => with_input (LimitOp.next (next fuel input) fuel)
  | PhysicalPlan.Insert table table_schema projected_schema input =>
      with_input (insert_next (next fuel input) (λ m, on_context (on_catalog m)) table table_schema
        projected_schema fuel)
  | PhysicalPlan.Values schema rows => values_next schema rows
  | PhysicalPlan.NestedLoopJoin join_type condition left_input right_input schema parallelism =>
      with_input (JoinOp.next (on_context spawn_ctx) (on_right (init right_input))
        (on_left (next fuel left_input)) (on_right (next fuel right_input))
        (PhysicalPlan.output_schema left_input) (PhysicalPlan.output_schema right_input)
        schema join_type condition parallelism fuel)
  | PhysicalPlan.Sort order_bys input => with_input (SortOp.next (next fuel input) order_bys fuel)
  | PhysicalPlan.Aggregate input group_exprs aggr_exprs schema parallelism =>
      with_input (AggregateOp.next (on_context spawn_ctx) (on_context iteration_ctx)
        (next fuel input) group_exprs aggr_exprs schema parallelism fuel)
  | PhysicalPlan.Update table _ assignments selection => update_next table assignments selection fuel
  end.

(** [ExecutionEngine::execute] *)
Definition execute (fuel : nat) (p : PhysicalPlan.t) : SR Ctx (list Tuple.t) := λ c,
  let '((_, c), r) := (_ ← init p; drain (next fuel p) fuel []) (initial p, c) in (c, r).

End executor.
