(* ===== verification/Planner.v ===== *)
(** * Planner: physical plans from logical plans

    Models [bustubx/src/planner/physical_planner/physical_planner.rs]. *)
From S2P Require Import Prelude CommonCodec Floats Scalar Schema TupleCodec TablePage IndexPage.
From S2P Require Import DiskPages DiskManager Replacer BufferPool PageStore TableHeap Index Catalog.
From S2P Require Import Expressions LogicalPlan Operators Execution.
Local Open Scope Z_scope.

Module PhysicalPlanner.
Section planner.
Context {D : Type} `{Disk D}.

Record t := Mk { catalog : Catalog.t D; parallelism : nat }.

(** The scan of a table: by an index if the table has one. *)
Definition plan_scan (self : t) (table_ref : TableReference.t) (table_schema : Schema.t) :
    result PhysicalPlan.t :=
  catalog_schema ← unwrap (Catalog.schemas (catalog self) !! schema_name table_ref);
  let seq_scan := PhysicalPlan.SeqScan table_ref table_schema
                    (PhysicalPlan.clamp_workers (parallelism self)) in
  match CatalogSchema.tables catalog_schema !! TableReference.table table_ref with
  | Some catalog_table =>
      match map_to_list (CatalogTable.indexes catalog_table) with
      | (index_name, _) :: _ =>
          Ok (PhysicalPlan.IndexScan table_ref index_name table_schema Unbounded Unbounded)
      | [] => Ok seq_scan
      end
  | None => Ok seq_scan
  end.

Fixpoint build_plan (self : t) (logical_plan : LogicalPlan.t) : result PhysicalPlan.t :=
  let workers := PhysicalPlan.clamp_workers (parallelism self) in
  match logical_plan with
  | LogicalPlan.CreateTable name columns =>
      schema ← Schema.new columns; Ok (PhysicalPlan.CreateTable name schema)
  | LogicalPlan.CreateIndex index_name table table_schema columns =>
      Ok (PhysicalPlan.CreateIndex index_name table table_schema columns)
  | LogicalPlan.Insert table table_schema projected_schema input =>
      input ← build_plan self input;
      Ok (PhysicalPlan.Insert table table_schema projected_schema input)
  | LogicalPlan.Values schema values => Ok (PhysicalPlan.Values schema values)
  | LogicalPlan.Project exprs input schema =>
      input ← build_plan self input; Ok (PhysicalPlan.Project exprs schema input workers)
  | LogicalPlan.Filter predicate input =>
      input ← build_plan self input; Ok (PhysicalPlan.Filter predicate input workers)
  | LogicalPlan.TableScan table_ref table_schema _ _ => plan_scan self table_ref table_schema
  | LogicalPlan.Limit limit offset input =>
      input ← build_plan self input; Ok (PhysicalPlan.Limit limit offset input)
  | LogicalPlan.Join l_plan r_plan join_type condition schema =>
      l_plan ← build_plan self l_plan;
      r_plan ← build_plan self r_plan;
      Ok (PhysicalPlan.NestedLoopJoin join_type condition l_plan r_plan schema workers)
  | LogicalPlan.Sort order_by input _ =>
      input ← build_plan self input; Ok (PhysicalPlan.Sort order_by input)
  | LogicalPlan.EmptyRelation produce_one_row schema =>
      Ok (PhysicalPlan.Empty (if produce_one_row then 1 else 0) schema)
  | LogicalPlan.Aggregate input group_exprs aggr_exprs schema =>
      input ← build_plan self input;
      Ok (PhysicalPlan.Aggregate input group_exprs aggr_exprs schema workers)
  | LogicalPlan.Update table table_schema assignments selection =>
      Ok (PhysicalPlan.Update table table_schema assignments selection)
  end.

(** Statements that write run with one worker. *)
Definition is_write (logical_plan : LogicalPlan.t) : bool :=
  match logical_plan with
  | LogicalPlan.Insert _ _ _ _ | LogicalPlan.Update _ _ _ _ | LogicalPlan.CreateTable _ _
  | LogicalPlan.CreateIndex _ _ _ _ => true
  | _ => false
  end.

Definition create_physical_plan (self : t) (logical_plan : LogicalPlan.t) : result PhysicalPlan.t :=
  if is_write logical_plan then build_plan (Mk (catalog self) 1) logical_plan
  else build_plan self logical_plan.

End planner.
End PhysicalPlanner.
