(* ===== verification/Streams.v ===== *)
(** * Streams: what the calls of [next] answer

    An operator is started by [init] and then answers each call of [next] with a row,
    [None] or an error. This file relates those answers to the outcomes of [Meaning]:
    [replies] says that the answers of an operator are a given list, whatever happens
    to the context between the calls as long as the invariant holds, and [stream] is
    the list of an outcome. A budget, which [next] may use up, bounds the calls of the
    buffer pool. *)
From S2P Require Import Prelude CommonCodec Floats Scalar Schema Expressions LogicalPlan Operators.
From S2P Require Import Meaning Execution.
Local Open Scope nat_scope.

Module Streams.

Notation reply := (result (option Tuple.t)).

(** The answers at the end: an operator that is at its end is asked twice at most. *)
Definition tail (e : ending) : list reply :=
  match e with
  | Done => [Ok None; Ok None]
  | Failed error => [Err error]
  | Crashed => []
  end.

Definition stream (o : outcome) : list reply := ((λ t, Ok (Some t)) <$> rows o) ++ tail (ended o).

(** The answers of a pipeline, one step for each row, and then [rest]. *)
Fixpoint emit_stream (steps : list reply) (rest : list reply) : list reply :=
  match steps with
  | [] => rest
  | Ok (Some t) :: steps' => Ok (Some t) :: emit_stream steps' rest
  | Ok None :: steps' => emit_stream steps' rest
  | Err error :: _ => [Err error]
  | Panic :: _ => []
  end.

Definition nones (rs : list reply) : Prop := Forall (λ r, r = Ok None) rs.

Section replies.
Context {C : Type} (Inv : nat → C → Prop).

(** The next answers of [next] in state [s], with a budget of [b]. *)
Fixpoint replies {S} (next : SR (S * C) (option Tuple.t)) (b : nat) (rs : list reply) (s : S) : Prop :=
  match rs with
  | [] => True
  | r :: rs' => ∀ c m, Inv (b + m) c → ∃ s' c' b',
      next (s, c) = ((s', c'), r) ∧ Inv (b' + m) c' ∧ replies next b' rs' s'
  end.

(** The same when the next call is made in the context [c], with [m] of the budget for
    others. *)
Definition replies_at {S} (next : SR (S * C) (option Tuple.t)) (rs : list reply) (s : S) (c : C) (m : nat) : Prop :=
  match rs with
  | [] => True
  | r :: rs' => ∃ s' c' b', next (s, c) = ((s', c'), r) ∧ Inv (b' + m) c' ∧ replies next b' rs' s'
  end.

(** The answers are those of an outcome in [M]; which one is decided at the first call,
    since the context may decide it. *)
Definition promises {S} (next : SR (S * C) (option Tuple.t)) (b : nat) (M : outcome → Prop) (s : S) : Prop :=
  ∀ c m, Inv (b + m) c → ∃ o, M o ∧ replies_at next (stream o) s c m.

(** [init] starts the answers of an outcome that satisfies [M]. *)
Definition starts {S} (init : SR (S * C) unit) (next : SR (S * C) (option Tuple.t)) (b : nat)
    (M : outcome → Prop) : Prop :=
  ∀ s c m, Inv (b + m) c → ∃ s' c' b',
    init (s, c) = ((s', c'), Ok tt) ∧ Inv (b' + m) c' ∧ promises next b' M s'.

End replies.
End Streams.

Module StreamFacts.
Import Streams.

Lemma emit_stream_app steps1 steps2 rest :
  emit_stream (steps1 ++ steps2) rest = emit_stream steps1 (emit_stream steps2 rest).
Proof. induction steps1 as [|[[t|]| |] steps1 IH]; simpl; [done|by rewrite IH|done..]. Qed.

Lemma stream_emit steps e : stream (emit steps e) = emit_stream steps (tail e).
Proof.
  induction steps as [|[[t|]| |] steps IH]; simpl; [done| |done..]. by rewrite <- IH.
Qed.

Lemma stream_cons t l e : stream (Out (t :: l) e) = Ok (Some t) :: stream (Out l e).
Proof. done. Qed.

Lemma stream_app l o e : stream (Out (l ++ rows o) (ended o)) = emit_stream ((λ t, Ok (Some t)) <$> l) (stream o)
  ∧ stream (Out l e) = emit_stream ((λ t, Ok (Some t)) <$> l) (tail e).
Proof.
  split; induction l as [|t l IH]; simpl; [by destruct o| |done|]; rewrite stream_cons; by rewrite IH.
Qed.

(** ** Running in a monad *)
Section run.
Context {S I C A : Type}.

Lemma with_input_run (m : SR (S * (I * C)) A) s i c s' i' c' r :
  m (s, (i, c)) = ((s', (i', c')), r) → with_input m ((s, i), c) = (((s', i'), c'), r).
Proof. unfold with_input. by intros ->. Qed.

Lemma on_world_run {W} (m : SR W A) (s : S) w w' r :
  m w = (w', r) → on_world m (s, w) = ((s, w'), r).
Proof. unfold on_world. by intros ->. Qed.
End run.

(** ** Parallel evaluation *)
Section ordered_map.
Context {A B : Type} (f : A → result B).

Lemma map_collect_Ok l : (∀ x, x ∈ l → f x ≠ Panic) → map_collect f l = Ok (f <$> l).
Proof.
  induction l as [|x l IH]; [done|]. intros Hf. simpl.
  pose proof (Hf x ltac:(by left)). rewrite IH by (intros; apply Hf; by right). by destruct (f x).
Qed.

Lemma chunks_concat n (l : list A) : 0 < n → concat (chunks n l) = l.
Proof.
  intros Hn. unfold chunks.
  assert (∀ k, length l ≤ k → concat (chunks_fuel k n l) = l) as H; [|by apply H].
  intros k. revert l. induction k as [|k IH]; intros l Hl; [by destruct l; [|simpl in Hl; lia]|].
  destruct l as [|x l]; [done|]. cbn [chunks_fuel concat]. rewrite IH; [apply take_drop|].
  rewrite length_drop. cbn [length] in *. lia.
Qed.

Lemma join_workers_Ok (parts : list (list (result B))) out :
  join_workers (Ok <$> parts) out None = (out ++ concat parts, None).
Proof.
  revert out. induction parts as [|p parts IH]; intros out; simpl; [by rewrite app_nil_r|].
  by rewrite IH, <- (assoc_L (++)).
Qed.

(** When every thread starts and no evaluation panics, [ordered_map] is [map]. *)
Lemma ordered_map_Ok l workers :
  (∀ x, x ∈ l → f x ≠ Panic) → ordered_map None l workers f = Ok (f <$> l).
Proof.
  intros Hf. unfold ordered_map. destruct l as [|x l]; [done|]. set (xs := x :: l) in *.
  set (w := Nat.min _ _). destruct (Nat.eqb_spec w 1); [by apply map_collect_Ok|].
  set (k := div_ceil _ _). assert (0 < k) as Hn.
  { unfold k, div_ceil. apply Nat.div_str_pos. unfold w. unfold xs. cbn [length]. lia. }
  assert (map_collect f <$> chunks k xs = Ok <$> (fmap f <$> chunks k xs)) as ->.
  { rewrite <- list_fmap_compose. apply list_fmap_ext. intros i part Hi.
    apply map_collect_Ok. intros y Hy. apply Hf. rewrite <- (chunks_concat k xs Hn).
    apply list_elem_of_In, in_concat. exists part. split; apply list_elem_of_In; [|done].
    by eapply list_elem_of_lookup_2. }
  rewrite join_workers_Ok. cbn [app]. f_equal. rewrite <- (chunks_concat k xs Hn) at 2.
  symmetry. apply concat_map.
Qed.
End ordered_map.

(** ** Answers *)
Section replies.
Context {C : Type} (Inv : nat → C → Prop).
Notation replies := (replies Inv).

(** The state [s] of an operator has the answers of [R] if each call of [next] keeps to
    them, up to the first error. *)
Lemma replies_intro {S} (next : SR (S * C) (option Tuple.t)) (R : nat → list reply → S → Prop) :
  (∀ b r rs s c m, R b (r :: rs) s → Inv (b + m) c → ∃ s' c' b',
    next (s, c) = ((s', c'), r) ∧ Inv (b' + m) c' ∧ (rs = [] ∨ R b' rs s')) →
  ∀ rs b s, R b rs s → replies next b rs s.
Proof.
  intros HR rs. induction rs as [|r rs IH]; intros b s Hr; [done|]. intros c m Hc.
  destruct (HR _ _ _ _ _ _ Hr Hc) as (s' & c' & b' & Hn & Hc' & Hr').
  exists s', c', b'. split_and!; [done..|]. destruct Hr' as [->|Hr']; [done|by apply IH].
Qed.

(** The first answer, and then the others. *)
Lemma replies_at_intro {S} (next : SR (S * C) (option Tuple.t)) (R : nat → list reply → S → Prop) r rs s c m :
  (∀ b r rs s c m, R b (r :: rs) s → Inv (b + m) c → ∃ s' c' b',
    next (s, c) = ((s', c'), r) ∧ Inv (b' + m) c' ∧ (rs = [] ∨ R b' rs s')) →
  (∃ s' c' b', next (s, c) = ((s', c'), r) ∧ Inv (b' + m) c' ∧ (rs = [] ∨ R b' rs s')) →
  replies_at Inv next (r :: rs) s c m.
Proof.
  intros HR (s' & c' & b' & Hn & Hc' & Hr). exists s', c', b'. split_and!; [done..|].
  destruct Hr as [->|Hr]; [done|]. by apply (replies_intro next R).
Qed.

Lemma replies_replies_at {S} (next : SR (S * C) (option Tuple.t)) b rs s c m :
  replies next b rs s → Inv (b + m) c → replies_at Inv next rs s c m.
Proof. destruct rs as [|r rs]; [done|]. intros Hr Hc. by apply Hr. Qed.

Lemma replies_more {S} (next : SR (S * C) (option Tuple.t)) b k rs s :
  replies next b rs s → replies next (b + k) rs s.
Proof.
  revert b s. induction rs as [|r rs IH]; intros b s; [done|]. intros Hr c m Hc.
  destruct (Hr c (k + m)) as (s2 & c2 & b2 & Hn & Hc2 & Hr2); [by rewrite Nat.add_assoc|].
  exists s2, c2, (b2 + k). split_and!; [done|by rewrite <- Nat.add_assoc|by apply IH].
Qed.

(** [starts] with a larger budget, and with a weaker condition. *)
Lemma starts_weaken {S} (init : SR (S * C) unit) next b b' (M M' : outcome → Prop) :
  b ≤ b' → (∀ o, M o → M' o) → starts Inv init next b M → starts Inv init next b' M'.
Proof.
  intros Hb HM H s c m Hc. destruct (H s c (b' - b + m)) as (s' & c' & b1 & Hi & Hc' & Hp).
  { by replace (b + (b' - b + m)) with (b' + m) by lia. }
  exists s', c', (b1 + (b' - b)). split_and!; [done|by replace (b1 + (b' - b) + m) with (b1 + (b' - b + m)) by lia|].
  intros c2 m2 Hc2. destruct (Hp c2 (b' - b + m2)) as (o & Ho & Hr); [by rewrite Nat.add_assoc|].
  exists o. split; [by apply HM|]. destruct (stream o) as [|r rs]; [done|].
  destruct Hr as (s3 & c3 & b3 & Hn & Hc3 & Hr). exists s3, c3, (b3 + (b' - b)).
  split_and!; [done|by rewrite <- Nat.add_assoc|by apply replies_more].
Qed.

(** An outcome that is fixed does not depend on the context. *)
Lemma promises_fixed {S} (next : SR (S * C) (option Tuple.t)) b o s :
  promises Inv next b (eq o) s → replies next b (stream o) s.
Proof.
  intros Hp. destruct (stream o) as [|r rs] eqn:Hs; [done|]. intros c m Hc.
  destruct (Hp c m Hc) as (? & <- & Hr). by rewrite Hs in Hr.
Qed.

(** A batch of rows pulled from an input. *)
Section input.
Context {I : Type} (input_next : SR (I * C) (option Tuple.t)).

Definition failure (e : ending) : option BustubxError :=
  match e with Failed error => Some error | _ => None end.

Lemma collect_batch_Ok n l e batch b i c m :
  e ≠ Crashed → replies input_next b (stream (Out l e)) i → Inv (b + m) c →
  ∃ i' c' b', Inv (b' + m) c' ∧
    if n <=? length l
    then collect_batch input_next n batch (i, c) = ((i', c'), Ok (batch ++ take n l, false, None)) ∧
         replies input_next b' (stream (Out (drop n l) e)) i'
    else collect_batch input_next n batch (i, c) = ((i', c'), Ok (batch ++ l, true, failure e)).
Proof.
  intros He. revert l batch b i c. induction n as [|n IH]; intros l batch b i c Hr Hc.
  { exists i, c, b. split; [done|]. split; [by rewrite app_nil_r|done]. }
  destruct l as [|t l].
  - cbn [Nat.leb length]. rewrite app_nil_r. destruct e; [| |done];
      destruct (Hr c m Hc) as (i' & c' & b' & Hn & Hc' & _); exists i', c', b'; (split; [done|]);
      simpl; unfold mbind, SR_bind, catch; by rewrite Hn.
  - rewrite stream_cons in Hr. destruct (Hr c m Hc) as (i1 & c1 & b1 & Hn & Hc1 & Hr1).
    destruct (IH l (batch ++ [t]) b1 i1 c1 Hr1 Hc1) as (i' & c' & b' & Hc' & H).
    exists i', c', b'. split; [done|]. cbn [length Nat.leb take drop].
    assert (∀ x, batch ++ t :: x = (batch ++ [t]) ++ x) as E by (intros; by rewrite <- (assoc_L (++))).
    destruct (n <=? length l); [rewrite (E (take n l)); destruct H as [H Hr']; split; [|done]|rewrite (E l)];
      simpl; unfold mbind, SR_bind, catch; by rewrite Hn.
Qed.

(** The first batch, when the next call is made now. *)
Lemma collect_batch_first n l e i c m :
  e ≠ Crashed → replies_at Inv input_next (stream (Out l e)) i c m →
  ∃ i' c' b', Inv (b' + m) c' ∧
    if S n <=? length l
    then collect_batch input_next (S n) [] (i, c) = ((i', c'), Ok (take (S n) l, false, None)) ∧
         replies input_next b' (stream (Out (drop (S n) l) e)) i'
    else collect_batch input_next (S n) [] (i, c) = ((i', c'), Ok (l, true, failure e)).
Proof.
  intros He Hr. cbn [collect_batch]. destruct l as [|t l].
  - destruct e; [| |done]; destruct Hr as (i' & c' & b' & Hn & Hc' & _); exists i', c', b'; (split; [done|]);
      cbn [Nat.leb length]; unfold mbind, SR_bind, catch; by rewrite Hn.
  - rewrite stream_cons in Hr. destruct Hr as (i1 & c1 & b1 & Hn & Hc1 & Hr1).
    destruct (collect_batch_Ok n l e [t] b1 i1 c1 m He Hr1 Hc1) as (i' & c' & b' & Hc' & H).
    exists i', c', b'. split; [done|]. cbn [length Nat.leb take drop].
    destruct (n <=? length l); [destruct H as [H Hr']; split; [|done]|];
      unfold mbind, SR_bind, catch; rewrite Hn; exact H.
Qed.

(** All the rows of an input. *)
Lemma drain_Ok fuel l e acc i c m :
  length l < fuel → e ≠ Crashed → replies_at Inv input_next (stream (Out l e)) i c m →
  ∃ i' c' b', Inv (b' + m) c' ∧
    match e with
    | Failed error => drain input_next fuel acc (i, c) = ((i', c'), Err error)
    | _ => drain input_next fuel acc (i, c) = ((i', c'), Ok (acc ++ l)) ∧
        replies input_next b' [Ok None] i'
    end.
Proof.
  intros Hl He. revert l acc i c Hl. induction fuel as [|fuel IH]; intros l acc i c Hl Hr; [lia|].
  destruct l as [|t l].
  - destruct e; [| |done]; destruct Hr as (i' & c' & b' & Hn & Hc' & Hr'); exists i', c', b';
      (split; [done|]); simpl; unfold mbind, SR_bind; rewrite Hn; [by rewrite app_nil_r|done].
  - rewrite stream_cons in Hr. destruct Hr as (i1 & c1 & b1 & Hn & Hc1 & Hr1).
    destruct (IH l (acc ++ [t]) i1 c1) as (i' & c' & b' & Hc' & H);
      [simpl in Hl; lia|by eapply replies_replies_at|].
    exists i', c', b'. split; [done|]. simpl. unfold mbind, SR_bind. rewrite Hn. cbn beta iota.
    destruct e; [|done|done]. by rewrite <- (assoc_L (++)) in H.
Qed.

End input.
End replies.
End StreamFacts.
