(* ===== verification/Pipeline.v ===== *)
(** * Pipeline: the answers of the operators with one input

    [Filter], [Project], [Limit] and [Sort], serial and parallel, started on an input
    that starts an outcome, start the outcome [Meaning] gives them. *)
From S2P Require Import Prelude CommonCodec Floats Scalar Schema Expressions LogicalPlan Operators.
From S2P Require Import Meaning Execution Streams.
Local Open Scope nat_scope.

Module PipelineFacts.
Import Streams StreamFacts.

Lemma matches_not_Panic predicate t : PhysicalFilter.matches predicate t ≠ Panic.
Proof.
  unfold PhysicalFilter.matches. apply ExpressionFacts.bind_not_Panic; [apply ExpressionFacts.evaluate_not_Panic|].
  by intros [[[]|]| | | | | | | | | | |].
Qed.

Lemma nones_tail : nones (tail Done).
Proof. by repeat constructor. Qed.

(** A row that waits, as a step. *)
Definition as_reply (r : result Tuple.t) : reply := Some <$> r.

Section input.
Context {C I : Type} (Inv : nat → C → Prop).
Context (spawn : SR (I * C) (option nat)) (input_next : SR (I * C) (option Tuple.t)).
Context (spawn_ok : ∀ i c n, Inv n c → ∃ c', spawn (i, c) = ((i, c'), Ok None) ∧ Inv n c').
Notation replies := (replies Inv).

(** An operator over an input starts when its [init] starts the input and sets its own
    state. *)
Lemma starts_input {S} (st : S) init next (input_init : SR (I * C) unit) b (M M' : outcome → Prop) :
  starts Inv input_init input_next b M →
  (∀ s i c i' c', input_init (i, c) = ((i', c'), Ok tt) → init ((s, i), c) = (((st, i'), c'), Ok tt)) →
  (∀ oi b' i c m, M oi → replies_at Inv input_next (stream oi) i c m → Inv (b' + m) c →
    ∃ o, M' o ∧ replies_at Inv next (stream o) (st, i) c m) →
  starts Inv init next b M'.
Proof.
  intros Hs Hinit Hnext [s i] c m Hc. destruct (Hs i c m Hc) as (i' & c' & b' & Hi & Hc' & Hp).
  exists (st, i'), c', b'. split_and!; [by apply Hinit|done|]. intros c2 m2 Hc2.
  destruct (Hp c2 m2 Hc2) as (oi & Ho & Hr). by eapply Hnext.
Qed.

(** The first answer of an operator with a state of its own, and the others. *)
Lemma replies_at_with {S} (m : SR (S * (I * C)) (option Tuple.t)) (R : nat → list reply → S * I → Prop)
    st rs i c k :
  rs ≠ [] →
  (∀ b r rs s i c k, R b (r :: rs) (s, i) → Inv (b + k) c → ∃ s' i' c' b',
    m (s, (i, c)) = ((s', (i', c')), r) ∧ Inv (b' + k) c' ∧ (rs = [] ∨ R b' rs (s', i'))) →
  (∀ r rs', rs = r :: rs' → ∃ s' i' c' b',
    m (st, (i, c)) = ((s', (i', c')), r) ∧ Inv (b' + k) c' ∧ (rs' = [] ∨ R b' rs' (s', i'))) →
  replies_at Inv (with_input m) rs (st, i) c k.
Proof.
  intros Hne HR Hfirst. destruct rs as [|r rs]; [done|].
  apply (replies_at_intro Inv _ R).
  - clear -HR. intros b r rs [s i] c k Hr Hc.
    destruct (HR b r rs s i c k Hr Hc) as (s' & i' & c' & b' & Hrun & ?).
    exists (s', i'), c', b'. by split; [apply with_input_run|].
  - destruct (Hfirst r rs eq_refl) as (s' & i' & c' & b' & Hrun & ?).
    exists (s', i'), c', b'. by split; [apply with_input_run|].
Qed.

Lemma stream_not_nil o : ended o ≠ Crashed → stream o ≠ [].
Proof. destruct o as [[|t l] []]; done. Qed.

(** ** Batches *)
Section batches.
Context {B : Type} (f : Tuple.t → result B) (pend : list Tuple.t → list (result B) → list (result Tuple.t)).
Context (step : Tuple.t → reply) (parallelism : nat).

(** The [refill] of a filter and of a projection. *)
Definition refill_with : SR (FilterState.t * (I * C)) unit :=
  '(batch, ended, input_error) ← on_world (collect_batch input_next BATCH_SIZE []);
  _ ← modify_state (λ s, FilterState.Mk (FilterState.pending s) (FilterState.exhausted s || ended));
  fails ← on_world spawn;
  match ordered_map fails batch parallelism f with
  | Ok decisions =>
      modify_state (λ s, FilterState.Mk
        (FilterState.pending s ++ pend batch decisions ++ FilterOp.error_row input_error)
        (FilterState.exhausted s))
  | Err error => _ ← modify_state (λ s, FilterState.Mk (FilterState.pending s) true); fail error
  | Panic => lift Panic
  end.

(** What waits in [pending], as steps. *)
Definition waiting (fs : FilterState.t) : list reply := as_reply <$> FilterState.pending fs.

(** The answers to come: those that wait, then those of the input, at most [k] rows. *)
Definition batch_state (e : ending) (k b : nat) (rs : list reply) (s : FilterState.t * I) : Prop :=
  if FilterState.exhausted s.1
  then ∃ tl, nones tl ∧ rs = emit_stream (waiting s.1) tl
  else ∃ l, length l ≤ k ∧ Forall (λ t, f t ≠ Panic) l ∧
    rs = emit_stream (waiting s.1) (stream (emit (step <$> l) e)) ∧
    replies input_next b (stream (Out l e)) s.2.

(** The same when [next] is called now. *)
Definition batch_at (e : ending) (k : nat) (rs : list reply) (s : FilterState.t * I) (c : C) (m : nat) : Prop :=
  s.1 = FilterState.default ∧ ∃ l, length l ≤ k ∧ Forall (λ t, f t ≠ Panic) l ∧
    rs = stream (emit (step <$> l) e) ∧ replies_at Inv input_next (stream (Out l e)) s.2 c m.

Lemma batch_state_at e k b rs i c m :
  batch_state e k b rs (FilterState.default, i) → Inv (b + m) c →
  batch_at e k rs (FilterState.default, i) c m.
Proof.
  intros (l & Hk & Hf & Hrs & Hr) Hc. split; [done|]. exists l. split; [done|]. split; [done|].
  split; [done|]. by eapply replies_replies_at.
Qed.

Lemma batch_state_weaken e k k' b rs s : k' ≤ k → batch_state e k' b rs s → batch_state e k b rs s.
Proof.
  intros Hk. unfold batch_state. case_match; [done|]. intros (l & Hl & Hrest). exists l. split; [lia|done].
Qed.

(** Taking what waits. *)
Lemma batch_state_pop e k b r rs p pending ex i :
  batch_state e k b (r :: rs) (FilterState.Mk (p :: pending) ex, i) →
  r = as_reply p ∧ (rs = [] ∨ batch_state e k b rs (FilterState.Mk pending ex, i)).
Proof.
  unfold batch_state, waiting. cbn [FilterState.exhausted FilterState.pending fst snd fmap list_fmap].
  assert (∀ rest, r :: rs = emit_stream (as_reply p :: (as_reply <$> pending)) rest →
    r = as_reply p ∧ (rs = [] ∨ rs = emit_stream (as_reply <$> pending) rest)) as H.
  { intros rest. destruct p; simpl; intros [= -> ->]; auto. }
  destruct ex.
  - intros (tl & Htl & [-> [->|Hrs]]%H); [auto|]. split; [done|]. right. by exists tl.
  - intros (l & Hl & Hf & [-> [->|Hrs]]%H & Hr); [auto|]. split; [done|]. right. by exists l.
Qed.

Context (pend_ok : ∀ l rest, Forall (λ t, f t ≠ Panic) l →
  emit_stream (as_reply <$> pend l (f <$> l)) rest = emit_stream (step <$> l) rest).

Lemma refill_Ok e k rs i c m :
  e ≠ Crashed → batch_at e k rs (FilterState.default, i) c m →
  ∃ fs' i' c' b', refill_with (FilterState.default, (i, c)) = ((fs', (i', c')), Ok tt) ∧ Inv (b' + m) c' ∧
    (FilterState.exhausted fs' = true ∧ batch_state e k b' rs (fs', i') ∨
     FilterState.exhausted fs' = false ∧ 0 < k ∧ batch_state e (k - 1) b' rs (fs', i') ∧
     ((∀ l, length (pend l (f <$> l)) = length l) → FilterState.pending fs' ≠ [])).
Proof.
  intros He (_ & l & Hk & Hf & -> & Hr). cbn [snd] in Hr.
  destruct (collect_batch_first Inv input_next (pred BATCH_SIZE) l e i c m He Hr) as (i1 & c1 & b1 & Hc1 & Hcol).
  assert (0 < BATCH_SIZE) as Hbs by (unfold BATCH_SIZE; lia).
  replace (S (pred BATCH_SIZE)) with BATCH_SIZE in Hcol by lia.
  destruct (spawn_ok i1 c1 _ Hc1) as (c2 & Hsp & Hc2).
  destruct (Nat.leb_spec BATCH_SIZE (length l)) as [Hle|Hgt].
  - destruct Hcol as [Hcol Hr1].
    assert (Forall (λ t, f t ≠ Panic) (take BATCH_SIZE l)) as Hft by (by apply Forall_take).
    assert (Forall (λ t, f t ≠ Panic) (drop BATCH_SIZE l)) as Hfd by (by apply Forall_drop).
    eexists (FilterState.Mk (pend (take BATCH_SIZE l) (f <$> take BATCH_SIZE l) ++ []) false),
      i1, c2, b1.
    split; [|split; [done|]].
    + unfold refill_with, mbind, SR_bind, on_world, modify_state. rewrite Hcol. cbn beta iota.
      rewrite Hsp. cbn beta iota. rewrite ordered_map_Ok; [done|]. by apply Forall_forall.
    + right. split; [done|]. split; [lia|]. split.
      * exists (drop BATCH_SIZE l). split; [rewrite length_drop; lia|]. split; [done|]. split; [|done].
        unfold waiting. cbn [FilterState.pending fst]. rewrite app_nil_r. rewrite pend_ok by done. rewrite !stream_emit, <- emit_stream_app, <- fmap_app, take_drop. done.
      * cbn [FilterState.pending]. intros Hlen E. specialize (Hlen (take BATCH_SIZE l)).
        rewrite app_nil_r in E. rewrite E, length_take in Hlen. cbn [length] in Hlen. lia.
  - eexists (FilterState.Mk (pend l (f <$> l) ++ FilterOp.error_row (failure e)) true), i1, c2, b1.
    split; [|split; [done|]].
    + unfold refill_with, mbind, SR_bind, on_world, modify_state. rewrite Hcol. cbn beta iota.
      rewrite Hsp. cbn beta iota. rewrite ordered_map_Ok; [done|]. by apply Forall_forall.
    + left. split; [done|]. exists (match e with Done => tail Done | _ => [] end).
      split; [destruct e; [apply nones_tail|by constructor..]|].
      unfold waiting. cbn [FilterState.pending fst]. rewrite fmap_app, emit_stream_app.
      rewrite pend_ok by done. rewrite stream_emit. by destruct e.
Qed.

End batches.

(** ** Filter *)
Section filter.
Context (predicate : Expr.t) (parallelism fuel : nat).
Notation matches := (PhysicalFilter.matches predicate).
Notation step := (filter_step predicate).

Lemma filter_step_eq t :
  step t = match matches t with
           | Ok true => Ok (Some t) | Ok false => Ok None | Err error => Err error | Panic => Panic
           end.
Proof. unfold filter_step. by destruct (matches t) as [[]| |]. Qed.

Lemma select_ok l rest :
  Forall (λ t, matches t ≠ Panic) l →
  emit_stream (as_reply <$> FilterOp.select l (matches <$> l)) rest = emit_stream (step <$> l) rest.
Proof.
  induction 1 as [|t l Ht _ IH]; [done|].
  rewrite !fmap_cons. cbn [FilterOp.select]. rewrite filter_step_eq.
  destruct (matches t) as [[]| |]; rewrite ?fmap_cons; cbn [emit_stream as_reply fmap result_fmap]; [by rewrite IH|done..].
Qed.

Notation filtering := (batch_state matches step).
Notation filtering_at := (batch_at matches step).

Lemma parallel_loop_Ok fuel' e k b r rs fs i c m :
  e ≠ Crashed → (if FilterState.exhausted fs then 1 else k + 2) ≤ fuel' →
  filtering e k b (r :: rs) (fs, i) ∧ Inv (b + m) c ∨ filtering_at e k (r :: rs) (fs, i) c m →
  ∃ fs' i' c' b',
    FilterOp.parallel_loop spawn input_next predicate parallelism fuel' (fs, (i, c)) = ((fs', (i', c')), r) ∧
    Inv (b' + m) c' ∧ (rs = [] ∨ filtering e k b' rs (fs', i')).
Proof.
  intros He. revert k b fs i c. induction fuel' as [|fuel' IH]; intros k b fs i c Hfuel Hs.
  { destruct (FilterState.exhausted fs); lia. }
  destruct fs as [[|p pending] ex].
  2:{ destruct Hs as [[Hs Hc]|[Hd _]]; [|done]. apply batch_state_pop in Hs as [-> Hs].
      by exists (FilterState.Mk pending ex), i, c, b. }
  destruct ex.
  { destruct Hs as [[(tl & Htl & Hrs) Hc]|[Hd _]]; [|done]. simpl in Hrs. subst tl.
    apply Forall_cons in Htl as [-> Htl].
    exists (FilterState.Mk [] true), i, c, b. split; [done|]. split; [done|]. right. by exists rs. }
  assert (filtering_at e k (r :: rs) (FilterState.default, i) c m) as Hat.
  { destruct Hs as [[Hs Hc]|Hs]; [by eapply batch_state_at|done]. }
  destruct (refill_Ok matches FilterOp.select step parallelism (λ l rest, select_ok l rest)
    e k (r :: rs) i c m He Hat) as (fs1 & i1 & c1 & b1 & Hre & Hc1 & Hs1).
  cbn [FilterState.exhausted] in Hfuel.
  assert (∃ k', k' ≤ k ∧ (if FilterState.exhausted fs1 then 1 else k' + 2) ≤ fuel' ∧
    filtering e k' b1 (r :: rs) (fs1, i1)) as (k' & Hk' & Hf' & Hs').
  { destruct Hs1 as [[Hx Hs1]|(Hx & Hk & Hs1 & _)]; rewrite Hx; [exists k|exists (k - 1)];
      (split; [lia|]); (split; [lia|done]). }
  destruct (IH k' b1 fs1 i1 c1 Hf' ltac:(by left)) as (fs' & i' & c' & b' & Hrun & Hc' & Hr).
  exists fs', i', c', b'. split; [|split; [done|]].
  - assert (FilterOp.refill spawn input_next predicate parallelism (FilterState.default, (i, c))
      = ((fs1, (i1, c1)), Ok tt)) as Hre' by exact Hre.
    cbn [FilterOp.parallel_loop]. unfold mbind, SR_bind, get_state.
    cbn [FilterState.pending FilterState.exhausted]. unfold FilterState.default in Hre'. rewrite Hre'. exact Hrun.
  - destruct Hr as [->|Hr]; [by left|right]. by eapply batch_state_weaken.
Qed.

(** Serially, the loop pulls rows until one matches. *)
Lemma serial_loop_Ok fuel' l e r rs i c m :
  e ≠ Crashed → length l < fuel' → r :: rs = stream (emit (step <$> l) e) →
  replies_at Inv input_next (stream (Out l e)) i c m →
  ∃ i' c' b', FilterOp.serial_loop input_next predicate fuel' (i, c) = ((i', c'), r) ∧ Inv (b' + m) c' ∧
    (rs = [] ∨ (∃ l', length l' ≤ length l ∧ rs = stream (emit (step <$> l') e) ∧
                  replies input_next b' (stream (Out l' e)) i') ∨
     nones rs ∧ replies input_next b' rs i').
Proof.
  intros He. revert l i c. induction fuel' as [|fuel' IH]; intros l i c Hl Hrs Hr; [lia|].
  destruct l as [|t l].
  - destruct e; [| |done]; simpl in Hrs; injection Hrs as -> ->;
      destruct Hr as (i' & c' & b' & Hn & Hc' & Hr'); exists i', c', b'.
    + split; [|split; [done|right; right; by split; [repeat constructor|]]].
      simpl. unfold mbind, SR_bind. by rewrite Hn.
    + split; [|split; [done|by left]]. simpl. unfold mbind, SR_bind. by rewrite Hn.
  - rewrite stream_cons in Hr. destruct Hr as (i1 & c1 & b1 & Hn & Hc1 & Hr1).
    cbn [FilterOp.serial_loop]. unfold mbind, SR_bind. rewrite Hn. cbn beta iota.
    rewrite fmap_cons, filter_step_eq in Hrs. cbn [emit] in Hrs.
    destruct (matches t) as [[]|error|] eqn:Hm; unfold lift; cbn beta iota in *.
    + rewrite stream_cons in Hrs. injection Hrs as -> ->. exists i1, c1, b1. split; [done|]. split; [done|].
      right; left. exists l. split; [simpl; lia|]. split; [|done]. by destruct (emit (step <$> l) e).
    + destruct (IH l i1 c1) as (i' & c' & b' & Hrun & Hc' & Hrest);
        [simpl in Hl; lia|done|by eapply replies_replies_at|].
      exists i', c', b'. split; [exact Hrun|]. split; [done|].
      destruct Hrest as [?|[(l' & ? & ?)|?]]; [by left| |by right; right].
      right; left. exists l'. split; [simpl; lia|done].
    + injection Hrs as -> ->. exists i1, c1, b1. split; [done|]. by split; [|left].
    + by destruct (matches_not_Panic predicate t).
Qed.

Lemma filter_ended l e : e ≠ Crashed → ended (emit (step <$> l) e) ≠ Crashed.
Proof.
  intros He. induction l as [|t l IH]; [done|]. rewrite fmap_cons, filter_step_eq.
  pose proof (matches_not_Panic predicate t). by destruct (matches t) as [[]| |].
Qed.

Lemma filter_starts (input_init : SR (I * C) unit) b M :
  starts Inv input_init input_next b M →
  (∀ o, M o → ended o ≠ Crashed ∧ length (rows o) + 2 ≤ fuel) →
  starts Inv (with_input (FilterOp.init input_init))
    (with_input (FilterOp.next spawn input_next predicate parallelism fuel)) b
    (λ o, ∃ oi, M oi ∧ o = filter_rows predicate oi).
Proof.
  intros Hs HM. eapply (starts_input FilterState.default); [exact Hs| |].
  { intros s i c i' c' Hi. unfold with_input, FilterOp.init, mbind, SR_bind, set_state, on_world. by rewrite Hi. }
  intros [l e] b' i c m Ho Hr Hc. destruct (HM _ Ho) as [He Hf]. simpl in He, Hf.
  eexists. split; [by eexists|]. unfold FilterOp.next.
  pose proof (stream_not_nil _ (filter_ended l e He)) as Hne. destruct (parallelism =? 1).
  - apply (replies_at_with _ (λ b rs s,
      (∃ l', length l' ≤ length l ∧ rs = stream (emit (step <$> l') e) ∧
         replies input_next b (stream (Out l' e)) s.2) ∨
      nones rs ∧ replies input_next b rs s.2)); [done| |].
    + clear -He Hf. intros b1 r rs fs i c m [(l' & Hl' & Hrs & Hr)|[Hno Hr]] Hc; cbn [snd] in Hr.
      * destruct (serial_loop_Ok fuel l' e r rs i c m He ltac:(lia) Hrs) as (i' & c' & b' & Hrun & Hc' & Hrest);
          [by eapply replies_replies_at|].
        exists fs, i', c', b'. split; [by apply on_world_run|]. split; [done|].
        destruct Hrest as [?|[(l2 & ? & ?)|?]]; [by left| |by right; right].
        right; left. exists l2. split; [lia|done].
      * apply Forall_cons in Hno as [-> Hno]. destruct (Hr c m Hc) as (i' & c' & b' & Hn & Hc' & Hr').
        exists fs, i', c', b'. split; [|split; [done|by right; right]]. apply on_world_run.
        destruct fuel; [lia|]. simpl. unfold mbind, SR_bind. by rewrite Hn.
    + intros r rs Hrs. symmetry in Hrs.
      destruct (serial_loop_Ok fuel l e r rs i c m He ltac:(lia) Hrs Hr) as (i' & c' & b1 & Hrun & Hc' & Hrest).
      exists FilterState.default, i', c', b1. split; [by apply on_world_run|]. split; [done|].
      destruct Hrest as [?|[(l2 & ? & ?)|?]]; [by left| |by right; right].
      right; left. by exists l2.
  - apply (replies_at_with _ (filtering e (length l))); [done| |].
    + clear -He Hf spawn_ok. intros b1 r rs fs i c m Hst Hc.
      apply (parallel_loop_Ok fuel e (length l) b1); [done| |by left].
      destruct (FilterState.exhausted fs); lia.
    + intros r rs Hrs. apply (parallel_loop_Ok fuel e (length l) b'); [done|simpl; lia|right].
      split; [done|]. exists l. split; [done|]. split; [|by split].
      apply Forall_forall. intros t _. apply matches_not_Panic.
Qed.

End filter.

(** ** Project *)
Section project.
Context (exprs : list Expr.t) (schema : Schema.t) (parallelism : nat).
Notation project := (PhysicalProject.project exprs schema).
Notation step := (λ t, Some <$> project t).
Notation projecting := (batch_state project step).
Notation projecting_at := (batch_at project step).

Lemma pend_project l rest : Forall (λ t, project t ≠ Panic) l →
  emit_stream (as_reply <$> (project <$> l)) rest = emit_stream (step <$> l) rest.
Proof. intros _. f_equal. by rewrite <- list_fmap_compose. Qed.

Lemma project_next_Ok e k b r rs fs i c m :
  e ≠ Crashed → (parallelism =? 1) = false → 
  projecting e k b (r :: rs) (fs, i) ∧ Inv (b + m) c ∨ projecting_at e k (r :: rs) (fs, i) c m →
  ∃ fs' i' c' b',
    ProjectOp.next spawn input_next exprs schema parallelism (fs, (i, c)) = ((fs', (i', c')), r) ∧
    Inv (b' + m) c' ∧ (rs = [] ∨ projecting e k b' rs (fs', i')).
Proof.
  intros He Hp Hs. unfold ProjectOp.next. rewrite Hp. destruct fs as [[|p pending] ex].
  2:{ destruct Hs as [[Hs Hc]|[Hd _]]; [|done]. apply batch_state_pop in Hs as [-> Hs].
      by exists (FilterState.Mk pending ex), i, c, b. }
  destruct ex.
  { destruct Hs as [[(tl & Htl & Hrs) Hc]|[Hd _]]; [|done]. simpl in Hrs. subst tl.
    apply Forall_cons in Htl as [-> Htl].
    exists (FilterState.Mk [] true), i, c, b. split; [done|]. split; [done|]. right. by exists rs. }
  assert (projecting_at e k (r :: rs) (FilterState.default, i) c m) as Hat.
  { destruct Hs as [[Hs Hc]|Hs]; [by eapply batch_state_at|done]. }
  destruct (refill_Ok project (λ _ ds, ds) step parallelism pend_project e k (r :: rs) i c m He Hat)
    as (fs1 & i1 & c1 & b1 & Hre & Hc1 & Hs1).
  assert (ProjectOp.refill spawn input_next exprs schema parallelism (FilterState.Mk [] false, (i, c))
    = ((fs1, (i1, c1)), Ok tt)) as Hre' by exact Hre.
  unfold mbind, SR_bind, get_state. cbn [FilterState.pending FilterState.exhausted]. rewrite Hre'.
  unfold ProjectOp.pop_pending, mbind, SR_bind, get_state. destruct fs1 as [[|p pending] ex]; cbn [FilterState.pending] in *.
  - destruct Hs1 as [[Hx Hs1]|(_ & _ & _ & Hne)]; [|by destruct Hne; [intros; apply length_fmap|]].
    simpl in Hx. subst ex. destruct Hs1 as (tl & Htl & Hrs). simpl in Hrs. subst tl.
    apply Forall_cons in Htl as [-> Htl].
    exists (FilterState.Mk [] true), i1, c1, b1. split; [done|]. split; [done|]. right. by exists rs.
  - assert (∃ k', k' ≤ k ∧ projecting e k' b1 (r :: rs) (FilterState.Mk (p :: pending) ex, i1))
      as (k' & Hk & Hs2) by (destruct Hs1 as [[_ ?]|(_ & _ & ? & _)]; eexists; (split; [|done]); lia).
    apply batch_state_pop in Hs2 as [-> Hs2]. exists (FilterState.Mk pending ex), i1, c1, b1.
    split; [done|]. split; [done|]. destruct Hs2 as [->|Hs2]; [by left|right]. by eapply batch_state_weaken.
Qed.

Lemma project_ended l e :
  e ≠ Crashed → Forall (λ t, project t ≠ Panic) l → ended (emit (step <$> l) e) ≠ Crashed.
Proof.
  intros He Hf. induction Hf as [|t l Ht _ IH]; [done|]. rewrite fmap_cons. by destruct (project t).
Qed.

(** Serially, a row for each row of the input. *)
Definition project_serial (e : ending) (l : list Tuple.t) (tl rs : list reply) : Prop :=
  Forall (λ t, project t ≠ Panic) l ∧ (nones tl ∨ tl = tail e) ∧ rs = emit_stream (step <$> l) tl.

Lemma project_serial_Ok e l tl r rs fs i c m :
  e ≠ Crashed → (parallelism =? 1) = true → project_serial e l tl (r :: rs) →
  replies_at Inv input_next (((λ t, Ok (Some t)) <$> l) ++ tl) i c m →
  ∃ fs' i' c' b', ProjectOp.next spawn input_next exprs schema parallelism (fs, (i, c)) = ((fs', (i', c')), r) ∧
    Inv (b' + m) c' ∧ (rs = [] ∨ ∃ l' tl', project_serial e l' tl' rs ∧
      replies input_next b' (((λ t, Ok (Some t)) <$> l') ++ tl') i').
Proof.
  intros He Hp (Hf & Htl & Hrs) Hr. unfold ProjectOp.next. rewrite Hp.
  unfold mbind, SR_bind, on_world. destruct l as [|t l].
  - simpl in Hrs. subst tl. destruct Hr as (i' & c' & b' & Hn & Hc' & Hr'). rewrite Hn.
    exists fs, i', c', b'. destruct Htl as [Htl|Htl].
    + apply Forall_cons in Htl as [-> Htl]. split; [done|]. split; [done|right].
      exists [], rs. split; [|done]. split; [done|]. split; [by left|done].
    + destruct e; [| |done]; injection Htl as -> ->; (split; [done|]); (split; [done|]); [right|by left].
      exists [], [Ok None]. split; [|done]. split; [done|]. split; [left; by repeat constructor|done].
  - apply Forall_cons in Hf as [Ht Hf]. destruct Hr as (i' & c' & b' & Hn & Hc' & Hr'). rewrite Hn.
    rewrite fmap_cons in Hrs.
    assert (r = Some <$> project t ∧ (rs = [] ∨ rs = emit_stream (step <$> l) tl)) as [-> Hrs'].
    { destruct (project t) as [v| |]; [| |done]; simpl in Hrs; injection Hrs as -> ->; auto. }
    exists fs, i', c', b'. split; [done|]. split; [done|].
    destruct Hrs' as [-> | ->]; [by left|right]. exists l, tl. by split.
Qed.

Lemma project_starts (input_init : SR (I * C) unit) b M :
  starts Inv input_init input_next b M →
  (∀ o, M o → ended o ≠ Crashed ∧ Forall (λ t, project t ≠ Panic) (rows o)) →
  starts Inv (with_input (ProjectOp.init input_init))
    (with_input (ProjectOp.next spawn input_next exprs schema parallelism)) b
    (λ o, ∃ oi, M oi ∧ o = project_rows exprs schema oi).
Proof.
  intros Hs HM. eapply (starts_input FilterState.default); [exact Hs| |].
  { intros s i c i' c' Hi. unfold with_input, ProjectOp.init, mbind, SR_bind, set_state, on_world. by rewrite Hi. }
  intros [l e] b' i c m Ho Hr Hc. destruct (HM _ Ho) as [He Hf]. simpl in He, Hf.
  eexists. split; [by eexists|]. pose proof (stream_not_nil _ (project_ended l e He Hf)) as Hne.
  destruct (parallelism =? 1) eqn:Hp.
  - apply (replies_at_with _ (λ b rs s, ∃ l' tl, project_serial e l' tl rs ∧
      replies input_next b (((λ t, Ok (Some t)) <$> l') ++ tl) s.2)); [done| |].
    + clear -He Hp. intros b1 r rs fs i c m (l' & tl & Hst & Hr) Hc. cbn [snd] in Hr.
      apply (project_serial_Ok e l' tl); [done..|]. by eapply replies_replies_at.
    + intros r rs Hrs. apply (project_serial_Ok e l (tail e)); [done..| |done]. split; [done|].
      split; [by right|]. by rewrite <- Hrs, <- stream_emit.
  - apply (replies_at_with _ (projecting e (length l))); [done| |].
    + clear -He Hp spawn_ok. intros b1 r rs fs i c m Hst Hc. apply (project_next_Ok e _ b1); [done..|by left].
    + intros r rs Hrs. apply (project_next_Ok e (length l) b'); [done..|right].
      split; [done|]. exists l. by split.
Qed.

End project.
(** ** Limit *)
Section limit.
Local Open Scope Z_scope.
Context (limit : option Z) (offset : Z) (fuel : nat).

(** Rows may still be taken, and counting them does not overflow. *)
Definition open_limit (lim : option Z) : Prop := ∀ n, lim = Some n → 0 < n < 2 ^ 64.

Definition pred_limit (lim : option Z) : option Z := (λ n, n - 1) <$> lim.

Lemma limit_nil lim off e : open_limit lim → limit_rows lim off (Out [] e) = Out [] e.
Proof.
  intros Hl. unfold limit_rows. cbn [rows ended]. rewrite drop_nil. destruct lim as [n|]; [|done].
  destruct (Hl n eq_refl). by rewrite (proj2 (Nat.leb_gt _ _)) by (simpl; lia).
Qed.

Lemma limit_skipped lim off t l e :
  0 < off → limit_rows lim off (Out (t :: l) e) = limit_rows lim (off - 1) (Out l e).
Proof.
  intros Ho. unfold limit_rows. cbn [rows ended].
  by replace (Z.to_nat off) with (S (Z.to_nat (off - 1))) by lia.
Qed.

Lemma limit_taken lim off t l e :
  off ≤ 0 → open_limit lim →
  stream (limit_rows lim off (Out (t :: l) e))
  = Ok (Some t) :: stream (limit_rows (pred_limit lim) off (Out l e)).
Proof.
  intros Ho Hl. unfold limit_rows. cbn [rows ended]. replace (Z.to_nat off) with 0%nat by lia.
  rewrite !drop_0. destruct lim as [n|]; [|done]. destruct (Hl n eq_refl) as [Hn _].
  cbn [pred_limit fmap option_fmap option_map]. cbn [length].
  replace (Z.to_nat n) with (S (Z.to_nat (n - 1))) by lia. cbn [Nat.leb]. by case_match.
Qed.

Lemma pred_open lim : open_limit lim → pred_limit lim ≠ Some 0 → open_limit (pred_limit lim).
Proof.
  intros Hl Hne n Hn. destruct lim as [k|]; [|done]. destruct (Hl k eq_refl). simpl in *. simplify_eq.
  split; [|lia]. destruct (decide (k - 1 = 0)) as [E|]; [|lia]. by rewrite E in Hne.
Qed.

(** The answers still to come, from at most [k] rows. *)
Definition limiting (e : ending) (k b : nat) (rs : list reply) (s : LimitState.t * I) : Prop :=
  let '(ls, i) := s in
  (LimitState.exhausted ls = true ∨ LimitState.remaining ls = Some 0) ∧ nones rs ∨
  LimitState.exhausted ls = false ∧ open_limit (LimitState.remaining ls) ∧
  ∃ l, (length l ≤ k)%nat ∧
    rs = stream (limit_rows (LimitState.remaining ls) (LimitState.to_skip ls) (Out l e)) ∧
    replies input_next b (stream (Out l e)) i.

Lemma next_loop_Ok fuel' e l k r rs lim off i c m :
  e ≠ Crashed → open_limit lim → (length l < fuel')%nat → (length l ≤ k)%nat →
  r :: rs = stream (limit_rows lim off (Out l e)) →
  replies_at Inv input_next (stream (Out l e)) i c m →
  ∃ ls' i' c' b',
    LimitOp.next_loop input_next fuel' (LimitState.Mk off lim false, (i, c)) = ((ls', (i', c')), r) ∧
    Inv (b' + m)%nat c' ∧ (rs = [] ∨ limiting e k b' rs (ls', i')).
Proof.
  intros He. revert l off i c. induction fuel' as [|fuel' IH]; intros l off i c Hlim Hl Hk Hrs Hr; [lia|].
  cbn [LimitOp.next_loop]. unfold mbind, SR_bind, on_world, get_state, set_state. destruct l as [|t l].
  - rewrite limit_nil in Hrs by done.
    destruct e; [| |done]; injection Hrs as -> ->;
      destruct Hr as (i' & c' & b' & Hn & Hc' & Hr'); rewrite Hn.
    + exists (LimitState.Mk off lim true), i', c', b'. split; [done|]. split; [done|]. right; left.
      split; [by left|by repeat constructor].
    + exists (LimitState.Mk off lim false), i', c', b'. split; [done|]. by split; [|left].
  - rewrite stream_cons in Hr. destruct Hr as (i1 & c1 & b1 & Hn & Hc1 & Hr1). rewrite Hn.
    cbn beta iota. cbn [LimitState.to_skip LimitState.remaining LimitState.exhausted]. simpl in Hl, Hk.
    destruct (Z.ltb_spec 0 off) as [Ho|Ho].
    + rewrite limit_skipped in Hrs by done.
      destruct (IH l (off - 1) i1 c1) as (ls' & i' & c' & b' & Hrun & Hrest);
        [done|lia|lia|done|by eapply replies_replies_at|].
      exists ls', i', c', b'. by split.
    + rewrite limit_taken in Hrs by done. injection Hrs as -> ->.
      exists (LimitState.Mk off (pred_limit lim) false), i1, c1, b1. split; [|split; [done|right]].
      * destruct lim as [n|]; [|done]. destruct (Hlim n eq_refl).
        rewrite (checked_Ok 64 (n - 1)) by (split; lia). done.
      * destruct (decide (pred_limit lim = Some 0)) as [E|Hne].
        -- left. cbn [LimitState.remaining LimitState.to_skip]. split; [by right|]. rewrite E.
           by repeat constructor.
        -- right. cbn [LimitState.remaining LimitState.to_skip LimitState.exhausted].
           split; [done|]. split; [by apply pred_open|]. exists l. split; [lia|]. by split.
Qed.

(** A limit that is used up answers [None]; one that is not pulls a row. *)
Lemma limit_closed e b r rs ls k i c m :
  LimitState.exhausted ls = true ∨ LimitState.remaining ls = Some 0 → nones (r :: rs) → Inv (b + m)%nat c →
  ∃ ls' i' c' b', LimitOp.next input_next fuel (ls, (i, c)) = ((ls', (i', c')), r) ∧
    Inv (b' + m)%nat c' ∧ (rs = [] ∨ limiting e k b' rs (ls', i')).
Proof.
  intros Hend [-> Hno]%Forall_cons Hc. exists ls, i, c, b. split; [|split; [done|right; by left]].
  unfold LimitOp.next, mbind, SR_bind, get_state.
  by destruct Hend as [-> | ->]; [|rewrite bool_decide_eq_true_2, orb_true_r by done].
Qed.

Lemma limit_opened lim off i c :
  open_limit lim →
  LimitOp.next input_next fuel (LimitState.Mk off lim false, (i, c))
  = LimitOp.next_loop input_next fuel (LimitState.Mk off lim false, (i, c)).
Proof.
  intros Hop. unfold LimitOp.next, mbind, SR_bind at 1, get_state. cbn [LimitState.exhausted LimitState.remaining].
  by rewrite bool_decide_eq_false_2 by (intros ->; destruct (Hop 0 eq_refl); lia).
Qed.

Lemma limit_starts (input_init : SR (I * C) unit) b M :
  (∀ n, limit = Some n → 0 ≤ n < 2 ^ 64) →
  starts Inv input_init input_next b M →
  (∀ o, M o → ended o ≠ Crashed ∧ (length (rows o) < fuel)%nat) →
  starts Inv (with_input (LimitOp.init input_init limit offset))
    (with_input (LimitOp.next input_next fuel)) b
    (λ o, ∃ oi, M oi ∧ o = limit_rows limit offset oi).
Proof.
  intros Hlim Hs HM. eapply (starts_input (LimitOp.new limit offset)); [exact Hs| |].
  { intros s i c i' c' Hi. unfold with_input, LimitOp.init, mbind, SR_bind, set_state, on_world. by rewrite Hi. }
  intros [l e] b' i c m Ho Hr Hc. destruct (HM _ Ho) as [He Hf]. simpl in He, Hf.
  eexists. split; [by eexists|].
  apply (replies_at_with _ (limiting e (length l))).
  - apply stream_not_nil. unfold limit_rows. simpl. by repeat case_match.
  - clear -He Hf. intros b1 r rs [off lim ex] i c m Hst Hc.
    destruct Hst as [[Hend Hno]|(Hex & Hop & l' & Hl' & Hrs & Hr)].
    + by apply (limit_closed _ b1).
    + cbn [LimitState.exhausted LimitState.remaining LimitState.to_skip] in *. subst ex.
      rewrite limit_opened by done.
      apply (next_loop_Ok fuel e l' (length l)); [done|done|lia|done..|]. by eapply replies_replies_at.
  - intros r rs Hrs. destruct (decide (limit = Some 0)) as [->|Hne].
    + apply (limit_closed _ b'); [by right| |done]. rewrite <- Hrs. by repeat constructor.
    + assert (open_limit limit) as Hop.
      { intros n Hn. specialize (Hlim n Hn). split; [|lia]. destruct (decide (n = 0)) as [->|]; [done|lia]. }
      unfold LimitOp.new. rewrite limit_opened by done.
      by apply (next_loop_Ok fuel e l (length l)).
Qed.

End limit.

(** ** Sort *)
Section sort.
Context (order_bys : list OrderByExpr.t) (fuel : nat).

(** The sort the operator computes, one of those that are allowed. *)
Definition sort_rows (o : outcome) : outcome :=
  match ended o with
  | Done => collected (PhysicalSort.sort_all order_bys (rows o))
  | e => Out [] e
  end.

Lemma sort_rows_sorts limit o : sorts order_bys limit o (sort_rows o).
Proof.
  destruct o as [l []]; [|done..]. unfold sort_rows. cbn [ended rows].
  by destruct (SortFacts.sort_all_sorts order_bys limit l) as [(k & -> & Hk)|(e & -> & Hk)].
Qed.

Lemma sort_rows_ended o : ended o ≠ Crashed → ended (sort_rows o) ≠ Crashed.
Proof.
  destruct o as [l []]; [|done..]. unfold sort_rows. cbn [ended rows]. intros _.
  by destruct (SortFacts.sort_all_sorts order_bys None l) as [(k & -> & _)|(e & -> & _)].
Qed.

Definition sorting (b : nat) (rs : list reply) (s : SortState.t * I) : Prop :=
  (SortState.all_tuples s.1 = [] ∧ nones rs ∧ replies input_next b rs s.2) ∨
  (SortState.all_tuples s.1 ≠ [] ∧ ∃ tl, nones tl ∧
    rs = ((λ t, Ok (Some t)) <$> drop (SortState.cursor s.1) (SortState.all_tuples s.1)) ++ tl).

(** Taking the row at the cursor of what is loaded. *)
Lemma sort_loaded k cursor tl r rs :
  nones tl → r :: rs = ((λ t, Ok (Some t)) <$> drop cursor k) ++ tl →
  r = Ok (k !! cursor) ∧ ∃ tl', nones tl' ∧ rs = ((λ t, Ok (Some t)) <$> drop (S cursor) k) ++ tl'.
Proof.
  intros Htl Hrs. destruct (k !! cursor) as [t|] eqn:Hk.
  - rewrite (drop_S _ _ _ Hk) in Hrs. injection Hrs as -> ->. split; [done|by exists tl].
  - apply lookup_ge_None in Hk. rewrite drop_ge in Hrs by done. simpl in Hrs. subst tl.
    apply Forall_cons in Htl as [-> Htl]. split; [done|]. exists rs. by rewrite drop_ge by lia.
Qed.

Lemma sort_first_Ok l e o r rs i c m :
  e ≠ Crashed → length l < fuel →
  o = collected (match e with Failed error => Err error | _ => PhysicalSort.sort_all order_bys l end) →
  stream o = r :: rs → replies_at Inv input_next (stream (Out l e)) i c m →
  ∃ ss' i' c' b', SortOp.next input_next order_bys fuel (SortState.Mk [] 0, (i, c)) = ((ss', (i', c')), r) ∧
    Inv (b' + m) c' ∧ (rs = [] ∨ sorting b' rs (ss', i')).
Proof.
  intros He Hf -> Hrs Hr. unfold SortOp.next, SortOp.load, mbind, SR_bind, get_state, set_state, modify_state, lift.
  cbn [SortState.all_tuples].
  destruct (drain_Ok Inv input_next fuel l e [] i c m Hf He Hr) as (i' & c' & b' & Hc' & Hd).
  destruct e as [|error|]; [|rewrite (on_world_run _ _ _ _ _ Hd)|done].
  2:{ injection Hrs as <- <-. exists (SortState.Mk [] 0), i', c', b'. by split; [|split; [|left]]. }
  destruct Hd as [Hd Hr']. rewrite (on_world_run _ _ _ _ _ Hd). cbn [app].
  destruct (PhysicalSort.sort_all order_bys l) as [k|error|] eqn:Hk; [|injection Hrs as <- <-|done].
  2:{ exists (SortState.Mk [] 0), i', c', b'. by split; [|split; [|left]]. }
  cbn [SortState.all_tuples SortState.cursor].
  assert (r :: rs = ((λ t, Ok (Some t)) <$> drop 0 k) ++ tail Done) as Hrs2 by (by rewrite drop_0, <- Hrs).
  destruct (sort_loaded k 0 _ r rs nones_tail Hrs2) as [-> (tl' & Htl' & Hrs')].
  exists (SortState.Mk k 1), i', c', b'. split; [done|]. split; [done|]. right.
  destruct k as [|t k].
  - left. simpl in Hrs. injection Hrs as <-. by split; [|split; [repeat constructor|]].
  - right. split; [done|]. by exists tl'.
Qed.

Lemma sort_next_Ok b r rs ss i c m :
  0 < fuel → sorting b (r :: rs) (ss, i) → Inv (b + m) c →
  ∃ ss' i' c' b', SortOp.next input_next order_bys fuel (ss, (i, c)) = ((ss', (i', c')), r) ∧
    Inv (b' + m) c' ∧ (rs = [] ∨ sorting b' rs (ss', i')).
Proof.
  intros Hf Hs Hc. unfold SortOp.next, SortOp.load, mbind, SR_bind, get_state, set_state, modify_state, lift.
  destruct Hs as [(Hall & Hno & Hr)|(Hall & tl & Htl & Hrs)]; cbn [fst snd] in *.
  - rewrite Hall. apply Forall_cons in Hno as [-> Hno].
    destruct (Hr c m Hc) as (i' & c' & b' & Hn & Hc' & Hr').
    destruct fuel as [|fuel']; [lia|]. cbn [drain]. unfold on_world, mbind, SR_bind. rewrite Hn.
    cbn beta iota. exists (SortState.Mk [] (S (SortState.cursor ss))), i', c', b'.
    split; [done|]. split; [done|]. right. left. by split.
  - destruct ss as [k cursor]. cbn [SortState.all_tuples SortState.cursor] in *.
    destruct (sort_loaded k cursor tl r rs Htl Hrs) as [-> (tl' & Htl' & Hrs')].
    exists (SortState.Mk k (S cursor)), i, c, b. split; [by destruct k|]. split; [done|].
    right. right. split; [done|]. by exists tl'.
Qed.

(** The rows of the input are loaded at the first call. *)
Lemma sort_starts (input_init : SR (I * C) unit) b M :
  starts Inv input_init input_next b M →
  (∀ o, M o → ended o ≠ Crashed ∧ length (rows o) < fuel) →
  starts Inv (with_input (SortOp.init input_init)) (with_input (SortOp.next input_next order_bys fuel)) b
    (λ o, ∃ oi, M oi ∧ o = sort_rows oi).
Proof.
  intros Hs HM. eapply (starts_input (SortState.Mk [] 0)); [exact Hs| |].
  { intros s i c i' c' Hi. unfold with_input, SortOp.init, mbind, SR_bind, set_state, on_world. by rewrite Hi. }
  intros [l e] b' i c m Ho Hr Hc. destruct (HM _ Ho) as [He Hf]. simpl in He, Hf.
  exists (sort_rows (Out l e)). split; [by exists (Out l e)|].
  apply (replies_at_with _ sorting); [by apply stream_not_nil, sort_rows_ended| |].
  - intros. apply (sort_next_Ok b0); [lia|done..].
  - intros r rs Hrs. apply (sort_first_Ok l e (sort_rows (Out l e))); try done. by destruct e.
Qed.

End sort.

End input.
End PipelineFacts.
