(* ===== verification/Grouping.v ===== *)
(** * Grouping: the groups of an aggregation

    [PhysicalAggregate.accumulate] on the rows of a chunk, and the merge of its groups
    into those of the rows before: the accumulators of each key summarize the rows with
    that key, in any order of the hash maps. *)
From S2P Require Import Prelude CommonCodec Floats Scalar Schema Expressions LogicalPlan Operators.
From S2P Require Import Meaning.
Local Open Scope Z_scope.

Module GroupingFacts.
Import PhysicalAggregate.

(** ** Groups as a map *)
Lemma get_put key accs groups key' :
  get key' (put key accs groups) = if decide (key' = key) then Some accs else get key' groups.
Proof.
  unfold get. induction groups as [|[k a] groups IH]; simpl.
  - case_bool_decide; destruct (decide _); naive_solver.
  - case_bool_decide as Hk; simpl.
    + subst k. case_bool_decide; destruct (decide _); naive_solver.
    + case_bool_decide as Hk'; simpl; [|done]. subst k. by rewrite decide_False.
Qed.

Lemma put_keys key accs groups :
  (put key accs groups).*1 = groups.*1 ∧ key ∈ groups.*1 ∨
  (put key accs groups).*1 = groups.*1 ++ [key] ∧ key ∉ groups.*1.
Proof.
  induction groups as [|[k a] groups IH]; simpl; [right; split; [done|apply not_elem_of_nil]|].
  case_bool_decide as Hk; [subst; left; split; [done|by left]|].
  rewrite fmap_cons. destruct IH as [[-> Hin]|[-> Hin]]; [left|right]; (split; [done|]); set_solver.
Qed.

Lemma put_NoDup key accs groups : NoDup groups.*1 → NoDup (put key accs groups).*1.
Proof.
  intros Hnd. destruct (put_keys key accs groups) as [[-> _]|[-> Hin]]; [done|].
  apply NoDup_app. split; [done|]. split; [|apply NoDup_singleton]. set_solver.
Qed.

Lemma get_None key groups : get key groups = None ↔ key ∉ groups.*1.
Proof.
  unfold get. induction groups as [|[k a] groups IH]; simpl; [split; [set_solver|done]|].
  case_bool_decide as Hk; simpl; [subst; set_solver|]. rewrite IH. set_solver.
Qed.

Lemma get_Some key accs groups : NoDup groups.*1 → get key groups = Some accs ↔ (key, accs) ∈ groups.
Proof.
  unfold get. induction groups as [|[k a] groups IH]; simpl; [set_solver|].
  rewrite NoDup_cons. intros [Hk Hnd]. case_bool_decide as Hd; simpl.
  - subst k. rewrite elem_of_cons. split; [intros [= ->]; by left|]. intros [[= ->]|Hin]; [done|].
    destruct Hk. apply list_elem_of_fmap. by exists (key, accs).
  - rewrite (IH Hnd), elem_of_cons. naive_solver.
Qed.

Section grouping.
Context (group_exprs aggr_exprs : list Expr.t).
Notation key_of := (key_of group_exprs).
Notation in_group := (in_group group_exprs).
Notation rows_of key l := (List.filter (in_group key) l).

(** A row whose key and values are evaluated. *)
Definition row_ok (t : Tuple.t) : bool := is_ok (key_of t) && forallb (λ e, takes e t) aggr_exprs.

(** The groups of the rows [l], and of the keys of [base]. *)
Definition grouped (base : list (list ScalarValue.t)) (l : list Tuple.t) (groups : Groups) : Prop :=
  NoDup groups.*1 ∧
  ∀ key, match get key groups with
         | Some accs => Forall2 (accumulated (rows_of key l)) aggr_exprs accs
         | None => key ∉ base ∧ ∀ t, t ∈ l → key_of t ≠ Ok key
         end ∧
         (is_Some (get key groups) → (∃ t, t ∈ l ∧ key_of t = Ok key) ∨ key ∈ base).

Lemma rows_of_none key l : (∀ t, t ∈ l → key_of t ≠ Ok key) → rows_of key l = [].
Proof.
  induction l as [|t l IH]; [done|]. intros H. simpl. unfold in_group at 1.
  rewrite bool_decide_eq_false_2 by (apply H; by left). apply IH. intros; apply H; by right.
Qed.

(** Evaluation of one aggregate call. *)
Lemma accumulated_nil e kind args :
  e = Expr.AggregateFunction kind args false → accumulated [] e (Accumulator.create kind).
Proof. intros ->. exists kind, args, []. split; [done|]. split; [done|]. apply AccumulatorFacts.summary_create. Qed.

Lemma accumulated_snoc rs t e acc :
  accumulated rs e acc → takes e t = true → Z.of_nat (length (rs ++ [t])) < 2 ^ 63 →
  ∃ acc', (value ← Expr.evaluate e t; Accumulator.update_value acc value) = Ok acc' ∧
    accumulated (rs ++ [t]) e acc'.
Proof.
  intros (kind & args & vs & -> & Hvs & Hs) Ht Hlen. unfold takes in Ht.
  destruct (Expr.evaluate _ t) as [v| |] eqn:Hv; [|done..]. pose proof (mapR_length _ _ _ Hvs) as Hl.
  destruct (AccumulatorFacts.summary_update kind vs acc v Hs) as (acc' & Hu & Hs').
  - unfold AccumulatorFacts.accepted, AccumulatorFacts.nonnull. destruct kind; [done|]. intros Hn.
    by destruct (ScalarValue.is_null v).
  - rewrite length_app in *. simpl in *. lia.
  - exists acc'. split; [done|]. exists kind, args, (vs ++ [v]). split; [done|]. split; [|done].
    apply AccumulatorFacts.mapR_app; [done|]. cbn [mapR]. by rewrite Hv.
Qed.

Lemma accumulated_fails rs t e acc :
  accumulated rs e acc → takes e t = false →
  ∃ error, (value ← Expr.evaluate e t; Accumulator.update_value acc value) = Err error.
Proof.
  intros (kind & args & vs & -> & Hvs & Hs) Ht. unfold takes in Ht.
  pose proof (ExpressionFacts.evaluate_not_Panic (Expr.AggregateFunction kind args false) t) as Hp.
  destruct (Expr.evaluate _ t) as [v|error|]; [|by eexists|done].
  destruct kind; [done|]. apply orb_false_iff in Ht as [Hn Hf].
  destruct Hs as (fs & sum & _ & -> & _). simpl. unfold Accumulator.avg_update_value. rewrite Hn.
  unfold AccumulatorFacts.to_f64 in Hf. pose proof (ExpressionFacts.cast_to_not_Panic v DataType.Float64).
  destruct (ScalarValue.cast_to v DataType.Float64) as [w|error|]; [|by eexists|done].
  cbn [mbind result_bind] in *. destruct w as [| | | | | | | | | |[]|]; try done; by eexists.
Qed.

(** All the calls on a row. *)
Lemma update_all_Ok rs t es accs :
  Forall2 (accumulated rs) es accs → Z.of_nat (length (rs ++ [t])) < 2 ^ 63 →
  (forallb (λ e, takes e t) es = true ∧
   ∃ accs', update_all es t accs = Ok accs' ∧ Forall2 (accumulated (rs ++ [t])) es accs') ∨
  (forallb (λ e, takes e t) es = false ∧ ∃ error, update_all es t accs = Err error).
Proof.
  intros Ha Hlen. induction Ha as [|e acc es accs Hacc _ IH]; [left; split; [done|by exists []]|].
  cbn [forallb update_all]. destruct (takes e t) eqn:Ht.
  - destruct (accumulated_snoc rs t e acc Hacc Ht Hlen) as (acc' & Hu & Hacc').
    destruct (Expr.evaluate e t) as [v| |]; [|done..]. cbn [mbind result_bind] in *. rewrite Hu.
    cbn [mbind result_bind]. destruct IH as [(Hf & accs' & -> & Hs)|(Hf & error & ->)]; rewrite Hf.
    + left. split; [done|]. eexists. split; [done|]. by constructor.
    + right. split; [done|]. by exists error.
  - right. split; [done|]. destruct (accumulated_fails rs t e acc Hacc Ht) as [error Hu].
    exists error. destruct (Expr.evaluate e t) as [v| |]; [|by injection Hu as ->|done].
    cbn [mbind result_bind] in *. by rewrite Hu.
Qed.

Lemma build_Ok t :
  forallb (λ e, takes e t) aggr_exprs = true →
  ∃ accs, build_accumulators aggr_exprs = Ok accs ∧ Forall2 (accumulated []) aggr_exprs accs.
Proof.
  unfold build_accumulators. induction aggr_exprs as [|e es IH]; [by exists []|].
  cbn [forallb]. intros [Ht Hts]%andb_true_iff. destruct (IH Hts) as (accs & Hb & Ha). unfold takes in Ht.
  destruct e as [| | | | |kind args []]; try done. exists (Accumulator.create kind :: accs).
  cbn [mapR]. rewrite Hb. split; [done|]. constructor; [by apply (accumulated_nil _ kind args)|done].
Qed.

(** Without accumulators for a new key, an unusable call is an error either way. *)
Lemma build_result :
  (∃ accs, build_accumulators aggr_exprs = Ok accs ∧ Forall2 (accumulated []) aggr_exprs accs) ∨
  ∃ error, build_accumulators aggr_exprs = Err error.
Proof.
  unfold build_accumulators. induction aggr_exprs as [|e es IH]; [left; by exists []|].
  cbn [mapR]. destruct e as [| | | | |kind args []]; try (right; by eexists).
  destruct IH as [(accs & -> & Ha)|[error ->]]; [left|right; by exists error].
  exists (Accumulator.create kind :: accs). split; [done|].
  constructor; [by apply (accumulated_nil _ kind args)|done].
Qed.

(** ** One row *)
Lemma accumulate_row_Ok base l groups t :
  grouped base l groups → Z.of_nat (length (l ++ [t])) < 2 ^ 63 →
  (row_ok t = true ∧ ∃ groups', accumulate_row group_exprs aggr_exprs groups t = Ok groups' ∧
     grouped base (l ++ [t]) groups') ∨
  (row_ok t = false ∧ ∃ error, accumulate_row group_exprs aggr_exprs groups t = Err error).
Proof.
  intros [Hnd Hg] Hlen. unfold row_ok, accumulate_row. fold (key_of t).
  pose proof (λ x, ExpressionFacts.evaluate_not_Panic x t) as Hp.
  destruct (key_of t) as [key|error|] eqn:Hk.
  2:{ right. split; [done|by exists error]. }
  2:{ exfalso. unfold Meaning.key_of in Hk. clear Hg. revert Hk. induction group_exprs as [|e es IH]; [done|].
      simpl. specialize (Hp e). destruct (Expr.evaluate e t); [|done|done]. simpl.
      destruct (mapR _ es); [done|done|]. auto. }
  cbn [mbind result_bind is_ok andb].
  assert (∀ k, rows_of k (l ++ [t]) = rows_of k l ++ (if decide (k = key) then [t] else [])) as Hrows.
  { intros k. rewrite List.filter_app. f_equal. simpl. unfold in_group. rewrite Hk.
    destruct (decide _) as [->|]; [by rewrite bool_decide_eq_true_2|].
    rewrite bool_decide_eq_false_2; [done|]. by intros [= ->]. }
  assert ((∃ accs, match get key groups with Some accs => Ok accs | None => build_accumulators aggr_exprs end
      = Ok accs ∧ Forall2 (accumulated (rows_of key l)) aggr_exprs accs) ∨
    (∃ error, match get key groups with Some accs => Ok accs | None => build_accumulators aggr_exprs end
      = Err error ∧ forallb (λ e, takes e t) aggr_exprs = false)) as [(accs & -> & Ha)|(error & -> & Hf)].
  { destruct (Hg key) as [Hkey _]. destruct (get key groups) as [accs|]; [left; by exists accs|].
    destruct Hkey as [_ Hno]. rewrite (rows_of_none key l Hno).
    destruct build_result as [(accs & Hb & Ha)|[error Hb]]; [left; by exists accs|right].
    exists error. split; [done|]. destruct (forallb _ _) eqn:Hf; [|done].
    destruct (build_Ok t Hf) as (accs & Hb' & _). congruence. }
  2:{ right. rewrite Hf. split; [done|by exists error]. }
  cbn [mbind result_bind].
  destruct (update_all_Ok (rows_of key l) t aggr_exprs accs Ha)
    as [(Hf & accs' & -> & Ha')|(Hf & error & ->)]; [| |right; split; [done|by exists error]].
  { pose proof (List.filter_length_le (in_group key) l). rewrite length_app in *. lia. }
  left. split; [done|]. eexists. split; [done|]. split; [by apply put_NoDup|].
  intros k. rewrite get_put, Hrows. destruct (decide (k = key)) as [->|Hne].
  - split; [done|]. intros _. left. exists t. split; [set_solver|done].
  - rewrite app_nil_r. destruct (Hg k) as [Hk1 Hk2]. split.
    + destruct (get k groups); [done|]. destruct Hk1 as [Hb Hno]. split; [done|].
      intros t' [Ht'| ->%list_elem_of_singleton]%elem_of_app; [by apply Hno|]. rewrite Hk. by intros [= ->].
    + intros [(t' & Ht' & ?)|?]%Hk2; [left; exists t'; split; [set_solver|done]|by right].
Qed.

(** ** The rows of a chunk *)
Lemma accumulate_rows base l groups k :
  grouped base l groups → Z.of_nat (length (l ++ k)) < 2 ^ 63 →
  (forallb row_ok k = true ∧ ∃ groups', foldR (accumulate_row group_exprs aggr_exprs) groups k = Ok groups' ∧
     grouped base (l ++ k) groups') ∨
  (forallb row_ok k = false ∧ ∃ error, foldR (accumulate_row group_exprs aggr_exprs) groups k = Err error).
Proof.
  revert l groups. induction k as [|t k IH]; intros l groups Hg Hlen.
  { left. split; [done|]. exists groups. by rewrite app_nil_r. }
  change (t :: k) with ([t] ++ k) in *. rewrite (assoc_L (++)) in *. cbn [forallb foldR app].
  destruct (accumulate_row_Ok base l groups t Hg) as [(-> & g1 & -> & Hg1)|(-> & error & ->)].
  - rewrite !length_app in *. lia.
  - cbn [mbind result_bind andb]. by apply IH.
  - right. split; [done|by exists error].
Qed.

Lemma accumulate_chunk k :
  Z.of_nat (length k) < 2 ^ 63 →
  (forallb row_ok k = true ∧ ∃ groups, accumulate group_exprs aggr_exprs k = Ok groups ∧ grouped [] k groups) ∨
  (forallb row_ok k = false ∧ ∃ error, accumulate group_exprs aggr_exprs k = Err error).
Proof.
  intros Hlen. apply (accumulate_rows [] [] []); [|done].
  split; [constructor|]. intros key. simpl. split; [set_solver|]. by intros [].
Qed.

(** ** Merging *)
Lemma merge_all_Ok rs1 rs2 es accs1 accs2 :
  Forall2 (accumulated rs1) es accs1 → Forall2 (accumulated rs2) es accs2 →
  Z.of_nat (length (rs1 ++ rs2)) < 2 ^ 63 →
  ∃ accs, merge_all accs1 accs2 = Ok accs ∧ Forall2 (accumulated (rs1 ++ rs2)) es accs.
Proof.
  intros H1 H2 Hlen. revert accs2 H2. induction H1 as [|e acc1 es accs1 Ha1 _ IH]; intros accs2 H2.
  { inversion H2. by exists []. }
  inversion H2 as [|? acc2 ? accs2' Ha2 H2']; subst. destruct (IH accs2' H2') as (accs & Hm & Ha).
  destruct Ha1 as (kind & args & vs & -> & Hvs & Hs), Ha2 as (kind' & args' & ws & [= <- <-] & Hws & Hs').
  pose proof (mapR_length _ _ _ Hvs). pose proof (mapR_length _ _ _ Hws).
  destruct (AccumulatorFacts.summary_merge kind vs ws acc1 acc2 Hs Hs') as (acc & Hmg & Hs2).
  { rewrite !length_app in *. lia. }
  exists (acc :: accs). cbn [merge_all]. rewrite Hmg. cbn [mbind result_bind]. rewrite Hm.
  split; [done|]. constructor; [|done]. exists kind, args, (vs ++ ws). split; [done|]. split; [|done].
  by apply AccumulatorFacts.mapR_app.
Qed.

(** After the entries [seen], their keys have the rows of both. *)
Definition merging (l k : list Tuple.t) (groups seen groups1 : Groups) : Prop :=
  NoDup groups1.*1 ∧
  ∀ key, if decide (key ∈ seen.*1)
         then ∃ accs, get key groups1 = Some accs ∧ Forall2 (accumulated (rows_of key (l ++ k))) aggr_exprs accs
         else get key groups1 = get key groups.

Lemma merge_group_Ok base l k groups partial seen groups1 key accs :
  grouped base l groups → grouped [] k partial → (key, accs) ∈ partial →
  Z.of_nat (length (l ++ k)) < 2 ^ 63 → key ∉ seen.*1 → merging l k groups seen groups1 →
  ∃ groups', merge_group groups1 (key, accs) = Ok groups' ∧ merging l k groups (seen ++ [(key, accs)]) groups'.
Proof.
  intros [Hnd Hg] [Hndp Hp] Hin Hlen Hnew [Hnd1 Hinv].
  assert (Forall2 (accumulated (rows_of key k)) aggr_exprs accs) as Haccs.
  { destruct (Hp key) as [Hkey _]. by rewrite (proj2 (get_Some key accs partial Hndp)) in Hkey. }
  assert (∃ accs', merge_group groups1 (key, accs) = Ok (put key accs' groups1) ∧
    Forall2 (accumulated (rows_of key (l ++ k))) aggr_exprs accs') as (accs' & Hm & Ha').
  { specialize (Hinv key). rewrite decide_False in Hinv by done. unfold merge_group. rewrite Hinv, List.filter_app.
    destruct (Hg key) as [Hkey _]. destruct (get key groups) as [target|].
    - destruct (merge_all_Ok _ _ _ _ _ Hkey Haccs) as (accs' & -> & Ha'); [|by exists accs'].
      pose proof (List.filter_length_le (in_group key) l). pose proof (List.filter_length_le (in_group key) k).
      rewrite length_app in *. lia.
    - exists accs. split; [done|]. destruct Hkey as [_ Hno]. by rewrite (rows_of_none key l Hno). }
  eexists. split; [exact Hm|]. split; [by apply put_NoDup|].
  intros key'. specialize (Hinv key'). rewrite get_put, fmap_app. cbn [fmap list_fmap fst].
  destruct (decide (key' = key)) as [->|Hne].
  - rewrite decide_True by set_solver. by exists accs'.
  - destruct (decide (key' ∈ seen.*1)); [rewrite decide_True by set_solver; done|].
    rewrite decide_False by set_solver. done.
Qed.

Lemma merge_groups base l k groups partial order :
  grouped base l groups → grouped [] k partial → order ≡ₚ partial → Z.of_nat (length (l ++ k)) < 2 ^ 63 →
  ∃ groups', foldR merge_group groups order = Ok groups' ∧ grouped base (l ++ k) groups'.
Proof.
  intros Hg Hp Hord Hlen.
  assert (∀ todo seen groups1, order = seen ++ todo → merging l k groups seen groups1 →
    ∃ groups', foldR merge_group groups1 todo = Ok groups' ∧ merging l k groups order groups') as Hloop.
  { assert (NoDup order.*1) as Hndo by (rewrite Hord; apply Hp).
    induction todo as [|[key accs] todo IH]; intros seen groups1 Heq Hinv.
    { exists groups1. split; [done|]. by rewrite Heq, app_nil_r. }
    destruct (merge_group_Ok base l k groups partial seen groups1 key accs) as (g2 & Hm & Hinv2); [done..| |done| |done|].
    - rewrite <- Hord, Heq. set_solver.
    - rewrite Heq, fmap_app in Hndo. apply NoDup_app in Hndo as (_ & Hd & _). intros Hin.
      apply (Hd key Hin). by left.
    - cbn [foldR]. rewrite Hm. cbn [mbind result_bind]. apply (IH (seen ++ [(key, accs)])); [|done].
      by rewrite <- (assoc_L (++)). }
  destruct (Hloop order [] groups eq_refl) as (groups' & Hm & Hnd' & Hinv).
  { split; [apply Hg|]. intros key. by rewrite decide_False by (apply not_elem_of_nil). }
  exists groups'. split; [done|]. split; [done|]. intros key. specialize (Hinv key).
  destruct Hg as [Hnd Hg], Hp as [Hndp Hp]. destruct (Hg key) as [Hk1 Hk2], (Hp key) as [Hp1 Hp2].
  assert (key ∈ order.*1 ↔ key ∈ partial.*1) as Hko by (by rewrite Hord).
  destruct (decide (key ∈ order.*1)) as [Hin%Hko|Hnin]; [|rewrite Hko in Hnin].
  - destruct Hinv as (accs & -> & Ha). split; [done|]. intros _. left.
    destruct Hp2 as [(t & Ht & Hkt)|Hb]; [|exists t; split; [set_solver|done]|by apply not_elem_of_nil in Hb].
    destruct (get key partial) eqn:E; [by eexists|]. by apply get_None in E.
  - apply get_None in Hnin. rewrite Hnin in Hp1. destruct Hp1 as [_ Hno]. rewrite Hinv.
    rewrite List.filter_app, (rows_of_none key k Hno), app_nil_r. split.
    + destruct (get key groups); [done|]. destruct Hk1 as [Hb Hno1]. split; [done|].
      intros t [Ht|Ht]%elem_of_app; [by apply Hno1|by apply Hno].
    + intros [(t & Ht & ?)|?]%Hk2; [left; exists t; split; [set_solver|done]|by right].
Qed.

(** The groups of all the rows are what [Meaning] asks for. *)
Lemma grouped_aggregated l groups order :
  grouped (if decide (group_exprs = []) then [[]] else []) l groups → order ≡ₚ groups →
  aggregated group_exprs aggr_exprs l order.
Proof.
  intros [Hnd Hg] Hord. unfold aggregated. split_and!.
  - by rewrite Hord.
  - intros key. rewrite Hord. destruct (Hg key) as [H1 H2]. split.
    + intros Hin. destruct (get key groups) eqn:E; [|by apply get_None in E].
      destruct H2 as [?|Hb]; [done|by left|right]. destruct (decide _); set_solver.
    + intros Hk. destruct (get key groups) as [accs|] eqn:E.
      * apply get_Some in E; [|done]. apply list_elem_of_fmap. by exists (key, accs).
      * destruct H1 as [Hb Hno], Hk as [(t & Ht & Hk)|[-> ->]]; [by destruct (Hno t Ht)|].
        rewrite decide_True in Hb by done. set_solver.
  - rewrite Hord. apply Forall_forall. intros [key accs] Hin%get_Some; [|done].
    destruct (Hg key) as [H1 _]. by rewrite Hin in H1.
Qed.

Lemma grouped_start :
  (∃ groups : Groups, (match group_exprs with
     | [] => accs ← build_accumulators aggr_exprs; Ok [([] : list ScalarValue.t, accs)]
     | _ => Ok []
     end) = Ok groups ∧ grouped (if decide (group_exprs = []) then [[]] else []) [] groups) ∨
  (∃ error, (match group_exprs with
     | [] => accs ← build_accumulators aggr_exprs; Ok [([] : list ScalarValue.t, accs)]
     | _ => Ok []
     end) = Err error) ∧ ∀ l, aggregable group_exprs aggr_exprs l = false.
Proof.
  unfold aggregable. destruct group_exprs as [|e es] eqn:Hge.
  - destruct build_result as [(accs & -> & Ha)|[error ->]]; [left|right; split; [by eexists|done]].
    exists [([], accs)]. split; [done|]. split; [apply NoDup_singleton|]. intros key.
    unfold get. simpl. case_bool_decide as Hk; simpl.
    + subst key. split; [done|]. intros _. right. set_solver.
    + split; [|by intros []]. split; [set_solver|]. intros t Ht. by apply not_elem_of_nil in Ht.
  - left. exists []. split; [done|]. split; [constructor|]. intros key. simpl. split; [|by intros []].
    split; [apply not_elem_of_nil|]. intros t Ht. by apply not_elem_of_nil in Ht.
Qed.

End grouping.
End GroupingFacts.
