(* ===== verification/Aggregation.v ===== *)
(** * Aggregation: the answers of the aggregate operator

    The input is read in batches, each batch is accumulated in chunks by the workers
    and merged into the groups, and the rows of the groups are answered, whatever the
    order of the hash maps. *)
From S2P Require Import Prelude CommonCodec Floats Scalar Schema Expressions LogicalPlan Operators.
From S2P Require Import Meaning Execution Streams Pipeline Grouping.
Local Open Scope nat_scope.

Module AggregationFacts.
Import Streams StreamFacts PipelineFacts GroupingFacts PhysicalAggregate.

Section aggregate.
Context {C I : Type} (Inv : nat → C → Prop).
Context (spawn : SR (I * C) (option nat)) (iteration : SR (I * C) (Groups → Groups)).
Context (input_next : SR (I * C) (option Tuple.t)).
Context (spawn_ok : ∀ i c n, Inv n c → ∃ c', spawn (i, c) = ((i, c'), Ok None) ∧ Inv n c').
Context (iteration_ok : ∀ i c n, Inv n c → ∃ c' order, iteration (i, c) = ((i, c'), Ok order) ∧ Inv n c' ∧
  ∀ groups, order groups ≡ₚ groups).
Context (group_exprs aggr_exprs : list Expr.t) (schema : Schema.t) (parallelism fuel : nat).
Context (workers : 0 < parallelism).
Notation replies := (replies Inv).
Notation row_ok := (row_ok group_exprs aggr_exprs).
Notation grouped := (grouped group_exprs aggr_exprs).
Notation accumulate := (accumulate group_exprs aggr_exprs).

(** *** A batch *)
Lemma next_batch_Ok n l e batch b i c m :
  e ≠ Crashed → replies input_next b (stream (Out l e)) i → Inv (b + m) c →
  ∃ i' c' b', Inv (b' + m) c' ∧
    if n <=? length l
    then AggregateOp.next_batch input_next n batch (i, c) = ((i', c'), Ok (batch ++ take n l)) ∧
         replies input_next b' (stream (Out (drop n l) e)) i'
    else match e with
         | Failed error => AggregateOp.next_batch input_next n batch (i, c) = ((i', c'), Err error)
         | _ => AggregateOp.next_batch input_next n batch (i, c) = ((i', c'), Ok (batch ++ l)) ∧
                replies input_next b' [Ok None] i'
         end.
Proof.
  intros He. revert l batch b i c. induction n as [|n IH]; intros l batch b i c Hr Hc.
  { exists i, c, b. split; [done|]. split; [by rewrite app_nil_r|done]. }
  cbn [AggregateOp.next_batch]. unfold mbind, SR_bind. destruct l as [|t l].
  - cbn [Nat.leb length]. rewrite app_nil_r. destruct e; [| |done];
      destruct (Hr c m Hc) as (i' & c' & b' & Hn & Hc' & Hr'); exists i', c', b'; (split; [done|]); by rewrite Hn.
  - rewrite stream_cons in Hr. destruct (Hr c m Hc) as (i1 & c1 & b1 & Hn & Hc1 & Hr1).
    destruct (IH l (batch ++ [t]) b1 i1 c1 Hr1 Hc1) as (i' & c' & b' & Hc' & H).
    exists i', c', b'. split; [done|]. cbn [length Nat.leb take drop]. rewrite Hn. cbn beta iota.
    assert (∀ x, batch ++ t :: x = (batch ++ [t]) ++ x) as E by (intros; by rewrite <- (assoc_L (++))).
    destruct (n <=? length l); [by rewrite (E (take n l))|rewrite (E l)]. by destruct e.
Qed.

Lemma next_batch_first n l e i c m :
  e ≠ Crashed → replies_at Inv input_next (stream (Out l e)) i c m →
  ∃ i' c' b', Inv (b' + m) c' ∧
    if S n <=? length l
    then AggregateOp.next_batch input_next (S n) [] (i, c) = ((i', c'), Ok (take (S n) l)) ∧
         replies input_next b' (stream (Out (drop (S n) l) e)) i'
    else match e with
         | Failed error => AggregateOp.next_batch input_next (S n) [] (i, c) = ((i', c'), Err error)
         | _ => AggregateOp.next_batch input_next (S n) [] (i, c) = ((i', c'), Ok l) ∧
                replies input_next b' [Ok None] i'
         end.
Proof.
  intros He Hr. cbn [AggregateOp.next_batch]. unfold mbind, SR_bind. destruct l as [|t l].
  - cbn [Nat.leb length]. destruct e; [| |done]; destruct Hr as (i' & c' & b' & Hn & Hc' & Hr');
      exists i', c', b'; (split; [done|]); by rewrite Hn.
  - rewrite stream_cons in Hr. destruct Hr as (i1 & c1 & b1 & Hn & Hc1 & Hr1).
    destruct (next_batch_Ok n l e [t] b1 i1 c1 m He Hr1 Hc1) as (i' & c' & b' & Hc' & H).
    exists i', c', b'. split; [done|]. cbn [length Nat.leb take drop]. by rewrite Hn.
Qed.

(** *** Merging the chunks of a batch *)
Lemma merge_partials_Ok base parts l groups i c n :
  grouped base l groups → Inv n c → (Z.of_nat (length (l ++ concat parts)) < 2 ^ 63)%Z →
  ∃ c', Inv n c' ∧
    ((forallb row_ok (concat parts) = true ∧ ∃ groups',
        foldS (AggregateOp.merge_partial iteration) groups (accumulate <$> parts) (i, c) = ((i, c'), Ok groups') ∧
        grouped base (l ++ concat parts) groups') ∨
     (forallb row_ok (concat parts) = false ∧ ∃ error,
        foldS (AggregateOp.merge_partial iteration) groups (accumulate <$> parts) (i, c) = ((i, c'), Err error))).
Proof.
  revert l groups c. induction parts as [|part parts IH]; intros l groups c Hg Hc Hlen.
  { exists c. split; [done|]. left. split; [done|]. exists groups. cbn [concat]. by rewrite app_nil_r. }
  cbn [concat] in *. rewrite (assoc_L (++)) in *. rewrite fmap_cons. cbn [foldS].
  unfold mbind at 1 2, SR_bind at 1 2, AggregateOp.merge_partial at 1 3, lift, mbind, SR_bind.
  rewrite forallb_app.
  destruct (accumulate_chunk group_exprs aggr_exprs part) as [(-> & partial & -> & Hp)|(-> & error & ->)].
  { rewrite !length_app in Hlen. lia. }
  2:{ exists c. split; [done|]. right. split; [done|by exists error]. }
  destruct (iteration_ok i c n Hc) as (c1 & order & Hit & Hc1 & Hord). rewrite Hit. cbn beta iota.
  destruct (merge_groups group_exprs aggr_exprs base l part groups partial (order partial) Hg Hp (Hord partial))
    as (groups1 & -> & Hg1).
  { rewrite !length_app in *. lia. }
  cbn beta iota. cbn [andb]. by apply IH.
Qed.

(** *** The loop over the batches *)
Lemma aggregate_loop_end fuel' groups b i c m :
  0 < fuel' → replies input_next b [Ok None] i → Inv (b + m) c →
  ∃ i' c' b', AggregateOp.aggregate_loop spawn iteration input_next group_exprs aggr_exprs parallelism
    fuel' groups (i, c) = ((i', c'), Ok groups) ∧ Inv (b' + m) c'.
Proof.
  intros Hf Hr Hc. destruct (Hr c m Hc) as (i' & c' & b' & Hn & Hc' & _). exists i', c', b'. split; [|done].
  destruct fuel' as [|fuel']; [lia|]. cbn [AggregateOp.aggregate_loop].
  assert (AggregateOp.next_batch input_next BATCH_SIZE [] (i, c) = ((i', c'), Ok [])) as Hb.
  { destruct BATCH_SIZE eqn:E; [unfold BATCH_SIZE in E; lia|]. cbn [AggregateOp.next_batch].
    unfold mbind, SR_bind. by rewrite Hn. }
  unfold mbind, SR_bind. by rewrite Hb.
Qed.

(** The merge of one batch that is not empty. *)
Lemma aggregate_round fuel' groups batch i c i1 c1 n base l0 :
  AggregateOp.next_batch input_next BATCH_SIZE [] (i, c) = ((i1, c1), Ok batch) → batch ≠ [] →
  Inv n c1 → grouped base l0 groups → (Z.of_nat (length (l0 ++ batch)) < 2 ^ 63)%Z →
  ∃ c2, Inv n c2 ∧
    ((forallb row_ok batch = true ∧ ∃ groups', grouped base (l0 ++ batch) groups' ∧
       AggregateOp.aggregate_loop spawn iteration input_next group_exprs aggr_exprs parallelism
         (S fuel') groups (i, c)
       = AggregateOp.aggregate_loop spawn iteration input_next group_exprs aggr_exprs parallelism
         fuel' groups' (i1, c2)) ∨
     (forallb row_ok batch = false ∧ ∃ error,
       AggregateOp.aggregate_loop spawn iteration input_next group_exprs aggr_exprs parallelism
         (S fuel') groups (i, c) = ((i1, c2), Err error))).
Proof.
  intros Hb Hne Hc1 Hg Hlen. destruct (spawn_ok i1 c1 n Hc1) as (c2 & Hsp & Hc2).
  set (parts := chunks (div_ceil (length batch) parallelism) batch).
  assert (concat parts = batch) as Hparts.
  { apply chunks_concat. unfold div_ceil. apply Nat.div_str_pos. destruct batch; [done|]. cbn [length]. lia. }
  assert (ordered_map None parts parallelism accumulate = Ok (accumulate <$> parts)) as Hmap.
  { apply ordered_map_Ok. intros part Hin.
    assert (Z.of_nat (length part) < 2 ^ 63)%Z as Hpl.
    { rewrite length_app, <- Hparts in Hlen. apply list_elem_of_split in Hin as (p1 & p2 & Hin).
      rewrite Hin, concat_app, length_app in Hlen. cbn [concat] in Hlen. rewrite length_app in Hlen. lia. }
    by destruct (accumulate_chunk group_exprs aggr_exprs part Hpl) as [(_ & ? & -> & _)|(_ & ? & ->)]. }
  destruct (merge_partials_Ok base parts l0 groups i1 c2 n Hg Hc2) as (c3 & Hc3 & Hm); [by rewrite Hparts|].
  exists c3. split; [done|]. rewrite Hparts in Hm.
  assert (∀ r, foldS (AggregateOp.merge_partial iteration) groups (accumulate <$> parts) (i1, c2) = ((i1, c3), r) →
    AggregateOp.aggregate_loop spawn iteration input_next group_exprs aggr_exprs parallelism
      (S fuel') groups (i, c)
    = match r with
      | Ok groups' => AggregateOp.aggregate_loop spawn iteration input_next group_exprs aggr_exprs
          parallelism fuel' groups' (i1, c3)
      | Err error => ((i1, c3), Err error)
      | Panic => ((i1, c3), Panic)
      end) as Hloop.
  { intros r Hr. cbn [AggregateOp.aggregate_loop]. unfold mbind, SR_bind. rewrite Hb. cbn beta iota.
    destruct batch as [|t batch']; [done|]. rewrite Hsp. cbn beta iota. unfold lift at 1.
    fold parts. rewrite Hmap. cbn beta iota. rewrite Hr. by destruct r. }
  destruct Hm as [(Hok & groups' & Hf & Hg')|(Hok & error & Hf)]; [left|right]; (split; [done|]).
  - exists groups'. split; [done|]. exact (Hloop _ Hf).
  - exists error. exact (Hloop _ Hf).
Qed.

Lemma aggregate_loop_Ok fuel' base l0 groups l e i c m :
  e ≠ Crashed → length l + 2 ≤ fuel' → grouped base l0 groups →
  (Z.of_nat (length (l0 ++ l)) < 2 ^ 63)%Z → replies_at Inv input_next (stream (Out l e)) i c m →
  ∃ i' c' b', Inv (b' + m) c' ∧
    ((e = Done ∧ forallb row_ok l = true ∧ ∃ groups', grouped base (l0 ++ l) groups' ∧
       AggregateOp.aggregate_loop spawn iteration input_next group_exprs aggr_exprs parallelism
         fuel' groups (i, c) = ((i', c'), Ok groups')) ∨
     ((e = Done → forallb row_ok l = false) ∧ ∃ error,
       AggregateOp.aggregate_loop spawn iteration input_next group_exprs aggr_exprs parallelism
         fuel' groups (i, c) = ((i', c'), Err error))).
Proof.
  intros He. revert l0 groups l i c. induction fuel' as [|fuel' IH]; intros l0 groups l i c Hf Hg Hlen Hr; [lia|].
  assert (0 < BATCH_SIZE) as Hbs by (unfold BATCH_SIZE; lia).
  destruct (next_batch_first (pred BATCH_SIZE) l e i c m He Hr) as (i1 & c1 & b1 & Hc1 & Hb).
  replace (S (pred BATCH_SIZE)) with BATCH_SIZE in Hb by lia.
  destruct (Nat.leb_spec BATCH_SIZE (length l)) as [Hle|Hgt].
  - destruct Hb as [Hb Hr1].
    assert (take BATCH_SIZE l ≠ []) as Hne.
    { intros E. apply (f_equal length) in E. rewrite length_take in E. cbn [length] in E. lia. }
    assert (length (l0 ++ l) = length (l0 ++ take BATCH_SIZE l) + length (drop BATCH_SIZE l)) as El.
    { rewrite <- length_app, <- (assoc_L (++)), take_drop. done. }
    destruct (aggregate_round fuel' groups _ i c i1 c1 (b1 + m) base l0 Hb Hne Hc1 Hg) as (c2 & Hc2 & Hround); [lia|].
    rewrite <- (take_drop BATCH_SIZE l), forallb_app, (assoc_L (++)).
    destruct Hround as [(-> & groups1 & Hg1 & ->)|(-> & error & ->)].
    + apply IH; [rewrite length_drop; lia|done| |by eapply replies_replies_at].
      rewrite length_app. lia.
    + exists i1, c2, b1. split; [done|]. right. split; [done|by exists error].
  - destruct e as [|error|]; [| |done].
    2:{ exists i1, c1, b1. split; [done|]. right. split; [done|]. exists error.
        cbn [AggregateOp.aggregate_loop]. unfold mbind, SR_bind. by rewrite Hb. }
    destruct Hb as [Hb Hr1]. destruct l as [|t l].
    + exists i1, c1, b1. split; [done|]. left. split; [done|]. split; [done|]. exists groups.
      rewrite app_nil_r. split; [done|].
      cbn [AggregateOp.aggregate_loop]. unfold mbind, SR_bind. by rewrite Hb.
    + destruct (aggregate_round fuel' groups _ i c i1 c1 (b1 + m) base l0 Hb ltac:(done) Hc1 Hg Hlen)
        as (c2 & Hc2 & Hround).
      destruct Hround as [(Hok & groups1 & Hg1 & ->)|(Hok & error & ->)].
      * destruct (aggregate_loop_end fuel' groups1 b1 i1 c2 m) as (i' & c' & b' & -> & Hc'); [lia|done..|].
        exists i', c', b'. split; [done|]. left. split; [done|]. split; [done|]. by exists groups1.
      * exists i1, c2, b1. split; [done|]. right. split; [done|by exists error].
Qed.

(** *** The groups of the input *)
Lemma aggregates_failed l e error :
  e ≠ Crashed → (e = Done → aggregable group_exprs aggr_exprs l = false) →
  aggregates group_exprs aggr_exprs schema (Out l e) (collected (Err error)).
Proof.
  intros He Hno. unfold aggregates. cbn [rows ended].
  destruct e; [rewrite Hno by done| |done]; by exists error.
Qed.

Lemma aggregable_rows l :
  aggregable group_exprs aggr_exprs l
  = match group_exprs with [] => is_ok (build_accumulators aggr_exprs) | _ => true end && forallb row_ok l.
Proof. done. Qed.

Lemma aggregate_Ok l e i c m b :
  e ≠ Crashed → length l + 2 ≤ fuel → (Z.of_nat (length l) < 2 ^ 63)%Z →
  replies_at Inv input_next (stream (Out l e)) i c m → Inv (b + m) c →
  ∃ i' c' b' r, AggregateOp.aggregate spawn iteration input_next group_exprs aggr_exprs schema parallelism
      fuel (i, c) = ((i', c'), r) ∧ Inv (b' + m) c' ∧
    aggregates group_exprs aggr_exprs schema (Out l e) (collected r).
Proof.
  intros He Hf Hlen Hr Hc.
  destruct (grouped_start group_exprs aggr_exprs) as [(groups & Hst & Hg)|[(error & Hst) Hno]].
  2:{ exists i, c, b, (Err error). split; [|split; [done|by apply aggregates_failed]].
      unfold AggregateOp.aggregate. by rewrite Hst. }
  destruct (aggregate_loop_Ok fuel _ [] groups l e i c m He Hf Hg Hlen Hr) as (i1 & c1 & b1 & Hc1 & Hloop).
  destruct Hloop as [(-> & Hok & groups1 & Hg1 & Hrun)|(Hno & error & Hrun)].
  2:{ exists i1, c1, b1, (Err error). split; [|split; [done|apply aggregates_failed; [done|]]].
      - unfold AggregateOp.aggregate. rewrite Hst. unfold mbind, SR_bind, lift. cbn beta iota. by rewrite Hrun.
      - intros E%Hno. by rewrite aggregable_rows, E, andb_false_r. }
  destruct (iteration_ok i1 c1 _ Hc1) as (c2 & order & Hit & Hc2 & Hord).
  exists i1, c2, b1, (mapR (group_row schema) (order groups1)). split; [|split; [done|]].
  - unfold AggregateOp.aggregate. rewrite Hst. unfold mbind, SR_bind, lift. cbn beta iota. rewrite Hrun. cbn beta iota.
    by rewrite Hit.
  - unfold aggregates. cbn [rows ended].
    destruct (aggregable group_exprs aggr_exprs l) eqn:Hagg.
    + exists (order groups1). split; [|done]. by eapply grouped_aggregated.
    + rewrite aggregable_rows, Hok, andb_true_r in Hagg. destruct group_exprs as [|? ?]; [|done].
      destruct (build_accumulators aggr_exprs); done.
Qed.

(** *** The operator *)
Definition aggregating (b : nat) (rs : list reply) (s : AggregateState.t * I) : Prop :=
  AggregateState.built s.1 = true ∧ ∃ tl, nones tl ∧
    rs = ((λ t, Ok (Some t)) <$> AggregateState.rows s.1) ++ tl.

Lemma aggregate_pop b r rs rows i :
  (∃ tl, nones tl ∧ r :: rs = ((λ t, Ok (Some t)) <$> rows) ++ tl) →
  match rows with
  | t :: rows' => r = Ok (Some t) ∧ aggregating b rs (AggregateState.Mk rows' true, i)
  | [] => r = Ok None ∧ aggregating b rs (AggregateState.Mk [] true, i)
  end.
Proof.
  intros (tl & Htl & Hrs). destruct rows as [|t rows].
  - simpl in Hrs. subst tl. apply Forall_cons in Htl as [-> Htl]. split; [done|]. split; [done|]. by exists rs.
  - injection Hrs as -> ->. split; [done|]. split; [done|]. by exists tl.
Qed.

Lemma aggregate_starts (input_init : SR (I * C) unit) b M :
  starts Inv input_init input_next b M →
  (∀ o, M o → ended o ≠ Crashed ∧ length (rows o) + 2 ≤ fuel ∧ (Z.of_nat (length (rows o)) < 2 ^ 63)%Z ∧
    ∀ o', aggregates group_exprs aggr_exprs schema o o' → ended o' ≠ Crashed) →
  starts Inv (with_input (AggregateOp.init input_init))
    (with_input (AggregateOp.next spawn iteration input_next group_exprs aggr_exprs schema parallelism fuel)) b
    (λ o, ∃ oi, M oi ∧ aggregates group_exprs aggr_exprs schema oi o).
Proof.
  intros Hs HM. eapply (starts_input Inv input_next AggregateState.default); [exact Hs| |].
  { intros s i c i' c' Hi. unfold with_input, AggregateOp.init, mbind, SR_bind, set_state, on_world. by rewrite Hi. }
  intros [l e] b' i c m Ho Hr Hc. destruct (HM _ Ho) as (He & Hf & Hlen & Hsafe). cbn [rows ended] in *.
  destruct (aggregate_Ok l e i c m b' He Hf Hlen Hr Hc) as (i' & c' & b1 & r & Hrun & Hc' & Hagg).
  exists (collected r). split; [by exists (Out l e)|]. specialize (Hsafe _ Hagg).
  apply (replies_at_with Inv _ aggregating); [by apply stream_not_nil| |].
  - clear. intros b r rs [rows built] i c m [Hb Hrs] Hc. simpl in Hb. subst built.
    pose proof (aggregate_pop b r rs rows i Hrs) as Hp.
    unfold AggregateOp.next, mbind, SR_bind, get_state, set_state. cbn [AggregateState.built AggregateState.rows].
    destruct rows as [|t rows]; destruct Hp as [-> Hp].
    + exists (AggregateState.Mk [] true), i, c, b. split; [done|]. split; [done|by right].
    + exists (AggregateState.Mk rows true), i, c, b. split; [done|]. split; [done|by right].
  - intros r1 rs Hrs. unfold AggregateOp.next, mbind, SR_bind, get_state, set_state.
    cbn [AggregateState.built AggregateState.rows AggregateState.default]. unfold on_world. rewrite Hrun.
    destruct r as [rows|error|]; [| |done].
    + cbn beta iota. cbn [AggregateState.rows].
      pose proof (aggregate_pop b1 r1 rs rows i') as Hp. destruct rows as [|t rows];
        destruct Hp as [-> Hp]; try (exists (tail Done); split; [apply nones_tail|by rewrite <- Hrs]).
      * exists (AggregateState.Mk [] true), i', c', b1. split; [done|]. split; [done|by right].
      * exists (AggregateState.Mk rows true), i', c', b1. split; [done|]. split; [done|by right].
    + injection Hrs as <- <-. exists (AggregateState.Mk [] true), i', c', b1.
      split; [done|]. split; [done|by left].
Qed.

End aggregate.
End AggregationFacts.
