(* ===== verification/Joining.v ===== *)
(** * Joining: the answers of the nested loop join

    The right side is started again for each row of the left side, so it has to answer
    the same rows each time. The rows of the right side that match some left row are
    remembered by their position. *)
From S2P Require Import Prelude CommonCodec Floats Scalar Schema Expressions LogicalPlan Operators.
From S2P Require Import Meaning Execution Streams Pipeline.
Local Open Scope nat_scope.

(** ** What a join answers *)
Module JoinStream.
Import Streams StreamFacts.

(** The answers after those of an outcome that ends with [e]. *)
Definition goes_on (e : ending) (rest : list reply) : list reply :=
  match e with Done => rest | Failed error => [Err error] | Crashed => [] end.

Lemma stream_and_then steps e o :
  stream (and_then (emit steps e) o) = emit_stream steps (goes_on e (stream o)).
Proof.
  induction steps as [|[[t|]| |] steps IH]; simpl; [by destruct e, o| |done..].
  rewrite MeaningFacts.and_then_cons. by rewrite stream_cons, <- IH; destruct (and_then _ _).
Qed.

Lemma and_then_assoc o1 o2 o3 : and_then (and_then o1 o2) o3 = and_then o1 (and_then o2 o3).
Proof.
  destruct o1 as [rs1 []], o2 as [rs2 []], o3 as [rs3 e3]; unfold and_then; simpl; try done.
  by rewrite (assoc_L (++)).
Qed.

(** Only steps that all succeed reach what comes after them. *)
Lemma emit_stream_rest steps rest1 rest2 :
  (Forall (λ r, is_ok r = true) steps → rest1 = rest2) → emit_stream steps rest1 = emit_stream steps rest2.
Proof.
  induction steps as [|[[t|]| |] steps IH]; simpl; intros H; [by apply H| | |done..].
  - f_equal. apply IH. intros Hs. apply H. by constructor.
  - apply IH. intros Hs. apply H. by constructor.
Qed.

Section join.
Context (l_schema r_schema schema : Schema.t) (join_type : JoinType.t) (condition : option Expr.t).
Context (ls : list Tuple.t) (el : ending) (rs : list Tuple.t) (er : ending).
Notation join := (PhysicalNestedLoopJoin.join l_schema r_schema schema condition).
Notation combine := (PhysicalNestedLoopJoin.combine l_schema r_schema schema).
Notation is_match := (is_match l_schema r_schema schema condition).
Notation preserves_left := (PhysicalNestedLoopJoin.preserves_left join_type).
Notation preserves_right := (PhysicalNestedLoopJoin.preserves_right join_type).

(** After the right side: the left row with nulls, if it matched nothing. *)
Definition unmatched_left (l : Tuple.t) (matched : bool) (rest : list reply) : list reply :=
  if preserves_left && negb matched then emit_stream [Some <$> combine (Some l) None] rest else rest.

(** A row of the right side at the end. *)
Definition right_step (r : Tuple.t) : reply :=
  if existsb (λ l, is_match l r) ls then Ok None else Some <$> combine None (Some r).

(** The answers for the left rows [todo], then those at the end. *)
Fixpoint answers (todo : list Tuple.t) : list reply :=
  match todo with
  | [] => goes_on el (if preserves_right then emit_stream (right_step <$> rs) (tail er) else tail Done)
  | l :: todo' =>
      emit_stream (join l <$> rs)
        (goes_on er (unmatched_left l (existsb (is_match l) rs) (answers todo')))
  end.

Lemma emitted_rows l e :
  Forall (λ r, is_ok r = true) (join l <$> rs) →
  match rows (emit (join l <$> rs) e) with [] => false | _ => true end = existsb (is_match l) rs.
Proof.
  induction rs as [|r rs' IH]; [done|]. rewrite fmap_cons. intros [Hr Hs]%Forall_cons.
  cbn [emit existsb]. unfold Meaning.is_match at 1. destruct (join l r) as [[t|]| |]; [done| |done..].
  by apply IH.
Qed.

Lemma answers_join_rows :
  answers ls = stream (join_rows l_schema r_schema schema join_type condition (Out ls el) (Out rs er)).
Proof.
  unfold join_rows. cbn [rows ended].
  set (last := and_then (Out [] el) _).
  assert (∀ todo, answers todo
    = stream (and_then (all_outcomes (left_rows l_schema r_schema schema join_type condition (Out rs er) <$> todo)) last))
    as H; [|apply H].
  induction todo as [|l todo IH].
  - simpl. unfold last. destruct el; [|done|done]. simpl. destruct preserves_right; [|done].
    unfold unmatched_right, and_then. cbn [ended rows app]. rewrite <- stream_emit. by destruct (emit _ _).
  - rewrite fmap_cons. cbn [answers]. rewrite IH. clear IH.
    set (others := and_then (all_outcomes _) last).
    change (all_outcomes (?o :: ?os)) with (and_then o (all_outcomes os)). rewrite and_then_assoc.
    fold others. unfold left_rows. cbn [rows ended]. rewrite and_then_assoc, stream_and_then.
    apply emit_stream_rest. intros Hs. destruct er; [|done|done]. simpl.
    rewrite <- (emitted_rows l Done Hs). unfold unmatched_left.
    destruct (rows (emit (join l <$> rs) Done)); [|rewrite andb_false_r; by destruct others].
    rewrite andb_true_r. destruct preserves_left; [|by destruct others].
    symmetry. apply (stream_and_then [_] Done others).
Qed.

End join.
End JoinStream.

(** ** The operator *)
Module JoiningFacts.
Import Streams StreamFacts PipelineFacts JoinStream JoinOp.

Section join.
Context {C L R : Type} (Inv : nat → C → Prop).
Context (spawn : SR ((L * R) * C) (option nat)).
Context (right_init : SR (R * C) unit).
Context (left_next : SR (L * C) (option Tuple.t)) (right_next : SR (R * C) (option Tuple.t)).
Context (spawn_ok : ∀ i c n, Inv n c → ∃ c', spawn (i, c) = ((i, c'), Ok None) ∧ Inv n c').
Context (l_schema r_schema schema : Schema.t) (join_type : JoinType.t) (condition : option Expr.t).
Context (parallelism : nat).
Context (ls : list Tuple.t) (el : ending) (rs : list Tuple.t) (er : ending) (right_budget : nat).
Notation replies := (replies Inv).
Notation join := (PhysicalNestedLoopJoin.join l_schema r_schema schema condition).
Notation combine := (PhysicalNestedLoopJoin.combine l_schema r_schema schema).
Notation is_match := (is_match l_schema r_schema schema condition).
Notation preserves_left := (PhysicalNestedLoopJoin.preserves_left join_type).
Notation preserves_right := (PhysicalNestedLoopJoin.preserves_right join_type).
Notation answers := (answers l_schema r_schema schema join_type condition ls el rs er).
Notation unmatched_left := (unmatched_left l_schema r_schema schema join_type).
Notation right_step := (right_step l_schema r_schema schema condition ls).

Context (el_ok : el ≠ Crashed) (er_ok : er ≠ Crashed).
Context (right_starts : starts Inv right_init right_next right_budget (eq (Out rs er))).
Context (join_ok : ∀ l r, l ∈ ls → r ∈ rs → join l r ≠ Panic).
Context (left_ok : ∀ l, l ∈ ls → combine (Some l) None ≠ Panic).
Context (right_ok : ∀ r, r ∈ rs → combine None (Some r) ≠ Panic).

(** *** Running in the world of a join *)
Lemma on_left_run {A} (m : SR (L * C) A) l (r : R) c l' c' res :
  m (l, c) = ((l', c'), res) → on_left m ((l, r), c) = (((l', r), c'), res).
Proof. unfold on_left. by intros ->. Qed.

Lemma on_right_run {A} (m : SR (R * C) A) (l : L) r c r' c' res :
  m (r, c) = ((r', c'), res) → on_right m ((l, r), c) = (((l, r'), c'), res).
Proof. unfold on_right. by intros ->. Qed.

(** The right side started again. *)
Lemma right_restart (l : L) r c m :
  Inv (right_budget + m) c → ∃ r' c' b', on_right right_init ((l, r), c) = (((l, r'), c'), Ok tt) ∧
    Inv (b' + m) c' ∧ replies right_next b' (stream (Out rs er)) r'.
Proof.
  intros Hc. destruct (right_starts r c m Hc) as (r' & c' & b' & Hi & Hc' & Hp).
  exists r', c', b'. split; [by apply on_right_run|]. split; [done|by apply promises_fixed].
Qed.

(** *** The positions that matched *)
Definition marks (M : gset nat) (p : nat → Tuple.t → bool) : Prop :=
  ∀ i r, rs !! i = Some r → i ∈ M ↔ p i r = true.

Definition matched (todo : list Tuple.t) (i : nat) (r : Tuple.t) : bool :=
  existsb (λ l, is_match l r) todo.

(** A batch of results goes to [pending]. *)
Lemma push_rows_Ok l k j d js :
  k `prefix_of` drop j rs → l ∈ ls →
  marks (JoinState.matched_right js) (λ i r, d i r || (i <? j) && is_match l r) →
  ∃ M pend, push_rows j (join l <$> k) js
    = JoinState.set_pending (JoinState.pending js ++ pend)
        (JoinState.set_matched_right M
          (JoinState.set_left_matched (JoinState.current_left_matched js || existsb (is_match l) k) js)) ∧
    marks M (λ i r, d i r || (i <? j + length k) && is_match l r) ∧
    ∀ rest, emit_stream (as_reply <$> pend) rest = emit_stream (join l <$> k) rest.
Proof.
  intros Hk Hl. revert j js Hk. induction k as [|r k IH]; intros j js Hk HM.
  { exists (JoinState.matched_right js), []. split; [|split; [by rewrite Nat.add_0_r|done]].
    rewrite app_nil_r. simpl. rewrite orb_false_r. by destruct js. }
  assert (rs !! j = Some r) as Hj.
  { destruct Hk as [x Hk]. rewrite <- (Nat.add_0_r j), <- lookup_drop, Hk. done. }
  assert (k `prefix_of` drop (S j) rs) as Hk'.
  { destruct Hk as [x Hk]. exists x. rewrite (drop_S _ _ _ Hj) in Hk. by injection Hk. }
  assert (∀ M, (∀ i, i ∈ M ↔ i ∈ JoinState.matched_right js ∨ i = j ∧ is_match l r = true) →
    marks M (λ i r, d i r || (i <? S j) && is_match l r)) as Hnew.
  { intros M HMi i r' Hi. rewrite HMi, (HM i r' Hi), !orb_true_iff, !andb_true_iff, !Nat.ltb_lt. split.
    - intros [[?|[??]]|[-> Hm]]; [by left|right; split; [lia|done]|]. simplify_eq. right. split; [lia|done].
    - intros [?|[Hlt Hm]]; [by left; left|]. destruct (decide (i = j)) as [->|]; [simplify_eq; by right|].
      left; right. split; [lia|done]. }
  rewrite fmap_cons. cbn [push_rows existsb length].
  assert (is_match l r = match join l r with Ok (Some _) => true | _ => false end) as Em by done.
  rewrite Em in Hnew |- *.
  pose proof (join_ok l r Hl ltac:(by eapply list_elem_of_lookup_2)) as Hp.
  replace (j + S (length k)) with (S j + length k) by lia.
  destruct (join l r) as [[t|]|error|] eqn:Hjoin; [..|done].
  - destruct (IH (S j) (JoinState.set_pending (JoinState.pending js ++ [Ok t])
      (JoinState.set_matched_right ({[j]} ∪ JoinState.matched_right js) (JoinState.set_left_matched true js))))
      as (M & pend & -> & HM' & He); [done|apply Hnew; intros; set_solver|].
    exists M, (Ok t :: pend). split; [|split; [done|]].
    + simpl. rewrite <- (assoc_L (++)), orb_true_r. done.
    + intros rest. simpl. by rewrite He.
  - destruct (IH (S j) js) as (M & pend & -> & HM' & He); [done|apply Hnew; intros; naive_solver|].
    exists M, pend. split; [done|]. split; [done|]. intros rest. simpl. apply He.
  - destruct (IH (S j) (JoinState.set_pending (JoinState.pending js ++ [Err error]) js))
      as (M & pend & -> & HM' & He); [done|apply Hnew; intros; naive_solver|].
    exists M, (Err error :: pend). split; [|split; [done|done]].
    simpl. by rewrite <- (assoc_L (++)).
Qed.

(** *** A batch of the right side *)
Definition advance (k : nat) (js : JoinState.t) : JoinState.t :=
  JoinState.set_ordinal (JoinState.right_ordinal js + k) js.

Lemma right_batch_Ok n k js batch b (l : L) r c m :
  replies right_next b (stream (Out k er)) r → Inv (b + m) c →
  ∃ r' c' b', Inv (b' + m) c' ∧
    if n <=? length k
    then right_batch (on_right right_next) n batch (js, ((l, r), c))
           = ((advance n js, ((l, r'), c')), Ok (batch ++ take n k, None)) ∧
         replies right_next b' (stream (Out (drop n k) er)) r'
    else right_batch (on_right right_next) n batch (js, ((l, r), c))
           = ((match er with
               | Done => JoinState.set_right_finished true (advance (length k) js)
               | _ => JoinState.set_exhausted true (advance (length k) js)
               end, ((l, r'), c')), Ok (batch ++ k, failure er)).
Proof.
  revert k js batch b r c. induction n as [|n IH]; intros k js batch b r c Hr Hc.
  { exists r, c, b. split; [done|]. simpl. split; [|done]. unfold advance. rewrite Nat.add_0_r, app_nil_r.
    by destruct js. }
  destruct k as [|t k].
  - cbn [Nat.leb length]. rewrite app_nil_r. destruct er; [| |done];
      destruct (Hr c m Hc) as (r' & c' & b' & Hn & Hc' & _); exists r', c', b'; (split; [done|]);
      cbn [right_batch]; unfold mbind, SR_bind, on_world, catch, modify_state, on_right; rewrite Hn;
      cbn beta iota; unfold advance; rewrite Nat.add_0_r; by destruct js.
  - rewrite stream_cons in Hr. destruct (Hr c m Hc) as (r1 & c1 & b1 & Hn & Hc1 & Hr1).
    destruct (IH k (advance 1 js) (batch ++ [t]) b1 r1 c1 Hr1 Hc1) as (r' & c' & b' & Hc' & H).
    exists r', c', b'. split; [done|]. cbn [length Nat.leb take drop].
    assert (∀ x, advance x (advance 1 js) = advance (S x) js) as Ea.
    { intros x. unfold advance. destruct js. unfold JoinState.set_ordinal. simpl. f_equal. lia. }
    assert (JoinState.set_ordinal (S (JoinState.right_ordinal js)) js = advance 1 js) as E1
      by (unfold advance; by rewrite Nat.add_1_r).
    assert (∀ x, batch ++ t :: x = (batch ++ [t]) ++ x) as E by (intros; by rewrite <- (assoc_L (++))).
    cbn [right_batch]. unfold mbind, SR_bind, on_world, catch, modify_state, on_right. rewrite Hn.
    cbn beta iota. rewrite E1. rewrite !Ea in H. destruct (n <=? length k).
    + by rewrite (E (take n k)).
    + by rewrite (E k).
Qed.

(** *** The states of a join *)
Definition fresh (M : gset nat) pend : JoinState.t := JoinState.Mk None false false false 0 M false pend.
Definition at_left (l : Tuple.t) (flag : bool) (j : nat) (M : gset nat) pend : JoinState.t :=
  JoinState.Mk (Some l) false false flag j M false pend.
Definition finished (l : Tuple.t) (flag : bool) (j : nat) (M : gset nat) pend : JoinState.t :=
  JoinState.Mk (Some l) true false flag j M false pend.
Definition emitting (j : nat) (M : gset nat) : JoinState.t :=
  JoinState.Mk None false false false j M true [].

(** The rounds that may be needed before the next answer. *)
Definition cost (todo : list Tuple.t) : nat := length todo * (length rs + 4) + length rs + 4.

(** The inputs, with the budget to start the right side [restarts] times. *)
Definition inputs (b restarts : nat) (todo k : list Tuple.t) (s : L * R) : Prop :=
  ∃ bl br, b = bl + br + restarts * right_budget ∧
    replies left_next bl (stream (Out todo el)) s.1 ∧ replies right_next br (stream (Out k er)) s.2.

(** The rows of [l] from the position [j] of the right side on. *)
Definition left_answers (l : Tuple.t) (flag : bool) (j : nat) (todo : list Tuple.t) : list reply :=
  emit_stream (join l <$> drop j rs)
    (goes_on er (unmatched_left l (flag || existsb (is_match l) (drop j rs)) (answers todo))).

Inductive joining (n b : nat) : list reply → JoinState.t * (L * R) → Prop :=
  | joining_exhausted js s tl :
      JoinState.exhausted js = true → 1 ≤ n → nones tl →
      joining n b (emit_stream (as_reply <$> JoinState.pending js) tl) (js, s)
  | joining_emitting j M s :
      marks M (matched ls) → length rs - j + 1 ≤ n →
      replies right_next b (stream (Out (drop j rs) er)) s.2 →
      joining n b (emit_stream (right_step <$> drop j rs) (tail er)) (emitting j M, s)
  | joining_fresh before todo M pend s :
      ls = before ++ todo → marks M (matched before) → cost todo ≤ n →
      inputs b (length todo + 1) todo rs s →
      joining n b (emit_stream (as_reply <$> pend) (answers todo)) (fresh M pend, s)
  | joining_left before l todo flag j M pend s :
      ls = before ++ l :: todo → marks M (λ i r, matched before i r || (i <? j) && is_match l r) →
      cost todo + (length rs - j) + 2 ≤ n → inputs b (length todo + 2) todo (drop j rs) s →
      joining n b (emit_stream (as_reply <$> pend) (left_answers l flag j todo)) (at_left l flag j M pend, s)
  | joining_finished before l todo flag j M pend s bl :
      ls = before ++ l :: todo → marks M (matched (before ++ [l])) → cost todo + 1 ≤ n →
      bl + (length todo + 2) * right_budget ≤ b → replies left_next bl (stream (Out todo el)) s.1 →
      joining n b (emit_stream (as_reply <$> pend) (unmatched_left l flag (answers todo)))
        (finished l flag j M pend, s).

(** What a round does on the way to the answers [r0 :: out]. *)
Definition advances (n : nat) (r0 : reply) (out : list reply) (m : nat)
    (res : (JoinState.t * ((L * R) * C)) * result flow) : Prop :=
  ∃ js s c b x, res = ((js, (s, c)), x) ∧ Inv (b + m) c ∧
    match x with
    | Ok (Return t) => r0 = Ok t ∧ (out = [] ∨ ∃ n', n' ≤ n ∧ joining n' b out (js, s))
    | Ok Continue => ∃ n', n' < n ∧ joining n' b (r0 :: out) (js, s)
    | Err e => r0 = Err e ∧ out = []
    | Panic => False
    end.

Lemma joining_weaken n n' b out s : n ≤ n' → joining n b out s → joining n' b out s.
Proof. intros Hn Hj. destruct Hj; econstructor; try done; lia. Qed.

Lemma inputs_more b k restarts todo q s : inputs b restarts todo q s → inputs (b + k) restarts todo q s.
Proof.
  intros (bl & br & -> & Hl & Hr). exists (bl + k), br. split; [lia|]. split; [by apply replies_more|done].
Qed.

Lemma joining_more n b k out s : joining n b out s → joining n (b + k) out s.
Proof.
  intros Hj. destruct Hj; econstructor; try done; try by apply inputs_more.
  - by apply replies_more.
  - lia.
Qed.

Lemma advances_weaken n n' r0 out m res : n ≤ n' → advances n r0 out m res → advances n' r0 out m res.
Proof.
  intros Hn (js & s & c & b & x & -> & Hc & Hx). exists js, s, c, b, x. split; [done|]. split; [done|].
  destruct x as [[t|]|e|]; [|destruct Hx as (k & ? & ?); exists k; split; [lia|done]|done..].
  destruct Hx as [-> [->|(k & ? & ?)]]; (split; [done|]); [by left|right; exists k; split; [lia|done]].
Qed.

(** *** A batch against the left row *)
Notation batch_rows := (if 1 <? parallelism then BATCH_SIZE else 1).
Notation join_batch :=
  (join_batch spawn (on_right right_next) l_schema r_schema schema condition parallelism).

(** The rest of [join_batch] when the batch and its end are known. *)
Lemma join_batch_run l flag j M before s c js1 s' c' k fail :
  l ∈ ls → k `prefix_of` drop j rs →
  marks (JoinState.matched_right js1) (λ i r, matched before i r || (i <? j) && is_match l r) →
  right_batch (on_right right_next) batch_rows [] (at_left l flag j M [], (s, c)) = ((js1, (s', c')), Ok (k, fail)) →
  ∀ budget, Inv budget c' →
  ∃ c2 M' pend, Inv budget c2 ∧
    join_batch (at_left l flag j M [], (s, c))
    = ((JoinState.set_pending ((JoinState.pending js1 ++ pend) ++ FilterOp.error_row fail)
         (JoinState.set_matched_right M'
           (JoinState.set_left_matched (JoinState.current_left_matched js1 || existsb (is_match l) k) js1)),
       (s', c2)), Ok Continue) ∧
    marks M' (λ i r, matched before i r || (i <? j + length k) && is_match l r) ∧
    ∀ rest, emit_stream (as_reply <$> pend) rest = emit_stream (join l <$> k) rest.
Proof.
  intros Hl Hk HM Hb budget Hc. destruct (spawn_ok s' c' budget Hc) as (c2 & Hsp & Hc2).
  destruct (push_rows_Ok l k j (matched before) js1 Hk Hl HM) as (M' & pend & Hpush & HM' & He).
  exists c2, M', pend. split; [done|]. split; [|done].
  unfold JoinOp.join_batch, mbind, SR_bind, get_state, lift, modify_state. rewrite Hb. cbn beta iota.
  cbn [JoinState.left at_left unwrap]. unfold on_world. rewrite Hsp. cbn beta iota.
  rewrite ordered_map_Ok.
  - cbn beta iota. cbn [JoinState.right_ordinal at_left]. by rewrite Hpush.
  - intros r Hr. apply join_ok; [done|]. destruct Hk as [x Hk].
    apply (subseteq_drop j). rewrite Hk. set_solver.
Qed.

Lemma left_answers_split l flag j k todo :
  left_answers l flag j todo
  = emit_stream (join l <$> take k (drop j rs)) (left_answers l (flag || existsb (is_match l) (take k (drop j rs))) (j + k) todo).
Proof.
  unfold left_answers. rewrite <- drop_drop. set (q := drop j rs).
  rewrite <- emit_stream_app, <- fmap_app, take_drop. do 2 f_equal. unfold unmatched_left. do 3 f_equal.
  rewrite <- orb_assoc, <- existsb_app, take_drop. done.
Qed.

(** The state after the last batch of right rows, and what is left to do. *)
Definition right_done l flag j M : JoinState.t :=
  let js := advance (length (drop j rs)) (at_left l flag j M []) in
  match er with Done => JoinState.set_right_finished true js | _ => JoinState.set_exhausted true js end.

Lemma last_batch before l todo flag flag' j M M' pend bl br sl sr :
  ls = before ++ l :: todo →
  marks M' (λ i r, matched before i r || (i <? j + length (drop j rs)) && is_match l r) →
  replies left_next bl (stream (Out todo el)) sl →
  ∃ n, n < cost todo + (length rs - j) + 2 ∧
    joining n (bl + br + (length todo + 2) * right_budget)
      (emit_stream (as_reply <$> pend) (goes_on er (unmatched_left l flag' (answers todo))))
      (JoinState.set_pending (pend ++ FilterOp.error_row (failure er))
         (JoinState.set_matched_right M' (JoinState.set_left_matched flag' (right_done l flag j M))), (sl, sr)).
Proof.
  intros Hls HM' Hl. unfold right_done.
  assert (er = Done ∨ ∃ error, er = Failed error) as [Her|[error Her]] by (destruct er; by eauto).
  - exists (cost todo + 1). split; [lia|].
    assert (∀ x, goes_on er x = x) as -> by (intros; by rewrite Her).
    assert (∀ js, JoinState.set_pending (pend ++ FilterOp.error_row (failure er))
        (JoinState.set_matched_right M' (JoinState.set_left_matched flag'
          match er with Done => JoinState.set_right_finished true js | _ => JoinState.set_exhausted true js end))
      = JoinState.set_pending pend (JoinState.set_matched_right M' (JoinState.set_left_matched flag'
          (JoinState.set_right_finished true js)))) as -> by (intros; rewrite Her; cbn; by rewrite app_nil_r).
    eapply (joining_finished _ _ before l todo flag' (j + length (drop j rs)) M' pend); [done| |done| |exact Hl]; [|lia].
    intros i r Hi. rewrite (HM' i r Hi). unfold matched. rewrite existsb_app. cbn [existsb]. rewrite orb_false_r.
    rewrite (proj2 (Nat.ltb_lt i _)); [done|]. apply lookup_lt_Some in Hi. rewrite length_drop. lia.
  - exists 1. split; [lia|].
    assert (∀ x, goes_on er x = [Err error]) as -> by (intros; by rewrite Her).
    replace (emit_stream (as_reply <$> pend) [Err error])
      with (emit_stream (as_reply <$> (pend ++ [Err error])) []) by (by rewrite fmap_app, emit_stream_app).
    replace (pend ++ [Err error]) with (pend ++ FilterOp.error_row (failure er)) by (by rewrite Her).
    apply (joining_exhausted _ _ (JoinState.set_pending _ _)); [|done|constructor].
    by rewrite Her.
Qed.

Lemma join_batch_Ok before l todo flag j M s c m b r0 out :
  ls = before ++ l :: todo → marks M (λ i r, matched before i r || (i <? j) && is_match l r) →
  inputs b (length todo + 2) todo (drop j rs) s → Inv (b + m) c →
  left_answers l flag j todo = r0 :: out →
  advances (cost todo + (length rs - j) + 2) r0 out m (join_batch (at_left l flag j M [], (s, c))).
Proof.
  intros Hls HM (bl & br & -> & Hl & Hr) Hc Hout. destruct s as [sl sr]. cbn [fst snd] in Hl, Hr.
  assert (l ∈ ls) as Hin by (rewrite Hls; set_solver).
  set (N := batch_rows). assert (0 < N) as HN by (unfold N; destruct (1 <? parallelism); unfold BATCH_SIZE; lia).
  set (others := bl + (length todo + 2) * right_budget).
  destruct (right_batch_Ok N (drop j rs) (at_left l flag j M []) [] br sl sr c (others + m) Hr)
    as (sr' & c1 & br' & Hc1 & Hb); [by replace (br + (others + m)) with (bl + br + (length todo + 2) * right_budget + m) by lia|].
  destruct (Nat.leb_spec N (length (drop j rs))) as [Hle|Hgt].
  - destruct Hb as [Hb Hr']. cbn [app] in Hb.
    destruct (join_batch_run l flag j M before (sl, sr) c (advance N (at_left l flag j M [])) (sl, sr') c1
      (take N (drop j rs)) None Hin (prefix_take _ _) HM Hb _ Hc1) as (c2 & M' & pend & Hc2 & Hrun & HM' & He).
    exists (at_left l (flag || existsb (is_match l) (take N (drop j rs))) (j + N) M' pend), (sl, sr'), c2.
    exists (bl + br' + (length todo + 2) * right_budget), (Ok Continue).
    split; [|split; [by replace (bl + br' + (length todo + 2) * right_budget + m) with (br' + (others + m)) by lia|]].
    + rewrite Hrun. cbn. by rewrite app_nil_r.
    + exists (cost todo + (length rs - (j + N)) + 2). rewrite length_drop in Hle. split; [lia|].
      rewrite <- Hout, (left_answers_split l flag j N), <- He.
      eapply joining_left; [done| |done|].
      * rewrite length_take, length_drop, Nat.min_l in HM' by lia. exact HM'.
      * exists bl, br'. split; [done|]. split; [done|]. cbn [snd]. by rewrite <- drop_drop.
  - cbn [app] in Hb.
    match type of Hb with _ = ((?js, _), _) => set (js1 := js) in Hb end.
    assert (marks (JoinState.matched_right js1) (λ i r, matched before i r || (i <? j) && is_match l r)) as HM1
      by (unfold js1; by destruct er).
    destruct (join_batch_run l flag j M before (sl, sr) c js1 (sl, sr') c1 (drop j rs) (failure er) Hin
      (reflexivity _) HM1 Hb _ Hc1) as (c2 & M' & pend & Hc2 & Hrun & HM' & He).
    set (flag' := flag || existsb (is_match l) (drop j rs)) in *.
    exists (JoinState.set_pending (pend ++ FilterOp.error_row (failure er))
      (JoinState.set_matched_right M' (JoinState.set_left_matched flag' js1))), (sl, sr'), c2.
    exists (bl + br' + (length todo + 2) * right_budget), (Ok Continue).
    split; [rewrite Hrun; unfold js1, flag'; by destruct er|].
    split; [by replace (bl + br' + (length todo + 2) * right_budget + m) with (br' + (others + m)) by lia|].
    rewrite <- Hout. unfold left_answers. rewrite <- He. fold flag'.
    by eapply last_batch.
Qed.

(** *** The next left row *)
Definition fetch : SR (JoinState.t * ((L * R) * C)) flow :=
  f ← next_left (on_right right_init) (on_left left_next) join_type;
  match f with
  | Some f => ret f
  | None => join_batch
  end.

(** What happens when the left input answers. *)
Lemma fetch_run M sl sr c row sl' c' :
  left_next (sl, c) = ((sl', c'), row) →
  fetch (fresh M [], ((sl, sr), c)) = match row with
  | Ok (Some t) => join_batch (at_left t false 0 M [], ((sl', sr), c'))
  | Ok None =>
      if preserves_right
      then (_ ← on_world (on_right right_init); _ ← modify_state (λ s, JoinState.set_ordinal 0 (JoinState.set_emitting true s));
            ret Continue) (fresh M [], ((sl', sr), c'))
      else ((JoinState.set_exhausted true (fresh M []), ((sl', sr), c')), Ok (Return None))
  | Err e => ((fresh M [], ((sl', sr), c')), Err e)
  | Panic => ((fresh M [], ((sl', sr), c')), Panic)
  end.
Proof.
  intros Hn. unfold fetch, JoinOp.next_left, mbind, SR_bind, get_state, on_world, modify_state, on_left.
  cbn [JoinState.left fresh]. rewrite Hn. destruct row as [[t|]| |]; [done| |done|done].
  cbn beta iota. destruct preserves_right; [|done]. by destruct (on_right right_init _) as [? []].
Qed.

Lemma fetch_left_Ok before todo M sl sr c m br r0 out :
  ls = before ++ todo → marks M (matched before) → answers todo = r0 :: out →
  replies_at Inv left_next (stream (Out todo el)) sl c (br + (length todo + 1) * right_budget + m) →
  replies right_next br (stream (Out rs er)) sr →
  advances (cost todo) r0 out m (fetch (fresh M [], ((sl, sr), c))).
Proof.
  intros Hls HM Hout Hl Hr.
  destruct todo as [|l todo].
  - assert (el = Done ∨ ∃ error, el = Failed error) as [Hel|[error Hel]] by (destruct el; by eauto);
      rewrite Hel in Hl; destruct Hl as (sl' & c1 & bl & Hn & Hc1 & _); rewrite (fetch_run _ _ _ _ _ _ _ Hn).
    2:{ cbn [JoinStream.answers] in Hout. rewrite Hel in Hout. injection Hout as <- <-.
        exists (fresh M []), (sl', sr), c1, (bl + br + right_budget), (Err error).
        split; [done|]. split; [|done]. simpl in Hc1.
        by replace (bl + br + right_budget + m) with (bl + (br + (right_budget + 0) + m)) by lia. }
    cbn [JoinStream.answers] in Hout. rewrite Hel in Hout. cbn [goes_on] in Hout.
    destruct preserves_right.
    + destruct (right_restart sl' sr c1 (bl + br + m)) as (sr' & c2 & br' & Hi & Hc2 & Hr').
      { simpl in Hc1. by replace (right_budget + (bl + br + m)) with (bl + (br + (right_budget + 0) + m)) by lia. }
      unfold mbind, SR_bind, on_world, modify_state. rewrite Hi.
      exists (emitting 0 M), (sl', sr'), c2, (br' + (bl + br)), (Ok Continue). split; [done|].
      split; [by replace (br' + (bl + br) + m) with (br' + (bl + br + m)) by lia|].
      exists (length rs + 1). unfold cost. split; [lia|]. rewrite <- Hout.
      replace rs with (drop 0 rs) at 2 by done. apply joining_emitting; [|lia|by apply replies_more].
      by rewrite Hls, app_nil_r.
    + injection Hout as <- <-.
      exists (JoinState.set_exhausted true (fresh M [])), (sl', sr), c1, (bl + br + right_budget), (Ok (Return None)).
      split; [done|]. simpl in Hc1. split; [by replace (bl + br + right_budget + m) with (bl + (br + (right_budget + 0) + m)) by lia|].
      split; [done|]. right. exists 1. unfold cost. split; [lia|].
      apply (joining_exhausted _ _ (JoinState.set_exhausted true (fresh M [])) _ [Ok None]); [done|done|].
      by repeat constructor.
  - rewrite stream_cons in Hl. destruct Hl as (sl' & c1 & bl & Hn & Hc1 & Hl). rewrite (fetch_run _ _ _ _ _ _ _ Hn).
    eapply (advances_weaken (cost todo + (length rs - 0) + 2)); [unfold cost; cbn [length]; lia|].
    apply (join_batch_Ok before l todo false 0 M (sl', sr) c1 m (bl + br + (length todo + 2) * right_budget));
      [done| | | |done].
    + intros i r Hi. rewrite (HM i r Hi). cbn [Nat.ltb Nat.leb andb]. by rewrite orb_false_r.
    + by exists bl, br.
    + cbn [length] in Hc1.
      by replace (bl + br + (length todo + 2) * right_budget + m)
        with (bl + (br + (S (length todo) + 1) * right_budget + m)) by lia.
Qed.

(** *** A round *)
Notation round := (round spawn (on_right right_init) (on_left left_next) (on_right right_next)
  l_schema r_schema schema join_type condition parallelism).

(** Taking what waits. *)
Lemma pop_Ok n b js p pend s c m r0 out :
  JoinState.pending js = p :: pend → joining n b (r0 :: out) (js, s) → Inv (b + m) c →
  advances n r0 out m (round (js, (s, c))).
Proof.
  intros Hp Hj Hc.
  assert (round (js, (s, c)) = ((JoinState.set_pending pend js, (s, c)),
    match p with Ok t => Ok (Return (Some t)) | Err e => Err e | Panic => Panic end)) as ->.
  { unfold JoinOp.round, mbind, SR_bind, get_state, modify_state, lift. rewrite Hp. by destruct p. }
  assert (∃ rest, r0 :: out = emit_stream (as_reply <$> (p :: pend)) rest ∧
    joining n b (emit_stream (as_reply <$> pend) rest) (JoinState.set_pending pend js, s)) as (rest & Hrs & Hj').
  { remember (r0 :: out) as rs0 eqn:E. clear E.
    remember (js, s) as st eqn:Est. destruct Hj; injection Est as <- <-; simpl in Hp; subst.
    - eexists. split; [by rewrite Hp|]. by apply (joining_exhausted _ _ (JoinState.set_pending pend js0)).
    - done.
    - eexists. split; [done|]. by eapply joining_fresh.
    - eexists. split; [done|]. by eapply joining_left.
    - eexists. split; [done|]. by eapply joining_finished. }
  eexists _, s, c, b, _. split; [done|]. split; [done|]. rewrite fmap_cons in Hrs.
  destruct p as [t|e|]; simpl in Hrs; [|by injection Hrs as -> ->|done].
  injection Hrs as -> ->. split; [done|]. right. by exists n.
Qed.

Lemma emitting_Ok n b j M s c m r0 out :
  joining n b (r0 :: out) (emitting j M, s) → Inv (b + m) c →
  advances n r0 out m (round (emitting j M, (s, c))).
Proof.
  intros Hj Hc.
  assert (marks M (matched ls) ∧ length rs - j + 1 ≤ n ∧
    r0 :: out = emit_stream (right_step <$> drop j rs) (tail er) ∧
    replies right_next b (stream (Out (drop j rs) er)) s.2) as (HM & Hn & Hout & Hr).
  { remember (r0 :: out) as rs0. remember (emitting j M, s) as st eqn:Est.
    destruct Hj; injection Est; intros; subst; try done. }
  destruct s as [sl sr]. cbn [snd] in Hr.
  assert (round (emitting j M, ((sl, sr), c))
    = emit_unmatched_right (on_right right_next) l_schema r_schema schema (emitting j M, ((sl, sr), c))) as -> by done.
  unfold emit_unmatched_right, mbind, SR_bind, on_world, catch, modify_state, get_state, lift, on_right.
  destruct (rs !! j) as [r|] eqn:Hj'.
  - rewrite (drop_S _ _ _ Hj') in Hout, Hr. rewrite stream_cons in Hr.
    destruct (Hr c m Hc) as (sr' & c1 & b1 & Hrn & Hc1 & Hr1). rewrite Hrn. cbn beta iota.
    cbn [JoinState.right_ordinal JoinState.matched_right emitting].
    rewrite fmap_cons in Hout. unfold JoinStream.right_step at 1 in Hout.
    pose proof (lookup_lt_Some _ _ _ Hj') as Hlt. specialize (HM j r Hj') as HMj. unfold matched in HMj.
    destruct (existsb (λ l, is_match l r) ls).
    + rewrite bool_decide_eq_true_2 by (by apply HMj).
      exists (emitting (S j) M), (sl, sr'), c1, b1, (Ok Continue). split; [done|]. split; [done|].
      exists (length rs - S j + 1). split; [lia|]. simpl in Hout. rewrite Hout. by apply joining_emitting.
    + rewrite bool_decide_eq_false_2 by (rewrite HMj; done).
      pose proof (right_ok r ltac:(by eapply list_elem_of_lookup_2)) as Hp.
      destruct (combine None (Some r)) as [t|e|]; [| |done]; simpl in Hout; injection Hout as -> ->.
      * exists (emitting (S j) M), (sl, sr'), c1, b1, (Ok (Return (Some t))). split; [done|]. split; [done|].
        split; [done|]. right. exists (length rs - S j + 1). split; [lia|]. by apply joining_emitting.
      * by exists (emitting (S j) M), (sl, sr'), c1, b1, (Err e).
  - apply lookup_ge_None in Hj'. rewrite drop_ge in Hout, Hr by done.
    assert (er = Done ∨ ∃ error, er = Failed error) as [Her|[error Her]] by (destruct er; by eauto);
      rewrite Her in Hr, Hout; destruct (Hr c m Hc) as (sr' & c1 & b1 & Hrn & Hc1 & _); rewrite Hrn;
      cbn beta iota; simpl in Hout; injection Hout as -> ->.
    + exists (JoinState.set_exhausted true (emitting j M)), (sl, sr'), c1, b1, (Ok (Return None)).
      split; [done|]. split; [done|]. split; [done|]. right. exists 1. split; [lia|].
      apply (joining_exhausted _ _ (JoinState.set_exhausted true (emitting j M)) _ [Ok None]); [done|done|].
      by repeat constructor.
    + by exists (JoinState.set_exhausted true (emitting j M)), (sl, sr'), c1, b1, (Err error).
Qed.

(** The end of the right side, and then the next left row. *)
Lemma finished_Ok before l todo flag j M s bl b c m n r0 out :
  ls = before ++ l :: todo → marks M (matched (before ++ [l])) → cost todo + 1 ≤ n →
  bl + (length todo + 2) * right_budget ≤ b → replies left_next bl (stream (Out todo el)) s.1 →
  unmatched_left l flag (answers todo) = r0 :: out → Inv (b + m) c →
  advances n r0 out m (round (finished l flag j M [], (s, c))).
Proof.
  intros Hls HM Hn Hb Hl Hout Hc. destruct s as [sl sr]. cbn [fst] in Hl.
  set (others := b - right_budget).
  destruct (right_restart sl sr c (others + m)) as (sr' & c1 & br & Hi & Hc1 & Hr).
  { unfold others. by replace (right_budget + (b - right_budget + m)) with (b + m) by lia. }
  set (extra := others - (bl + (length todo + 1) * right_budget)).
  assert (others = extra + bl + (length todo + 1) * right_budget) as Eo by (unfold extra, others; lia).
  assert (ls = (before ++ [l]) ++ todo) as Hls' by (by rewrite <- (assoc_L (++))).
  assert (round (finished l flag j M [], ((sl, sr), c))
    = if preserves_left && negb flag
      then match combine (Some l) None with
           | Ok t => ((fresh M [Ok t], ((sl, sr'), c1)), Ok Continue)
           | Err e => ((fresh M [], ((sl, sr'), c1)), Err e)
           | Panic => ((fresh M [], ((sl, sr'), c1)), Panic)
           end
      else fetch (fresh M [], ((sl, sr'), c1))) as ->.
  { unfold JoinOp.round, finish_right, mbind, SR_bind, get_state, modify_state, on_world, lift, ret.
    cbn [JoinState.pending JoinState.exhausted JoinState.emitting_unmatched_right JoinState.right_finished
      finished JoinState.left JoinState.current_left_matched]. rewrite Hi. cbn beta iota.
    destruct (preserves_left && negb flag); [by destruct (combine _ _)|done]. }
  unfold JoinStream.unmatched_left in Hout. destruct (preserves_left && negb flag).
  - pose proof (left_ok l ltac:(rewrite Hls; set_solver)) as Hp.
    destruct (combine (Some l) None) as [t|e|] eqn:Hcomb; [| |done].
    + exists (fresh M [Ok t]), (sl, sr'), c1, (extra + (bl + br + (length todo + 1) * right_budget)), (Ok Continue).
      split; [done|]. split.
      { by replace (extra + (bl + br + (length todo + 1) * right_budget) + m) with (br + (others + m)) by lia. }
      exists (cost todo). split; [lia|]. rewrite <- Hout.
      change [Some <$> Ok t] with (as_reply <$> [Ok t]).
      eapply joining_fresh; [done|done|done|].
      exists (extra + bl), br. split; [lia|]. split; [|done]. rewrite Nat.add_comm. by apply replies_more.
    + simpl in Hout. injection Hout as <- <-.
      exists (fresh M []), (sl, sr'), c1, (br + others), (Err e). split; [done|].
      by rewrite <- Nat.add_assoc.
  - eapply (advances_weaken (cost todo)); [lia|]. eapply (fetch_left_Ok _ todo M sl sr' c1 m br); [done..| |done].
    eapply (replies_replies_at Inv _ (extra + bl)); [rewrite Nat.add_comm; by apply replies_more|].
    by replace (extra + bl + (br + (length todo + 1) * right_budget + m)) with (br + (others + m)) by lia.
Qed.

Lemma round_Ok n b js s c m r0 out :
  joining n b (r0 :: out) (js, s) → Inv (b + m) c → advances n r0 out m (round (js, (s, c))).
Proof.
  intros Hj Hc. destruct (JoinState.pending js) as [|p pend] eqn:Hp; [|by eapply pop_Ok].
  remember (r0 :: out) as rs0 eqn:Hout. remember (js, s) as st eqn:Est.
  destruct Hj as [js' s' tl Hex Hn Htl|j M s' HM Hn Hr|before todo M pend s' Hls HM Hn Hin
    |before l todo flag j M pend s' Hls HM Hn Hin|before l todo flag j M pend s' bl Hls HM Hn Hb Hl];
    injection Est as <- <-.
  - rewrite Hp in Hout. simpl in Hout. subst tl. apply Forall_cons in Htl as [-> Htl].
    exists js', s', c, b, (Ok (Return None)). split.
    { unfold JoinOp.round, mbind, SR_bind, get_state. by rewrite Hp, Hex. }
    split; [done|]. split; [done|]. right. exists 1. split; [done|].
    replace out with (emit_stream (as_reply <$> JoinState.pending js') out) by (by rewrite Hp).
    by apply joining_exhausted.
  - eapply emitting_Ok; [|done]. rewrite <- Hout. by apply joining_emitting.
  - simpl in Hp. subst pend. destruct Hin as (bl & br & -> & Hl & Hr). destruct s' as [sl sr].
    eapply (advances_weaken (cost todo)); [done|].
    change (round (fresh M [], ((sl, sr), c))) with (fetch (fresh M [], ((sl, sr), c))).
    eapply (fetch_left_Ok before todo M sl sr c m br); [done..| |done]. eapply (replies_replies_at Inv _ bl); [done|].
    by replace (bl + (br + (length todo + 1) * right_budget + m))
      with (bl + br + (length todo + 1) * right_budget + m) by lia.
  - simpl in Hp. subst pend. eapply advances_weaken; [exact Hn|].
    change (round (at_left l flag j M [], (s', c))) with (join_batch (at_left l flag j M [], (s', c))).
    by eapply join_batch_Ok.
  - simpl in Hp. subst pend. by eapply finished_Ok.
Qed.

Notation next := (next spawn (on_right right_init) (on_left left_next) (on_right right_next)
  l_schema r_schema schema join_type condition parallelism).

(** The rounds up to an answer. *)
Lemma advances_next n r0 out m fuel js w :
  n < fuel → advances n r0 out m (round (js, w)) →
  ∃ js' s' c' b', next fuel (js, w) = ((js', (s', c')), r0) ∧ Inv (b' + m) c' ∧
    (out = [] ∨ ∃ n', n' ≤ n ∧ joining n' b' out (js', s')).
Proof.
  revert n js w. induction fuel as [|fuel IH]; intros n js w Hn Hr; [lia|].
  destruct Hr as (js1 & s1 & c1 & b1 & x & Hrun & Hc1 & Hx).
  cbn [JoinOp.next]. unfold mbind, SR_bind. rewrite Hrun.
  destruct x as [[t|]|e|]; [|destruct Hx as (n' & Hn' & Hj)| |done].
  - destruct Hx as [-> Hx]. by exists js1, s1, c1, b1.
  - destruct (IH n' js1 (s1, c1)) as (js' & s' & c' & b' & H & Hc' & Ho); [lia|by eapply round_Ok|].
    exists js', s', c', b'. split; [done|]. split; [done|].
    destruct Ho as [?|(k & ? & ?)]; [by left|right]. exists k. split; [lia|done].
  - destruct Hx as [-> ->]. by exists js1, s1, c1, b1; split; [|split; [|left]].
Qed.

End join.

(** ** The join of two inputs *)
Section join.
Context {C L R : Type} (Inv : nat → C → Prop).
Context (spawn : SR ((L * R) * C) (option nat)).
Context (left_init : SR (L * C) unit) (right_init : SR (R * C) unit).
Context (left_next : SR (L * C) (option Tuple.t)) (right_next : SR (R * C) (option Tuple.t)).
Context (spawn_ok : ∀ i c n, Inv n c → ∃ c', spawn (i, c) = ((i, c'), Ok None) ∧ Inv n c').
Context (l_schema r_schema schema : Schema.t) (join_type : JoinType.t) (condition : option Expr.t).
Context (parallelism fuel : nat).

(** The rounds of the join of [n] left rows and [k] right rows. *)
Definition join_rounds (n k : nat) : nat := n * (k + 4) + k + 5.

Lemma join_starts bl br size M right :
  starts Inv left_init left_next bl M →
  starts Inv right_init right_next br (eq right) →
  ended right ≠ Crashed →
  (∀ o, M o → ended o ≠ Crashed ∧ length (rows o) ≤ size ∧ ∀ l r, l ∈ rows o → r ∈ rows right →
    PhysicalNestedLoopJoin.join l_schema r_schema schema condition l r ≠ Panic) →
  (∀ o l, M o → l ∈ rows o → PhysicalNestedLoopJoin.combine l_schema r_schema schema (Some l) None ≠ Panic) →
  (∀ r, r ∈ rows right → PhysicalNestedLoopJoin.combine l_schema r_schema schema None (Some r) ≠ Panic) →
  (∀ o, M o → ended (join_rows l_schema r_schema schema join_type condition o right) ≠ Crashed) →
  join_rounds size (length (rows right)) ≤ fuel →
  starts Inv (with_input (JoinOp.init (on_left left_init) (on_right right_init)))
    (with_input (JoinOp.next spawn (on_right right_init) (on_left left_next) (on_right right_next)
      l_schema r_schema schema join_type condition parallelism fuel))
    (bl + (size + 2) * br)
    (λ o, ∃ ol, M ol ∧ o = join_rows l_schema r_schema schema join_type condition ol right).
Proof.
  intros Hl Hr Her Hjoin Hcl Hcr Hsound Hfuel [js [sl sr]] c m Hc.
  destruct (Hl sl c ((size + 2) * br + m)) as (sl' & c1 & bl' & Hil & Hc1 & Hpl).
  { by rewrite Nat.add_assoc. }
  destruct (Hr sr c1 (bl' + (size + 1) * br + m)) as (sr' & c2 & br' & Hir & Hc2 & Hpr).
  { by replace (br + (bl' + (size + 1) * br + m)) with (bl' + ((size + 2) * br + m)) by lia. }
  exists (JoinState.default, (sl', sr')), c2, (bl' + br' + (size + 1) * br). split; [|split].
  - unfold with_input, JoinOp.init, mbind, SR_bind, set_state, on_world, on_left, on_right.
    by rewrite Hil, Hir.
  - by replace (bl' + br' + (size + 1) * br + m) with (br' + (bl' + (size + 1) * br + m)) by lia.
  - apply promises_fixed in Hpr. intros c3 m3 Hc3.
    destruct (Hpl c3 (br' + (size + 1) * br + m3)) as ([ls el] & Ho & Hrl).
    { by replace (bl' + (br' + (size + 1) * br + m3)) with (bl' + br' + (size + 1) * br + m3) by lia. }
    destruct (Hjoin _ Ho) as (Hel & Hsize & Hj). cbn [rows ended] in *.
    eexists. split; [by eexists|].
    destruct right as [rs er]. cbn [rows ended] in *.
    pose proof (stream_not_nil _ (Hsound _ Ho)) as Hne.
    rewrite <- answers_join_rows in Hne |- *.
    assert (∀ l r, l ∈ ls → r ∈ rs →
      PhysicalNestedLoopJoin.join l_schema r_schema schema condition l r ≠ Panic) as Hj' by auto.
    assert (cost rs ls < fuel) as Hcost.
    { unfold cost. unfold join_rounds in Hfuel.
      pose proof (Nat.mul_le_mono_r _ _ (length rs + 4) Hsize). lia. }
    pose proof (advances_next Inv spawn right_init left_next right_next spawn_ok l_schema r_schema schema
      join_type condition parallelism ls el rs er br Hel Her Hr Hj' (λ l, Hcl _ l Ho) Hcr) as Hadvances.
    apply (replies_at_with Inv _ (λ b out s, ∃ n, n ≤ cost rs ls ∧
      joining Inv left_next right_next l_schema r_schema schema join_type condition ls el rs er br n b out s)).
    + done.
    + intros b r out js1 s1 c4 m4 (n & Hn & Hjn) Hc4.
      destruct (Hadvances n r out m4 fuel js1 (s1, c4)) as (js' & s' & c' & b' & H & Hc' & Hout); [lia| |].
      * by apply (round_Ok Inv spawn right_init left_next right_next spawn_ok l_schema r_schema schema
          join_type condition parallelism ls el rs er br Hel Her Hr Hj' (λ l, Hcl _ l Ho) Hcr n b).
      * exists js', s', c', b'. split; [done|]. split; [done|].
        destruct Hout as [?|(n' & ? & ?)]; [by left|right; exists n'; split; [lia|done]].
    + intros r out Hrs. set (extra := (size - length ls) * br).
      destruct (Hadvances (cost rs ls) r out (extra + m3) fuel JoinState.default ((sl', sr'), c3))
        as (js' & s' & c' & b' & H & Hc' & Hout); [done| |].
      * eapply (fetch_left_Ok Inv spawn right_init left_next right_next spawn_ok l_schema r_schema schema join_type
          condition parallelism ls el rs er br Hel Her Hr Hj' (λ l, Hcl _ l Ho) Hcr [] ls ∅ sl' sr' c3 (extra + m3) br');
          [done| |done| |done].
        -- intros i r' _. simpl. set_solver.
        -- replace (br' + (length ls + 1) * br + (extra + m3)) with (br' + (size + 1) * br + m3); [done|].
           unfold extra. assert ((size + 1) * br = (length ls + 1) * br + (size - length ls) * br); [|lia].
           rewrite <- Nat.mul_add_distr_r. f_equal. lia.
      * exists js', s', c', (b' + extra). split; [done|]. split; [by rewrite <- Nat.add_assoc|].
        destruct Hout as [?|(n' & ? & ?)]; [by left|right; exists n'; split; [done|by apply joining_more]].
Qed.

End join.
End JoiningFacts.
