(* ===== verification/Scans.v ===== *)
(** * Scans: the operators without inputs

    [Empty], [Values] and [SeqScan], serial and parallel, over the context of the engine.
    A snapshot says what the tables of a context hold; while a query runs the pages stay
    as they are and only the clock of the buffer pool moves, by a tick for each page that
    is read. *)
From S2P Require Import Prelude CommonCodec Floats Scalar Schema TupleCodec TablePage IndexPage.
From S2P Require Import DiskPages DiskManager Replacer BufferPool PageStore TableHeap Index Catalog.
From S2P Require Import Expressions LogicalPlan Operators Meaning Execution Streams Pipeline.
Local Open Scope Z_scope.

(** ** What a query reads *)
Module Snapshot.
Import TableHeapFacts TableHeapSpec.

(** A store of pages with room for [room] more, the schemas of the catalog, and where
    the tables are in the store: their handles, and their pages with the rows. *)
Record t := Mk {
  store : PageStore.t;
  room : nat;
  schemas : gmap string CatalogSchema.t;
  find : TableReference.t → option (TableHandle.t * pages_rows);
}.

Definition rows_in (cs : pages_rows) : list Tuple.t := (λ x, x.2.2) <$> rows_of cs.

Definition tables (sn : t) (table_ref : TableReference.t) : option (list Tuple.t) :=
  rows_in ∘ snd <$> find sn table_ref.

Section context.
Context {D : Type} `{DiskLaws D}.
Notation Ctx := (ExecutionContext.t D).

Definition pool (c : Ctx) : BufferPoolManager.t D := Catalog.buffer_pool (ExecutionContext.catalog c).

Definition with_pool (s : BufferPoolManager.t D) (c : Ctx) : Ctx :=
  ExecutionContext.Mk (Catalog.set_pool s (ExecutionContext.catalog c)) (ExecutionContext.events c).

(** [c] holds the snapshot, and its clock has [n] ticks left. *)
Record shown (sn : t) (n : nat) (c : Ctx) : Prop := Shown {
  shown_store : PageStore.shows (pool c) (store sn) (room sn);
  shown_schemas : Catalog.schemas (ExecutionContext.catalog c) = schemas sn;
  shown_clock : BufferPoolFacts.timestamp (pool c) + Z.of_nat n < 2 ^ 63;
  shown_tables : ∀ table_ref handle cs, find sn table_ref = Some (handle, cs) →
    Catalog.table_heap table_ref (ExecutionContext.catalog c) = Ok handle ∧
    heap_ok (Catalog.heap_of (ExecutionContext.catalog c) handle) (store sn) cs (room sn);
}.

(** Every table of the catalog is in the snapshot. *)
Definition covers (sn : t) (catalog : Catalog.t D) : Prop :=
  ∀ table_ref handle, Catalog.table_heap table_ref catalog = Ok handle →
    ∃ cs, find sn table_ref = Some (handle, cs).

Lemma heap_ok_pool h st cs n s :
  heap_ok h st cs n → PageStore.shows s st n → heap_ok (TableHeap.set_pool s h) st cs n.
Proof. intros [_ Hl Hf] Hs. split; [done| |done]. by apply listed_pool. Qed.

(** Only the pool and the clock changed. *)
Lemma shown_pool sn n n' c s :
  shown sn n c → PageStore.shows s (store sn) (room sn) →
  BufferPoolFacts.timestamp s + Z.of_nat n' < 2 ^ 63 → shown sn n' (with_pool s c).
Proof.
  intros [Hst Hsc Hcl Ht] Hs Hn. split; [done..|]. intros table_ref handle cs Hf.
  destruct (Ht table_ref handle cs Hf) as [Hh Hok]. split; [done|].
  apply (heap_ok_pool _ _ _ _ s Hok Hs).
Qed.

Lemma shown_fewer sn n n' c : (n' ≤ n)%nat → shown sn n c → shown sn n' c.
Proof. intros Hn [? ? ? ?]. split; [done..|lia|done]. Qed.

Lemma shown_event sn n c e :
  shown sn n c → shown sn n (ExecutionContext.Mk (ExecutionContext.catalog c) e).
Proof. by intros []. Qed.

End context.
End Snapshot.

Module ScanFacts.
Import Streams StreamFacts PipelineFacts TableHeapFacts TableHeapSpec Snapshot.

(** ** Sources that count their calls *)
Section counter.
Context {C : Type} (Inv : nat → C → Prop) (next : SR (Z * C) (option Tuple.t)) (steps : list (result Tuple.t)).
Context (next_Ok : ∀ k c, (k < length steps + 2)%nat → next (Z.of_nat k, c)
  = ((Z.of_nat (S k), c), match steps !! k with Some r => as_reply r | None => Ok None end)).
Context (steps_Ok : Forall (λ r, r ≠ Panic) steps).

Definition counting (b : nat) (rs : list reply) (s : Z) : Prop :=
  ∃ k, s = Z.of_nat k ∧ (k + length rs ≤ length steps + 2)%nat ∧
    (rs = stream (emit (as_reply <$> drop k steps) Done) ∨ ((length steps ≤ k)%nat ∧ nones rs)).

Lemma counting_Ok b r rs s c m :
  counting b (r :: rs) s → Inv (b + m) c →
  ∃ s' c' b', next (s, c) = ((s', c'), r) ∧ Inv (b' + m) c' ∧ (rs = [] ∨ counting b' rs s').
Proof using next_Ok steps_Ok.
  intros (k & -> & Hk & Hrs) Hc. cbn [length] in Hk. exists (Z.of_nat (S k)), c, b.
  rewrite next_Ok by lia. destruct (steps !! k) as [x|] eqn:Hx.
  - destruct Hrs as [Hrs|[Hge _]]; [|by apply lookup_lt_Some in Hx; lia].
    pose proof (Forall_lookup_1 _ _ _ _ steps_Ok Hx) as Hp.
    rewrite (drop_S _ _ _ Hx) in Hrs. cbn [fmap list_fmap] in Hrs. destruct x as [t|error|]; [| |done].
    + injection Hrs as -> ->. split_and!; [done..|right]. exists (S k). split_and!; [done|lia|by left].
    + injection Hrs as -> ->. by split_and!; [..|left].
  - apply lookup_ge_None in Hx. assert (r = Ok None ∧ nones rs) as [-> Hno].
    { destruct Hrs as [Hrs|[_ Hno]]; [|by apply Forall_cons in Hno].
      rewrite drop_ge in Hrs by done. injection Hrs as -> ->. by repeat constructor. }
    split_and!; [done..|right]. exists (S k). split_and!; [done|lia|right]. by split; [lia|].
Qed.

Lemma counting_length k :
  (length (stream (emit (as_reply <$> drop k steps) Done)) ≤ length (drop k steps) + 2)%nat.
Proof using.
  induction (drop k steps) as [|[t| |] l IH]; [done|..]; [|simpl; lia|simpl; lia].
  cbn [fmap list_fmap as_reply result_fmap emit]. rewrite stream_cons. cbn [length].
  destruct (emit _ _). simpl in *. lia.
Qed.

Lemma counter_starts : starts Inv (set_state 0) next 0 (eq (emit (as_reply <$> steps) Done)).
Proof using next_Ok steps_Ok.
  intros s c m Hc. exists 0, c, 0%nat. split_and!; [done..|]. intros c2 m2 Hc2. eexists. split; [done|].
  apply (replies_replies_at Inv next 0); [|done]. apply (replies_intro Inv next counting).
  { intros. by eapply counting_Ok. }
  exists 0%nat. split_and!; [done| |by left]. pose proof (counting_length 0). rewrite drop_0 in *. lia.
Qed.

End counter.

Section context.
Context {D : Type} `{DiskLaws D} `{Platform}.
Notation Ctx := (ExecutionContext.t D).

Lemma values_starts (Inv : nat → Ctx → Prop) schema rows :
  Forall (λ r, PhysicalValues.row schema r ≠ Panic) rows → Z.of_nat (length rows) + 2 < 2 ^ 32 →
  starts Inv (set_state 0) (values_next schema rows) 0 (eq (values_rows schema rows)).
Proof.
  intros Hp Hl. unfold values_rows.
  replace ((λ r, Some <$> PhysicalValues.row schema r) <$> rows)
    with (as_reply <$> (PhysicalValues.row schema <$> rows)) by (by rewrite <- list_fmap_compose).
  apply counter_starts; [|by apply Forall_fmap]. intros k c Hk. rewrite length_fmap in Hk.
  unfold values_next, mbind, SR_bind, get_state, set_state. rewrite wrap_small by (unfold unsigned_ok; lia).
  rewrite Nat2Z.id, list_lookup_fmap. replace (Z.of_nat k + 1) with (Z.of_nat (S k)) by lia.
  destruct (rows !! k) as [r|]; [|done]. simpl. unfold lift. by destruct (PhysicalValues.row schema r).
Qed.

Lemma empty_starts (Inv : nat → Ctx → Prop) produce_one_row schema :
  Tuple.new schema [] ≠ Panic ∨ produce_one_row = false →
  starts Inv (set_state 0) (empty_next (if produce_one_row then 1 else 0) schema) 0
    (eq (empty_rows produce_one_row schema)).
Proof.
  intros Hp. unfold empty_rows.
  replace (if produce_one_row then [Some <$> Tuple.new schema []] else [])
    with (as_reply <$> (if produce_one_row then [Tuple.new schema []] else [])) by (by destruct produce_one_row).
  apply counter_starts.
  2:{ destruct produce_one_row; [|constructor]. destruct Hp; [|done]. by repeat constructor. }
  intros k c Hk. unfold empty_next, mbind, SR_bind, get_state, set_state.
  rewrite wrap_small by (unfold unsigned_ok; destruct produce_one_row; simpl in Hk; lia).
  replace (Z.of_nat k + 1) with (Z.of_nat (S k)) by lia.
  destruct produce_one_row; simpl in Hk.
  - destruct k as [|k]; [|by destruct k as [|[]]; try lia]. simpl. unfold lift. by destruct (Tuple.new schema []).
  - by destruct k as [|[]]; try lia.
Qed.

(** ** The context of the engine *)
Section scans.
Context (sn : Snapshot.t) (spare : spare_frames 1 (store sn)).

Lemma spawn_shown {S} (i : S) c n :
  (∀ n, spawn_fails n = None) → shown sn n c →
  ∃ c', on_context spawn_ctx (i, c) = ((i, c'), Ok None) ∧ shown sn n c'.
Proof using.
  intros Hs Hc. eexists. split; [|by apply shown_event]. unfold on_context, on_world, spawn_ctx, next_event.
  by rewrite Hs.
Qed.

Lemma iteration_shown {S} (i : S) c n :
  (∀ n g, hash_order n g ≡ₚ g) → shown sn n c →
  ∃ c' order, on_context iteration_ctx (i, c) = ((i, c'), Ok order) ∧ shown sn n c' ∧ ∀ g, order g ≡ₚ g.
Proof using.
  intros Ho Hc. eexists _, _. split; [done|]. split; [by apply shown_event|]. intros g. apply Ho.
Qed.

(** *** The serial scan *)
Section serial.
Context (table_ref : TableReference.t) (handle : TableHandle.t) (cs : pages_rows) (fuel : nat).
Context (Hfind : find sn table_ref = Some (handle, cs)).

Definition found_rows (l : list (RecordId.t * row)) : list reply := stream (Out ((λ x, x.2.2) <$> l) Done).

(** Where the iterator of a scan is, whatever the pool is now. *)
Definition placed (it : TableIterator.t D) : Prop :=
  ∀ s, PageStore.shows s (store sn) (room sn) →
    scanning (TableIterator.set_heap (TableHeap.set_pool s (TableIterator.heap it)) it) (store sn) cs (room sn).

Definition scanning_at (rs : list reply) (it : TableIterator.t D) : Prop :=
  (TableIterator.ended it = true ∧ nones rs) ∨
  (placed it ∧ ∃ k i p rows, cs !! k = Some (p, rows) ∧ (i < length rows)%nat ∧
     TableIterator.cursor it = RecordId.Mk p (Z.of_nat i) ∧
     (rs = found_rows (after cs k i) ∨ (after cs k i = [] ∧ nones rs))).

Definition serial (b : nat) (rs : list reply) (s : SeqScanState (D:=D)) : Prop :=
  (3 * length rs ≤ b)%nat ∧ ∃ it, iterator s = Some it ∧ scanning_at rs it.

Lemma scanning_placed it : scanning it (store sn) cs (room sn) → placed it.
Proof. intros (Hh & ?) s Hs. split; [by apply heap_ok_pool|done]. Qed.

Definition row_reply (r : result (option (RecordId.t * Tuple.t))) : reply :=
  match r with Ok x => Ok (option_map snd x) | Err error => Err error | Panic => Panic end.

(** A call of the iterator on the pool of the context. *)
Lemma serial_call parallelism it sc c n m it' r :
  (1 <? parallelism)%nat = false → shown sn (n + m) c →
  TableIterator.next (TableIterator.set_heap (TableHeap.set_pool (pool c) (TableIterator.heap it)) it) = (it', r) →
  PageStore.shows (TableHeap.buffer_pool (TableIterator.heap it')) (store sn) (room sn) →
  clock it' ≤ BufferPoolFacts.timestamp (pool c) + 3 →
  (3 ≤ n)%nat →
  ∃ c', seq_scan_next parallelism fuel (MkSeqScanState (Some it) sc, c)
      = ((MkSeqScanState (Some it') sc, c'), row_reply r) ∧ shown sn (n - 3 + m) c'.
Proof.
  intros Hp Hc Hrun Hs Hts Hn. eexists. split.
  - unfold seq_scan_next. rewrite Hp. unfold get_state, lift, on_world, on_catalog, Catalog.on_iterator, mbind, SR_bind.
    simpl. unfold pool in Hrun. rewrite Hrun. unfold set_state. simpl.
    by destruct r as [[[]|]| |].
  - destruct Hc as [Hst Hcl Ht]. apply (shown_pool sn (n + m)); [by split|done|].
    unfold clock, now in Hts. lia.
Qed.

Lemma stream_found rid r rest : found_rows ((rid, r) :: rest) = Ok (Some r.2) :: found_rows rest.
Proof. done. Qed.

Lemma serial_next_Ok parallelism b r rs s c m :
  (1 <? parallelism)%nat = false → serial b (r :: rs) s → shown sn (b + m) c →
  ∃ s' c' b', seq_scan_next parallelism fuel (s, c) = ((s', c'), r) ∧ shown sn (b' + m) c' ∧
    (rs = [] ∨ serial b' rs s').
Proof.
  intros Hp (Hb & it & Hit & Hat) Hc. destruct s as [? sc]. simpl in Hit. subst. cbn [length] in Hb.
  pose proof (shown_store _ _ _ Hc) as Hst. pose proof (shown_clock _ _ _ Hc) as Hcl.
  set (it0 := TableIterator.set_heap (TableHeap.set_pool (pool c) (TableIterator.heap it)) it) in *.
  assert (∀ it' x, TableIterator.next it0 = (it', x) → row_reply x = r →
    PageStore.shows (TableHeap.buffer_pool (TableIterator.heap it')) (store sn) (room sn) →
    clock it' ≤ BufferPoolFacts.timestamp (pool c) + 3 → rs = [] ∨ scanning_at rs it' →
    ∃ s' c' b', seq_scan_next parallelism fuel (MkSeqScanState (Some it) sc, c) = ((s', c'), r) ∧
      shown sn (b' + m) c' ∧ (rs = [] ∨ serial b' rs s')) as Hcall.
  { intros it' x Hrun <- Hs Hts Hrest.
    destruct (serial_call parallelism it sc c b m it' x Hp Hc Hrun Hs Hts) as (c' & Hn & Hc'); [lia|].
    exists (MkSeqScanState (Some it') sc), c', (b - 3)%nat. split_and!; [done..|].
    destruct Hrest as [?|Hrest]; [by left|right]. split; [lia|by exists it']. }
  destruct Hat as [[Hend Hno]|[Hpl (k & i & p & rows & Hk & Hi & Hcur & Hrs)]].
  - apply Forall_cons in Hno as [-> Hno]. apply (Hcall it0 (Ok None)); [|done|done| |].
    + unfold TableIterator.next, gets, mbind, SR_bind. unfold it0. cbn [TableIterator.set_heap TableIterator.ended].
      by rewrite Hend.
    + unfold clock, now, it0. simpl. lia.
    + right. left. by split.
  - pose proof (next_Ok it0 (store sn) cs (room sn) k i p rows (Hpl _ Hst) Hk Hi Hcur spare) as Hn.
    specialize (Hn ltac:(unfold clock, now, it0; simpl; lia)).
    assert (clock it0 = BufferPoolFacts.timestamp (pool c)) as Hclk by done. rewrite Hclk in Hn.
    destruct (after cs k i) as [|[rid x] rest] eqn:Hafter.
    + destruct Hn as (it' & Hrun & Hsc & Hcur' & Hts & _).
      assert (r = Ok None ∧ nones rs) as [-> Hno].
      { destruct Hrs as [[= -> ->]|[_ Hno]]; [|by apply Forall_cons in Hno]. by repeat constructor. }
      apply (Hcall it' (Ok None)); [done|done|by apply Hsc|lia|]. right. right.
      split; [by apply scanning_placed|]. exists k, i, p, rows. split_and!; [done|done|by rewrite Hcur'|by right].
    + destruct Hn as (it' & k' & i' & rows' & Hrun & Hsc & Hk' & Hi' & Hcur' & Hrest & Hts & _).
      destruct Hrs as [Hrs|[? _]]; [|done]. rewrite stream_found in Hrs. injection Hrs as -> ->.
      apply (Hcall it' (Ok (Some (rid, x.2)))); [done|done|by apply Hsc|lia|]. right. right.
      split; [by apply scanning_placed|]. exists k', i', (RecordId.page_id rid), rows'.
      split_and!; [done..|left]. by rewrite Hrest.
Qed.

(** The heap of the table, on the pool of a context. *)
Lemma handle_heap_ok c n c2 n2 :
  shown sn n c → shown sn n2 c2 →
  heap_ok (TableHeap.set_pool (pool c2) (Catalog.heap_of (ExecutionContext.catalog c) handle))
    (store sn) cs (room sn).
Proof.
  intros Hc Hc2. destruct (shown_tables _ _ _ Hc _ _ _ Hfind) as [_ Hh].
  apply (heap_ok_pool _ _ _ _ _ Hh), (shown_store _ _ _ Hc2).
Qed.

Lemma serial_first_Ok parallelism c0 n0 c n m :
  (1 <? parallelism)%nat = false → shown sn n0 c0 → shown sn (n + m) c →
  (3 * (length (rows_of cs) + 2) ≤ n)%nat →
  let it := TableIterator.new (Catalog.heap_of (ExecutionContext.catalog c0) handle) Unbounded Unbounded in
  replies_at (shown sn) (seq_scan_next parallelism fuel) (found_rows (rows_of cs))
    (MkSeqScanState (Some it) None) c m.
Proof.
  intros Hp Hc0 Hc Hn it. pose proof (handle_heap_ok c0 n0 c _ Hc0 Hc) as Hh.
  pose proof (first_next_Ok _ _ _ _ Hh spare) as Hf. specialize (Hf ltac:(pose proof (shown_clock _ _ _ Hc); unfold now; simpl; lia)).
  set (h := TableHeap.set_pool _ _) in *. assert (now h = BufferPoolFacts.timestamp (pool c)) as Hnow by done.
  rewrite Hnow in Hf. unfold found_rows.
  destruct (rows_of cs) as [|[rid x] rest]; cbn [length] in Hn.
  - destruct Hf as (it' & Hrun & Hend & Hh' & Hts & _).
    destruct (serial_call parallelism it None c n m it' _ Hp Hc Hrun (heap_shows _ _ _ _ Hh')) as (c' & Hcall & Hc');
      [lia..|].
    eexists _, c', (n - 3)%nat. split_and!; [exact Hcall|done|].
    apply (replies_intro (shown sn) _ serial); [intros; by eapply serial_next_Ok|].
    split; [simpl; lia|]. exists it'. split; [done|]. left. by split; [|repeat constructor].
  - destruct Hf as (it' & k & i & rows & Hrun & Hsc & Hk & Hi & Hcur & Hrest & Hts & _).
    destruct (serial_call parallelism it None c n m it' _ Hp Hc Hrun (heap_shows _ _ _ _ (proj1 Hsc))) as (c' & Hcall & Hc');
      [lia..|].
    eexists _, c', (n - 3)%nat. split_and!; [exact Hcall|done|].
    apply (replies_intro (shown sn) _ serial); [intros; by eapply serial_next_Ok|].
    split; [rewrite length_app, !length_fmap; simpl; lia|]. exists it'. split; [done|]. right.
    split; [by apply scanning_placed|]. exists k, i, (RecordId.page_id rid), rows.
    split_and!; [done..|left]. by rewrite <- Hrest.
Qed.

Lemma serial_starts parallelism :
  (1 <? parallelism)%nat = false →
  starts (shown sn) (seq_scan_init table_ref parallelism) (seq_scan_next parallelism fuel)
    (3 * (length (rows_of cs) + 2)) (eq (Out (rows_in cs) Done)).
Proof.
  intros Hp s c m Hc. destruct (shown_tables _ _ _ Hc _ _ _ Hfind) as [Hh _].
  eexists _, c, _. split_and!; [|exact Hc|].
  - unfold seq_scan_init, ask_catalog, on_world, set_state, mbind, SR_bind. rewrite Hh, Hp. done.
  - intros c2 m2 Hc2. eexists. split; [done|]. by apply (serial_first_Ok parallelism c _ c2 _ m2 Hp Hc Hc2).
Qed.

End serial.
(** *** The parallel scan *)
Section parallel.
Context (table_ref : TableReference.t) (handle : TableHandle.t) (cs : pages_rows) (parallelism : nat).
Context (Hfind : find sn table_ref = Some (handle, cs)) (spawns : ∀ n, spawn_fails n = None).

Definition data_of (cs : pages_rows) : list Tuple.t := concat ((λ c : Z * list row, c.2.*2) <$> cs).

Lemma rows_in_data : rows_in cs = data_of cs.
Proof.
  unfold rows_in. clear Hfind. induction cs as [|[p rows] cs' IH]; [done|].
  change (rows_of ((p, rows) :: cs')) with (page_rows (p, rows) ++ rows_of cs').
  change (data_of ((p, rows) :: cs')) with (rows.*2 ++ data_of cs').
  rewrite fmap_app, IH. f_equal. unfold page_rows. rewrite fmap_imap. apply list_eq. intros i.
  rewrite list_lookup_imap, list_lookup_fmap. cbn [snd]. by destruct (rows !! i).
Qed.

Definition page_of (k : nat) : Z := match cs !! k with Some c => c.1 | None => INVALID_PAGE_ID end.

(** The scan after [k] pages, where the rows [pend] wait. *)
Definition after_pages (k : nat) (pend : list Tuple.t) : ScanState :=
  MkScanState handle (page_of k) (list_to_set (take k cs).*1) (Ok <$> pend).

Lemma read_scan_page_Ok c n k p rows :
  shown sn (S n) c → cs !! k = Some (p, rows) →
  ∃ c' tp, read_scan_page p (TableHandle.schema handle) c = (c', Ok tp) ∧ shown sn n c' ∧
    TablePageFacts.rep tp rows ∧ TablePageHeader.next_page_id (TablePage.header tp) = page_of (S k) ∧
    p ≠ INVALID_PAGE_ID.
Proof.
  intros Hc Hk. destruct (shown_tables _ _ _ Hc _ _ _ Hfind) as [_ Hh].
  pose proof (shown_clock _ _ _ Hc) as Hcl. pose proof (shown_store _ _ _ Hc) as Hst.
  set (h := Catalog.heap_of _ _) in Hh.
  pose proof (listed_page _ _ _ _ _ _ (heap_listed _ _ _ _ Hh) Hk) as Hp.
  destruct (fetch_Ok h _ _ p _ rows Hst Hp (heap_page_free _ _ _ _ _ _ _ Hh Hk) spare) as
    (s & f & tp & Hrun & Hf & Hs & Hts & Hrep & Hsch & Hnext); [unfold now; simpl; unfold pool in Hcl; lia|].
  destruct (PageStoreFacts.store_drop _ _ _ f p 1 Hs) as (s' & Hd & Hs' & Hts'); [by apply lookup_insert_eq|done|].
  cbn [PageStore.refs PageStore.set_refs PageStore.frames PageStore.pages] in Hs'.
  rewrite Z.eqb_refl in Hs'.
  assert (PageStore.shows s' (store sn) (room sn)) as Hs2 by (by rewrite <- (unpin (store sn) f p Hf)).
  assert (BufferPoolManager.fetch_table_page p (TableHandle.schema handle) (pool c) = (s, Ok (f, tp))) as Hfetch.
  { unfold TableHeap.fetch_table_page, gets, TableHeap.on_pool, mbind, SR_bind in Hrun. cbn in Hrun.
    unfold pool. destruct (BufferPoolManager.fetch_table_page _ _ _) as [s1 r1].
    unfold TableHeap.set_pool in Hrun. simpl in Hrun. congruence. }
  exists (with_pool s' c), tp. split_and!; [| |done|exact Hnext|].
  - unfold read_scan_page, on_catalog, Catalog.on_pool, mbind, SR_bind. unfold pool in Hfetch.
    rewrite Hfetch. simpl. by rewrite Hd.
  - apply (shown_pool _ _ _ c _ Hc Hs2). rewrite Hts'. unfold now in Hts. simpl in Hts. unfold pool in Hcl. lia.
  - destruct Hp as (bytes & ? & Hb & _). by apply (page_unsigned _ _ _ _ Hst).
Qed.

Lemma fresh_page k p rows :
  NoDup cs.*1 → cs !! k = Some (p, rows) → p ∉ (list_to_set (take k cs).*1 : gset Z) ∧
  ({[p]} ∪ list_to_set (take k cs).*1 : gset Z) = list_to_set (take (S k) cs).*1.
Proof.
  intros Hnd Hk. rewrite elem_of_list_to_set. split.
  - rewrite <- (take_drop_middle cs k _ Hk), fmap_app, NoDup_app in Hnd. destruct Hnd as (_ & Hnd & _).
    intros Hin. by apply (Hnd p Hin); left.
  - rewrite (take_S_r _ _ _ Hk), fmap_app, list_to_set_app_L. cbn [fmap list_fmap list_to_set fst].
    by rewrite union_empty_r_L, (comm_L (∪)).
Qed.

Lemma scan_pages_Ok n k pend pages c m :
  (k ≤ length cs)%nat → shown sn (length cs - k + m) c →
  let k' := Nat.min (k + n) (length cs) in
  ∃ c' tps, scan_pages n (after_pages k pend) pages c = (c', Ok (after_pages k' pend, pages ++ tps, None)) ∧
    shown sn (length cs - k' + m) c' ∧ Forall2 TablePageFacts.rep tps (take n (drop k cs)).*2.
Proof.
  revert k pages c. induction n as [|n IH]; intros k pages c Hk Hc.
  { exists c, []. rewrite Nat.add_0_r, app_nil_r, Nat.min_l by done. by split_and!; [..|constructor]. }
  cbn [scan_pages]. destruct (cs !! k) as [[p rows]|] eqn:Hp.
  - pose proof (lookup_lt_Some _ _ _ Hp) as Hlt.
    destruct (read_scan_page_Ok c (length cs - S k + m) k p rows) as (c1 & tp & Hrun & Hc1 & Hrep & Hnext & Hne);
      [by replace (S (length cs - S k + m)) with (length cs - k + m)%nat by lia|done|].
    assert (NoDup cs.*1) as Hnd.
    { destruct (shown_tables _ _ _ Hc _ _ _ Hfind) as [_ Hh]. apply (listed_chain _ _ _ (heap_listed _ _ _ _ Hh)). }
    destruct (fresh_page k p rows Hnd Hp) as [Hfresh Hset].
    destruct (IH (S k) (pages ++ [tp]) c1 Hlt Hc1) as (c' & tps & Hrest & Hc' & Hreps).
    exists c', (tp :: tps). replace (k + S n)%nat with (S k + n)%nat by lia.
    split_and!; [|done|by rewrite (drop_S _ _ _ Hp); constructor].
    assert (page_of k = p) as Hpage by (unfold page_of; by rewrite Hp).
    cbn [after_pages next_page visited heap pending]. rewrite Hpage, (proj2 (Z.eqb_neq _ _) Hne).
    rewrite bool_decide_eq_false_2 by done. unfold mbind, SR_bind, catch. rewrite Hrun, Hnext, Hset.
    unfold after_pages in Hrest. rewrite Hrest. by rewrite <- (assoc_L (++)).
  - apply lookup_ge_None in Hp. exists c, []. assert (k = length cs) as -> by lia.
    rewrite Nat.min_r by lia. rewrite drop_all, take_nil, app_nil_r. split_and!; [|done|constructor].
    unfold after_pages. cbn [next_page]. unfold page_of. by rewrite lookup_ge_None_2.
Qed.

Lemma page_rows_Ok n slot tp rows :
  TablePageFacts.rep tp rows → (slot + n = length rows)%nat →
  Execution.page_rows n (Z.of_nat slot) tp = Ok (Ok <$> (drop slot rows).*2).
Proof.
  intros Hrep. revert slot. induction n as [|n IH]; intros slot Hn; [by rewrite drop_ge by lia|].
  destruct (lookup_lt_is_Some_2 rows slot) as [[meta t] Hr]; [lia|].
  cbn [Execution.page_rows]. rewrite (TablePageFacts.tuple_rep _ _ _ Hrep), Hr.
  replace (Z.of_nat slot + 1) with (Z.of_nat (S slot)) by lia. rewrite IH by lia.
  by rewrite (drop_S _ _ _ Hr).
Qed.

Lemma decode_page_Ok tp rows : TablePageFacts.rep tp rows → decode_page tp = Ok (Ok <$> rows.*2).
Proof.
  intros Hrep. unfold decode_page. rewrite (TablePageFacts.rep_num _ _ Hrep), Nat2Z.id.
  apply (page_rows_Ok _ 0 tp rows Hrep). by rewrite (TablePageFacts.rep_length _ _ Hrep).
Qed.

Lemma decode_pages_Ok tps (l : pages_rows) :
  Forall2 TablePageFacts.rep tps l.*2 →
  ordered_map None tps parallelism decode_page = Ok (decode_page <$> tps) ∧
  flatten_pages (decode_page <$> tps) = Ok <$> data_of l.
Proof.
  intros Hreps. split.
  - apply ordered_map_Ok. intros tp Htp%list_elem_of_lookup. destruct Htp as [i Hi].
    destruct (Forall2_lookup_l _ _ _ _ _ Hreps Hi) as (rows & _ & Hrep). by rewrite (decode_page_Ok tp rows).
  - revert l Hreps. induction tps as [|tp tps IH]; intros [|[p rows] l] Hreps; try by inversion Hreps.
    apply Forall2_cons in Hreps as [Hrep Hreps]. unfold flatten_pages in *. cbn [fmap list_fmap concat].
    change (data_of ((p, rows) :: l)) with (rows.*2 ++ data_of l). rewrite fmap_app, <- (IH l Hreps).
    by rewrite (decode_page_Ok tp rows Hrep).
Qed.

Definition scan_state (k : nat) (pend : list Tuple.t) : SeqScanState (D:=D) :=
  MkSeqScanState None (Some (after_pages k pend)).

Lemma data_of_app l1 l2 : data_of (l1 ++ l2) = data_of l1 ++ data_of l2.
Proof. unfold data_of. by rewrite fmap_app, concat_app. Qed.

(** A batch of pages. *)
Lemma refill_scan_Ok fuel k c m :
  (k < length cs)%nat → shown sn (length cs - k + m) c →
  let k' := Nat.min (k + 16) (length cs) in
  ∃ c', next_parallel parallelism (S fuel) (scan_state k [], c)
      = next_parallel parallelism fuel (scan_state k' (data_of (take 16 (drop k cs))), c') ∧
    shown sn (length cs - k' + m) c'.
Proof.
  intros Hk Hc k'. destruct (scan_pages_Ok 16 k [] [] c m ltac:(lia) Hc) as (c1 & tps & Hrun & Hc1 & Hreps).
  fold k' in Hrun, Hc1. destruct (decode_pages_Ok tps _ Hreps) as [Hmap Hflat].
  exists (ExecutionContext.Mk (ExecutionContext.catalog c1) (S (ExecutionContext.events c1))).
  split; [|by apply shown_event]. destruct (lookup_lt_is_Some_2 cs k Hk) as [[p rows] Hp].
  destruct (read_scan_page_Ok c (length cs - S k + m) k p rows) as (_ & _ & _ & _ & _ & _ & Hne);
    [by replace (S (length cs - S k + m)) with (length cs - k + m)%nat by lia|done|].
  assert (page_of k =? INVALID_PAGE_ID = false) as Hpage.
  { unfold page_of. rewrite Hp. by apply Z.eqb_neq. }
  cbn [next_parallel]. unfold mbind, SR_bind, get_state, lift. cbn [scan_state Execution.scan ok_or after_pages pending next_page fmap list_fmap].
  rewrite Hpage. unfold on_world. rewrite Hrun. unfold spawn_ctx, next_event. rewrite spawns.
  cbn [app]. rewrite Hmap. unfold set_scan, modify_state. cbn [after_pages pending app fmap list_fmap].
  rewrite Hflat. unfold FilterOp.error_row. by rewrite app_nil_r.
Qed.

(** The rows of the scan after [k] pages, where [pend] waits, or its end. *)
Definition scan_replies (k : nat) (pend : list Tuple.t) (rs : list reply) : Prop :=
  rs = stream (Out (pend ++ data_of (drop k cs)) Done) ∨ (k = length cs ∧ pend = [] ∧ nones rs).

Definition parallel (b : nat) (rs : list reply) (s : SeqScanState (D:=D)) : Prop :=
  ∃ k pend, s = scan_state k pend ∧ (k ≤ length cs)%nat ∧ (length cs - k ≤ b)%nat ∧ scan_replies k pend rs.

Lemma parallel_here fuel k pend r rs c :
  pend ≠ [] ∨ k = length cs → scan_replies k pend (r :: rs) →
  ∃ pend', next_parallel parallelism (S fuel) (scan_state k pend, c) = ((scan_state k pend', c), r) ∧
    scan_replies k pend' rs.
Proof.
  intros Hor Hrs. destruct pend as [|t pend].
  - destruct Hor as [?| ->]; [done|]. exists []. assert (r = Ok None ∧ nones rs) as [-> Hno].
    { destruct Hrs as [Hrs|(_ & _ & Hno)]; [|by apply Forall_cons in Hno].
      rewrite drop_all in Hrs. injection Hrs as -> ->. by repeat constructor. }
    split; [|by right]. cbn [next_parallel]. unfold mbind, SR_bind, get_state, lift.
    cbn [scan_state Execution.scan ok_or after_pages pending next_page fmap list_fmap].
    unfold page_of. by rewrite lookup_ge_None_2.
  - exists pend. destruct Hrs as [Hrs|(_ & ? & _)]; [|done]. injection Hrs as -> ->. by split; [|left].
Qed.

Lemma data_first k :
  (∀ j c, cs !! j = Some c → (S j < length cs)%nat → c.2 ≠ []) → (k < length cs)%nat →
  data_of (take 16 (drop k cs)) ≠ [] ∨ Nat.min (k + 16) (length cs) = length cs.
Proof.
  intros Hne Hk. destruct (decide (S k < length cs)%nat) as [Hlt|]; [left|right; lia].
  destruct (lookup_lt_is_Some_2 cs k Hk) as [[p rows] Hp]. pose proof (Hne _ _ Hp Hlt) as Hrows.
  rewrite (drop_S _ _ _ Hp). by destruct rows.
Qed.

Lemma data_batch k :
  data_of (drop k cs) = data_of (take 16 (drop k cs)) ++ data_of (drop (Nat.min (k + 16) (length cs)) cs).
Proof.
  rewrite <- data_of_app. f_equal. rewrite <- (take_drop 16 (drop k cs)) at 1. f_equal. rewrite drop_drop.
  destruct (Nat.min_spec (k + 16) (length cs)) as [[_ ->]|[? ->]]; [done|].
  by rewrite !drop_ge by lia.
Qed.

Lemma parallel_next_Ok fuel b r rs s c m :
  (3 ≤ fuel)%nat → parallel b (r :: rs) s → shown sn (b + m) c →
  ∃ s' c' b', next_parallel parallelism fuel (s, c) = ((s', c'), r) ∧ shown sn (b' + m) c' ∧
    (rs = [] ∨ parallel b' rs s').
Proof.
  intros Hfuel (k & pend & -> & Hk & Hb & Hrs) Hc. destruct fuel as [|[|fuel]]; [lia..|].
  destruct (decide (pend ≠ [] ∨ k = length cs)) as [Hor|Hn].
  - destruct (parallel_here (S fuel) k pend r rs c Hor Hrs) as (pend' & Hrun & Hrs').
    exists (scan_state k pend'), c, b. split_and!; [done..|right]. by exists k, pend'.
  - assert (pend = [] ∧ (k < length cs)%nat) as [-> Hlt] by (split; [destruct pend; naive_solver|lia]). clear Hn.
    destruct (refill_scan_Ok (S fuel) k c (b - (length cs - k) + m) Hlt) as (c1 & Hrun & Hc1).
    { by replace (length cs - k + (b - (length cs - k) + m))%nat with (b + m)%nat by lia. }
    set (k' := Nat.min (k + 16) (length cs)) in *.
    assert (scan_replies k' (data_of (take 16 (drop k cs))) (r :: rs)) as Hrs'.
    { destruct Hrs as [Hrs|(? & _)]; [left|lia]. cbn [app] in Hrs. by rewrite (data_batch k) in Hrs. }
    assert (data_of (take 16 (drop k cs)) ≠ [] ∨ k' = length cs) as Hor.
    { apply data_first; [|done]. destruct (shown_tables _ _ _ Hc _ _ _ Hfind) as [_ Hh].
      apply (listed_rows _ _ _ (heap_listed _ _ _ _ Hh)). }
    destruct (parallel_here fuel k' _ r rs c1 Hor Hrs') as (pend' & Hrun' & Hrs2).
    exists (scan_state k' pend'), c1, (length cs - k' + (b - (length cs - k)))%nat. split_and!.
    + by rewrite Hrun.
    + by rewrite <- Nat.add_assoc.
    + right. exists k', pend'. split_and!; [done|unfold k'; lia|lia|done].
Qed.

Lemma pages_le_rows : (∀ j c, cs !! j = Some c → (S j < length cs)%nat → c.2 ≠ []) →
  (length cs ≤ length (data_of cs) + 1)%nat.
Proof.
  clear Hfind. induction cs as [|[p rows] cs' IH]; [simpl; lia|]. intros Hne.
  change (data_of ((p, rows) :: cs')) with (rows.*2 ++ data_of cs'). rewrite length_app, length_fmap. cbn [length].
  assert (∀ j c, cs' !! j = Some c → (S j < length cs')%nat → c.2 ≠ []) as Hne'.
  { intros j c Hj Hlt. apply (Hne (S j) c Hj). simpl. lia. }
  specialize (IH Hne'). destruct cs' as [|c cs']; [simpl; lia|].
  pose proof (Hne 0%nat _ eq_refl ltac:(simpl; lia)). destruct rows; [done|]. cbn [length] in *. lia.
Qed.

Lemma parallel_starts fuel :
  (1 <? parallelism)%nat = true → (3 ≤ fuel)%nat →
  starts (shown sn) (seq_scan_init table_ref parallelism) (seq_scan_next parallelism fuel)
    (3 * (length (rows_in cs) + 2)) (eq (Out (rows_in cs) Done)).
Proof.
  intros Hp Hfuel s c m Hc. destruct (shown_tables _ _ _ Hc _ _ _ Hfind) as [Hh Hok].
  exists (scan_state 0 []), c, (3 * (length (rows_in cs) + 2))%nat. split_and!; [|done|].
  - unfold seq_scan_init, ask_catalog, on_world, set_state, mbind, SR_bind. rewrite Hh, Hp.
    unfold scan_state, after_pages, page_of.
    pose proof (listed_first _ _ _ (heap_listed _ _ _ _ Hok)) as Hf. cbn in Hf.
    destruct cs as [|c0 cs']; [done|]. injection Hf as Hf. cbn [lookup list_lookup take fmap list_fmap list_to_set].
    by rewrite Hf.
  - intros c2 m2 Hc2. eexists. split; [done|].
    eapply (replies_replies_at (shown sn)); [|exact Hc2]. unfold seq_scan_next. rewrite Hp.
    apply (replies_intro (shown sn) _ parallel); [intros; by eapply parallel_next_Ok|].
    exists 0%nat, []. split_and!; [done|lia| |].
    + pose proof (pages_le_rows (listed_rows _ _ _ (heap_listed _ _ _ _ Hok))). rewrite rows_in_data. lia.
    + left. by rewrite rows_in_data.
Qed.

End parallel.

(** A scan yields the rows of the table, whatever the number of workers. *)
Lemma seq_scan_starts table_ref l parallelism fuel :
  (∀ n, spawn_fails n = None) → tables sn table_ref = Some l → (3 ≤ fuel)%nat →
  starts (shown sn) (seq_scan_init table_ref parallelism) (seq_scan_next parallelism fuel)
    (3 * (length l + 2)) (eq (Out l Done)).
Proof.
  intros Hs Ht Hf. unfold tables in Ht. destruct (find sn table_ref) as [[handle cs]|] eqn:Hfind; [|done].
  injection Ht as <-. cbn [compose snd]. destruct (1 <? parallelism)%nat eqn:Hp.
  - by eapply parallel_starts.
  - unfold rows_in at 1. rewrite length_fmap. by eapply serial_starts.
Qed.

End scans.

End context.
End ScanFacts.
