(* ===== verification/ExecutionSpec.v ===== *)
(** * ExecutionSpec: executing the plan of a query

    The execution of the physical plan of a query against its meaning. A query comes
    with bounds: the rows it may yield, the pages its operators read and the rounds its
    loops take; [computes] is what the operators compute, an outcome that the query
    means. The theorems go through the operators of the plan from its leaves. *)
From S2P Require Import Prelude CommonCodec Floats Scalar Schema TupleCodec TablePage IndexPage.
From S2P Require Import DiskPages DiskManager Replacer BufferPool PageStore TableHeap Index Catalog.
From S2P Require Import Expressions LogicalPlan Operators Meaning Typing Execution Planner.
From S2P Require Import Streams Pipeline Grouping Aggregation Joining Scans.
Local Open Scope nat_scope.

(** ** Bounds *)
Module QueryBounds.
Import JoiningFacts PipelineFacts.

Section tables.
Context (tables : TableReference.t → option (list Tuple.t)).

(** The rows of a table. *)
Definition table_size (table_ref : TableReference.t) : nat := length (default [] (tables table_ref)).

(** At most so many rows. *)
Fixpoint max_rows (p : LogicalPlan.t) : nat :=
  match p with
  | LogicalPlan.TableScan table_ref _ _ _ => table_size table_ref
  | LogicalPlan.Values _ values => length values
  | LogicalPlan.EmptyRelation produce_one_row _ => if produce_one_row then 1 else 0
  | LogicalPlan.Filter _ input | LogicalPlan.Project _ input _ | LogicalPlan.Limit _ _ input
  | LogicalPlan.Sort _ input _ => max_rows input
  | LogicalPlan.Join l_plan r_plan _ _ _ => (max_rows l_plan + 1) * (max_rows r_plan + 1)
  | LogicalPlan.Aggregate input _ _ _ => max_rows input + 1
  | LogicalPlan.CreateTable _ _ | LogicalPlan.CreateIndex _ _ _ _ | LogicalPlan.Insert _ _ _ _
  | LogicalPlan.Update _ _ _ _ => 0
  end.

(** At most so many page reads: a join runs its right side once for each row of the
    left side, and two more times. *)
Fixpoint ticks (p : LogicalPlan.t) : nat :=
  match p with
  | LogicalPlan.TableScan table_ref _ _ _ => 3 * (table_size table_ref + 2)
  | LogicalPlan.Filter _ input | LogicalPlan.Project _ input _ | LogicalPlan.Limit _ _ input
  | LogicalPlan.Sort _ input _ | LogicalPlan.Aggregate input _ _ _ => ticks input
  | LogicalPlan.Join l_plan r_plan _ _ _ => ticks l_plan + (max_rows l_plan + 2) * ticks r_plan
  | LogicalPlan.Values _ _ | LogicalPlan.EmptyRelation _ _ | LogicalPlan.CreateTable _ _
  | LogicalPlan.CreateIndex _ _ _ _ | LogicalPlan.Insert _ _ _ _ | LogicalPlan.Update _ _ _ _ => 0
  end.

(** At most so many rounds of a loop in one call of [next]. *)
Fixpoint rounds (p : LogicalPlan.t) : nat :=
  match p with
  | LogicalPlan.TableScan _ _ _ _ => 3
  | LogicalPlan.Filter _ input | LogicalPlan.Project _ input _ | LogicalPlan.Limit _ _ input
  | LogicalPlan.Sort _ input _ | LogicalPlan.Aggregate input _ _ _ =>
      Nat.max (rounds input) (max_rows input + 2)
  | LogicalPlan.Join l_plan r_plan _ _ _ =>
      Nat.max (Nat.max (rounds l_plan) (rounds r_plan)) (join_rounds (max_rows l_plan) (max_rows r_plan))
  | LogicalPlan.Values _ _ | LogicalPlan.EmptyRelation _ _ | LogicalPlan.CreateTable _ _
  | LogicalPlan.CreateIndex _ _ _ _ | LogicalPlan.Insert _ _ _ _ | LogicalPlan.Update _ _ _ _ => 0
  end.

(** The counters of the operators do not overflow: the cursor of [Values], the count of
    an aggregation; a limit is a [usize]. *)
Fixpoint bounded (p : LogicalPlan.t) : Prop :=
  match p with
  | LogicalPlan.Values _ values => (Z.of_nat (length values) + 2 < 2 ^ 32)%Z
  | LogicalPlan.Filter _ input | LogicalPlan.Project _ input _ | LogicalPlan.Sort _ input _ => bounded input
  | LogicalPlan.Limit limit _ input => (∀ n, limit = Some n → 0 ≤ n < 2 ^ 64)%Z ∧ bounded input
  | LogicalPlan.Aggregate input _ _ _ => (Z.of_nat (max_rows input) < 2 ^ 63)%Z ∧ bounded input
  | LogicalPlan.Join l_plan r_plan _ _ _ => bounded l_plan ∧ bounded r_plan
  | LogicalPlan.TableScan _ _ _ _ | LogicalPlan.EmptyRelation _ _ | LogicalPlan.CreateTable _ _
  | LogicalPlan.CreateIndex _ _ _ _ | LogicalPlan.Insert _ _ _ _ | LogicalPlan.Update _ _ _ _ => True
  end.

(** No aggregation: whenever the query runs, its rows come in the same order. *)
Fixpoint ordered (p : LogicalPlan.t) : bool :=
  match p with
  | LogicalPlan.Filter _ input | LogicalPlan.Project _ input _ | LogicalPlan.Limit _ _ input
  | LogicalPlan.Sort _ input _ => ordered input
  | LogicalPlan.Join l_plan r_plan _ _ _ => ordered l_plan && ordered r_plan
  | LogicalPlan.Aggregate _ _ _ _ => false
  | _ => true
  end.

(** A join counts the rows of its right side, which it runs again for each row of the
    left side: they come in the same order. *)
Fixpoint repeatable (p : LogicalPlan.t) : bool :=
  match p with
  | LogicalPlan.Filter _ input | LogicalPlan.Project _ input _ | LogicalPlan.Limit _ _ input
  | LogicalPlan.Sort _ input _ | LogicalPlan.Aggregate input _ _ _ => repeatable input
  | LogicalPlan.Join l_plan r_plan _ _ _ => repeatable l_plan && repeatable r_plan && ordered r_plan
  | _ => true
  end.

(** What the operators compute. *)
Fixpoint computes (p : LogicalPlan.t) (o : outcome) : Prop :=
  match p with
  | LogicalPlan.TableScan table_ref _ _ _ => ∃ l, tables table_ref = Some l ∧ o = Out l Done
  | LogicalPlan.Values s values => o = values_rows s values
  | LogicalPlan.EmptyRelation produce_one_row s => o = empty_rows produce_one_row s
  | LogicalPlan.Filter predicate input => ∃ oi, computes input oi ∧ o = filter_rows predicate oi
  | LogicalPlan.Project exprs input s => ∃ oi, computes input oi ∧ o = project_rows exprs s oi
  | LogicalPlan.Limit limit offset input => ∃ oi, computes input oi ∧ o = limit_rows limit offset oi
  | LogicalPlan.Sort order_by input _ => ∃ oi, computes input oi ∧ o = sort_rows order_by oi
  | LogicalPlan.Join l_plan r_plan join_type condition s =>
      ∃ ol or, computes l_plan ol ∧ computes r_plan or ∧
        o = join_rows (LogicalPlan.schema l_plan) (LogicalPlan.schema r_plan) s join_type condition ol or
  | LogicalPlan.Aggregate input group_exprs aggr_exprs s =>
      ∃ oi, computes input oi ∧ aggregates group_exprs aggr_exprs s oi o
  | LogicalPlan.CreateTable _ _ | LogicalPlan.CreateIndex _ _ _ _ | LogicalPlan.Insert _ _ _ _
  | LogicalPlan.Update _ _ _ _ => False
  end.

Lemma computes_means p o : computes p o → means tables p o.
Proof.
  revert o. induction p; simpl; intros o Ho; try done.
  - destruct Ho as (oi & Hoi & ->). exists oi. by split; [apply IHp|].
  - destruct Ho as (ol & or & Hol & Hor & ->). exists ol, or. by split_and!; [apply IHp1|apply IHp2|].
  - destruct Ho as (oi & Hoi & ->). exists oi. by split; [apply IHp|].
  - destruct Ho as (oi & Hoi & ->). exists oi. by split; [apply IHp|].
  - destruct Ho as (oi & Hoi & ->). exists oi. split; [by apply IHp|apply sort_rows_sorts].
  - destruct Ho as (oi & Hoi & Ho). exists oi. by split; [apply IHp|].
Qed.

Lemma computes_total p : TotalFacts.readable tables p → ∃ o, computes p o.
Proof.
  induction p; simpl; try done.
  - intros (oi & Hoi)%IHp. by eexists _, oi.
  - intros [(ol & Hol)%IHp1 (or & Hor)%IHp2]. by eexists _, ol, or.
  - intros (oi & Hoi)%IHp. by eexists _, oi.
  - intros (oi & Hoi)%IHp. by eexists _, oi.
  - intros [l Hl]. by eexists _, l.
  - intros (oi & Hoi)%IHp. by eexists _, oi.
  - by eexists.
  - by eexists.
  - intros (oi & Hoi)%IHp.
    destruct (TotalFacts.aggregates_total group_exprs aggr_exprs schema oi) as [o Ho]. by exists o, oi.
Qed.

(** Without an aggregation there is one outcome. *)
Lemma computes_unique p o1 o2 : ordered p = true → computes p o1 → computes p o2 → o1 = o2.
Proof.
  revert o1 o2. induction p; simpl; intros o1 o2 Ho H1 H2; try done.
  - destruct H1 as (i1 & H1 & ->), H2 as (i2 & H2 & ->). by rewrite (IHp i1 i2).
  - apply andb_true_iff in Ho as [Hol Hor]. destruct H1 as (l1 & r1 & Hl1 & Hr1 & ->), H2 as (l2 & r2 & Hl2 & Hr2 & ->).
    by rewrite (IHp1 l1 l2), (IHp2 r1 r2).
  - destruct H1 as (i1 & H1 & ->), H2 as (i2 & H2 & ->). by rewrite (IHp i1 i2).
  - destruct H1 as (i1 & H1 & ->), H2 as (i2 & H2 & ->). by rewrite (IHp i1 i2).
  - destruct H1 as (l1 & H1 & ->), H2 as (l2 & H2 & ->). by simplify_eq.
  - destruct H1 as (i1 & H1 & ->), H2 as (i2 & H2 & ->). by rewrite (IHp i1 i2).
  - by subst.
  - by subst.
Qed.

(** *** The rows of each operator *)
Lemma emit_length steps e : length (rows (emit steps e)) ≤ length steps.
Proof. induction steps as [|[[t|]| |] steps IH]; simpl; lia. Qed.

Lemma and_then_length o1 o2 : length (rows (and_then o1 o2)) ≤ length (rows o1) + length (rows o2).
Proof. destruct o1 as [l []]; simpl; rewrite ?length_app; lia. Qed.

Lemma all_outcomes_length os n :
  Forall (λ o, length (rows o) ≤ n) os → length (rows (all_outcomes os)) ≤ length os * n.
Proof.
  induction 1 as [|o os Ho _ IH]; [done|]. cbn [all_outcomes foldr length].
  pose proof (and_then_length o (all_outcomes os)). unfold all_outcomes in *. lia.
Qed.

Lemma limit_length limit offset o : length (rows (limit_rows limit offset o)) ≤ length (rows o).
Proof. unfold limit_rows. repeat case_match; simpl; rewrite ?length_take, length_drop; lia. Qed.

Lemma sort_length order_bys o : length (rows (sort_rows order_bys o)) ≤ length (rows o).
Proof.
  pose proof (sort_rows_sorts order_bys None o) as Hs. unfold sorts in Hs.
  destruct (ended o); [|by rewrite Hs; simpl; lia..].
  destruct (comparable _ _).
  - destruct Hs as (k & (Hp & _) & [-> |(n & m & [=] & _)]). simpl. by rewrite Hp.
  - destruct Hs as [[e ->]|(k & Hp & ->)]; simpl; [lia|by rewrite Hp].
Qed.

Lemma collected_length {A} (f : A → result Tuple.t) l : length (rows (collected (mapR f l))) ≤ length l.
Proof.
  destruct (mapR f l) as [k| |] eqn:Hk; simpl; [|lia..]. by rewrite (mapR_length _ _ _ Hk).
Qed.

Lemma aggregates_length group_exprs aggr_exprs s oi o :
  aggregates group_exprs aggr_exprs s oi o → length (rows o) ≤ length (rows oi) + 1.
Proof.
  unfold aggregates. destruct (ended oi); [|by intros [? ->]; simpl; lia..].
  destruct (aggregable _ _ _); [|by intros [e ->]; simpl; lia].
  intros (groups & (Hnd & Hkeys & _) & ->). etrans; [apply collected_length|].
  rewrite <- (length_fmap fst groups).
  set (keys := [] :: ((λ t, match key_of group_exprs t with Ok key => key | _ => [] end) <$> rows oi)).
  assert (length groups.*1 ≤ length keys) as Hl.
  { apply submseteq_length, NoDup_submseteq; [done|]. intros key Hkey. apply Hkeys in Hkey.
    apply elem_of_cons. destruct Hkey as [(t & Ht & Hk)|[_ ->]]; [right|by left].
    apply list_elem_of_fmap. exists t. by rewrite Hk. }
  unfold keys in Hl. cbn [length] in Hl. rewrite !length_fmap in Hl. rewrite length_fmap. lia.
Qed.

Lemma join_length l_schema r_schema s join_type condition ol or :
  length (rows (join_rows l_schema r_schema s join_type condition ol or))
    ≤ (length (rows ol) + 1) * (length (rows or) + 1).
Proof.
  unfold join_rows. etrans; [apply and_then_length|]. set (n := length (rows or)).
  assert (length (rows (all_outcomes (left_rows l_schema r_schema s join_type condition or <$> rows ol)))
    ≤ length (rows ol) * (n + 1)) as H1.
  { rewrite <- (length_fmap (left_rows l_schema r_schema s join_type condition or) (rows ol)).
    apply all_outcomes_length, Forall_fmap, Forall_true. intros l. simpl. unfold left_rows.
    etrans; [apply and_then_length|].
    pose proof (emit_length (PhysicalNestedLoopJoin.join l_schema r_schema s condition l <$> rows or) (ended or)) as He.
    rewrite length_fmap in He. fold n in He. set (o := emit _ _) in *.
    case_match; [case_match|]; [|simpl in *; lia..].
    etrans; [apply Nat.add_le_mono_l, emit_length|]. simpl. lia. }
  set (o2 := and_then (Out [] (ended ol)) _). assert (length (rows o2) ≤ n) as H2; [|lia].
  unfold o2. etrans; [apply and_then_length|]. simpl. case_match; [|simpl; lia].
  unfold unmatched_right. etrans; [apply emit_length|]. by rewrite length_fmap.
Qed.

Lemma computes_rows p o : computes p o → length (rows o) ≤ max_rows p.
Proof.
  revert o. induction p; simpl; intros o Ho; try done.
  - destruct Ho as (oi & Hoi & ->). etrans; [apply emit_length|]. rewrite length_fmap. by apply IHp.
  - destruct Ho as (ol & or & Hol%IHp1 & Hor%IHp2 & ->). etrans; [apply join_length|]. by apply Nat.mul_le_mono; lia.
  - destruct Ho as (oi & Hoi & ->). etrans; [apply limit_length|]. by apply IHp.
  - destruct Ho as (oi & Hoi & ->). etrans; [apply emit_length|]. rewrite length_fmap. by apply IHp.
  - destruct Ho as (l & Hl & ->). unfold table_size. by rewrite Hl.
  - destruct Ho as (oi & Hoi & ->). etrans; [apply sort_length|]. by apply IHp.
  - subst. etrans; [apply emit_length|]. by rewrite length_fmap.
  - subst. etrans; [apply emit_length|]. by case_match; simpl; lia.
  - destruct Ho as (oi & Hoi%IHp & Ho). apply aggregates_length in Ho. lia.
Qed.

End tables.
End QueryBounds.

(** ** The plan of a query *)
Module QueryExecution.
Import Streams StreamFacts PipelineFacts AggregationFacts JoiningFacts ScanFacts QueryBounds.
Import Typing TypingFacts.

Section query.
Context {D : Type} `{DiskLaws D} `{Platform} (sql_type_name : DataType.t → string).
Notation Ctx := (ExecutionContext.t D).
Context (spawns : ∀ n, spawn_fails n = None) (orders : ∀ n g, hash_order n g ≡ₚ g).
Context (sn : Snapshot.t) (spare : TableHeapFacts.spare_frames 1 (Snapshot.store sn)).
Notation tables := (Snapshot.tables sn).
Notation Inv := (Snapshot.shown sn (D:=D)).

(** The tables of the snapshot are in the catalog and have no index. *)
Definition unindexed (catalog : Catalog.t D) : Prop :=
  ∀ table_ref x, Snapshot.find sn table_ref = Some x →
    ∃ ct, Catalog.catalog_table table_ref catalog = Ok ct ∧ CatalogTable.indexes ct = ∅.

Context (planner : PhysicalPlanner.t (D:=D)) (Hcat : unindexed (PhysicalPlanner.catalog planner)).

(** The physical plan of [p] starts what [p] computes. *)
Definition planned (fuel : nat) (p : LogicalPlan.t) : Prop :=
  ∃ pp, PhysicalPlanner.build_plan planner p = Ok pp ∧
    PhysicalPlan.output_schema pp = LogicalPlan.schema p ∧
    starts Inv (init pp) (next sql_type_name fuel pp) (ticks tables p) (computes tables p).

Lemma computes_Ok p o :
  well_typed tables p → computes tables p o →
  sound (LogicalPlan.schema p) o ∧ length (rows o) ≤ max_rows tables p.
Proof.
  intros Hp Ho. split; [|by apply computes_rows].
  eapply well_typed_sound; [done|by apply computes_means].
Qed.

Lemma planned_scan fuel table_ref s filters limit :
  is_Some (tables table_ref) → 3 ≤ fuel → planned fuel (LogicalPlan.TableScan table_ref s filters limit).
Proof.
  intros [l Hl] Hf. pose proof Hl as Hfind. unfold Snapshot.tables in Hfind.
  destruct (Snapshot.find sn table_ref) as [x|] eqn:Hx; [|done]. destruct (Hcat _ _ Hx) as (ct & Hct & Hidx).
  unfold planned. cbn [PhysicalPlanner.build_plan]. unfold PhysicalPlanner.plan_scan.
  unfold Catalog.catalog_table in Hct.
  destruct (Catalog.schemas (PhysicalPlanner.catalog planner) !! schema_name table_ref) as [cs|]; [|done].
  simpl in Hct. cbn [unwrap mbind result_bind].
  destruct (CatalogSchema.tables cs !! TableReference.table table_ref) as [ct'|]; [|done].
  injection Hct as ->. rewrite Hidx, map_to_list_empty.
  eexists. split_and!; [done..|]. unfold computes, ticks, table_size. rewrite Hl. cbn [default].
  eapply starts_weaken; [done| |by apply (seq_scan_starts sn spare)]. intros o <-. by exists l.
Qed.

(** An operator over one input. *)
Lemma planned_input fuel p input :
  planned fuel input → well_typed tables input →
  (∀ ppi, PhysicalPlan.output_schema ppi = LogicalPlan.schema input →
    starts Inv (init ppi) (next sql_type_name fuel ppi) (ticks tables input) (computes tables input) →
    (∀ o, computes tables input o → sound (LogicalPlan.schema input) o ∧ length (rows o) ≤ max_rows tables input) →
    ∃ pp, (PhysicalPlanner.build_plan planner input = Ok ppi → PhysicalPlanner.build_plan planner p = Ok pp) ∧
      PhysicalPlan.output_schema pp = LogicalPlan.schema p ∧
      starts Inv (init pp) (next sql_type_name fuel pp) (ticks tables p) (computes tables p)) →
  planned fuel p.
Proof.
  intros (ppi & Hb & Hs & Hst) Ht Hp. destruct (Hp ppi Hs Hst) as (pp & Hb' & ? & ?).
  - intros o Ho. by apply computes_Ok.
  - exists pp. split; [by apply Hb'|done].
Qed.

Lemma spawn_Ok {S} (i : S) c n : Inv n c → ∃ c', on_context spawn_ctx (i, c) = ((i, c'), Ok None) ∧ Inv n c'.
Proof. intros. by apply spawn_shown. Qed.

Lemma planned_filter fuel predicate input :
  planned fuel input → well_typed tables input → max_rows tables input + 2 ≤ fuel →
  planned fuel (LogicalPlan.Filter predicate input).
Proof.
  intros Hi Ht Hf. eapply planned_input; [exact Hi|done|]. intros ppi Hs Hst HM. eexists. split_and!.
  - cbn [PhysicalPlanner.build_plan]. by intros ->.
  - exact Hs.
  - apply (filter_starts Inv); [apply spawn_Ok|exact Hst|].
    intros o Ho. destruct (HM o Ho) as [[He _] Hl]. split; [done|lia].
Qed.

Lemma planned_project fuel exprs input s :
  planned fuel input → well_typed tables (LogicalPlan.Project exprs input s) →
  planned fuel (LogicalPlan.Project exprs input s).
Proof.
  intros Hi [Ht Hx]. eapply planned_input; [exact Hi|done|]. intros ppi Hs Hst HM. eexists. split_and!.
  - cbn [PhysicalPlanner.build_plan]. by intros ->.
  - done.
  - apply (project_starts Inv); [apply spawn_Ok|exact Hst|].
    intros o Ho. destruct (HM o Ho) as [[He Hr] Hl]. split; [done|].
    eapply Forall_impl; [exact Hr|]. intros t Htt Hp.
    assert (sound (LogicalPlan.schema input) (Out [t] Done)) as Ho1 by (split; [done|by constructor]).
    destruct (project_sound _ s exprs _ Hx Ho1) as [Hne _]. unfold project_rows in Hne. simpl in Hne.
    by rewrite Hp in Hne.
Qed.

Lemma planned_limit fuel limit offset input :
  planned fuel input → well_typed tables input → (∀ n, limit = Some n → 0 ≤ n < 2 ^ 64)%Z →
  max_rows tables input + 2 ≤ fuel → planned fuel (LogicalPlan.Limit limit offset input).
Proof.
  intros Hi Ht Hn Hf. eapply planned_input; [exact Hi|done|]. intros ppi Hs Hst HM. eexists. split_and!.
  - cbn [PhysicalPlanner.build_plan]. by intros ->.
  - exact Hs.
  - apply (limit_starts Inv); [done|exact Hst|].
    intros o Ho. destruct (HM o Ho) as [[He _] Hl]. split; [done|lia].
Qed.

Lemma planned_sort fuel order_by input limit :
  planned fuel input → well_typed tables input → max_rows tables input + 2 ≤ fuel →
  planned fuel (LogicalPlan.Sort order_by input limit).
Proof.
  intros Hi Ht Hf. eapply planned_input; [exact Hi|done|]. intros ppi Hs Hst HM. eexists. split_and!.
  - cbn [PhysicalPlanner.build_plan]. by intros ->.
  - exact Hs.
  - apply (sort_starts Inv); [exact Hst|].
    intros o Ho. destruct (HM o Ho) as [[He _] Hl]. split; [done|lia].
Qed.

Lemma planned_aggregate fuel input group_exprs aggr_exprs s :
  planned fuel input → well_typed tables (LogicalPlan.Aggregate input group_exprs aggr_exprs s) →
  (Z.of_nat (max_rows tables input) < 2 ^ 63)%Z → max_rows tables input + 2 ≤ fuel →
  planned fuel (LogicalPlan.Aggregate input group_exprs aggr_exprs s).
Proof.
  intros Hi (Ht & cols1 & cols2 & Hc & Ha & Hg) Hn Hf. eapply planned_input; [exact Hi|done|].
  intros ppi Hs Hst HM. eexists. split_and!.
  - cbn [PhysicalPlanner.build_plan]. by intros ->.
  - done.
  - apply (aggregate_starts Inv); [apply spawn_Ok| |unfold PhysicalPlan.clamp_workers; lia|exact Hst|].
    + intros i c n Hin. by apply iteration_shown.
    + intros o Ho. destruct (HM o Ho) as [[He Hr] Hl]. split_and!; [done|lia|lia|].
      intros o' Ho'. by eapply aggregates_sound.
Qed.

Lemma planned_join fuel l_plan r_plan join_type condition s :
  planned fuel l_plan → planned fuel r_plan →
  well_typed tables (LogicalPlan.Join l_plan r_plan join_type condition s) →
  TotalFacts.readable tables r_plan → ordered r_plan = true →
  join_rounds (max_rows tables l_plan) (max_rows tables r_plan) ≤ fuel →
  planned fuel (LogicalPlan.Join l_plan r_plan join_type condition s).
Proof.
  intros (ppl & Hbl & Hsl & Hl) (ppr & Hbr & Hsr & Hr) (Htl & Htr & Hs) Hread Hord Hf.
  destruct (computes_total tables r_plan Hread) as [right Hright].
  pose proof (computes_Ok _ _ Htr Hright) as [Hrs Hrl].
  assert (∀ o, computes tables l_plan o → sound (LogicalPlan.schema l_plan) o ∧ length (rows o) ≤ max_rows tables l_plan)
    as HM by (intros; by apply computes_Ok).
  eexists. split_and!.
  - cbn [PhysicalPlanner.build_plan]. rewrite Hbl, Hbr. done.
  - done.
  - cbn [init next]. rewrite Hsl, Hsr. eapply (starts_weaken Inv); [reflexivity| |].
    2: { eapply (join_starts Inv (on_context spawn_ctx)) with (right := right); [apply spawn_Ok|exact Hl| |..].
      - eapply (starts_weaken Inv); [reflexivity| |exact Hr]. intros o Ho. by eapply computes_unique.
      - apply Hrs.
      - intros o Ho. destruct (HM o Ho) as [[He Hlr] Hlen]. split_and!; [done|exact Hlen|].
        intros l r Hin1 Hin2 Hp. rewrite Forall_forall in Hlr. destruct Hrs as [_ Hrr]. rewrite Forall_forall in Hrr.
        pose proof (join_step_sound _ _ s condition Hs l r (Hlr l Hin1) (Hrr r Hin2)) as Hj. by rewrite Hp in Hj.
      - intros o l Ho Hin Hp. destruct (HM o Ho) as [[_ Hlr] _]. rewrite Forall_forall in Hlr.
        destruct (combine_Ok _ _ s Hs (Some l) None (Hlr l Hin) I) as (t & Ht & _). congruence.
      - intros r Hin Hp. destruct Hrs as [_ Hrr]. rewrite Forall_forall in Hrr.
        destruct (combine_Ok _ _ s Hs None (Some r) I (Hrr r Hin)) as (t & Ht & _). congruence.
      - intros o Ho. eapply join_sound; [exact Hs|by apply HM|exact Hrs].
      - etrans; [|exact Hf]. unfold join_rounds. nia. }
    intros o (ol & Hol & ->). by exists ol, right.
Qed.

(** Every query whose loops have enough fuel. *)
Lemma plan_starts fuel p :
  TotalFacts.readable tables p → well_typed tables p → bounded tables p → repeatable p = true →
  rounds tables p ≤ fuel → planned fuel p.
Proof.
  induction p; simpl; intros Hr Ht Hb Hrep Hf; try done.
  - apply planned_filter; [apply IHp|..]; (done || lia).
  - apply andb_true_iff in Hrep as [Hrep Hord]. apply andb_true_iff in Hrep as [Hrep1 Hrep2].
    destruct Hr as [Hr1 Hr2], Hb as [Hb1 Hb2]. pose proof Ht as (Ht1 & Ht2 & _).
    apply planned_join; [apply IHp1|apply IHp2|..]; (done || lia).
  - apply planned_limit; [apply IHp|..]; (done || lia || apply Hb).
  - apply planned_project; [apply IHp|..]; (done || lia || apply Ht).
  - by apply planned_scan.
  - apply planned_sort; [apply IHp|..]; (done || lia).
  - eexists. split_and!; [done..|]. eapply (starts_weaken Inv); [reflexivity| |apply values_starts; [|done]].
    + by intros o <-.
    + eapply Forall_impl; [exact Ht|]. intros r Hlen. pose proof (values_sound schema [r]) as Hs.
      destruct Hs as [Hs _]; [by constructor|]. unfold values_rows in Hs. simpl in Hs.
      by destruct (PhysicalValues.row schema r).
  - eexists. split_and!; [done..|]. eapply (starts_weaken Inv); [reflexivity| |apply empty_starts].
    + by intros o <-.
    + destruct produce_one_row; [left|by right]. pose proof (empty_sound true schema Ht) as [Hs _].
      unfold empty_rows in Hs. simpl in Hs. by destruct (Tuple.new schema []).
  - destruct Hb as [Hb1 Hb2]. apply planned_aggregate; [apply IHp|..]; (done || lia || apply Ht).
Qed.

Definition result_of (o : outcome) : result (list Tuple.t) :=
  match ended o with
  | Done => Ok (rows o)
  | Failed error => Err error
  | Crashed => Panic
  end.

(** The rounds of the loops of a query, the one that collects the result among them. *)
Definition enough_fuel (p : LogicalPlan.t) : nat := Nat.max (rounds tables p) (max_rows tables p + 1).

Lemma execute_Ok fuel p pp c n :
  well_typed tables p → enough_fuel p ≤ fuel → Inv (ticks tables p + n) c →
  starts Inv (init pp) (next sql_type_name fuel pp) (ticks tables p) (computes tables p) →
  ∃ c' o, execute sql_type_name fuel pp c = (c', result_of o) ∧ computes tables p o ∧ Inv n c'.
Proof.
  intros Ht Hf Hc Hst. destruct (Hst (initial pp) c n Hc) as (s1 & c1 & b1 & Hinit & Hc1 & Hp).
  destruct (Hp c1 n Hc1) as (o & Ho & Hr). destruct (computes_Ok p o Ht Ho) as [[He _] Hl].
  destruct o as [l e]. cbn [rows ended] in *. unfold enough_fuel in Hf.
  destruct (drain_Ok Inv (next sql_type_name fuel pp) fuel l e [] s1 c1 n) as (s2 & c2 & b2 & Hc2 & Hd);
    [lia|done..|].
  exists c2, (Out l e). split; [|split; [done|]].
  - unfold execute, mbind, SR_bind. rewrite Hinit. unfold result_of. cbn [ended rows].
    destruct e; [destruct Hd as [-> _]; done|by rewrite Hd|done].
  - eapply Snapshot.shown_fewer; [|exact Hc2]. lia.
Qed.

End query.

Lemma readable_not_write tables p : TotalFacts.readable tables p → PhysicalPlanner.is_write p = false.
Proof. by destruct p. Qed.
End QueryExecution.

(** ** Properties *)
Module ExecutionProperties.
Import QueryBounds QueryExecution Typing.

Section properties.
Context {D : Type} `{DiskLaws D} `{Platform} (sql_type_name : DataType.t → string).
Context (spawns : ∀ n, spawn_fails n = None) (orders : ∀ n g, hash_order n g ≡ₚ g).

(** A query that a database can run: its tables exist and have no index, it is well
    typed, its counters do not overflow, and a page of the pool is free. *)
Record runs (sn : Snapshot.t) (p : LogicalPlan.t) (c : ExecutionContext.t D) : Prop := Runs {
  runs_spare : TableHeapFacts.spare_frames 1 (Snapshot.store sn);
  runs_readable : TotalFacts.readable (Snapshot.tables sn) p;
  runs_typed : well_typed (Snapshot.tables sn) p;
  runs_bounded : bounded (Snapshot.tables sn) p;
  runs_repeatable : repeatable p = true;
  runs_unindexed : unindexed sn (ExecutionContext.catalog c);
}.

Lemma runs_executes sn p c n workers fuel :
  runs sn p c → Snapshot.shown sn (ticks (Snapshot.tables sn) p + n) c → enough_fuel sn p ≤ fuel →
  ∃ pp c' o,
    PhysicalPlanner.create_physical_plan (PhysicalPlanner.Mk (ExecutionContext.catalog c) workers) p = Ok pp ∧
    execute sql_type_name fuel pp c = (c', result_of o) ∧
    means (Snapshot.tables sn) p o ∧ ended o ≠ Crashed ∧ Snapshot.shown sn n c'.
Proof.
  intros [Hsp Hr Ht Hb Hrep Hcat] Hc Hf.
  destruct (plan_starts sql_type_name spawns orders sn Hsp (PhysicalPlanner.Mk _ workers) Hcat fuel p Hr Ht Hb Hrep)
    as (pp & Hpp & _ & Hst); [unfold enough_fuel in Hf; lia|].
  destruct (execute_Ok sql_type_name sn fuel p pp c n Ht Hf Hc Hst) as (c' & o & Hrun & Ho & Hc').
  exists pp, c', o. split_and!; [|done|by apply computes_means|by apply (computes_Ok sn p o Ht Ho)|done].
  unfold PhysicalPlanner.create_physical_plan. by rewrite (readable_not_write _ _ Hr).
Qed.

(** C2: executing a query does what the query means. The query is well typed, over tables
    without an index, with no aggregation in the right input of a join, and of a size that
    the counters hold ([runs]); the threads of a scan start, and the loops have [enough_fuel].
    Then its physical plan, serial or with any number of workers, run to its end by the
    engine over the buffer pool, returns the rows of an outcome of the plan, or its error;
    it does not panic, ends within the fuel, and leaves the tables as they were. (A right
    or full join over an aggregated subquery is left out because there the engine can
    repeat or lose rows: [RestartDemo.restart_repeats_matched_row].) *)
Theorem query_execution_refines sn p c n workers fuel :
  runs sn p c → Snapshot.shown sn (ticks (Snapshot.tables sn) p + n) c → enough_fuel sn p ≤ fuel →
  ∃ pp c' o,
    PhysicalPlanner.create_physical_plan (PhysicalPlanner.Mk (ExecutionContext.catalog c) workers) p = Ok pp ∧
    execute sql_type_name fuel pp c = (c', result_of o) ∧
    means (Snapshot.tables sn) p o ∧ ended o ≠ Crashed ∧ Snapshot.shown sn n c'.
Proof. apply runs_executes. Qed.

(** C17: parallel execution is serial execution. A query without aggregation returns the
    same rows in the same order, or the same error, with any number of workers: the
    plans differ and so do the states of the operators, and the result does not. *)
Theorem parallel_execution_equivalent sn p c workers fuel pp1 pp :
  runs sn p c → ordered p = true → Snapshot.shown sn (ticks (Snapshot.tables sn) p) c → enough_fuel sn p ≤ fuel →
  PhysicalPlanner.create_physical_plan (PhysicalPlanner.Mk (ExecutionContext.catalog c) 1) p = Ok pp1 →
  PhysicalPlanner.create_physical_plan (PhysicalPlanner.Mk (ExecutionContext.catalog c) workers) p = Ok pp →
  (execute sql_type_name fuel pp c).2 = (execute sql_type_name fuel pp1 c).2.
Proof.
  intros [Hsp Hr Ht Hb Hrep Hcat] Ho Hc Hf Hp1 Hp2. rewrite <- (Nat.add_0_r (ticks _ _)) in Hc.
  unfold PhysicalPlanner.create_physical_plan in Hp1, Hp2. rewrite (readable_not_write _ _ Hr) in Hp1, Hp2.
  assert (∀ w pp, PhysicalPlanner.build_plan (PhysicalPlanner.Mk (ExecutionContext.catalog c) w) p = Ok pp →
    ∃ c' o, execute sql_type_name fuel pp c = (c', result_of o) ∧ computes (Snapshot.tables sn) p o) as Hrun.
  { intros w pp' Hpp.
    destruct (plan_starts sql_type_name spawns orders sn Hsp (PhysicalPlanner.Mk _ w) Hcat fuel p Hr Ht Hb Hrep)
      as (pp2 & Hpp2 & _ & Hst); [unfold enough_fuel in Hf; lia|].
    rewrite Hpp in Hpp2. injection Hpp2 as <-.
    destruct (execute_Ok sql_type_name sn fuel p pp' c 0 Ht Hf Hc Hst) as (c' & o & ? & ? & _). by exists c', o. }
  destruct (Hrun _ _ Hp1) as (c1 & o1 & -> & Ho1), (Hrun _ _ Hp2) as (c2 & o2 & -> & Ho2).
  simpl. by rewrite (computes_unique (Snapshot.tables sn) p o1 o2 Ho Ho1 Ho2).
Qed.

End properties.
End ExecutionProperties.

(** *** A small database *)
Module ExecutionDemo.
Import TableHeapFacts TableHeapSpec HeapRows QueryBounds QueryExecution ExecutionProperties Typing.

#[local] Instance demo_platform : Platform := {| spawn_fails := λ _, None; hash_order := λ _ g, g |}.

Lemma demo_spawns n : spawn_fails n = None.
Proof. done. Qed.

Lemma demo_orders n g : hash_order n g ≡ₚ g.
Proof. done. Qed.

Definition demo_ref : TableReference.t := TableReference.Bare "t".
Definition demo_rows : list row := [demo_row; demo_row].

(** A row that fits a page. *)
Definition demo_fits (r : row) : Prop :=
  TablePageFacts.row_ok TablePageSpec.demo_schema r ∧ (TablePageFacts.space [r] ≤ TablePageFacts.page_end)%Z.

Lemma demo_insert (r : row) (h : TableHeap.t DiskManager.t) st p rows n :
  demo_fits r → heap_ok h st [(p, rows)] (S n) → TableHeap.schema h = TablePageSpec.demo_schema → spare_frames 3 st →
  (now h + 1 < 2 ^ 63)%Z → (TablePageFacts.space (rows ++ [r]) ≤ TablePageFacts.page_end)%Z →
  ∃ h' st' n', heap_ok h' st' [(p, rows ++ [r])] n' ∧ n ≤ n' ∧
    TableHeap.schema h' = TablePageSpec.demo_schema ∧ spare_frames 3 st' ∧ (now h' ≤ now h + 2)%Z.
Proof.
  intros [Hrow Hsz] Hh Hsch Hsp Hq Hroom. destruct r as [meta t].
  destruct (insert_refines h st _ n meta t Hh) as (h' & x & cs' & _ & Hstep & Hl);
    [by rewrite Hsch; constructor|unfold spare_frames in *; lia|lia|].
  destruct Hl as (st' & n' & Hh' & Hn & Hts & Hsch' & Hr & Hf & _).
  assert (cs' = [(p, rows ++ [(meta, t)])]) as ->.
  { inversion Hstep as [k ? ? ? ? Hk Hlast|k ? ? ? ? ? Hk Hlast Hfull| | | | | | |]; subst; [..|done];
      (destruct k; [|done]); injection Hk as <- <-; [done|]. lia. }
  exists h', st', n'. split_and!; [done..|congruence| |done]. unfold spare_frames in *. by rewrite Hr, Hf.
Qed.

(** A table of two rows, with room for [n] more pages. *)
Lemma demo_two n r1 r2 :
  n ≤ 898 → demo_fits r1 → demo_fits r2 → (TablePageFacts.space [r1; r2] ≤ TablePageFacts.page_end)%Z →
  ∃ (h : TableHeap.t DiskManager.t) st p k, heap_ok h st [(p, [r1; r2])] k ∧ n ≤ k ∧
    TableHeap.schema h = TablePageSpec.demo_schema ∧ spare_frames 3 st ∧ (now h ≤ 5)%Z.
Proof.
  intros Hn H1 H2 H12. destruct (demo_heap (S n) ltac:(lia)) as (d & s & h & st & _ & _ & Hh & Hsch & Hsp & Hnow).
  destruct (demo_insert r1 h st _ [] (S n) H1 Hh Hsch Hsp) as (h1 & st1 & n1 & Hh1 & Hn1 & Hsch1 & Hsp1 & Hnow1); [lia|apply H1|].
  destruct n1 as [|n1]; [lia|].
  destruct (demo_insert r2 h1 st1 _ _ n1 H2 Hh1 Hsch1 Hsp1) as (h2 & st2 & n2 & Hh2 & Hn2 & Hsch2 & Hsp2 & Hnow2); [lia|done|].
  exists h2, st2, (TableHeap.first_page_id h), n2. split_and!; [done|lia|done|done|lia].
Qed.

Definition demo_find (handle : TableHandle.t) (cs : pages_rows) (table_ref : TableReference.t) :
    option (TableHandle.t * pages_rows) :=
  if bool_decide (schema_name table_ref = DEFAULT_SCHEMA_NAME ∧ TableReference.table table_ref = "t"%string)
  then Some (handle, cs) else None.

Definition demo_catalog (h : TableHeap.t DiskManager.t) : Catalog.t DiskManager.t :=
  Catalog.Mk {[DEFAULT_SCHEMA_NAME := CatalogSchema.Mk DEFAULT_SCHEMA_NAME
    {["t" := CatalogTable.new "t" (Catalog.handle_of h)]}]} (TableHeap.buffer_pool h).

Lemma demo_catalog_table h table_ref :
  Catalog.catalog_table table_ref (demo_catalog h)
  = if bool_decide (schema_name table_ref = DEFAULT_SCHEMA_NAME) then
      if bool_decide (TableReference.table table_ref = "t"%string)
      then Ok (CatalogTable.new "t" (Catalog.handle_of h)) else Err (Storage "table {} not created yet")
    else Err (Storage "catalog schema {} not created yet").
Proof.
  unfold Catalog.catalog_table, demo_catalog. cbn [Catalog.schemas]. case_bool_decide as H1.
  - rewrite H1, lookup_singleton_eq. cbn [ok_or mbind result_bind CatalogSchema.tables]. case_bool_decide as H2.
    + by rewrite H2, lookup_singleton_eq.
    + by rewrite lookup_singleton_ne.
  - by rewrite lookup_singleton_ne.
Qed.

(** A database with one table, the heap [h]. *)
Definition demo_snapshot (h : TableHeap.t DiskManager.t) st cs n : Snapshot.t :=
  Snapshot.Mk st n (Catalog.schemas (demo_catalog h)) (demo_find (Catalog.handle_of h) cs).

Lemma demo_context (h : TableHeap.t DiskManager.t) st cs n b :
  heap_ok h st cs n → (now h + Z.of_nat b < 2 ^ 63)%Z →
  let sn := demo_snapshot h st cs n in
  Snapshot.shown sn b (ExecutionContext.Mk (demo_catalog h) 0) ∧ unindexed sn (demo_catalog h) ∧
  Snapshot.covers sn (demo_catalog h) ∧ Catalog.table_heap demo_ref (demo_catalog h) = Ok (Catalog.handle_of h).
Proof.
  intros Hh Hnow. cbv zeta. split_and!.
  - split; [apply (heap_shows _ _ _ _ Hh)|done|done|].
    intros table_ref handle cs' Hf. cbn [Snapshot.find demo_snapshot] in Hf. unfold demo_find in Hf.
    case_bool_decide as Href; [|done]. injection Hf as <- <-. destruct Href as [H1 H2]. split; [|by destruct h].
    unfold Catalog.table_heap. cbn [ExecutionContext.catalog]. rewrite demo_catalog_table.
    by rewrite !bool_decide_true.
  - intros table_ref x Hf. cbn [Snapshot.find demo_snapshot] in Hf. unfold demo_find in Hf. case_bool_decide as Href; [|done].
    destruct Href as [H1 H2]. rewrite demo_catalog_table, !bool_decide_true by done. by eexists.
  - intros table_ref handle Hth. unfold Catalog.table_heap in Hth.
    rewrite demo_catalog_table in Hth. case_bool_decide; [|done]. case_bool_decide; [|done]. injection Hth as <-.
    cbn [Snapshot.find demo_snapshot]. unfold demo_find. rewrite bool_decide_true by done. by eexists.
  - unfold Catalog.table_heap. by rewrite demo_catalog_table, !bool_decide_true by done.
Qed.

Lemma demo_row_fits : demo_fits demo_row.
Proof. split; [split; [done|by apply TablePageSpec.demo_row_ok]|by vm_compute]. Qed.

Lemma demo_database :
  ∃ sn c, Snapshot.shown sn 1000 c ∧ spare_frames 1 (Snapshot.store sn) ∧
    Snapshot.tables sn demo_ref = Some demo_rows.*2 ∧ unindexed sn (ExecutionContext.catalog (D:=DiskManager.t) c) ∧
    Snapshot.covers sn (ExecutionContext.catalog c) ∧
    TableHandle.schema <$> Catalog.table_heap demo_ref (ExecutionContext.catalog c) = Ok TablePageSpec.demo_schema ∧
    spare_frames 2 (Snapshot.store sn) ∧ 10 ≤ Snapshot.room sn ∧
    Catalog.schemas (ExecutionContext.catalog c) !! INFORMATION_SCHEMA_NAME = None ∧
    ∃ handle cs, TableHandle.schema handle = TablePageSpec.demo_schema ∧
      ∀ table_ref, Snapshot.find sn table_ref = demo_find handle cs table_ref.
Proof.
  destruct (demo_two 12 demo_row demo_row) as (h & st & p & n & Hh & Hn & Hsch & Hsp & Hnow);
    [lia|apply demo_row_fits..|by vm_compute|].
  destruct (demo_context h st _ n 1000 Hh) as (Hshown & Hun & Hcov & Hth); [lia|].
  do 2 eexists. split_and!; [exact Hshown| |done|exact Hun|exact Hcov| | | | |].
  - unfold spare_frames in *. simpl. lia.
  - cbn [ExecutionContext.catalog]. rewrite Hth. simpl. by rewrite Hsch.
  - unfold spare_frames in *. simpl. lia.
  - simpl. lia.
  - by apply lookup_singleton_ne.
  - by exists (Catalog.handle_of h), [(p, demo_rows)].
Qed.

(** [select count(a), b from t cross join t where a > 1 group by b] *)
Definition demo_scan : LogicalPlan.t := LogicalPlan.TableScan demo_ref TablePageSpec.demo_schema [] None.
Definition demo_filter (input : LogicalPlan.t) : LogicalPlan.t :=
  LogicalPlan.Filter (Expr.Binary (Expr.Column None "a") BinaryOp.Gt
    (Expr.Literal (ScalarValue.Int64 (Some 1%Z)))) input.
Definition demo_join : LogicalPlan.t :=
  LogicalPlan.Join demo_scan demo_scan JoinType.Cross None
    (build_join_schema TablePageSpec.demo_schema TablePageSpec.demo_schema JoinType.Cross).
Definition demo_group_query : LogicalPlan.t :=
  LogicalPlan.Aggregate (demo_filter demo_join) [Expr.Column None "b"]
    [Expr.AggregateFunction AggregateFunctionKind.Count [Expr.Column None "a"] false]
    (Schema.Mk [Column.new "count" DataType.Int64 true; Column.new "b" (DataType.Varchar None) true]).

Section typed.
Context (tables : TableReference.t → option (list Tuple.t)) (Htables : tables demo_ref = Some demo_rows.*2).

Lemma demo_scan_typed : well_typed tables demo_scan.
Proof. intros l Hl. rewrite Htables in Hl. injection Hl as <-. repeat constructor. Qed.

Lemma demo_join_typed : well_typed tables (demo_filter demo_join).
Proof. split_and!; [apply demo_scan_typed..|]. repeat constructor. Qed.

Lemma typed_demo_query : well_typed tables demo_group_query.
Proof.
  split; [apply demo_join_typed|].
  exists [Column.new "count" DataType.Int64 true], [Column.new "b" (DataType.Varchar None) true].
  split; [done|]. split; (constructor; [|constructor]); split; [done| |done|]; by eexists.
Qed.
End typed.

Lemma demo_runs sn c p :
  p = demo_group_query ∨ p = demo_filter demo_join →
  Snapshot.tables sn demo_ref = Some demo_rows.*2 → spare_frames 1 (Snapshot.store sn) →
  unindexed sn (ExecutionContext.catalog (D:=DiskManager.t) c) → runs sn p c.
Proof.
  intros Hp Ht Hsp Hcat. destruct Hp as [-> | ->]; split; try done; simpl.
  - by rewrite Ht.
  - by apply typed_demo_query.
  - unfold table_size. rewrite Ht. simpl. lia.
  - by rewrite Ht.
  - by apply demo_join_typed.
Qed.

Lemma query_execution_refines_witness :
  ∃ sn c pp c' o, Snapshot.tables sn demo_ref = Some demo_rows.*2 ∧
    PhysicalPlanner.create_physical_plan (PhysicalPlanner.Mk (ExecutionContext.catalog c) 4) demo_group_query = Ok pp ∧
    execute (D:=DiskManager.t) (λ _, "") 100 pp c = (c', result_of o) ∧ means (Snapshot.tables sn) demo_group_query o.
Proof.
  destruct demo_database as (sn & c & Hc & Hsp & Ht & Hcat & _). exists sn, c.
  destruct (query_execution_refines (λ _, "") demo_spawns demo_orders sn demo_group_query c 0 4 100)
    as (pp & c' & o & Hpp & Hrun & Ho & _ & _).
  - apply demo_runs; [by left|done..].
  - eapply Snapshot.shown_fewer; [|exact Hc]. simpl. unfold table_size. rewrite Ht. simpl. lia.
  - unfold enough_fuel. simpl. unfold table_size. rewrite Ht. simpl. lia.
  - by exists pp, c', o.
Defined.

Lemma parallel_execution_equivalent_witness :
  ∃ sn c pp1 pp, Snapshot.tables sn demo_ref = Some demo_rows.*2 ∧
    PhysicalPlanner.create_physical_plan (PhysicalPlanner.Mk (ExecutionContext.catalog c) 1)
      (demo_filter demo_join) = Ok pp1 ∧
    PhysicalPlanner.create_physical_plan (PhysicalPlanner.Mk (ExecutionContext.catalog c) 4)
      (demo_filter demo_join) = Ok pp ∧
    (execute (D:=DiskManager.t) (λ _, "") 100 pp c).2 = (execute (λ _, "") 100 pp1 c).2.
Proof.
  destruct demo_database as (sn & c & Hc & Hsp & Ht & Hcat & _).
  assert (∀ w, ∃ pp, PhysicalPlanner.create_physical_plan
    (PhysicalPlanner.Mk (ExecutionContext.catalog c) w) (demo_filter demo_join) = Ok pp) as Hpp.
  { intros w. destruct (Snapshot.find sn demo_ref) as [x|] eqn:Hx; [|unfold Snapshot.tables in Ht; by rewrite Hx in Ht].
    destruct (Hcat _ _ Hx) as (ct & Hct & Hidx). unfold Catalog.catalog_table in Hct.
    unfold PhysicalPlanner.create_physical_plan. simpl. unfold PhysicalPlanner.plan_scan. simpl in *.
    destruct (_ !! schema_name demo_ref) as [cs|]; [|done]. simpl in *.
    destruct (CatalogSchema.tables cs !! _); [|done]. simpl in *. injection Hct as ->. rewrite Hidx, map_to_list_empty.
    by eexists. }
  destruct (Hpp 1) as [pp1 H1], (Hpp 4) as [pp H4]. exists sn, c, pp1, pp. split_and!; [done..|].
  apply (parallel_execution_equivalent (λ _, "") demo_spawns demo_orders sn (demo_filter demo_join) c 4 100 pp1 pp).
  - apply demo_runs; [by right|done..].
  - done.
  - eapply Snapshot.shown_fewer; [|exact Hc]. simpl. unfold table_size. rewrite Ht. simpl. lia.
  - unfold enough_fuel. simpl. unfold table_size. rewrite Ht. simpl. lia.
  - done.
  - done.
Defined.

End ExecutionDemo.

(** *** Why the right side of a join is without aggregation

    A join with [preserves_right] remembers the rows of its right side that matched by
    their position, and runs its right side again for each row of the left side. An
    aggregation iterates a new hash map each time, in another order. *)
Module RestartDemo.

Definition ints (name : string) : Schema.t := Schema.Mk [Column.new name DataType.Int32 true].
Definition one_two (name : string) : LogicalPlan.t :=
  LogicalPlan.Values (ints name) ((λ z, [Expr.Literal (ScalarValue.Int32 (Some z))]) <$> [1; 2]%Z).

(** [(values (1), (2)) right join (select b from (values (1), (2)) group by b) on a = b] *)
Definition grouped : LogicalPlan.t :=
  LogicalPlan.Aggregate (one_two "b") [Expr.Column None "b"] [] (ints "b").
Definition right_join : LogicalPlan.t :=
  LogicalPlan.Join (one_two "a") grouped JoinType.RightOuter
    (Some (Expr.Binary (Expr.Column None "a") BinaryOp.Eq (Expr.Column None "b")))
    (build_join_schema (ints "a") (ints "b") JoinType.RightOuter).

(** The second run of the aggregation iterates its groups in the other order. *)
Definition other_order (n : nat) (groups : PhysicalAggregate.Groups) : PhysicalAggregate.Groups :=
  if (2 <=? n) && (n <? 5) then rev groups else groups.
#[local] Instance restart_platform : Platform :=
  {| spawn_fails := λ _, None; hash_order := other_order |}.

Lemma other_order_ok n groups : hash_order n groups ≡ₚ groups.
Proof. simpl. unfold other_order. case_match; [|done]. symmetry. apply Permutation_rev. Qed.

Definition group (z : Z) : list ScalarValue.t * list Accumulator.t := ([ScalarValue.Int32 (Some z)], []).

(** The groups come in one of two orders. *)
Lemma grouped_groups groups :
  aggregated [Expr.Column None "b"] []
    (rows (values_rows (ints "b") ((λ z, [Expr.Literal (ScalarValue.Int32 (Some z))]) <$> [1; 2]%Z))) groups →
  groups = [group 1; group 2] ∨ groups = [group 2; group 1].
Proof.
  intros (Hnd & Hkeys & Haccs).
  assert (groups = (λ key, (key, [])) <$> groups.*1) as Hg.
  { clear -Haccs. induction groups as [|[key accs] groups IH]; [done|].
    apply Forall_cons in Haccs as [Ha Haccs]. cbn [fmap list_fmap fst]. f_equal; [by inversion Ha|by apply IH]. }
  assert (groups.*1 ≡ₚ [(group 1).1; (group 2).1]) as Hp.
  { apply NoDup_Permutation; [done|by apply (bool_decide_unpack _); vm_compute|]. intros key. rewrite Hkeys. clear.
    set (l := rows _). assert (l = [Tuple.Mk (ints "b") (group 1).1; Tuple.Mk (ints "b") (group 2).1]) as -> by done.
    rewrite !elem_of_cons. split.
    - intros [(t & Ht & Hk)|[? _]]; [|done]. rewrite !elem_of_cons in Ht.
      destruct Ht as [-> |[-> |Ht]]; [..|by apply not_elem_of_nil in Ht]; injection Hk as <-; [by left|by right; left].
    - intros [-> |[-> |Ht]]; [..|by apply not_elem_of_nil in Ht]; left; eexists;
        [by split; [left|]|by split; [right; left|]]. }
  rewrite Hg. apply Permutation_sym in Hp.
  apply Permutation_length_2_inv in Hp as [-> | ->]; [by left|by right].
Qed.

(** Two rows in the meaning of the query, three in its execution: a right row that did
    match comes again without a match. *)
Theorem restart_repeats_matched_row tables (c : ExecutionContext.t DiskManager.t) :
  ExecutionContext.events c = 0 →
  (∀ o, means tables right_join o → ended o = Done ∧ length (rows o) = 2) ∧
  ∃ pp c' ts, PhysicalPlanner.create_physical_plan (PhysicalPlanner.Mk (ExecutionContext.catalog c) 1) right_join = Ok pp ∧
    execute (λ _, "") 100 pp c = (c', Ok ts) ∧ length ts = 3.
Proof.
  intros Hc. split.
  - intros o (ol & or & -> & Hor & ->). destruct Hor as (oi & -> & Ho).
    assert (∃ groups, (groups = [group 1; group 2] ∨ groups = [group 2; group 1]) ∧
      or = collected (mapR (PhysicalAggregate.group_row (ints "b")) groups)) as (groups & Hg & ->).
    { destruct Ho as (groups & Hg & ->). exists groups. split; [by apply grouped_groups|done]. }
    destruct Hg as [-> | ->]; vm_compute; done.
  - destruct c as [cat e]. simpl in Hc. subst e. eexists _, _, _. split; [reflexivity|].
    split; [vm_compute; reflexivity|reflexivity].
Qed.

End RestartDemo.
