(* ===== verification/SqlSpec.v ===== *)
(** * SqlSpec: planned queries can be executed

    What the planner makes of a query: a plan over tables that exist, whose nodes have
    the schemas of the expressions they evaluate. The plans of the planner are the ones
    the theorems on the optimizer and the executors are about. *)
From S2P Require Import Prelude CommonCodec Floats Text Scalar Schema TupleCodec TablePage IndexPage.
From S2P Require Import DiskPages DiskManager Replacer BufferPool PageStore TableHeap Index Catalog.
From S2P Require Import Expressions LogicalPlan Ast SqlPlanner Operators Meaning Typing Optimizer.
From S2P Require Import ExecutionSpec.
Local Open Scope Z_scope.

(** ** Queries without misplaced aggregates *)
Module PlainQuery.

(** No function call. *)
Fixpoint plain_expr (sql : Ast.Expr) : bool :=
  match sql with
  | Ast.BinaryOp l_expr _ r_expr => plain_expr l_expr && plain_expr r_expr
  | Ast.Function _ _ _ => false
  | _ => true
  end.

(** An aggregate function is a whole select item, without an alias. *)
Definition plain_item (item : Ast.SelectItem) : bool :=
  match item with
  | Ast.UnnamedExpr (Ast.Function _ _ _) => true
  | Ast.UnnamedExpr e | Ast.ExprWithAlias e _ => plain_expr e
  | _ => true
  end.

(** The query and its subqueries are such selects, and no lists of values. *)
Fixpoint plain_query (query : Ast.Query) : bool :=
  let 'Ast.MkQuery body _ _ _ := query in plain_set_expr body
with plain_set_expr (set_expr : Ast.SetExpr) : bool :=
  match set_expr with
  | Ast.SelectExpr select => plain_select select
  | Ast.ValuesExpr _ | Ast.OtherSetExpr => false
  end
with plain_select (select : Ast.Select) : bool :=
  let 'Ast.MkSelect projection from _ group_by := select in
  forallb plain_item projection && forallb plain_expr group_by && forallb plain_table from
with plain_table (t : Ast.TableWithJoins) : bool :=
  let 'Ast.MkTable relation joins := t in plain_factor relation && forallb plain_join joins
with plain_join (join : Ast.Join) : bool :=
  let 'Ast.MkJoin relation _ := join in plain_factor relation
with plain_factor (relation : Ast.TableFactor) : bool :=
  match relation with
  | Ast.Table _ | Ast.OtherFactor => true
  | Ast.NestedJoin t => plain_table t
  | Ast.Derived query => plain_query query
  end.

End PlainQuery.

Module BindFacts.
Import PlainQuery ExpressionFacts Typing LogicalPlanner.

Section sqlparser.
Context `{Sqlparser}.

Lemma bind_value_scalar v e : bind_value v = Ok e → scalar e = true.
Proof. destruct v; simpl; repeat case_match; by intros [= <-]. Qed.

Lemma bind_compound_scalar idents e : bind_compound_identifier idents = Ok e → scalar e = true.
Proof. unfold bind_compound_identifier. repeat case_match; by intros [= <-]. Qed.

Lemma parse_i64_range s z : Text.parse_i64 s = Some z → signed_ok 64 z.
Proof.
  unfold Text.parse_i64. destruct (Text.sign s) as [negative s'].
  destruct (Text.digits s' 0 0) as [[n [|k]] []]; try done. case_match eqn:Hz; [|done]. intros [= <-].
  apply andb_true_iff in Hz as [H1%Z.leb_le H2%Z.ltb_lt]. done.
Qed.

Lemma bind_int64 sql z :
  bind_expr sql = Ok (Expr.Literal (ScalarValue.Int64 (Some z))) → signed_ok 64 z.
Proof.
  destruct sql as [|idents| |v|name args distinct|]; simpl; intros Hb; inv_res; try done.
  - unfold bind_compound_identifier in Hb. by repeat case_match.
  - destruct v as [s long| | | |]; simpl in Hb; try done. destruct (Text.parse_i64 s) eqn:Hs.
    + injection Hb as ->. by eapply parse_i64_range.
    + by case_match.
  - unfold bind_function in Hb. case_match; [|done]. by inv_res.
Qed.

(** Limits and offsets are integers of SQL. *)
Lemma bind_limit_range limit n : bind_limit limit = Ok (Some n) → 0 ≤ n < 2 ^ 63.
Proof.
  destruct limit as [sql|]; simpl; [|done]. intros Hb. apply bind_Ok_inv in Hb as (e & He & Hb).
  destruct e as [| |[| | | |[v|]| | | | | | |]| | |]; try done.
  destruct (Z.leb_spec 0 v); [|done]. injection Hb as ->. apply bind_int64 in He.
  unfold signed_ok in He. lia.
Qed.

Lemma bind_offset_range offset n : bind_offset offset = Ok n → 0 ≤ n < 2 ^ 63.
Proof.
  destruct offset as [sql|]; simpl; [|by intros [= <-]]. intros Hb. apply bind_Ok_inv in Hb as (e & He & Hb).
  destruct e as [| |[| | | |[v|]| | | | | | |]| | |]; try done.
  destruct (Z.ltb_spec v 0); [done|]. injection Hb as ->. apply bind_int64 in He.
  unfold signed_ok in He. lia.
Qed.

Lemma plan_limit_inv input limit offset p :
  plan_limit input limit offset = Ok p →
  (limit = None ∧ offset = None ∧ p = input) ∨
  (limit ≠ None ∨ offset ≠ None) ∧
  ∃ n m, bind_limit limit = Ok n ∧ bind_offset offset = Ok m ∧ p = LogicalPlan.Limit n m input.
Proof.
  unfold plan_limit. intros Hp.
  destruct limit, offset; [right..|by injection Hp as <-; left];
    (split; [first [by left|by right]|]; apply bind_Ok_inv in Hp as (n & Hn & Hp);
     apply bind_Ok_inv in Hp as (m & Hm & [= <-]); by exists n, m).
Qed.

Lemma bind_plain sql e : plain_expr sql = true → bind_expr sql = Ok e → scalar e = true.
Proof.
  revert e. induction sql as [|idents|l IHl op r IHr|v|name args distinct|]; simpl; intros e Hp Hb; try done.
  - by injection Hb as <-.
  - by eapply bind_compound_scalar.
  - apply andb_true_iff in Hp as [Hl Hr]. inv_res. simpl. by rewrite IHl, IHr.
  - by eapply bind_value_scalar.
Qed.

Lemma bind_call name args distinct e :
  bind_expr (Ast.Function name args distinct) = Ok e → is_aggregate e = true.
Proof. simpl. unfold bind_function. case_match; [|done]. intros Hb. by inv_res. Qed.

(** A select item is evaluated on rows, or is an aggregate call. *)
Definition columnwise (e : Expr.t) : Prop := scalar e = true ∨ is_aggregate e = true.

Lemma bind_item_columnwise input item es :
  plain_item item = true → bind_select_item input item = Ok es → Forall columnwise es.
Proof.
  destruct item as [sql|sql alias| |]; simpl; intros Hp Hb; try done.
  - inv_res. constructor; [|done]. unfold columnwise.
    destruct sql; try (left; by eapply bind_plain). right. by eapply bind_call.
  - inv_res. constructor; [|done]. left. simpl. by eapply bind_plain.
  - injection Hb as <-. apply Forall_fmap, Forall_true. intros c. by left.
Qed.

Lemma bind_items_columnwise input items es :
  forallb plain_item items = true → bind_select_items input items = Ok es → Forall columnwise es.
Proof.
  unfold bind_select_items. intros Hp Hb. inv_res. rename a into ess. apply mapR_Ok in Ha.
  induction Ha as [|item es items ess He _ IH]; [constructor|].
  simpl in Hp. apply andb_true_iff in Hp as [Hp1 Hp2]. simpl.
  apply Forall_app. split; [by eapply bind_item_columnwise|by apply IH].
Qed.

(** The aggregate calls of the items do not depend on the input. *)
Lemma bind_items_aggregates input1 input2 items es1 es2 e :
  bind_select_items input1 items = Ok es1 → bind_select_items input2 items = Ok es2 →
  e ∈ es2 → is_aggregate e = true → e ∈ es1.
Proof.
  unfold bind_select_items. intros Hb1 Hb2. inv_res. rename a0 into ess1, a into ess2.
  apply mapR_Ok in Ha, Ha0. revert ess1 Ha0.
  induction Ha as [|item es2 items ess2 He2 _ IH]; inversion 1 as [|? es1 ? ess1' He1 Hess1]; subst; [done|].
  simpl. rewrite !elem_of_app. intros [He|He] Hagg; [left|right; by apply IH].
  destruct item as [sql|sql alias| |]; simpl in *; try (rewrite He1 in He2; by injection He2 as <-).
  injection He2 as <-. apply list_elem_of_fmap in He as (c & -> & _). done.
Qed.

End sqlparser.

(** *** Columns of expressions *)
Lemma new_column_type e name s c :
  Expr.new_column e name s = Ok c →
  Expr.data_type e s = Ok (Column.data_type c) ∧ Column.name c = name ∧ Column.relation c = None.
Proof. unfold Expr.new_column. intros Hc. by inv_res. Qed.

Lemma to_column_type e s c : Expr.to_column e s = Ok c → Expr.data_type e s = Ok (Column.data_type c).
Proof.
  destruct e; cbn [Expr.to_column]; try (by intros [? _]%new_column_type); [|done].
  unfold Expr.column_to_column. intros Hc. inv_res. by apply new_column_type in Ha0 as [? _].
Qed.

Lemma to_column_aggregate e s c :
  is_aggregate e = true → Expr.to_column e s = Ok c → Column.name c = Expr.display e.
Proof. destruct e; try done. intros _. by intros (_ & ? & _)%new_column_type. Qed.

Lemma columnize_scalar e s e' : columnize_expr e s = Ok e' → scalar e' = true.
Proof.
  revert e'. induction e; cbn [columnize_expr]; intros e' He; inv_res; try done; simpl; auto.
Qed.

Lemma index_of_name s c :
  c ∈ Schema.columns s → ∃ i, Schema.index_of s None (Column.name c) = Ok i ∧ is_Some (Schema.columns s !! i).
Proof.
  intros Hc. unfold Schema.index_of.
  assert (∃ i, Schema.find_from 0 (Schema.column_matches None (Column.name c)) (Schema.columns s) = Some i ∧
    is_Some (Schema.columns s !! i)) as (i & Hi & Hs); [|by exists i; rewrite Hi].
  destruct (Schema.find_from 0 (Schema.column_matches None (Column.name c)) (Schema.columns s)) as [i|] eqn:Hf.
  - exists i. split; [done|]. apply SchemaFacts.find_from_spec in Hf as (j & c' & -> & Hj & _). by eexists.
  - exfalso. revert Hf. generalize 0%nat. induction Hc as [c cols|c d cols _ IH]; intros n; simpl.
    + by rewrite String.eqb_refl.
    + by case_match; [|apply IH].
Qed.

(** An aggregate call becomes the column that has its name. *)
Lemma columnize_aggregate e s :
  is_aggregate e = true → (∃ c, c ∈ Schema.columns s ∧ Column.name c = Expr.display e) →
  ∃ e', columnize_expr e s = Ok e'.
Proof.
  intros He (c & Hc & Hn). destruct (index_of_name s c Hc) as (i & Hi & [d Hd]).
  destruct e; try done. rewrite Hn in Hi. cbn [columnize_expr]. rewrite Hi. cbn [mbind result_bind].
  unfold Schema.column_with_index. rewrite Hd. by eexists.
Qed.

Lemma new_columns cols s : Schema.new cols = Ok s → Schema.columns s = cols.
Proof. unfold Schema.new, Schema.new_with_check. case_match; [|done]. by intros [= <-]. Qed.

(** *** The schemas of joins *)
Lemma fits_refl cols : Forall2 (λ c1 c2, fits (Column.data_type c1) c2) cols cols.
Proof. by apply Forall_Forall2_diag, Forall_true. Qed.

Lemma fits_nullify cols : Forall2 (λ c1 c2, fits (Column.data_type c1) c2) cols (nullify_columns cols).
Proof. apply Forall2_fmap_r. by apply Forall_Forall2_diag, Forall_true. Qed.

Lemma join_schema_fits l r join_type :
  Forall2 (λ c1 c2, fits (Column.data_type c1) c2) (Schema.columns l ++ Schema.columns r)
    (Schema.columns (build_join_schema l r join_type)).
Proof. destruct join_type; apply Forall2_app; auto using fits_refl, fits_nullify. Qed.

(** *** Tables with their joins *)
Section joins.
Context {D : Type} `{Disk D} `{Sqlparser} (self : LogicalPlanner.t D).
Context (P : LogicalPlan.t → Prop).

Lemma joins_preserve (ok : Ast.Join → bool) joins l p :
  Forall (λ j, ∀ l p, ok j = true → P l → plan_relation_join self l j = Ok p → P p) joins →
  forallb ok joins = true → P l → foldR (plan_relation_join self) l joins = Ok p → P p.
Proof.
  intros Hj. revert l. induction Hj as [|j joins Hj _ IH]; simpl; intros l Hp Hl Hf; [by injection Hf as <-|].
  apply andb_true_iff in Hp as [Hpj Hp]. apply bind_Ok_inv in Hf as (l' & Hl' & Hf). eauto.
Qed.

Lemma from_preserves (ok : Ast.TableWithJoins → bool) from p :
  P (LogicalPlan.EmptyRelation true Schema.empty) →
  (∀ l r p, P l → P r → plan_cross_join l r = Ok p → P p) →
  Forall (λ t, ∀ p, ok t = true → plan_table_with_joins self t = Ok p → P p) from →
  forallb ok from = true → plan_from_tables self from = Ok p → P p.
Proof.
  intros Hempty Hcross Hf Hp Hr. unfold plan_from_tables in Hr.
  destruct Hf as [|t from Ht Hf]; simpl in *; [by injection Hr as <-|].
  apply andb_true_iff in Hp as [Hpt Hp].
  assert (∃ l, plan_table_with_joins self t = Ok l ∧ foldR (λ l_plan t,
    r_plan ← plan_table_with_joins self t; plan_cross_join l_plan r_plan) l from = Ok p) as (l & Hl & Hr').
  { destruct from; [by exists p|]. by apply bind_Ok_inv in Hr. }
  apply Ht in Hl; [|done]. clear Hr Ht. revert l Hl Hr'.
  induction Hf as [|u from Hu _ IH]; simpl; intros l Hl Hr; [by injection Hr as <-|].
  simpl in Hp. apply andb_true_iff in Hp as [Hpu Hp]. apply bind_Ok_inv in Hr as (l' & Hl' & Hr).
  apply bind_Ok_inv in Hl' as (r & Hr' & Hj). eapply IH; [done| |exact Hr]. by apply (Hcross l r); [|apply Hu|].
Qed.
End joins.

End BindFacts.

(** ** The plans of plain queries *)
Module PlannedFacts.
Import PlainQuery ExpressionFacts Typing LogicalPlanner BindFacts QueryBounds.

Section planned.
Context {D : Type} `{Disk D} `{Sqlparser} (self : LogicalPlanner.t D).
Context (tables : TableReference.t → option (list Tuple.t)).

(** The tables of the catalog are there, with the schemas the catalog has for them. *)
Definition catalog_tables : Prop :=
  ∀ table_ref h, Catalog.table_heap table_ref (catalog self) = Ok h →
    ∃ l, tables table_ref = Some l ∧ Forall (has_types (TableHandle.schema h)) l.

(** A plan that can be executed. *)
Record runnable (p : LogicalPlan.t) : Prop := Runnable {
  runnable_readable : TotalFacts.readable tables p;
  runnable_typed : well_typed tables p;
  runnable_bounded : Z.of_nat (max_rows tables p) < 2 ^ 63 → bounded tables p;
}.

(** *** The parts of a select *)
Lemma selection_runnable input selection p :
  runnable input → plan_selection input selection = Ok p → runnable p.
Proof. intros [] Hp. destruct selection; simpl in Hp; inv_res; by split. Qed.

Lemma columns_typed (P : Expr.t → Prop) s es cols :
  Forall P es → mapR (λ e, Expr.to_column e s) es = Ok cols →
  Forall2 (λ e c, P e ∧ ∃ dt, Expr.data_type e s = Ok dt ∧ fits dt c) es cols.
Proof.
  intros He Hc%mapR_Ok. induction Hc as [|e c es cols Hc _ IH]; [constructor|].
  apply Forall_cons in He as [He Hes]. constructor; [|by apply IH].
  split; [done|]. eexists. split; [by apply to_column_type|done].
Qed.

(** A select without aggregates and groups keeps its input. *)
Lemma plan_aggregate_inv input items group_by p :
  plan_aggregate input items group_by = Ok p →
  ∃ es groups, bind_select_items input items = Ok es ∧ mapR bind_expr group_by = Ok groups ∧
    let calls := List.filter is_aggregate es in
    (calls = [] ∧ p = input) ∨
    (calls ≠ [] ∨ groups ≠ []) ∧ ∃ s cols1 cols2, p = LogicalPlan.Aggregate input groups calls s ∧
      mapR (λ e, Expr.to_column e (LogicalPlan.schema input)) calls = Ok cols1 ∧
      mapR (λ e, Expr.to_column e (LogicalPlan.schema input)) groups = Ok cols2 ∧
      Schema.columns s = cols1 ++ cols2.
Proof.
  intros Hp. unfold plan_aggregate in Hp. apply bind_Ok_inv in Hp as (es & Hes & Hp).
  apply bind_Ok_inv in Hp as (groups & Hgroups & Hp). exists es, groups. split_and!; [done..|].
  cbv zeta in *. destruct (List.filter is_aggregate es), groups; [by injection Hp as <-; left|right..];
    (split; [first [by left|by right]|]);
    apply bind_Ok_inv in Hp as (cols1 & H1 & Hp); apply bind_Ok_inv in Hp as (cols2 & H2 & Hp);
    apply bind_Ok_inv in Hp as (s & Hs%new_columns & [= <-]); by exists s, cols1, cols2.
Qed.

(** The columns of the plan have the names of the aggregate calls of the items. *)
Definition has_calls (items : list Ast.SelectItem) (p : LogicalPlan.t) : Prop :=
  ∀ es e, bind_select_items p items = Ok es → e ∈ es → is_aggregate e = true →
    ∃ c, c ∈ Schema.columns (LogicalPlan.schema p) ∧ Column.name c = Expr.display e.

Lemma bind_exprs_scalar sqls es :
  forallb plain_expr sqls = true → mapR bind_expr sqls = Ok es → Forall (λ e, scalar e = true) es.
Proof.
  intros Hp Hb%mapR_Ok. induction Hb as [|sql e sqls es Hb _ IH]; [constructor|].
  simpl in Hp. apply andb_true_iff in Hp as [Hp Hps]. constructor; [by eapply bind_plain|by apply IH].
Qed.

Lemma aggregate_runnable input items group_by p :
  runnable input → forallb plain_expr group_by = true → plan_aggregate input items group_by = Ok p →
  runnable p ∧ has_calls items p.
Proof.
  intros [Hr Ht Hb] Hg Hp.
  destruct (plan_aggregate_inv _ _ _ _ Hp) as (es & groups & Hes & Hgroups & Hcase). cbv zeta in Hcase.
  assert (∀ es' e, bind_select_items p items = Ok es' → e ∈ es' → is_aggregate e = true →
    e ∈ List.filter is_aggregate es) as Hin.
  { intros es' e Hes' He Ha. apply list_elem_of_In, List.filter_In. rewrite <- list_elem_of_In.
    split; [|done]. by eapply (bind_items_aggregates input p). }
  destruct Hcase as [[Hc ->]|(_ & s & cols1 & cols2 & -> & H1 & H2 & Hs)].
  - split; [by split|]. intros es' e Hes' He Ha. specialize (Hin es' e Hes' He Ha).
    rewrite Hc in Hin. by apply not_elem_of_nil in Hin.
  - split.
    + split; [done| |simpl; intros Hm; split; [lia|apply Hb; lia]].
      split; [done|]. exists cols1, cols2. split_and!; [done| |].
      * apply columns_typed; [|done]. apply Forall_forall. intros e [_ He]%list_elem_of_In%List.filter_In.
        by destruct e.
      * apply columns_typed; [|done]. by eapply bind_exprs_scalar.
    + intros es' e Hes' He Ha. specialize (Hin es' e Hes' He Ha). apply mapR_Ok in H1.
      apply list_elem_of_lookup in Hin as [i Hi].
      destruct (Forall2_lookup_l _ _ _ _ _ H1 Hi) as (c & Hc & Hcol). exists c.
      simpl. rewrite Hs, elem_of_app. split; [left; by eapply list_elem_of_lookup_2|].
      by apply to_column_aggregate in Hcol.
Qed.

Lemma project_runnable input items p :
  runnable input → has_calls items input → forallb plain_item items = true →
  plan_project input items = Ok p → runnable p.
Proof.
  intros [Hr Ht Hb] Hcalls Hitems Hp. unfold plan_project, project_schema in Hp.
  apply bind_Ok_inv in Hp as (es & Hes & Hp). cbv zeta in Hp.
  apply bind_Ok_inv in Hp as (s & Hs & [= <-]). apply bind_Ok_inv in Hs as (cols & Hcols & Hs%new_columns).
  split; [done| |done]. split; [done|]. rewrite Hs. apply columns_typed; [|done].
  apply Forall_fmap, Forall_forall. intros e He. unfold columnize_or_keep. simpl.
  destruct (columnize_expr e (LogicalPlan.schema input)) as [e'| |] eqn:Hc; [by eapply columnize_scalar|..];
    (pose proof (bind_items_columnwise _ _ _ Hitems Hes) as Hcw; rewrite Forall_forall in Hcw;
     destruct (Hcw e He) as [|Ha]; [done|];
     destruct (columnize_aggregate e (LogicalPlan.schema input) Ha) as [e' He']; [by eapply Hcalls|congruence]).
Qed.

(** *** Tables and joins *)
Lemma join_runnable l r join_type condition :
  runnable l → runnable r → runnable (LogicalPlan.Join l r join_type condition
    (build_join_schema (LogicalPlan.schema l) (LogicalPlan.schema r) join_type)).
Proof.
  intros [Hrl Htl Hbl] [Hrr Htr Hbr]. split; simpl.
  - done.
  - split_and!; [done..|apply join_schema_fits].
  - intros Hm. split; [apply Hbl|apply Hbr]; nia.
Qed.

Lemma join_operator_runnable l r op p :
  runnable l → runnable r → plan_join_operator l r op = Ok p → runnable p.
Proof.
  intros Hl Hr Hp. destruct op as [[]|[]|[]|[]| |]; simpl in Hp; unfold plan_cross_join in Hp;
    inv_res; try done; by apply join_runnable.
Qed.

Lemma limit_runnable input limit offset p :
  runnable input → plan_limit input limit offset = Ok p → runnable p.
Proof.
  intros [Hr Ht Hb] Hp.
  apply plan_limit_inv in Hp as [(_ & _ & ->)|(_ & n & m & Hn & _ & ->)].
  - by split.
  - split; [done..|]. simpl. intros Hm. split; [|by apply Hb]. intros z ->.
    apply bind_limit_range in Hn. lia.
Qed.

Lemma order_by_runnable input order_by p :
  runnable input → plan_order_by input order_by = Ok p → runnable p.
Proof. intros [Hr Ht Hb] Hp. unfold plan_order_by in Hp. destruct order_by; inv_res; by split. Qed.

Context (Hcatalog : catalog_tables).

Lemma table_runnable name p : plan_table self name = Ok p → runnable p.
Proof using Hcatalog.
  intros Hp. unfold plan_table in Hp. inv_res. destruct (Hcatalog _ _ Ha0) as (l & Hl & Ht).
  split; simpl; [by rewrite Hl| |done]. intros l' Hl'. by simplify_eq.
Qed.

(** Every plan of a plain query can be executed. *)
Lemma query_runnable q p : plain_query q = true → plan_query self q = Ok p → runnable p.
Proof using Hcatalog.
  revert p. apply (AstFacts.query_induction
    (λ q, ∀ p, plain_query q = true → plan_query self q = Ok p → runnable p)
    (λ s, ∀ p, plain_set_expr s = true → plan_set_expr self s = Ok p → runnable p)
    (λ s, ∀ p, plain_select s = true → plan_select self s = Ok p → runnable p)
    (λ t, ∀ p, plain_table t = true → plan_table_with_joins self t = Ok p → runnable p)
    (λ j, ∀ l p, plain_join j = true → runnable l → plan_relation_join self l j = Ok p → runnable p)
    (λ f, ∀ p, plain_factor f = true → plan_relation self f = Ok p → runnable p)); simpl; try done.
  - intros body order_by limit offset IH p Hp Hq. inv_res.
    eapply limit_runnable; [|done]. eapply order_by_runnable; [|done]. by apply IH.
  - intros projection from selection group_by IH p Hp Hq.
    apply andb_true_iff in Hp as [Hp Hfrom]. apply andb_true_iff in Hp as [Hitems Hgroup]. inv_res.
    assert (runnable a).
    { eapply (from_preserves self runnable); [by split| |done..]. intros l r p' ? ? ?.
      by apply (join_operator_runnable l r Ast.CrossJoin). }
    assert (runnable a0) by (by eapply selection_runnable).
    destruct (aggregate_runnable a0 projection group_by a1) as [? ?]; [done..|]. by eapply project_runnable.
  - intros relation joins IHf IHj p [Hf Hj]%andb_true_iff Hq. inv_res.
    eapply (joins_preserve self runnable); [done..|by apply IHf|done].
  - intros relation op IH l p Hf Hl Hq. inv_res. eapply join_operator_runnable; [done|by apply IH|done].
  - intros name p _ Hp. by eapply table_runnable.
Qed.

End planned.
End PlannedFacts.

(** ** Queries without limits and aggregates in their subqueries *)
Module FlatQuery.
Import PlainQuery.

(** Not a function call, as a select item. *)
Definition flat_item (item : Ast.SelectItem) : bool :=
  match item with
  | Ast.UnnamedExpr e | Ast.ExprWithAlias e _ => plain_expr e
  | _ => true
  end.

(** A query, below the top or not, with no limit and no aggregate below the top. *)
Fixpoint flat_query (top : bool) (query : Ast.Query) : bool :=
  let 'Ast.MkQuery body _ limit offset := query in
  (top || match limit, offset with None, None => true | _, _ => false end) && flat_set_expr top body
with flat_set_expr (top : bool) (set_expr : Ast.SetExpr) : bool :=
  match set_expr with
  | Ast.SelectExpr select => flat_select top select
  | Ast.ValuesExpr _ | Ast.OtherSetExpr => false
  end
with flat_select (top : bool) (select : Ast.Select) : bool :=
  let 'Ast.MkSelect projection from _ group_by := select in
  (if top then forallb plain_item projection && forallb plain_expr group_by
   else forallb flat_item projection && (length group_by =? 0)%nat) &&
  forallb flat_table from
with flat_table (t : Ast.TableWithJoins) : bool :=
  let 'Ast.MkTable relation joins := t in flat_factor relation && forallb flat_join joins
with flat_join (join : Ast.Join) : bool :=
  let 'Ast.MkJoin relation _ := join in flat_factor relation
with flat_factor (relation : Ast.TableFactor) : bool :=
  match relation with
  | Ast.Table _ | Ast.OtherFactor => true
  | Ast.NestedJoin t => flat_table t
  | Ast.Derived query => flat_query false query
  end.

End FlatQuery.

Module FlatFacts.
Import PlainQuery FlatQuery ExpressionFacts LogicalPlanner BindFacts PlannedFacts QueryBounds OptimizerFacts.

Lemma flat_items_plain items : forallb flat_item items = true → forallb plain_item items = true.
Proof.
  rewrite !forallb_forall. intros Hf item Hi. specialize (Hf item Hi).
  destruct item as [sql|sql alias| |]; simpl in *; try done. by destruct sql.
Qed.

Lemma forallb_Forall_impl {A} (f g : A → bool) l :
  Forall (λ x, f x = true → g x = true) l → forallb f l = true → forallb g l = true.
Proof. induction 1; simpl; [done|]. rewrite !andb_true_iff. naive_solver. Qed.

Lemma flat_plain q : ∀ top, flat_query top q = true → plain_query q = true.
Proof.
  apply (AstFacts.query_induction
    (λ q, ∀ top, flat_query top q = true → plain_query q = true)
    (λ s, ∀ top, flat_set_expr top s = true → plain_set_expr s = true)
    (λ s, ∀ top, flat_select top s = true → plain_select s = true)
    (λ t, flat_table t = true → plain_table t = true)
    (λ j, flat_join j = true → plain_join j = true)
    (λ f, flat_factor f = true → plain_factor f = true)); simpl; try done.
  - intros body order_by limit offset IH top [_ Hs]%andb_true_iff. by eapply IH.
  - intros projection from selection group_by IH top [Hi Hf]%andb_true_iff.
    apply (forallb_Forall_impl _ _ _ IH) in Hf. rewrite Hf, andb_true_r. destruct top; [done|].
    apply andb_true_iff in Hi as [Hi Hg%Nat.eqb_eq]. destruct group_by; [|done].
    by rewrite flat_items_plain.
  - intros relation joins IHf IHj [Hf Hj]%andb_true_iff. apply (forallb_Forall_impl _ _ _ IHj) in Hj.
    by rewrite IHf.
  - intros q' IH Hq. by eapply IH.
Qed.

Section planned.
Context {D : Type} `{Disk D} `{Sqlparser} (self : LogicalPlanner.t D).

(** The plan of a query without its limit, at the top or not. *)
Definition tame (top : bool) (p : LogicalPlan.t) : Prop :=
  limit_free p = true ∧ repeatable p = true ∧ (top = false → ordered p = true).

(** The plan of a query at the top. *)
Definition top_plan (p : LogicalPlan.t) : Prop :=
  limits_ok p ∧ weight p < 2 ^ 64 ∧ repeatable p = true.

Lemma limit_free_ok p : limit_free p = true → limits_ok p ∧ weight p = 0.
Proof. induction p; simpl; auto; done. Qed.

Lemma tame_top p : tame true p → top_plan p.
Proof. intros (Hl & Hr & _). apply limit_free_ok in Hl as [Hl Hw]. split_and!; [done|rewrite Hw; lia|done]. Qed.

Lemma tame_join l r join_type condition s :
  tame false l → tame false r → tame false (LogicalPlan.Join l r join_type condition s).
Proof.
  intros (H1 & H2 & H3) (H4 & H5 & H6). specialize (H3 eq_refl). specialize (H6 eq_refl).
  unfold tame. simpl. by rewrite H1, H2, H3, H4, H5, H6.
Qed.

Lemma tame_join_operator l r op p :
  tame false l → tame false r → plan_join_operator l r op = Ok p → tame false p.
Proof.
  intros Hl Hr Hp. destruct op as [[]|[]|[]|[]| |]; simpl in Hp; unfold plan_cross_join in Hp;
    inv_res; try done; by apply tame_join.
Qed.

Lemma tame_any top p : tame false p → tame top p.
Proof. intros (? & ? & Ho). split_and!; [done..|]. intros _. by apply Ho. Qed.

Lemma flat_item_calls input items es :
  forallb flat_item items = true → bind_select_items input items = Ok es →
  List.filter is_aggregate es = [].
Proof.
  unfold bind_select_items. intros Hp Hb. inv_res. rename a into ess. apply mapR_Ok in Ha.
  induction Ha as [|item es items ess He _ IH]; [done|].
  simpl in Hp. apply andb_true_iff in Hp as [Hp1 Hp2]. simpl. rewrite List.filter_app, IH by done.
  assert (Forall (λ e, is_aggregate e = false) es) as Hes.
  { destruct item as [sql|sql alias| |]; simpl in *; try done.
    - inv_res. constructor; [|done]. apply bind_plain in Ha; [|done]. by destruct a.
    - by inv_res; constructor.
    - injection He as <-. by apply Forall_fmap, Forall_true. }
  rewrite app_nil_r. clear -Hes. induction Hes as [|e es He _ IH]; [done|]. simpl. by rewrite He.
Qed.

Lemma tame_select (top : bool) selection items group_by p p1 p2 :
  tame false p → (if top then true else forallb flat_item items && (length group_by =? 0)%nat) = true →
  plan_selection p selection = Ok p1 → plan_aggregate p1 items group_by = Ok p2 → tame top p2.
Proof.
  intros Hp Ht H1 H2. assert (tame false p1) as Hp1.
  { destruct selection; simpl in H1; inv_res; [|done]. exact Hp. }
  destruct (plan_aggregate_inv _ _ _ _ H2) as (es & groups & Hes & Hg & Hcase). cbv zeta in Hcase.
  destruct Hcase as [[_ ->]|(Hne & s & cols1 & cols2 & -> & _)]; [by apply tame_any|].
  destruct top.
  - destruct Hp1 as (? & ? & _). by split_and!.
  - exfalso. apply andb_true_iff in Ht as [Hi Hn%Nat.eqb_eq]. destruct group_by; [|done].
    injection Hg as <-. destruct Hne as [Hc|]; [|done]. by apply Hc, (flat_item_calls p1 items).
Qed.

Lemma tame_limit (top : bool) input limit offset p :
  tame top input → plan_limit input limit offset = Ok p →
  (top || match limit, offset with None, None => true | _, _ => false end) = true →
  if top then top_plan p else tame false p.
Proof.
  intros Hi Hp Ht. apply plan_limit_inv in Hp as [(_ & _ & ->)|(Hne & n & m & Hn & Hm & ->)].
  - destruct top; [by apply tame_top|done].
  - destruct top; [|by destruct limit, offset, Hne]. pose proof Hi as Hi'. apply tame_top in Hi' as (Hl & Hw & Hr). destruct Hi as (Hf & _).
    apply limit_free_ok in Hf as [_ Hw0]. apply bind_offset_range in Hm.
    assert (∀ z, n = Some z → 0 ≤ z < 2 ^ 63) as Hz by (by intros z ->; eapply bind_limit_range).
    unfold top_plan. cbn [limits_ok weight repeatable]. rewrite Hw0. split_and!; [|lia|done| |done].
    + intros z ->. by apply Hz.
    + destruct n as [z|]; cbn [default from_option id]; [specialize (Hz z eq_refl)|]; lia.
Qed.

Lemma flat_query_plan q (top : bool) p :
  flat_query top q = true → plan_query self q = Ok p → if top then top_plan p else tame false p.
Proof.
  revert top p. apply (AstFacts.query_induction
    (λ q, ∀ top p, flat_query top q = true → plan_query self q = Ok p → if top then top_plan p else tame false p)
    (λ s, ∀ top p, flat_set_expr top s = true → plan_set_expr self s = Ok p → tame top p)
    (λ s, ∀ top p, flat_select top s = true → plan_select self s = Ok p → tame top p)
    (λ t, ∀ p, flat_table t = true → plan_table_with_joins self t = Ok p → tame false p)
    (λ j, ∀ l p, flat_join j = true → tame false l → plan_relation_join self l j = Ok p → tame false p)
    (λ f, ∀ p, flat_factor f = true → plan_relation self f = Ok p → tame false p)); simpl; try done.
  - intros body order_by limit offset IH top p [Ht Hb]%andb_true_iff Hp. inv_res.
    eapply tame_limit; [|done..]. specialize (IH top a Hb Ha).
    unfold plan_order_by in Ha0. by destruct order_by; inv_res.
  - intros projection from selection group_by IH top p [Hi Hf]%andb_true_iff Hp. inv_res.
    assert (tame false a) as Hs.
    { eapply (from_preserves self (tame false)); [done| |done..]. intros l r p' ? ? ?.
      by apply (tame_join_operator l r Ast.CrossJoin). }
    assert (tame top a1) by (eapply tame_select; [done|by destruct top|done..]).
    unfold plan_project in Hp. by inv_res.
  - intros relation joins IHf IHj p [Hf Hj]%andb_true_iff Hp. inv_res.
    eapply (joins_preserve self (tame false)); [done..|by apply IHf|done].
  - intros relation op IH l p Hf Hl Hp. inv_res. eapply tame_join_operator; [done|by apply IH|done].
  - intros name p _ Hp. unfold plan_table in Hp. by inv_res.
  - intros q' IH p Hf Hp. by apply (IH false).
Qed.

End planned.
End FlatFacts.

(** ** Properties *)
Module SqlProperties.
Import PlainQuery LogicalPlanner PlannedFacts Typing ExpressionFacts.

(** C8: the plan of a query, when the planner returns one, is well typed. For a query whose
    aggregate functions are whole select items and that reads tables and subqueries (no
    VALUES), planned over a catalog with the schemas of the tables, the plan is over
    tables that exist, and each node has the schema of the expressions it evaluates. So
    whatever it computes, it does not panic, and its rows have the schema of the plan.
    (The planner can panic before it returns a plan: [two_counts_panic]. A VALUES query is
    planned with an empty schema and panics when it is executed on its own.) *)
Theorem planned_query_typed {D} `{Disk D} `{Sqlparser} (self : LogicalPlanner.t D) tables q p :
  catalog_tables self tables → plain_query q = true → plan_query self q = Ok p →
  TotalFacts.readable tables p ∧ well_typed tables p ∧
  (∃ o, means tables p o) ∧
  ∀ o, means tables p o → ended o ≠ Crashed ∧ Forall (has_types (LogicalPlan.schema p)) (rows o).
Proof.
  intros Hc Hq Hp. destruct (query_runnable self tables Hc q p Hq Hp) as [Hr Ht _].
  split_and!; [done|done|by apply TotalFacts.means_total|]. intros o Ho. by apply (TypingFacts.well_typed_sound tables p o).
Qed.

(** *** A small catalog and a few queries *)
Definition ident (s : string) : Ast.Ident := Ast.MkIdent s None.
Definition col (s : string) : Ast.Expr := Ast.Identifier (ident s).
Definition num (s : string) : Ast.Expr := Ast.ValueExpr (Ast.Number s false).
Definition table (s : string) : Ast.TableWithJoins := Ast.MkTable (Ast.Table [ident s]) [].

(** [select b, count(a) from t, (select a as c from t) where a > 1 group by b order by b limit 10] *)
Definition demo_query : Ast.Query :=
  Ast.MkQuery (Ast.SelectExpr (Ast.MkSelect
    [Ast.UnnamedExpr (col "b");
     Ast.UnnamedExpr (Ast.Function [ident "COUNT"] [Ast.Unnamed (Ast.ArgExpr (col "a"))] false)]
    [table "t"; Ast.MkTable (Ast.Derived (Ast.MkQuery (Ast.SelectExpr (Ast.MkSelect
       [Ast.ExprWithAlias (col "a") (ident "c")] [table "t"] None [])) [] None None)) []]
    (Some (Ast.BinaryOp (col "a") Ast.Gt (num "1"))) [col "b"]))
    [Ast.MkOrderBy (col "b") None None] (Some (num "10")) None.

(** A parser that knows one statement. *)
Definition parser_of (sql : string) (stmt : Ast.Statement) : Sqlparser := {|
  parse_sql := λ s, if String.eqb s sql then Ok [stmt] else Err (Parser "unknown");
  parse_data_type := λ _, Ok Ast.OtherType;
  show_object_name := λ name, String.concat "." (Ast.value <$> name);
  show_data_type := λ _, "";
|}.
#[local] Instance demo_parser : Sqlparser := parser_of "query" (Ast.QueryStatement demo_query).

Definition demo_catalog : Catalog.t DiskManager.t :=
  Catalog.Mk {[DEFAULT_SCHEMA_NAME := CatalogSchema.Mk DEFAULT_SCHEMA_NAME
    {["t" := CatalogTable.new "t" (TableHandle.Mk TablePageSpec.demo_schema 1 1)]}]}
    (BufferPoolManager.new 0 (DiskManager.Mk 1 [] (MetaPage.try_new 0 1))).

Lemma planned_query_typed_witness :
  ∃ p, plan_query (LogicalPlanner.Mk demo_catalog) demo_query = Ok p ∧ well_typed (λ _, Some []) p ∧
    Column.name <$> Schema.columns (LogicalPlan.schema p) = ["b"; "Count"]%string.
Proof.
  eexists. split; [vm_compute; reflexivity|]. split; [|reflexivity].
  apply (planned_query_typed (LogicalPlanner.Mk demo_catalog) (λ _, Some []) demo_query).
  - intros table_ref h _. by exists [].
  - reflexivity.
  - vm_compute. reflexivity.
Defined.

(** [select count(a), count(b) from t]: the two columns of the aggregation have the same
    name, and the check of [Schema::new] fails. *)
Definition two_counts : Ast.Query :=
  let count c := Ast.UnnamedExpr (Ast.Function [ident "COUNT"] [Ast.Unnamed (Ast.ArgExpr (col c))] false) in
  Ast.MkQuery (Ast.SelectExpr (Ast.MkSelect [count "a"%string; count "b"%string] [table "t"] None [])) [] None None.

Example two_counts_panic :
  plain_query two_counts = true ∧ plan_query (LogicalPlanner.Mk demo_catalog) two_counts = Panic.
Proof. vm_compute. split; reflexivity. Qed.

End SqlProperties.
