(* ===== verification/Journal.v ===== *)
(** * Journal: the commit journal and crash recovery

    Models [bustubx/src/transaction/recovery.rs]. The journal file is the list of its
    bytes. Opening reads the whole file; a failing write leaves any prefix of the
    record behind, which [append] takes as an argument ([io]). A journal that is open
    elsewhere ([locked]) refuses to open. *)
From S2P Require Import Prelude CommonCodec.
Local Open Scope Z_scope.

Definition MAGIC : list Z := string_bytes "BUSTXJ01".
Definition COMMIT : list Z := string_bytes "COMMIT01".
Definition HEADER : nat := 40.

(** [u64::to_le_bytes] and [u64::from_le_bytes]. *)
Definition to_le_bytes (z : Z) : list Z := reverse (to_be_bytes 8 z).
Definition of_le_bytes (bytes : list Z) : Z := of_be_bytes (reverse bytes).

(** One round of the fold of [checksum]. *)
Definition checksum_step (hash byte : Z) : Z := wrap 64 (Z.lxor hash byte * 0x100000001b3).

Definition checksum (version : Z) (payload : list Z) : Z :=
  foldl checksum_step 0xcbf29ce484222325
    (to_le_bytes version ++ to_le_bytes (Z.of_nat (length payload)) ++ payload).

Definition record (version : Z) (payload : list Z) : list Z :=
  MAGIC ++ to_le_bytes version ++ to_le_bytes (Z.of_nat (length payload)) ++
  to_le_bytes (checksum version payload) ++
  to_le_bytes (checksum version (to_le_bytes (Z.of_nat (length payload)))) ++
  payload ++ COMMIT.

#[global] Arguments record : simpl never.

Module Journal.

Record t := Mk { file : list Z; failed : bool }.

(** The version after [latest]. *)
Definition next_version (latest : option (Z * list Z)) : result Z :=
  match latest with
  | None => Ok 0
  | Some (previous, _) =>
      ok_or (if previous + 1 <? 2 ^ 64 then Some (previous + 1) else None)
        (Storage "Journal version overflow")
  end.

(** The body of the loop of [open]: [None] is [break], otherwise the new cursor and
    the new [latest]. *)
Definition parse_record (bytes : list Z) (cursor : nat) (latest : option (Z * list Z)) :
    result (option (nat * (Z * list Z))) :=
  header ← slice bytes cursor (cursor + HEADER);
  magic ← slice header 0 8;
  if negb (bool_decide (magic = MAGIC)) then Err (Storage "Invalid journal record magic")
  else
  version ← of_le_bytes <$> slice header 8 16;
  len ← of_le_bytes <$> slice header 16 24;
  expected ← of_le_bytes <$> slice header 24 32;
  header_checksum ← of_le_bytes <$> slice header 32 40;
  if negb (header_checksum =? checksum version (to_le_bytes len)) then
    Err (Storage "Corrupt journal record header")
  else
  left ← usub (length bytes) cursor;
  available ← usub left HEADER;
  if (Z.of_nat (available - length COMMIT) <? len) || (available <? length COMMIT)%nat then
    Ok None
  else
  let end_ := (cursor + HEADER + Z.to_nat len)%nat in
  payload ← slice bytes (cursor + HEADER) end_;
  commit ← slice bytes end_ (end_ + 8);
  if negb (bool_decide (commit = COMMIT)) || negb (checksum version payload =? expected) then
    Err (Storage "Corrupt committed journal record")
  else
  expected_version ← next_version latest;
  if negb (version =? expected_version) then Err (Storage "Non-contiguous journal versions")
  else Ok (Some ((end_ + length COMMIT)%nat, (version, payload))).

(** [while bytes.len() - cursor >= HEADER]. *)
Fixpoint parse_loop (fuel : nat) (bytes : list Z) (cursor : nat)
    (latest : option (Z * list Z)) : result (nat * option (Z * list Z)) :=
  left ← usub (length bytes) cursor;
  if (HEADER <=? left)%nat then
    match fuel with
    | O => Panic
    | S fuel' =>
        r ← parse_record bytes cursor latest;
        match r with
        | Some (cursor', latest') => parse_loop fuel' bytes cursor' (Some latest')
        | None => Ok (cursor, latest)
        end
    end
  else Ok (cursor, latest).

(** [open] of a file with contents [bytes] (empty if there was none); the journal it
    returns holds the file as it left it. *)
Definition open (locked : bool) (bytes : list Z) : result (t * option (Z * list Z)) :=
  if locked then Err (Storage "Cannot exclusively lock transaction journal: {error}")
  else
    '(cursor, latest) ← parse_loop (length bytes) bytes 0 None;
    if negb (bool_decide (bytes = [])) && bool_decide (latest = None) then
      Err (Storage "Journal has no complete initial record")
    else
      Ok (Mk (if (cursor <? length bytes)%nat then take cursor bytes else bytes) false, latest).

Definition ensure_usable (self : t) : result unit :=
  if failed self then
    Err (Transaction "Journal write failed; reopen to determine commit outcome")
  else Ok tt.

(** The writing of a record: done, or failed after some bytes reached the file. *)
Inductive io := Written | FailedAfter (n : nat).

Definition append (outcome : io) (version : Z) (payload : list Z) : SR t unit := λ self,
  match ensure_usable self with
  | Ok _ =>
      let bytes := record version payload in
      match outcome with
      | Written => (Mk (file self ++ bytes) (failed self), Ok tt)
      | FailedAfter n =>
          (Mk (file self ++ take n bytes) true,
           Err (Transaction "Journal write failed ({error}); reopen to determine commit outcome"))
      end
  | r => (self, r)
  end.

End Journal.

(** ** Facts *)
Module JournalFacts.
Import Journal.

Lemma le_length z : length (to_le_bytes z) = 8%nat.
Proof. unfold to_le_bytes. by rewrite length_reverse, to_be_bytes_length. Qed.

Lemma of_to_le z : unsigned_ok 64 z → of_le_bytes (to_le_bytes z) = z.
Proof.
  intros Hz. unfold of_le_bytes, to_le_bytes. rewrite reverse_involutive, of_to_be_bytes.
  change (8 * Z.of_nat 8) with 64. by apply Z.mod_small.
Qed.

Lemma to_of_le l : Forall byte_ok l → length l = 8%nat → to_le_bytes (of_le_bytes l) = l.
Proof.
  intros Hl H8. unfold of_le_bytes, to_le_bytes.
  replace 8%nat with (length (reverse l)) by by rewrite length_reverse.
  rewrite to_of_be_bytes; [apply reverse_involutive|]. by apply Forall_reverse.
Qed.

Lemma of_le_range l : Forall byte_ok l → length l = 8%nat → unsigned_ok 64 (of_le_bytes l).
Proof.
  intros Hl H8. unfold of_le_bytes.
  replace 64 with (8 * Z.of_nat (length (reverse l))) by (rewrite length_reverse, H8; done).
  apply of_be_bytes_range. by apply Forall_reverse.
Qed.

Lemma checksum_range v p : unsigned_ok 64 (checksum v p).
Proof.
  unfold checksum. assert (unsigned_ok 64 0xcbf29ce484222325) as H by done. revert H.
  generalize 0xcbf29ce484222325.
  induction (to_le_bytes v ++ _) as [|b l IH]; intros h Hh; simpl; [done|].
  apply IH. by apply wrap_range.
Qed.

#[local] Opaque to_le_bytes of_le_bytes checksum.

(** The forty bytes before the payload. *)
Definition header (version : Z) (payload : list Z) : list Z :=
  MAGIC ++ to_le_bytes version ++ to_le_bytes (Z.of_nat (length payload)) ++
  to_le_bytes (checksum version payload) ++
  to_le_bytes (checksum version (to_le_bytes (Z.of_nat (length payload)))).

Lemma record_split v p : record v p = header v p ++ p ++ COMMIT.
Proof. unfold record, header. by rewrite <- !(assoc_L (++)). Qed.

Lemma record_header_length v p : length (header v p) = HEADER.
Proof. unfold header. by rewrite !length_app, !le_length. Qed.

Lemma record_length v p : length (record v p) = (48 + length p)%nat.
Proof.
  rewrite record_split, !length_app, record_header_length. change (length COMMIT) with 8%nat.
  unfold HEADER. lia.
Qed.

(** A payload and version that fit in the fields of a record. *)
Definition payload_ok (p : list Z) : Prop :=
  Forall byte_ok p ∧ Z.of_nat (length p) < 2 ^ 64.

Definition payload_okb (p : list Z) : bool :=
  forallb (λ b, (0 <=? b) && (b <? 256)) p && (Z.of_nat (length p) <? 2 ^ 64).

Lemma payload_okb_ok p : payload_okb p = true → payload_ok p.
Proof.
  unfold payload_okb. intros [Hp Hl]%andb_true_iff. split; [|lia].
  apply Forall_forall. intros b Hb%list_elem_of_In. rewrite forallb_forall in Hp.
  specialize (Hp b Hb). unfold byte_ok. lia.
Qed.

(** The fields of five words. *)
Lemma word_slices (a0 a1 a2 a3 a4 : list Z) :
  length a0 = 8%nat → length a1 = 8%nat → length a2 = 8%nat → length a3 = 8%nat →
  length a4 = 8%nat →
  let h := a0 ++ a1 ++ a2 ++ a3 ++ a4 in
  slice h 0 8 = Ok a0 ∧ slice h 8 16 = Ok a1 ∧ slice h 16 24 = Ok a2 ∧
  slice h 24 32 = Ok a3 ∧ slice h 32 40 = Ok a4.
Proof.
  intros H0 H1 H2 H3 H4 h. subst h. split_and!.
  - by apply slice_app.
  - apply slice_app3; lia.
  - rewrite (assoc_L (++) a0). apply slice_app3; rewrite ?length_app; lia.
  - rewrite (assoc_L (++) a1), (assoc_L (++) a0). apply slice_app3; rewrite ?length_app; lia.
  - pose proof (slice_app3 (a0 ++ a1 ++ a2 ++ a3) a4 [] 32 40) as E.
    rewrite app_nil_r, <- !(assoc_L (++)) in E. apply E; rewrite ?length_app; lia.
Qed.

Lemma slice_prefix {A} (l k : list A) a b :
  slice (l ++ k) (length l + a) (length l + b) = slice k a b.
Proof.
  unfold slice. rewrite length_app.
  replace (length l + a <=? length l + b)%nat with (a <=? b)%nat
    by (destruct (Nat.leb_spec a b), (Nat.leb_spec (length l + a) (length l + b)); (done || lia)).
  replace (length l + b <=? length l + length k)%nat with (b <=? length k)%nat
    by (destruct (Nat.leb_spec b (length k)), (Nat.leb_spec (length l + b) (length l + length k));
        (done || lia)).
  destruct (_ && _); [|done]. do 2 f_equal; [lia|].
  by rewrite drop_app_add.
Qed.

(** *** Complete and incomplete records *)

(** The body of the loop on five words and what follows them. *)
Lemma parse_words pre a0 a1 a2 a3 a4 rest latest :
  length a0 = 8%nat → length a1 = 8%nat → length a2 = 8%nat → length a3 = 8%nat →
  length a4 = 8%nat →
  let version := of_le_bytes a1 in
  let n := Z.to_nat (of_le_bytes a2) in
  parse_record (pre ++ (a0 ++ a1 ++ a2 ++ a3 ++ a4) ++ rest) (length pre) latest =
  if negb (bool_decide (a0 = MAGIC)) then Err (Storage "Invalid journal record magic")
  else if negb (of_le_bytes a4 =? checksum version (to_le_bytes (of_le_bytes a2))) then
    Err (Storage "Corrupt journal record header")
  else if (Z.of_nat (length rest - 8) <? of_le_bytes a2) || (length rest <? 8)%nat then Ok None
  else
    payload ← slice rest 0 n;
    commit ← slice rest n (n + 8);
    if negb (bool_decide (commit = COMMIT)) ||
       negb (checksum version payload =? of_le_bytes a3) then
      Err (Storage "Corrupt committed journal record")
    else
    expected_version ← next_version latest;
    if negb (version =? expected_version) then Err (Storage "Non-contiguous journal versions")
    else Ok (Some ((length pre + HEADER + n + 8)%nat, (version, payload))).
Proof.
  intros H0 H1 H2 H3 H4 version n. unfold parse_record.
  destruct (word_slices a0 a1 a2 a3 a4 H0 H1 H2 H3 H4) as (E0 & E1 & E2 & E3 & E4).
  set (h := a0 ++ a1 ++ a2 ++ a3 ++ a4) in *.
  assert (length h = HEADER) as Hh by (subst h; rewrite !length_app; unfold HEADER; lia).
  rewrite <- (Nat.add_0_r (length pre)) at 1. rewrite slice_prefix.
  rewrite slice_app by done. cbn [mbind result_bind].
  rewrite E0, E1, E2, E3, E4. cbn [mbind result_bind fmap result_fmap].
  destruct (negb (bool_decide _)); [done|]. destruct (negb (_ =? _)); [done|].
  rewrite !length_app, Hh. rewrite usub_Ok by lia. cbn [mbind result_bind].
  rewrite usub_Ok by lia. cbn [mbind result_bind].
  replace (length pre + (HEADER + length rest) - length pre - HEADER)%nat with (length rest) by lia.
  change (length COMMIT) with 8%nat.
  destruct (_ || _); [done|]. rewrite (assoc_L (++) pre).
  assert (length (pre ++ h) = length pre + HEADER)%nat as Hl by (by rewrite length_app, Hh).
  fold version n.
  rewrite <- Hl. rewrite <- (Nat.add_0_r (length (pre ++ h))) at 1.
  rewrite slice_prefix.
  replace (length (pre ++ h) + n + 8)%nat with (length (pre ++ h) + (n + 8))%nat by lia.
  by rewrite slice_prefix.
Qed.

Lemma parse_header pre v p rest latest :
  payload_ok p → unsigned_ok 64 v →
  parse_record (pre ++ header v p ++ rest) (length pre) latest =
  if (Z.of_nat (length rest - 8) <? Z.of_nat (length p)) || (length rest <? 8)%nat then Ok None
  else
    payload ← slice rest 0 (length p);
    commit ← slice rest (length p) (length p + 8);
    if negb (bool_decide (commit = COMMIT)) || negb (checksum v payload =? checksum v p) then
      Err (Storage "Corrupt committed journal record")
    else
    expected_version ← next_version latest;
    if negb (v =? expected_version) then Err (Storage "Non-contiguous journal versions")
    else Ok (Some ((length pre + HEADER + length p + 8)%nat, (v, payload))).
Proof.
  intros [_ Hp] Hv. unfold header.
  assert (unsigned_ok 64 (Z.of_nat (length p))) as Hl by (unfold unsigned_ok; lia).
  rewrite parse_words by (done || apply le_length).
  rewrite !of_to_le by (done || apply checksum_range).
  rewrite bool_decide_eq_true_2 by done. rewrite Z.eqb_refl. cbn [negb]. by rewrite Nat2Z.id.
Qed.

Lemma parse_complete pre v p rest latest :
  payload_ok p → unsigned_ok 64 v →
  next_version latest = Ok v →
  parse_record (pre ++ record v p ++ rest) (length pre) latest
  = Ok (Some (length (pre ++ record v p), (v, p))).
Proof.
  intros Hp Hv Hn. rewrite record_split, <- !(assoc_L (++)), parse_header by done.
  rewrite !length_app. change (length COMMIT) with 8%nat.
  rewrite (proj2 (Z.ltb_ge _ _)) by lia. rewrite (proj2 (Nat.ltb_ge _ _)) by lia. cbn [orb].
  rewrite slice_app by done. cbn [mbind result_bind].
  rewrite slice_app3 by done. cbn [mbind result_bind].
  rewrite bool_decide_eq_true_2 by done. rewrite Z.eqb_refl. cbn [negb orb].
  rewrite Hn. cbn [mbind result_bind]. rewrite Z.eqb_refl. cbn [negb].
  rewrite record_header_length. do 3 f_equal. lia.
Qed.

Lemma parse_incomplete pre v p n latest :
  payload_ok p → unsigned_ok 64 v → (HEADER ≤ n < length (record v p))%nat →
  parse_record (pre ++ take n (record v p)) (length pre) latest = Ok None.
Proof.
  intros Hp Hv Hn. rewrite record_length in Hn. rewrite record_split.
  replace n with (length (header v p) + (n - HEADER))%nat by (rewrite record_header_length; lia).
  rewrite take_app_add, parse_header by done.
  assert (length (take (n - HEADER) (p ++ COMMIT)) = n - HEADER)%nat as Hl
    by (rewrite length_take, length_app; change (length COMMIT) with 8%nat; unfold HEADER in *; lia).
  rewrite Hl. change (length COMMIT) with 8%nat. unfold HEADER in *.
  destruct (Z.ltb_spec (Z.of_nat (n - 40 - 8)) (Z.of_nat (length p))); [done|].
  destruct (Nat.ltb_spec (n - 40) 8); [done|lia].
Qed.

Lemma first_word (l : list Z) :
  (8 ≤ length l)%nat → ∃ a l', l = a ++ l' ∧ length a = 8%nat ∧ (length l' + 8 = length l)%nat.
Proof.
  intros H. exists (take 8 l), (drop 8 l). rewrite take_drop, length_take, length_drop.
  split_and!; [done|lia..].
Qed.

(** A record read at the cursor is one that was there. *)
Lemma parse_sound pre rest latest :
  Forall byte_ok rest → (HEADER ≤ length rest)%nat →
  match parse_record (pre ++ rest) (length pre) latest with
  | Panic => False
  | Err e => ∃ msg, e = Storage msg
  | Ok None => True
  | Ok (Some (cursor, (v, p))) =>
      ∃ rest', rest = record v p ++ rest' ∧ cursor = length (pre ++ record v p) ∧
        payload_ok p ∧ next_version latest = Ok v
  end.
Proof.
  intros Hb Hlen. unfold HEADER in Hlen.
  assert (∃ a0 a1 a2 a3 a4 rest', rest = (a0 ++ a1 ++ a2 ++ a3 ++ a4) ++ rest' ∧
    length a0 = 8 ∧ length a1 = 8 ∧ length a2 = 8 ∧ length a3 = 8 ∧ length a4 = 8)%nat
    as (a0 & a1 & a2 & a3 & a4 & rest' & -> & H0 & H1 & H2 & H3 & H4).
  { destruct (first_word rest) as (a0 & r0 & -> & H0 & L0); [lia|].
    destruct (first_word r0) as (a1 & r1 & -> & H1 & L1); [lia|].
    destruct (first_word r1) as (a2 & r2 & -> & H2 & L2); [lia|].
    destruct (first_word r2) as (a3 & r3 & -> & H3 & L3); [lia|].
    destruct (first_word r3) as (a4 & r4 & -> & H4 & L4); [lia|].
    exists a0, a1, a2, a3, a4, r4. by rewrite <- !(assoc_L (++)). }
  apply Forall_app in Hb as [Hh Hb].
  rewrite !Forall_app in Hh. destruct Hh as (B0 & B1 & B2 & B3 & B4).
  rewrite parse_words by done.
  case_bool_decide as HM; cbn [negb]; [|by eexists].
  destruct (Z.eqb_spec (of_le_bytes a4) (checksum (of_le_bytes a1) (to_le_bytes (of_le_bytes a2))))
    as [Hck|]; cbn [negb]; [|by eexists].
  pose proof (of_le_range a2 B2 H2) as [Hn _].
  set (n := Z.to_nat (of_le_bytes a2)).
  destruct (Z.ltb_spec (Z.of_nat (length rest' - 8)) (of_le_bytes a2)); [done|].
  destruct (Nat.ltb_spec (length rest') 8); [done|]. cbn [orb].
  rewrite !slice_Ok by lia. cbn [mbind result_bind].
  rewrite drop_0, Nat.sub_0_r. replace (n + 8 - n)%nat with 8%nat by lia.
  set (p := take n rest'). set (c := take 8 (drop n rest')).
  case_bool_decide as HC; cbn [negb orb]; [|by eexists].
  destruct (Z.eqb_spec (checksum (of_le_bytes a1) p) (of_le_bytes a3)) as [Hcp|]; [|by eexists].
  cbn [negb orb]. destruct (next_version latest) as [v'|e|] eqn:Hv; cbn [mbind result_bind].
  - destruct (Z.eqb_spec (of_le_bytes a1) v') as [Hvv|]; [|by eexists]. cbn [negb].
    assert (length p = n) as Hp by (subst p; rewrite length_take; lia).
    assert (Z.of_nat (length p) = of_le_bytes a2) as Hp' by lia.
    exists (drop (n + 8) rest'). split_and!.
    + unfold record. rewrite Hp', Hcp, <- Hck, !to_of_le by done. rewrite <- HM, <- HC.
      rewrite <- !(assoc_L (++)). do 5 f_equal. subst p c.
      by rewrite <- drop_drop, !take_drop.
    + rewrite length_app, record_length, Hp. unfold HEADER. lia.
    + split; [by apply Forall_take|]. rewrite Hp'. by apply (of_le_range a2).
    + congruence.
  - unfold next_version in Hv. destruct latest as [[u q]|]; [|done]. destruct (_ <? _); [done|].
    injection Hv as <-. by eexists.
  - unfold next_version in Hv. destruct latest as [[u q]|]; [|done]. by destruct (_ <? _).
Qed.

#[local] Opaque record.

(** *** Histories *)

(** The records of the payloads [ps] with versions from [v]; the last of them. *)
Fixpoint records_from (v : Z) (ps : list (list Z)) : list Z :=
  match ps with
  | [] => []
  | p :: ps' => record v p ++ records_from (v + 1) ps'
  end.

Fixpoint latest_from (latest : option (Z * list Z)) (v : Z) (ps : list (list Z)) :
    option (Z * list Z) :=
  match ps with
  | [] => latest
  | p :: ps' => latest_from (Some (v, p)) (v + 1) ps'
  end.

(** A part of a record, not all of it. *)
Definition incomplete (tail : list Z) : Prop :=
  ∃ v p n, payload_ok p ∧ unsigned_ok 64 v ∧ (n < length (record v p))%nat ∧
    tail = take n (record v p).

Lemma records_from_app v ps qs :
  records_from v (ps ++ qs) = records_from v ps ++ records_from (v + Z.of_nat (length ps)) qs.
Proof.
  revert v. induction ps as [|p ps IH]; intros v; simpl; [by rewrite Z.add_0_r|].
  rewrite IH, <- (assoc_L (++)).
  replace (v + Z.of_nat (S (length ps))) with (v + 1 + Z.of_nat (length ps)) by lia.
  done.
Qed.

Lemma records_length v ps : (length ps ≤ length (records_from v ps))%nat.
Proof.
  revert v. induction ps as [|p ps IH]; intros v; simpl; [lia|].
  rewrite length_app, record_length. specialize (IH (v + 1)). lia.
Qed.

Lemma parse_history ps : ∀ fuel pre v latest tail,
  Forall payload_ok ps → incomplete tail → 0 ≤ v → v + Z.of_nat (length ps) ≤ 2 ^ 64 →
  ps = [] ∨ next_version latest = Ok v → (length ps + length tail ≤ fuel)%nat →
  parse_loop fuel (pre ++ records_from v ps ++ tail) (length pre) latest
  = Ok (length (pre ++ records_from v ps), latest_from latest v ps).
Proof.
  induction ps as [|p ps IH]; intros fuel pre v latest tail Hps Htail Hv0 Hv Hnext Hfuel.
  - simpl. rewrite app_nil_r. destruct Htail as (u & q & n & Hq & Hu & Hn & ->).
    assert (length (take n (record u q)) = n) as Hl by (rewrite length_take; lia).
    simpl in Hfuel. rewrite Hl in Hfuel.
    assert (usub (length (pre ++ take n (record u q))) (length pre) = Ok n) as Hsub
      by (rewrite length_app, Hl, usub_Ok by lia; f_equal; lia).
    destruct (Nat.leb_spec HEADER n) as [Hh|Hh].
    + destruct fuel as [|fuel]; [unfold HEADER in *; lia|]. cbn [parse_loop].
      rewrite Hsub. cbn [mbind result_bind]. rewrite (proj2 (Nat.leb_le _ _) Hh).
      by rewrite parse_incomplete.
    + destruct fuel as [|fuel]; cbn [parse_loop]; rewrite Hsub; cbn [mbind result_bind];
        by rewrite (proj2 (Nat.leb_gt _ _) Hh).
  - apply Forall_cons in Hps as [Hp Hps]. destruct Hnext as [?|Hnext]; [done|].
    simpl in Hv, Hfuel. destruct fuel as [|fuel]; [lia|]. cbn [records_from latest_from parse_loop].
    rewrite <- (assoc_L (++)). rewrite !length_app, record_length.
    rewrite usub_Ok by lia. cbn [mbind result_bind].
    rewrite (proj2 (Nat.leb_le _ _)) by (unfold HEADER; lia).
    rewrite parse_complete by (done || unfold unsigned_ok; lia). cbn [mbind result_bind].
    rewrite (assoc_L (++) pre).
    rewrite (IH fuel (pre ++ record v p)); [|done|done|lia|lia| |lia].
    + do 2 f_equal. rewrite !length_app, record_length. lia.
    + destruct ps as [|q ps]; [by left|right]. simpl in Hv. simpl.
      by rewrite (proj2 (Z.ltb_lt _ _)) by lia.
Qed.

Lemma parse_loop_sound fuel : ∀ pre rest latest,
  Forall byte_ok rest → (length rest ≤ fuel)%nat →
  match parse_loop fuel (pre ++ rest) (length pre) latest with
  | Panic => False
  | Err e => ∃ msg, e = Storage msg
  | Ok (cursor, latest') => ∃ v ps tail,
      rest = records_from v ps ++ tail ∧ cursor = length (pre ++ records_from v ps) ∧
      latest' = latest_from latest v ps ∧ Forall payload_ok ps ∧
      (ps = [] ∨ next_version latest = Ok v)
  end.
Proof.
  induction fuel as [|fuel IH]; intros pre rest latest Hb Hlen;
    cbn [parse_loop]; rewrite length_app, usub_Ok by lia; cbn [mbind result_bind];
    replace (length pre + length rest - length pre)%nat with (length rest) by lia.
  { destruct rest; [|simpl in Hlen; lia]. exists 0, [], []. simpl. rewrite app_nil_r.
    split_and!; try done. by left. }
  destruct (Nat.leb_spec HEADER (length rest)) as [Hh|].
  2:{ exists 0, [], rest. simpl. rewrite app_nil_r. split_and!; try done. by left. }
  pose proof (parse_sound pre rest latest Hb Hh) as Hs.
  destruct (parse_record (pre ++ rest) (length pre) latest) as [[[c [v p]]|]|e|];
    cbn [mbind result_bind]; try done.
  2:{ exists 0, [], rest. simpl. rewrite app_nil_r. split_and!; try done. by left. }
  destruct Hs as (rest' & -> & -> & Hp & Hv).
  apply Forall_app in Hb as [_ Hb]. rewrite length_app, record_length in Hlen.
  specialize (IH (pre ++ record v p) rest' (Some (v, p)) Hb ltac:(lia)).
  rewrite <- (assoc_L (++)) in IH.
  destruct (parse_loop fuel (pre ++ record v p ++ rest') (length (pre ++ record v p)) (Some (v, p)))
    as [[c l]|e|]; [|done..].
  destruct IH as (v' & ps & tail & -> & -> & -> & Hps & Hor).
  exists v, (p :: ps), tail. simpl.
  assert (records_from v' ps = records_from (v + 1) ps ∧
    latest_from (Some (v, p)) v' ps = latest_from (Some (v, p)) (v + 1) ps) as [-> ->].
  { destruct Hor as [->|Hn]; [done|]. unfold next_version in Hn.
    destruct (_ <? _); [|done]. by injection Hn as <-. }
  split_and!; [by rewrite (assoc_L (++))| |done|by constructor|by right].
  by rewrite !length_app, Nat.add_assoc.
Qed.

(** The journal that committed the payloads [ps], and what it recovers. *)
Definition history (ps : list (list Z)) : list Z := records_from 0 ps.
Definition latest (ps : list (list Z)) : option (Z * list Z) := latest_from None 0 ps.

Lemma latest_from_snoc l v ps p : latest_from l v (ps ++ [p]) = Some (v + Z.of_nat (length ps), p).
Proof.
  revert l v. induction ps as [|q ps IH]; intros l v; simpl; [by rewrite Z.add_0_r|].
  rewrite IH. do 2 f_equal. lia.
Qed.

Lemma latest_snoc ps p : latest (ps ++ [p]) = Some (Z.of_nat (length ps), p).
Proof. apply latest_from_snoc. Qed.

Lemma latest_None ps : latest ps = None ↔ ps = [].
Proof.
  destruct ps as [|p ps _] using rev_ind; [done|]. rewrite latest_snoc. split; [done|].
  intros E. by apply app_nil in E as [_ ?].
Qed.

Lemma history_snoc ps p : history (ps ++ [p]) = history ps ++ record (Z.of_nat (length ps)) p.
Proof. unfold history. rewrite records_from_app. simpl. by rewrite app_nil_r. Qed.

Lemma incomplete_nil : incomplete [].
Proof.
  exists 0, [], 0%nat. rewrite record_length. split_and!; try done. simpl. lia.
Qed.

(** Opening a history with an incomplete record after it. *)
Lemma open_history ps tail :
  Forall payload_ok ps → Z.of_nat (length ps) ≤ 2 ^ 64 → incomplete tail →
  ps ≠ [] ∨ tail = [] →
  Journal.open false (history ps ++ tail) = Ok (Mk (history ps) false, latest ps).
Proof.
  intros Hps Hlen Ht Hne. unfold Journal.open.
  pose proof (records_length 0 ps) as Hl. fold (history ps) in Hl.
  pose proof (parse_history ps (length (history ps ++ tail)) [] 0 None tail Hps Ht) as Hrun.
  cbn [app length] in Hrun. fold (history ps) (latest ps) in Hrun.
  rewrite Hrun by (done || (by right) || (rewrite length_app; lia)). cbn [mbind result_bind].
  replace (negb _ && _) with false.
  2:{ symmetry. apply andb_false_iff. destruct (decide (ps = [])) as [->|Hps'].
      - destruct Hne as [?| ->]; [done|]. by left.
      - right. apply bool_decide_eq_false. by rewrite latest_None. }
  rewrite length_app. do 3 f_equal.
  destruct (Nat.ltb_spec (length (history ps)) (length (history ps) + length tail)).
  - apply take_app_length.
  - destruct tail; [by rewrite app_nil_r|]. simpl in *. lia.
Qed.

Lemma open_whole ps :
  Forall payload_ok ps → Z.of_nat (length ps) ≤ 2 ^ 64 →
  Journal.open false (history ps) = Ok (Mk (history ps) false, latest ps).
Proof.
  intros Hps Hlen. rewrite <- (app_nil_r (history ps)) at 1.
  apply open_history; [done|done|apply incomplete_nil|by right].
Qed.

(** Appending the next version to a history. *)
Lemma append_written j ps p :
  file j = history ps → failed j = false →
  append Written (Z.of_nat (length ps)) p j = (Mk (history (ps ++ [p])) false, Ok tt).
Proof.
  intros Hf Hn. unfold append, ensure_usable. rewrite Hn, Hf. by rewrite history_snoc.
Qed.

Lemma append_failed j ps p n :
  file j = history ps → failed j = false → ps ≠ [] →
  Forall payload_ok ps → payload_ok p → Z.of_nat (length ps) < 2 ^ 64 →
  ∃ j' msg, append (FailedAfter n) (Z.of_nat (length ps)) p j = (j', Err (Transaction msg)) ∧
    failed j' = true ∧
    Journal.open false (file j')
    = Ok (if decide (n < length (record (Z.of_nat (length ps)) p))%nat
          then (Mk (history ps) false, latest ps)
          else (Mk (history (ps ++ [p])) false, Some (Z.of_nat (length ps), p))).
Proof.
  intros Hf Hn Hne Hps Hp Hlen. unfold append, ensure_usable. rewrite Hn, Hf.
  do 2 eexists. split; [reflexivity|]. split; [done|]. simpl. case_decide as Hc.
  - apply open_history; [done|lia| |by left]. exists (Z.of_nat (length ps)), p, n.
    split_and!; try done. unfold unsigned_ok. lia.
  - rewrite take_ge by lia. rewrite <- history_snoc, <- latest_snoc.
    apply open_whole; [by rewrite Forall_app, Forall_singleton|]. rewrite length_app. simpl. lia.
Qed.

(** What a file that opens holds. *)
Lemma open_spec locked bytes :
  Forall byte_ok bytes →
  match Journal.open locked bytes with
  | Ok (j, recovered) => ∃ ps tail,
      locked = false ∧ bytes = history ps ++ tail ∧ file j = history ps ∧ failed j = false ∧
      recovered = latest ps ∧ Forall payload_ok ps ∧ (ps = [] → bytes = [])
  | Err e => ∃ msg, e = Storage msg
  | Panic => False
  end.
Proof.
  intros Hb. unfold Journal.open. destruct locked; [by eexists|].
  pose proof (parse_loop_sound (length bytes) [] bytes None Hb ltac:(lia)) as Hs. simpl in Hs.
  destruct (parse_loop _ _ _ _) as [[c l]|e|]; cbn [mbind result_bind]; [|done..].
  destruct Hs as (v & ps & tail & Hbytes & Hc & Hl & Hps & Hv).
  assert (records_from v ps = history ps ∧ latest_from None v ps = latest ps) as [Hr Hl'].
  { destruct Hv as [->|Hv]; [done|]. injection Hv as <-. done. }
  rewrite Hr in *. rewrite Hl' in Hl. subst l.
  destruct (negb (bool_decide (bytes = [])) && bool_decide (latest ps = None)) eqn:Hempty;
    [by eexists|].
  exists ps, tail. split_and!; try done.
  - simpl. subst c. rewrite Hbytes, length_app.
    destruct (Nat.ltb_spec (length (history ps)) (length (history ps) + length tail));
      [apply take_app_length|destruct tail; [apply app_nil_r|simpl in *; lia]].
  - intros Hnil. apply andb_false_iff in Hempty as [E|E].
    + by apply negb_false_iff, bool_decide_eq_true in E.
    + apply bool_decide_eq_false in E. by apply latest_None in Hnil.
Qed.

End JournalFacts.

(** ** Properties *)
Module JournalSpec.
Import Journal JournalFacts.

(** C25: a crash during a commit loses or keeps that commit, and nothing else. Appending
    the next version to a journal with the history [ps] either writes it, and then
    reopening the file recovers it; or fails after any number of bytes: the journal
    then refuses every later append, and reopening the file recovers the new commit if
    all its bytes were written and otherwise the commit before, with the incomplete
    record cut off so that the journal is again a history that can be appended to. *)
Theorem append_crash_safe (j : t) ps p outcome :
  file j = history ps → failed j = false → ps ≠ [] →
  Forall payload_ok ps → payload_ok p → Z.of_nat (length ps) < 2 ^ 64 →
  let version := Z.of_nat (length ps) in
  let '(j', r) := append outcome version p j in
  match outcome with
  | Written =>
      r = Ok tt ∧ file j' = history (ps ++ [p]) ∧
      Journal.open false (file j') = Ok (j', Some (version, p))
  | FailedAfter n =>
      (∃ msg, r = Err (Transaction msg)) ∧
      (∀ outcome' v' p', append outcome' v' p' j' = (j', ensure_usable j')) ∧
      Journal.open false (file j')
      = Ok (if decide (n < length (record version p))%nat
            then (Mk (history ps) false, latest ps)
            else (Mk (history (ps ++ [p])) false, Some (version, p)))
  end.
Proof.
  intros Hf Hn Hne Hps Hp Hlen version. subst version. destruct outcome as [|n].
  - rewrite (append_written j ps p Hf Hn), <- latest_snoc. split_and!; [done..|]. simpl.
    apply open_whole; [by rewrite Forall_app, Forall_singleton|]. rewrite length_app. simpl. lia.
  - destruct (append_failed j ps p n Hf Hn Hne Hps Hp Hlen) as (j' & msg & -> & Hfail & Hopen).
    split_and!; [by exists msg| |done]. intros o v' p'. unfold append, ensure_usable. by rewrite Hfail.
Qed.


Lemma append_crash_safe_witness :
  let j := Mk (history [[1; 2; 3]]) false in
  Journal.open false (file (append (FailedAfter 50) 1 [7; 8] j).1)
  = Ok (if decide (50 < length (record 1%Z [7; 8]%Z))%nat
        then (Mk (history [[1; 2; 3]]) false, latest [[1; 2; 3]])
        else (Mk (history [[1; 2; 3]; [7; 8]]) false, Some (1, [7; 8]))).
Proof.
  apply (append_crash_safe (Mk (history [[1; 2; 3]]) false) [[1; 2; 3]] [7; 8] (FailedAfter 50));
    [done|done|done| | |done].
  - repeat constructor; done.
  - repeat constructor; done.
Defined.


End JournalSpec.
