(* ===== verification/Transactions.v ===== *)
(** * Transactions: locking, snapshots, commit

    Models [bustubx/src/transaction/lock_manager.rs], [transaction_manager.rs] and
    [transaction.rs]. The mutex makes every method of the manager one step on the
    shared [ManagerState]. The database inside is used through the interface
    [Database]: its bytes can be saved and opened again, and it runs statements. Nothing is
    assumed of these methods. *)
From S2P Require Import Prelude CommonCodec Schema Journal.
Local Open Scope Z_scope.

(** ** Locks *)
Module LockManager.

Record t := Mk { readers : gset Z; writer : option Z }.

Definition default : t := Mk ∅ None.

(** [self.writer.is_some() && self.writer != Some(id)] *)
Definition other_writer (id : Z) (self : t) : bool :=
  match writer self with Some w => negb (w =? id) | None => false end.

Definition shared (id : Z) (self : t) : t * bool :=
  if other_writer id self then (self, false)
  else (Mk ({[id]} ∪ readers self) (writer self), true).

Definition exclusive (id : Z) (self : t) : t * bool :=
  if other_writer id self then (self, false)
  else if bool_decide (set_Exists (λ reader, reader ≠ id) (readers self)) then (self, false)
  else (Mk (readers self) (Some id), true).

Definition release (id : Z) (self : t) : t :=
  Mk (readers self ∖ {[id]}) (if bool_decide (writer self = Some id) then None else writer self).

End LockManager.

(** The statements a logical plan stands for (the constructors of [LogicalPlan]). *)
Inductive plan_kind :=
  | PCreateTable | PCreateIndex | PFilter | PInsert | PJoin | PLimit | PProject | PTableScan
  | PSort | PValues | PEmptyRelation | PAggregate | PUpdate.

Inductive IsolationLevel := Serializable | SnapshotIsolation.

#[export] Instance IsolationLevel_eq_dec : EqDecision IsolationLevel.
Proof. solve_decision. Defined.

(** ** The interface of a database (bustubx/src/database.rs) *)
Class Database (DB : Type) := {
  db_new_temp : result DB;
  db_snapshot_bytes : SR DB (list Z);
  db_from_snapshot : list Z → result DB;
  db_create_logical_plan : string → SR DB plan_kind;
  db_run : string → SR DB (list Tuple.t);
  db_set_parallelism : nat → SR DB unit;
}.

(** A statement of a transaction: [run_active] plans it, then runs it. *)
Definition statement {DB} `{Database DB} (sql : string) : SR DB (list Tuple.t) :=
  _ ← db_create_logical_plan sql; db_run sql.

(** What saving does to a database, any number of times: a call of [snapshot_bytes] writes
    its dirty pages to its file, also a call that fails. *)
Definition saves {DB} `{Database DB} (db db' : DB) : Prop := ∃ r, db_snapshot_bytes db = (db', r).
Notation kept := (rtc saves).

(** [w] is opened from the bytes saved of [db]. *)
Definition copy {DB} `{Database DB} (db w : DB) : Prop :=
  ∃ db' bytes, db_snapshot_bytes db = (db', Ok bytes) ∧ db_from_snapshot bytes = Ok w.

(** ** The manager *)
Section manager.
Context {DB : Type} `{Database DB}.

Record ManagerState := MkManager {
  database : DB;
  locks : LockManager.t;
  next_id : Z;
  version : Z;
  journal : option Journal.t;
}.

Definition set_database (x : DB) (s : ManagerState) : ManagerState :=
  MkManager x (locks s) (next_id s) (version s) (journal s).
Definition set_locks (x : LockManager.t) (s : ManagerState) : ManagerState :=
  MkManager (database s) x (next_id s) (version s) (journal s).
Definition set_next_id (x : Z) (s : ManagerState) : ManagerState :=
  MkManager (database s) (locks s) x (version s) (journal s).
Definition set_version (x : Z) (s : ManagerState) : ManagerState :=
  MkManager (database s) (locks s) (next_id s) x (journal s).
Definition set_journal (x : option Journal.t) (s : ManagerState) : ManagerState :=
  MkManager (database s) (locks s) (next_id s) (version s) x.

(** A private workspace. *)
Record Txn := MkTxn {
  id : Z;
  workspace : option DB;
  dirty : bool;
  isolation : IsolationLevel;
  base_version : Z;
}.

Definition set_workspace (x : option DB) (t : Txn) : Txn :=
  MkTxn (id t) x (dirty t) (isolation t) (base_version t).
Definition set_dirty (x : bool) (t : Txn) : Txn :=
  MkTxn (id t) (workspace t) x (isolation t) (base_version t).

Definition checked_add (z : Z) : option Z := if z + 1 <? 2 ^ 64 then Some (z + 1) else None.

Definition new_temp : result ManagerState :=
  db ← db_new_temp;
  Ok (MkManager db LockManager.default 1 0 None).

(** [new_on_disk] on a native target: the journal file has the contents [bytes];
    [outcome] is what happens to the first record if there is none. *)
Definition new_on_disk (locked : bool) (bytes : list Z) (outcome : Journal.io) :
    result ManagerState :=
  '(journal, snapshot) ← Journal.open locked bytes;
  match snapshot with
  | Some (version, bytes) =>
      db ← db_from_snapshot bytes;
      Ok (MkManager db LockManager.default 1 version (Some journal))
  | None =>
      db ← db_new_temp;
      let '(db, r) := db_snapshot_bytes db in
      bytes ← r;
      let '(journal, r) := Journal.append outcome 0 bytes journal in
      _ ← r;
      Ok (MkManager db LockManager.default 1 0 (Some journal))
  end.

Definition journal_usable (s : ManagerState) : result unit :=
  match journal s with Some j => Journal.ensure_usable j | None => Ok tt end.

Definition lock_shared (id : Z) : SR ManagerState bool := λ s,
  let '(l, b) := LockManager.shared id (locks s) in (set_locks l s, Ok b).

Definition lock_exclusive (id : Z) : SR ManagerState bool := λ s,
  let '(l, b) := LockManager.exclusive id (locks s) in (set_locks l s, Ok b).

Definition lock_release (id : Z) (s : ManagerState) : ManagerState :=
  set_locks (LockManager.release id (locks s)) s.

(** [state.database.snapshot_bytes().and_then(|bytes| Database::from_snapshot(&bytes))],
    its result handed on. *)
Definition take_snapshot : SR ManagerState (result DB) := λ s,
  let '(db, r) := db_snapshot_bytes (database s) in
  (set_database db s, Ok (bytes ← r; db_from_snapshot bytes)).

Definition begin_with_isolation (iso : IsolationLevel) : SR ManagerState Txn :=
  usable ← gets journal_usable;
  _ ← lift usable;
  id ← gets next_id;
  next ← lift (ok_or (checked_add id) (Transaction "Transaction IDs exhausted"));
  _ ← modify (set_next_id next);
  granted ← (if bool_decide (iso = Serializable) then lock_shared id else ret true);
  if negb granted then fail (Transaction "Database is locked by a writer")
  else
    snapshot ← take_snapshot;
    match snapshot with
    | Ok db =>
        v ← gets version;
        ret (MkTxn id (Some db) false iso v)
    | Err e => _ ← modify (lock_release id); fail e
    | Panic => lift Panic
    end.

Definition begin : SR ManagerState Txn := begin_with_isolation Serializable.

(** ** A transaction: it works on the manager's state and its own *)
Definition TX (A : Type) : Type := SR (ManagerState * Txn) A.

Definition on_manager {A} (m : SR ManagerState A) : TX A := λ '(s, t),
  let '(s', r) := m s in ((s', t), r).

Definition on_txn (f : Txn → Txn) : TX unit := modify (λ '(s, t), (s, f t)).
Definition txn {A} (f : Txn → A) : TX A := gets (λ '(_, t), f t).
Definition state {A} (f : ManagerState → A) : TX A := gets (λ '(s, _), f s).

(** A call on the workspace, which must be there. *)
Definition on_workspace {A} (m : SR DB A) : TX A := λ '(s, t),
  match workspace t with
  | Some db => let '(db', r) := m db in ((s, set_workspace (Some db') t), r)
  | None => ((s, t), Err (Transaction "Transaction is no longer active"))
  end.

Definition set_parallelism (workers : nat) : TX unit := on_workspace (db_set_parallelism workers).

Definition is_write (plan : plan_kind) : bool :=
  match plan with PInsert | PUpdate | PCreateTable | PCreateIndex => true | _ => false end.

(** [if write && !self.dirty { ... }]: a first write takes the exclusive lock. *)
Definition mark_write (plan : plan_kind) : TX unit :=
  is_dirty ← txn dirty;
  if is_write plan && negb is_dirty then
    iso ← txn isolation;
    self_id ← txn id;
    granted ← (if bool_decide (iso = Serializable) then on_manager (lock_exclusive self_id)
               else ret true);
    if negb granted then fail (Transaction "Lock upgrade conflict; transaction aborted")
    else on_txn (set_dirty true)
  else ret tt.

Definition run_active (sql : string) : TX (list Tuple.t) :=
  plan ← on_workspace (db_create_logical_plan sql);
  _ ← mark_write plan;
  on_workspace (db_run sql).

Definition abort : TX unit := λ '(s, t),
  match workspace t with
  | Some _ => ((lock_release (id t) s, set_workspace None t), Ok tt)
  | None => ((s, t), Ok tt)
  end.

(** [if result.is_err() { self.abort(); } result] *)
Definition run (sql : string) : TX (list Tuple.t) := λ st,
  match run_active sql st with
  | (st', Err e) => let '(st'', _) := abort st' in (st'', Err e)
  | r => r
  end.

(** The end of [commit] on an error: release the locks and return it. *)
Definition fail_released {A} (e : BustubxError) : TX A :=
  self_id ← txn id;
  _ ← on_manager (modify (lock_release self_id));
  fail e.

(** [database.snapshot_bytes().and_then(|bytes| journal.append(version, &bytes))] *)
Definition write_journal (outcome : Journal.io) (v : Z) (db : DB) : SR ManagerState (DB * result unit) :=
  λ s,
  match journal s with
  | None => (s, Ok (db, Ok tt))
  | Some j =>
      let '(db', r) := db_snapshot_bytes db in
      match r with
      | Ok bytes =>
          let '(j', r') := Journal.append outcome v bytes j in
          (set_journal (Some j') s, Ok (db', r'))
      | Err e => (s, Ok (db', Err e))
      | Panic => (s, Panic)
      end
  end.

Definition commit (outcome : Journal.io) : TX unit :=
  o ← txn workspace;
  _ ← on_txn (set_workspace None);
  match o with
  | None => fail (Transaction "Transaction is no longer active")
  | Some db =>
      self_id ← txn id;
      usable ← state journal_usable;
      match usable with
      | Err e => fail_released e
      | Panic => lift Panic
      | Ok _ =>
          is_dirty ← txn dirty;
          if negb is_dirty then on_manager (modify (lock_release self_id))
          else
            v ← state version;
            base ← txn base_version;
            granted ← (if v =? base then on_manager (lock_exclusive self_id) else ret false);
            if negb granted then fail_released (Transaction "Write conflict; transaction aborted")
            else
              match checked_add v with
              | None => fail_released (Transaction "Commit versions exhausted")
              | Some v' =>
                  '(db, written) ← on_manager (write_journal outcome v' db);
                  match written with
                  | Err e => fail_released e
                  | Panic => lift Panic
                  | Ok _ =>
                      _ ← on_manager (modify (set_database db));
                      _ ← on_manager (modify (set_version v'));
                      on_manager (modify (lock_release self_id))
                  end
              end
      end
  end.

End manager.
Arguments ManagerState DB : clear implicits.
Arguments Txn DB : clear implicits.

(** ** What the methods do *)
Module TransactionFacts.

Lemma shared_ok i (l : LockManager.t) :
  LockManager.shared i l =
  if LockManager.other_writer i l then (l, false)
  else (LockManager.Mk ({[i]} ∪ LockManager.readers l) (LockManager.writer l), true).
Proof. done. Qed.

(** Taking the exclusive lock and releasing is releasing. *)
Lemma exclusive_release i l l' :
  LockManager.exclusive i l = (l', true) → LockManager.release i l' = LockManager.release i l.
Proof.
  unfold LockManager.exclusive, LockManager.other_writer, LockManager.release.
  destruct l as [rs w]. simpl. destruct w as [w|]; simpl.
  - destruct (Z.eqb_spec w i) as [->|]; simpl; [|done].
    case_bool_decide; [done|]. intros [= <-]. done.
  - case_bool_decide; [done|]. intros [= <-]. simpl. by rewrite bool_decide_eq_true_2.
Qed.

Lemma exclusive_true i l l' :
  LockManager.exclusive i l = (l', true) →
  l' = LockManager.Mk (LockManager.readers l) (Some i) ∧
  LockManager.readers l ⊆ {[i]} ∧ (∀ w, LockManager.writer l = Some w → w = i).
Proof.
  unfold LockManager.exclusive, LockManager.other_writer.
  destruct (LockManager.writer l) as [w|]; simpl.
  - destruct (Z.eqb_spec w i) as [->|]; simpl; [|done].
    case_bool_decide as Hr; [done|]. intros [= <-]. split_and!; [done| |congruence].
    intros r Hin. destruct (decide (r = i)); [set_solver|]. destruct Hr. by exists r.
  - case_bool_decide as Hr; [done|]. intros [= <-]. split_and!; [done| |done].
    intros r Hin. destruct (decide (r = i)); [set_solver|]. destruct Hr. by exists r.
Qed.

Lemma exclusive_false i l l' : LockManager.exclusive i l = (l', false) → l' = l.
Proof.
  unfold LockManager.exclusive. destruct (LockManager.other_writer i l); [by intros [= <-]|].
  case_bool_decide; by intros [= <-].
Qed.

(** The exclusive lock is granted when nobody else holds a lock. *)
Lemma exclusive_granted i l :
  LockManager.readers l ⊆ {[i]} → (∀ w, LockManager.writer l = Some w → w = i) →
  LockManager.exclusive i l = (LockManager.Mk (LockManager.readers l) (Some i), true).
Proof.
  intros Hr Hw. unfold LockManager.exclusive, LockManager.other_writer.
  destruct (LockManager.writer l) as [w|].
  - rewrite (Hw w eq_refl), Z.eqb_refl. simpl.
    rewrite bool_decide_eq_false_2; [done|]. intros (r & Hin & Hne). set_solver.
  - rewrite bool_decide_eq_false_2; [done|]. intros (r & Hin & Hne). set_solver.
Qed.

Section facts.
Context {DB : Type} `{Database DB}.
Implicit Types (s : ManagerState DB) (t : Txn DB).

Definition active (t : Txn DB) : bool := match workspace t with Some _ => true | None => false end.

(** The fields of a transaction that never change. *)
Definition same_txn t t' : Prop :=
  id t' = id t ∧ isolation t' = isolation t ∧ base_version t' = base_version t.

(** [begin_with_isolation]: a transaction on the committed data, or an error. *)
Lemma begin_spec iso s :
  next_id s < 2 ^ 64 →
  match begin_with_isolation iso s with
  | (s', Ok t) =>
      ∃ db, t = MkTxn (next_id s) (Some db) false iso (version s) ∧
        copy (database s) db ∧ kept (database s) (database s') ∧ version s' = version s ∧
        journal s' = journal s ∧ next_id s' = next_id s + 1 ∧ next_id s' < 2 ^ 64 ∧
        locks s' = (if bool_decide (iso = Serializable)
                    then LockManager.Mk ({[next_id s]} ∪ LockManager.readers (locks s))
                           (LockManager.writer (locks s)) else locks s) ∧
        (iso = Serializable → LockManager.other_writer (next_id s) (locks s) = false)
  | (s', Err e) =>
      kept (database s) (database s') ∧ version s' = version s ∧ journal s' = journal s ∧
      next_id s ≤ next_id s' < 2 ^ 64 ∧
      (locks s' = locks s ∨ LockManager.other_writer (next_id s) (locks s) = false ∧
        locks s' = LockManager.release (next_id s)
          (LockManager.Mk ({[next_id s]} ∪ LockManager.readers (locks s))
             (LockManager.writer (locks s))) ∨
        locks s' = LockManager.release (next_id s) (locks s))
  | (_, Panic) => True
  end.
Proof.
  intros Hid. assert (kept (database s) (database s)) as Hrefl by done.
  unfold begin_with_isolation, gets, lift, modify, mbind, SR_bind, ret, fail.
  destruct (journal_usable s) as [[]|e|]; [|by split_and!; auto; lia|done].
  unfold checked_add. destruct (Z.ltb_spec (next_id s + 1) (2 ^ 64)) as [Hn|Hn]; simpl ok_or;
    [|split_and!; auto; lia].
  cbv zeta iota.
  assert (∃ l g, (if bool_decide (iso = Serializable) then lock_shared (next_id s)
       else λ s0 : ManagerState DB, (s0, Ok true)) (set_next_id (next_id s + 1) s)
     = (set_locks l (set_next_id (next_id s + 1) s), Ok g) ∧
     (g = false → l = locks s) ∧
     (g = true → l = (if bool_decide (iso = Serializable)
        then LockManager.Mk ({[next_id s]} ∪ LockManager.readers (locks s))
               (LockManager.writer (locks s)) else locks s) ∧
       (iso = Serializable → LockManager.other_writer (next_id s) (locks s) = false)))
    as (l & g & -> & Hgf & Hgt).
  { case_bool_decide as Hi.
    - unfold lock_shared. simpl. rewrite shared_ok.
      destruct (LockManager.other_writer (next_id s) (locks s)) eqn:Ho; by eexists _, _.
    - exists (locks s), true. split_and!; [by destruct s|done|by intros _]. }
  destruct g; simpl.
  2:{ rewrite Hgf by done. split_and!; auto; lia. }
  destruct (Hgt eq_refl) as [-> Ho]. unfold take_snapshot.
  simpl database. destruct (db_snapshot_bytes (database s)) as [db' r] eqn:Hsn.
  assert (kept (database s) db') as Hkept by (apply rtc_once; by exists r).
  destruct r as [bytes|e|]; simpl; [|
    split_and!; simpl; auto; try lia; case_bool_decide; eauto|done].
  destruct (db_from_snapshot bytes) as [db|e|] eqn:Hf; simpl; [|
    split_and!; simpl; auto; try lia; case_bool_decide; eauto|done].
  exists db. split_and!; simpl; auto; try lia. by exists db', bytes.
Qed.

Lemma abort_spec s t :
  abort (s, t) =
  ((if active t then lock_release (id t) s else s, if active t then set_workspace None t else t),
   Ok tt).
Proof. unfold abort, active. by destruct (workspace t). Qed.

(** The lock of a first write. *)
Lemma mark_write_spec plan s t :
  match mark_write plan (s, t) with
  | (st', Ok _) => ∃ l d, st' = (set_locks l s, set_dirty d t) ∧
      (l = locks s ∧ (d = dirty t ∨ isolation t = SnapshotIsolation) ∨
       isolation t = Serializable ∧ d = true ∧
       LockManager.exclusive (id t) (locks s) = (l, true))
  | (st', Err _) => st' = (s, t)
  | (_, Panic) => False
  end.
Proof.
  unfold mark_write, txn, gets, mbind, SR_bind, ret. simpl.
  destruct (is_write plan && negb (dirty t)).
  2:{ exists (locks s), (dirty t). split; [by destruct s, t|]. left. split; [done|]. by left. }
  case_bool_decide as Hi.
  - unfold on_manager, lock_exclusive.
    destruct (LockManager.exclusive (id t) (locks s)) as [l g] eqn:He. destruct g; simpl.
    + exists l, true. split; [done|]. by right.
    + apply exclusive_false in He as ->. by destruct s.
  - simpl. exists (locks s), true. split; [by destruct s|]. left. split; [done|]. right.
    by destruct (isolation t).
Qed.

(** [run] on an active transaction: the statement, in the workspace only. A first
    write of a serializable transaction takes the exclusive lock; after an error the
    transaction is over and its locks are released. *)
Lemma run_spec sql s t db :
  workspace t = Some db →
  match run sql (s, t) with
  | ((s', t'), Ok rows) =>
      ∃ db' l, s' = set_locks l s ∧ same_txn t t' ∧ workspace t' = Some db' ∧
        statement sql db = (db', Ok rows) ∧
        (l = locks s ∧ (dirty t' = dirty t ∨ isolation t = SnapshotIsolation) ∨
         isolation t = Serializable ∧ dirty t' = true ∧
         LockManager.exclusive (id t) (locks s) = (l, true))
  | ((s', t'), Err _) =>
      same_txn t t' ∧ workspace t' = None ∧
      s' = set_locks (LockManager.release (id t) (locks s)) s
  | (_, Panic) => True
  end.
Proof.
  intros Hw. unfold run, run_active.
  unfold mbind, SR_bind at 1. unfold on_workspace at 1. rewrite Hw.
  destruct (db_create_logical_plan sql db) as [db1 r] eqn:Hplan.
  destruct r as [plan|e|]; [|rewrite abort_spec; simpl; by split_and!|done].
  set (t1 := set_workspace (Some db1) t).
  unfold mbind, SR_bind. pose proof (mark_write_spec plan s t1) as Hm.
  destruct (mark_write plan (s, t1)) as [st1 [[]|e|]]; [| |done].
  2:{ subst st1. rewrite abort_spec. simpl. by split_and!. }
  destruct Hm as (l & d & -> & Hl). unfold on_workspace. simpl.
  destruct (db_run sql db1) as [db2 [rows|e|]] eqn:Hrun; [| |done].
  - exists db2, l. split_and!; try done. unfold statement, mbind, SR_bind. by rewrite Hplan.
  - rewrite abort_spec. simpl. split_and!; try done. unfold lock_release. simpl.
    destruct Hl as [[-> _]|(_ & _ & He)]; [done|]. simpl in He.
    by rewrite (exclusive_release _ _ _ He).
Qed.

(** [commit] on an active transaction. *)
Lemma commit_spec outcome s t db :
  workspace t = Some db →
  match commit outcome (s, t) with
  | ((s', t'), Ok _) =>
      t' = set_workspace None t ∧ journal_usable s = Ok tt ∧
      locks s' = LockManager.release (id t) (locks s) ∧ next_id s' = next_id s ∧
      (dirty t = false ∧ database s' = database s ∧ version s' = version s ∧
         journal s' = journal s ∨
       dirty t = true ∧ version s = base_version t ∧
         LockManager.readers (locks s) ⊆ {[id t]} ∧
         (∀ w, LockManager.writer (locks s) = Some w → w = id t) ∧
         version s' = version s + 1 ∧ version s' < 2 ^ 64 ∧
         match journal s with
         | None => journal s' = None ∧ database s' = db
         | Some j => ∃ bytes j', db_snapshot_bytes db = (database s', Ok bytes) ∧
             Journal.append outcome (version s + 1) bytes j = (j', Ok tt) ∧ journal s' = Some j'
         end)
  | ((s', t'), Err _) =>
      t' = set_workspace None t ∧ locks s' = LockManager.release (id t) (locks s) ∧
      next_id s' = next_id s ∧ database s' = database s ∧ version s' = version s ∧
      (journal s' = journal s ∨
       dirty t = true ∧ version s = base_version t ∧ version s + 1 < 2 ^ 64 ∧
       journal_usable s = Ok tt ∧
       ∃ j db' bytes j' e, journal s = Some j ∧ db_snapshot_bytes db = (db', Ok bytes) ∧
         Journal.append outcome (version s + 1) bytes j = (j', Err e) ∧ journal s' = Some j')
  | (_, Panic) => True
  end.
Proof.
  intros Hw. unfold commit, fail_released.
  unfold txn, state, gets, on_txn, modify, on_manager, ret, fail, lift, mbind, SR_bind. simpl.
  rewrite Hw. cbv zeta iota.
  destruct (journal_usable s) as [[]|e|] eqn:Hus; [|simpl; split_and!; auto|done].
  simpl. destruct (dirty t) eqn:Hd; simpl; [|split_and!; auto; left; by split_and!].
  destruct (Z.eqb_spec (version s) (base_version t)) as [Hv|Hv]; simpl;
    [|split_and!; auto].
  unfold lock_exclusive. destruct (LockManager.exclusive (id t) (locks s)) as [l g] eqn:He.
  destruct g; simpl.
  2:{ apply exclusive_false in He as ->. split_and!; auto. }
  pose proof (exclusive_release _ _ _ He) as Hrel.
  apply exclusive_true in He as (_ & Hrd & Hwr). unfold checked_add.
  destruct (Z.ltb_spec (version s + 1) (2 ^ 64)); simpl; [|split_and!; auto].
  unfold write_journal. simpl journal. destruct (journal s) as [j|] eqn:Hj; simpl.
  2:{ split_and!; auto. right. split_and!; auto. }
  destruct (db_snapshot_bytes db) as [db' r] eqn:Hsn.
  destruct r as [bytes|e|]; simpl; [|split_and!; auto|done].
  destruct (Journal.append outcome (version s + 1) bytes j) as [j' r'] eqn:Ha.
  destruct r' as [[]|e|]; simpl; [| |done].
  - split_and!; auto. right. split_and!; auto. by eexists _, _.
  - split_and!; auto. right. split_and!; auto. by eexists _, _, _, _, _.
Qed.

(** [set_parallelism] on an active transaction changes its workspace only. *)
Lemma set_parallelism_spec workers s t db :
  workspace t = Some db →
  set_parallelism workers (s, t) =
    ((s, set_workspace (Some (db_set_parallelism workers db).1) t), (db_set_parallelism workers db).2).
Proof.
  intros Hw. unfold set_parallelism, on_workspace. rewrite Hw.
  by destruct (db_set_parallelism workers db).
Qed.

(** A transaction that is over answers with an error and changes nothing. *)
Lemma inactive_spec s t sql outcome :
  workspace t = None →
  let e := Transaction "Transaction is no longer active" in
  run sql (s, t) = ((s, t), Err e) ∧ commit outcome (s, t) = ((s, t), Err e) ∧
  abort (s, t) = ((s, t), Ok tt) ∧
  ∀ workers, set_parallelism workers (s, t) = ((s, t), Err e).
Proof.
  intros Hw e. destruct t as [i w d iso b]. simpl in Hw. subst w. split_and!; done.
Qed.

End facts.
End TransactionFacts.

(** ** Histories of a manager

    The calls clients make, in the order the mutex gives them, and an account of them:
    what each transaction called and was answered, the databases the manager published,
    with the transactions that committed them, in commit order, and the transactions
    whose commit failed. *)
Module ManagerRun.

Inductive event :=
  | Begin (iso : IsolationLevel)
  | Run (txn_id : Z) (sql : string)
  | SetParallelism (txn_id : Z) (workers : nat)
  | Commit (txn_id : Z) (outcome : Journal.io)
  | Abort (txn_id : Z).

(** A call on a workspace with its answer. *)
Inductive call :=
  | Ran (sql : string) (rows : list Tuple.t)
  | Workers (workers : nat) (answer : result unit).

Notation log := (list call).

Section run.
Context {DB : Type} `{Database DB}.

Record config := Mk {
  manager : ManagerState DB;
  txns : gmap Z (Txn DB);
  logs : gmap Z log;
  published : list DB;
  commits : list (Z * log);
  failures : list log;
}.

Implicit Types (s : ManagerState DB) (t : Txn DB) (c : config) (db : DB).

Definition start (s : ManagerState DB) : config := Mk s ∅ ∅ [database s] [] [].

Definition log_of (c : config) (i : Z) : log := default [] (logs c !! i).

(** A panic ends the run: the mutex is poisoned. A call on an id that no [begin]
    returned is no call. *)
Definition exec (e : event) (c : config) : option config :=
  match e with
  | Begin iso =>
      match begin_with_isolation iso (manager c) with
      | (s, Ok t) => Some (Mk s (<[id t := t]> (txns c)) (<[id t := []]> (logs c))
                             (published c) (commits c) (failures c))
      | (s, Err _) => Some (Mk s (txns c) (logs c) (published c) (commits c) (failures c))
      | (_, Panic) => None
      end
  | Run i sql =>
      match txns c !! i with
      | None => Some c
      | Some t =>
          match run sql (manager c, t) with
          | ((s, t'), Ok rows) =>
              Some (Mk s (<[i := t']> (txns c)) (<[i := log_of c i ++ [Ran sql rows]]> (logs c))
                (published c) (commits c) (failures c))
          | ((s, t'), Err _) =>
              Some (Mk s (<[i := t']> (txns c)) (logs c) (published c) (commits c) (failures c))
          | (_, Panic) => None
          end
      end
  | SetParallelism i workers =>
      match txns c !! i with
      | None => Some c
      | Some t =>
          match set_parallelism workers (manager c, t) with
          | (_, Panic) => None
          | ((s, t'), r) =>
              Some (Mk s (<[i := t']> (txns c))
                (if TransactionFacts.active t then <[i := log_of c i ++ [Workers workers r]]> (logs c)
                 else logs c) (published c) (commits c) (failures c))
          end
      end
  | Commit i outcome =>
      match txns c !! i with
      | None => Some c
      | Some t =>
          match commit outcome (manager c, t) with
          | ((s, t'), Ok _) =>
              Some (Mk s (<[i := t']> (txns c)) (logs c)
                (if dirty t then published c ++ [database s] else published c)
                (if dirty t then commits c ++ [(i, log_of c i)] else commits c) (failures c))
          | ((s, t'), Err _) =>
              Some (Mk s (<[i := t']> (txns c)) (logs c) (published c) (commits c)
                (failures c ++ [log_of c i]))
          | (_, Panic) => None
          end
      end
  | Abort i =>
      match txns c !! i with
      | None => Some c
      | Some t =>
          let '((s, t'), _) := abort (manager c, t) in
          Some (Mk s (<[i := t']> (txns c)) (logs c) (published c) (commits c) (failures c))
      end
  end.

Inductive reachable (s0 : ManagerState DB) : config → Prop :=
  | reach_start : reachable s0 (start s0)
  | reach_exec c e c' : reachable s0 c → exec e c = Some c' → reachable s0 c'.

(** A list of calls. *)
Fixpoint exec_all (es : list event) (c : config) : option config :=
  match es with
  | [] => Some c
  | e :: es' => match exec e c with Some c' => exec_all es' c' | None => None end
  end.

Lemma exec_all_reachable s0 es c c' :
  reachable s0 c → exec_all es c = Some c' → reachable s0 c'.
Proof.
  revert c. induction es as [|e es IH]; intros c Hr; simpl; [by intros [= <-]|].
  destruct (exec e c) as [c1|] eqn:He; [|done]. apply IH. by eapply reach_exec.
Qed.

Lemma exec_all_default s0 es :
  reachable s0 (default (start s0) (exec_all es (start s0))).
Proof.
  destruct (exec_all es (start s0)) as [c|] eqn:E; [|apply reach_start].
  eapply exec_all_reachable; [apply reach_start|exact E].
Qed.

(** *** Serial executions *)

(** A call made on a database by nobody else. *)
Definition replay (x : call) db db' : Prop :=
  match x with
  | Ran sql rows => statement sql db = (db', Ok rows)
  | Workers workers r => db_set_parallelism workers db = (db', r)
  end.

(** The calls of a log, one after the other. *)
Fixpoint runs db (l : log) db' : Prop :=
  match l with
  | [] => db' = db
  | x :: l' => ∃ db1, replay x db db1 ∧ runs db1 l' db'
  end.

(** The workspace of a transaction that starts on [db] and makes the calls of [l], when
    [db] is saved, perhaps, but not changed in between. *)
Definition alone db (l : log) w : Prop :=
  ∃ db1 w0, kept db db1 ∧ copy db1 w0 ∧ runs w0 l w.

(** What such a transaction publishes: its workspace, which a journal saves first. *)
Definition publishes db (l : log) db' : Prop :=
  ∃ w, alone db l w ∧ (db' = w ∨ saves w db').

(** The transactions [cs], one after the other: each starts on the database that the
    one before it published. *)
Inductive serial : list DB → list (Z * log) → Prop :=
  | serial_start db : serial [db] []
  | serial_commit dbs cs db i l db' :
      serial dbs cs → last dbs = Some db → publishes db l db' →
      serial (dbs ++ [db']) (cs ++ [(i, l)]).

Lemma runs_snoc db l x w w' : runs db l w → replay x w w' → runs db (l ++ [x]) w'.
Proof.
  revert db. induction l as [|y l IH]; intros db; simpl.
  - intros ->. by exists w'.
  - intros (db1 & Hy & Hl) Hx. exists db1. split; [done|by apply IH].
Qed.

Lemma alone_snoc db l x w w' : alone db l w → replay x w w' → alone db (l ++ [x]) w'.
Proof.
  intros (db1 & w0 & ? & ? & Hr) Hx. exists db1, w0. split_and!; [done..|by eapply runs_snoc].
Qed.

Lemma serial_length dbs cs : serial dbs cs → length dbs = S (length cs).
Proof. induction 1; [done|]. rewrite !length_app. simpl. lia. Qed.

Lemma last_lookup_length {A} (l : list A) n x :
  length l = S n → last l = Some x → l !! n = Some x.
Proof. intros Hn. rewrite last_lookup, Hn. done. Qed.

(** *** The invariant of the locks *)
Definition serializable (t : Txn DB) : Prop :=
  TransactionFacts.active t = true ∧ isolation t = Serializable.

Record locks_ok (l : LockManager.t) (v : Z) (ts : gmap Z (Txn DB)) : Prop := LocksOk {
  locks_readers : ∀ i, i ∈ LockManager.readers l ↔ ∃ t, ts !! i = Some t ∧ serializable t;
  locks_writer : ∀ i, LockManager.writer l = Some i ↔
    ∃ t, ts !! i = Some t ∧ serializable t ∧ dirty t = true;
  locks_alone : ∀ w, LockManager.writer l = Some w → LockManager.readers l ⊆ {[w]};
  locks_base : ∀ i t, ts !! i = Some t → serializable t → base_version t = v;
}.

(** Transaction [i] is over and its locks are released. *)
Lemma locks_release l v ts i t' :
  locks_ok l v ts → TransactionFacts.active t' = false →
  locks_ok (LockManager.release i l) v (<[i := t']> ts).
Proof.
  intros [Hr Hw Ha Hb] Ht'.
  assert (∀ j t, <[i := t']> ts !! j = Some t ∧ serializable t ↔
    j ≠ i ∧ ts !! j = Some t ∧ serializable t) as Hts.
  { intros j t. rewrite lookup_insert_Some. unfold serializable. split.
    - intros ([(-> & ->)|(? & ?)] & Hs & ?); [congruence|done].
    - intros (? & ? & ?). split; [right|]; done. }
  split; simpl.
  - intros j. rewrite elem_of_difference, Hr, elem_of_singleton. setoid_rewrite Hts. naive_solver.
  - intros j. transitivity (j ≠ i ∧ LockManager.writer l = Some j).
    { case_bool_decide as Hc; rewrite ?Hc; [split; [done|]; intros [? [= ->]]; done|].
      split; [|by intros []]. intros E. split; [|done]. by intros ->. }
    rewrite Hw. setoid_rewrite (assoc (∧)). setoid_rewrite Hts. naive_solver.
  - intros w. case_bool_decide as Hc; [done|]. intros E. specialize (Ha w E). set_solver.
  - intros j t Hj Hs. destruct (proj1 (Hts j t) (conj Hj Hs)) as (_ & ? & ?). by eapply Hb.
Qed.

(** A transaction changes, but not its locks. *)
Lemma locks_update l v ts i t t' :
  locks_ok l v ts → ts !! i = Some t → TransactionFacts.same_txn t t' →
  TransactionFacts.active t' = TransactionFacts.active t →
  dirty t' = dirty t ∨ isolation t = SnapshotIsolation →
  locks_ok l v (<[i := t']> ts).
Proof.
  intros [Hr Hw Ha Hb] Hi (_ & Hiso & Hbase) Hact Hd.
  assert (serializable t' ↔ serializable t) as Hser
    by (unfold serializable; by rewrite Hact, Hiso).
  split; [..|done|].
  - intros j. rewrite Hr. destruct (decide (j = i)) as [->|Hne].
    + rewrite lookup_insert_eq, Hi. naive_solver.
    + by rewrite lookup_insert_ne.
  - intros j. rewrite Hw. destruct (decide (j = i)) as [->|Hne].
    + rewrite lookup_insert_eq, Hi. unfold serializable in *.
      split; intros (? & [= <-] & Hs & ?); eexists; (split; [done|]).
      * destruct Hd as [->|Hd]; [by rewrite Hser|]. destruct Hs. congruence.
      * destruct Hd as [<-|Hd]; [by rewrite <- Hser|]. apply Hser in Hs as []. congruence.
    + by rewrite lookup_insert_ne.
  - intros j u Hj Hs. destruct (decide (j = i)) as [->|Hne].
    + rewrite lookup_insert_eq in Hj. simplify_eq. rewrite Hbase. apply (Hb i); [done|by apply Hser].
    + rewrite lookup_insert_ne in Hj by done. by eapply Hb.
Qed.

(** A serializable transaction takes the exclusive lock. *)
Lemma locks_upgrade l l' v ts i t t' :
  locks_ok l v ts → ts !! i = Some t → TransactionFacts.same_txn t t' → serializable t →
  TransactionFacts.active t' = true → dirty t' = true →
  LockManager.exclusive i l = (l', true) → locks_ok l' v (<[i := t']> ts).
Proof.
  intros [Hr Hw Ha Hb] Hi (_ & Hiso & Hbase) Hser Hact Hd He.
  apply TransactionFacts.exclusive_true in He as (-> & Hrs & Hws).
  assert (serializable t') as Hser' by (destruct Hser; split; [done|congruence]).
  assert (∀ j u, j ≠ i → ts !! j = Some u → serializable u → False) as Honly.
  { intros j u Hne Hj Hu. apply Hne. assert (j ∈ LockManager.readers l) as Hin by (apply Hr; eauto).
    apply Hrs in Hin. set_solver. }
  split; simpl.
  - intros j. rewrite Hr. destruct (decide (j = i)) as [->|Hne].
    + rewrite lookup_insert_eq, Hi. naive_solver.
    + by rewrite lookup_insert_ne.
  - intros j. destruct (decide (j = i)) as [->|Hne].
    + rewrite lookup_insert_eq. split; [intros _; by exists t'|done].
    + rewrite lookup_insert_ne by done. split; [congruence|].
      intros (u & Hj & Hu & _). exfalso. by eapply Honly.
  - by intros w [= <-].
  - intros j u Hj Hs. destruct (decide (j = i)) as [->|Hne].
    + rewrite lookup_insert_eq in Hj. simplify_eq. rewrite Hbase. by apply (Hb i).
    + rewrite lookup_insert_ne in Hj by done. by eapply Hb.
Qed.

(** A new transaction. *)
Lemma locks_begin l v ts t :
  locks_ok l v ts → ts !! id t = None → TransactionFacts.active t = true → dirty t = false →
  base_version t = v →
  (isolation t = Serializable → LockManager.other_writer (id t) l = false) →
  locks_ok (if bool_decide (isolation t = Serializable)
            then LockManager.Mk ({[id t]} ∪ LockManager.readers l) (LockManager.writer l) else l) v
    (<[id t := t]> ts).
Proof.
  intros [Hr Hw Ha Hb] Hi Hact Hd Hbase Ho.
  assert (∀ j u, j ≠ id t → <[id t := t]> ts !! j = Some u ↔ ts !! j = Some u) as Hne
    by (intros; by rewrite lookup_insert_ne).
  assert (LockManager.writer (if bool_decide (isolation t = Serializable)
            then LockManager.Mk ({[id t]} ∪ LockManager.readers l) (LockManager.writer l) else l)
          = LockManager.writer l) as Hwr by (by case_bool_decide).
  split.
  - intros j. destruct (decide (j = id t)) as [->|Hj].
    + rewrite lookup_insert_eq. case_bool_decide as Hs; simpl.
      * split; [intros _; by exists t|set_solver].
      * rewrite Hr, Hi. split; [by intros (? & ? & _)|]. intros (? & [= <-] & _ & ?). done.
    + setoid_rewrite Hne; [|done]. rewrite <- Hr. case_bool_decide; set_solver.
  - intros j. rewrite Hwr. destruct (decide (j = id t)) as [->|Hj].
    + rewrite lookup_insert_eq, Hw, Hi. split; [by intros (? & ? & _)|].
      intros (? & [= <-] & _ & ?). congruence.
    + setoid_rewrite Hne; [|done]. apply Hw.
  - intros w. rewrite Hwr. intros Hw'. case_bool_decide as Hs; simpl; [|by apply Ha].
    specialize (Ho Hs). unfold LockManager.other_writer in Ho. rewrite Hw' in Ho.
    apply negb_false_iff, Z.eqb_eq in Ho as ->.
    apply Hw in Hw' as (u & Hu & _). congruence.
  - intros j u Hj Hs. destruct (decide (j = id t)) as [->|Hj'].
    + rewrite lookup_insert_eq in Hj. by simplify_eq.
    + rewrite Hne in Hj by done. by eapply Hb.
Qed.

(** Giving the locks of an id that has none changes nothing. *)
Lemma locks_release_none l v ts i :
  locks_ok l v ts → ts !! i = None → LockManager.release i l = l.
Proof.
  intros Hl Hi. destruct l as [rs w]. unfold LockManager.release. simpl. f_equal.
  - enough (i ∉ rs) by set_solver. intros Hin.
    apply (locks_readers _ _ _ Hl) in Hin as (? & ? & _). congruence.
  - case_bool_decide as Hc; [|done]. subst w.
    destruct (proj1 (locks_writer _ _ _ Hl i) eq_refl) as (? & ? & _). congruence.
Qed.

(** *** The invariant of a run *)

(** An active transaction works on a copy of the database of its base version, changed
    by its own calls only. *)
Definition txn_ok (v0 : Z) (dbs : list DB) (lg : log) (t : Txn DB) : Prop :=
  ∀ w, workspace t = Some w →
    v0 ≤ base_version t < v0 + Z.of_nat (length dbs) ∧
    ∃ db, dbs !! Z.to_nat (base_version t - v0) = Some db ∧ alone db lg w.

(** The database of the manager is the one published last. *)
Definition current (dbs : list DB) (db' : DB) : Prop := ∃ db, last dbs = Some db ∧ kept db db'.

Lemma current_kept dbs db db' : current dbs db → kept db db' → current dbs db'.
Proof. intros (d & Hd & Hk) Hk'. exists d. split; [done|by etrans]. Qed.

Record run_ok (v0 : Z) (db0 : DB) (c : config) : Prop := RunOk {
  run_next : next_id (manager c) < 2 ^ 64;
  run_locks : locks_ok (locks (manager c)) (version (manager c)) (txns c);
  run_version : version (manager c) = v0 + Z.of_nat (length (commits c));
  run_serial : serial (published c) (commits c);
  run_first : published c !! 0%nat = Some db0;
  run_last : current (published c) (database (manager c));
  run_txns : ∀ i t, txns c !! i = Some t →
    id t = i ∧ i < next_id (manager c) ∧ txn_ok v0 (published c) (log_of c i) t;
}.

(** The database published last is the one of the current version. *)
Lemma run_published v0 db0 c : run_ok v0 db0 c →
  Z.of_nat (length (published c)) = version (manager c) - v0 + 1.
Proof. intros Hok. rewrite (serial_length _ _ (run_serial _ _ _ Hok)), (run_version _ _ _ Hok). lia. Qed.

Lemma run_base v0 db0 c db : run_ok v0 db0 c → last (published c) = Some db →
  published c !! Z.to_nat (version (manager c) - v0) = Some db.
Proof.
  intros Hok. apply last_lookup_length. pose proof (run_published _ _ _ Hok).
  rewrite (serial_length _ _ (run_serial _ _ _ Hok)) in *. lia.
Qed.

Lemma start_ok s :
  next_id s < 2 ^ 64 → locks s = LockManager.default →
  run_ok (version s) (database s) (start s).
Proof.
  intros Hn Hl. split; simpl; [done| |lia|apply serial_start|done|by exists (database s)|].
  - rewrite Hl. split; simpl.
    + intros i. split; [set_solver|]. intros (t & Ht & _). by rewrite lookup_empty in Ht.
    + intros i. split; [done|]. intros (t & Ht & _). by rewrite lookup_empty in Ht.
    + done.
    + intros i t Ht. by rewrite lookup_empty in Ht.
  - intros i t Ht. by rewrite lookup_empty in Ht.
Qed.

(** A step of transaction [i] that commits nothing. *)
Lemma run_ok_txn v0 db0 c s' i t t' logs' fs :
  run_ok v0 db0 c → txns c !! i = Some t → TransactionFacts.same_txn t t' →
  version s' = version (manager c) → next_id s' = next_id (manager c) →
  database s' = database (manager c) →
  locks_ok (locks s') (version s') (<[i := t']> (txns c)) →
  (∀ j, j ≠ i → logs' !! j = logs c !! j) →
  txn_ok v0 (published c) (default [] (logs' !! i)) t' →
  run_ok v0 db0 (Mk s' (<[i := t']> (txns c)) logs' (published c) (commits c) fs).
Proof.
  intros Hok Hi (Hid & _ & _) Hv Hn Hc Hl Hlogs Ht'. destruct Hok as [H1 H2 H3 H4 H5 H6 H7].
  split; simpl; [by rewrite Hn|done|by rewrite Hv|done|done|by rewrite Hc|].
  intros j u Hj. rewrite Hn. destruct (decide (j = i)) as [->|Hne].
  - rewrite lookup_insert_eq in Hj. injection Hj as <-. rewrite Hid.
    destruct (H7 i t Hi) as (? & ? & _). by split_and!.
  - rewrite lookup_insert_ne in Hj by done. destruct (H7 j u Hj) as (? & ? & Hu).
    split_and!; [done..|]. unfold log_of in *. simpl. by rewrite Hlogs.
Qed.

Lemma txn_ok_over v0 dbs lg t : txn_ok v0 dbs lg (set_workspace None t).
Proof. by intros db. Qed.

Lemma set_workspace_None t : workspace t = None → set_workspace None t = t.
Proof. destruct t. simpl. by intros ->. Qed.

Lemma active_None t : TransactionFacts.active t = false ↔ workspace t = None.
Proof. unfold TransactionFacts.active. by destruct (workspace t). Qed.

(** The transaction ends without a commit of writes. *)
Lemma run_ok_over v0 db0 c s' i t t' fs :
  run_ok v0 db0 c → txns c !! i = Some t → TransactionFacts.same_txn t t' → workspace t' = None →
  version s' = version (manager c) → next_id s' = next_id (manager c) →
  database s' = database (manager c) →
  locks s' = LockManager.release i (locks (manager c)) →
  run_ok v0 db0 (Mk s' (<[i := t']> (txns c)) (logs c) (published c) (commits c) fs).
Proof.
  intros Hok Hi Hsame Hw Hv Hn Hc Hl. eapply run_ok_txn; try done.
  - rewrite Hl, Hv. apply locks_release; [apply Hok|]. by apply active_None.
  - intros db. by rewrite Hw.
Qed.

Lemma exec_begin_ok v0 db0 c c' iso :
  run_ok v0 db0 c → exec (Begin iso) c = Some c' → run_ok v0 db0 c'.
Proof.
  intros Hok. pose proof Hok as [H1 H2 H3 H4 H5 H6 H7]. simpl.
  pose proof (TransactionFacts.begin_spec iso (manager c) H1) as Hb.
  assert (txns c !! next_id (manager c) = None) as Hfresh.
  { destruct (txns c !! next_id (manager c)) as [u|] eqn:Hu; [|done].
    destruct (H7 _ _ Hu) as (_ & ? & _). lia. }
  destruct (begin_with_isolation iso (manager c)) as [s' [t|e|]]; [| |done]; intros [= <-].
  - destruct Hb as (w & -> & Hcopy & Hc & Hv & Hj & Hn & Hn' & Hl & Ho). simpl id.
    split; simpl; [done| |by rewrite Hv|done|done|by eapply current_kept|].
    + rewrite Hl, Hv.
      apply (locks_begin _ _ _ (MkTxn (next_id (manager c)) (Some w) false iso (version (manager c))));
        done.
    + intros j u Hju. destruct (decide (j = next_id (manager c))) as [->|Hne].
      * rewrite lookup_insert_eq in Hju. injection Hju as <-. simpl. split_and!; [done|lia|].
        intros w' [= <-]. simpl. pose proof (run_published _ _ _ Hok). split; [lia|].
        destruct H6 as (db & Hdb & Hk). exists db. split; [by eapply run_base|].
        unfold log_of. simpl. rewrite lookup_insert_eq. by exists (database (manager c)), w.
      * rewrite lookup_insert_ne in Hju by done. destruct (H7 j u Hju) as (? & ? & Hu).
        split_and!; [done|lia|]. unfold log_of in *. simpl. by rewrite lookup_insert_ne.
  - destruct Hb as (Hc & Hv & Hj & Hn & Hl).
    split; simpl; [lia| |by rewrite Hv|done|done|by eapply current_kept|].
    + rewrite Hv. destruct Hl as [->|[[Ho ->]| ->]]; [done| |].
      * destruct (locks (manager c)) as [rs w] eqn:Hlk. unfold LockManager.release. simpl.
        pose proof (locks_release_none _ _ _ _ H2 Hfresh) as Hrel.
        unfold LockManager.release in Hrel. simpl in Hrel. injection Hrel as Hr1 Hr2.
        rewrite Hr2. replace (({[next_id (manager c)]} ∪ rs) ∖ {[next_id (manager c)]}) with rs; [done|].
        rewrite <- Hr1 at 1. set_solver.
      * by rewrite (locks_release_none _ _ _ _ H2 Hfresh).
    + intros j u Hju. destruct (H7 j u Hju) as (? & ? & Hu). split_and!; [done|lia|done].
Qed.

(** A call on its workspace adds to the log of a transaction. *)
Lemma txn_ok_call v0 dbs c i t t' w w' x :
  txn_ok v0 dbs (log_of c i) t → workspace t = Some w → workspace t' = Some w' →
  base_version t' = base_version t → replay x w w' →
  txn_ok v0 dbs (default [] (<[i := log_of c i ++ [x]]> (logs c) !! i)) t'.
Proof.
  intros Ht Hw Hw' Hb Hx. rewrite lookup_insert_eq. simpl. intros w2 Hw2.
  rewrite Hw' in Hw2. injection Hw2 as <-. destruct (Ht w Hw) as (? & db & ? & ?).
  rewrite Hb. split; [done|]. exists db. split; [done|]. by eapply alone_snoc.
Qed.

Lemma exec_run_ok v0 db0 c c' i sql :
  run_ok v0 db0 c → exec (Run i sql) c = Some c' → run_ok v0 db0 c'.
Proof.
  intros Hok. simpl. destruct (txns c !! i) as [t|] eqn:Hi; [|by intros [= <-]].
  pose proof (run_txns _ _ _ Hok i t Hi) as (Hid & _ & Htok).
  destruct (workspace t) as [db|] eqn:Hw.
  2:{ destruct (TransactionFacts.inactive_spec (manager c) t sql Journal.Written Hw) as (-> & _).
      intros [= <-]. rewrite insert_id by done. by destruct Hok, c. }
  pose proof (TransactionFacts.run_spec sql (manager c) t db Hw) as Hr.
  destruct (run sql (manager c, t)) as [[s' t'] [rows|e|]]; [| |done]; intros [= <-].
  - destruct Hr as (db' & l & -> & Hsame & Hw' & Hex & Hl).
    assert (TransactionFacts.active t' = TransactionFacts.active t) as Hact
      by (unfold TransactionFacts.active; by rewrite Hw, Hw').
    eapply run_ok_txn; try done.
    + simpl. destruct Hl as [[-> Hd]|(Hiso & Hd & He)].
      * eapply locks_update; [apply Hok|done..].
      * rewrite Hid in He.
        assert (serializable t) as Hs by (split; [unfold TransactionFacts.active; by rewrite Hw|done]).
        eapply locks_upgrade; [apply Hok|done|done|done| |done|done].
        unfold TransactionFacts.active. by rewrite Hw'.
    + intros j Hne. by rewrite lookup_insert_ne.
    + destruct Hsame as (_ & _ & Hb). by eapply txn_ok_call.
  - destruct Hr as (Hsame & Hw' & ->).
    eapply run_ok_over; try done. simpl. by rewrite Hid.
Qed.

Lemma exec_set_parallelism_ok v0 db0 c c' i workers :
  run_ok v0 db0 c → exec (SetParallelism i workers) c = Some c' → run_ok v0 db0 c'.
Proof.
  intros Hok. cbn [exec]. destruct (txns c !! i) as [t|] eqn:Hi; [|by intros [= <-]].
  pose proof (run_txns _ _ _ Hok i t Hi) as (Hid & _ & Htok).
  unfold TransactionFacts.active. destruct (workspace t) as [w|] eqn:Hw.
  2:{ destruct (TransactionFacts.inactive_spec (manager c) t "" Journal.Written Hw) as (_ & _ & _ & ->).
      intros [= <-]. rewrite insert_id by done. by destruct Hok, c. }
  rewrite (TransactionFacts.set_parallelism_spec _ _ _ w Hw).
  intros He. assert (c' = Mk (manager c)
    (<[i := set_workspace (Some (db_set_parallelism workers w).1) t]> (txns c))
    (<[i := log_of c i ++ [Workers workers (db_set_parallelism workers w).2]]> (logs c))
    (published c) (commits c) (failures c)) as ->
    by (destruct (db_set_parallelism workers w) as [w' [[]|e|]]; [by injection He as <-..|done]).
  eapply run_ok_txn; try done.
  - eapply locks_update; [apply Hok|done|done| |by left].
    unfold TransactionFacts.active. by rewrite Hw.
  - intros j Hne. by rewrite lookup_insert_ne.
  - eapply txn_ok_call; [done|done|done|done|]. simpl. by destruct (db_set_parallelism workers w).
Qed.

Lemma exec_abort_ok v0 db0 c c' i :
  run_ok v0 db0 c → exec (Abort i) c = Some c' → run_ok v0 db0 c'.
Proof.
  intros Hok. cbn [exec]. destruct (txns c !! i) as [t|] eqn:Hi; [|by intros [= <-]].
  pose proof (run_txns _ _ _ Hok i t Hi) as (Hid & _ & _).
  rewrite TransactionFacts.abort_spec. intros [= <-].
  destruct (TransactionFacts.active t) eqn:Ha.
  - eapply run_ok_over; try done. simpl. by rewrite Hid.
  - rewrite insert_id by done. by destruct Hok, c.
Qed.

(** Transaction [i] publishes its writes. *)
Lemma run_ok_commit v0 db0 c s' i t w :
  run_ok v0 db0 c → txns c !! i = Some t → workspace t = Some w →
  version (manager c) = base_version t → LockManager.readers (locks (manager c)) ⊆ {[i]} →
  locks s' = LockManager.release i (locks (manager c)) → next_id s' = next_id (manager c) →
  version s' = version (manager c) + 1 → (database s' = w ∨ saves w (database s')) →
  run_ok v0 db0 (Mk s' (<[i := set_workspace None t]> (txns c)) (logs c)
    (published c ++ [database s']) (commits c ++ [(i, log_of c i)]) (failures c)).
Proof.
  intros Hok Hi Hw Hv Hrs Hl Hn Hv' Hpub. pose proof (run_published _ _ _ Hok) as Hlen.
  pose proof Hok as [H1 H2 H3 H4 H5 H6 H7]. destruct (H7 i t Hi) as (Hid & Hlt & Htok).
  destruct (Htok w Hw) as (_ & db & Hdb & Halone). destruct H6 as (d & Hd & _).
  rewrite <- Hv in Hdb. rewrite (run_base _ _ _ d Hok Hd) in Hdb. injection Hdb as <-.
  split; simpl; [by rewrite Hn| |rewrite length_app; simpl; lia| | | |].
  - rewrite Hl. pose proof (locks_release _ _ _ i (set_workspace None t) H2 eq_refl) as Hrel.
    destruct Hrel as [R1 R2 R3 R4]. split; [done..|]. intros j u Hj Hu. exfalso.
    assert (j ∈ LockManager.readers (LockManager.release i (locks (manager c)))) as Hin
      by (apply R1; eauto).
    simpl in Hin. set_solver.
  - eapply serial_commit; [done..|]. by exists w.
  - by apply lookup_app_l_Some.
  - exists (database s'). by rewrite last_snoc.
  - intros j u Hj. rewrite Hn. destruct (decide (j = i)) as [->|Hne].
    + rewrite lookup_insert_eq in Hj. injection Hj as <-. split_and!; [done..|]. apply txn_ok_over.
    + rewrite lookup_insert_ne in Hj by done. destruct (H7 j u Hj) as (? & ? & Hu).
      split_and!; [done..|]. intros w' Hw'. destruct (Hu w' Hw') as (Hb' & db' & Hdb' & Hal').
      rewrite length_app. simpl. split; [lia|]. exists db'. split; [by apply lookup_app_l_Some|done].
Qed.

Lemma exec_commit_ok v0 db0 c c' i outcome :
  run_ok v0 db0 c → exec (Commit i outcome) c = Some c' → run_ok v0 db0 c'.
Proof.
  intros Hok. simpl. destruct (txns c !! i) as [t|] eqn:Hi; [|by intros [= <-]].
  pose proof (run_txns _ _ _ Hok i t Hi) as (Hid & Hlt & Htok).
  destruct (workspace t) as [db|] eqn:Hw.
  2:{ destruct (TransactionFacts.inactive_spec (manager c) t "" outcome Hw) as (_ & -> & _).
      intros [= <-]. rewrite insert_id by done. by destruct Hok, c. }
  pose proof (TransactionFacts.commit_spec outcome (manager c) t db Hw) as Hr.
  destruct (commit outcome (manager c, t)) as [[s' t'] [[]|e|]]; [| |done]; intros [= <-].
  - destruct Hr as (-> & _ & Hl & Hn & [(Hd & Hc & Hv & _)
      |(Hd & Hv & Hrs & Hws & Hv' & Hmax & Hpub)]); rewrite Hd.
    + eapply run_ok_over; try done. by rewrite <- Hid.
    + eapply run_ok_commit; try done; [by rewrite Hid in Hrs|by rewrite Hl, Hid|].
      destruct (journal (manager c)) as [j|]; [|left; by destruct Hpub].
      destruct Hpub as (bytes & j' & Hsn & _). right. by exists (Ok bytes).
  - destruct Hr as (-> & Hl & Hn & Hc & Hv & _).
    eapply run_ok_over; try done. by rewrite <- Hid.
Qed.

Lemma run_reachable_ok s0 c :
  next_id s0 < 2 ^ 64 → locks s0 = LockManager.default → reachable s0 c →
  run_ok (version s0) (database s0) c.
Proof.
  intros Hn Hl Hr. induction Hr as [|c e c' _ IH He]; [by apply start_ok|].
  destruct e; [by eapply exec_begin_ok|by eapply exec_run_ok|by eapply exec_set_parallelism_ok
    |by eapply exec_commit_ok|by eapply exec_abort_ok].
Qed.

(** *** Durability *)

(** The bytes that a commit saves are bytes, fewer than [2 ^ 64] (a [Vec<u8>]). *)
Definition saved_u8 (db : DB) : bool :=
  match (db_snapshot_bytes db).2 with Ok bytes => JournalFacts.payload_okb bytes | _ => true end.

Definition commits_u8 (e : event) (c : config) : bool :=
  match e with
  | Commit i _ =>
      match txns c !! i with
      | Some t => match workspace t with Some w => saved_u8 w | None => true end
      | None => true
      end
  | _ => true
  end.

(** The states that calls reach whose commits save such bytes. *)
Inductive reachable_u8 (s0 : ManagerState DB) : config → Prop :=
  | reach_u8_start : reachable_u8 s0 (start s0)
  | reach_u8_exec c e c' :
      reachable_u8 s0 c → commits_u8 e c = true → exec e c = Some c' → reachable_u8 s0 c'.

Lemma reachable_u8_reachable s0 c : reachable_u8 s0 c → reachable s0 c.
Proof. induction 1; [apply reach_start|by eapply reach_exec]. Qed.

Fixpoint all_u8 (es : list event) (c : config) : bool :=
  match es with
  | [] => true
  | e :: es' =>
      commits_u8 e c && match exec e c with Some c' => all_u8 es' c' | None => false end
  end.

Lemma all_u8_reachable s0 es c :
  reachable_u8 s0 c → all_u8 es c = true → reachable_u8 s0 (default c (exec_all es c)).
Proof.
  revert c. induction es as [|e es IH]; intros c Hr; simpl; [done|].
  intros [He Hes]%andb_true_iff. destruct (exec e c) as [c1|] eqn:Hx; [|done].
  assert (reachable_u8 s0 c1) as Hr1 by (by eapply reach_u8_exec).
  specialize (IH c1 Hr1 Hes). by destruct (exec_all es c1).
Qed.

(** The bytes [p] were saved when [db] was published, or [db] was opened from them. *)
Definition image (p : list Z) (db : DB) : Prop :=
  db_from_snapshot p = Ok db ∨ ∃ w, db_snapshot_bytes w = (db, Ok p).

(** The journal file recovers the database [d] published last, of version [v]; after a
    failed write, that or the workspace whose write failed. *)
Inductive durable (v : Z) (d : DB) (failed_logs : list log) (j : Journal.t) : Prop :=
  | durable_ok ps p :
      Journal.failed j = false → Journal.file j = JournalFacts.history (ps ++ [p]) →
      Forall JournalFacts.payload_ok (ps ++ [p]) → v = Z.of_nat (length ps) →
      v < 2 ^ 64 → image p d → durable v d failed_logs j
  | durable_failed j' v' p :
      Journal.failed j = true → Journal.open false (Journal.file j) = Ok (j', Some (v', p)) →
      (v' = v ∧ image p d ∨
       v' = v + 1 ∧ ∃ lg w w', lg ∈ failed_logs ∧ alone d lg w ∧ db_snapshot_bytes w = (w', Ok p)) →
      durable v d failed_logs j.

Definition on_disk (c : config) : Prop :=
  ∃ j d, journal (manager c) = Some j ∧ last (published c) = Some d ∧
    durable (version (manager c)) d (failures c) j.

Lemma saved_u8_ok db db' bytes :
  saved_u8 db = true → db_snapshot_bytes db = (db', Ok bytes) → JournalFacts.payload_ok bytes.
Proof. unfold saved_u8. intros Hu Hs. rewrite Hs in Hu. by apply JournalFacts.payload_okb_ok. Qed.

(** The first database of a new file. *)
Definition first_u8 : bool := match db_new_temp with Ok db => saved_u8 db | _ => true end.

Lemma new_on_disk_durable locked bytes outcome s :
  Forall byte_ok bytes → Z.of_nat (length bytes) < 2 ^ 64 → first_u8 = true →
  new_on_disk locked bytes outcome = Ok s →
  next_id s = 1 ∧ locks s = LockManager.default ∧ on_disk (start s).
Proof.
  intros Hb Hlen Hfirst. unfold new_on_disk.
  pose proof (JournalFacts.open_spec locked bytes Hb) as Ho.
  destruct (Journal.open locked bytes) as [[j r]|e|]; simpl; [|done..].
  destruct Ho as (ps & tail & -> & Hbytes & Hf & Hn & -> & Hps & Hnil).
  destruct ps as [|p ps _] using rev_ind.
  - simpl. unfold first_u8 in Hfirst. destruct db_new_temp as [db|e|]; simpl; [|done..].
    destruct (db_snapshot_bytes db) as [db' [b|e|]] eqn:Hs; simpl; [|done..].
    destruct outcome as [|n].
    2:{ unfold Journal.append, Journal.ensure_usable. by rewrite Hn. }
    pose proof (JournalFacts.append_written j [] b Hf Hn) as Ha.
    change (Z.of_nat (length [])) with 0 in Ha. rewrite Ha. intros [= <-].
    split_and!; [done..|]. eexists _, _. split_and!; [reflexivity..|].
    apply (durable_ok _ _ _ _ [] b); try done.
    + simpl. constructor; [by eapply saved_u8_ok|done].
    + right. by exists db.
  - rewrite JournalFacts.latest_snoc. destruct (db_from_snapshot p) as [db|e|] eqn:Hp; simpl; [|done..].
    intros [= <-]. split_and!; [done..|]. eexists _, _. split_and!; [reflexivity..|].
    apply (durable_ok _ _ _ _ ps p); try done; simpl; [|by left].
    pose proof (JournalFacts.records_length 0 (ps ++ [p])) as Hl.
    fold (JournalFacts.history (ps ++ [p])) in Hl.
    rewrite Hbytes, length_app in Hlen. rewrite length_app in Hl. simpl in Hl. lia.
Qed.

Lemma durable_mono v d fs fs' j : durable v d fs j → fs ⊆ fs' → durable v d fs' j.
Proof.
  intros [ps p ? ? ? ? ? ?|j' v' p ? ? Hor] Hsub; [by apply (durable_ok _ _ _ _ ps p)|].
  eapply durable_failed; [done..|].
  destruct Hor as [?|(? & lg & w & w' & ? & ? & ?)]; [by left|right]. split; [done|].
  exists lg, w, w'. split_and!; [by apply Hsub|done..].
Qed.

(** The append of a commit, written or failed. *)
Lemma append_durable v d fs j j' w w' bytes lg outcome r :
  durable v d fs j → Journal.ensure_usable j = Ok tt → v + 1 < 2 ^ 64 → saved_u8 w = true →
  db_snapshot_bytes w = (w', Ok bytes) → alone d lg w →
  Journal.append outcome (v + 1) bytes j = (j', r) →
  match r with
  | Ok _ => durable (v + 1) w' fs j'
  | _ => lg ∈ fs → durable v d fs j'
  end.
Proof.
  intros Hd Hus Hmax Hu8 Hsn Hlg Ha.
  destruct Hd as [ps p Hf Hfile Hps Hv Hv64 Himg|j0 v' p Hf _ _].
  2:{ unfold Journal.ensure_usable in Hus. by rewrite Hf in Hus. }
  pose proof (saved_u8_ok _ _ _ Hu8 Hsn) as Hpay.
  assert (v + 1 = Z.of_nat (length (ps ++ [p]))) as Hv1 by (rewrite length_app; simpl; lia).
  rewrite Hv1 in Ha. destruct outcome as [|n].
  - rewrite (JournalFacts.append_written j (ps ++ [p]) bytes Hfile Hf) in Ha.
    injection Ha as <- <-. apply (durable_ok _ _ _ _ (ps ++ [p]) bytes); try done.
    + by rewrite Forall_app, Forall_singleton.
    + right. by exists w.
  - destruct (JournalFacts.append_failed j (ps ++ [p]) bytes n Hfile Hf) as (j1 & msg & Ha' & Hf' & Ho);
      [by destruct ps|done|done|lia|].
    rewrite Ha' in Ha. injection Ha as <- <-. intros Hin. rewrite <- Hv1 in Ho.
    rewrite JournalFacts.latest_snoc in Ho.
    case_decide as Hc; (eapply durable_failed; [done|exact Ho|]).
    + left. split; [lia|done].
    + right. split; [lia|]. by exists lg, w, w'.
Qed.

(** What the journal does not see. *)
Lemma on_disk_kept c s' ts lgs cs fs :
  on_disk c → journal s' = journal (manager c) → version s' = version (manager c) →
  failures c ⊆ fs → on_disk (Mk s' ts lgs (published c) cs fs).
Proof.
  intros (j & d & Hjm & Hd & Hdur) Hj Hv Hfs. exists j, d. simpl. rewrite Hj, Hv.
  split_and!; [done..|]. by eapply durable_mono.
Qed.

Lemma commit_durable v0 db0 c i t outcome c' :
  run_ok v0 db0 c → on_disk c → txns c !! i = Some t → commits_u8 (Commit i outcome) c = true →
  exec (Commit i outcome) c = Some c' → on_disk c'.
Proof.
  intros Hok Hkept Hi Hu8. pose proof Hkept as (j & d & Hjm & Hd & Hdur). cbn [exec]. rewrite Hi.
  pose proof (run_txns _ _ _ Hok i t Hi) as (Hid & _ & Htok).
  unfold commits_u8 in Hu8. rewrite Hi in Hu8. destruct (workspace t) as [w|] eqn:Hw.
  2:{ destruct (TransactionFacts.inactive_spec (manager c) t "" outcome Hw) as (_ & -> & _).
      intros [= <-]. apply (on_disk_kept c); try done. set_solver. }
  assert (version (manager c) = base_version t → alone d (log_of c i) w) as Halone.
  { intros Hbase. destruct (Htok w Hw) as (_ & db & Hdb & Hal).
    rewrite <- Hbase, (run_base _ _ _ d Hok Hd) in Hdb. by injection Hdb as <-. }
  pose proof (TransactionFacts.commit_spec outcome (manager c) t w Hw) as Hr.
  unfold journal_usable in Hr. rewrite Hjm in Hr.
  destruct (commit outcome (manager c, t)) as [[s' t'] [[]|e|]]; [| |done]; intros [= <-].
  - destruct Hr as (_ & Hus & _ & _ & [(Hdt & Hc & Hv & Hj)|(Hdt & Hbase & _ & _ & Hv' & Hmax & Hj)]);
      rewrite Hdt; [by apply (on_disk_kept c); rewrite ?Hjm|].
    destruct Hj as (bytes & j1 & Hsn & Ha & Hj'). exists j1, (database s').
    split_and!; [done|simpl; by rewrite last_snoc|]. simpl. rewrite Hv'.
    eapply (append_durable _ d _ j j1 w (database s') bytes _ _ (Ok tt)); try done; [lia|by apply Halone].
  - destruct Hr as (_ & _ & _ & Hc & Hv & [Hj|(_ & Hbase & Hmax & Hus & j2 & w' & bytes & j1 & e1
      & Hjm' & Hsn & Ha & Hj)]); [apply (on_disk_kept c); rewrite ?Hjm; try done; set_solver|].
    injection Hjm' as <-. exists j1, d. split_and!; [done..|]. simpl. rewrite Hv.
    assert (durable (version (manager c)) d (failures c ++ [log_of c i]) j) as Hdj
      by (eapply durable_mono; [exact Hdur|set_solver]).
    eapply (append_durable _ d _ j j1 w w' bytes (log_of c i) outcome (Err e1));
      try done; [by apply Halone|]. set_solver.
Qed.

Lemma exec_durable v0 db0 c e c' :
  run_ok v0 db0 c → on_disk c → commits_u8 e c = true → exec e c = Some c' → on_disk c'.
Proof.
  intros Hok Hkept Hu8. destruct e as [iso|i sql|i workers|i outcome|i]; cbn [exec].
  - pose proof (TransactionFacts.begin_spec iso (manager c) (run_next _ _ _ Hok)) as Hb.
    destruct (begin_with_isolation iso (manager c)) as [s' [t|e|]]; [| |done]; intros [= <-].
    + destruct Hb as (db & _ & _ & _ & ? & ? & _). by apply (on_disk_kept c).
    + destruct Hb as (_ & ? & ? & _). by apply (on_disk_kept c).
  - destruct (txns c !! i) as [t|] eqn:Hi; [|by intros [= <-]].
    destruct (workspace t) as [db|] eqn:Hw.
    2:{ destruct (TransactionFacts.inactive_spec (manager c) t sql Journal.Written Hw) as (-> & _).
        intros [= <-]. by apply (on_disk_kept c). }
    pose proof (TransactionFacts.run_spec sql (manager c) t db Hw) as Hr.
    destruct (run sql (manager c, t)) as [[s' t'] [rows|e|]]; [| |done]; intros [= <-].
    + destruct Hr as (db' & l & -> & _). by apply (on_disk_kept c).
    + destruct Hr as (_ & _ & ->). by apply (on_disk_kept c).
  - destruct (txns c !! i) as [t|] eqn:Hi; [|by intros [= <-]].
    destruct (workspace t) as [w|] eqn:Hw.
    + rewrite (TransactionFacts.set_parallelism_spec _ _ _ w Hw).
      destruct (db_set_parallelism workers w) as [w' [[]|e|]]; [..|done]; intros [= <-];
        by apply (on_disk_kept c).
    + destruct (TransactionFacts.inactive_spec (manager c) t "" Journal.Written Hw) as (_ & _ & _ & ->).
      intros [= <-]. by apply (on_disk_kept c).
  - destruct (txns c !! i) as [t|] eqn:Hi; [|by intros [= <-]].
    intros Hx. eapply commit_durable; [done..|]. cbn [exec]. by rewrite Hi.
  - destruct (txns c !! i) as [t|] eqn:Hi; [|by intros [= <-]].
    rewrite TransactionFacts.abort_spec. intros [= <-].
    destruct (TransactionFacts.active t); by apply (on_disk_kept c).
Qed.

Lemma reachable_durable s0 c :
  next_id s0 < 2 ^ 64 → locks s0 = LockManager.default → on_disk (start s0) →
  reachable_u8 s0 c → on_disk c.
Proof.
  intros Hn Hl Hd Hr. induction Hr as [|c e c' Hr IH Hu8 He]; [done|].
  eapply exec_durable; [by eapply run_reachable_ok, reachable_u8_reachable|done..].
Qed.

End run.
Arguments config DB : clear implicits.
End ManagerRun.

(** ** Properties *)
Module TransactionSpec.
Import ManagerRun.

Section spec.
Context {DB : Type} `{Database DB}.
Implicit Types (s : ManagerState DB) (t : Txn DB) (c : config DB).

(** A manager just opened. *)
Definition opened s : Prop := next_id s = 1 ∧ locks s = LockManager.default.

(** C9: committed transactions are serializable in commit order, under both isolation
    levels and any interleaving of calls ([begin], [run], [set_parallelism], [commit],
    [abort]), failed writes included, for any database with the interface [Database]. The
    databases that the manager published are those of a serial execution of the
    transactions that committed writes, in commit order: each started, alone, on a copy
    of the database the one before it published, made the same calls with the same
    answers, and published what it then had. The manager's database is the last of them,
    with nothing done to it since but saving it to bytes; the version counts them. Every
    transaction still active works on a copy of the database published as its base
    version, changed by its own calls and by no one else's. *)
Theorem commits_serializable s0 c :
  opened s0 → reachable s0 c →
  serial (published c) (commits c) ∧ published c !! 0%nat = Some (database s0) ∧
  (∃ db, last (published c) = Some db ∧ kept db (database (manager c))) ∧
  version (manager c) = version s0 + Z.of_nat (length (commits c)) ∧
  ∀ i t w, txns c !! i = Some t → workspace t = Some w →
    version s0 ≤ base_version t ≤ version (manager c) ∧
    ∃ db, published c !! Z.to_nat (base_version t - version s0) = Some db ∧ alone db (log_of c i) w.
Proof.
  intros [Hn Hl] Hr. assert (next_id s0 < 2 ^ 64) as Hn' by lia.
  pose proof (run_reachable_ok s0 c Hn' Hl Hr) as Hok. pose proof (run_published _ _ _ Hok).
  destruct Hok as [H1 H2 H3 H4 H5 H6 H7]. split_and!; [done..|].
  intros i t w Hi Hw. destruct (H7 i t Hi) as (_ & _ & Ht). destruct (Ht w Hw) as (? & ?).
  split; [lia|done].
Qed.

(** C21: strict two-phase locking. In every state a manager can reach, a serializable
    transaction works on the committed version; once it writes it is the only
    serializable one, and [begin] is refused until it ends; and, with ids and versions
    left and no journal to write, its commit succeeds. *)
Theorem serializable_locking s0 c i t :
  opened s0 → reachable s0 c → txns c !! i = Some t → serializable t →
  base_version t = version (manager c) ∧
  (dirty t = true → LockManager.writer (locks (manager c)) = Some i ∧
     ∀ j u, txns c !! j = Some u → serializable u → j = i) ∧
  (dirty t = true → journal_usable (manager c) = Ok tt → next_id (manager c) + 1 < 2 ^ 64 →
     (begin (manager c)).2 = Err (Transaction "Database is locked by a writer")) ∧
  (journal (manager c) = None → version (manager c) + 1 < 2 ^ 64 →
     ∀ outcome, (commit outcome (manager c, t)).2 = Ok tt).
Proof.
  intros [Hn Hl] Hr Hi Hs. assert (next_id s0 < 2 ^ 64) as Hn' by lia.
  destruct (run_reachable_ok s0 c Hn' Hl Hr) as [H1 H2 H3 H4 H5 H6 H7].
  destruct (H7 i t Hi) as (Hid & Hlt & _).
  pose proof (locks_base _ _ _ H2 i t Hi Hs) as Hbase.
  assert (dirty t = true → LockManager.writer (locks (manager c)) = Some i) as Hw
    by (intros Hd; apply (locks_writer _ _ _ H2); eauto).
  split_and!; [done|..].
  - intros Hd. split; [by apply Hw|]. intros j u Hj Hu.
    assert (j ∈ LockManager.readers (locks (manager c))) as Hin by (apply (locks_readers _ _ _ H2); eauto).
    apply (locks_alone _ _ _ H2 i (Hw Hd)) in Hin. set_solver.
  - intros Hd Hus Hmax. unfold begin, begin_with_isolation, gets, lift, modify, mbind, SR_bind, fail.
    rewrite Hus. unfold checked_add. rewrite (proj2 (Z.ltb_lt _ _) Hmax). simpl.
    unfold lock_shared, LockManager.shared, LockManager.other_writer. simpl.
    rewrite (Hw Hd). destruct (Z.eqb_spec i (next_id (manager c))); [lia|done].
  - intros Hj Hmax outcome. destruct Hs as [Hact _].
    unfold TransactionFacts.active in Hact. destruct (workspace t) as [db|] eqn:Hdb; [|done].
    unfold commit, fail_released, txn, state, gets, on_txn, modify, on_manager, ret, mbind, SR_bind.
    simpl. rewrite Hdb. unfold journal_usable. rewrite Hj. simpl.
    destruct (dirty t) eqn:Hd; simpl; [|done]. rewrite Hbase, Z.eqb_refl, Hid. simpl.
    unfold lock_exclusive. rewrite TransactionFacts.exclusive_granted.
    + simpl. unfold checked_add. rewrite (proj2 (Z.ltb_lt _ _) Hmax).
      unfold write_journal. simpl. by rewrite Hj.
    + by apply (locks_alone _ _ _ H2), Hw.
    + intros w. rewrite Hw by done. congruence.
Qed.

(** C22: commit is all or nothing and the first committer wins. Whatever state the
    manager is in, after [commit] the transaction is over and holds no lock. If it
    succeeded, writes are published as the next version: the manager's database is the
    transaction's workspace, which a manager with a journal saved to bytes first, and the
    version was the one the transaction started from; a transaction without writes
    changed nothing; if it failed, database and version are what they were. A transaction with writes whose base version is no longer the
    current one fails with a write conflict, without touching the journal. *)
Theorem commit_all_or_nothing outcome s t db :
  workspace t = Some db →
  let '((s', t'), r) := commit outcome (s, t) in
  r ≠ Panic →
  workspace t' = None ∧ id t ∉ LockManager.readers (locks s') ∧
  LockManager.writer (locks s') ≠ Some (id t) ∧
  (r = Ok tt →
     if dirty t
     then version s = base_version t ∧ version s' = version s + 1 ∧
          database s' = match journal s with None => db | Some _ => (db_snapshot_bytes db).1 end
     else version s' = version s ∧ journal s' = journal s ∧ database s' = database s) ∧
  (∀ e, r = Err e → version s' = version s ∧ database s' = database s) ∧
  (dirty t = true → version s ≠ base_version t → journal_usable s = Ok tt →
     r = Err (Transaction "Write conflict; transaction aborted") ∧ journal s' = journal s).
Proof.
  intros Hw. pose proof (TransactionFacts.commit_spec outcome s t db Hw) as Hc.
  assert (dirty t = true → version s ≠ base_version t → journal_usable s = Ok tt →
    (commit outcome (s, t)).2 = Err (Transaction "Write conflict; transaction aborted") ∧
    journal (commit outcome (s, t)).1.1 = journal s) as Hconf.
  { intros Hd Hv Hus.
    unfold commit, fail_released, txn, state, gets, on_txn, modify, on_manager, ret, fail, mbind, SR_bind.
    simpl. rewrite Hw, Hus. simpl. rewrite Hd. simpl.
    by rewrite (proj2 (Z.eqb_neq _ _) Hv). }
  assert (∀ l, id t ∉ LockManager.readers (LockManager.release (id t) l) ∧
    LockManager.writer (LockManager.release (id t) l) ≠ Some (id t)) as Hrel.
  { intros l. simpl. split; [set_solver|]. by case_bool_decide. }
  destruct (commit outcome (s, t)) as [[s' t'] [[]|e|]]; simpl in Hconf; intros Hp; [| |done].
  - destruct Hc as (-> & _ & Hl & _ & Hor). rewrite Hl. destruct (Hrel (locks s)).
    split_and!; try done. intros _. destruct Hor as [(-> & ? & ? & ?)|(-> & ? & _ & _ & ? & _ & Hj)]; [done|].
    split_and!; [done..|]. destruct (journal s); [destruct Hj as (? & ? & -> & _)|destruct Hj]; done.
  - destruct Hc as (-> & Hl & _ & ? & ? & _). rewrite Hl. destruct (Hrel (locks s)).
    by split_and!.
Qed.

(** C10: durability. Take a manager opened on any journal file, and crash it after any
    calls, with any failing writes, when the bytes that are saved are bytes (as the
    elements of a [Vec<u8>] are). Its journal file opens again, as a manager that starts
    on what was recovered: the bytes of the database that the last successful commit
    published, byte for byte as they were saved then, with its version (the bytes the
    manager was opened from, before the first commit); or, only if the write of a commit
    failed, perhaps the bytes of the workspace of that commit, which started on the
    database published last. *)
Theorem journal_durability locked bytes outcome s0 c :
  Forall byte_ok bytes → Z.of_nat (length bytes) < 2 ^ 64 → first_u8 = true →
  new_on_disk locked bytes outcome = Ok s0 → reachable_u8 s0 c →
  ∃ j j' v p d, journal (manager c) = Some j ∧
    Journal.open false (Journal.file j) = Ok (j', Some (v, p)) ∧
    (∀ outcome', new_on_disk false (Journal.file j) outcome' =
       (db ← db_from_snapshot p; Ok (MkManager db LockManager.default 1 v (Some j')))) ∧
    last (published c) = Some d ∧ kept d (database (manager c)) ∧
    (v = version (manager c) ∧ image p d ∨
     Journal.failed j = true ∧ v = version (manager c) + 1 ∧
       ∃ lg w w', lg ∈ failures c ∧ alone d lg w ∧ db_snapshot_bytes w = (w', Ok p)).
Proof.
  intros Hb Hlen Hfirst Hnew Hr.
  destruct (new_on_disk_durable locked bytes outcome s0 Hb Hlen Hfirst Hnew) as (Hn & Hl & Hd).
  assert (next_id s0 < 2 ^ 64) as Hn' by lia.
  destruct (run_last _ _ _ (run_reachable_ok s0 c Hn' Hl (reachable_u8_reachable _ _ Hr))) as (d & Hlast & Hk).
  destruct (reachable_durable s0 c Hn' Hl Hd Hr) as (j & d' & Hj & Hd' & Hdur). simplify_eq.
  enough (∃ j' v p, Journal.open false (Journal.file j) = Ok (j', Some (v, p)) ∧
    (v = version (manager c) ∧ image p d ∨ Journal.failed j = true ∧ v = version (manager c) + 1 ∧
       ∃ lg w w', lg ∈ failures c ∧ alone d lg w ∧ db_snapshot_bytes w = (w', Ok p)))
    as (j' & v & p & Ho & Hor).
  { exists j, j', v, p, d. split_and!; try done. intros outcome'. unfold new_on_disk. by rewrite Ho. }
  destruct Hdur as [ps p Hf Hfile Hps Hv Hmax Himg|j' v p Hf Ho Hor].
  - do 3 eexists. rewrite Hfile, JournalFacts.open_whole; [|done|rewrite length_app; simpl; lia].
    rewrite JournalFacts.latest_snoc. split; [done|]. left. by rewrite Hv.
  - exists j', v, p. split; [done|]. destruct Hor as [?|(? & ?)]; [by left|by right].
Qed.

End spec.

(** A small database: a counter modulo 256 and one statement that increments it. *)
#[local] Instance demo_database : Database Z := {
  db_new_temp := Ok 0;
  db_snapshot_bytes := λ db, (db, Ok [db `mod` 256]);
  db_from_snapshot := λ bytes, match bytes with [b] => Ok b | _ => Err (Storage "no image") end;
  db_create_logical_plan := λ sql db,
    (db, Ok (if bool_decide (sql = "INSERT"%string) then PInsert else PTableScan));
  db_run := λ sql db, (if bool_decide (sql = "INSERT"%string) then db + 1 else db, Ok []);
  db_set_parallelism := λ _, ret tt;
}.

(** Two snapshot transactions and a serializable one; the second snapshot one loses. *)
Definition demo_events : list event :=
  [Begin SnapshotIsolation; Begin SnapshotIsolation; Run 1 "INSERT"; Run 2 "INSERT";
   Commit 1 Journal.Written; Commit 2 Journal.Written; Begin Serializable; Run 3 "INSERT"].

Definition demo_manager : ManagerState Z := MkManager 0 LockManager.default 1 0 None.

Definition demo_config : config Z :=
  default (start demo_manager) (exec_all demo_events (start demo_manager)).

Lemma demo_reachable : reachable demo_manager demo_config.
Proof. apply exec_all_default. Qed.

Lemma serializable_locking_witness :
  LockManager.writer (locks (manager demo_config)) = Some 3.
Proof.
  destruct (txns demo_config !! 3) as [t|] eqn:Ht; [|vm_compute in Ht; discriminate Ht].
  assert (serializable t) as Hs.
  { vm_compute in Ht. injection Ht as <-. split; reflexivity. }
  destruct (serializable_locking demo_manager demo_config 3 t (conj eq_refl eq_refl)
    demo_reachable Ht Hs) as (_ & Hw & _).
  apply Hw. vm_compute in Ht. injection Ht as <-. reflexivity.
Defined.

Lemma commit_all_or_nothing_witness :
  version (commit Journal.Written (demo_manager, MkTxn 1 (Some 7) true SnapshotIsolation 0)).1.1 = 1.
Proof.
  pose proof (commit_all_or_nothing Journal.Written demo_manager
    (MkTxn 1 (Some 7) true SnapshotIsolation 0) 7 eq_refl) as Hc.
  destruct (commit _ _) as [[s' t'] r] eqn:E. vm_compute in E. injection E as <- <- <-.
  destruct Hc as (_ & _ & _ & Hok & _); [done|]. apply (Hok eq_refl).
Defined.

End TransactionSpec.
