(* ===== verification/Progress.v ===== *)
(** * Progress: the locks of transactions do not stay taken

    Endless histories of a transaction manager ([Transactions]). A call that cannot have
    its lock fails at once, and an upgrade that fails ends its transaction, so nobody
    waits and no cycle of waiting transactions can form. What is left to show is that a
    lock is free again in time, when the clients end the transactions they began. *)
From S2P Require Import Prelude Journal Transactions.
Local Open Scope Z_scope.

Module ProgressFacts.
Import ManagerRun TransactionFacts.

Section progress.
Context {DB : Type} `{Database DB}.
Implicit Types (s : ManagerState DB) (t : Txn DB) (c : config DB).

(** ** One call *)

(** What a call does to a transaction: it stays the same transaction, does not come back
    after its end, and a serializable one that wrote stays so until then. Only one
    transaction changes. *)
Record follows c c' (i : Z) t t' : Prop := Follows {
  follows_same : same_txn t t';
  follows_active : active t' = true → active t = true;
  follows_dirty : active t' = true → isolation t = Serializable → dirty t = true → dirty t' = true;
  follows_others : t' = t ∨ ∀ j, j ≠ i → txns c' !! j = txns c !! j;
}.

Lemma follows_refl c c' i t : follows c c' i t t.
Proof. split; [by split_and!|done|done|by left]. Qed.

Lemma follows_over c c' i t t' :
  same_txn t t' → workspace t' = None → (∀ j, j ≠ i → txns c' !! j = txns c !! j) → follows c c' i t t'.
Proof.
  intros Hs Hw%active_None Ho. split; [done|by rewrite Hw..|by right].
Qed.

Lemma insert_others (m : gmap Z (Txn DB)) i t' j : j ≠ i → <[i := t']> m !! j = m !! j.
Proof. intros. by rewrite lookup_insert_ne. Qed.

(** A call on another transaction. *)
Lemma follows_insert c c' i j t t' :
  txns c' = <[j := t']> (txns c) → txns c !! i = Some t → (j = i → follows c c' i t t') →
  ∃ u, txns c' !! i = Some u ∧ follows c c' i t u.
Proof.
  intros Hc Hi Hf. rewrite Hc. destruct (decide (j = i)) as [->|Hne].
  - exists t'. rewrite lookup_insert_eq. split; [done|by apply Hf].
  - exists t. rewrite lookup_insert_ne by done. split; [done|apply follows_refl].
Qed.

Lemma exec_follows v0 db0 c e c' i t :
  run_ok v0 db0 c → exec e c = Some c' → txns c !! i = Some t →
  ∃ t', txns c' !! i = Some t' ∧ follows c c' i t t'.
Proof.
  intros Hok He Hi. pose proof (run_txns _ _ _ Hok i t Hi) as (_ & Hlt & _).
  destruct e as [iso|j sql|j workers|j outcome|j]; cbn [exec] in He.
  - pose proof (begin_spec iso (manager c) (run_next _ _ _ Hok)) as Hb.
    destruct (begin_with_isolation iso (manager c)) as [s' [t'|e|]]; [| |done]; injection He as <-.
    + destruct Hb as (db & -> & _). eapply follows_insert; [done..|]. simpl. lia.
    + exists t. split; [done|apply follows_refl].
  - destruct (txns c !! j) as [u|] eqn:Hj; [|injection He as <-; exists t; split; [done|apply follows_refl]].
    destruct (workspace u) as [db|] eqn:Hw.
    + pose proof (run_spec sql (manager c) u db Hw) as Hr.
      destruct (run sql (manager c, u)) as [[s' t'] [rows|e|]]; [| |done]; injection He as <-;
        (eapply follows_insert; [done..|]); intros ->; simplify_eq.
      * destruct Hr as (db' & l & _ & Hs & Hw' & _ & Hd). split; [done| | |right; intros; by apply insert_others].
        -- unfold active. by rewrite Hw.
        -- intros _ Hiso Hdirty. destruct Hd as [[_ [->|Hd]]|(_ & Hd & _)]; congruence.
      * destruct Hr as (Hs & Hw' & _). apply follows_over; [done..|]. intros. by apply insert_others.
    + destruct (inactive_spec (manager c) u sql Journal.Written Hw) as (Hrun & _). rewrite Hrun in He.
      injection He as <-. eapply follows_insert; [done..|]. intros ->. simplify_eq. apply follows_refl.
  - destruct (txns c !! j) as [u|] eqn:Hj; [|injection He as <-; exists t; split; [done|apply follows_refl]].
    destruct (workspace u) as [w|] eqn:Hw.
    + rewrite (set_parallelism_spec _ _ _ w Hw) in He.
      destruct (db_set_parallelism workers w) as [w' [[]|e|]]; [..|done]; injection He as <-;
        (eapply follows_insert; [done..|]); intros ->; simplify_eq;
        (split; [by split_and!| |done|right; intros; by apply insert_others]); unfold active; by rewrite Hw.
    + destruct (inactive_spec (manager c) u "" Journal.Written Hw) as (_ & _ & _ & Hrun). rewrite Hrun in He.
      injection He as <-. eapply follows_insert; [done..|]. intros ->. simplify_eq. apply follows_refl.
  - destruct (txns c !! j) as [u|] eqn:Hj; [|injection He as <-; exists t; split; [done|apply follows_refl]].
    destruct (workspace u) as [db|] eqn:Hw.
    + pose proof (commit_spec outcome (manager c) u db Hw) as Hr.
      destruct (commit outcome (manager c, u)) as [[s' t'] [rows|e|]]; [| |done]; injection He as <-;
        (eapply follows_insert; [done..|]); intros ->; simplify_eq; destruct Hr as (-> & _);
        (apply follows_over; [done..|]); intros; by apply insert_others.
    + destruct (inactive_spec (manager c) u "" outcome Hw) as (_ & Hrun & _). rewrite Hrun in He.
      injection He as <-. eapply follows_insert; [done..|]. intros ->. simplify_eq. apply follows_refl.
  - destruct (txns c !! j) as [u|] eqn:Hj; [|injection He as <-; exists t; split; [done|apply follows_refl]].
    rewrite abort_spec in He. injection He as <-. eapply follows_insert; [done..|]. intros ->. simplify_eq.
    destruct (active u); [|apply follows_refl]. apply follows_over; [done..|]. intros. by apply insert_others.
Qed.

(** The calls that end transaction [i]. *)
Definition ends (i : Z) (e : event) : Prop :=
  match e with Commit j _ | Abort j => j = i | Begin _ | Run _ _ | SetParallelism _ _ => False end.

Lemma exec_ends c e c' i t :
  ends i e → exec e c = Some c' → txns c !! i = Some t → ∃ t', txns c' !! i = Some t' ∧ active t' = false.
Proof.
  destruct e as [|j sql|j workers|j outcome|j]; try done; intros ->; cbn [exec]; intros He Hi; rewrite Hi in He.
  - destruct (workspace t) as [db|] eqn:Hw.
    + pose proof (commit_spec outcome (manager c) t db Hw) as Hr.
      destruct (commit outcome (manager c, t)) as [[s' t'] [rows|e|]]; [| |done]; injection He as <-;
        destruct Hr as (-> & _); eexists; (split; [apply lookup_insert_eq|done]).
    + destruct (inactive_spec (manager c) t "" outcome Hw) as (_ & Hrun & _). rewrite Hrun in He.
      injection He as <-. exists t. split; [apply lookup_insert_eq|]. by apply active_None.
  - rewrite abort_spec in He. injection He as <-. eexists. split; [apply lookup_insert_eq|].
    by destruct (active t) eqn:Ha.
Qed.

(** The writer keeps its lock until it ends, and then nobody has it. *)
Lemma writer_step v0 db0 c e c' w :
  run_ok v0 db0 c → run_ok v0 db0 c' → exec e c = Some c' → LockManager.writer (locks (manager c)) = Some w →
  (LockManager.writer (locks (manager c')) = Some w ∧ ¬ ends w e) ∨ LockManager.writer (locks (manager c')) = None.
Proof.
  intros Hok Hok' He Hw. pose proof (run_locks _ _ _ Hok) as Hl. pose proof (run_locks _ _ _ Hok') as Hl'.
  destruct (proj1 (locks_writer _ _ _ Hl w) Hw) as (t & Hi & [Ha Hiso] & Hd).
  destruct (exec_follows _ _ _ _ _ _ _ Hok He Hi) as (t' & Hi' & [(_ & Hiso' & _) _ Hdirty Hoth]).
  destruct (active t') eqn:Ha'.
  - left. split.
    + apply (locks_writer _ _ _ Hl'). exists t'. split_and!; [done|split; [done|congruence]|by apply Hdirty].
    + intros Hends. destruct (exec_ends _ _ _ _ _ Hends He Hi) as (t2 & Ht2 & Ha2). congruence.
  - right. destruct Hoth as [->|Hoth]; [congruence|].
    destruct (LockManager.writer (locks (manager c'))) as [j|] eqn:Hj; [|done]. exfalso.
    destruct (proj1 (locks_writer _ _ _ Hl' j) Hj) as (u & Hu & [Hau Hisou] & Hdu).
    destruct (decide (j = w)) as [->|Hne]; [congruence|]. rewrite (Hoth j Hne) in Hu.
    assert (LockManager.writer (locks (manager c)) = Some j) as Hj2
      by (apply (locks_writer _ _ _ Hl); by exists u).
    congruence.
Qed.

(** ** Endless histories *)
Definition history := nat → event.

(** The state after [n] calls, unless one of them panicked. *)
Fixpoint state_at s (h : history) (n : nat) : option (config DB) :=
  match n with
  | O => Some (start s)
  | S n' => c ← state_at s h n'; exec (h n') c
  end.

Definition active_at s (h : history) (n : nat) (i : Z) : Prop :=
  ∃ c t, state_at s h n = Some c ∧ txns c !! i = Some t ∧ active t = true.

(** The clients end every transaction at some time. *)
Definition fair s (h : history) : Prop := ∀ n i, active_at s h n i → ∃ m, (n ≤ m)%nat ∧ ends i (h m).

Section history.
Context s (h : history) (Hn : next_id s < 2 ^ 64) (Hl : locks s = LockManager.default).
Context (total : ∀ n, is_Some (state_at s h n)).

Lemma state_at_ok n c : state_at s h n = Some c → run_ok (version s) (database s) c.
Proof using Hn Hl.
  intros Hc. apply run_reachable_ok; [done..|]. revert c Hc.
  induction n as [|n IH]; simpl; intros c Hc; [injection Hc as <-; apply reach_start|].
  destruct (state_at s h n) as [c1|]; [|done]. simpl in Hc. eapply reach_exec; [by apply IH|done].
Qed.

Lemma state_at_S n c : state_at s h n = Some c → ∃ c', state_at s h (S n) = Some c' ∧ exec (h n) c = Some c'.
Proof using total.
  intros Hc. destruct (total (S n)) as [c' Hc']. exists c'. split; [done|]. simpl in Hc'. by rewrite Hc in Hc'.
Qed.

(** A transaction that is over stays over and has no lock. *)
Lemma over_stays n i c t :
  state_at s h n = Some c → txns c !! i = Some t → active t = false →
  ∀ k c2, (n ≤ k)%nat → state_at s h k = Some c2 →
    i ∉ LockManager.readers (locks (manager c2)) ∧ LockManager.writer (locks (manager c2)) ≠ Some i.
Proof using Hn Hl total.
  intros Hc Hi Ha k c2 Hk Hc2.
  assert (∃ t2, txns c2 !! i = Some t2 ∧ active t2 = false) as (t2 & Hi2 & Ha2).
  { revert c2 Hc2. induction Hk as [|k Hk IH]; intros c2 Hc2; [exists t; by simplify_eq|].
    destruct (total k) as [c1 Hc1]. destruct (IH c1 Hc1) as (t1 & Hi1 & Ha1).
    destruct (state_at_S k c1 Hc1) as (c3 & Hc3 & He). simplify_eq.
    destruct (exec_follows _ _ _ _ _ _ _ (state_at_ok _ _ Hc1) He Hi1) as (t2 & Hi2 & [_ Hf _ _]).
    exists t2. split; [done|]. destruct (active t2); [|done]. rewrite Hf in Ha1; done. }
  pose proof (run_locks _ _ _ (state_at_ok _ _ Hc2)) as Hlk. split.
  - intros (u & Hu & [Hau _])%(locks_readers _ _ _ Hlk). congruence.
  - intros (u & Hu & [Hau _] & _)%(locks_writer _ _ _ Hlk). congruence.
Qed.

(** Until the call that ends it, the writer may have the lock; after that call the lock
    has been free. *)
Lemma writer_until n w c d :
  state_at s h n = Some c → LockManager.writer (locks (manager c)) = Some w → ends w (h (n + d)%nat) →
  ∃ m c', (n ≤ m)%nat ∧ state_at s h m = Some c' ∧ LockManager.writer (locks (manager c')) = None.
Proof using Hn Hl total.
  revert n c. induction d as [|d IH]; intros n c Hc Hw He; destruct (state_at_S n c Hc) as (c1 & Hc1 & Hex);
    destruct (writer_step _ _ _ _ _ _ (state_at_ok _ _ Hc) (state_at_ok _ _ Hc1) Hex Hw) as [[Hw1 Hne]|Hw1].
  - by rewrite Nat.add_0_r in He.
  - exists (S n), c1. by split; [lia|].
  - destruct (IH (S n) c1 Hc1 Hw1) as (m & c' & Hm & ? & ?); [by replace (S n + d)%nat with (n + S d)%nat by lia|].
    exists m, c'. by split; [lia|].
  - exists (S n), c1. by split; [lia|].
Qed.

Lemma ends_active n i : active_at s h n i → (∃ m, (n ≤ m)%nat ∧ ends i (h m)) →
  ∃ m c t, (n ≤ m)%nat ∧ state_at s h m = Some c ∧ txns c !! i = Some t ∧ active t = false.
Proof using Hn Hl total.
  intros (c & t & Hc & Hi & _) (m & Hm & He).
  assert (∃ c2 t2, state_at s h m = Some c2 ∧ txns c2 !! i = Some t2) as (c2 & t2 & Hc2 & Hi2).
  { clear He. induction Hm as [|m Hm (c1 & t1 & Hc1 & Hi1)]; [by exists c, t|].
    destruct (state_at_S m c1 Hc1) as (c3 & Hc3 & Hex).
    destruct (exec_follows _ _ _ _ _ _ _ (state_at_ok _ _ Hc1) Hex Hi1) as (t3 & Hi3 & _). by exists c3, t3. }
  destruct (state_at_S m c2 Hc2) as (c3 & Hc3 & Hex).
  destruct (exec_ends _ _ _ _ _ He Hex Hi2) as (t3 & Hi3 & Ha3). exists (S m), c3, t3. by split; [lia|].
Qed.

End history.

Lemma shared_free i (l : LockManager.t) : LockManager.writer l = None → (LockManager.shared i l).2 = true.
Proof. intros Hw. rewrite shared_ok. unfold LockManager.other_writer. by rewrite Hw. Qed.

End progress.
End ProgressFacts.

(** ** Property *)
Module ProgressSpec.
Import ManagerRun TransactionFacts ProgressFacts TransactionSpec.

(** C23: locks are free again. In an endless history of calls in which no call panics and
    the clients commit or abort every transaction at some time, whatever else they call:
    each transaction has lost its locks for good at some time, also when its commit
    fails; and again and again there is a time when no writer holds the lock, and
    [begin] is given its shared lock. *)
Theorem locks_free_again {DB : Type} `{Database DB} (s : ManagerState DB) h :
  opened s → (∀ n, is_Some (state_at s h n)) → fair s h →
  (∀ n i, active_at s h n i → ∃ m, (n ≤ m)%nat ∧ ∀ k c, (m ≤ k)%nat → state_at s h k = Some c →
     i ∉ LockManager.readers (locks (manager c)) ∧ LockManager.writer (locks (manager c)) ≠ Some i) ∧
  (∀ n, ∃ m c, (n ≤ m)%nat ∧ state_at s h m = Some c ∧ LockManager.writer (locks (manager c)) = None ∧
     ∀ i, (LockManager.shared i (locks (manager c))).2 = true).
Proof.
  intros [Hid Hl] Htotal Hfair. assert (next_id s < 2 ^ 64) as Hn by lia. split.
  - intros n i Ha. destruct (ends_active s h Hn Hl Htotal n i Ha (Hfair n i Ha)) as (m & c & t & Hm & Hc & Hi & Ht).
    exists m. split; [done|]. by apply (over_stays s h Hn Hl Htotal m i c t).
  - intros n. enough (∃ m c, (n ≤ m)%nat ∧ state_at s h m = Some c ∧ LockManager.writer (locks (manager c)) = None)
      as (m & c & ? & ? & Hw) by (exists m, c; split_and!; [done..|intros; by apply shared_free]).
    destruct (Htotal n) as [c Hc]. destruct (LockManager.writer (locks (manager c))) as [w|] eqn:Hw; [|by exists n, c].
    destruct (proj1 (locks_writer _ _ _ (run_locks _ _ _ (state_at_ok s h Hn Hl n c Hc)) w) Hw) as (t & Ht & [Hat _] & _).
    destruct (Hfair n w) as (m & Hm & He); [by exists c, t|].
    apply (writer_until s h Hn Hl Htotal n w c (m - n) Hc Hw). by replace (n + (m - n))%nat with m by lia.
Qed.

(** *** A writer that commits again and again *)
#[local] Existing Instance demo_database.

Definition demo_history : history := λ n,
  match n with
  | 0%nat => Begin Serializable
  | 1%nat => Run 1 "INSERT"
  | _ => Commit 1 Journal.Written
  end.

Lemma demo_history_runs n :
  ∃ c, state_at demo_manager demo_history n = Some c ∧ ∀ i t, txns c !! i = Some t → i = 1.
Proof.
  destruct (decide (n < 3)%nat) as [Hlt|Hge].
  - set (c := default (start demo_manager) (state_at demo_manager demo_history n)).
    assert (state_at demo_manager demo_history n = Some c ∧ dom (txns c) ⊆ {[1]}) as [Hc Hd].
    { unfold c. destruct n as [|[|[|]]]; [..|lia]; (split; [vm_compute; reflexivity|]);
        apply (bool_decide_unpack _); vm_compute; exact I. }
    exists c. split; [done|]. intros i t Hi%elem_of_dom_2%Hd. by apply elem_of_singleton in Hi.
  - assert (∃ c t, state_at demo_manager demo_history n = Some c ∧ txns c = {[1 := t]} ∧ workspace t = None)
      as (c & t & Hc & Ht & _).
    { replace n with (3 + (n - 3))%nat by lia. induction (n - 3)%nat as [|k (c & t & Hc & Ht & Hw)].
      - do 2 eexists. split; [vm_compute; reflexivity|]. split; [reflexivity|done].
      - rewrite Nat.add_succ_r. cbn [state_at]. rewrite Hc. cbn [mbind option_bind].
        destruct (inactive_spec (manager c) t "" Journal.Written Hw) as (_ & Hrun & _).
        change (demo_history (3 + k)%nat) with (Commit 1 Journal.Written). cbn [exec]. rewrite Ht, lookup_singleton_eq, Hrun.
        do 2 eexists. split; [done|]. split; [|exact Hw]. simpl. by rewrite insert_singleton_eq. }
    exists c. split; [done|]. intros i u. rewrite Ht. by intros [<- _]%lookup_singleton_Some.
Qed.

Lemma locks_free_again_witness :
  ∃ m c, (2 ≤ m)%nat ∧ state_at demo_manager demo_history m = Some c ∧
    LockManager.writer (locks (manager c)) = None ∧ ∀ i, (LockManager.shared i (locks (manager c))).2 = true.
Proof.
  apply (locks_free_again demo_manager demo_history).
  - done.
  - intros n. destruct (demo_history_runs n) as (c & Hc & _). by exists c.
  - intros n i (c & t & Hc & Hi & _). destruct (demo_history_runs n) as (c' & Hc' & Hk). simplify_eq.
    rewrite (Hk i t Hi). exists (2 + n)%nat. by split; [lia|].
Defined.

End ProgressSpec.
