(* ===== verification/Database.v ===== *)
(** * Database: from SQL text to tuples

    Models [bustubx/src/database.rs] and the loading of the catalog from its information
    schema in [bustubx/src/catalog/information.rs], which runs SQL. A database is its
    catalog, whose pool holds the disk manager, and the number of workers; [events]
    counts what the platform decided so far. The directory of a temporary database has
    no state of its own. *)
From S2P Require Import Prelude CommonCodec Floats Text Scalar Schema TupleCodec TablePage IndexPage.
From S2P Require Import DiskPages DiskManager Replacer BufferPool PageStore TableHeap Index Catalog.
From S2P Require Import Expressions LogicalPlan Ast SqlPlanner Operators Optimizer Execution Planner.
From S2P Require Import Transactions.
Local Open Scope Z_scope.

(** [parse_key_schema_from_varchar] *)
Definition parse_key_schema_from_varchar (varchar : string) (table_schema : Schema.t) : result Schema.t :=
  let column_names := Text.trim <$> Text.split_comma varchar in
  indices ← mapR (Schema.index_of table_schema None) column_names;
  Schema.project table_schema indices.

(** [let ScalarValue::Varchar(Some(s)) = tuple.value(i)? else { return error }] *)
Definition varchar_value (error : BustubxError) (tuple : Tuple.t) (i : nat) : result string :=
  v ← Tuple.value tuple i;
  match v with ScalarValue.Varchar (Some s) => Ok s | _ => Err error end.
Definition uint32_value (error : BustubxError) (tuple : Tuple.t) (i : nat) : result Z :=
  v ← Tuple.value tuple i;
  match v with ScalarValue.UInt32 (Some z) => Ok z | _ => Err error end.
Definition boolean_value (error : BustubxError) (tuple : Tuple.t) (i : nat) : result bool :=
  v ← Tuple.value tuple i;
  match v with ScalarValue.Boolean (Some b) => Ok b | _ => Err error end.

(** [for x in l { ..? }] *)
Fixpoint for_each {S A} (f : A → SR S unit) (l : list A) : SR S unit :=
  match l with
  | [] => ret tt
  | x :: l' => _ ← f x; for_each f l'
  end.

Definition select_all (table : string) : string :=
  "select * from " +:+ INFORMATION_SCHEMA_NAME +:+ "." +:+ table.

Module Database.
Section database.
Context {D : Type} `{Disk D} `{Platform} `{Sqlparser}.

Record t := Mk { catalog : Catalog.t D; parallelism : nat; events : nat }.

Definition buffer_pool (self : t) : BufferPoolManager.t D := Catalog.buffer_pool (catalog self).

Definition set_catalog (x : Catalog.t D) (self : t) : t := Mk x (parallelism self) (events self).

Definition on_catalog {A} (m : SR (Catalog.t D) A) : SR t A := λ self,
  let '(x, r) := m (catalog self) in (set_catalog x self, r).

Definition ask {A} (f : t → result A) : SR t A := λ self, (self, f self).

(** A computation of the engine, in a context with the catalog. *)
Definition on_context {A} (m : SR (ExecutionContext.t D) A) : SR t A := λ self,
  let '(c, r) := m (ExecutionContext.Mk (catalog self) (events self)) in
  (Mk (ExecutionContext.catalog c) (parallelism self) (ExecutionContext.events c), r).

Definition set_parallelism (workers : nat) : SR t unit := λ self,
  if ((1 <=? workers) && (workers <=? 64))%nat then (Mk (catalog self) workers (events self), Ok tt)
  else (self, Err (Execution "Parallelism must be between 1 and 64")).

Definition create_logical_plan (sql : string) (self : t) : result LogicalPlan.t :=
  stmts ← parse_sql sql;
  if negb (length stmts =? 1)%nat then Err (NotSupport "only support one sql statement")
  else
    stmt ← index stmts 0;
    LogicalPlanner.plan (LogicalPlanner.Mk (catalog self)) stmt.

(** [fuel]: the rounds of each loop of the engine. *)
Definition run (fuel : nat) (sql : string) : SR t (list Tuple.t) :=
  logical_plan ← ask (create_logical_plan sql);
  optimized_logical_plan ← lift (LogicalOptimizer.optimize LogicalOptimizer.new logical_plan);
  physical_plan ← ask (λ self,
    PhysicalPlanner.create_physical_plan (PhysicalPlanner.Mk (catalog self) (parallelism self))
      optimized_logical_plan);
  on_context (execute SqlDataType.sql_type_name fuel physical_plan).

Definition flush (fuel : nat) : SR t unit :=
  _ ← on_catalog (Catalog.sync_index_roots fuel ScalarValue.display);
  on_catalog (Catalog.on_pool BufferPoolManager.flush_all_pages).

(** *** Loading the catalog (information.rs) *)
Definition load_schema_tuple (schema_tuple : Tuple.t) : SR t unit :=
  let error := Internal "Failed to decode schema tuple: {:?}" in
  _ ← lift (varchar_value error schema_tuple 0);
  schema_name ← lift (varchar_value error schema_tuple 1);
  on_catalog (modify (Catalog.load_schema schema_name (CatalogSchema.new schema_name))).

Definition load_schemas (fuel : nat) : SR t unit :=
  schema_tuples ← run fuel (select_all INFORMATION_SCHEMA_SCHEMAS);
  for_each load_schema_tuple schema_tuples.

Definition load_column (column_tuple : Tuple.t) : result Column.t :=
  let error := Internal "Failed to decode column tuple: {:?}" in
  column_name ← varchar_value error column_tuple 3;
  data_type_str ← varchar_value error column_tuple 4;
  nullable ← boolean_value error column_tuple 5;
  data_type ← SqlDataType.try_from_str data_type_str;
  Ok (Column.new column_name data_type nullable).

(** The columns of a table. *)
Definition select_columns (catalog table_schema table_name : string) : string :=
  select_all INFORMATION_SCHEMA_COLUMNS +:+ " where table_catalog = '" +:+ catalog +:+
    "' and table_schema = '" +:+ table_schema +:+ "' and table_name = '" +:+ table_name +:+ "'".

Definition load_table_tuple (fuel : nat) (table_tuple : Tuple.t) : SR t unit :=
  let error := Internal "Failed to decode table tuple: {:?}" in
  catalog ← lift (varchar_value error table_tuple 0);
  table_schema ← lift (varchar_value error table_tuple 1);
  table_name ← lift (varchar_value error table_tuple 2);
  first_page_id ← lift (uint32_value error table_tuple 3);
  column_tuples ← run fuel (select_columns catalog table_schema table_name);
  columns ← lift (mapR load_column column_tuples);
  schema ← lift (Schema.new columns);
  last_page_id ← on_catalog (Catalog.load_table_last_page_id fuel first_page_id schema);
  on_catalog (λ c,
    match Catalog.load_table (TableReference.Full catalog table_schema table_name)
            (CatalogTable.new table_name (TableHandle.Mk schema first_page_id last_page_id)) c with
    | Ok c' => (c', Ok tt)
    | Err e => (c, Err e)
    | Panic => (c, Panic)
    end).

Definition load_user_tables (fuel : nat) : SR t unit :=
  table_tuples ← run fuel (select_all INFORMATION_SCHEMA_TABLES);
  for_each (load_table_tuple fuel) table_tuples.

Definition load_index_tuple (index_tuple : Tuple.t) : SR t unit :=
  let error := Internal "Failed to decode index tuple: {:?}" in
  catalog_name ← lift (varchar_value error index_tuple 0);
  table_schema_name ← lift (varchar_value error index_tuple 1);
  table_name ← lift (varchar_value error index_tuple 2);
  index_name ← lift (varchar_value error index_tuple 3);
  key_schema_str ← lift (varchar_value error index_tuple 4);
  internal_max_size ← lift (uint32_value error index_tuple 5);
  leaf_max_size ← lift (uint32_value error index_tuple 6);
  root_page_id ← lift (uint32_value error index_tuple 7);
  let table_ref := TableReference.Full catalog_name table_schema_name table_name in
  table ← ask (λ self, Catalog.table_heap table_ref (catalog self));
  key_schema ← lift (parse_key_schema_from_varchar key_schema_str (TableHandle.schema table));
  on_catalog (λ c,
    match Catalog.load_index table_ref index_name
            (IndexHandle.Mk key_schema internal_max_size leaf_max_size root_page_id) c with
    | Ok c' => (c', Ok tt)
    | Err e => (c, Err e)
    | Panic => (c, Panic)
    end).

Definition load_user_indexes (fuel : nat) : SR t unit :=
  index_tuples ← run fuel (select_all INFORMATION_SCHEMA_INDEXES);
  for_each load_index_tuple index_tuples.

Definition load_catalog_data (fuel : nat) (meta : MetaPage.t) : SR t unit :=
  _ ← on_catalog (Catalog.load_information_schema fuel meta);
  _ ← load_schemas fuel;
  _ ← on_catalog Catalog.create_default_schema_if_not_exists;
  _ ← load_user_tables fuel;
  load_user_indexes fuel.

End database.
Arguments t D : clear implicits.

(** *** Opening and saving *)
Section disk.
Context `{Platform} `{Sqlparser} (major minor : Z) (fuel : nat).
Notation Db := (t DiskManager.t).

(** [new_on_disk], on the contents of the file if it exists. *)
Definition new_on_disk (existing : option (list Z)) : result Db :=
  disk_manager ← DiskManager.try_new major minor existing;
  let buffer_pool := BufferPoolManager.new BUFFER_POOL_SIZE disk_manager in
  let '(db, r) := load_catalog_data fuel (DiskManager.meta disk_manager)
                    (Mk (Catalog.new buffer_pool) 1 0) in
  _ ← r; Ok db.

(** A new file in a new directory. *)
Definition new_temp : result Db := new_on_disk None.

Definition snapshot_bytes : SR Db (list Z) :=
  _ ← flush fuel;
  gets (λ self, DiskManager.snapshot_bytes (BufferPoolManager.disk_manager (buffer_pool self))).

(** The bytes are written to a new file, which is opened. *)
Definition from_snapshot (bytes : list Z) : result Db := new_on_disk (Some bytes).
End disk.
End Database.

(** ** The database of the transaction manager *)
Definition plan_kind_of (p : LogicalPlan.t) : plan_kind :=
  match p with
  | LogicalPlan.CreateTable _ _ => PCreateTable
  | LogicalPlan.CreateIndex _ _ _ _ => PCreateIndex
  | LogicalPlan.Filter _ _ => PFilter
  | LogicalPlan.Insert _ _ _ _ => PInsert
  | LogicalPlan.Join _ _ _ _ _ => PJoin
  | LogicalPlan.Limit _ _ _ => PLimit
  | LogicalPlan.Project _ _ _ => PProject
  | LogicalPlan.TableScan _ _ _ _ => PTableScan
  | LogicalPlan.Sort _ _ _ => PSort
  | LogicalPlan.Values _ _ => PValues
  | LogicalPlan.EmptyRelation _ _ => PEmptyRelation
  | LogicalPlan.Aggregate _ _ _ _ => PAggregate
  | LogicalPlan.Update _ _ _ _ => PUpdate
  end.

(** [fuel] rounds for each loop of a call. *)
Definition disk_Database `{Platform} `{Sqlparser} (major minor : Z) (fuel : nat) :
    Transactions.Database (Database.t DiskManager.t) := {|
  db_new_temp := Database.new_temp major minor fuel;
  db_snapshot_bytes := Database.snapshot_bytes fuel;
  db_from_snapshot := Database.from_snapshot major minor fuel;
  db_create_logical_plan := λ sql self,
    (self, plan_kind_of <$> Database.create_logical_plan sql self);
  db_run := Database.run fuel;
  db_set_parallelism := Database.set_parallelism;
|}.
