(* ===== verification/DatabaseSpec.v ===== *)
(** * DatabaseSpec: running a query

    The pipeline from a statement to its rows. The optimizer keeps what makes a plan
    executable ([keeps]), so the planner, the optimizer, the physical planner and the
    engine compose: what a query returns is what its logical plan means. *)
From S2P Require Import Prelude CommonCodec Floats Text Scalar Schema TupleCodec TablePage IndexPage.
From S2P Require Import DiskPages DiskManager Replacer BufferPool PageStore TableHeap Index Catalog.
From S2P Require Import Expressions LogicalPlan Ast SqlPlanner Operators Meaning Typing Optimizer.
From S2P Require Import Execution Planner Scans ExecutionSpec SqlSpec Transactions Database.
Local Open Scope Z_scope.

(** ** The optimizer keeps plans executable *)
Module KeepsFacts.
Import QueryBounds Typing OptimizerFacts.

Section tables.
Context (tables : TableReference.t → option (list Tuple.t)).

(** [p'] is as well typed as [p], and takes no more. *)
Record keeps (p' p : LogicalPlan.t) : Prop := Keeps {
  keeps_typed : well_typed tables p → well_typed tables p';
  keeps_bounded : bounded tables p → bounded tables p';
  keeps_ordered : ordered p = true → ordered p' = true;
  keeps_repeatable : repeatable p = true → repeatable p' = true;
  keeps_rows : (max_rows tables p' ≤ max_rows tables p)%nat;
  keeps_ticks : (ticks tables p' ≤ ticks tables p)%nat;
  keeps_rounds : (rounds tables p' ≤ rounds tables p)%nat;
}.

Lemma keeps_trans p1 p2 p3 : keeps p1 p2 → keeps p2 p3 → keeps p1 p3.
Proof. intros [] []. split; auto; lia. Qed.

Lemma keeps_input p p' i i' :
  LogicalPlan.inputs p = [i] → LogicalPlan.with_new_inputs p [i'] = Ok p' →
  LogicalPlan.schema i' = LogicalPlan.schema i → keeps i' i → keeps p' p.
Proof.
  intros Hi Hp Hs [Ht Hb Ho Hr Hm Hk Hn].
  destruct p; try done; injection Hi as ->; injection Hp as <-; split; simpl; rewrite ?Hs; try done; try lia;
    try naive_solver.
  intros [Hc Hbi]. split; [lia|auto].
Qed.

#[export] Instance keeps_Preserved : Preserved keeps.
Proof.
  split.
  - by split.
  - apply keeps_trans.
  - apply keeps_input.
  - intros offset p. split; simpl; (done || lia).
  - intros p. split; simpl; (done || lia || tauto).
  - intros pl po cl co input (Hpl & Hpo & Hcl & _ & _). split; simpl; try (done || lia).
    intros (Hbp & Hbc & Hb). split; [|done]. intros n.
    destruct pl as [x|], cl as [y|]; simpl; intros [= <-]; unfold saturating_sub;
      try specialize (Hbp _ eq_refl); try specialize (Hbc _ eq_refl); lia.
  - intros limit offset order_by input n n'. split; simpl; done || lia.
Qed.

End tables.
End KeepsFacts.

(** ** Running a query *)
Module RunFacts.
Import QueryBounds QueryExecution Typing OptimizerFacts KeepsFacts.
Import PlainQuery FlatQuery PlannedFacts FlatFacts.

(** The rows of a heap have the types of its schema. *)
Lemma heap_rows_typed {D} `{Disk D} (h : TableHeap.t D) st cs n :
  TableHeapFacts.heap_ok h st cs n →
  Forall (ExpressionFacts.has_types (TableHeap.schema h)) (Snapshot.rows_in cs).
Proof.
  intros [_ [[_ Hc] _ _ _] _]. unfold Snapshot.rows_in, TableHeapSpec.rows_of.
  apply Forall_fmap, Forall_concat, Forall_fmap, Forall_forall. intros [p rows] Hin.
  apply list_elem_of_lookup in Hin as [k Hk]. destruct (Hc k p rows Hk) as (bytes & tp & _ & _ & [] & Hs & _).
  rewrite Hs in rep_rows. apply Forall_forall. intros x [i Hi]%list_elem_of_lookup.
  unfold TableHeapSpec.page_rows in Hi. rewrite list_lookup_imap in Hi. simpl in Hi.
  destruct (rows !! i) as [r|] eqn:Hri; [|done]. injection Hi as <-. simpl.
  apply ExpressionFacts.ok_has_types. by destruct (Forall_lookup_1 _ _ _ _ rep_rows Hri) as (_ & ? & _).
Qed.

Section run.
Context {D : Type} `{DiskLaws D} `{Platform} `{Sqlparser}.
Context (spawns : ∀ n, spawn_fails n = None) (orders : ∀ n g, hash_order n g ≡ₚ g).
Notation Db := (Database.t D).

(** The context the engine runs in. *)
Definition context (db : Db) : ExecutionContext.t D :=
  ExecutionContext.Mk (Database.catalog db) (Database.events db).

(** The database holds the tables of the snapshot, with [n] ticks left, and they have
    no index. *)
Record holds (sn : Snapshot.t) (n : nat) (db : Db) : Prop := Holds {
  holds_shown : Snapshot.shown sn n (context db);
  holds_spare : TableHeapFacts.spare_frames 1 (Snapshot.store sn);
  holds_covers : Snapshot.covers sn (Database.catalog db);
  holds_unindexed : unindexed sn (Database.catalog db);
}.

Lemma holds_tables sn n db :
  holds sn n db → catalog_tables (LogicalPlanner.Mk (Database.catalog db)) (Snapshot.tables sn).
Proof.
  intros [[_ _ _ Ht] _ Hcov _] table_ref handle Hh. destruct (Hcov _ _ Hh) as [cs Hcs].
  exists (Snapshot.rows_in cs). unfold Snapshot.tables. rewrite Hcs. split; [done|].
  destruct (Ht _ _ _ Hcs) as [_ Hok]. apply (heap_rows_typed _ _ _ _ Hok).
Qed.

(** The catalog is found in the snapshot. *)
Lemma holds_again sn n m db db' :
  holds sn n db → Snapshot.shown sn m (context db') → holds sn m db'.
Proof.
  intros [[_ Hs _ _] Hsp Hcov Hun] Hc'. pose proof (Snapshot.shown_schemas _ _ _ Hc') as Hs'.
  assert (∀ table_ref, Catalog.catalog_table table_ref (Database.catalog db')
    = Catalog.catalog_table table_ref (Database.catalog db)) as He.
  { intros table_ref. unfold Catalog.catalog_table. unfold context in *. cbn [ExecutionContext.catalog] in *.
    by rewrite Hs, Hs'. }
  split; [done|done| |].
  - intros table_ref handle. unfold Catalog.table_heap. rewrite He. apply Hcov.
  - intros table_ref x Hx. rewrite He. by apply (Hun _ x).
Qed.

(** The stages of [run]. *)
Lemma run_steps fuel sql db p p' pp c' r :
  Database.create_logical_plan sql db = Ok p → LogicalOptimizer.optimize LogicalOptimizer.new p = Ok p' →
  PhysicalPlanner.create_physical_plan (PhysicalPlanner.Mk (Database.catalog db) (Database.parallelism db)) p' = Ok pp →
  execute SqlDataType.sql_type_name fuel pp (context db) = (c', r) →
  Database.run fuel sql db
    = (Database.Mk (ExecutionContext.catalog c') (Database.parallelism db) (ExecutionContext.events c'), r).
Proof.
  intros Hlog Hopt Hpp Hrun. unfold Database.run, Database.ask. erewrite SR_bind_Ok by (by rewrite Hlog).
  erewrite SR_bind_Ok by (unfold lift; by rewrite Hopt). erewrite SR_bind_Ok by (by rewrite Hpp).
  unfold Database.on_context. unfold context in Hrun. by rewrite Hrun.
Qed.

Lemma run_query sql q db sn n fuel p :
  parse_sql sql = Ok [Ast.QueryStatement q] → flat_query true q = true →
  LogicalPlanner.plan_query (LogicalPlanner.Mk (Database.catalog db)) q = Ok p →
  holds sn (ticks (Snapshot.tables sn) p + n) db →
  Z.of_nat (max_rows (Snapshot.tables sn) p) < 2 ^ 63 → (enough_fuel sn p ≤ fuel)%nat →
  ∃ db' o o', Database.run fuel sql db = (db', result_of o') ∧ means (Snapshot.tables sn) p o ∧
    approximates o o' ∧ ended o' ≠ Crashed ∧ holds sn n db'.
Proof.
  intros Hsql Hq Hp Hdb Hm Hf. pose proof (holds_tables _ _ _ Hdb) as Htables.
  destruct (query_runnable _ _ Htables q p (flat_plain q true Hq) Hp) as [Hr Ht Hb].
  destruct (flat_query_plan _ q true p Hq Hp) as (Hl & Hw & Hrep).
  destruct (optimize_passes_sound (Snapshot.tables sn) (keeps (Snapshot.tables sn)) 3 p) as (p' & Hopt & Hbetter);
    [done|].
  destruct Hbetter as [Himp _ _ Hr' _ _ Hk]. destruct Hk as [Ht' Hb' _ Hrep' Hrows Hticks Hrounds].
  destruct (ExecutionProperties.runs_executes SqlDataType.sql_type_name spawns orders sn p' (context db) n
    (Database.parallelism db) fuel) as (pp & c' & o' & Hpp & Hrun & Ho' & Hne & Hc').
  - split; [by destruct Hdb|done|auto..|by destruct Hdb].
  - eapply Snapshot.shown_fewer; [|by destruct Hdb]. lia.
  - unfold enough_fuel in *. lia.
  - destruct (Himp o' Ho') as (o & Ho & A).
    exists (Database.Mk (ExecutionContext.catalog c') (Database.parallelism db) (ExecutionContext.events c')), o, o'.
    split_and!; [|done..|eapply (holds_again sn); [exact Hdb|by destruct c']].
    eapply run_steps; [|exact Hopt|exact Hpp|exact Hrun]. unfold Database.create_logical_plan. rewrite Hsql. exact Hp.
Qed.

End run.
End RunFacts.

(** ** Properties *)
Module DatabaseProperties.
Import QueryBounds QueryExecution FlatQuery RunFacts.

Section properties.
Context {D : Type} `{DiskLaws D} `{Platform} `{Sqlparser}.
Context (spawns : ∀ n, spawn_fails n = None) (orders : ∀ n g, hash_order n g ≡ₚ g).

(** C3: running a query with flat subqueries returns what it means. For a select statement
    with no limit and no aggregate in its subqueries ([flat_query]), over tables without an
    index, of a size that the counters hold, when the threads of a scan start: it is refused when the planner refuses it (and
    panics when the planner does); otherwise [run], through the optimizer, the physical
    planner and the engine, with any number of workers, returns the rows of an outcome that
    the logical plan means, or its error, or goes on where the plan could fail. It does not
    panic, ends within the fuel, and leaves the tables as they were, so that other
    statements can follow. (With a limit below a join the optimizer joins the left input
    with itself: [OptimizerSpec.optimizer_below_join]; with an aggregate on the right of an
    outer join the engine repeats rows: [RestartDemo.restart_repeats_matched_row].) *)
Theorem run_query_refines sql q (db : Database.t D) sn n fuel :
  parse_sql sql = Ok [Ast.QueryStatement q] → flat_query true q = true →
  match LogicalPlanner.plan_query (LogicalPlanner.Mk (Database.catalog db)) q with
  | Ok p =>
      holds sn (ticks (Snapshot.tables sn) p + n) db →
      Z.of_nat (max_rows (Snapshot.tables sn) p) < 2 ^ 63 → (enough_fuel sn p ≤ fuel)%nat →
      ∃ db' o o', Database.run fuel sql db = (db', result_of o') ∧ means (Snapshot.tables sn) p o ∧
        approximates o o' ∧ ended o' ≠ Crashed ∧ holds sn n db'
  | Err e => Database.run fuel sql db = (db, Err e)
  | Panic => Database.run fuel sql db = (db, Panic)
  end.
Proof.
  intros Hsql Hq. destruct (LogicalPlanner.plan_query _ q) as [p|e|] eqn:Hp.
  - intros. by eapply run_query.
  - unfold Database.run, Database.ask, Database.create_logical_plan, mbind, SR_bind. rewrite Hsql. simpl. by rewrite Hp.
  - unfold Database.run, Database.ask, Database.create_logical_plan, mbind, SR_bind. rewrite Hsql. simpl. by rewrite Hp.
Qed.

End properties.

(** *** A query on a small database *)
Import ExecutionDemo.
#[local] Existing Instances demo_platform SqlProperties.demo_parser.

Definition demo_plan : LogicalPlan.t :=
  Eval vm_compute in
    match LogicalPlanner.plan_query (LogicalPlanner.Mk SqlProperties.demo_catalog) SqlProperties.demo_query with
    | Ok p => p
    | _ => LogicalPlan.EmptyRelation false Schema.empty
    end.

Lemma demo_planned (catalog : Catalog.t DiskManager.t) :
  TableHandle.schema <$> Catalog.table_heap demo_ref catalog = Ok TablePageSpec.demo_schema →
  LogicalPlanner.plan_query (LogicalPlanner.Mk catalog) SqlProperties.demo_query = Ok demo_plan.
Proof.
  intros Hs. assert (LogicalPlanner.plan_table (LogicalPlanner.Mk catalog) [SqlProperties.ident "t"]
    = Ok (LogicalPlan.TableScan demo_ref TablePageSpec.demo_schema [] None)) as Ht.
  { unfold LogicalPlanner.plan_table. simpl. destruct (Catalog.table_heap demo_ref catalog) as [h| |] eqn:Hh;
      [|done..]. injection Hs as Hs. unfold demo_ref in Hh. rewrite Hh. simpl. by rewrite Hs. }
  unfold SqlProperties.demo_query, SqlProperties.table. simpl. rewrite Ht. reflexivity.
Qed.

Lemma run_query_refines_witness :
  ∃ sn (db : Database.t DiskManager.t) db' o o', Snapshot.tables sn demo_ref = Some demo_rows.*2 ∧
    Database.run 100 "query" db = (db', result_of o') ∧ means (Snapshot.tables sn) demo_plan o ∧
    approximates o o'.
Proof.
  destruct demo_database as (sn & c & Hc & Hsp & Ht & Hun & Hcov & Hs & _).
  set (db := Database.Mk (ExecutionContext.catalog c) 4 (ExecutionContext.events c)).
  pose proof (run_query_refines demo_spawns demo_orders "query" SqlProperties.demo_query db sn 0 100
    eq_refl eq_refl) as Hrun.
  change (Database.catalog db) with (ExecutionContext.catalog c) in Hrun.
  rewrite (demo_planned _ Hs) in Hrun. destruct Hrun as (db' & o & o' & Hrun & Ho & A & _).
  - split; [|done..]. eapply Snapshot.shown_fewer; [|by destruct c]. simpl. unfold table_size. fold demo_ref. rewrite !Ht. simpl. lia.
  - simpl. unfold table_size. fold demo_ref. rewrite !Ht. simpl. lia.
  - unfold enough_fuel. simpl. unfold table_size. fold demo_ref. rewrite !Ht. simpl. lia.
  - by exists sn, db, db', o, o'.
Defined.

End DatabaseProperties.
