(* ===== verification/Writes.v ===== *)
(** * Writes: changing one table

    A statement that writes works on the pages of one table. Tables have pages of their
    own ([separate]), so what a method of a heap does to its rows is what happens to the
    database: the table has the new rows, and the others are as they were. *)
From S2P Require Import Prelude CommonCodec Floats Text Scalar Schema TupleCodec TablePage IndexPage.
From S2P Require Import DiskPages DiskManager Replacer BufferPool PageStore TableHeap Index Catalog.
From S2P Require Import Expressions LogicalPlan Operators Meaning Typing Execution Planner Streams Scans ExecutionSpec.
Local Open Scope Z_scope.

(** ** Writing one table of a snapshot *)
Module SnapshotWrite.
Import TableHeapFacts TableHeapSpec HeapRows Snapshot QueryExecution.

(** References to the same table. *)
Definition same_table (r1 r2 : TableReference.t) : Prop :=
  schema_name r1 = schema_name r2 ∧ TableReference.table r1 = TableReference.table r2.
#[export] Instance same_table_dec r1 r2 : Decision (same_table r1 r2).
Proof. apply _. Defined.
#[export] Instance same_table_equiv : Equivalence same_table.
Proof. unfold same_table. split; [by intros r|by intros r1 r2 [-> ->]|]. intros r1 r2 r3 [-> ->] [-> ->]. done. Qed.

(** Tables have pages of their own. *)
Definition separate (sn : Snapshot.t) : Prop :=
  ∀ r1 r2 x1 x2, find sn r1 = Some x1 → find sn r2 = Some x2 → ¬ same_table r1 r2 →
    ∀ p, p ∈ x1.2.*1 → p ∉ x2.2.*1.

(** The table of [table_ref] has other rows, in a store and a catalog to match. *)
Definition with_table (table_ref : TableReference.t) (x : TableHandle.t * pages_rows) (st : PageStore.t)
    (room : nat) (schemas : gmap string CatalogSchema.t) (sn : Snapshot.t) : Snapshot.t :=
  Snapshot.Mk st room schemas (λ r, if bool_decide (same_table r table_ref) then Some x else find sn r).

(** The rows of [ts] are appended to the table of [table_ref], and no other table
    changes. *)
Definition appended (table_ref : TableReference.t) (ts : list Tuple.t) (sn sn' : Snapshot.t) : Prop :=
  ∀ r, tables sn' r = if bool_decide (same_table r table_ref) then (λ l, l ++ ts) <$> tables sn r else tables sn r.

(** The rows of the table of [table_ref] are [l], and no other table changed. *)
Definition with_rows (table_ref : TableReference.t) (l : list Tuple.t) (sn sn' : Snapshot.t) : Prop :=
  ∀ r, tables sn' r = if bool_decide (same_table r table_ref) then Some l else tables sn r.

(** The other tables are where they were. *)
Definition others_found (table_ref : TableReference.t) (sn sn' : Snapshot.t) : Prop :=
  ∀ r, ¬ same_table r table_ref → find sn' r = find sn r.

(** So are the pages that are not of the table, the references to pages and the frames. *)
Definition pages_kept (table_ref : TableReference.t) (sn sn' : Snapshot.t) : Prop :=
  PageStore.refs (store sn') = PageStore.refs (store sn) ∧
  PageStore.frames (store sn') = PageStore.frames (store sn) ∧
  ∀ p, is_Some (PageStore.pages (store sn) !! p) →
    (∀ x, find sn table_ref = Some x → p ∉ x.2.*1) →
    PageStore.pages (store sn') !! p = PageStore.pages (store sn) !! p.

Lemma with_table_others table_ref x st room schemas sn :
  others_found table_ref sn (with_table table_ref x st room schemas sn).
Proof. intros r Hr. cbn [find with_table]. by rewrite bool_decide_false. Qed.

Lemma with_table_named table_ref x st room schemas sn :
  (∀ r1 r2, same_table r1 r2 → find sn r1 = find sn r2) →
  ∀ r1 r2, same_table r1 r2 →
    find (with_table table_ref x st room schemas sn) r1 = find (with_table table_ref x st room schemas sn) r2.
Proof.
  intros Hnam r1 r2 Hr. cbn [find with_table].
  assert (same_table r1 table_ref ↔ same_table r2 table_ref) as Hiff by (by rewrite Hr).
  rewrite (bool_decide_ext _ _ Hiff). case_bool_decide; [done|by apply Hnam].
Qed.

Lemma with_table_separate table_ref (x : TableHandle.t * pages_rows) st room schemas sn :
  separate sn →
  (∀ r y, find sn r = Some y → ¬ same_table r table_ref → ∀ p, p ∈ y.2.*1 → p ∉ x.2.*1) →
  separate (with_table table_ref x st room schemas sn).
Proof.
  intros Hsep Hother r1 r2 x1 x2. cbn [find with_table].
  repeat case_bool_decide; intros Hx1 Hx2 Hne p; simplify_eq/=.
  - destruct Hne. by etrans; [|symmetry].
  - intros Hp Hp2. by apply (Hother _ _ Hx2 ltac:(done) p Hp2).
  - by apply (Hother _ _ Hx1).
  - by apply (Hsep r1 r2).
Qed.

Lemma appended_refl table_ref sn : appended table_ref [] sn sn.
Proof. intros r. case_bool_decide; [|done]. destruct (tables sn r); simpl; [by rewrite app_nil_r|done]. Qed.

Lemma appended_trans table_ref ts1 ts2 sn1 sn2 sn3 :
  appended table_ref ts1 sn1 sn2 → appended table_ref ts2 sn2 sn3 → appended table_ref (ts1 ++ ts2) sn1 sn3.
Proof.
  intros H12 H23 r. rewrite H23, H12. case_bool_decide; [|done].
  destruct (tables sn1 r); simpl; [by rewrite (assoc_L (++))|done].
Qed.

Lemma rows_in_concat cs : rows_in cs = concat ((λ c, c.2.*2) <$> cs).
Proof.
  unfold rows_in, rows_of. etrans; [apply concat_map|]. f_equal. etrans; [symmetry; apply list_fmap_compose|].
  apply list_fmap_ext. intros _ [p rows] _. simpl. unfold page_rows. simpl. rewrite fmap_imap.
  rewrite <- (imap_const snd rows). by apply imap_ext.
Qed.

(** An insertion appends its row. *)
Lemma insert_rows_in cs meta tup r cs' :
  step cs (Insert meta tup) (Ok (Rid r)) cs' → rows_in cs' = rows_in cs ++ [tup].
Proof.
  intros Hs. rewrite !rows_in_concat. inversion Hs as [k p rows ? ? Hk Hlast|k p rows ? ? q Hk Hlast Hfull| | | | | | |]; subst.
  - assert (cs = take k cs ++ [(p, rows)]) as Hcs.
    { rewrite <- (take_drop k cs) at 1. f_equal. rewrite (drop_S _ _ _ Hk), drop_ge by lia. done. }
    rewrite Hcs at 1. rewrite insert_app_r_alt by (rewrite length_take; lia).
    rewrite length_take, Nat.min_l, Nat.sub_diag by (apply lookup_lt_Some in Hk; lia).
    rewrite Hcs at 2. rewrite !fmap_app, !concat_app. simpl. rewrite !app_nil_r, fmap_app. by rewrite (assoc_L (++)).
  - by rewrite fmap_app, concat_app.
Qed.

(** A row that a table page can hold. *)
Definition storable (s : Schema.t) (t : Tuple.t) : Prop :=
  TablePageFacts.row_ok s (EMPTY_TUPLE_META, t) ∧
  TablePageFacts.space [(EMPTY_TUPLE_META, t)] ≤ TablePageFacts.page_end.

Section context.
Context {D : Type} `{DiskLaws D}.
Notation Ctx := (ExecutionContext.t D).

(** A context whose tables can be written: the snapshot has all of them by whatever
    reference, they have no index, and two frames of the pool are free. *)
Record writable (sn : Snapshot.t) (n : nat) (c : Ctx) : Prop := Writable {
  writable_shown : shown sn n c;
  writable_covers : covers sn (ExecutionContext.catalog c);
  writable_unindexed : unindexed sn (ExecutionContext.catalog c);
  writable_named : ∀ r1 r2, same_table r1 r2 → find sn r1 = find sn r2;
  writable_separate : separate sn;
  writable_spare : spare_frames 2 (store sn);
}.

Lemma catalog_table_alter table_ref f s r (cat : Catalog.t D) :
  Catalog.catalog_table r (Catalog.alter_table (schema_name table_ref) (TableReference.table table_ref) f
    (Catalog.set_pool s cat))
  = if bool_decide (same_table r table_ref) then f <$> Catalog.catalog_table r cat else Catalog.catalog_table r cat.
Proof.
  unfold Catalog.catalog_table, Catalog.alter_table. cbn [Catalog.schemas Catalog.set_schemas Catalog.set_pool].
  case_bool_decide as Hd.
  - destruct Hd as [-> ->]. rewrite lookup_alter_eq.
    destruct (Catalog.schemas cat !! schema_name table_ref) as [cs|]; simpl; [|done].
    rewrite lookup_alter_eq. by destruct (CatalogSchema.tables cs !! _).
  - destruct (decide (schema_name r = schema_name table_ref)) as [Hs|Hs]; [|by rewrite lookup_alter_ne].
    rewrite Hs, lookup_alter_eq. destruct (Catalog.schemas cat !! schema_name table_ref) as [cs|]; simpl; [|done].
    rewrite lookup_alter_ne; [done|]. intros Ht. by apply Hd.
Qed.

Lemma same_catalog_table r table_ref (cat : Catalog.t D) :
  same_table r table_ref → Catalog.catalog_table r cat = Catalog.catalog_table table_ref cat.
Proof. intros [H1 H2]. unfold Catalog.catalog_table. by rewrite H1, H2. Qed.

Lemma table_heap_found table_ref (cat : Catalog.t D) handle :
  Catalog.table_heap table_ref cat = Ok handle →
  ∃ ct, Catalog.catalog_table table_ref cat = Ok ct ∧ CatalogTable.table ct = handle ∧
    Catalog.find_table (schema_name table_ref) (TableReference.table table_ref) cat = Some ct.
Proof.
  unfold Catalog.table_heap, Catalog.catalog_table, Catalog.find_table.
  destruct (Catalog.schemas cat !! schema_name table_ref) as [x|]; [|done]. simpl.
  destruct (CatalogSchema.tables x !! _) as [ct|]; [|done]. intros [= <-]. by exists ct.
Qed.

(** A heap on pages that did not change. *)
Lemma heap_ok_frame (h : TableHeap.t D) st cs n s st' n' :
  heap_ok h st cs n → PageStore.shows s st' n' → PageStore.refs st' = PageStore.refs st →
  (∀ p, p ∈ cs.*1 → PageStore.pages st' !! p = PageStore.pages st !! p) →
  heap_ok (TableHeap.set_pool s h) st' cs n'.
Proof.
  intros [_ Hl Hf] Hs Hr Hp. split; [done| |].
  - apply listed_pool. by eapply listed_frame.
  - eapply Forall_impl; [exact Hf|]. intros x. unfold PageStore.free_page. by rewrite Hr.
Qed.

Lemma heap_ok_pages (h : TableHeap.t D) st cs n p :
  heap_ok h st cs n → p ∈ cs.*1 → is_Some (PageStore.pages st !! p).
Proof.
  intros [_ [[_ Hc] _ _ _] _] ([q rows] & -> & [k Hk]%list_elem_of_lookup)%list_elem_of_fmap.
  destruct (Hc k q rows Hk) as (bytes & tp & Hb & _). by eexists.
Qed.

(** Writing a table leaves the pages of the others. *)
Lemma separate_frame sn table_ref handle (cs cs' : pages_rows) st' r (x : TableHandle.t * pages_rows) p :
  separate sn → find sn table_ref = Some (handle, cs) → find sn r = Some x → ¬ same_table r table_ref →
  (∀ p, p ∈ x.2.*1 → is_Some (PageStore.pages (store sn) !! p)) →
  (∀ p, p ∈ cs'.*1 → p ∈ cs.*1 ∨ PageStore.pages (store sn) !! p = None) →
  (∀ p, p ∉ cs'.*1 → PageStore.pages st' !! p = PageStore.pages (store sn) !! p) →
  p ∈ x.2.*1 → p ∉ cs'.*1 ∧ PageStore.pages st' !! p = PageStore.pages (store sn) !! p.
Proof.
  intros Hsep Hf Hx Hne Hin Hnew Hframe Hp. assert (p ∉ cs'.*1) as Hn; [|by split; [|apply Hframe]].
  intros [Hc|Hc]%Hnew.
  - by apply (Hsep _ _ _ _ Hx Hf Hne p).
  - destruct (Hin p Hp) as [? Hb]. congruence.
Qed.

(** The catalog after a method of the heap of a table. *)
Definition written (table_ref : TableReference.t) (h : TableHeap.t D) (cat : Catalog.t D) : Catalog.t D :=
  Catalog.alter_table (schema_name table_ref) (TableReference.table table_ref)
    (CatalogTable.set_table (Catalog.handle_of h)) (Catalog.set_pool (TableHeap.buffer_pool h) cat).

Lemma table_heap_written table_ref h cat handle r :
  Catalog.table_heap table_ref cat = Ok handle →
  Catalog.table_heap r (written table_ref h cat)
    = if bool_decide (same_table r table_ref) then Ok (Catalog.handle_of h) else Catalog.table_heap r cat.
Proof.
  intros (ct & Hct & _)%table_heap_found. unfold Catalog.table_heap, written. rewrite catalog_table_alter.
  case_bool_decide as Hd; [|done]. by rewrite (same_catalog_table _ _ _ Hd), Hct.
Qed.

Lemma covers_written sn table_ref h cat handle cs st n schemas :
  covers sn cat → Catalog.table_heap table_ref cat = Ok handle →
  covers (with_table table_ref (Catalog.handle_of h, cs) st n schemas sn) (written table_ref h cat).
Proof.
  intros Hcov Hth r hd. rewrite (table_heap_written _ _ _ _ _ Hth). cbn [find with_table].
  case_bool_decide; [|apply Hcov]. intros [= <-]. by exists cs.
Qed.

Lemma unindexed_written sn table_ref h cat handle cs cs' st n schemas :
  unindexed sn cat → find sn table_ref = Some (handle, cs) →
  unindexed (with_table table_ref (Catalog.handle_of h, cs') st n schemas sn) (written table_ref h cat).
Proof.
  intros Hun Hfind r x Hx. unfold written. rewrite catalog_table_alter. cbn [find with_table] in Hx.
  case_bool_decide as Hd; [|by apply (Hun _ x)].
  destruct (Hun _ _ Hfind) as (ct & Hct & Hi). rewrite (same_catalog_table _ _ _ Hd), Hct. by eexists.
Qed.

(** The snapshot of the catalog after the method. *)
Lemma shown_written sn n (c : Ctx) table_ref handle cs h st' n' cs' :
  let cat' := written table_ref h (ExecutionContext.catalog c) in
  shown sn (2 + n) c → find sn table_ref = Some (handle, cs) → heap_ok h st' cs' n' →
  now h ≤ BufferPoolFacts.timestamp (pool c) + 2 → PageStore.refs st' = PageStore.refs (store sn) →
  (∀ r x, find sn r = Some x → ¬ same_table r table_ref → ∀ p, p ∈ x.2.*1 →
    PageStore.pages st' !! p = PageStore.pages (store sn) !! p) →
  shown (with_table table_ref (Catalog.handle_of h, cs') st' n' (Catalog.schemas cat') sn) n
    (ExecutionContext.Mk cat' (ExecutionContext.events c)).
Proof.
  intros cat' Hsh Hfind Hok Hts Hrefs Hother. destruct (shown_tables _ _ _ Hsh _ _ _ Hfind) as [Hth _].
  split; [apply (heap_shows _ _ _ _ Hok)|done| |].
  - pose proof (shown_clock _ _ _ Hsh) as Hcl. unfold now, pool in *. simpl in *. lia.
  - intros r hd cs2 Hx. cbn [find with_table ExecutionContext.catalog] in *. unfold cat'.
    rewrite (table_heap_written _ _ _ _ _ Hth). case_bool_decide as Hd.
    + injection Hx as <- <-. split; [done|]. by destruct h.
    + destruct (shown_tables _ _ _ Hsh _ _ _ Hx) as [Hth2 Hok2]. split; [exact Hth2|].
      apply (heap_ok_frame _ _ _ _ (TableHeap.buffer_pool h) st' n' Hok2); [apply (heap_shows _ _ _ _ Hok)|done|].
      intros p Hp. by apply (Hother r (hd, cs2)).
Qed.

(** An empty table on a page that was not used. *)
Lemma new_table_writable sn n k (c : Ctx) table_ref name (h : TableHeap.t D) st' (cat' : Catalog.t D) :
  let p := TableHeap.first_page_id h in
  writable sn (1 + n) c → heap_ok h st' [(p, [])] k → PageStore.refs st' = PageStore.refs (store sn) →
  PageStore.frames st' = PageStore.frames (store sn) → now h ≤ BufferPoolFacts.timestamp (pool c) + 1 →
  PageStore.pages (store sn) !! p = None →
  (∀ x, x ≠ p → PageStore.pages st' !! x = PageStore.pages (store sn) !! x) →
  Catalog.buffer_pool cat' = TableHeap.buffer_pool h →
  (∀ r ct, Catalog.catalog_table r cat' = Ok ct ↔
    if bool_decide (same_table r table_ref) then ct = CatalogTable.new name (Catalog.handle_of h)
    else Catalog.catalog_table r (ExecutionContext.catalog c) = Ok ct) →
  writable (with_table table_ref (Catalog.handle_of h, [(p, [])]) st' k (Catalog.schemas cat') sn) n
    (ExecutionContext.Mk cat' (ExecutionContext.events c)).
Proof.
  intros p [Hsh Hcov Hun Hnam Hsep Hsp] Hok Hrefs Hframes Hts Hnew Hframe Hpool Hcat.
  assert (∀ r x, find sn r = Some x → p ∉ x.2.*1) as Hfresh.
  { intros r [hd cs] Hx Hp. destruct (shown_tables _ _ _ Hsh _ _ _ Hx) as [_ Hok2].
    destruct (heap_ok_pages _ _ _ _ _ Hok2 Hp) as [? Hb]. congruence. }
  split.
  - split; [unfold pool; cbn [ExecutionContext.catalog]; rewrite Hpool; apply (heap_shows _ _ _ _ Hok)|done| |].
    + pose proof (shown_clock _ _ _ Hsh). unfold now, pool in *. cbn [ExecutionContext.catalog] in *. rewrite Hpool. lia.
    + intros r hd cs Hx. cbn [find with_table ExecutionContext.catalog] in *. unfold Catalog.table_heap, Catalog.heap_of.
      case_bool_decide as Hd.
      * injection Hx as <- <-. rewrite (proj2 (Hcat r _)) by (by rewrite bool_decide_true). rewrite Hpool. by destruct h.
      * destruct (shown_tables _ _ _ Hsh _ _ _ Hx) as [Hth Hok2].
        destruct (table_heap_found _ _ _ Hth) as (ct & Hct & Htab & _).
        rewrite (proj2 (Hcat r ct)) by (by rewrite bool_decide_false). split; [by rewrite <- Htab|]. rewrite Hpool.
        apply (heap_ok_frame _ _ _ _ (TableHeap.buffer_pool h) st' k Hok2); [apply (heap_shows _ _ _ _ Hok)|done|].
        intros q Hq. apply Hframe. intros ->. by apply (Hfresh _ _ Hx).
  - intros r hd (ct & Hct%Hcat & <- & _)%table_heap_found. cbn [find with_table].
    case_bool_decide; [subst; by eexists|]. apply Hcov. unfold Catalog.table_heap. by rewrite Hct.
  - intros r x Hx. cbn [find with_table ExecutionContext.catalog] in *. case_bool_decide as Hd.
    + exists (CatalogTable.new name (Catalog.handle_of h)). split; [apply Hcat; by rewrite bool_decide_true|done].
    + destruct (Hun _ _ Hx) as (ct & Hct & Hi). exists ct. split; [apply Hcat; by rewrite bool_decide_false|done].
  - by apply with_table_named.
  - apply with_table_separate; [done|]. intros r x Hx _ q Hq. simpl.
    intros ->%list_elem_of_singleton. by apply (Hfresh _ _ Hx).
  - unfold spare_frames in *. simpl. by rewrite Hrefs, Hframes.
Qed.

(** Only the pool and the clock changed. *)
Lemma writable_pool sn n n' (c : Ctx) s :
  writable sn n c → PageStore.shows s (store sn) (room sn) → BufferPoolFacts.timestamp s + Z.of_nat n' < 2 ^ 63 →
  writable sn n' (with_pool s c).
Proof. intros [] Hs Hts. split; [by eapply shown_pool|done..]. Qed.

(** Pages that are not of a table changed. *)
Definition with_store (st : PageStore.t) (room : nat) (sn : Snapshot.t) : Snapshot.t :=
  Snapshot.Mk st room (Snapshot.schemas sn) (find sn).

Lemma writable_store sn n n' (c : Ctx) s st' k :
  writable sn n c → PageStore.shows s st' k → BufferPoolFacts.timestamp s + Z.of_nat n' < 2 ^ 63 →
  PageStore.refs st' = PageStore.refs (store sn) → PageStore.frames st' = PageStore.frames (store sn) →
  (∀ r x p, find sn r = Some x → p ∈ x.2.*1 → PageStore.pages st' !! p = PageStore.pages (store sn) !! p) →
  writable (with_store st' k sn) n' (with_pool s c).
Proof.
  intros [[Hst Hsc Hcl Ht] Hcov Hun Hnam Hsep Hsp] Hs Hts Hrefs Hframes Hpages.
  split; [|done..|unfold spare_frames in *; simpl; by rewrite Hrefs, Hframes].
  split; [done..|]. intros r hd cs Hx. destruct (Ht r hd cs Hx) as [Hth Hok]. split; [done|].
  apply (heap_ok_frame _ _ _ _ s st' k Hok); [done..|]. intros p Hp. by apply (Hpages r (hd, cs)).
Qed.

Lemma writable_fewer sn n n' (c : Ctx) : (n' ≤ n)%nat → writable sn n c → writable sn n' c.
Proof. intros Hn []. split; [by eapply shown_fewer|done..]. Qed.

(** A schema without tables. *)
Lemma new_schema_writable sn n (c : Ctx) name :
  let cat := ExecutionContext.catalog c in
  let schemas' := <[name := CatalogSchema.new name]> (Catalog.schemas cat) in
  writable sn n c → Catalog.schemas cat !! name = None →
  writable (Snapshot.Mk (store sn) (room sn) schemas' (find sn)) n
    (ExecutionContext.Mk (Catalog.set_schemas schemas' cat) (ExecutionContext.events c)).
Proof.
  intros cat schemas' [Hsh Hcov Hun Hnam Hsep Hsp] Hnew.
  assert (∀ r ct, Catalog.catalog_table r (Catalog.set_schemas schemas' cat) = Ok ct ↔ Catalog.catalog_table r cat = Ok ct) as Hcat.
  { intros r ct. unfold Catalog.catalog_table, schemas'. cbn [Catalog.schemas Catalog.set_schemas].
    destruct (decide (name = schema_name r)) as [->|Hne]; [|by rewrite lookup_insert_ne].
    rewrite lookup_insert_eq, Hnew. simpl. by rewrite lookup_empty. }
  split; [| | |done..].
  - destruct Hsh as [Hst Hs Hcl Ht]. split; [done..|]. intros r hd cs Hx. destruct (Ht _ _ _ Hx) as [Hth Hok].
    split; [|done]. destruct (table_heap_found _ _ _ Hth) as (ct & Hct & <- & _). unfold Catalog.table_heap.
    cbn [ExecutionContext.catalog]. by rewrite (proj2 (Hcat r ct) Hct).
  - intros r hd (ct & Hct%Hcat & <- & _)%table_heap_found. apply Hcov. unfold Catalog.table_heap. fold cat. by rewrite Hct.
  - intros r x Hx. destruct (Hun _ _ Hx) as (ct & Hct & Hi). exists ct. split; [by apply Hcat|done].
Qed.

(** What a method of the heap of a table leaves, on pages of its own, is the table. *)
Lemma heap_written {A} sn n k (c : Ctx) table_ref handle cs (m : SR (TableHeap.t D) A) h' r cs' :
  let h := Catalog.heap_of (ExecutionContext.catalog c) handle in
  writable sn (2 + n) c → find sn table_ref = Some (handle, cs) → m h = (h', r) → leaves h (store sn) k 2 h' cs' →
  (∀ x, x ∈ cs'.*1 → x ∈ cs.*1 ∨ PageStore.pages (store sn) !! x = None) →
  let cat' := written table_ref h' (ExecutionContext.catalog c) in
  ∃ sn', Catalog.on_heap (schema_name table_ref) (TableReference.table table_ref) m (ExecutionContext.catalog c)
      = (cat', r) ∧
    writable sn' n (ExecutionContext.Mk cat' (ExecutionContext.events c)) ∧ (k ≤ room sn')%nat ∧
    find sn' table_ref = Some (Catalog.handle_of h', cs') ∧ with_rows table_ref (rows_in cs') sn sn' ∧
    others_found table_ref sn sn' ∧ pages_kept table_ref sn sn'.
Proof.
  intros h [Hsh Hcov Hun Hnam Hsep Hsp] Hfind Hrun Hl Hnew cat'.
  destruct (shown_tables _ _ _ Hsh _ _ _ Hfind) as [Hth Hok]. fold h in Hok.
  destruct Hl as (st' & n' & Hok' & Hn' & Hts & Hsch & Hrefs & Hframes & Hframe).
  assert (∀ r x, find sn r = Some x → ¬ same_table r table_ref → ∀ p, p ∈ x.2.*1 →
    p ∉ cs'.*1 ∧ PageStore.pages st' !! p = PageStore.pages (store sn) !! p) as Hother.
  { intros r2 [hd cs2] Hx Hne p Hp.
    apply (separate_frame sn table_ref handle cs cs' st' r2 (hd, cs2) p); [done..| |done|done|done].
    intros q Hq. destruct (shown_tables _ _ _ Hsh _ _ _ Hx) as [_ Hok2]. by eapply heap_ok_pages. }
  exists (with_table table_ref (Catalog.handle_of h', cs') st' n' (Catalog.schemas cat') sn).
  split_and!; [| |done|cbn [find with_table]; by rewrite bool_decide_true| |apply with_table_others|].
  - destruct (table_heap_found _ _ _ Hth) as (ct & Hct & Htab & Hfound). unfold Catalog.on_heap.
    rewrite Hfound, Htab. fold h. by rewrite Hrun.
  - split.
    + eapply shown_written; [done|done|done|done|done|]. intros r2 x Hx Hne p Hp. by apply (Hother r2 x).
    + by eapply covers_written.
    + by eapply unindexed_written.
    + by apply with_table_named.
    + apply with_table_separate; [done|]. intros r2 x Hx Hne p Hp. by apply (Hother r2 x).
    + unfold spare_frames in *. simpl. by rewrite Hrefs, Hframes.
  - intros r2. unfold tables. cbn [find with_table]. by case_bool_decide.
  - split_and!; [done..|]. intros p [b Hb] Hp. apply Hframe. intros [Hc|Hc]%Hnew; [by apply (Hp _ Hfind)|congruence].
Qed.

(** A row is put at the end of a table. *)
Lemma insert_tuple_writable sn n k (c : Ctx) table_ref handle cs t :
  writable sn (2 + n) c → find sn table_ref = Some (handle, cs) → room sn = S k →
  TablePageFacts.row_ok (TableHandle.schema handle) (EMPTY_TUPLE_META, t) →
  TablePageFacts.space [(EMPTY_TUPLE_META, t)] ≤ TablePageFacts.page_end →
  ∃ cat' rid handle' cs' sn',
    Catalog.on_heap (schema_name table_ref) (TableReference.table table_ref)
      (TableHeap.insert_tuple EMPTY_TUPLE_META t) (ExecutionContext.catalog c) = (cat', Ok rid) ∧
    writable sn' n (ExecutionContext.Mk cat' (ExecutionContext.events c)) ∧ (k ≤ room sn')%nat ∧
    find sn' table_ref = Some (handle', cs') ∧ TableHandle.schema handle' = TableHandle.schema handle ∧
    appended table_ref [t] sn sn' ∧ others_found table_ref sn sn' ∧ pages_kept table_ref sn sn'.
Proof.
  intros Hw Hfind Hroom Hrow Hspace. pose proof (writable_shown _ _ _ Hw) as Hsh.
  destruct (shown_tables _ _ _ Hsh _ _ _ Hfind) as [Hth Hok]. rewrite Hroom in Hok.
  destruct (insert_Ok _ _ _ k EMPTY_TUPLE_META t Hok) as (h' & rid & cs' & Hrun & Hstep & Hl & Hnew);
    [by constructor|apply Hw| |].
  { pose proof (shown_clock _ _ _ Hsh) as Hcl. unfold now, pool in *. simpl. lia. }
  destruct (heap_written sn n k c table_ref handle cs _ h' (Ok rid) cs' Hw Hfind Hrun Hl Hnew)
    as (sn' & Hon & Hw' & Hk & Hf' & Hrows & Hother & Hkept).
  do 5 eexists. split_and!; [exact Hon|exact Hw'|done|exact Hf'| | |exact Hother|exact Hkept].
  - by destruct Hl as (_ & _ & _ & _ & _ & Hsch & _).
  - rewrite (insert_rows_in _ _ _ _ _ Hstep) in Hrows. intros r. rewrite Hrows. case_bool_decide as Hd; [|done].
    unfold tables. by rewrite (writable_named _ _ _ Hw _ _ Hd), Hfind.
Qed.

End context.
End SnapshotWrite.

(** ** A small database *)
Module WriteDemo.
Import TableHeapFacts Snapshot QueryExecution SnapshotWrite ExecutionDemo.

Lemma demo_find_writable sn b (c : ExecutionContext.t DiskManager.t) handle cs :
  shown sn b c → unindexed sn (ExecutionContext.catalog c) → covers sn (ExecutionContext.catalog c) →
  (∀ r, find sn r = demo_find handle cs r) → spare_frames 2 (store sn) → writable sn b c.
Proof.
  intros Hc Hun Hcov Hfind Hsp. split; [done..| | |done].
  - intros r1 r2 [H1 H2]. rewrite !Hfind. unfold demo_find. by rewrite H1, H2.
  - intros r1 r2 x1 x2. rewrite !Hfind. unfold demo_find. repeat case_bool_decide; try done.
    intros _ _ Hne. destruct Hne. unfold same_table. intuition congruence.
Qed.

Lemma demo_writable :
  ∃ sn (c : ExecutionContext.t DiskManager.t) handle cs, writable sn 1000 c ∧ find sn demo_ref = Some (handle, cs) ∧
    rows_in cs = demo_rows.*2 ∧ TableHandle.schema handle = TablePageSpec.demo_schema ∧ (10 ≤ room sn)%nat ∧
    (∀ r, find sn r = demo_find handle cs r) ∧
    Catalog.schemas (ExecutionContext.catalog c) !! INFORMATION_SCHEMA_NAME = None.
Proof.
  destruct demo_database as (sn & c & Hc & _ & Ht & Hun & Hcov & _ & Hsp & Hroom & Hinf & handle & cs & Hs & Hfind).
  exists sn, c, handle, cs. assert (find sn demo_ref = Some (handle, cs)) as Hf by (by rewrite Hfind).
  split_and!; [by eapply demo_find_writable|done| |done..].
  unfold tables in Ht. rewrite Hf in Ht. by injection Ht.
Qed.

End WriteDemo.
