(* ===== verification/InsertSpec.v ===== *)
(** * InsertSpec: inserting rows

    What an insert statement does to the tables: the rows of its input, cast to the
    columns of the table, are appended to the table one by one, up to the first row that
    fails, and the other tables stay as they are. *)
From S2P Require Import Prelude CommonCodec Floats Text Scalar Schema TupleCodec TablePage IndexPage.
From S2P Require Import DiskPages DiskManager Replacer BufferPool PageStore TableHeap Index Catalog.
From S2P Require Import Expressions LogicalPlan Ast SqlPlanner Operators Meaning Typing Optimizer.
From S2P Require Import Execution Planner Streams Pipeline Scans ExecutionSpec SqlSpec Transactions Database DatabaseSpec Writes.
Local Open Scope Z_scope.

(** ** The operator *)
Module InsertFacts.
Import TableHeapFacts TableHeapSpec Snapshot QueryExecution Streams StreamFacts SnapshotWrite.

(** The row that insert stores for a row of its input. *)
Definition cast_row (table_schema projected_schema : Schema.t) (t : Tuple.t) : result Tuple.t :=
  casted_data ← cast_values projected_schema 0 (Tuple.data t); Tuple.new table_schema casted_data.

(** The rows that insert stores for its input, and how it ends. *)
Definition stored_rows (table_schema projected_schema : Schema.t) (o : outcome) : outcome :=
  emit ((λ t, Some <$> cast_row table_schema projected_schema t) <$> rows o) (ended o).

(** A row with a value for each column of the table has a place in it, or is refused. *)
Lemma cast_values_typed s data idx :
  (length (Schema.columns s) = idx + length data)%nat →
  match cast_values s idx data with
  | Ok casted => Forall2 (λ col v, ScalarValue.data_type v = ScalarValue.erase (Column.data_type col))
                   (drop idx (Schema.columns s)) casted
  | Err _ => True
  | Panic => False
  end.
Proof.
  revert idx. induction data as [|v data IH]; intros idx Hl; cbn [cast_values length] in *.
  { by rewrite drop_ge by lia. }
  unfold Schema.column_with_index.
  destruct (lookup_lt_is_Some_2 (Schema.columns s) idx ltac:(lia)) as [col Hcol].
  rewrite Hcol. cbn [ok_or mbind result_bind].
  assert (match (if bool_decide (Column.data_type col = ScalarValue.data_type v) then Ok v
    else ScalarValue.cast_to v (Column.data_type col)) with
    | Ok v' => ScalarValue.data_type v' = ScalarValue.erase (Column.data_type col) | Err _ => True | Panic => False end) as Hv.
  { case_bool_decide as Hd; [by rewrite Hd, ScalarValueFacts.erase_data_type|].
    destruct (ScalarValue.cast_to v _) as [v'| |] eqn:Hc; [|done|by apply (ExpressionFacts.cast_to_not_Panic _ _ Hc)].
    apply ScalarValueFacts.cast_to_data_type in Hc as [<- _]. by rewrite ScalarValueFacts.erase_data_type. }
  destruct (if bool_decide _ then _ else _) as [v'| |]; [|done..]. cbn [mbind result_bind].
  specialize (IH (S idx) ltac:(lia)). destruct (cast_values s (S idx) data); [|done..].
  cbn [mbind result_bind]. rewrite (drop_S _ _ _ Hcol). by constructor.
Qed.

Lemma cast_row_not_Panic s t :
  ExpressionFacts.has_types s t → cast_row s s t ≠ Panic.
Proof.
  intros [_ Ht]. unfold cast_row. pose proof (cast_values_typed s (Tuple.data t) 0) as Hc.
  specialize (Hc (Forall2_length _ _ _ Ht)). destruct (cast_values s 0 (Tuple.data t)) as [data| |]; [|done..].
  cbn [mbind result_bind]. by rewrite (ExpressionFacts.has_types_new s data Hc).
Qed.

Lemma stored_rows_ended s values :
  Forall (λ r, length r = length (Schema.columns s)) values →
  Forall (λ r, PhysicalValues.row s r ≠ Panic) values ∧
  ended (stored_rows s s (values_rows s values)) ≠ Crashed.
Proof.
  intros Hv. split.
  - eapply Forall_impl; [exact Hv|]. intros r Hr.
    destruct (TypingFacts.values_sound s [r]) as [Hs _]; [by constructor|].
    unfold values_rows in Hs. simpl in Hs. by destruct (PhysicalValues.row s r).
  - destruct (TypingFacts.values_sound s values Hv) as [He Hr]. unfold stored_rows.
    destruct (values_rows s values) as [l e]. cbn [rows ended] in *.
    induction Hr as [|t l Ht _ IH]; [done|]. cbn [fmap list_fmap emit].
    pose proof (cast_row_not_Panic s t Ht). by destruct (cast_row s s t).
Qed.

Section operator.
Context {D : Type} `{DiskLaws D} `{Platform}.
Context (table_ref : TableReference.t) (table_schema projected_schema : Schema.t).
Notation Ctx := (ExecutionContext.t D).
Notation cast_row := (cast_row table_schema projected_schema).

(** The table is in the snapshot, with room for [k] more pages. *)
Definition ready (sn : Snapshot.t) (n k : nat) (c : Ctx) : Prop :=
  writable sn n c ∧ (k ≤ room sn)%nat ∧
  ∃ handle cs, find sn table_ref = Some (handle, cs) ∧ TableHandle.schema handle = table_schema.

(** One row of the input. *)
Lemma insert_row_Ok sn n k c t t' :
  ready sn (2 + n) (S k) c → cast_row t = Ok t' → storable table_schema t' →
  ∃ cat' sn', insert_row table_ref table_schema projected_schema t (ExecutionContext.catalog c) = (cat', Ok tt) ∧
    ready sn' n k (ExecutionContext.Mk cat' (ExecutionContext.events c)) ∧ appended table_ref [t'] sn sn'.
Proof.
  intros (Hw & Hk & handle & cs & Hf & Hs) Hc [Hrow Hsp]. destruct (room sn) as [|k'] eqn:Hroom; [lia|].
  destruct (insert_tuple_writable sn n k' c table_ref handle cs t' Hw Hf Hroom) as
    (cat' & rid & handle' & cs' & sn' & Hrun & Hw' & Hk' & Hf' & Hs' & Happ & _); [by rewrite Hs|done|].
  exists cat', sn'. split_and!; [|split_and!; [done|lia|]; exists handle', cs'; split; [done|congruence]|done].
  destruct (shown_tables _ _ _ (writable_shown _ _ _ Hw) _ _ _ Hf) as [Hth _].
  destruct (writable_unindexed _ _ _ Hw' _ _ Hf') as (ct & Hct & Hidx).
  unfold cast_row in Hc. apply bind_Ok_inv in Hc as (data & Hd & Ht).
  unfold insert_row. erewrite SR_bind_Ok by (unfold lift; by rewrite Hd).
  erewrite SR_bind_Ok by (unfold lift; by rewrite Ht). erewrite SR_bind_Ok by done.
  erewrite SR_bind_Ok by (unfold lift; by rewrite Hth). rewrite (SR_bind_Ok _ _ _ _ _ Hrun).
  erewrite SR_bind_Ok by done. cbn [ExecutionContext.catalog] in Hct.
  erewrite SR_bind_Ok by (unfold lift, Catalog.table_indexes; by rewrite Hct).
  by rewrite Hidx, map_to_list_empty.
Qed.

(** A row that has no place in the table. *)
Lemma insert_row_Err (cat : Catalog.t D) t e :
  cast_row t = Err e → insert_row table_ref table_schema projected_schema t cat = (cat, Err e).
Proof.
  unfold cast_row, insert_row, mbind, SR_bind, lift. destruct (cast_values _ _ _); simpl; [|by intros [= ->]|done].
  by intros ->.
Qed.

Lemma ready_fewer sn n n' k k' c :
  (n' ≤ n)%nat → (k' ≤ k)%nat → ready sn n k c → ready sn n' k' c.
Proof.
  intros Hn Hk ([] & Hr & Hf). split_and!; [split; [by eapply shown_fewer|done..]|lia|done].
Qed.

(** What insert answers for its rows: their number, unless it is zero. *)
Definition count_row (m : Z) : option Tuple.t :=
  if m =? 0 then None else Some (Tuple.Mk INSERT_OUTPUT_SCHEMA [ScalarValue.Int32 (Some m)]).

Definition insert_answer (count : Z) (o : outcome) : result (option Tuple.t) :=
  match ended o with
  | Done => Ok (count_row (count + Z.of_nat (length (rows o))))
  | Failed error => Err error
  | Crashed => Panic
  end.

(** The input answers whatever the tables are, and does not touch them. *)
Fixpoint answers {I} (input_next : SR (I * Ctx) (option Tuple.t)) (rs : list reply) (i : I) : Prop :=
  match rs with
  | [] => True
  | r :: rs' => ∃ i', (∀ c, input_next (i, c) = ((i', c), r)) ∧ answers input_next rs' i'
  end.

Notation insert_loop input_next :=
  (insert_next input_next (λ m, on_context (on_catalog m)) table_ref table_schema projected_schema).

Lemma insert_next_Ok {I} (input_next : SR (I * Ctx) (option Tuple.t)) l e fuel count sn n k c i :
  let o := emit ((λ t, Some <$> cast_row t) <$> l) e in
  answers input_next (stream (Out l e)) i → ready sn (2 * length l + n) (length l + k) c →
  (length l < fuel)%nat → 0 ≤ count → count + Z.of_nat (length l) < 2 ^ 31 →
  Forall (storable table_schema) (rows o) → ended o ≠ Crashed →
  ∃ s' i' c' sn', insert_loop input_next fuel (count, (i, c)) = ((s', (i', c')), insert_answer count o) ∧
    ready sn' n k c' ∧ appended table_ref (rows o) sn sn' ∧
    (ended o = Done → s' = 0 ∧ answers input_next [Ok None] i').
Proof.
  cbv zeta. revert fuel count sn c i.
  induction l as [|t l IH]; intros fuel count sn c i Hr Hc Hf Hz Hq Hst Hne;
    (destruct fuel as [|fuel]; [lia|]); cbn [insert_next].
  - assert (ready sn n k c) as Hc' by (eapply ready_fewer; [..|exact Hc]; simpl; lia).
    destruct e as [|error|]; [| |done]; destruct Hr as (i' & Hi & Hr');
      [exists 0|exists count]; exists i', c, sn; (split; [|split_and!; [done|apply appended_refl|done]]).
    + erewrite SR_bind_Ok by (by apply on_world_run). unfold insert_answer, count_row. cbn [ended rows emit fmap list_fmap length].
      rewrite Z.add_0_r. erewrite SR_bind_Ok by done. destruct (Z.eqb_spec count 0) as [->|Hne0]; [done|].
      erewrite SR_bind_Ok by done. rewrite to_signed_small by (unfold signed_ok; cbn [length] in Hq; lia). done.
    + by erewrite SR_bind_Err by (by apply on_world_run).
  - destruct Hr as (i' & Hi & Hr'). erewrite SR_bind_Ok by (by apply on_world_run). cbn [fmap list_fmap emit] in Hst, Hne |- *.
    destruct (cast_row t) as [t'|error|] eqn:Ht; cbn [fmap result_fmap emit rows ended] in Hst, Hne |- *; [| |done].
    + apply Forall_cons in Hst as [Ht' Hst]. cbn [length] in Hq, Hf, Hc.
      destruct (insert_row_Ok sn (2 * length l + n) (length l + k) c t t') as (cat' & sn1 & Hrun & Hc1 & Happ1); [|done..|].
      { eapply ready_fewer; [| |exact Hc]; lia. }
      destruct (IH fuel (count + 1) sn1 _ i' Hr' Hc1) as (s2 & i2 & c2 & sn2 & Hrun2 & Hc2 & Happ2 & Hend);
        [lia|lia|lia|done|done|].
      exists s2, i2, c2, sn2. split_and!; [|done|by apply (appended_trans _ [t'] _ _ sn1)|done].
      erewrite SR_bind_Ok.
      2:{ apply on_world_run, on_world_run. unfold on_catalog. by rewrite Hrun. }
      rewrite (SR_bind_Ok _ _ _ (wrap 32 (count + 1), (i', ExecutionContext.Mk cat' (ExecutionContext.events c))) tt) by done.
      rewrite wrap_small by (unfold unsigned_ok; lia). rewrite Hrun2. f_equal.
      unfold insert_answer. cbn [rows ended length]. case_match; [|done..].
      by replace (count + 1 + _) with (count + Z.of_nat (S (length (rows (emit ((λ t, Some <$> cast_row t) <$> l) e))))) by lia.
    + exists count, i', c, sn. split_and!; [|by eapply ready_fewer; [..|exact Hc]; lia|apply appended_refl|done].
      erewrite SR_bind_Err; [done|]. apply on_world_run, on_world_run. unfold on_catalog.
      rewrite (insert_row_Err _ _ _ Ht). by destruct c.
Qed.

Lemma insert_next_end {I} (input_next : SR (I * Ctx) (option Tuple.t)) fuel i c :
  answers input_next [Ok None] i → ∃ i', insert_loop input_next (S fuel) (0, (i, c)) = ((0, (i', c)), Ok None).
Proof.
  intros (i' & Hi & _). exists i'. cbn [insert_next]. by erewrite SR_bind_Ok by (by apply on_world_run).
Qed.

(** [Values] answers its rows. *)
Lemma values_answers s values k steps :
  Forall (λ r, PhysicalValues.row s r ≠ Panic) values → Z.of_nat (length values) + 2 < 2 ^ 32 →
  drop k values = steps → (k ≤ length values)%nat →
  answers (values_next (D:=D) s values) (stream (values_rows s steps)) (Z.of_nat k).
Proof.
  intros Hp Hl. assert (∀ k c, (k < length values + 2)%nat → values_next (D:=D) s values (Z.of_nat k, c)
    = ((Z.of_nat (S k), c), match values !! k with Some r => Some <$> PhysicalValues.row s r | None => Ok None end)) as Hn.
  { clear k. intros k c Hk. unfold values_next, mbind, SR_bind, get_state, set_state.
    rewrite wrap_small by (unfold unsigned_ok; lia). replace (Z.of_nat k + 1) with (Z.of_nat (S k)) by lia.
    rewrite Nat2Z.id. destruct (values !! k) as [r|]; [|done]. unfold lift. simpl. by destruct (PhysicalValues.row s r). }
  revert k. induction steps as [|r steps IH]; intros k Hd Hk.
  - assert (length values ≤ k)%nat as Hge by (apply (f_equal length) in Hd; rewrite length_drop in Hd; simpl in Hd; lia).
    exists (Z.of_nat (S k)). split; [intros c; by rewrite Hn, lookup_ge_None_2 by lia|].
    exists (Z.of_nat (S (S k))). split; [intros c; by rewrite Hn, lookup_ge_None_2 by lia|done].
  - assert (values !! k = Some r) as Hr by (rewrite <- (Nat.add_0_r k), <- lookup_drop, Hd; done).
    pose proof (Forall_lookup_1 _ _ _ _ Hp Hr) as Hrp. pose proof (lookup_lt_Some _ _ _ Hr) as Hlt.
    assert (drop (S k) values = steps) as Hd' by (rewrite (drop_S _ _ _ Hr) in Hd; by injection Hd).
    unfold values_rows. cbn [fmap list_fmap emit].
    destruct (PhysicalValues.row s r) as [t|error|] eqn:Hrow; cbn [fmap result_fmap emit]; [| |done];
      exists (Z.of_nat (S k)); (split; [intros c; rewrite Hn, Hr, Hrow by lia; done|]); [|done].
    by apply IH; [|lia].
Qed.

(** What the statement returns: the number of rows, if there are any. *)
Definition insert_result (o : outcome) : result (list Tuple.t) := option_list <$> insert_answer 0 o.

Lemma execute_insert sql_type_name values fuel sn n k c :
  let input := values_rows projected_schema values in
  let o := stored_rows table_schema projected_schema input in
  ready sn (2 * length values + n) (length values + k) c → (length values + 1 < fuel)%nat →
  Z.of_nat (length values) + 2 < 2 ^ 31 → Forall (λ r, PhysicalValues.row projected_schema r ≠ Panic) values →
  Forall (storable table_schema) (rows o) → ended o ≠ Crashed →
  ∃ c' sn', execute sql_type_name fuel
      (PhysicalPlan.Insert table_ref table_schema projected_schema (PhysicalPlan.Values projected_schema values)) c
      = (c', insert_result o) ∧ ready sn' n k c' ∧ appended table_ref (rows o) sn sn'.
Proof.
  cbv zeta. set (input := values_rows projected_schema values). intros Hc Hf Hq Hp Hst Hne.
  assert (length (rows input) ≤ length values)%nat as Hl.
  { unfold input, values_rows. etrans; [apply QueryBounds.emit_length|]. by rewrite length_fmap. }
  assert (answers (values_next projected_schema values) (stream input) 0) as Hr
    by (apply (values_answers projected_schema values 0 values); [done|lia|apply drop_0|lia]).
  destruct (insert_next_Ok (values_next projected_schema values) (rows input) (ended input) fuel 0 sn n k c 0)
    as (s' & i' & c' & sn' & Hrun & Hc' & Happ & Hend); [by destruct input| |lia|lia|lia|done|done|].
  { eapply ready_fewer; [..|exact Hc]; lia. }
  fold (stored_rows table_schema projected_schema input) in Hrun, Happ, Hend.
  exists c', sn'. split_and!; [|done|done]. destruct fuel as [|[|fuel]]; [lia..|].
  unfold execute. erewrite SR_bind_Ok by done. cbn [drain].
  unfold insert_result. unfold insert_answer in Hrun |- *.
  destruct (ended (stored_rows table_schema projected_schema input)); [| |done].
  - destruct (Hend eq_refl) as [-> Hans]. erewrite SR_bind_Ok by (apply with_input_run, Hrun).
    destruct (count_row _) as [t|]; [|done].
    destruct (insert_next_end (values_next projected_schema values) (S fuel) i' c' Hans) as [i2 Hend2].
    by erewrite SR_bind_Ok by (apply with_input_run, Hend2).
  - by erewrite SR_bind_Err by (apply with_input_run, Hrun).
Qed.

End operator.
End InsertFacts.

(** ** Properties *)
Module InsertProperties.
Import Snapshot RunFacts SnapshotWrite InsertFacts.

Section properties.
Context {D : Type} `{DiskLaws D} `{Platform} `{Sqlparser}.

(** C4: an insert statement without a list of columns appends its rows, on tables without
    an index. The rows of [insert into t values ..], each with a value for every column,
    are evaluated, cast to the types of the columns and appended to the table in their
    order; every other table is as it was, and the statement returns the number of rows.
    The first row that fails ends the statement with its error: the rows before it stay in
    the table. The rows that are appended fit a page. (A list of columns is left out: such
    an insert panics or misplaces values, [Session.insert_columns_panics].) *)
Theorem run_insert_appends sql name order_by limit offset exprs values table_ref handle cs (db : Database.t D)
    sn n k fuel :
  parse_sql sql = Ok [Ast.Insert name [] (Ast.MkQuery (Ast.ValuesExpr exprs) order_by limit offset)] →
  LogicalPlanner.bind_table_name name = Ok table_ref →
  mapR (mapR LogicalPlanner.bind_expr) exprs = Ok values →
  writable sn (2 * length values + n) (context db) → Snapshot.find sn table_ref = Some (handle, cs) →
  let s := TableHandle.schema handle in
  let o := stored_rows s s (values_rows s values) in
  Forall (λ r, length r = length (Schema.columns s)) values → Forall (storable s) (rows o) →
  (length values + k ≤ room sn)%nat → (length values + 1 < fuel)%nat → Z.of_nat (length values) + 2 < 2 ^ 31 →
  ∃ db' sn', Database.run fuel sql db = (db', insert_result o) ∧
    appended table_ref (rows o) sn sn' ∧ writable sn' n (context db') ∧ (k ≤ room sn')%nat.
Proof.
  intros Hsql Hname Hvalues Hw Hfind s o Hlen Hst Hroom Hf Hq. destruct (stored_rows_ended s values Hlen) as [Hp Hne].
  destruct (execute_insert table_ref s s SqlDataType.sql_type_name values fuel sn n k (context db))
    as (c' & sn' & Hrun & (Hw' & Hk & _) & Happ); [|lia|done..|].
  { split; [done|]. split; [lia|]. by exists handle, cs. }
  assert (Database.create_logical_plan sql db
    = Ok (LogicalPlan.Insert table_ref s s (LogicalPlan.Values s values))) as Hplan.
  { destruct (shown_tables _ _ _ (writable_shown _ _ _ Hw) _ _ _ Hfind) as [Hth _].
    unfold Database.create_logical_plan. rewrite Hsql. simpl. unfold LogicalPlanner.plan_values.
    rewrite Hvalues, Hname. simpl. cbn [context ExecutionContext.catalog] in Hth. by rewrite Hth. }
  do 2 eexists. split_and!; [by eapply run_steps|done| |done]. by destruct c'.
Qed.

End properties.

(** *** An insert into a small database *)
Import ExecutionDemo.

Definition five : list Ast.Expr :=
  [Ast.ValueExpr (Ast.Number "5" false); Ast.ValueExpr (Ast.SingleQuotedString "five")].
Definition many : list Ast.Expr :=
  [Ast.ValueExpr (Ast.Number "6" false); Ast.ValueExpr (Ast.Boolean true)].

(** [insert into t values (5, 'five'), (6, true)]: the second row cannot be cast. *)
Definition demo_insert_statement : Ast.Statement :=
  Ast.Insert [SqlProperties.ident "t"] [] (Ast.MkQuery (Ast.ValuesExpr [five; many]) [] None None).
#[local] Instance insert_parser : Sqlparser := SqlProperties.parser_of "insert" demo_insert_statement.
#[local] Existing Instance demo_platform.

Lemma run_insert_appends_witness :
  ∃ sn (db : Database.t DiskManager.t) db' sn', Snapshot.tables sn demo_ref = Some demo_rows.*2 ∧
    Database.run 100 "insert" db = (db', Err (NotSupport "Failed to cast {:?} to {} type")) ∧
    Snapshot.tables sn' demo_ref = Some (demo_rows.*2 ++ [TablePageSpec.demo_tuple 5 "five"]).
Proof.
  destruct WriteDemo.demo_writable as (sn & c & handle & cs & Hw & Hfind & Ht & Hs & Hroom & _).
  assert (Snapshot.tables sn demo_ref = Some demo_rows.*2) as Htab by (unfold Snapshot.tables; rewrite Hfind; simpl; by rewrite Ht).
  set (db := Database.Mk (ExecutionContext.catalog c) 1 (ExecutionContext.events c)).
  destruct (run_insert_appends "insert" [SqlProperties.ident "t"] [] None None [five; many]
    [[Expr.Literal (ScalarValue.Int64 (Some 5)); Expr.Literal (ScalarValue.Varchar (Some "five"%string))];
     [Expr.Literal (ScalarValue.Int64 (Some 6)); Expr.Literal (ScalarValue.Boolean (Some true))]]
    demo_ref handle cs db sn 0 0 100) as (db' & sn' & Hrun & Happ & _); [done|done|done| |done|..].
  - eapply writable_fewer; [|by destruct c]. simpl. lia.
  - rewrite Hs. by repeat constructor.
  - rewrite Hs. constructor; [|constructor]. split; [|done]. split; [done|]. by apply TablePageSpec.demo_row_ok.
  - simpl. lia.
  - simpl. lia.
  - simpl. lia.
  - rewrite Hs in Hrun, Happ. exists sn, db, db', sn'. split_and!; [done|exact Hrun|].
    rewrite Happ, bool_decide_true by done. by rewrite Htab.
Defined.

End InsertProperties.
