(* ===== verification/UpdateSpec.v ===== *)
(** * UpdateSpec: updating rows

    What an update statement does to the tables: one scan of the table, in which every
    selected row is replaced where it is, up to the first row that fails. The scan and
    the writes share the pages of the table, so what is proved of the iterator alone is
    not enough: [IteratorPosition] follows it while rows behind it change. *)
From S2P Require Import Prelude CommonCodec Floats Text Scalar Schema TupleCodec TablePage IndexPage.
From S2P Require Import DiskPages DiskManager Replacer BufferPool PageStore TableHeap Index Catalog.
From S2P Require Import Expressions LogicalPlan Ast SqlPlanner Operators Meaning Typing Optimizer.
From S2P Require Import Execution Planner Streams Scans ExecutionSpec SqlSpec Transactions Database DatabaseSpec Writes.
Local Open Scope Z_scope.

(** ** Where an iterator is *)
Module IteratorPosition.
Import TableHeapFacts TableHeapSpec.

Lemma page_rows_insert p rows i r :
  page_rows (p, <[i := r]> rows) = <[i := (RecordId.Mk p (Z.of_nat i), r)]> (page_rows (p, rows)).
Proof.
  apply list_eq. intros j. unfold page_rows. cbn [fst snd]. rewrite list_lookup_imap.
  destruct (decide (i = j)) as [<-|Hne].
  - destruct (decide (i < length rows)%nat) as [Hlt|Hge].
    + by rewrite !list_lookup_insert_eq by (rewrite ?length_imap; done).
    + by rewrite !(lookup_ge_None_2 _ i) by (rewrite length_insert, ?length_imap; lia).
  - by rewrite !list_lookup_insert_ne, list_lookup_imap by done.
Qed.

(** A row of a heap, what is before it, and what changes with it. *)
Lemma rows_of_at (cs : pages_rows) k i p rows r :
  cs !! k = Some (p, rows) → rows !! i = Some r →
  ∃ before, rows_of cs = before ++ (RecordId.Mk p (Z.of_nat i), r) :: after cs k i ∧
    ∀ r', let cs' := <[k := (p, <[i := r']> rows)]> cs in
      rows_of cs' = before ++ (RecordId.Mk p (Z.of_nat i), r') :: after cs k i ∧ after cs' k i = after cs k i.
Proof.
  intros Hk Hi. assert (i < length (page_rows (p, rows)))%nat as Hlt.
  { unfold page_rows. rewrite length_imap. by apply lookup_lt_Some in Hi. }
  pose proof (lookup_lt_Some _ _ _ Hk) as Hkl.
  exists (rows_of (take k cs) ++ take i (page_rows (p, rows))). split; [|intros r' cs'].
  - unfold rows_of at 1. rewrite <- (take_drop_middle cs k _ Hk) at 1. rewrite fmap_app, concat_app. simpl.
    rewrite <- (take_drop_middle (page_rows (p, rows)) i (RecordId.Mk p (Z.of_nat i), r)) at 1
      by (unfold page_rows; cbn [fst snd]; by rewrite list_lookup_imap, Hi).
    unfold after. rewrite Hk. by rewrite <- !(assoc_L (++)).
  - assert (after cs' k i = after cs k i) as Ha.
    { unfold after, cs'. rewrite list_lookup_insert_eq, Hk, page_rows_insert by done.
      by rewrite !drop_insert_lt by lia. }
    split; [|done]. unfold rows_of at 1, cs'. rewrite (insert_take_drop cs k) by done. rewrite fmap_app, concat_app. simpl.
    rewrite page_rows_insert, (insert_take_drop (page_rows (p, rows)) i) by done.
    unfold after. rewrite Hk. by rewrite <- !(assoc_L (++)).
Qed.

Lemma at_slot_unique (cs : pages_rows) rid k j rows rows' i i' :
  NoDup cs.*1 → HeapRows.at_slot cs rid k rows i → HeapRows.at_slot cs rid j rows' i' →
  k = j ∧ rows = rows' ∧ i = i'.
Proof.
  intros Hnd (Hk & Hi & _) (Hj & Hi' & _). assert (k = j) as <-.
  { apply (NoDup_lookup _ _ _ (RecordId.page_id rid) Hnd); rewrite list_lookup_fmap; [by rewrite Hk|by rewrite Hj]. }
  rewrite Hk in Hj. injection Hj as <-. split_and!; [done..|lia].
Qed.

Section iterator.
Context {D : Type} `{DiskLaws D}.
Implicit Types (it : TableIterator.t D) (cs : pages_rows).

(** The iterator has returned row [i] of the [k]-th page. *)
Definition at_row it cs (k i : nat) : Prop :=
  TableIterator.end_bound it = Unbounded ∧ TableIterator.ended it = false ∧ TableIterator.started it = true ∧
  ∃ p rows, cs !! k = Some (p, rows) ∧ (i < length rows)%nat ∧ TableIterator.cursor it = RecordId.Mk p (Z.of_nat i).

(** The rows an unbounded iterator has still to visit. *)
Inductive upcoming it cs : list (RecordId.t * row) → Prop :=
  | upcoming_all : it = TableIterator.new (TableIterator.heap it) Unbounded Unbounded → upcoming it cs (rows_of cs)
  | upcoming_after k i : at_row it cs k i → upcoming it cs (after cs k i)
  | upcoming_none : TableIterator.ended it = true → upcoming it cs [].

(** The answer of the iterator: the next row, with where it is. *)
Definition reached it cs (todo : list (RecordId.t * row)) : Prop :=
  match todo with
  | [] => upcoming it cs []
  | (rid, r) :: rest => ∃ k i rows, at_row it cs k i ∧ HeapRows.at_slot cs rid k rows i ∧ rows !! i = Some r ∧
      rest = after cs k i
  end.

Lemma heap_slot (h : TableHeap.t D) st cs n k rid rows i r :
  heap_ok h st cs n → cs !! k = Some (RecordId.page_id rid, rows) →
  rid = RecordId.Mk (RecordId.page_id rid) (Z.of_nat i) → rows !! i = Some r → HeapRows.at_slot cs rid k rows i.
Proof.
  intros Hh Hk Hrid Hr. destruct (listed_page _ _ _ _ _ _ (heap_listed _ _ _ _ Hh) Hk) as (b & tp & _ & _ & Hrep & _).
  pose proof (TablePageFacts.rep_length_bound _ _ Hrep). apply lookup_lt_Some in Hr.
  split_and!; [done|by rewrite Hrid|lia].
Qed.

Lemma next_upcoming it st cs n todo :
  upcoming it cs todo → heap_ok (TableIterator.heap it) st cs n → spare_frames 1 st → clock it + 2 < 2 ^ 63 →
  ∃ it', TableIterator.next it = (it', Ok ((λ x, (x.1, x.2.2)) <$> head todo)) ∧
    heap_ok (TableIterator.heap it') st cs n ∧ same_handle it it' ∧ clock it' ≤ clock it + 3 ∧ reached it' cs todo.
Proof.
  intros Hup Hh Hsp Hq. destruct Hup as [Hnew|k i (Hb & He & Hs & p & rows & Hk & Hi & Hcur)|Hend].
  - pose proof (first_next_Ok _ st cs n Hh Hsp) as Hn. unfold clock in *. specialize (Hn ltac:(lia)). rewrite <- Hnew in Hn.
    destruct (rows_of cs) as [|[rid r] rest].
    + destruct Hn as (it' & Hrun & Hend & Hh' & Hts & Hsm). exists it'. split_and!; [done..|lia|by constructor].
    + destruct Hn as (it' & k & i & rows & Hrun & (Hh' & Hb & He & Hs) & Hk & Hi & Hcur & Hrest & Hts & Hsm & Hrid & Hr).
      exists it'. split_and!; [done..|lia|]. exists k, i, rows. split_and!; [|by eapply heap_slot|done..].
      split_and!; [done..|]. by exists (RecordId.page_id rid), rows.
  - pose proof (next_Ok it st cs n k i p rows ltac:(done) Hk Hi Hcur Hsp Hq) as Hn.
    destruct (after cs k i) as [|[rid r] rest] eqn:Ha.
    + destruct Hn as (it' & Hrun & (Hh' & Hb' & He' & Hs') & Hcur' & Hts & Hsm).
      exists it'. split_and!; [done..|lia|]. unfold reached. rewrite <- Ha. apply upcoming_after.
      split_and!; [done..|]. exists p, rows. by rewrite Hcur'.
    + destruct Hn as (it' & k' & i' & rows' & Hrun & (Hh' & Hb' & He' & Hs') & Hk' & Hi' & Hcur' & Hrest & Hts & Hsm & Hrid & Hr).
      exists it'. split_and!; [done..|]. exists k', i', rows'. split_and!; [|by eapply heap_slot|done..].
      split_and!; [done..|]. by exists (RecordId.page_id rid), rows'.
  - exists it. split_and!; [|done|by exists (TableHeap.buffer_pool (TableIterator.heap it)); destruct it as [[]]|lia|by apply upcoming_none].
    unfold TableIterator.next, gets, mbind, SR_bind. by rewrite Hend.
Qed.

(** A row of the page the iterator is on is replaced. *)
Lemma at_row_insert it cs k i p rows r :
  cs !! k = Some (p, rows) → at_row it cs k i → at_row it (<[k := (p, <[i := r]> rows)]> cs) k i.
Proof.
  intros Hk (Hb & He & Hs & p' & rows' & Hk' & Hi & Hcur). rewrite Hk in Hk'. injection Hk' as <- <-.
  split_and!; [done..|]. exists p, (<[i := r]> rows). rewrite length_insert. split_and!; [|done..].
  apply list_lookup_insert_eq. by eapply lookup_lt_Some.
Qed.

(** The position does not depend on the pool. *)
Lemma upcoming_pool it cs s todo :
  upcoming it cs todo → upcoming (TableIterator.set_heap (TableHeap.set_pool s (TableIterator.heap it)) it) cs todo.
Proof.
  destruct 1 as [Hnew|k i Hat|Hend]; [|by apply upcoming_after|by apply upcoming_none].
  apply upcoming_all. rewrite Hnew. done.
Qed.

End iterator.
End IteratorPosition.

(** ** The operator *)
Module UpdateFacts.
Import TableHeapFacts TableHeapSpec Snapshot QueryExecution Streams StreamFacts SnapshotWrite IteratorPosition.

(** The row that an update writes for a row of the table, if it is selected. *)
Definition new_row (assignments : list (string * Expr.t)) (selection : option Expr.t) (t : Tuple.t) :
    result (option Tuple.t) :=
  chosen ← selected selection t;
  if chosen : bool then (t' ← foldR assign t assignments; Ok (Some t')) else Ok None.

(** The bytes of a row in its page. *)
Definition size (t : Tuple.t) : Z := TablePageFacts.row_space (EMPTY_TUPLE_META, t).

Definition no_space : BustubxError := Storage "No enough space to store tuple".

(** [rewrites l l' m e]: updating the rows [l] gives the rows [l'], of which [m] were
    written, and ends with [e]. A row is refused when its new values cannot be computed,
    or when it has grown and its page is full. *)
Inductive rewrites (assignments : list (string * Expr.t)) (selection : option Expr.t) :
    list Tuple.t → list Tuple.t → nat → ending → Prop :=
  | rewrites_end : rewrites assignments selection [] [] 0 Done
  | rewrites_skip t l l' m e :
      new_row assignments selection t = Ok None → rewrites assignments selection l l' m e →
      rewrites assignments selection (t :: l) (t :: l') m e
  | rewrites_row t t' l l' m e :
      new_row assignments selection t = Ok (Some t') → rewrites assignments selection l l' m e →
      rewrites assignments selection (t :: l) (t' :: l') (S m) e
  | rewrites_failed t l error :
      new_row assignments selection t = Err error → rewrites assignments selection (t :: l) (t :: l) 0 (Failed error)
  | rewrites_full t t' l :
      new_row assignments selection t = Ok (Some t') → size t < size t' →
      rewrites assignments selection (t :: l) (t :: l) 0 (Failed no_space).

(** Updating does not panic on the rows of a table. *)
Lemma index_of_lookup s relation name i :
  Schema.index_of s relation name = Ok i → ∃ col, Schema.columns s !! i = Some col.
Proof.
  unfold Schema.index_of. destruct (Schema.find_from _ _ _) as [j|] eqn:Hf; [|done]. intros [= <-].
  apply SchemaFacts.find_from_spec in Hf as (j' & c & -> & Hc & _). by exists c.
Qed.

Lemma assign_not_Panic s t x :
  Tuple.schema t = s → length (Tuple.data t) = length (Schema.columns s) →
  match assign t x with
  | Ok t' => Tuple.schema t' = s ∧ length (Tuple.data t') = length (Schema.columns s)
  | Err _ => True
  | Panic => False
  end.
Proof.
  destruct x as [name e]. intros Hs Hl. unfold assign. rewrite Hs.
  destruct (Schema.index_of s None name) as [i| |] eqn:Hi; [|done|].
  2:{ unfold Schema.index_of in Hi. by destruct (Schema.find_from _ _ _). }
  destruct (index_of_lookup _ _ _ _ Hi) as [col Hcol]. cbn [mbind result_bind].
  rewrite (index_Ok _ _ _ Hcol). cbn [mbind result_bind].
  pose proof (ExpressionFacts.evaluate_not_Panic e EMPTY_TUPLE).
  destruct (Expr.evaluate e EMPTY_TUPLE) as [v| |]; [|done..]. cbn [mbind result_bind].
  pose proof (ExpressionFacts.cast_to_not_Panic v (Column.data_type col)).
  destruct (ScalarValue.cast_to v (Column.data_type col)) as [w| |]; [|done..]. cbn [mbind result_bind].
  apply lookup_lt_Some in Hcol. rewrite (proj2 (Nat.ltb_lt _ _)) by lia. split; [done|].
  cbn [Tuple.data]. by rewrite length_insert.
Qed.

(** The code keeps the assignments in a hash map; the list is the map in the order it is
    iterated in. The order only matters for which of several assignments that fail is
    reported: in any other order the assignments give the same row. *)
Lemma assign_swap x y t t' :
  x.1 ≠ y.1 → foldR assign t [x; y] = Ok t' → foldR assign t [y; x] = Ok t'.
Proof.
  destruct x as [nx ex], y as [ny ey], t as [s data]. intros Hne. cbn [foldR]. unfold assign. cbn [Tuple.schema Tuple.data fst] in *.
  assert (∀ i, Schema.index_of s None nx = Ok i → Schema.index_of s None ny = Ok i → False) as Hix.
  { intros i Hx Hy. apply Hne. unfold Schema.index_of in Hx, Hy.
    destruct (Schema.find_from 0 (Schema.column_matches None nx) _) eqn:H1; [|done].
    destruct (Schema.find_from 0 (Schema.column_matches None ny) _) eqn:H2; [|done].
    injection Hx as ->. injection Hy as ->. apply SchemaFacts.find_from_spec in H1 as (j & c & -> & Hc & Hp & _).
    apply SchemaFacts.find_from_spec in H2 as (j' & c' & Hj & Hc' & Hp' & _). assert (j' = j) as -> by lia.
    assert (c' = c) as -> by congruence. unfold Schema.column_matches in Hp, Hp'.
    apply String.eqb_eq in Hp, Hp'. congruence. }
  destruct (Schema.index_of s None nx) as [i| |] eqn:Hnx; [|done..].
  destruct (Schema.index_of s None ny) as [j| |] eqn:Hny; cbn [mbind result_bind].
  2,3: intros H; inv_res; repeat case_match; simplify_eq/=; congruence.
  assert (i ≠ j) as Hij by (intros ->; by eapply Hix).
  destruct (Prelude.index (Schema.columns s) i) as [ci| |] eqn:Hci; [|done..]. cbn [mbind result_bind].
  destruct (Expr.evaluate ex EMPTY_TUPLE) as [vx| |]; [|done..]. cbn [mbind result_bind].
  destruct (ScalarValue.cast_to vx _) as [wx| |] eqn:Hwx; [|done..]. cbn [mbind result_bind].
  destruct (Nat.ltb_spec i (length data)) as [Hi|]; [|by intros Hp; inv_res].
  cbn [mbind result_bind Tuple.schema Tuple.data]. rewrite Hny. cbn [mbind result_bind].
  destruct (Prelude.index (Schema.columns s) j) as [cj| |]; [|done..]. cbn [mbind result_bind].
  destruct (Expr.evaluate ey EMPTY_TUPLE) as [vy| |]; [|done..]. cbn [mbind result_bind].
  destruct (ScalarValue.cast_to vy _) as [wy| |]; [|done..]. cbn [mbind result_bind]. rewrite length_insert.
  destruct (Nat.ltb_spec j (length data)) as [Hj|]; [|by intros Hp; inv_res].
  cbn [mbind result_bind Tuple.schema Tuple.data]. rewrite Hnx. cbn [mbind result_bind]. rewrite Hci. cbn [mbind result_bind].
  rewrite Hwx. cbn [mbind result_bind]. rewrite length_insert, (proj2 (Nat.ltb_lt _ _) Hi). cbn [mbind result_bind].
  intros [= <-]. by rewrite list_insert_insert_ne.
Qed.

Lemma assign_order l l' t t' :
  NoDup l.*1 → l ≡ₚ l' → foldR assign t l = Ok t' → foldR assign t l' = Ok t'.
Proof.
  intros Hnd Hp. revert t. induction Hp as [|x l l' Hp IH|x y l|l1 l2 l3 Hp1 IH1 Hp2 IH2]; intros t; [done|..].
  - apply NoDup_cons in Hnd as [_ Hnd]. cbn [foldR]. intros Hx. inv_res. rewrite Ha. cbn [mbind result_bind]. by apply IH.
  - apply NoDup_cons in Hnd as [Hx _]. intros H.
    assert (foldR assign t [y; x] ≫= (λ t1, foldR assign t1 l) = Ok t') as Hyx.
    { cbn [foldR] in H |- *. inv_res. rewrite Ha. cbn [mbind result_bind]. by rewrite Ha0. }
    inv_res. assert (foldR assign t [x; y] = Ok a) as Hxy; [|cbn [foldR] in Hxy |- *; inv_res; by rewrite Ha0; cbn [mbind result_bind]; rewrite Ha1].
    apply assign_swap; [|done]. intros E. apply Hx. rewrite E. by left.
  - intros H. apply IH2; [by rewrite <- Hp1|by apply IH1].
Qed.

Lemma new_row_not_Panic assignments selection s t :
  ExpressionFacts.has_types s t → new_row assignments selection t ≠ Panic.
Proof.
  intros [Hs Ht%Forall2_length]. unfold new_row. apply ExpressionFacts.bind_not_Panic.
  - destruct selection as [e|]; [|done]. simpl.
    apply ExpressionFacts.bind_not_Panic; [apply ExpressionFacts.evaluate_not_Panic|].
    intros v. by apply ExpressionFacts.bind_not_Panic; [destruct v|].
  - intros [|]; [|done]. apply ExpressionFacts.bind_not_Panic; [|done]. symmetry in Ht. revert t Hs Ht.
    induction assignments as [|x l IH]; intros t Hs Hl; [done|]. cbn [foldR].
    pose proof (assign_not_Panic s t x Hs Hl) as Ha. destruct (assign t x) as [t'| |]; [|done..].
    cbn [mbind result_bind]. apply IH; apply Ha.
Qed.

Section operator.
Context {D : Type} `{DiskLaws D} `{Platform}.
Context (table_ref : TableReference.t) (handle : TableHandle.t).
Notation Ctx := (ExecutionContext.t D).

(** The iterator reads the next row of the table. *)
Lemma on_iterator_next sn n (c : Ctx) (it : TableIterator.t D) cs todo :
  writable sn (3 + n) c → find sn table_ref = Some (handle, cs) →
  Catalog.handle_of (TableIterator.heap it) = handle → upcoming it cs todo →
  ∃ it' s, Catalog.on_iterator TableIterator.next it (ExecutionContext.catalog c)
      = (Catalog.set_pool s (ExecutionContext.catalog c), Ok (it', Ok ((λ x, (x.1, x.2.2)) <$> head todo))) ∧
    writable sn n (with_pool s c) ∧ Catalog.handle_of (TableIterator.heap it') = handle ∧ reached it' cs todo.
Proof.
  intros Hw Hfind Hit Hup. pose proof (writable_shown _ _ _ Hw) as Hsh.
  destruct (shown_tables _ _ _ Hsh _ _ _ Hfind) as [_ Hok]. pose proof (shown_clock _ _ _ Hsh) as Hcl.
  set (cat := ExecutionContext.catalog c) in *.
  set (it1 := TableIterator.set_heap (TableHeap.set_pool (Catalog.buffer_pool cat) (TableIterator.heap it)) it).
  assert (TableIterator.heap it1 = Catalog.heap_of cat handle) as Hh by (rewrite <- Hit; done).
  destruct (next_upcoming it1 (store sn) cs (room sn) todo) as (it' & Hrun & Hok' & (s & Hs) & Hts & Hr).
  - by apply upcoming_pool.
  - by rewrite Hh.
  - pose proof (writable_spare _ _ _ Hw). unfold spare_frames in *. lia.
  - unfold clock, now. rewrite Hh. unfold pool in Hcl. fold cat in Hcl. simpl. lia.
  - exists it', s. rewrite Hs, Hh in Hok'. unfold clock, now in Hts. rewrite Hs, Hh in Hts. split_and!.
    + unfold Catalog.on_iterator. fold it1. by rewrite Hrun, Hs.
    + eapply writable_pool; [exact Hw|apply (heap_shows _ _ _ _ Hok')|].
      unfold pool in Hcl. fold cat in Hcl. simpl in *. lia.
    + rewrite Hs, Hh. by destruct handle.
    + done.
Qed.

(** The two ways of updating a row that is there. *)
Lemma update_step (h : TableHeap.t D) st cs n rid k rows i r t' (res : result unit) cs' :
  heap_ok h st cs n → HeapRows.at_slot cs rid k rows i → rows !! i = Some r →
  HeapRows.step cs (HeapRows.Update rid t') ((λ _, HeapRows.Done) <$> res) cs' →
  cs'.*1 = cs.*1 ∧
  ((res = Ok tt ∧ cs' = <[k := (RecordId.page_id rid, <[i := (r.1, t')]> rows)]> cs) ∨
   (res = Err no_space ∧ cs' = cs ∧ size r.2 < size t')).
Proof.
  intros Hok Hat Hr Hstep. pose proof (listed_chain _ _ _ (heap_listed _ _ _ _ Hok)) as [Hnd _].
  inversion Hstep as [| |? ? k2 rows2 i2 r2 Hat2 Hr2|? ? k2 rows2 i2 r2 Hat2 Hr2 Hfull| | | | |? ? k2 rows2 i2 ? Hat2 Hr2];
    unfold TablePage.no_space_error, no_space in *; subst; simplify_eq/=;
    destruct (at_slot_unique _ _ _ _ _ _ _ _ Hnd Hat Hat2) as (<- & <- & <-);
    rewrite Hr in Hr2; simplify_eq/=; destruct res as [[]| |]; simplify_eq/=.
  - split; [|by left]. eapply ids_insert, Hat.
  - split; [done|]. right. split_and!; [done..|]. destruct Hat as (Hk & _).
    destruct (listed_page _ _ _ _ _ _ (heap_listed _ _ _ _ Hok) Hk) as (_ & tp & _ & _ & Hrep & _).
    pose proof (TablePageFacts.rep_space_le _ _ Hrep). rewrite (TablePageFacts.space_insert _ _ _ _ Hr) in Hfull.
    unfold size, TablePageFacts.row_space in *. simpl in *. lia.
Qed.

(** A row is replaced where it is, or has no room there. *)
Lemma update_tuple_writable sn n (c : Ctx) cs rid k rows i r t' :
  writable sn (2 + n) c → find sn table_ref = Some (handle, cs) →
  HeapRows.at_slot cs rid k rows i → rows !! i = Some r →
  Tuple.ok (TableHandle.schema handle) t' ∧ Forall TupleCodecFacts.encodable (Tuple.data t') →
  ∃ cat' sn' res cs', Catalog.on_heap (schema_name table_ref) (TableReference.table table_ref)
      (TableHeap.update_tuple rid t') (ExecutionContext.catalog c) = (cat', res) ∧
    writable sn' n (ExecutionContext.Mk cat' (ExecutionContext.events c)) ∧ (room sn ≤ room sn')%nat ∧
    find sn' table_ref = Some (handle, cs') ∧ with_rows table_ref (rows_in cs') sn sn' ∧
    ((res = Ok tt ∧ cs' = <[k := (RecordId.page_id rid, <[i := (r.1, t')]> rows)]> cs) ∨
     (res = Err no_space ∧ cs' = cs ∧ size r.2 < size t')).
Proof.
  intros Hw Hfind Hat Hr Ht'. pose proof (writable_shown _ _ _ Hw) as Hsh.
  destruct (shown_tables _ _ _ Hsh _ _ _ Hfind) as [_ Hok]. pose proof (shown_clock _ _ _ Hsh) as Hcl.
  destruct (update_refines _ _ _ _ rid t' Hok) as (s & a & cs' & Hrun & Hstep & Hl).
  { by econstructor. }
  { pose proof (writable_spare _ _ _ Hw). unfold spare_frames in *. lia. }
  { unfold now, pool in *. simpl. lia. }
  unfold HeapRows.exec in Hrun.
  destruct (TableHeap.update_tuple rid t' (Catalog.heap_of (ExecutionContext.catalog c) handle)) as [h' res] eqn:Hup.
  rewrite (run_answer _ (λ _, HeapRows.Done) _ _ _ Hup) in Hrun. injection Hrun as -> <-.
  destruct (update_step _ _ _ _ _ _ _ _ _ _ _ _ Hok Hat Hr Hstep) as [Hids Hres].
  destruct (heap_written sn n (room sn) c table_ref handle cs _ _ _ _ Hw Hfind Hup Hl) as (sn' & Hon & Hw' & Hk & Hf' & Hrows & _).
  { rewrite Hids. by left. }
  exists (written table_ref (TableHeap.set_pool s (Catalog.heap_of (ExecutionContext.catalog c) handle)) (ExecutionContext.catalog c)), sn', res, cs'.
  split_and!; [done..| |done|done]. rewrite Hf'. by destruct handle.
Qed.

Context (assignments : list (string * Expr.t)) (selection : option Expr.t).
Notation new_row := (new_row assignments selection).
Notation rewrites := (rewrites assignments selection).
Notation update_loop := (update_next table_ref assignments selection).

Definition tuples (l : list (RecordId.t * row)) : list Tuple.t := (λ x, x.2.2) <$> l.

(** The rows written have the types of the table, and their strings can be stored. *)
Definition rewritable (l : list Tuple.t) : Prop :=
  ∀ t t', t ∈ l → new_row t = Ok (Some t') →
    Tuple.ok (TableHandle.schema handle) t' ∧ Forall TupleCodecFacts.encodable (Tuple.data t').

(** What update answers: the number of rows it wrote, unless it is zero. *)
Definition update_answer (count : Z) (m : nat) (e : ending) : result (option Tuple.t) :=
  match e with
  | Done =>
      let total := count + Z.of_nat m in
      Ok (if total =? 0 then None else Some (Tuple.Mk UPDATE_OUTPUT_SCHEMA [ScalarValue.Int32 (Some total)]))
  | Failed error => Err error
  | Crashed => Panic
  end.

(** The loop is at [todo], the rows before it being done. *)
Record updating (sn : Snapshot.t) (n : nat) (c : Ctx) cs (it : TableIterator.t D) (before todo : list (RecordId.t * row)) : Prop := Updating {
  updating_writable : writable sn n c;
  updating_find : find sn table_ref = Some (handle, cs);
  updating_handle : Catalog.handle_of (TableIterator.heap it) = handle;
  updating_upcoming : upcoming it cs todo;
  updating_rows : rows_of cs = before ++ todo;
}.

Lemma with_rows_refl sn n (c : Ctx) cs :
  writable sn n c → find sn table_ref = Some (handle, cs) → with_rows table_ref (rows_in cs) sn sn.
Proof.
  intros Hw Hf r. case_bool_decide as Hd; [|done]. unfold tables. by rewrite (writable_named _ _ _ Hw _ _ Hd), Hf.
Qed.

Lemma with_rows_trans l1 l2 sn1 sn2 sn3 :
  with_rows table_ref l1 sn1 sn2 → with_rows table_ref l2 sn2 sn3 → with_rows table_ref l2 sn1 sn3.
Proof. intros H12 H23 r. rewrite H23, H12. by case_bool_decide. Qed.

Lemma updating_fewer sn n n' (c : Ctx) cs it before todo :
  (n' ≤ n)%nat → updating sn n c cs it before todo → updating sn n' c cs it before todo.
Proof. intros Hn []. split; [by eapply writable_fewer|done..]. Qed.

(** Nothing is written yet. *)
Lemma updating_unchanged sn n (c : Ctx) cs it before todo :
  updating sn n c cs it before todo → with_rows table_ref (tuples before ++ tuples todo) sn sn.
Proof.
  intros Hup. unfold tuples. rewrite <- fmap_app, <- (updating_rows _ _ _ _ _ _ _ Hup).
  apply (with_rows_refl sn n c); apply Hup.
Qed.

(** The loop reads a row, or finds the end. *)
Lemma updating_next sn n (c : Ctx) cs it before todo :
  updating sn (3 + n) c cs it before todo →
  ∃ it' s, Catalog.on_iterator TableIterator.next it (ExecutionContext.catalog c)
      = (Catalog.set_pool s (ExecutionContext.catalog c), Ok (it', Ok ((λ x, (x.1, x.2.2)) <$> head todo))) ∧
    reached it' cs todo ∧
    updating sn n (with_pool s c) cs it' (before ++ option_list (head todo)) (tl todo).
Proof.
  intros [Hw Hf Hh Hup Hrows].
  destruct (on_iterator_next sn n c it cs todo Hw Hf Hh Hup) as (it' & s & Hrun & Hw' & Hh' & Hr).
  exists it', s. split_and!; [done..|]. split; [done..| |].
  - destruct todo as [|[rid r] rest]; [done|]. destruct Hr as (k & i & rows & Hat & _ & _ & ->). by apply upcoming_after.
  - rewrite <- (assoc_L (++)). by destruct todo.
Qed.

(** A row of the table is written, and the loop goes on behind it. *)
Lemma updating_row sn n (c : Ctx) cs it before rid r rest t' :
  updating sn (2 + n) c cs it (before ++ [(rid, r)]) rest → reached it cs ((rid, r) :: rest) →
  Tuple.ok (TableHandle.schema handle) t' ∧ Forall TupleCodecFacts.encodable (Tuple.data t') →
  ∃ cat' sn' res, Catalog.on_heap (schema_name table_ref) (TableReference.table table_ref)
      (TableHeap.update_tuple rid t') (ExecutionContext.catalog c) = (cat', res) ∧
    let c' := ExecutionContext.Mk cat' (ExecutionContext.events c) in
    writable sn' n c' ∧ (room sn ≤ room sn')%nat ∧
    ((res = Ok tt ∧ with_rows table_ref (tuples before ++ t' :: tuples rest) sn sn' ∧
      ∃ cs', updating sn' n c' cs' it (before ++ [(rid, (r.1, t'))]) rest) ∨
     (res = Err no_space ∧ with_rows table_ref (rows_in cs) sn sn' ∧ size r.2 < size t')).
Proof.
  intros [Hw Hf Hh Hup Hrows] (k & i & rows & Hat & Hslot & Hi & ->) Ht'.
  destruct (update_tuple_writable sn n c cs rid k rows i r t' Hw Hf Hslot Hi Ht')
    as (cat' & sn' & res & cs' & Hon & Hw' & Hk & Hf' & Hwith & Hres).
  exists cat', sn', res. split; [done|]. cbv zeta. split_and!; [done..|].
  destruct Hres as [[-> ->]|(-> & -> & Hsize)]; [left|by right].
  destruct Hslot as (Hk2 & Hslot & _).
  assert (rid = RecordId.Mk (RecordId.page_id rid) (Z.of_nat i)) as Hrid by (destruct rid; simpl in *; by subst).
  destruct (rows_of_at cs k i (RecordId.page_id rid) rows r Hk2 Hi) as (b & Hb & Hb').
  destruct (Hb' (r.1, t')) as [Hrows' Ha]. rewrite <- Hrid in Hb, Hrows'.
  assert (b = before) as -> by (rewrite <- (assoc_L (++)), Hb in Hrows; by apply app_inv_tail in Hrows).
  split_and!; [done| |].
  - unfold rows_in in Hwith. rewrite Hrows' in Hwith. unfold tuples. by rewrite fmap_app in Hwith.
  - eexists. split; [exact Hw'|exact Hf'|done| |by rewrite Hrows', <- (assoc_L (++))].
    rewrite <- Ha. apply upcoming_after. by apply at_row_insert.
Qed.

(** One round of the loop, after the iterator has answered. *)
Lemma update_loop_step fuel count it (c : Ctx) it' s full :
  Catalog.table_heap table_ref (ExecutionContext.catalog c) = Ok handle →
  Catalog.on_iterator TableIterator.next it (ExecutionContext.catalog c)
    = (Catalog.set_pool s (ExecutionContext.catalog c), Ok (it', Ok full)) →
  let state := MkUpdateState count (Some it') in
  let c' := with_pool s c in
  update_loop (S fuel) (MkUpdateState count (Some it), c)
  = match full with
    | None =>
        if count =? 0 then ((state, c'), Ok None)
        else ((MkUpdateState 0 (Some it'), c'),
              Ok (Some (Tuple.Mk UPDATE_OUTPUT_SCHEMA [ScalarValue.Int32 (Some (to_signed 32 count))])))
    | Some (rid, t) =>
        match new_row t with
        | Ok None => update_loop fuel (state, c')
        | Ok (Some t') =>
            let '(cat, res) := Catalog.on_heap (schema_name table_ref) (TableReference.table table_ref)
                                 (TableHeap.update_tuple rid t') (ExecutionContext.catalog c') in
            let c'' := ExecutionContext.Mk cat (ExecutionContext.events c) in
            match res with
            | Ok _ => update_loop fuel (MkUpdateState (wrap 32 (count + 1)) (Some it'), c'')
            | Err error => ((state, c''), Err error)
            | Panic => ((state, c''), Panic)
            end
        | Err error => ((state, c'), Err error)
        | Panic => ((state, c'), Panic)
        end
    end.
Proof.
  intros Hth Hon state c'. cbn [update_next]. do 2 erewrite SR_bind_Ok by done.
  erewrite SR_bind_Ok by (apply on_world_run; unfold ask_catalog; by rewrite Hth).
  erewrite SR_bind_Ok by (apply on_world_run; unfold on_catalog; by rewrite Hon).
  cbn beta iota. do 2 erewrite SR_bind_Ok by done. destruct full as [[rid t]|].
  - unfold new_row. destruct (selected selection t) as [[|]|error|] eqn:Hs; cbn [mbind result_bind];
      [|by erewrite SR_bind_Ok by done|by erewrite SR_bind_Err by done|done].
    erewrite SR_bind_Ok by done. destruct (foldR assign t assignments) as [t'|error|] eqn:Ha; cbn [mbind result_bind];
      [|by erewrite SR_bind_Err by done|done].
    erewrite SR_bind_Ok by done. unfold mbind at 1, SR_bind at 1, on_world, on_catalog. cbn [with_pool c' ExecutionContext.catalog].
    destruct (Catalog.on_heap _ _ _ _) as [cat [[]|error|]]; [|done..]. by erewrite SR_bind_Ok by done.
  - cbn [update_rows]. by destruct (count =? 0).
Qed.

(** A run of the loop, with the rows [todo] to come, that had counted [count] rows. *)
Definition updates (run : UpdateState * Ctx * result (option Tuple.t)) (count : Z) (before todo : list Tuple.t)
    (sn : Snapshot.t) (n : nat) : Prop :=
  ∃ l' m e state c' sn', run = ((state, c'), update_answer count m e) ∧ rewrites todo l' m e ∧
    writable sn' n c' ∧ (room sn ≤ room sn')%nat ∧ with_rows table_ref (before ++ l') sn sn' ∧
    (e = Done → ∃ it' cs' rows, state = MkUpdateState 0 (Some it') ∧ updating sn' n c' cs' it' rows []).

Lemma updates_skip run count before t todo sn n :
  new_row t = Ok None → updates run count (before ++ [t]) todo sn n → updates run count before (t :: todo) sn n.
Proof.
  intros Ht (l' & m & e & state & c' & sn' & Hrun & Hrw & Hw & Hk & Hwith & Hend).
  exists (t :: l'), m, e, state, c', sn'. split_and!; [done|by apply rewrites_skip|done|done| |done].
  by rewrite <- (assoc_L (++)) in Hwith.
Qed.

Lemma updates_row run count before t t' todo sn sn1 n :
  new_row t = Ok (Some t') → (room sn ≤ room sn1)%nat → with_rows table_ref (before ++ t' :: todo) sn sn1 →
  updates run (count + 1) (before ++ [t']) todo sn1 n → updates run count before (t :: todo) sn n.
Proof.
  intros Ht Hk1 Hwith1 (l' & m & e & state & c' & sn' & -> & Hrw & Hw & Hk & Hwith & Hend).
  exists (t' :: l'), (S m), e, state, c', sn'. split_and!; [|by eapply rewrites_row|done|lia| |done].
  - unfold update_answer. by replace (count + 1 + Z.of_nat m) with (count + Z.of_nat (S m)) by lia.
  - eapply with_rows_trans; [exact Hwith1|]. by rewrite <- (assoc_L (++)) in Hwith.
Qed.

Lemma updates_Err (state : UpdateState) (c' : Ctx) count before todo sn sn' n error :
  rewrites todo todo 0 (Failed error) → writable sn' n c' → (room sn ≤ room sn')%nat →
  with_rows table_ref (before ++ todo) sn sn' → updates ((state, c'), Err error) count before todo sn n.
Proof. intros. by exists todo, 0%nat, (Failed error), state, c', sn'. Qed.

(** The selected rows are rewritten in one pass. *)
Lemma update_loop_Ok todo fuel count before it sn n c cs :
  updating sn (5 * length todo + 3 + n) c cs it before todo →
  (length todo < fuel)%nat → 0 ≤ count → count + Z.of_nat (length todo) < 2 ^ 31 →
  rewritable (tuples todo) → Forall (λ t, new_row t ≠ Panic) (tuples todo) →
  updates (update_loop fuel (MkUpdateState count (Some it), c)) count (tuples before) (tuples todo) sn n.
Proof.
  revert fuel count before it sn c cs.
  induction todo as [|[rid r] rest IH]; intros fuel count before it sn c cs Hup Hf Hz Hq Hst Hnp;
    (destruct fuel as [|fuel]; [lia|]); cbn [length] in *;
    pose proof (shown_tables _ _ _ (writable_shown _ _ _ (updating_writable _ _ _ _ _ _ _ Hup)) _ _ _
      (updating_find _ _ _ _ _ _ _ Hup)) as [Hth _].
  - destruct (updating_next sn n c cs it before [] Hup) as (it' & s & Hon & _ & Hup').
    exists [], 0%nat, Done, (MkUpdateState 0 (Some it')), (with_pool s c), sn. split_and!.
    + rewrite (update_loop_step _ _ _ _ _ _ _ Hth Hon). simpl. unfold update_answer. rewrite Z.add_0_r.
      destruct (Z.eqb_spec count 0) as [->|Hne]; [done|]. by rewrite to_signed_small by (unfold signed_ok; lia).
    + constructor.
    + apply Hup'.
    + done.
    + by apply (updating_unchanged _ _ _ _ _ _ _ Hup).
    + intros _. by exists it', cs, (before ++ []).
  - destruct (updating_next sn (5 * length rest + 3 + (2 + n)) c cs it before ((rid, r) :: rest)) as (it' & s & Hon & Hr & Hup').
    { by replace (3 + _)%nat with (5 * S (length rest) + 3 + n)%nat by lia. }
    rewrite (update_loop_step _ _ _ _ _ _ _ Hth Hon). cbn [head fmap option_fmap option_map fst snd option_list tl] in *.
    change (tuples ((rid, r) :: rest)) with (r.2 :: tuples rest) in *. apply Forall_cons in Hnp as [Hnp1 Hnp].
    assert (rewritable (tuples rest)) as Hst' by (intros t t' Hin; apply Hst; by right).
    assert (∀ meta t, tuples before ++ [t] = tuples (before ++ [(rid, (meta, t))])) as Hb
      by (intros; unfold tuples; by rewrite fmap_app).
    destruct (new_row r.2) as [[t'|]|error|] eqn:Hnew; [| | |done].
    + destruct (updating_row sn (5 * length rest + 3 + n) (with_pool s c) cs it' before rid r rest t')
        as (cat & sn1 & res & Hrun & Hw1 & Hk1 & Hres); [|done|by apply (Hst r.2); [left|]|].
      { eapply updating_fewer; [|exact Hup']. lia. }
      rewrite Hrun. destruct Hres as [(-> & Hwith & cs1 & Hup1)|(-> & Hwith & Hsize)].
      * rewrite wrap_small by (unfold unsigned_ok; lia). eapply updates_row; [done..|].
        rewrite (Hb r.1 t'). apply (IH _ _ _ _ _ _ _ Hup1); [lia..|done|done].
      * eapply updates_Err; [by eapply rewrites_full|eapply writable_fewer; [|exact Hw1]; lia|done|].
        unfold rows_in in Hwith. rewrite (updating_rows _ _ _ _ _ _ _ Hup), fmap_app in Hwith. exact Hwith.
    + apply updates_skip; [done|]. rewrite (Hb r.1 r.2), <- (surjective_pairing r).
      apply (IH _ _ _ _ _ _ cs); [eapply updating_fewer; [|exact Hup']; lia|lia..|done|done].
    + eapply updates_Err; [by apply rewrites_failed|eapply writable_fewer; [|apply Hup']; lia|done|].
      by apply (updating_unchanged _ _ _ _ _ _ _ Hup).
Qed.

Lemma rewrites_not_Crashed l l' m : ¬ rewrites l l' m Crashed.
Proof. intros Hr. remember Crashed as e. by induction Hr. Qed.

(** What the statement returns: the number of rows, if there are any. *)
Definition update_result (m : nat) (e : ending) : result (list Tuple.t) := option_list <$> update_answer 0 m e.

Lemma execute_update sql_type_name table_schema fuel sn n (c : Ctx) cs :
  writable sn (5 * length (rows_in cs) + 6 + n) c → find sn table_ref = Some (handle, cs) →
  rewritable (rows_in cs) → (length (rows_in cs) + 1 < fuel)%nat → Z.of_nat (length (rows_in cs)) < 2 ^ 31 →
  ∃ l' m e c' sn',
    execute sql_type_name fuel (PhysicalPlan.Update table_ref table_schema assignments selection) c
      = (c', update_result m e) ∧
    rewrites (rows_in cs) l' m e ∧ writable sn' n c' ∧ (room sn ≤ room sn')%nat ∧ with_rows table_ref l' sn sn'.
Proof.
  intros Hw Hf Hst Hfuel Hq. unfold rows_in in *. rewrite length_fmap in *.
  destruct (shown_tables _ _ _ (writable_shown _ _ _ Hw) _ _ _ Hf) as [Hth Hok].
  set (it := TableIterator.new (Catalog.heap_of (ExecutionContext.catalog c) handle) Unbounded Unbounded).
  destruct (update_loop_Ok (rows_of cs) fuel 0 [] it sn (3 + n) c cs) as (l' & m & e & state & c' & sn' & Hrun & Hrw & Hw' & Hk & Hwith & Hend);
    [|lia|lia|lia|done| |].
  { split; [by replace (_ + (3 + n))%nat with (5 * length (rows_of cs) + 6 + n)%nat by lia|done|by destruct handle| |done].
    by apply upcoming_all. }
  { pose proof (RunFacts.heap_rows_typed _ _ _ _ Hok) as Ht. eapply Forall_impl; [exact Ht|]. intros t. apply new_row_not_Panic. }
  destruct fuel as [|[|fuel]]; [lia..|]. unfold execute, update_result.
  assert (update_init table_ref (MkUpdateState 0 None, c) = ((MkUpdateState 0 (Some it), c), Ok tt)) as Hinit.
  { unfold update_init. erewrite SR_bind_Ok by done.
    erewrite SR_bind_Ok by (apply on_world_run; unfold ask_catalog; by rewrite Hth).
    erewrite SR_bind_Ok by (by apply on_world_run). done. }
  cbn [initial init next]. rewrite (SR_bind_Ok _ _ _ _ _ Hinit). cbn [drain].
  destruct e as [|error|]; [| |by apply rewrites_not_Crashed in Hrw].
  - destruct (Hend eq_refl) as (it' & cs' & rows & -> & Hup). rewrite (SR_bind_Ok _ _ _ _ _ Hrun).
    unfold update_answer. destruct (0 + Z.of_nat m =? 0) eqn:Hm.
    + exists l', m, Done, c', sn'. split_and!; [by rewrite Hm|done|by eapply writable_fewer; [|exact Hw']; lia|done|done].
    + destruct (updating_next sn' n c' cs' it' rows [] Hup) as (it2 & s & Hon & _ & Hup').
      destruct (shown_tables _ _ _ (writable_shown _ _ _ Hw') _ _ _ (updating_find _ _ _ _ _ _ _ Hup)) as [Hth' _].
      pose proof (update_loop_step (S fuel) 0 it' c' it2 s _ Hth' Hon) as Hstep. simpl in Hstep.
      exists l', m, Done, (with_pool s c'), sn'. split_and!; [|done|apply Hup'|done|done].
      by rewrite (SR_bind_Ok _ _ _ _ _ Hstep), Hm.
  - rewrite (SR_bind_Err _ _ _ _ _ Hrun). exists l', m, (Failed error), c', sn'.
    split_and!; [done|done|by eapply writable_fewer; [|exact Hw']; lia|done|done].
Qed.

End operator.
End UpdateFacts.

(** ** Properties *)
Module UpdateProperties.
Import Snapshot RunFacts SnapshotWrite UpdateFacts.

Section properties.
Context {D : Type} `{DiskLaws D} `{Platform} `{Sqlparser}.

(** C5: an update statement rewrites its rows. One scan of the table replaces each row
    that the where clause selects by the row with the values assigned, where it is, so
    that the rows keep their order and none is visited twice; the other tables are as
    they were, and the statement returns the number of rows written. The first row whose
    values cannot be computed, or that has grown beyond the room of its page, ends the
    statement with an error: the rows before it stay rewritten, it and the others do not
    change. *)
Theorem run_update_rewrites sql name joins assigned where_ assignments selection table_ref handle cs
    (db : Database.t D) sn n fuel :
  parse_sql sql = Ok [Ast.Update (Ast.MkTable (Ast.Table name) joins) assigned where_] →
  LogicalPlanner.bind_table_name name = Ok table_ref →
  foldR LogicalPlanner.bind_assignment [] assigned = Ok assignments →
  match where_ with Some e => Some <$> LogicalPlanner.bind_expr e | None => Ok None end = Ok selection →
  find sn table_ref = Some (handle, cs) →
  writable sn (5 * length (rows_in cs) + 6 + n) (context db) →
  rewritable handle assignments selection (rows_in cs) →
  (length (rows_in cs) + 1 < fuel)%nat → Z.of_nat (length (rows_in cs)) < 2 ^ 31 →
  ∃ db' sn' l m e, Database.run fuel sql db = (db', update_result m e) ∧
    rewrites assignments selection (rows_in cs) l m e ∧ with_rows table_ref l sn sn' ∧
    writable sn' n (context db') ∧ (room sn ≤ room sn')%nat.
Proof.
  intros Hsql Hname Hassigned Hwhere Hfind Hw Hst Hf Hq.
  destruct (execute_update table_ref handle assignments selection SqlDataType.sql_type_name (TableHandle.schema handle)
    fuel sn n (context db) cs) as (l & m & e & c' & sn' & Hrun & Hrw & Hw' & Hk & Hwith); [done..|].
  assert (Database.create_logical_plan sql db
    = Ok (LogicalPlan.Update table_ref (TableHandle.schema handle) assignments selection)) as Hplan.
  { destruct (shown_tables _ _ _ (writable_shown _ _ _ Hw) _ _ _ Hfind) as [Hth _].
    unfold Database.create_logical_plan. rewrite Hsql. simpl. rewrite Hname. simpl.
    cbn [context ExecutionContext.catalog] in Hth. rewrite Hth. simpl. rewrite Hassigned. simpl.
    destruct where_ as [e0|]; [|by injection Hwhere as <-].
    destruct (LogicalPlanner.bind_expr e0); simplify_eq/=. done. }
  do 5 eexists. split_and!; [by eapply run_steps|done|done| |done]. by destruct c'.
Qed.

End properties.

(** *** An update of a small database *)
Import ExecutionDemo.

(** [update t set a = 6 where a > 1] *)
Definition demo_update : Ast.Statement :=
  Ast.Update (Ast.MkTable (Ast.Table [SqlProperties.ident "t"]) [])
    [Ast.MkAssignment [SqlProperties.ident "a"] (SqlProperties.num "6")]
    (Some (Ast.BinaryOp (SqlProperties.col "a") Ast.Gt (SqlProperties.num "1"))).
#[local] Instance update_parser : Sqlparser := SqlProperties.parser_of "update" demo_update.
#[local] Existing Instance demo_platform.

Definition demo_assignments : list (string * Expr.t) := [("a"%string, Expr.Literal (ScalarValue.Int64 (Some 6)))].
Definition demo_selection : option Expr.t :=
  Some (Expr.Binary (Expr.Column None "a") BinaryOp.Gt (Expr.Literal (ScalarValue.Int64 (Some 1)))).

Lemma demo_new_row : new_row demo_assignments demo_selection (TablePageSpec.demo_tuple 5 "five")
  = Ok (Some (TablePageSpec.demo_tuple 6 "five")).
Proof. reflexivity. Qed.

Lemma demo_rewrites_row rest l m e :
  rewrites demo_assignments demo_selection (TablePageSpec.demo_tuple 5 "five" :: rest) l m e →
  ∃ l' m', l = TablePageSpec.demo_tuple 6 "five" :: l' ∧ m = S m' ∧
    rewrites demo_assignments demo_selection rest l' m' e.
Proof.
  pose proof demo_new_row as Hn.
  inversion 1 as [|? ? ? ? ? Ht|? t' ? l' m' ? Ht Hr|? ? ? Ht|? ? ? Ht Hsize]; subst; rewrite Hn in Ht; simplify_eq.
  - by exists l', m'.
  - by vm_compute in Hsize.
Qed.

Lemma run_update_rewrites_witness :
  ∃ sn (db : Database.t DiskManager.t) db' sn', Snapshot.tables sn demo_ref = Some demo_rows.*2 ∧
    Database.run 100 "update" db = (db', update_result 2 Done) ∧
    Snapshot.tables sn' demo_ref = Some [TablePageSpec.demo_tuple 6 "five"; TablePageSpec.demo_tuple 6 "five"].
Proof.
  destruct WriteDemo.demo_writable as (sn & c & handle & cs & Hw & Hfind & Ht & Hs & _).
  set (db := Database.Mk (ExecutionContext.catalog c) 1 (ExecutionContext.events c)).
  destruct (run_update_rewrites "update" [SqlProperties.ident "t"] [] [Ast.MkAssignment [SqlProperties.ident "a"] (SqlProperties.num "6")]
    (Some (Ast.BinaryOp (SqlProperties.col "a") Ast.Gt (SqlProperties.num "1")))
    demo_assignments demo_selection demo_ref handle cs db sn 0 100)
    as (db' & sn' & l & m & e & Hrun & Hrw & Hwith & _); [done..| | |rewrite Ht; simpl; lia|rewrite Ht; simpl; lia|].
  - eapply writable_fewer; [|by destruct c]. rewrite Ht. simpl. lia.
  - unfold rewritable. rewrite Ht, Hs. intros t t' Hin.
    assert (t = TablePageSpec.demo_tuple 5 "five") as ->
      by (by repeat first [apply elem_of_nil in Hin | apply elem_of_cons in Hin as [->|Hin]]).
    rewrite demo_new_row. intros [= <-]. by apply TablePageSpec.demo_row_ok.
  - rewrite Ht in Hrw. apply demo_rewrites_row in Hrw as (l1 & m1 & -> & -> & Hrw).
    apply demo_rewrites_row in Hrw as (l2 & m2 & -> & -> & Hrw). inversion Hrw; subst. exists sn, db, db', sn'. split_and!; [|done|].
    + unfold Snapshot.tables. rewrite Hfind. simpl. by rewrite Ht.
    + by rewrite Hwith, bool_decide_true.
Defined.

End UpdateProperties.
