(* ===== verification/CreateSpec.v ===== *)
(** * CreateSpec: creating tables

    What a create table statement does: the table is there, empty, on a page that was not
    used, and the information schema describes it, a row for the table and a row for
    each of its columns. The other tables stay as they are. *)
From S2P Require Import Prelude CommonCodec Floats Text Scalar Schema TupleCodec TablePage IndexPage.
From S2P Require Import DiskPages DiskManager Replacer BufferPool PageStore TableHeap Index Catalog.
From S2P Require Import Expressions LogicalPlan Ast SqlPlanner Operators Meaning Typing Optimizer.
From S2P Require Import Execution Planner Streams Scans ExecutionSpec SqlSpec Transactions Database DatabaseSpec Writes.
Local Open Scope Z_scope.

Module CreateFacts.
Import TableHeapFacts TableHeapSpec Snapshot QueryExecution SnapshotWrite.

(** ** The information schema *)

(** A table of the information schema. *)
Definition information (name : string) : TableReference.t := TableReference.Partial INFORMATION_SCHEMA_NAME name.

(** The rows that describe a table whose first page is [p]. *)
Definition table_row (table_ref : TableReference.t) (p : Z) : Tuple.t :=
  Tuple.Mk TABLES_SCHMEA [varchar (catalog_name table_ref); varchar (schema_name table_ref);
    varchar (TableReference.table table_ref); uint32 p].

Definition column_row (sql_type_name : DataType.t → string) (table_ref : TableReference.t) (col : Column.t) : Tuple.t :=
  Tuple.Mk COLUMNS_SCHMEA [varchar (catalog_name table_ref); varchar (schema_name table_ref);
    varchar (TableReference.table table_ref); varchar (Column.name col);
    varchar (sql_type_name (Column.data_type col)); ScalarValue.Boolean (Some (Column.nullable col))].

(** The information schema is in the snapshot. *)
Definition described (sn : Snapshot.t) (name : string) (s : Schema.t) : Prop :=
  ∃ handle cs, find sn (information name) = Some (handle, cs) ∧ TableHandle.schema handle = s.

Lemma described_frame sn sn' table_ref name s :
  described sn name s → others_found table_ref sn sn' → ¬ same_table (information name) table_ref → described sn' name s.
Proof. intros (handle & cs & Hf & Hs) Ho Hne. exists handle, cs. by rewrite Ho. Qed.

Lemma information_ne name name' : name ≠ name' → ¬ same_table (information name) (information name').
Proof. intros Hne [_ Ht]. done. Qed.

Section catalog.
Context {D : Type} `{DiskLaws D}.
Notation Ctx := (ExecutionContext.t D).

Lemma checks_found name (cat : Catalog.t D) ct :
  Catalog.find_table INFORMATION_SCHEMA_NAME name cat = Some ct →
  Catalog.check_information_schema cat = (cat, Ok tt) ∧
  ∀ msg, Catalog.check_information_table name msg cat = (cat, Ok tt).
Proof.
  intros Hfound. unfold Catalog.check_information_schema, Catalog.check_information_table. rewrite Hfound. split; [|done].
  unfold Catalog.find_table in Hfound. by destruct (Catalog.schemas cat !! INFORMATION_SCHEMA_NAME).
Qed.

Lemma described_found sn n (c : Ctx) name s :
  shown sn n c → described sn name s →
  ∃ ct, Catalog.find_table INFORMATION_SCHEMA_NAME name (ExecutionContext.catalog c) = Some ct.
Proof.
  intros Hsh (handle & cs & Hf & _). destruct (shown_tables _ _ _ Hsh _ _ _ Hf) as [Hth _].
  destruct (table_heap_found _ _ _ Hth) as (ct & _ & _ & Hfound). by exists ct.
Qed.

Lemma check_information_Ok sn n (c : Ctx) name s :
  writable sn n c → described sn name s →
  let cat := ExecutionContext.catalog c in
  Catalog.check_information_schema cat = (cat, Ok tt) ∧
  ∀ msg, Catalog.check_information_table name msg cat = (cat, Ok tt).
Proof.
  intros Hw Hd cat. destruct (described_found _ _ _ _ _ (writable_shown _ _ _ Hw) Hd) as [ct Hct]. by eapply checks_found.
Qed.

(** A row of the information schema is written. *)
Lemma insert_information_Ok sn n k (c : Ctx) name s t :
  writable sn (2 + n) c → described sn name s → (S k ≤ room sn)%nat → storable s t →
  ∃ cat' sn', Catalog.insert_information name (Ok t) (ExecutionContext.catalog c) = (cat', Ok tt) ∧
    writable sn' n (ExecutionContext.Mk cat' (ExecutionContext.events c)) ∧ (k ≤ room sn')%nat ∧
    appended (information name) [t] sn sn' ∧ others_found (information name) sn sn' ∧ described sn' name s ∧
    pages_kept (information name) sn sn'.
Proof.
  intros Hw (handle & cs & Hf & <-) Hk [Hrow Hspace]. destruct (room sn) as [|k'] eqn:Hroom; [lia|].
  destruct (insert_tuple_writable sn n k' c (information name) handle cs t Hw Hf Hroom Hrow Hspace)
    as (cat' & rid & handle' & cs' & sn' & Hrun & Hw' & Hk' & Hf' & Hs' & Happ & Hother & Hkept).
  exists cat', sn'. split_and!; [|done|lia|done..|by exists handle', cs'|exact Hkept].
  unfold Catalog.insert_information. erewrite SR_bind_Ok by done. by erewrite SR_bind_Ok by exact Hrun.
Qed.

Lemma insert_columns_Ok sql_type_name table_ref columns sn n k (c : Ctx) :
  let rows := column_row sql_type_name table_ref <$> columns in
  writable sn (2 * length columns + n) c → described sn INFORMATION_SCHEMA_COLUMNS COLUMNS_SCHMEA →
  (length columns + k ≤ room sn)%nat → Forall (storable COLUMNS_SCHMEA) rows →
  ∃ cat' sn', Catalog.insert_columns sql_type_name (catalog_name table_ref) (schema_name table_ref)
      (TableReference.table table_ref) columns (ExecutionContext.catalog c) = (cat', Ok tt) ∧
    writable sn' n (ExecutionContext.Mk cat' (ExecutionContext.events c)) ∧ (k ≤ room sn')%nat ∧
    appended (information INFORMATION_SCHEMA_COLUMNS) rows sn sn' ∧
    others_found (information INFORMATION_SCHEMA_COLUMNS) sn sn'.
Proof.
  cbv zeta. revert sn c. induction columns as [|col columns IH]; intros sn c Hw Hd Hk Hst; cbn [length fmap list_fmap] in *.
  { exists (ExecutionContext.catalog c), sn. split_and!; [done|by destruct c|lia|apply appended_refl|done]. }
  apply Forall_cons in Hst as [Ht Hst].
  destruct (insert_information_Ok sn (2 * length columns + n) (length columns + k) c INFORMATION_SCHEMA_COLUMNS
    COLUMNS_SCHMEA (column_row sql_type_name table_ref col)) as (cat1 & sn1 & Hrun & Hw1 & Hk1 & Happ1 & Hot1 & Hd1 & _);
    [by eapply writable_fewer; [|exact Hw]; lia|done|lia|done|].
  destruct (IH sn1 _ Hw1 Hd1 ltac:(lia) Hst) as (cat2 & sn2 & Hrun2 & Hw2 & Hk2 & Happ2 & Hot2).
  exists cat2, sn2. split_and!; [|done|done|by apply (appended_trans _ [_] _ _ sn1)|].
  - cbn [Catalog.insert_columns]. by rewrite (SR_bind_Ok _ _ _ _ _ Hrun).
  - intros r Hr. by rewrite Hot2, Hot1.
Qed.

(** ** The catalog *)

(** The catalog with the handle of a new table. *)
Definition with_new_table (table_ref : TableReference.t) (h : TableHeap.t D) (cat : Catalog.t D) : Catalog.t D :=
  let name := TableReference.table table_ref in
  Catalog.set_schemas (alter (λ s, CatalogSchema.set_tables
    (<[name := CatalogTable.new name (Catalog.handle_of h)]> (CatalogSchema.tables s)) s)
    (schema_name table_ref) (Catalog.schemas cat)) (Catalog.set_pool (TableHeap.buffer_pool h) cat).

Lemma catalog_table_new table_ref h (cat : Catalog.t D) cs r ct :
  Catalog.schemas cat !! schema_name table_ref = Some cs →
  Catalog.catalog_table r (with_new_table table_ref h cat) = Ok ct ↔
    if bool_decide (same_table r table_ref)
    then ct = CatalogTable.new (TableReference.table table_ref) (Catalog.handle_of h)
    else Catalog.catalog_table r cat = Ok ct.
Proof.
  intros Hcs. unfold Catalog.catalog_table, with_new_table. cbn [Catalog.schemas Catalog.set_schemas Catalog.set_pool].
  case_bool_decide as Hd.
  - destruct Hd as [-> ->]. rewrite lookup_alter_eq, Hcs. simpl. rewrite lookup_insert_eq. simpl. naive_solver.
  - destruct (decide (schema_name r = schema_name table_ref)) as [Hs|Hs]; [|by rewrite lookup_alter_ne].
    rewrite Hs, lookup_alter_eq, Hcs. simpl. rewrite lookup_insert_ne; [done|]. intros Ht. by apply Hd.
Qed.

(** What the tables are when a table was created. *)
Definition created (sql_type_name : DataType.t → string) (table_ref : TableReference.t) (s : Schema.t) (p : Z)
    (sn sn' : Snapshot.t) : Prop :=
  ∀ r, tables sn' r =
    if bool_decide (same_table r table_ref) then Some []
    else if bool_decide (same_table r (information INFORMATION_SCHEMA_TABLES)) then
      (λ l, l ++ [table_row table_ref p]) <$> tables sn r
    else if bool_decide (same_table r (information INFORMATION_SCHEMA_COLUMNS)) then
      (λ l, l ++ (column_row sql_type_name table_ref <$> Schema.columns s)) <$> tables sn r
    else tables sn r.

(** The heap of a new table. *)
Lemma new_heap_Ok sn n k (c : Ctx) table_ref s cs :
  writable sn (1 + n) c → room sn = S k → Catalog.schemas (ExecutionContext.catalog c) !! schema_name table_ref = Some cs →
  ∃ h sn' p, let cat' := with_new_table table_ref h (ExecutionContext.catalog c) in
    Catalog.on_pool (TableHeap.try_new s) (ExecutionContext.catalog c)
      = (Catalog.set_pool (TableHeap.buffer_pool h) (ExecutionContext.catalog c), Ok h) ∧
    TableHeap.schema h = s ∧ TableHeap.first_page_id h = p ∧ unsigned_ok 32 p ∧
    PageStore.pages (store sn) !! p = None ∧ room sn' = k ∧
    writable sn' n (ExecutionContext.Mk cat' (ExecutionContext.events c)) ∧
    find sn' table_ref = Some (Catalog.handle_of h, [(p, [])]) ∧ others_found table_ref sn sn' ∧
    PageStore.refs (store sn') = PageStore.refs (store sn) ∧ PageStore.frames (store sn') = PageStore.frames (store sn).
Proof.
  intros Hw Hroom Hcs. pose proof (writable_shown _ _ _ Hw) as Hsh. pose proof (shown_store _ _ _ Hsh) as Hst.
  pose proof (shown_clock _ _ _ Hsh) as Hcl. rewrite Hroom in Hst.
  destruct (try_new_Ok (pool c) (store sn) k s Hst) as (b & h & st' & Hrun & Hb & Hs & Hok & Hrefs & Hframes & Hts & Hnew & Hframe).
  { pose proof (writable_spare _ _ _ Hw). unfold spare_frames in *. lia. }
  { lia. }
  exists h, (with_table table_ref (Catalog.handle_of h, [(TableHeap.first_page_id h, [])]) st' k
    (Catalog.schemas (with_new_table table_ref h (ExecutionContext.catalog c))) sn), (TableHeap.first_page_id h).
  cbv zeta. split_and!; [|done|done| |done|done| | |apply with_table_others|done|done].
  - unfold Catalog.on_pool. unfold pool in Hrun. by rewrite Hrun, Hb.
  - apply (page_unsigned _ _ _ _ (heap_shows _ _ _ _ Hok)). apply (heap_ok_pages _ _ _ _ _ Hok). by left.
  - eapply new_table_writable; [done..|]. intros r ct. by apply catalog_table_new with (cs := cs).
  - cbn [find with_table]. by rewrite bool_decide_true.
Qed.

Lemma not_found (c : Ctx) sn n table_ref cs :
  writable sn n c → find sn table_ref = None →
  Catalog.schemas (ExecutionContext.catalog c) !! schema_name table_ref = Some cs →
  CatalogSchema.tables cs !! TableReference.table table_ref = None.
Proof.
  intros Hw Hf Hcs. destruct (CatalogSchema.tables cs !! _) as [ct|] eqn:Hct; [|done].
  destruct (writable_covers _ _ _ Hw table_ref (CatalogTable.table ct)) as [? Hx]; [|congruence].
  unfold Catalog.table_heap, Catalog.catalog_table. rewrite Hcs. simpl. by rewrite Hct.
Qed.

Lemma created_intro sql_type_name table_ref s p sn sn1 sn2 sn3 :
  others_found table_ref sn sn1 → (∀ r, same_table r table_ref → tables sn1 r = Some []) →
  ¬ same_table (information INFORMATION_SCHEMA_TABLES) table_ref →
  ¬ same_table (information INFORMATION_SCHEMA_COLUMNS) table_ref →
  appended (information INFORMATION_SCHEMA_TABLES) [table_row table_ref p] sn1 sn2 →
  appended (information INFORMATION_SCHEMA_COLUMNS) (column_row sql_type_name table_ref <$> Schema.columns s) sn2 sn3 →
  created sql_type_name table_ref s p sn sn3.
Proof.
  intros Hot Hnew Hnt Hnc H12 H23 r. rewrite H23, H12. destruct (decide (same_table r table_ref)) as [Hr|Hr].
  - assert (∀ name, ¬ same_table (information name) table_ref → ¬ same_table r (information name)) as Hne.
    { intros name Hn Hi. apply Hn. by rewrite <- Hi. }
    rewrite (bool_decide_true _ Hr), !bool_decide_false by auto. by apply Hnew.
  - rewrite (bool_decide_false _ Hr). assert (tables sn1 r = tables sn r) as -> by (unfold tables; by rewrite Hot).
    destruct (decide (same_table r (information INFORMATION_SCHEMA_TABLES))) as [Ht|Ht].
    + rewrite (bool_decide_true _ Ht), bool_decide_false; [done|]. intros Hc.
      destruct Ht as [_ Ht], Hc as [_ Hc]. rewrite Ht in Hc. by vm_compute in Hc.
    + by rewrite (bool_decide_false _ Ht).
Qed.

(** [create_table] on a name that is free. *)
Lemma create_table_Ok sql_type_name table_ref s sn n k (c : Ctx) cs :
  let m := length (Schema.columns s) in
  writable sn (2 * m + 3 + n) c → (m + 2 + k ≤ room sn)%nat →
  Catalog.schemas (ExecutionContext.catalog c) !! schema_name table_ref = Some cs → find sn table_ref = None →
  described sn INFORMATION_SCHEMA_TABLES TABLES_SCHMEA → described sn INFORMATION_SCHEMA_COLUMNS COLUMNS_SCHMEA →
  (∀ p, unsigned_ok 32 p → storable TABLES_SCHMEA (table_row table_ref p)) →
  Forall (storable COLUMNS_SCHMEA) (column_row sql_type_name table_ref <$> Schema.columns s) →
  ∃ cat' handle p sn', Catalog.create_table sql_type_name table_ref s (ExecutionContext.catalog c) = (cat', Ok handle) ∧
    PageStore.pages (store sn) !! p = None ∧ created sql_type_name table_ref s p sn sn' ∧
    find sn' table_ref = Some (handle, [(p, [])]) ∧ TableHandle.schema handle = s ∧
    writable sn' n (ExecutionContext.Mk cat' (ExecutionContext.events c)) ∧ (k ≤ room sn')%nat.
Proof.
  intros m Hw Hk Hcs Hf Hdt Hdc Hrow Hrows. destruct (room sn) as [|room1] eqn:Hroom; [lia|].
  pose proof (not_found _ _ _ _ _ Hw Hf Hcs) as Hnew.
  assert (∀ name s', described sn name s' → ¬ same_table (information name) table_ref) as Hne.
  { intros name s' (handle & cs' & Hf' & _) Hs. rewrite (writable_named _ _ _ Hw _ _ Hs) in Hf'. congruence. }
  destruct (new_heap_Ok sn (2 * m + 2 + n) room1 c table_ref s cs)
    as (h & sn1 & p & Hrun1 & Hs & Hp & Hpu & Hfresh & Hroom1 & Hw1 & Hf1 & Hot1 & _);
    [by eapply writable_fewer; [|exact Hw]; lia|done..|].
  pose proof (described_frame _ _ _ _ _ Hdt Hot1 (Hne _ _ Hdt)) as Hdt1.
  pose proof (described_frame _ _ _ _ _ Hdc Hot1 (Hne _ _ Hdc)) as Hdc1.
  set (c1 := ExecutionContext.Mk (with_new_table table_ref h (ExecutionContext.catalog c)) (ExecutionContext.events c)) in *.
  destruct (insert_information_Ok sn1 (2 * m + n) (m + k) c1 INFORMATION_SCHEMA_TABLES TABLES_SCHMEA (table_row table_ref p))
    as (cat2 & sn2 & Hrun2 & Hw2 & Hk2 & Happ2 & Hot2 & Hdt2 & _);
    [by eapply writable_fewer; [|exact Hw1]; lia|done|lia|by apply Hrow|].
  pose proof (described_frame _ _ _ _ _ Hdc1 Hot2 ltac:(by apply information_ne)) as Hdc2.
  destruct (insert_columns_Ok sql_type_name table_ref (Schema.columns s) sn2 n k _ Hw2 Hdc2 ltac:(fold m; lia) Hrows)
    as (cat3 & sn3 & Hrun3 & Hw3 & Hk3 & Happ3 & Hot3).
  exists cat3, (Catalog.handle_of h), p, sn3. split_and!; [|done| | |done|done|done].
  - unfold Catalog.create_table. erewrite SR_bind_Ok by done. rewrite Hcs. erewrite SR_bind_Ok by done.
    rewrite bool_decide_false by (rewrite Hnew; by intros []). rewrite (SR_bind_Ok _ _ _ _ _ Hrun1).
    erewrite SR_bind_Ok by done.
    destruct (check_information_Ok _ _ _ _ _ Hw1 Hdt1) as [Hc1 Hc2].
    rewrite (SR_bind_Ok _ _ _ _ _ Hc1), (SR_bind_Ok _ _ _ _ _ (Hc2 _)).
    assert (TableHandle.first_page_id (Catalog.handle_of h) = p) as -> by done.
    rewrite (SR_bind_Ok _ _ _ _ _ Hrun2).
    destruct (check_information_Ok _ _ _ _ _ Hw2 Hdc2) as [_ Hc3]. rewrite (SR_bind_Ok _ _ _ _ _ (Hc3 _)).
    by rewrite (SR_bind_Ok _ _ _ _ _ Hrun3).
  - eapply created_intro; [done| |by eapply Hne..|done|done]. intros r Hr. unfold tables.
    by rewrite (writable_named _ _ _ Hw1 _ _ Hr), Hf1.
  - rewrite Hot3 by (intros Hx; symmetry in Hx; by apply (Hne _ _ Hdc)).
    by rewrite Hot2 by (intros Hx; symmetry in Hx; by apply (Hne _ _ Hdt)).
Qed.

(** A name that is not free, or a schema that is not there. *)
Lemma create_table_Err sql_type_name table_ref s sn n (c : Ctx) :
  writable sn n c →
  match Catalog.schemas (ExecutionContext.catalog c) !! schema_name table_ref, find sn table_ref with
  | None, _ => Catalog.create_table sql_type_name table_ref s (ExecutionContext.catalog c)
      = (ExecutionContext.catalog c, Err (Storage "catalog schema {} not created yet"))
  | Some _, Some _ => Catalog.create_table sql_type_name table_ref s (ExecutionContext.catalog c)
      = (ExecutionContext.catalog c, Err (Storage "Cannot create duplicated table"))
  | Some _, None => True
  end.
Proof.
  intros Hw. unfold Catalog.create_table, gets, mbind, SR_bind.
  destruct (Catalog.schemas (ExecutionContext.catalog c) !! schema_name table_ref) as [cs|] eqn:Hcs; [|done].
  destruct (find sn table_ref) as [[handle rs]|] eqn:Hf; [|done]. simpl. rewrite bool_decide_true; [done|].
  destruct (shown_tables _ _ _ (writable_shown _ _ _ Hw) _ _ _ Hf) as [Hth _].
  destruct (table_heap_found _ _ _ Hth) as (ct & Hct & _). unfold Catalog.catalog_table in Hct.
  rewrite Hcs in Hct. simpl in Hct. by destruct (CatalogSchema.tables cs !! _).
Qed.

(** ** The statement *)

Lemma check_names_spec names columns :
  LogicalPlanner.check_names names columns = Ok tt →
  Forall (λ col, existsb (String.eqb (Column.name col)) names = false) columns ∧ Schema.no_clash columns = true.
Proof.
  revert names. induction columns as [|col columns IH]; intros names; cbn [LogicalPlanner.check_names Schema.no_clash]; [done|].
  destruct (existsb _ names) eqn:He; [done|]. intros [Hn Hc]%IH. split.
  - constructor; [done|]. eapply Forall_impl; [exact Hn|]. intros c'. cbn [existsb]. by intros [_ ?]%orb_false_iff.
  - rewrite Hc, andb_true_r. apply forallb_forall. intros c' Hin%list_elem_of_In. rewrite Forall_forall in Hn.
    specialize (Hn _ Hin). cbn [existsb] in Hn. apply orb_false_iff in Hn as [Hn _]. rewrite String.eqb_sym in Hn.
    unfold Schema.clash. destruct (Column.relation col), (Column.relation c'); rewrite ?Hn, ?andb_false_r; done.
Qed.

(** The operator makes the table when it is first asked for a row. *)
Lemma execute_create `{Platform} sql_type_name fuel table_ref s (c : Ctx) cat' (r : result TableHandle.t) :
  Catalog.create_table sql_type_name table_ref s (ExecutionContext.catalog c) = (cat', r) →
  execute sql_type_name (S fuel) (PhysicalPlan.CreateTable table_ref s) c
    = (ExecutionContext.Mk cat' (ExecutionContext.events c), (λ _, []) <$> r).
Proof.
  intros Hr. unfold execute. cbn [init initial next drain]. erewrite SR_bind_Ok by done.
  unfold create_table_next, on_world, on_catalog, mbind, SR_bind. rewrite Hr. by destruct r.
Qed.

End catalog.
End CreateFacts.

(** ** Properties *)
Module CreateProperties.
Import TableHeapFacts Snapshot RunFacts SnapshotWrite CreateFacts.

Section properties.
Context {D : Type} `{DiskLaws D} `{Platform} `{Sqlparser}.

(** C6: a create table statement makes its table. When the columns have different names,
    the schema is there and the name is free, the table is in the catalog with the
    columns of the statement, empty, on one page that was not used; the information
    schema has one more row for the table, with the id of that page, and one for each of
    its columns; the other tables are as they were, and rows can be inserted. A table
    that is there already, or a schema that is not, is an error that changes nothing. *)
Theorem run_create_table sql name column_defs columns table_ref (db : Database.t D) sn n k fuel :
  let m := length columns in
  parse_sql sql = Ok [Ast.CreateTable name column_defs] → LogicalPlanner.bind_table_name name = Ok table_ref →
  mapR (LogicalPlanner.bind_column table_ref) column_defs = Ok columns →
  LogicalPlanner.check_column_name_conflict columns = Ok tt →
  writable sn (2 * m + 3 + n) (context db) → (m + 2 + k ≤ room sn)%nat → (0 < fuel)%nat →
  described sn INFORMATION_SCHEMA_TABLES TABLES_SCHMEA → described sn INFORMATION_SCHEMA_COLUMNS COLUMNS_SCHMEA →
  (∀ p, unsigned_ok 32 p → storable TABLES_SCHMEA (table_row table_ref p)) →
  Forall (storable COLUMNS_SCHMEA) (column_row SqlDataType.sql_type_name table_ref <$> columns) →
  match Catalog.schemas (Database.catalog db) !! schema_name table_ref, find sn table_ref with
  | None, _ => Database.run fuel sql db = (db, Err (Storage "catalog schema {} not created yet"))
  | Some _, Some _ => Database.run fuel sql db = (db, Err (Storage "Cannot create duplicated table"))
  | Some _, None =>
      ∃ db' p handle sn', Database.run fuel sql db = (db', Ok []) ∧ PageStore.pages (store sn) !! p = None ∧
        created SqlDataType.sql_type_name table_ref (Schema.Mk columns) p sn sn' ∧
        find sn' table_ref = Some (handle, [(p, [])]) ∧ TableHandle.schema handle = Schema.Mk columns ∧
        writable sn' n (context db') ∧ (k ≤ room sn')%nat
  end.
Proof.
  intros m Hsql Hname Hcols Hcheck Hw Hk Hf Hdt Hdc Hrow Hrows. destruct fuel as [|fuel]; [lia|].
  assert (∀ c' r, execute SqlDataType.sql_type_name (S fuel) (PhysicalPlan.CreateTable table_ref (Schema.Mk columns))
    (context db) = (c', r) → Database.run (S fuel) sql db
    = (Database.Mk (ExecutionContext.catalog c') (Database.parallelism db) (ExecutionContext.events c'), r)) as Hrun.
  { intros c' r Hex. eapply (run_steps _ _ _ (LogicalPlan.CreateTable table_ref columns)); [|done| |exact Hex].
    - unfold Database.create_logical_plan. rewrite Hsql. simpl. unfold LogicalPlanner.plan_create_table.
      rewrite Hname. simpl. rewrite Hcols. simpl. by rewrite Hcheck.
    - cbn. unfold Schema.new, Schema.new_with_check. by rewrite (proj2 (check_names_spec _ _ Hcheck)). }
  pose proof (create_table_Err SqlDataType.sql_type_name table_ref (Schema.Mk columns) _ _ _ Hw) as Herr.
  cbn [context ExecutionContext.catalog] in Herr.
  destruct (Catalog.schemas (Database.catalog db) !! schema_name table_ref) as [cs|] eqn:Hcs.
  2:{ rewrite (Hrun _ _ (execute_create _ _ _ _ (context db) _ _ Herr)). by destruct db. }
  destruct (find sn table_ref) as [x|] eqn:Hfind.
  { rewrite (Hrun _ _ (execute_create _ _ _ _ (context db) _ _ Herr)). by destruct db. }
  destruct (create_table_Ok SqlDataType.sql_type_name table_ref (Schema.Mk columns) sn n k (context db) cs)
    as (cat' & handle & p & sn' & Hex & Hp & Hcr & Hf' & Hs & Hw' & Hk'); [done..|].
  do 4 eexists. split_and!; [exact (Hrun _ _ (execute_create _ _ _ _ (context db) _ _ Hex))|done..].
Qed.

End properties.

(** *** A table in a small database *)
Import ExecutionDemo.

(** [create table u (a int)] *)
Definition demo_create : Ast.Statement :=
  Ast.CreateTable [SqlProperties.ident "u"] [Ast.MkColumnDef (SqlProperties.ident "a") (Ast.Int None) []].
#[local] Instance create_parser : Sqlparser := SqlProperties.parser_of "create" demo_create.
#[local] Existing Instance demo_platform.

Definition demo_u : TableReference.t := TableReference.Bare "u".
Definition demo_columns : list Column.t :=
  [Column.with_relation (Some demo_u) (Column.new "a" DataType.Int32 true)].

Lemma table_row_storable p : unsigned_ok 32 p → storable TABLES_SCHMEA (table_row demo_u p).
Proof.
  intros Hp. split; [|by vm_compute]. split; [done|]. split; [split; [done|]|].
  - repeat (apply Forall2_cons; split; [done|]). done.
  - repeat (apply Forall_cons; split; [done|]). done.
Qed.

Lemma column_row_storable :
  Forall (storable COLUMNS_SCHMEA) (column_row SqlDataType.sql_type_name demo_u <$> demo_columns).
Proof.
  apply Forall_singleton. split; [|by vm_compute]. split; [done|]. split; [split; [done|]|].
  - repeat (apply Forall2_cons; split; [done|]). done.
  - repeat (apply Forall_cons; split; [done|]). done.
Qed.

(** The small database with the tables of the information schema. *)
Lemma add_information sn n (c : ExecutionContext.t DiskManager.t) k name s cs :
  writable sn (1 + n) c → room sn = S k → Catalog.schemas (ExecutionContext.catalog c) !! INFORMATION_SCHEMA_NAME = Some cs →
  ∃ sn' c' cs', writable sn' n c' ∧ room sn' = k ∧ described sn' name s ∧ others_found (information name) sn sn' ∧
    Catalog.schemas (ExecutionContext.catalog c') !! INFORMATION_SCHEMA_NAME = Some cs' ∧
    (∀ x, x ≠ INFORMATION_SCHEMA_NAME → Catalog.schemas (ExecutionContext.catalog c') !! x
      = Catalog.schemas (ExecutionContext.catalog c) !! x) ∧
    (∀ m, spare_frames m (store sn) → spare_frames m (store sn')).
Proof.
  intros Hw Hroom Hcs. destruct (new_heap_Ok sn n k c (information name) s cs Hw Hroom Hcs)
    as (h & sn' & p & _ & Hs & _ & _ & _ & Hroom' & Hw' & Hf' & Hot & Hrefs & Hframes).
  do 3 eexists. split_and!; [exact Hw'|done|by do 2 eexists|done| | |].
  - cbn [ExecutionContext.catalog]. unfold with_new_table. cbn [Catalog.schemas Catalog.set_schemas].
    change (schema_name _) with INFORMATION_SCHEMA_NAME. by rewrite lookup_alter_eq, Hcs.
  - intros x Hx. cbn [ExecutionContext.catalog]. unfold with_new_table. cbn [Catalog.schemas Catalog.set_schemas].
    by apply lookup_alter_ne.
  - intros m. unfold spare_frames. by rewrite Hrefs, Hframes.
Qed.

Lemma demo_described :
  ∃ sn (c : ExecutionContext.t DiskManager.t) cs, writable sn 900 c ∧ (8 ≤ room sn)%nat ∧
    described sn INFORMATION_SCHEMA_TABLES TABLES_SCHMEA ∧ described sn INFORMATION_SCHEMA_COLUMNS COLUMNS_SCHMEA ∧
    find sn demo_u = None ∧ Catalog.schemas (ExecutionContext.catalog c) !! DEFAULT_SCHEMA_NAME = Some cs.
Proof.
  destruct WriteDemo.demo_writable as (sn & c & handle & cs & Hw & Hfind & Ht & Hs & Hroom & Hall & Hinf).
  destruct (room sn) as [|[|k]] eqn:Hr; [lia..|].
  destruct (shown_tables _ _ _ (writable_shown _ _ _ Hw) _ _ _ Hfind) as [(ct & _ & _ & Hpub)%table_heap_found _].
  unfold Catalog.find_table in Hpub. change (schema_name demo_ref) with DEFAULT_SCHEMA_NAME in Hpub.
  destruct (Catalog.schemas (ExecutionContext.catalog c) !! DEFAULT_SCHEMA_NAME) as [pub|] eqn:Hp; [|done].
  pose proof (new_schema_writable sn 1000 c INFORMATION_SCHEMA_NAME Hw Hinf) as Hw0.
  match type of Hw0 with writable ?a _ ?b => set (sn0 := a) in *; set (c0 := b) in * end.
  destruct (add_information sn0 950 c0 (S k) INFORMATION_SCHEMA_TABLES TABLES_SCHMEA (CatalogSchema.new INFORMATION_SCHEMA_NAME))
    as (sn1 & c1 & cs1 & Hw1 & Hr1 & Hd1 & Ho1 & Hi1 & Hs1 & _);
    [eapply writable_fewer; [|exact Hw0]; lia|done|apply lookup_insert_eq|].
  destruct (add_information sn1 900 c1 k INFORMATION_SCHEMA_COLUMNS COLUMNS_SCHMEA cs1)
    as (sn2 & c2 & cs2 & Hw2 & Hr2 & Hd2 & Ho2 & Hi2 & Hs2 & _); [eapply writable_fewer; [|exact Hw1]; lia|done|done|].
  exists sn2, c2, pub. split_and!; [done|lia| |done| |].
  - eapply described_frame; [done|done|]. by apply information_ne.
  - rewrite Ho2, Ho1 by (by intros []). change (find sn demo_u = None). by rewrite Hall.
  - rewrite Hs2, Hs1 by done. etrans; [by apply lookup_insert_ne|done].
Qed.

Lemma run_create_table_witness :
  ∃ sn (db : Database.t DiskManager.t) db' sn' p handle, Database.run 10 "create" db = (db', Ok []) ∧
    Snapshot.tables sn demo_u = None ∧ Snapshot.tables sn' demo_u = Some [] ∧
    find sn' demo_u = Some (handle, [(p, [])]) ∧ TableHandle.schema handle = Schema.Mk demo_columns.
Proof.
  destruct demo_described as (sn & c & cs & Hw & Hroom & Hdt & Hdc & Hf & Hcs).
  set (db := Database.Mk (ExecutionContext.catalog c) 1 (ExecutionContext.events c)).
  pose proof (run_create_table "create" [SqlProperties.ident "u"]
    [Ast.MkColumnDef (SqlProperties.ident "a") (Ast.Int None) []] demo_columns demo_u db sn 0 0 10) as Hrun.
  change (schema_name demo_u) with DEFAULT_SCHEMA_NAME in Hrun. cbn [Database.catalog db] in Hrun. rewrite Hcs, Hf in Hrun.
  destruct Hrun as (db' & p & handle & sn' & Hrun & _ & Hcr & Hf' & Hs & _); [done..| | | |done|done| | |].
  - eapply writable_fewer; [|by destruct c]. simpl. lia.
  - simpl. lia.
  - lia.
  - apply table_row_storable.
  - apply column_row_storable.
  - exists sn, db, db', sn', p, handle. split_and!; [done| | |done|done].
    + unfold Snapshot.tables. by rewrite Hf.
    + by rewrite Hcr, bool_decide_true.
Defined.

End CreateProperties.
