(* ===== verification/IndexQuery.v ===== *)
(** * IndexQuery: scanning a table by its index

    The operator that scans an index goes back and forth between the pages of the index
    and those of the table, over one pool. What it returns is told from the entries of
    the index ([IndexSpec]) and the rows of the table ([HeapRows]): the rows whose record
    ids the entries of the range have, in the order of the entries. *)
From S2P Require Import Prelude CommonCodec Floats Scalar Schema TupleCodec TablePage IndexPage IndexPageCodec.
From S2P Require Import DiskPages DiskManager Replacer BufferPool PageStore TableHeap.
From S2P Require Import Index Tree TreePages IndexSteps IndexInsert IndexScan IndexSpec Catalog.
From S2P Require Import Expressions LogicalPlan Operators Meaning Execution Planner Streams Scans Writes UpdateSpec.
Local Open Scope Z_scope.

Module IndexQueryFacts.
Import TableHeapFacts TableHeapSpec Snapshot SnapshotWrite KeyArrayFacts TreeFacts IndexFacts IndexRange RangeFacts.

(** ** The iterator over the pool of the engine *)
Section query.
Context {D : Type} `{DiskLaws D}.
Context (sn : Snapshot.t) (spare : spare_frames 2 (store sn)).
Context (table_ref : TableReference.t) (index_name : string) (handle : TableHandle.t) (cs : pages_rows).
Context (Hfind : find sn table_ref = Some (handle, cs)).
Notation Ctx := (ExecutionContext.t D).

(** The indexes that the snapshot has for the table. *)
Definition indexes_of : option (gmap string IndexHandle.t) :=
  tables ← Snapshot.schemas sn !! schema_name table_ref;
  CatalogTable.indexes <$> CatalogSchema.tables tables !! TableReference.table table_ref.

(** One of them, with its pages and its entries. *)
Record indexed (x : IndexHandle.t) (keys : nat) (ps : list Z) (kvs : list LeafKV) : Prop := Indexed {
  indexed_found : (indexes ← indexes_of; indexes !! index_name) = Some x;
  indexed_entries : holds (IndexHandle.key_schema x) (IndexHandle.internal_max_size x) (IndexHandle.leaf_max_size x)
    keys (store sn) (IndexHandle.root_page_id x) ps kvs;
}.

(** The row whose record id an entry of the index has. *)
Definition located (kv : LeafKV) (r : RecordId.t * row) : Prop := r ∈ rows_of cs ∧ r.1 = kv.2.

(** The entry has the key of this row, too. *)
Definition points_to (key_schema : Schema.t) (kv : LeafKV) (r : RecordId.t * row) : Prop :=
  r ∈ rows_of cs ∧ r.1 = kv.2 ∧ Tuple.project_with_schema r.2.2 key_schema = Ok kv.1.

Lemma entries_ordered x keys ps kvs :
  indexed x keys ps kvs → keys_ok (IndexHandle.key_schema x) kvs ∧ sorted_lt kvs.
Proof. intros [_ Hh]. by eapply holds_ordered. Qed.

(** *** Reading a row *)
Lemma alter_table_id (cat : Catalog.t D) schema table f ct :
  Catalog.find_table schema table cat = Some ct → f ct = ct → Catalog.alter_table schema table f cat = cat.
Proof.
  intros Hf Hct. unfold Catalog.find_table in Hf. unfold Catalog.alter_table.
  destruct (Catalog.schemas cat !! schema) as [cs'|] eqn:Hs; [|done]. simpl in Hf.
  rewrite (alter_id _ _ schema); [by destruct cat|]. intros cs2 Hcs2. rewrite Hs in Hcs2. injection Hcs2 as <-.
  destruct cs' as [name tables]. unfold CatalogSchema.set_tables. f_equal. apply alter_id. intros ct' Hct'. simpl in *.
  rewrite Hf in Hct'. by injection Hct' as <-.
Qed.

Lemma rows_of_slot (h : TableHeap.t D) st n rid r :
  heap_ok h st cs n → (rid, r) ∈ rows_of cs → ∃ k rows i, HeapRows.at_slot cs rid k rows i ∧ rows !! i = Some r.
Proof.
  intros Hh Hin. unfold rows_of in Hin. apply list_elem_of_In, in_concat in Hin as (l & Hl & Hin).
  apply list_elem_of_In in Hl, Hin. apply list_elem_of_fmap in Hl as ([p rows] & -> & [k Hk]%list_elem_of_lookup).
  apply list_elem_of_lookup in Hin as [i Hi]. unfold page_rows in Hi. rewrite list_lookup_imap in Hi. cbn [fst snd] in Hi.
  destruct (rows !! i) as [r'|] eqn:Hr; [|done]. injection Hi as <- <-. exists k, rows, i. split; [|done].
  by eapply IteratorPosition.heap_slot.
Qed.

Lemma read_row n (c : Ctx) rid r :
  shown sn (1 + n) c → (rid, r) ∈ rows_of cs →
  ∃ s, Catalog.on_heap (schema_name table_ref) (TableReference.table table_ref) (TableHeap.tuple rid)
      (ExecutionContext.catalog c) = (Catalog.set_pool s (ExecutionContext.catalog c), Ok r.2) ∧
    shown sn n (with_pool s c).
Proof.
  intros Hsh Hin. pose proof (shown_clock _ _ _ Hsh) as Hcl.
  destruct (shown_tables _ _ _ Hsh _ _ _ Hfind) as [Hth Hok].
  destruct (table_heap_found _ _ _ Hth) as (ct & Hct & Htab & Hfound).
  destruct (rows_of_slot _ _ _ _ _ Hok Hin) as (k & rows & i & Hat & Hr).
  destruct (full_tuple_Ok _ _ _ _ _ _ _ _ Hok Hat) as (s & Hrun & Hok' & Hts).
  { unfold spare_frames in *. lia. }
  { unfold now, pool in *. simpl. lia. }
  rewrite Hr in Hrun. exists s. split.
  - unfold Catalog.on_heap. rewrite Hfound, Htab. unfold TableHeap.tuple. rewrite (SR_bind_Ok _ _ _ _ _ Hrun).
    destruct r as [meta t]. cbn [ret SR_ret]. f_equal. apply (alter_table_id _ _ _ _ ct); [exact Hfound|].
    rewrite <- Htab. by destruct ct as [? [] ?].
  - eapply shown_pool; [exact Hsh|apply (heap_shows _ _ _ _ Hok')|]. unfold now, pool in *. simpl in *. lia.
Qed.

(** *** The iterator *)
Section iterator.
Context (x : IndexHandle.t) (keys : nat) (ps : list Z) (kvs : list LeafKV) (Hx : indexed x keys ps kvs).
Context (start end_ : Bound Tuple.t).
Notation ks := (IndexHandle.key_schema x).
Notation root := (IndexHandle.root_page_id x).
Notation imax := (IndexHandle.internal_max_size x).
Notation lmax := (IndexHandle.leaf_max_size x).
Notation idx self b := (idx ks imax lmax self root (store sn) (room sn) b).
Notation scanning it b rest := (scanning ks imax lmax keys it start end_ root (store sn) (room sn) b rest).

(** The iterator, on the index over another pool. *)
Definition with_index (c : Ctx) (it : TreeIndexIterator.t D) : TreeIndexIterator.t D :=
  TreeIndexIterator.set_index (Catalog.index_of_handle (ExecutionContext.catalog c) x) it.

(** The iterator is before the entries [rest], whatever the pool is now. *)
Definition before (rest : list LeafKV) (it : TreeIndexIterator.t D) : Prop :=
  ∀ n c, shown sn (n + length rest) c → scanning (with_index c it) n rest.

Lemma index_shown n c : shown sn n c → idx (Catalog.index_of_handle (ExecutionContext.catalog c) x) n.
Proof. intros Hc. split; [done..|apply (shown_store _ _ _ Hc)|apply (shown_clock _ _ _ Hc)]. Qed.

Lemma index_catalog n c :
  shown sn n c → Catalog.index table_ref index_name (ExecutionContext.catalog c) = Ok (Some x).
Proof.
  intros Hc. pose proof (indexed_found _ _ _ _ Hx) as Hi. unfold indexes_of in Hi.
  unfold Catalog.index, Catalog.catalog_table. rewrite (shown_schemas _ _ _ Hc).
  destruct (Snapshot.schemas sn !! schema_name table_ref) as [tables|]; [|done]. simpl in Hi |- *.
  by destruct (CatalogSchema.tables tables !! TableReference.table table_ref); simpl in Hi |- *; rewrite ?Hi.
Qed.

Lemma scanning_before it n rest : scanning it n rest → before rest it.
Proof. intros [Hb _ Hst Hl] n' c Hc. split; [done|by apply index_shown|done..]. Qed.

(** A call of the iterator, and the pool it leaves. *)
Lemma index_call it n c (Q : option RecordId.t → TreeIndexIterator.t D → Prop) :
  shown sn n c → IndexFacts.runs TreeIndexIterator.next (with_index c it) Q →
  ∃ it' o, Catalog.on_index_iterator table_ref index_name TreeIndexIterator.next it (ExecutionContext.catalog c)
      = (Catalog.set_pool (BPlusTreeIndex.buffer_pool (TreeIndexIterator.index it')) (ExecutionContext.catalog c), Ok (it', Ok o)) ∧
    Q o it'.
Proof.
  intros Hc (it' & o & Hrun & HQ). exists it', o. split; [|done]. unfold Catalog.on_index_iterator.
  rewrite (index_catalog _ _ Hc). fold (with_index c it). by rewrite Hrun.
Qed.

Lemma idx_context it n n' c :
  shown sn n c → idx (TreeIndexIterator.index it) n' →
  shown sn n' (with_pool (BPlusTreeIndex.buffer_pool (TreeIndexIterator.index it)) c).
Proof. intros Hc Hi. eapply shown_pool; [exact Hc|apply (idx_shows _ _ _ _ _ _ _ _ Hi)|apply (idx_clock _ _ _ _ _ _ _ _ Hi)]. Qed.

(** A call of the operator, with the answer of the iterator. *)
Lemma scan_next_None it it' c s :
  Catalog.table_heap table_ref (ExecutionContext.catalog c) = Ok handle →
  Catalog.on_index_iterator table_ref index_name TreeIndexIterator.next it (ExecutionContext.catalog c)
    = (Catalog.set_pool s (ExecutionContext.catalog c), Ok (it', Ok None)) →
  index_scan_next table_ref index_name (Some it, c) = ((Some it', with_pool s c), Ok None).
Proof.
  intros Ht Hcall. unfold index_scan_next, get_state, set_state, ask_catalog, on_world, on_catalog, lift, mbind, SR_bind.
  simpl. rewrite Ht, Hcall. done.
Qed.

Lemma scan_next_Some it it' m n c s rid r :
  shown sn m c → shown sn (1 + n) (with_pool s c) → (rid, r) ∈ rows_of cs →
  Catalog.on_index_iterator table_ref index_name TreeIndexIterator.next it (ExecutionContext.catalog c)
    = (Catalog.set_pool s (ExecutionContext.catalog c), Ok (it', Ok (Some rid))) →
  ∃ c', index_scan_next table_ref index_name (Some it, c) = ((Some it', c'), Ok (Some r.2)) ∧ shown sn n c'.
Proof.
  intros Hc Hc1 Hin Hcall. destruct (shown_tables _ _ _ Hc _ _ _ Hfind) as [Ht _].
  destruct (read_row n _ rid r Hc1 Hin) as (s' & Hread & Hc'). exists (with_pool s' (with_pool s c)). split; [|done].
  unfold index_scan_next, get_state, set_state, ask_catalog, on_world, on_catalog, lift, mbind, SR_bind.
  simpl. rewrite Ht, Hcall. simpl in Hread |- *. by rewrite Hread.
Qed.

(** *** All rows *)
Context (Hroot : (root =? INVALID_PAGE_ID) = false) (Hend : bound_is ks end_).
Notation next := (index_scan_next table_ref index_name).

Definition pointed (kvs : list LeafKV) : Prop := Forall (λ kv, ∃ r, located kv r) kvs.

(** The answers [acc], and then the rows of the entries [l]. *)
Definition drains (fuel : nat) (acc : list Tuple.t) it c (l : list LeafKV) (n : nat) : Prop :=
  ∃ s' c' xs, drain next fuel acc (Some it, c) = ((s', c'), Ok (acc ++ ((λ x, x.2.2) <$> xs))) ∧
    Forall2 located l xs ∧ shown sn n c'.

Lemma drains_None fuel acc it it' n n' c s :
  shown sn n c → shown sn n' (with_pool s c) →
  Catalog.on_index_iterator table_ref index_name TreeIndexIterator.next it (ExecutionContext.catalog c)
    = (Catalog.set_pool s (ExecutionContext.catalog c), Ok (it', Ok None)) →
  drains (S fuel) acc it c [] n'.
Proof.
  intros Hc Hc' Hcall. destruct (shown_tables _ _ _ Hc _ _ _ Hfind) as [Ht _].
  exists (Some it'), (with_pool s c), []. split_and!; [|constructor|done]. cbn [drain].
  rewrite (SR_bind_Ok _ _ _ _ _ (scan_next_None _ _ _ _ Ht Hcall)). by rewrite app_nil_r.
Qed.

Lemma drains_Some fuel acc it it' m n n' c s kv r l :
  shown sn m c → shown sn (1 + n) (with_pool s c) → located kv r →
  Catalog.on_index_iterator table_ref index_name TreeIndexIterator.next it (ExecutionContext.catalog c)
    = (Catalog.set_pool s (ExecutionContext.catalog c), Ok (it', Ok (Some kv.2))) →
  (∀ c', shown sn n c' → drains fuel (acc ++ [r.2.2]) it' c' l n') →
  drains (S fuel) acc it c (kv :: l) n'.
Proof.
  intros Hc Hc' Hp Hcall Hrest. pose proof Hp as [Hin Hrid]. destruct r as [rid r]. simpl in Hrid. subst rid.
  destruct (scan_next_Some it it' _ n c s kv.2 r Hc Hc' Hin Hcall) as (c1 & Hnext & Hc1).
  destruct (Hrest c1 Hc1) as (s' & c2 & xs & Hrun & Hxs & Hc2).
  exists s', c2, ((kv.2, r) :: xs). split_and!; [|by constructor|done].
  cbn [drain]. rewrite (SR_bind_Ok _ _ _ _ _ Hnext). cbn beta iota. cbn [snd] in Hrun. rewrite Hrun. by rewrite <- (assoc_L (++)).
Qed.

Lemma drains_before rest : ∀ fuel acc it n c,
  before rest it → pointed rest → keys_ok ks rest → sorted_lt rest → (length rest < fuel)%nat →
  shown sn (2 * length rest + n) c → drains fuel acc it c (List.filter (at_end end_) rest) n.
Proof.
  induction rest as [|kv rest IH]; intros fuel acc it n c Hb Hd Hk Hs Hfuel Hc; (destruct fuel as [|fuel]; [simpl in Hfuel; lia|]);
    cbn [length] in *.
  - assert (shown sn (n + 0) c) as Hc0 by (by rewrite Nat.add_0_r).
    destruct (index_call it _ c _ Hc (runs_next ks imax lmax keys _ _ _ _ _ _ _ [] (Hb n c Hc0) ltac:(unfold spare_frames in *; lia) Hroot))
      as (it' & o & Hcall & -> & Hi).
    eapply drains_None; [exact Hc| |exact Hcall]. by eapply idx_context.
  - assert (shown sn (S (length rest) + n + S (length rest)) c) as Hc0 by (eapply shown_fewer; [|exact Hc]; lia).
    destruct (index_call it _ c _ Hc (runs_next ks imax lmax keys _ _ _ _ _ _ _ (kv :: rest) (Hb _ c Hc0) ltac:(unfold spare_frames in *; lia) Hroot))
      as (it' & o & Hcall & -> & Hsc).
    assert (shown sn (2 * length rest + n + 1) (with_pool (BPlusTreeIndex.buffer_pool (TreeIndexIterator.index it')) c)) as Hc'.
    { eapply idx_context; [exact Hc|]. destruct Hsc as [_ Hi _ _]. eapply idx_fewer; [|exact Hi]. lia. }
    apply Forall_cons in Hd as [[r Hr] Hd]. apply Forall_cons in Hk as [Hkv Hk]. pose proof Hs as [Hs' _]%StronglySorted_inv.
    cbn [List.filter]. destruct (at_end end_ kv) eqn:Hin.
    + eapply drains_Some; [exact Hc| |exact Hr|exact Hcall|]; [by rewrite Nat.add_comm|].
      intros c' Hc2. apply IH; [by eapply scanning_before|done..|lia|done].
    + rewrite (at_end_past ks end_ kv rest) by (done || by constructor).
      eapply drains_None; [exact Hc| |exact Hcall]. eapply shown_fewer; [|exact Hc']. lia.
Qed.

End iterator.

(** *** A scan from its start *)
Section scan.
Context (x : IndexHandle.t) (keys : nat) (ps : list Z) (kvs : list LeafKV) (Hx : indexed x keys ps kvs).
Context (start end_ : Bound Tuple.t) (sql_type_name : DataType.t → string).
Notation ks := (IndexHandle.key_schema x).
Notation root := (IndexHandle.root_page_id x).
Hypothesis (Hd : pointed kvs) (Hs : bound_is ks start) (He : bound_is ks end_).

(** The iterator before its first call, on the index of the context. *)
Definition fresh (c : Ctx) (it : TreeIndexIterator.t D) : Prop :=
  with_index x c it = TreeIndexIterator.new (Catalog.index_of_handle (ExecutionContext.catalog c) x) start end_.

Lemma empty_drains n c it fuel :
  root = INVALID_PAGE_ID → shown sn n c → fresh c it → drains (S fuel) [] it c [] n.
Proof.
  intros Hroot Hc Hit. pose proof (index_shown x _ _ Hc) as Hi.
  destruct (index_call x keys ps kvs Hx it _ c (λ o it', o = None ∧ it' = with_index x c it) Hc)
    as (it' & o & Hcall & -> & ->).
  { rewrite Hit. unfold TreeIndexIterator.next. apply runs_bind, runs_gets. cbn [TreeIndexIterator.index TreeIndexIterator.new].
    unfold BPlusTreeIndex.is_empty. rewrite (idx_root _ _ _ _ _ _ _ _ Hi), Hroot. by apply runs_ret. }
  eapply drains_None; [exact Hc| |exact Hcall]. by eapply idx_context.
Qed.

Lemma pointed_filter f l : pointed l → pointed (List.filter f l).
Proof.
  unfold pointed. rewrite !Forall_forall. intros H1 kv [Hin _]%list_elem_of_In%List.filter_In. by apply H1, list_elem_of_In.
Qed.

(** What the first call answers. *)
Lemma first_call n c it h t :
  rooted ks (IndexHandle.internal_max_size x) (IndexHandle.leaf_max_size x) keys (store sn) h t → root = BTree.root t →
  BTree.contents t = kvs → BTree.page_ids t = ps → kvs ≠ [] ∨ ps = [] ∨ start ≠ Unbounded →
  shown sn (n + length kvs + 40) c → fresh c it →
  ∃ it' o, Catalog.on_index_iterator table_ref index_name TreeIndexIterator.next it (ExecutionContext.catalog c)
      = (Catalog.set_pool (BPlusTreeIndex.buffer_pool (TreeIndexIterator.index it')) (ExecutionContext.catalog c), Ok (it', Ok o)) ∧
    answers ks (IndexHandle.internal_max_size x) (IndexHandle.leaf_max_size x) keys it' start end_ root (store sn) (room sn) n
      (List.filter (at_start start) kvs) o.
Proof.
  intros Ht Hroot Hkvs Hps Hne Hc Hit. pose proof (index_shown x _ _ Hc) as Hi.
  apply (index_call x keys ps kvs Hx it _ c (λ o it', answers _ _ _ _ it' _ _ _ _ _ _ _ o) Hc).
  rewrite Hit. rewrite Hroot in Hi |- *. rewrite <- Hkvs in Hi |- *. eapply runs_next_first; [exact Hi|exact Ht|done|done|].
  rewrite Hkvs. destruct Hne as [|[Hnil|]]; [by left| |by right]. rewrite <- Hps in Hnil. by destruct t.
Qed.

Lemma range_drains n c it fuel :
  kvs ≠ [] ∨ ps = [] ∨ start ≠ Unbounded → (length kvs < fuel)%nat → shown sn (3 * length kvs + 40 + n) c → fresh c it →
  drains fuel [] it c (listed start end_ kvs) n.
Proof.
  intros Hne Hfuel Hc Hit. destruct fuel as [|fuel]; [lia|].
  destruct (indexed_entries _ _ _ _ Hx) as [(Hroot & _ & Hnil)|(h & t & Ht & Hroot & Hps & Hkvs)].
  { rewrite Hnil. apply empty_drains; [done| |done]. eapply shown_fewer; [|exact Hc]. lia. }
  destruct (entries_ordered _ _ _ _ Hx) as [Hk Hsort]. destruct (filter_ordered ks (at_start start) _ Hk Hsort) as (Hk' & Hs' & Hlen).
  pose proof (pointed_filter (at_start start) _ Hd) as Hd'.
  destruct (first_call (2 * length kvs + n) c it h t Ht Hroot Hkvs Hps Hne) as (it' & o & Hcall & kv & Hr & ->); [|done|].
  { eapply shown_fewer; [|exact Hc]. lia. }
  pose proof (index_shown x _ _ Hc) as Hi. rewrite Hroot in Hi.
  pose proof (rooted_not_empty _ _ _ _ _ _ _ _ _ _ _ Hi Ht) as Hnz. rewrite <- Hroot in Hnz. clear Hi.
  unfold listed. destruct (List.filter (at_start start) kvs) as [|kv' rest]; destruct Hr as [-> Hr].
  - eapply drains_None; [exact Hc| |exact Hcall]. eapply idx_context; [exact Hc|]. eapply idx_fewer; [|exact Hr]. lia.
  - apply Forall_cons in Hd' as [[r Hr'] Hd']. apply Forall_cons in Hk' as [_ Hk']. apply StronglySorted_inv in Hs' as [Hs' _].
    cbn [length] in Hlen. eapply drains_Some; [exact Hc| |exact Hr'|exact Hcall|].
    + eapply idx_context; [exact Hc|]. pose proof Hr as [_ Hi _ _]. eapply idx_fewer; [|exact Hi].
      instantiate (1 := (2 * length rest + n)%nat). lia.
    + intros c' Hc'. eapply drains_before; [exact Hx|exact Hnz|done|by eapply scanning_before|done..|lia|done].
Qed.
(** The operator run by the engine. *)
Lemma execute_range n c table_schema fuel `{Platform} :
  kvs ≠ [] ∨ ps = [] ∨ start ≠ Unbounded → (length kvs < fuel)%nat → shown sn (3 * length kvs + 40 + n) c →
  ∃ c' xs, execute sql_type_name fuel (PhysicalPlan.IndexScan table_ref index_name table_schema start end_) c
      = (c', Ok ((λ x, x.2.2) <$> xs)) ∧
    Forall2 located (listed start end_ kvs) xs ∧ shown sn n c'.
Proof.
  intros Hne Hfuel Hc.
  destruct (range_drains n c (TreeIndexIterator.new (Catalog.index_of_handle (ExecutionContext.catalog c) x) start end_) fuel
    Hne Hfuel Hc eq_refl) as (s' & c' & xs & Hrun & Hxs & Hc').
  exists c', xs. split_and!; [|done..]. unfold execute. cbn [initial init next].
  unfold index_scan_init, ask_catalog, on_world, set_state, lift. unfold mbind at 1 2 3 4, SR_bind at 1 2 3 4.
  rewrite (index_catalog x keys ps kvs Hx _ _ Hc). simpl. by rewrite Hrun.
Qed.

End scan.

End query.

(** ** All the rows, in the order of their keys *)
Section rows.
Context (cs : pages_rows).

Lemma listed_unbounded kvs : listed Unbounded Unbounded kvs = kvs.
Proof. unfold listed. rewrite filter_all by done. destruct kvs; [done|]. by rewrite filter_all. Qed.

Lemma page_rids p rows rid : rid ∈ (page_rows (p, rows)).*1 → RecordId.page_id rid = p.
Proof.
  intros (x & -> & [i Hi]%list_elem_of_lookup)%list_elem_of_fmap. unfold page_rows in Hi. rewrite list_lookup_imap in Hi.
  cbn [fst snd] in Hi. by destruct (rows !! i); simplify_eq/=.
Qed.

Lemma concat_rids (l : pages_rows) rid : rid ∈ (concat (page_rows <$> l)).*1 → RecordId.page_id rid ∈ l.*1.
Proof.
  induction l as [|[p rows] l IH]; [by intros ?%elem_of_nil|]. rewrite !fmap_cons. cbn [concat]. rewrite fmap_app, elem_of_app, elem_of_cons.
  intros [<-%page_rids|?]; [by left|right; by apply IH].
Qed.

Lemma rids_distinct {D} `{Disk D} (h : TableHeap.t D) st n : heap_ok h st cs n → NoDup (rows_of cs).*1.
Proof.
  intros [_ [[Hnd _] _ _ _] _]. unfold rows_of. clear -Hnd. induction cs as [|[p rows] cs' IH]; [constructor|].
  change (NoDup (p :: cs'.*1)) in Hnd. rewrite fmap_cons. apply NoDup_cons in Hnd as [Hp Hnd]. cbn [concat]. rewrite fmap_app.
  apply NoDup_app. split_and!; [| |by apply IH].
  - unfold page_rows. rewrite fmap_imap. apply NoDup_alt. intros i j rid. rewrite !list_lookup_imap. cbn [fst snd].
    intros Hi Hj. destruct (rows !! i), (rows !! j); simplify_eq/=. lia.
  - intros rid Hin Hrest. apply Hp. apply page_rids in Hin as <-. by apply concat_rids.
Qed.

(** As many rows of the table as it has are all its rows. *)
Lemma all_rows kvs xs :
  NoDup (rows_of cs).*1 → Forall2 (located cs) kvs xs → kvs.*2 ≡ₚ (rows_of cs).*1 → xs ≡ₚ rows_of cs.
Proof.
  intros Hnd Hxs Hp. assert (xs.*1 = kvs.*2 ∧ xs ⊆ rows_of cs) as [Hrids Hin].
  { clear Hp. induction Hxs as [|kv r kvs' xs' [Hr Hrid] _ [IH1 IH2]]; [by split; [|set_solver]|].
    rewrite !fmap_cons. split; [by f_equal|set_solver]. }
  rewrite <- Hrids in Hp. assert (NoDup xs) as Hnx by (eapply NoDup_fmap_1; by rewrite Hp).
  apply submseteq_length_Permutation; [by apply NoDup_submseteq|].
  apply Permutation_length in Hp. rewrite !length_fmap in Hp. lia.
Qed.

(** An entry for each row points to rows. *)
Lemma all_located kvs : kvs.*2 ≡ₚ (rows_of cs).*1 → Forall (λ kv, ∃ r, located cs kv r) kvs.
Proof.
  intros Hp. apply Forall_forall. intros kv Hkv.
  assert (kv.2 ∈ (rows_of cs).*1) as (r & Hr & Hin)%list_elem_of_fmap
    by (rewrite <- Hp; by apply list_elem_of_fmap_2).
  by exists r.
Qed.

(** A record id has one row, so that the rows of entries with current keys have these. *)
Lemma located_current key_schema kvs xs :
  NoDup (rows_of cs).*1 → Forall2 (located cs) kvs xs → Forall (λ kv, ∃ r, points_to cs key_schema kv r) kvs →
  Forall2 (points_to cs key_schema) kvs xs.
Proof.
  intros Hnd. induction 1 as [|kv r kvs xs [Hin Hrid] _ IH]; intros Hc; [constructor|].
  apply Forall_cons in Hc as [(r' & Hin' & Hrid' & Hk) Hc]. constructor; [|by apply IH].
  assert (r = r') as ->; [|done]. apply list_elem_of_lookup in Hin as [i Hi]. apply list_elem_of_lookup in Hin' as [j Hj].
  assert (i = j) as ->; [|congruence].
  apply (NoDup_lookup (rows_of cs).*1 i j r.1); [done|by rewrite list_lookup_fmap, Hi|].
  rewrite list_lookup_fmap, Hj. simpl. congruence.
Qed.

(** The order of the keys of two rows. *)
Definition key_lt (ks : Schema.t) (t1 t2 : Tuple.t) : Prop :=
  ∃ k1 k2, Tuple.project_with_schema t1 ks = Ok k1 ∧ Tuple.project_with_schema t2 ks = Ok k2 ∧ klt k1 k2.

Lemma points_ordered ks kvs xs :
  Forall2 (points_to cs ks) kvs xs → sorted_lt kvs → StronglySorted (key_lt ks) ((λ r, r.2.2) <$> xs).
Proof.
  induction 1 as [|kv r kvs xs (_ & _ & Hk) Hxs IH]; intros Hs; [constructor|].
  apply StronglySorted_inv in Hs as [Hs Hlt]. rewrite fmap_cons. constructor; [by apply IH|]. clear IH Hs.
  induction Hxs as [|kv' r' kvs xs (_ & _ & Hk') _ IH]; [constructor|].
  apply Forall_cons in Hlt as [Hlt Hrest]. rewrite fmap_cons. constructor; [by exists kv.1, kv'.1|by apply IH].
Qed.
End rows.
End IndexQueryFacts.
