(* ===== verification/IndexCreate.v ===== *)
(** * IndexCreate: creating indexes

    What a create index statement does: one scan of the table, in which the key of every
    row is inserted into a new B+ tree over the same pool, and then a row of the
    information schema. A scan of the table that uses the index gives the rows in the
    order of its entries ([IndexQuery]). *)
From S2P Require Import Prelude CommonCodec Floats Text Scalar Schema TupleCodec TablePage IndexPage IndexPageCodec.
From S2P Require Import DiskPages DiskManager Replacer BufferPool PageStore TableHeap.
From S2P Require Import Index Tree TreePages IndexSteps IndexInsert IndexScan IndexSpec Catalog.
From S2P Require Import Expressions LogicalPlan Ast SqlPlanner Operators Meaning Typing Optimizer.
From S2P Require Import Execution Planner Streams Scans ExecutionSpec SqlSpec Transactions Database DatabaseSpec.
From S2P Require Import Writes UpdateSpec CreateSpec IndexQuery.
Local Open Scope Z_scope.

Module IndexCreateFacts.
Import TableHeapFacts TableHeapSpec Snapshot QueryExecution SnapshotWrite CreateFacts KeyArrayFacts TreeFacts IndexPageCodecFacts.
Import BTree IndexFacts InsertFacts IteratorPosition UpdateFacts IndexRange IndexQueryFacts.

Notation imax := BPLUS_INTERNAL_PAGE_MAX_SIZE.
Notation lmax := BPLUS_LEAF_PAGE_MAX_SIZE.

(** ** Filling an index *)
Section fill.
Context {D : Type} `{DiskLaws D}.
Context (key_schema : Schema.t) (keys : nat) (params : params_ok key_schema imax lmax keys).
Notation Ctx := (ExecutionContext.t D).

(** The entry that the index has for a row. *)
Definition entry_of (kv : LeafKV) (r : RecordId.t * row) : Prop :=
  r.1 = kv.2 ∧ Tuple.project_with_schema r.2.2 key_schema = Ok kv.1.

(** An index under construction: its pages are not those of a table. *)
Record building (sn : Snapshot.t) (x : IndexHandle.t) (ps : list Z) (kvs : list LeafKV) : Prop := Building {
  building_params : IndexHandle.key_schema x = key_schema ∧ IndexHandle.internal_max_size x = imax ∧
    IndexHandle.leaf_max_size x = lmax;
  building_entries : holds key_schema imax lmax keys (store sn) (IndexHandle.root_page_id x) ps kvs;
  building_apart : ∀ r y p, find sn r = Some y → p ∈ y.2.*1 → p ∉ ps;
  building_empty : kvs = [] → ps = [];
}.

Lemma insert_entry_Ok sn n k (c : Ctx) x ps kvs kv :
  writable sn (2000 + n) c → spare_frames 3 (store sn) → (40 + k ≤ room sn)%nat → building sn x ps kvs →
  key_ok key_schema keys kv.1 → rid_ok kv.2 → kv.1 ∉ kvs.*1 →
  ∃ s x' st' k' ps' kvs', let sn' := with_store st' k' sn in
    Catalog.on_new_index x (BPlusTreeIndex.insert kv.1 kv.2) (ExecutionContext.catalog c)
      = (Catalog.set_pool s (ExecutionContext.catalog c), Ok (x', tt)) ∧
    writable sn' n (with_pool s c) ∧ spare_frames 3 st' ∧ (k ≤ k')%nat ∧ building sn' x' ps' kvs' ∧ kvs' ≡ₚ kv :: kvs.
Proof.
  intros Hw Hsp Hk [(Hks & Him & Hlm) Hh Hap _] Hkey Hrid Hnew. pose proof (writable_shown _ _ _ Hw) as Hsh.
  set (self := Catalog.index_of_handle (ExecutionContext.catalog c) x).
  assert (idx key_schema imax lmax self (IndexHandle.root_page_id x) (store sn) (40 + (room sn - 40)) (n + 2000)) as Hi.
  { split; [done..| |].
    - replace (40 + (room sn - 40))%nat with (room sn) by lia. apply (shown_store _ _ _ Hsh).
    - rewrite Nat.add_comm. apply (shown_clock _ _ _ Hsh). }
  destruct (runs_insert key_schema imax lmax keys params kv.1 kv.2 self _ _ _ _ _ _ Hi Hh Hsp Hkey Hrid Hnew)
    as (self' & [] & Hrun & (m & t & h & n' & b' & Hn' & Hb' & Hi' & Ht & Hc & [Hold Hfresh])).
  exists (BPlusTreeIndex.buffer_pool self'), (Catalog.handle_of_index self'), (PageStore.set_pages m (store sn)), n',
    (BTree.page_ids t), (BTree.contents t). cbv zeta.
  assert (∀ r y p, find sn r = Some y → p ∈ y.2.*1 → is_Some (PageStore.pages (store sn) !! p)) as Hpage.
  { intros r [hd cs] p Hf Hp. destruct (shown_tables _ _ _ Hsh _ _ _ Hf) as [_ Hok]. by eapply heap_ok_pages. }
  split_and!; [| |done|lia| |by destruct kv].
  - unfold Catalog.on_new_index. fold self. by rewrite Hrun.
  - eapply writable_store; [exact Hw|apply (idx_shows _ _ _ _ _ _ _ _ Hi')| |done|done|].
    + pose proof (idx_clock _ _ _ _ _ _ _ _ Hi'). lia.
    + intros r y p Hf Hp. apply Hold; [by eapply Hap|by eapply Hpage].
  - destruct Hi' as [Hs1 Hs2 Hs3 Hs4 _ _]. split.
    + done.
    + simpl. rewrite Hs4. right. by exists h, t.
    + intros r y p Hf Hp [Hin|Hnone]%Hfresh; [by eapply Hap|]. destruct (Hpage r y p Hf Hp) as [? Hb]. congruence.
    + intros Hnil. rewrite Hnil in Hc. by apply Permutation_nil_cons in Hc.
Qed.

(** The round of the loop for a row reads the row and inserts its entry. *)
Lemma fill_index_Ok table_ref handle cs sn todo :
  find sn table_ref = Some (handle, cs) →
  ∀ entries fuel st room1 n k (c : Ctx) it x ps kvs, let sn1 := with_store st room1 sn in
  writable sn1 (2003 * length todo + 3 + n) c → spare_frames 3 st → (40 * length todo + k ≤ room1)%nat →
  Catalog.handle_of (TableIterator.heap it) = handle → upcoming it cs todo → building sn1 x ps kvs →
  Forall2 entry_of entries todo → Forall (λ kv, key_ok key_schema keys kv.1 ∧ rid_ok kv.2) entries →
  NoDup (entries.*1 ++ kvs.*1) → (length todo < fuel)%nat →
  ∃ s x' st' k' ps' kvs', let sn' := with_store st' k' sn in
    Catalog.fill_index fuel key_schema it x (ExecutionContext.catalog c) = (Catalog.set_pool s (ExecutionContext.catalog c), Ok x') ∧
    writable sn' n (with_pool s c) ∧ spare_frames 3 st' ∧ (k ≤ k')%nat ∧ building sn' x' ps' kvs' ∧ kvs' ≡ₚ entries ++ kvs.
Proof.
  intros Hfind. induction todo as [|[rid r] todo IH]; intros entries fuel st room1 n k c it x ps kvs sn1 Hw Hsp Hk Hit Hup Hb Hes Hok Hnd Hfuel;
    (destruct fuel as [|fuel]; [lia|]); cbn [length] in *; cbn [Catalog.fill_index].
  - apply Forall2_nil_inv_r in Hes as ->.
    destruct (on_iterator_next table_ref handle sn1 n c it cs [] Hw Hfind Hit Hup) as (it' & s & Hrun & Hw' & _ & _).
    rewrite (SR_bind_Ok _ _ _ _ _ Hrun). exists s, x, st, room1, ps, kvs. by split_and!; [..|lia| |].
  - apply Forall2_cons_inv_r in Hes as (kv & entries' & [Hrid Hkey] & Hes & ->). cbn [fst snd] in Hrid, Hkey.
    apply Forall_cons in Hok as [[Hkv Hkr] Hok]. apply NoDup_cons in Hnd as [Hnew Hnd].
    destruct (on_iterator_next table_ref handle sn1 (2000 + (2003 * length todo + 3 + n)) c it cs ((rid, r) :: todo))
      as (it' & s & Hrun & Hw1 & Hit' & Hreach); [by eapply writable_fewer; [|exact Hw]; lia|done..|].
    destruct Hreach as (k0 & i & rows & Hat & _ & _ & Htodo).
    destruct (insert_entry_Ok sn1 _ (40 * length todo + k) _ x ps kvs kv Hw1 Hsp) as
      (s2 & x2 & st2 & room2 & ps2 & kvs2 & Hrun2 & Hw2 & Hsp2 & Hk2 & Hb2 & Hp2); [simpl; lia|done..| |].
    { intros Hin. apply Hnew, elem_of_app. by right. }
    destruct (IH entries' fuel st2 room2 n k (with_pool s2 (with_pool s c)) it' x2 ps2 kvs2) as
      (s3 & x3 & st3 & room3 & ps3 & kvs3 & Hrun3 & Hw3 & Hsp3 & Hk3 & Hb3 & Hp3);
      [exact Hw2|done|lia|done|rewrite Htodo; by apply upcoming_after|done|done|done| |lia|].
    { rewrite Hp2. cbn [fmap list_fmap]. rewrite <- Permutation_middle. by apply NoDup_cons. }
    exists s3, x3, st3, room3, ps3, kvs3. cbv zeta. split_and!; [|done..|].
    + rewrite (SR_bind_Ok _ _ _ _ _ Hrun). cbn beta iota. erewrite SR_bind_Ok by done. cbn [head fmap option_fmap option_map fst snd].
      erewrite SR_bind_Ok by (unfold lift; by rewrite Hkey). rewrite Hrid.
      rewrite (SR_bind_Ok _ _ _ _ _ Hrun2). exact Hrun3.
    + rewrite Hp3, Hp2. cbn [app]. by rewrite Permutation_middle.
Qed.

End fill.

(** ** The catalog *)
Section catalog.
Context {D : Type} `{DiskLaws D}.
Notation Ctx := (ExecutionContext.t D).
Implicit Types (cat : Catalog.t D).

(** The table has one more index. *)
Definition add_index (index_name : string) (x : IndexHandle.t) (ct : CatalogTable.t) : CatalogTable.t :=
  CatalogTable.set_indexes (<[index_name := x]> (CatalogTable.indexes ct)) ct.

Definition with_index (table_ref : TableReference.t) (index_name : string) (x : IndexHandle.t) cat : Catalog.t D :=
  Catalog.alter_table (schema_name table_ref) (TableReference.table table_ref) (add_index index_name x) cat.

Lemma catalog_table_index table_ref index_name x cat r :
  Catalog.catalog_table r (with_index table_ref index_name x cat)
  = if bool_decide (same_table r table_ref) then add_index index_name x <$> Catalog.catalog_table r cat
    else Catalog.catalog_table r cat.
Proof.
  pose proof (catalog_table_alter table_ref (add_index index_name x) (Catalog.buffer_pool cat) r cat) as Hc.
  assert (Catalog.set_pool (Catalog.buffer_pool cat) cat = cat) as Hcat by (by destruct cat). by rewrite Hcat in Hc.
Qed.

Lemma table_heap_index table_ref index_name x cat r :
  Catalog.table_heap r (with_index table_ref index_name x cat) = Catalog.table_heap r cat.
Proof.
  unfold Catalog.table_heap. rewrite catalog_table_index. case_bool_decide; [|done]. by destruct (Catalog.catalog_table r cat).
Qed.

(** The tables stay where they are. *)
Definition snapshot_of (sn : Snapshot.t) cat : Snapshot.t :=
  Snapshot.Mk (store sn) (room sn) (Catalog.schemas cat) (find sn).

Lemma shown_index sn n (c : Ctx) table_ref index_name x :
  let cat := with_index table_ref index_name x (ExecutionContext.catalog c) in
  shown sn n c → shown (snapshot_of sn cat) n (ExecutionContext.Mk cat (ExecutionContext.events c)).
Proof.
  intros cat [Hst Hsc Hcl Ht]. split; [done..|]. intros r hd cs Hf. destruct (Ht r hd cs Hf) as [Hth Hok].
  split; [|done]. cbn [ExecutionContext.catalog]. unfold cat. by rewrite table_heap_index.
Qed.

(** A method of a heap does not see the index. *)
Lemma alter_tables_comm (m : gmap string CatalogSchema.t) s1 t1 f s2 t2 g :
  (∀ ct, f (g ct) = g (f ct)) →
  let F s t f := alter (λ x, CatalogSchema.set_tables (alter f t (CatalogSchema.tables x)) x) s in
  F s1 t1 f (F s2 t2 g m) = F s2 t2 g (F s1 t1 f m).
Proof.
  intros Hc F. unfold F. destruct (decide (s1 = s2)) as [<-|Hs]; [|by apply alter_alter_ne].
  rewrite !alter_alter_eq. apply alter_ext. intros [name tables] _. unfold CatalogSchema.set_tables. simpl. f_equal.
  destruct (decide (t1 = t2)) as [<-|Ht]; [|by apply alter_alter_ne].
  rewrite !alter_alter_eq. apply alter_ext. intros ct _. apply Hc.
Qed.

Lemma find_table_index table_ref index_name x schema table cat ct :
  Catalog.find_table schema table cat = Some ct →
  ∃ ct', Catalog.find_table schema table (with_index table_ref index_name x cat) = Some ct' ∧
    CatalogTable.table ct' = CatalogTable.table ct.
Proof.
  unfold Catalog.find_table, with_index, Catalog.alter_table. intros Hct. cbn [Catalog.schemas Catalog.set_schemas].
  destruct (Catalog.schemas cat !! schema) as [cs|] eqn:Hcs; [|done]. simpl in Hct. rewrite lookup_alter.
  case_decide as Hs; rewrite ?Hs, Hcs; [|by exists ct].
  cbn [fmap option_fmap option_map mbind option_bind CatalogSchema.tables CatalogSchema.set_tables].
  rewrite lookup_alter. case_decide as Ht; rewrite ?Ht, Hct; by eexists.
Qed.

Lemma on_heap_index {A} table_ref index_name x schema table (m : SR (TableHeap.t D) A) cat cat' r :
  Catalog.on_heap schema table m cat = (cat', Ok r) →
  Catalog.on_heap schema table m (with_index table_ref index_name x cat) = (with_index table_ref index_name x cat', Ok r).
Proof.
  unfold Catalog.on_heap. destruct (Catalog.find_table schema table cat) as [ct|] eqn:Hct; [|done].
  destruct (find_table_index table_ref index_name x _ _ _ _ Hct) as (ct' & Hct' & Htab).
  rewrite Hct', Htab. change (Catalog.heap_of (with_index _ _ _ cat) ?h) with (Catalog.heap_of cat h).
  destruct (m _) as [h r']. intros [= <- ->]. f_equal. unfold with_index, Catalog.alter_table, Catalog.set_schemas.
  cbn [Catalog.schemas Catalog.set_pool Catalog.buffer_pool]. f_equal. by apply alter_tables_comm.
Qed.

Lemma insert_information_index table_ref index_name x name t cat cat' :
  Catalog.insert_information name (Ok t) cat = (cat', Ok tt) →
  Catalog.insert_information name (Ok t) (with_index table_ref index_name x cat) = (with_index table_ref index_name x cat', Ok tt).
Proof.
  unfold Catalog.insert_information, mbind, SR_bind, lift.
  destruct (Catalog.on_heap _ _ _ cat) as [cat1 [rid| |]] eqn:Hon; [|done..]. intros [= <-].
  by rewrite (on_heap_index table_ref index_name x _ _ _ _ _ _ Hon).
Qed.

(** The row of the information schema for an index. *)
Definition index_row (table_ref : TableReference.t) (index_name : string) (x : IndexHandle.t) : Tuple.t :=
  Tuple.Mk INDEXES_SCHMEA [varchar (catalog_name table_ref); varchar (schema_name table_ref);
    varchar (TableReference.table table_ref); varchar index_name; varchar (key_schema_to_varchar (IndexHandle.key_schema x));
    uint32 (IndexHandle.internal_max_size x); uint32 (IndexHandle.leaf_max_size x); uint32 (IndexHandle.root_page_id x)].

(** An index on pages that did not change. *)
Lemma holds_frame ks im lm room1 st st' root1 ps kvs :
  holds ks im lm room1 st root1 ps kvs → PageStore.refs st' = PageStore.refs st →
  (∀ p, p ∈ ps → is_Some (PageStore.pages st !! p) → PageStore.pages st' !! p = PageStore.pages st !! p) →
  holds ks im lm room1 st' root1 ps kvs.
Proof.
  intros [Hnil|(h & t & [Ht Hnd Hfree] & Hroot & <- & Hkvs)] Hrefs Hpages; [by left|]. right. exists h, t.
  split_and!; [|done..]. split; [|done|].
  - eapply tree_frame; [exact Ht|]. intros p Hp. apply Hpages; [done|]. apply tree_pages in Ht.
    unfold in_memory in Ht. rewrite Forall_forall in Ht. by apply Ht.
  - eapply Forall_impl; [exact Hfree|]. intros p. unfold PageStore.free_page. by rewrite Hrefs.
Qed.

Lemma root_unsigned ks im lm room1 (s : BufferPoolManager.t D) st n root1 ps kvs :
  holds ks im lm room1 st root1 ps kvs → PageStore.shows s st n → unsigned_ok 32 root1.
Proof.
  intros [(-> & _)|(h & t & [Ht _ _] & -> & _)] Hs; [done|]. apply tree_pages in Ht. unfold in_memory in Ht.
  rewrite Forall_forall in Ht. by apply (page_unsigned _ _ _ _ Hs), Ht, root_in.
Qed.

(** ** [create_index] *)
Section create.
Context (key_schema : Schema.t) (keys : nat) (params : params_ok key_schema imax lmax keys).
Context (table_ref : TableReference.t) (index_name : string).

(** An index of the entries [kvs], in the catalog of a context. *)
Record made (sn sn' : Snapshot.t) n (c' : Ctx) (x : IndexHandle.t) ps kvs : Prop := Made {
  made_shown : shown sn' n c';
  made_spare : spare_frames 3 (store sn');
  made_index : indexed sn' table_ref index_name x keys ps kvs ∧ IndexHandle.key_schema x = key_schema;
  made_alone : indexes_of sn' table_ref = Some {[index_name := x]};
  made_pages : kvs = [] → ps = [];
  made_row : appended (information INFORMATION_SCHEMA_INDEXES) [index_row table_ref index_name x] sn sn';
  made_others : others_found (information INFORMATION_SCHEMA_INDEXES) sn sn';
}.

(** The index gets into the catalog, and a row describes it. *)
Lemma add_index_Ok sn n k (c : Ctx) x ps kvs handle cs :
  let cat := ExecutionContext.catalog c in
  writable sn (2 + n) c → spare_frames 3 (store sn) → (S k ≤ room sn)%nat → find sn table_ref = Some (handle, cs) →
  building key_schema keys sn x ps kvs → described sn INFORMATION_SCHEMA_INDEXES INDEXES_SCHMEA →
  storable INDEXES_SCHMEA (index_row table_ref index_name x) →
  ∃ cat' sn', Catalog.insert_information INFORMATION_SCHEMA_INDEXES (Ok (index_row table_ref index_name x))
      (with_index table_ref index_name x cat) = (cat', Ok tt) ∧
    made sn sn' n (ExecutionContext.Mk cat' (ExecutionContext.events c)) x ps kvs.
Proof.
  intros cat Hw Hsp Hk Hf [(Hks & Him & Hlm) Hh Hap Hnil] Hd Hst.
  destruct (insert_information_Ok sn n k c _ _ _ Hw Hd Hk Hst) as (cat' & sn' & Hrun & Hw' & Hk' & Happ & Hot & Hd' & Hrefs & Hframes & Hkept).
  exists (with_index table_ref index_name x cat'), (snapshot_of sn' (with_index table_ref index_name x cat')).
  split; [by apply insert_information_index|].
  assert (indexes_of (snapshot_of sn' (with_index table_ref index_name x cat')) table_ref = Some {[index_name := x]}) as Halone.
  { assert (∃ y, find sn' table_ref = Some y) as [y Hy].
    { destruct (decide (same_table table_ref (information INFORMATION_SCHEMA_INDEXES))) as [Hsm|Hne].
      - destruct Hd' as (hd' & cs' & Hf' & _). rewrite (writable_named _ _ _ Hw' _ _ Hsm). by eexists.
      - rewrite Hot by done. by eexists. }
    destruct (writable_unindexed _ _ _ Hw' _ _ Hy) as (ct & Hct & Hi). cbn [ExecutionContext.catalog] in Hct.
    pose proof (catalog_table_index table_ref index_name x cat' table_ref) as Hct'.
    rewrite bool_decide_true, Hct in Hct' by done. unfold indexes_of. cbn [Snapshot.schemas snapshot_of].
    unfold Catalog.catalog_table in Hct'.
    destruct (Catalog.schemas (with_index table_ref index_name x cat') !! schema_name table_ref) as [tables|]; [|done].
    simpl in Hct' |- *. destruct (CatalogSchema.tables tables !! TableReference.table table_ref) as [ct'|]; [|done].
    simpl in Hct' |- *. injection Hct' as ->. cbn [CatalogTable.indexes add_index CatalogTable.set_indexes]. by rewrite Hi. }
  split.
  - apply (shown_index sn' n (ExecutionContext.Mk cat' (ExecutionContext.events c))). apply Hw'.
  - unfold spare_frames in *. simpl. by rewrite Hrefs, Hframes.
  - split; [|done]. split.
    + rewrite Halone. simpl. by rewrite lookup_singleton_eq.
    + rewrite Hks, Him, Hlm. eapply holds_frame; [exact Hh|done|]. intros p Hp Hs. apply Hkept; [done|].
      intros y Hy Hin. by eapply Hap.
  - done.
  - done.
  - done.
  - done.
Qed.

(** The rows of a table, and the entries that an index gets for them. *)
Record indexable (sn : Snapshot.t) (cs : pages_rows) (entries : list LeafKV) : Prop := Indexable {
  indexable_rows : Forall2 (entry_of key_schema) entries (rows_of cs);
  indexable_keys : NoDup entries.*1;
  indexable_ok : Forall (λ kv, key_ok key_schema keys kv.1 ∧ rid_ok kv.2) entries;
  indexable_described : described sn INFORMATION_SCHEMA_INDEXES INDEXES_SCHMEA;
  indexable_row : ∀ p, unsigned_ok 32 p →
    storable INDEXES_SCHMEA (index_row table_ref index_name (IndexHandle.Mk key_schema imax lmax p));
}.

(** The loop, from an empty index. *)
Lemma fill_new_Ok fuel sn n k (c : Ctx) handle cs entries :
  let m := length (rows_of cs) in let cat := ExecutionContext.catalog c in
  writable sn (2003 * m + 3 + n) c → spare_frames 3 (store sn) → (40 * m + k ≤ room sn)%nat →
  find sn table_ref = Some (handle, cs) → (m < fuel)%nat → indexable sn cs entries →
  ∃ s root st' k' ps kvs, let sn' := with_store st' k' sn in let x := IndexHandle.Mk key_schema imax lmax root in
    Catalog.fill_index fuel key_schema (TableIterator.new (Catalog.heap_of cat handle) Unbounded Unbounded)
      (IndexHandle.Mk key_schema imax lmax INVALID_PAGE_ID) cat = (Catalog.set_pool s cat, Ok x) ∧
    writable sn' n (with_pool s c) ∧ spare_frames 3 st' ∧ (k ≤ k')%nat ∧ unsigned_ok 32 root ∧
    building key_schema keys sn' x ps kvs ∧ kvs ≡ₚ entries.
Proof.
  intros m cat Hw Hsp Hk Hf Hfuel [Hes Hnd Hok _ _].
  assert (with_store (store sn) (room sn) sn = sn) as Hsn by (by destruct sn).
  destruct (fill_index_Ok key_schema keys params table_ref handle cs sn (rows_of cs) Hf entries fuel (store sn) (room sn)
    n k c (TableIterator.new (Catalog.heap_of cat handle) Unbounded Unbounded)
    (IndexHandle.Mk key_schema imax lmax INVALID_PAGE_ID) [] []) as (s & x & st' & k' & ps & kvs & Hrun & Hw' & Hsp' & Hk' & Hb & Hp).
  { by rewrite Hsn. }
  { done. }
  { done. }
  { by destruct handle. }
  { by apply upcoming_all. }
  { rewrite Hsn. split; [done|by left|intros; apply not_elem_of_nil|done]. }
  { done. }
  { done. }
  { by rewrite app_nil_r. }
  { done. }
  pose proof Hb as [(Hks & Him & Hlm) Hh _ _]. destruct x as [ks im lm root]. simpl in Hks, Him, Hlm. subst ks im lm.
  exists s, root, st', k', ps, kvs. rewrite app_nil_r in Hp. split_and!; [done..| |done|done].
  eapply root_unsigned; [exact Hh|apply (shown_store _ _ _ (writable_shown _ _ _ Hw'))].
Qed.

(** What [create_index] does when every row has a key of its own. *)
Lemma create_index_Ok fuel sn n k (c : Ctx) handle cs entries :
  let m := length (rows_of cs) in
  writable sn (2003 * m + 5 + n) c → spare_frames 3 (store sn) → (40 * m + S k ≤ room sn)%nat →
  find sn table_ref = Some (handle, cs) → (m < fuel)%nat → indexable sn cs entries →
  ∃ cat' sn' x ps kvs, Catalog.create_index fuel index_name table_ref key_schema (ExecutionContext.catalog c) = (cat', Ok x) ∧
    made sn sn' n (ExecutionContext.Mk cat' (ExecutionContext.events c)) x ps kvs ∧ kvs ≡ₚ entries.
Proof.
  intros m Hw Hsp Hk Hf Hfuel He. pose proof (writable_shown _ _ _ Hw) as Hsh. pose proof He as [_ _ _ Hd Hrow].
  set (cat := ExecutionContext.catalog c) in *.
  destruct (writable_unindexed _ _ _ Hw _ _ Hf) as (ct & Hct & Hi). fold cat in Hct.
  destruct (shown_tables _ _ _ Hsh _ _ _ Hf) as [Hth _]. fold cat in Hth.
  assert (CatalogTable.table ct = handle) as Htab by (unfold Catalog.table_heap in Hth; rewrite Hct in Hth; by injection Hth).
  destruct (fill_new_Ok fuel sn (2 + n) (S k) c handle cs entries) as
    (s & root & st' & k' & ps & kvs & Hrun & Hw' & Hsp' & Hk' & Hroot & Hb & Hp); [|done..|].
  { eapply writable_fewer; [|exact Hw]. fold m. lia. }
  fold cat in Hrun. set (x := IndexHandle.Mk key_schema imax lmax root) in *.
  destruct (add_index_Ok _ n k (with_pool s c) x ps kvs handle cs Hw') as (cat' & sn' & Hins & Hmade); [done..|by apply Hrow|].
  destruct (described_found _ _ _ _ _ (writable_shown _ _ _ Hw') Hd) as [ct2 Hct2].
  destruct (find_table_index table_ref index_name x _ _ _ _ Hct2) as (ct3 & Hct3 & _).
  destruct (checks_found _ _ _ Hct3) as [Hc1 Hc2].
  exists cat', sn', x, ps, kvs. split_and!; [|by destruct Hmade|done].
  unfold Catalog.create_index. erewrite SR_bind_Ok by done. rewrite Hct. erewrite SR_bind_Ok by done. rewrite Hi.
  rewrite bool_decide_false by (rewrite lookup_empty; by intros []).
  erewrite SR_bind_Ok by done. rewrite Htab, (SR_bind_Ok _ _ _ _ _ Hrun).
  rewrite (SR_bind_Ok _ _ _ (with_index table_ref index_name x (Catalog.set_pool s cat)) tt) by done.
  rewrite (SR_bind_Ok _ _ _ _ _ Hc1), (SR_bind_Ok _ _ _ _ _ (Hc2 _)).
  by rewrite (SR_bind_Ok _ _ _ _ _ Hins).
Qed.

End create.
End catalog.
End IndexCreateFacts.

(** ** Properties *)
Module IndexProperties.
Import TableHeapFacts TableHeapSpec Snapshot RunFacts SnapshotWrite CreateFacts KeyArrayFacts BTree TreeFacts.
Import IndexRange RangeFacts IndexQueryFacts IndexCreateFacts.

Section scans.
Context {D : Type} `{DiskLaws D} `{Platform} (sql_type_name : DataType.t → string).
Context (sn : Snapshot.t) (table_ref : TableReference.t) (index_name : string).
Context (handle : TableHandle.t) (cs : pages_rows) (x : IndexHandle.t) (keys : nat) (ps : list Z) (kvs : list LeafKV).

(** A table with an index, whose pages are a well formed tree. *)
Record index_for (n : nat) (c : ExecutionContext.t D) : Prop := IndexFor {
  index_shown : shown sn (3 * length kvs + 40 + n) c;
  index_spare : spare_frames 2 (store sn);
  index_table : find sn table_ref = Some (handle, cs);
  index_entries : indexed sn table_ref index_name x keys ps kvs;
}.

(** The entries have the keys that their rows have now. *)
Definition current : Prop := Forall (λ kv, ∃ r, points_to cs (IndexHandle.key_schema x) kv r) kvs.

(** C16: the operator that scans an index returns the rows of a range. When each entry of
    the index has the record id of a row, it returns the rows of the entries between the
    bounds, one for each entry and in the order of the entries; when there is no such
    entry, the row of the first entry at the start bound, if any, since the iterator does
    not compare its first entry with the end bound. When the entries have the keys that
    their rows have now, these are the rows by their own keys and in key order; after an
    update of a key they are told by the keys at the time they were inserted, as the
    indexes are not updated. The pages of the index and of the table are read in turn over
    one pool; the operator ends within one call more than there are entries, without an
    error or a panic, and leaves the tables as they were. Left out is a scan without a
    start bound of an index that has pages and no entries. *)
Theorem index_range_scan n c table_schema start end_ fuel :
  let ks := IndexHandle.key_schema x in
  index_for n c → Forall (λ kv, ∃ r, located cs kv r) kvs →
  bound_is ks start → bound_is ks end_ → kvs ≠ [] ∨ ps = [] ∨ start ≠ Unbounded → (length kvs < fuel)%nat →
  ∃ c' l xs, execute sql_type_name fuel (PhysicalPlan.IndexScan table_ref index_name table_schema start end_) c
      = (c', Ok ((λ r, r.2.2) <$> xs)) ∧
    (range start end_ kvs ≠ [] → l = range start end_ kvs) ∧
    (range start end_ kvs = [] → l = take 1 (List.filter (at_start start) kvs)) ∧
    Forall2 (located cs) l xs ∧ sorted_lt l ∧
    (current → Forall2 (points_to cs ks) l xs ∧ StronglySorted (key_lt ks) ((λ r, r.2.2) <$> xs)) ∧
    shown sn n c'.
Proof.
  intros ks [Hc Hsp Hf Hx] Hd Hs He Hne Hfuel. destruct (entries_ordered _ _ _ _ _ _ _ Hx) as [Hk Hsort].
  destruct (shown_tables _ _ _ Hc _ _ _ Hf) as [_ Hok].
  destruct (execute_range sn Hsp table_ref index_name handle cs Hf x keys ps kvs Hx start end_ sql_type_name Hd Hs He
    n c table_schema fuel Hne Hfuel Hc) as (c' & xs & Hrun & Hxs & Hc').
  destruct (listed_range ks start end_ kvs He Hk Hsort). pose proof (listed_ordered ks start end_ kvs Hk Hsort) as Hl.
  exists c', (listed start end_ kvs), xs. split_and!; [done..| |done]. intros Hcur.
  assert (Forall2 (points_to cs ks) (listed start end_ kvs) xs) as Hp; [|split; [done|by eapply points_ordered]].
  apply located_current; [by eapply rids_distinct|done|]. by apply Forall_listed.
Qed.

(** C15: a table that has an index is scanned by it. The table has exactly one index, with
    an entry for the record id of each row (with a key of its own, as the tree of the index
    is well formed). The physical plan of the scan, for any number of workers, is a scan
    of the whole index; executing it returns all rows of the table, each once, in the order
    of the entries, and leaves the tables as they were. That is the order of the keys of
    the rows when the entries have the keys that their rows have now; after an update of
    a key it is that of the old keys. *)
Theorem indexed_table_scan n c s filters limit workers fuel :
  index_for n c → indexes_of sn table_ref = Some {[index_name := x]} → (kvs = [] → ps = []) →
  kvs.*2 ≡ₚ (rows_of cs).*1 → (length kvs < fuel)%nat →
  ∃ pp c' xs,
    PhysicalPlanner.create_physical_plan (PhysicalPlanner.Mk (ExecutionContext.catalog c) workers)
      (LogicalPlan.TableScan table_ref s filters limit) = Ok pp ∧
    execute sql_type_name fuel pp c = (c', Ok ((λ r, r.2.2) <$> xs)) ∧
    xs ≡ₚ rows_of cs ∧ Forall2 (located cs) kvs xs ∧ sorted_lt kvs ∧
    (current → StronglySorted (key_lt (IndexHandle.key_schema x)) ((λ r, r.2.2) <$> xs)) ∧ shown sn n c'.
Proof.
  intros [Hc Hsp Hf Hx] Halone Hps Hrids Hfuel. pose proof (all_located cs kvs Hrids) as Hd.
  destruct (entries_ordered _ _ _ _ _ _ _ Hx) as [_ Hsort]. destruct (shown_tables _ _ _ Hc _ _ _ Hf) as [_ Hok].
  assert (NoDup (rows_of cs).*1) as Hnd by (by eapply rids_distinct).
  destruct (execute_range sn Hsp table_ref index_name handle cs Hf x keys ps kvs Hx Unbounded Unbounded sql_type_name Hd I I
    n c s fuel) as (c' & xs & Hrun & Hxs & Hc'); [destruct kvs; [right; left; by apply Hps|by left]|done..|].
  rewrite listed_unbounded in Hxs. exists (PhysicalPlan.IndexScan table_ref index_name s Unbounded Unbounded), c', xs.
  split_and!; [|done| |done|done| |done].
  - unfold PhysicalPlanner.create_physical_plan. cbn [PhysicalPlanner.is_write PhysicalPlanner.build_plan].
    unfold PhysicalPlanner.plan_scan. cbn [PhysicalPlanner.catalog]. rewrite (shown_schemas _ _ _ Hc).
    unfold indexes_of in Halone. destruct (Snapshot.schemas sn !! schema_name table_ref) as [tables|]; [|done].
    simpl in Halone |- *. destruct (CatalogSchema.tables tables !! TableReference.table table_ref) as [ct|]; [|done].
    simpl in Halone |- *. injection Halone as ->. by rewrite map_to_list_singleton.
  - by eapply all_rows.
  - intros Hcur. eapply points_ordered; [by apply located_current|done].
Qed.
End scans.

Section create.
Context {D : Type} `{DiskLaws D} `{Platform} `{Sqlparser}.

(** The columns of the key, by the expressions of the statement. *)
Definition key_columns (s : Schema.t) (exprs : list OrderByExpr.t) : result Schema.t :=
  key_indices ← mapR (key_index s) exprs; Schema.project s key_indices.

Lemma execute_create_index sql_type_name fuel name table_ref s exprs (c : ExecutionContext.t D) :
  execute sql_type_name (S fuel) (PhysicalPlan.CreateIndex name table_ref s exprs) c
  = match key_columns s exprs with
    | Ok ks =>
        let '(cat', r) := Catalog.create_index (S fuel) name table_ref ks (ExecutionContext.catalog c) in
        (ExecutionContext.Mk cat' (ExecutionContext.events c), (λ _, []) <$> r)
    | Err error => (c, Err error)
    | Panic => (c, Panic)
    end.
Proof.
  unfold execute. cbn [init initial next]. erewrite SR_bind_Ok by done. cbn [drain].
  unfold create_index_next, key_columns, mbind, result_bind, SR_bind, lift, on_world, on_catalog.
  destruct (mapR (key_index s) exprs) as [l| |]; [|done..]. cbn beta iota.
  destruct (Schema.project s l) as [ks| |]; [|done..].
  destruct (Catalog.create_index _ _ _ _ _) as [cat' [y| |]]; done.
Qed.

(** An index with this name is there already. *)
Lemma create_index_exists fuel index_name table_ref ks x (cat : Catalog.t D) :
  Catalog.index table_ref index_name cat = Ok (Some x) →
  Catalog.create_index fuel index_name table_ref ks cat = (cat, Err (Storage "Cannot create duplicated index")).
Proof.
  unfold Catalog.index, Catalog.create_index. intros Hx. erewrite SR_bind_Ok by done.
  destruct (Catalog.catalog_table table_ref cat) as [ct| |]; [|done..]. injection Hx as Hx.
  erewrite SR_bind_Ok by done. rewrite Hx. by rewrite bool_decide_true.
Qed.

(** C7: a create index statement builds its index. A key column that the table does not
    have, or a name that an index of the table has already, is an error that changes
    nothing. Otherwise, on tables without an index, when no two rows have the same key
    ([indexable]) and the keys fit a page, one scan of the table inserts the key and the
    record id of every row into a new B+ tree over the same pool; the index is in the
    catalog, with these entries in the order of their keys, on pages that are not of a
    table, and the information schema has one more row for it ([made]). No other table
    changes. (Rows with equal keys, which the code inserts as well, give a tree that is
    not in order: [duplicate_keys_unordered] below.) *)
Theorem run_create_index sql index_name table_name columns ident table_ref exprs (db : Database.t D) fuel handle :
  let name := Ast.value ident in let run := Database.run fuel sql db in
  parse_sql sql = Ok [Ast.CreateIndex index_name table_name columns] → head index_name = Some ident →
  LogicalPlanner.bind_table_name table_name = Ok table_ref →
  mapR LogicalPlanner.bind_order_by_expr columns = Ok exprs →
  Catalog.table_heap table_ref (Database.catalog db) = Ok handle → (0 < fuel)%nat →
  (∀ error, key_columns (TableHandle.schema handle) exprs = Err error → run = (db, Err error)) ∧
  (∀ key_schema x, key_columns (TableHandle.schema handle) exprs = Ok key_schema →
    Catalog.index table_ref name (Database.catalog db) = Ok (Some x) →
    run = (db, Err (Storage "Cannot create duplicated index"))) ∧
  (∀ sn cs n k key_schema keys entries, let m := length (rows_of cs) in
    find sn table_ref = Some (handle, cs) → (m < fuel)%nat →
    key_columns (TableHandle.schema handle) exprs = Ok key_schema →
    params_ok key_schema imax lmax keys → indexable key_schema keys table_ref name sn cs entries →
    writable sn (2003 * m + 5 + n) (context db) → spare_frames 3 (store sn) → (40 * m + S k ≤ room sn)%nat →
    ∃ db' sn' x ps kvs, run = (db', Ok []) ∧
      made key_schema keys table_ref name sn sn' n (context db') x ps kvs ∧ kvs ≡ₚ entries ∧ sorted_lt kvs).
Proof.
  intros name run Hsql Hname Htable Hcols Hth Hfuel. unfold run. destruct fuel as [|fuel]; [lia|]. clear run.
  assert (∀ c' r, execute SqlDataType.sql_type_name (S fuel)
      (PhysicalPlan.CreateIndex name table_ref (TableHandle.schema handle) exprs) (context db) = (c', r) →
    Database.run (S fuel) sql db
    = (Database.Mk (ExecutionContext.catalog c') (Database.parallelism db) (ExecutionContext.events c'), r)) as Hrun.
  { intros c' r Hex. eapply (run_steps _ _ _ (LogicalPlan.CreateIndex name table_ref (TableHandle.schema handle) exprs));
      [|done|done|exact Hex].
    unfold Database.create_logical_plan. rewrite Hsql. simpl. unfold LogicalPlanner.plan_create_index.
    rewrite Hname. simpl. rewrite Htable. simpl. rewrite Hcols. simpl. by rewrite Hth. }
  pose proof (execute_create_index SqlDataType.sql_type_name fuel name table_ref
    (TableHandle.schema handle) exprs (context db)) as Hex.
  split_and!.
  - intros error Hk. rewrite Hk in Hex. rewrite (Hrun _ _ Hex). by destruct db.
  - intros key_schema x Hk Hx. rewrite Hk in Hex.
    cbn [context ExecutionContext.catalog] in Hex. rewrite (create_index_exists _ _ _ _ _ _ Hx) in Hex.
    rewrite (Hrun _ _ Hex). by destruct db.
  - intros sn cs n k key_schema keys entries Hf Hm Hk Hp He Hw Hsp Hroom.
    destruct (create_index_Ok key_schema keys Hp table_ref name (S fuel) sn n k (context db) handle cs entries)
      as (cat' & sn' & x & ps & kvs & Hci & Hmade & Hperm); [done..|].
    rewrite Hk, Hci in Hex. do 5 eexists. split_and!; [exact (Hrun _ _ Hex)|exact Hmade|done|].
    destruct (made_index _ _ _ _ _ _ _ _ _ _ _ Hmade) as [Hx _]. by apply (entries_ordered _ _ _ _ _ _ _ Hx).
Qed.
End create.

(** *** An index in a small database *)
Import ExecutionDemo WriteDemo CreateProperties.

(** [create index i on t (a)] on a table with the rows (2, two) and (1, one). *)
Definition demo_statement : Ast.Statement :=
  Ast.CreateIndex [SqlProperties.ident "i"] [SqlProperties.ident "t"] [Ast.MkOrderBy (SqlProperties.col "a") None None].
#[local] Instance index_parser : Sqlparser := SqlProperties.parser_of "create" demo_statement.
#[local] Existing Instance demo_platform.

Definition demo_exprs : list OrderByExpr.t := [OrderByExpr.Mk (Expr.Column None "a") true false].
Definition demo_keys : Schema.t := Schema.Mk [Column.new "a" DataType.Int8 true].
Definition demo_key (a : Z) : Tuple.t := Tuple.Mk demo_keys [ScalarValue.Int8 (Some a)].
Definition two : row := (EMPTY_TUPLE_META, TablePageSpec.demo_tuple 2 "two").
Definition one : row := (EMPTY_TUPLE_META, TablePageSpec.demo_tuple 1 "one").
Definition demo_entries (p : Z) : list LeafKV :=
  [(demo_key 2, RecordId.Mk p 0); (demo_key 1, RecordId.Mk p 1)].

Lemma index_row_storable p :
  unsigned_ok 32 p → storable INDEXES_SCHMEA (index_row demo_ref "i" (IndexHandle.Mk demo_keys imax lmax p)).
Proof.
  intros Hp. split; [|by vm_compute]. split; [done|]. split; [split; [done|]|].
  - repeat (apply Forall2_cons; split; [done|]). done.
  - repeat (apply Forall_cons; split; [done|]). done.
Qed.

Lemma index_key_ok a : signed_ok 8 a → (∃ bs, TupleCodec.encode (demo_key a) = Ok bs ∧ (length bs ≤ 16)%nat) → key_ok demo_keys 16 (demo_key a).
Proof. intros Ha He. split; [split; [done|by apply Forall2_cons]|]. by split; [repeat constructor|]. Qed.

Lemma index_key_params : params_ok demo_keys imax lmax 16.
Proof.
  split; [done|done|vm_compute; congruence|vm_compute; congruence|]. exists (Tuple.Mk demo_keys [ScalarValue.Int8 None]).
  split; [reflexivity|]. split; [split; [done|by apply Forall2_cons]|].
  split; [by repeat constructor|]. eexists. split; [vm_compute; reflexivity|simpl; lia].
Qed.

Lemma demo_indexable sn p :
  unsigned_ok 32 p → described sn INFORMATION_SCHEMA_INDEXES INDEXES_SCHMEA →
  indexable demo_keys 16 demo_ref "i" sn [(p, [two; one])] (demo_entries p).
Proof.
  intros Hp Hd. split; [| | |done|apply index_row_storable].
  - repeat (apply Forall2_cons; split; [done|]). done.
  - vm_compute. repeat constructor; rewrite ?list_elem_of_singleton; (congruence || apply not_elem_of_nil).
  - repeat (apply Forall_cons; split; [split; [|split; done]|]); [..|done];
      (apply index_key_ok; [done|]; eexists; split; [vm_compute; reflexivity|simpl; lia]).
Qed.

Lemma demo_tables :
  ∃ sn (c : ExecutionContext.t DiskManager.t) handle p, writable sn 4950 c ∧ spare_frames 3 (store sn) ∧
    (200 ≤ room sn)%nat ∧ find sn demo_ref = Some (handle, [(p, [two; one])]) ∧
    TableHandle.schema handle = TablePageSpec.demo_schema ∧
    indexable demo_keys 16 demo_ref "i" sn [(p, [two; one])] (demo_entries p).
Proof.
  destruct (demo_two 300 two one) as (h & st & p & n & Hh & Hn & Hsch & Hsp & Hnow); [lia|..|by vm_compute|].
  1,2: split; [split; [done|by apply TablePageSpec.demo_row_ok]|by vm_compute].
  destruct (demo_context h st _ n 5000 Hh) as (Hc & Hun & Hcov & _); [lia|].
  assert (writable (demo_snapshot h st [(p, [two; one])] n) 5000 (ExecutionContext.Mk (demo_catalog h) 0)) as Hw.
  { eapply demo_find_writable; [done..|]. unfold spare_frames in *. simpl. lia. }
  destruct n as [|n]; [lia|].
  pose proof (new_schema_writable _ 5000 _ INFORMATION_SCHEMA_NAME Hw ltac:(by apply lookup_singleton_ne)) as Hw0.
  match type of Hw0 with writable ?a _ ?b => set (sn0 := a) in *; set (c0 := b) in * end.
  destruct (add_information sn0 4950 c0 n INFORMATION_SCHEMA_INDEXES INDEXES_SCHMEA (CatalogSchema.new INFORMATION_SCHEMA_NAME))
    as (sn1 & c1 & cs1 & Hw1 & Hr1 & Hd1 & Ho1 & _ & _ & Hsp1);
    [eapply writable_fewer; [|exact Hw0]; lia|done|apply lookup_insert_eq|].
  exists sn1, c1, (Catalog.handle_of h), p. split_and!; [done|by apply Hsp1|lia| |done|].
  - rewrite Ho1 by (by intros []). done.
  - apply demo_indexable; [|done]. apply (page_unsigned _ _ _ _ (heap_shows _ _ _ _ Hh)).
    apply (heap_ok_pages _ _ _ _ _ Hh). by left.
Qed.

Lemma run_create_index_witness :
  ∃ sn (db : Database.t DiskManager.t) db' sn' x p ps kvs, Database.run 10 "create" db = (db', Ok []) ∧
    made demo_keys 16 demo_ref "i" sn sn' 900 (context db') x ps kvs ∧ kvs ≡ₚ demo_entries p ∧ sorted_lt kvs.
Proof.
  destruct demo_tables as (sn & c & handle & p & Hw & Hsp & Hroom & Hf & Hs & He).
  set (db := Database.Mk (ExecutionContext.catalog c) 1 (ExecutionContext.events c)).
  assert (context db = c) as Hdb by (by destruct c).
  destruct (shown_tables _ _ _ (writable_shown _ _ _ Hw) _ _ _ Hf) as [Hth _].
  destruct (run_create_index "create" [SqlProperties.ident "i"] [SqlProperties.ident "t"]
    [Ast.MkOrderBy (SqlProperties.col "a") None None] (SqlProperties.ident "i") demo_ref demo_exprs db 10 handle)
    as (_ & _ & Hrun); [done..|exact Hth|lia|].
  rewrite Hs, Hdb in Hrun. destruct (Hrun sn [(p, [two; one])] 900%nat 0%nat demo_keys 16%nat (demo_entries p))
    as (db' & sn' & x & ps & kvs & H);
    [done|simpl; lia|done|apply index_key_params|done|eapply writable_fewer; [|exact Hw]; simpl; lia|done|simpl; lia|].
  exists sn, db, db', sn', x, p, ps, kvs. exact H.
Defined.

(** Equal keys: an index with small pages, filled with the keys of eight rows as
    [create_index] fills it from a table, and the keys of its scan. *)
Definition fill_with (keys : list Z) (self : BPlusTreeIndex.t DiskManager.t) : BPlusTreeIndex.t DiskManager.t * result unit :=
  for_each (λ '(i, k), BPlusTreeIndex.insert (demo_key k) (RecordId.Mk i k)) (imap (λ i k, (Z.of_nat i, k)) keys) self.

Definition scanned (n : nat) (self : BPlusTreeIndex.t DiskManager.t) : result (option (list Z)) :=
  option_map (map RecordId.slot_num) <$> (collect n (TreeIndexIterator.new self Unbounded Unbounded)).2.

Example duplicate_keys_unordered :
  match DiskManager.try_new 0 1 None with
  | Ok d => let '(self, r) := fill_with [0; 0; 0; 1; 0; 0; 0; 1] (BPlusTreeIndex.new demo_keys (BufferPoolManager.new 50 d) 3 2) in
      (r, scanned 20 self)
  | _ => (Panic, Panic)
  end = (Ok tt, Ok (Some [0; 0; 0; 0; 0; 1; 0; 1])).
Proof. vm_compute. reflexivity. Qed.

(** The rows by the index: in the order of their keys. *)
Definition demo_index (p : Z) : list LeafKV := [(demo_key 1, RecordId.Mk p 1); (demo_key 2, RecordId.Mk p 0)].

Lemma demo_indexed :
  ∃ sn (c : ExecutionContext.t DiskManager.t) handle p x ps,
    index_for sn demo_ref "i" handle [(p, [two; one])] x 16 ps (demo_index p) 800 c ∧ IndexHandle.key_schema x = demo_keys ∧
    indexes_of sn demo_ref = Some {["i" := x]} ∧ current [(p, [two; one])] x (demo_index p).
Proof.
  destruct demo_tables as (sn & c & handle & p & Hw & Hsp & Hroom & Hf & Hs & He).
  destruct (create_index_Ok demo_keys 16 index_key_params demo_ref "i" 10 sn 900 0 c handle [(p, [two; one])] (demo_entries p))
    as (cat' & sn' & x & ps & kvs & _ & Hmade & Hp);
    [eapply writable_fewer; [|exact Hw]; simpl; lia|done|simpl; lia|done|simpl; lia|done|].
  destruct Hmade as [Hc Hsp' [Hx Hks] Halone _ _ Hot].
  assert (kvs = demo_index p) as ->.
  { destruct (entries_ordered _ _ _ _ _ _ _ Hx) as [Hk Hsort]. rewrite Hks in Hk.
    apply (SplitFacts.sorted_perm_eq demo_keys); [done|done| |rewrite Hp; apply perm_swap].
    repeat constructor; vm_compute; done. }
  exists sn', (ExecutionContext.Mk cat' (ExecutionContext.events c)), handle, p, x, ps.
  split_and!; [|done|done|].
  - split; [eapply shown_fewer; [|exact Hc]; simpl; lia|unfold spare_frames in *; lia| |done].
    rewrite Hot by (by intros []). done.
  - unfold current. rewrite Hks. apply Forall_cons. split; [by exists (RecordId.Mk p 1, one); split; [right; left|]|].
    apply Forall_singleton. by exists (RecordId.Mk p 0, two); split; [left|].
Qed.

(** The rows at the two entries. *)
Lemma demo_located p (l : list LeafKV) xs :
  l = demo_index p → Forall2 (located [(p, [two; one])]) l xs →
  xs = [(RecordId.Mk p 1, one); (RecordId.Mk p 0, two)].
Proof.
  assert (∀ i r, (RecordId.Mk p i, r) ∈ rows_of [(p, [two; one])] → i = 0 ∧ r = two ∨ i = 1 ∧ r = one) as Hin.
  { intros i r Hin. change (rows_of _) with [(RecordId.Mk p 0, two); (RecordId.Mk p 1, one)] in Hin.
    apply elem_of_cons in Hin as [Hin|Hin%list_elem_of_singleton]; simplify_eq; tauto. }
  intros ->. intros ([rid r] & xs1 & (H1 & E1) & Hxs & ->)%Forall2_cons_inv_l.
  apply Forall2_cons_inv_l in Hxs as ([rid' r'] & xs2 & (H2 & E2) & ->%Forall2_nil_inv_l & ->).
  cbn [fst snd] in E1, E2. subst rid rid'. apply Hin in H1 as [[? _]|[_ ->]]; [lia|]. by apply Hin in H2 as [[_ ->]|[? _]]; [|lia].
Qed.

Lemma indexed_table_scan_witness :
  ∃ (c : ExecutionContext.t DiskManager.t) pp c',
    PhysicalPlanner.create_physical_plan (PhysicalPlanner.Mk (ExecutionContext.catalog c) 4)
      (LogicalPlan.TableScan demo_ref TablePageSpec.demo_schema [] None) = Ok pp ∧
    execute SqlDataType.sql_type_name 10 pp c = (c', Ok [one.2; two.2]) ∧
    StronglySorted (key_lt demo_keys) [one.2; two.2].
Proof.
  destruct demo_indexed as (sn & c & handle & p & x & ps & Hi & Hks & Halone & Hcur).
  destruct (indexed_table_scan SqlDataType.sql_type_name sn demo_ref "i" handle [(p, [two; one])] x 16 ps (demo_index p) 800 c
    TablePageSpec.demo_schema [] None 4 10 Hi Halone) as (pp & c' & xs & Hpp & Hrun & _ & Hxs & _ & Hord & _);
    [done|apply perm_swap|simpl; lia|].
  specialize (Hord Hcur). rewrite Hks in Hord. rewrite (demo_located p _ xs eq_refl Hxs) in Hrun, Hord.
  exists c, pp, c'. split_and!; [exact Hpp|exact Hrun|exact Hord].
Defined.

(** [a > 1] *)
Lemma index_range_scan_witness :
  ∃ (c : ExecutionContext.t DiskManager.t) c',
    execute SqlDataType.sql_type_name 10 (PhysicalPlan.IndexScan demo_ref "i" TablePageSpec.demo_schema
      (Excluded (demo_key 1)) Unbounded) c = (c', Ok [two.2]).
Proof.
  destruct demo_indexed as (sn & c & handle & p & x & ps & Hi & Hks & _ & Hcur).
  destruct (index_range_scan SqlDataType.sql_type_name sn demo_ref "i" handle [(p, [two; one])] x 16 ps (demo_index p) 800 c
    TablePageSpec.demo_schema (Excluded (demo_key 1)) Unbounded 10 Hi) as (c' & l & xs & Hrun & Hl & _ & Hxs & _);
    [|rewrite Hks; split; [done|by apply Forall2_cons]|done|by left|simpl; lia|].
  { eapply Forall_impl; [exact Hcur|]. intros kv (r & ? & ? & _). by exists r. }
  exists c, c'. rewrite Hrun. repeat f_equal.
  change (range (Excluded (demo_key 1)) Unbounded (demo_index p)) with [(demo_key 2, RecordId.Mk p 0)] in Hl.
  rewrite Hl in Hxs by done.
  apply Forall2_cons_inv_l in Hxs as ([rid r] & xs' & (Hin & Hrid) & ->%Forall2_nil_inv_l & ->).
  simpl in Hrid. subst rid. repeat (apply elem_of_cons in Hin as [Hin|Hin]; [by simplify_eq|]). by apply not_elem_of_nil in Hin.
Defined.

End IndexProperties.
