(* ===== verification/Printing.v ===== *)
(** * Printing: plans, tuples and indexes as text

    Models [bustubx/src/common/util.rs] and the [Display] of the nodes of logical plans
    ([planner/logical_plan]) and of the physical operators ([execution/physical_plan]).
    The tables of the comfy_table package are kept as their cells; how one is drawn is
    given by the class [ComfyTable]. *)
From S2P Require Import Prelude CommonCodec Floats Text Scalar Schema TupleCodec TablePage IndexPage.
From S2P Require Import DiskPages DiskManager Replacer BufferPool PageStore TableHeap Index Catalog.
From S2P Require Import Expressions LogicalPlan Operators Execution.
Local Open Scope nat_scope.

(** [collect::<Vec<_>>().join(", ")] *)
Definition comma_list {A} (show : A → string) (l : list A) : string := String.concat ", " (show <$> l).

(** [format!("{:indent$}{}", "", text)] *)
Definition indented (indent : nat) (text : string) : string :=
  String.concat "" (replicate indent " "%string) +:+ text.

Definition newline : string := String (Ascii.ascii_of_nat 10) EmptyString.

(** ** Logical plans *)
Definition show_join_type (join_type : JoinType.t) : string :=
  match join_type with
  | JoinType.Inner => "Inner"
  | JoinType.LeftOuter => "LeftOuter"
  | JoinType.RightOuter => "RightOuter"
  | JoinType.FullOuter => "FullOuter"
  | JoinType.Cross => "Cross"
  end.

Definition show_order_by (self : OrderByExpr.t) : string :=
  Expr.display (OrderByExpr.expr self) +:+ " " +:+ (if OrderByExpr.asc self then "ASC" else "DESC") +:+ " " +:+
    (if OrderByExpr.nulls_first self then "NULLS FIRST" else "NULLS LAST").

Definition show_create_table (name : TableReference.t) : string :=
  "CreateTable: " +:+ TableReference.display name.
Definition show_create_index (index_name : string) : string := "CreateIndex: " +:+ index_name.
Definition show_filter (predicate : Expr.t) : string := "Filter: " +:+ Expr.display predicate.
Definition show_insert (table : TableReference.t) (projected_schema : Schema.t) : string :=
  "Insert: " +:+ TableReference.display table +:+ " (" +:+
    comma_list Column.name (Schema.columns projected_schema) +:+ ")".
Definition show_join (join_type : JoinType.t) (condition : option Expr.t) : string :=
  show_join_type join_type +:+ " Join" +:+
    match condition with Some condition => ": On " +:+ Expr.display condition | None => "" end.
Definition show_limit (limit : option Z) (offset : Z) : string :=
  "Limit: " +:+ match limit with Some v => pretty v | None => "None" end +:+ ", offset: " +:+ pretty offset.
Definition show_project (exprs : list Expr.t) : string := "Project: " +:+ comma_list Expr.display exprs.
Definition show_table_scan (table_ref : TableReference.t) : string :=
  "TableScan: " +:+ TableReference.display table_ref.
Definition show_sort (order_by : list OrderByExpr.t) : string := "Sort: " +:+ comma_list show_order_by order_by.
Definition show_update (table : TableReference.t) : string := "Update: " +:+ TableReference.display table.

Definition show_logical_plan (self : LogicalPlan.t) : string :=
  match self with
  | LogicalPlan.CreateTable name _ => show_create_table name
  | LogicalPlan.CreateIndex index_name _ _ _ => show_create_index index_name
  | LogicalPlan.Filter predicate _ => show_filter predicate
  | LogicalPlan.Insert table _ projected_schema _ => show_insert table projected_schema
  | LogicalPlan.Join _ _ join_type condition _ => show_join join_type condition
  | LogicalPlan.Limit limit offset _ => show_limit limit offset
  | LogicalPlan.Project exprs _ _ => show_project exprs
  | LogicalPlan.TableScan table_ref _ _ _ => show_table_scan table_ref
  | LogicalPlan.Sort order_by _ _ => show_sort order_by
  | LogicalPlan.Values _ _ => "Values"
  | LogicalPlan.EmptyRelation _ _ => "EmptyRelation"
  | LogicalPlan.Aggregate _ _ _ _ => "Aggregate"
  | LogicalPlan.Update table _ _ _ => show_update table
  end.

(** Each input on lines of its own, two spaces further in. *)
Fixpoint pretty_format_logical_plan_recursively (plan : LogicalPlan.t) (indent : nat) : string :=
  let result := indented indent (show_logical_plan plan) in
  let input plan := newline +:+ pretty_format_logical_plan_recursively plan (indent + 2) in
  match plan with
  | LogicalPlan.Filter _ i | LogicalPlan.Insert _ _ _ i | LogicalPlan.Limit _ _ i | LogicalPlan.Project _ i _
  | LogicalPlan.Sort _ i _ | LogicalPlan.Aggregate i _ _ _ => result +:+ input i
  | LogicalPlan.Join l_plan r_plan _ _ _ => result +:+ input l_plan +:+ input r_plan
  | LogicalPlan.CreateTable _ _ | LogicalPlan.CreateIndex _ _ _ _ | LogicalPlan.TableScan _ _ _ _
  | LogicalPlan.Values _ _ | LogicalPlan.EmptyRelation _ _ | LogicalPlan.Update _ _ _ _ => result
  end.

Definition pretty_format_logical_plan (plan : LogicalPlan.t) : string :=
  pretty_format_logical_plan_recursively plan 0.

(** ** Physical plans *)
(** The operators that only print their name, and the number of workers if there are more
    than one. *)
Definition workers (parallelism : nat) (name : string) : string :=
  if 1 <? parallelism then "Parallel" +:+ name +:+ ": workers=" +:+ pretty (Z.of_nat parallelism) else name.

Definition show_physical_filter (predicate : Expr.t) (parallelism : nat) : string :=
  if 1 <? parallelism
  then "ParallelFilter: workers=" +:+ pretty (Z.of_nat parallelism) +:+ ", " +:+ Expr.display predicate
  else "Filter: " +:+ Expr.display predicate.
Definition show_physical_values (rows : list (list Expr.t)) : string :=
  "Values: rows=" +:+ pretty (Z.of_nat (length rows)).

Definition show_physical_plan (self : PhysicalPlan.t) : string :=
  match self with
  | PhysicalPlan.Empty _ _ => "Empty"
  | PhysicalPlan.CreateTable table _ => "CreateTable: " +:+ TableReference.display table
  | PhysicalPlan.CreateIndex name _ _ _ => "CreateIndex: " +:+ name
  | PhysicalPlan.Insert _ _ _ _ => "Insert"
  | PhysicalPlan.Values _ rows => show_physical_values rows
  | PhysicalPlan.Project _ _ _ parallelism => workers parallelism "Project"
  | PhysicalPlan.Filter predicate _ parallelism => show_physical_filter predicate parallelism
  | PhysicalPlan.SeqScan _ _ parallelism => workers parallelism "SeqScan"
  | PhysicalPlan.IndexScan _ index_name _ _ _ => "IndexScan: " +:+ index_name
  | PhysicalPlan.Limit _ _ _ => "Limit"
  | PhysicalPlan.NestedLoopJoin _ _ _ _ _ parallelism => workers parallelism "NestedLoopJoin"
  | PhysicalPlan.Sort order_bys _ => "Sort: " +:+ comma_list show_order_by order_bys
  | PhysicalPlan.Aggregate _ _ _ _ parallelism => workers parallelism "Aggregate"
  | PhysicalPlan.Update _ _ _ _ => "Update"
  end.

Fixpoint pretty_format_physical_plan_recursively (plan : PhysicalPlan.t) (indent : nat) : string :=
  let result := indented indent (show_physical_plan plan) in
  let input plan := newline +:+ pretty_format_physical_plan_recursively plan (indent + 2) in
  match plan with
  | PhysicalPlan.Project _ _ i _ | PhysicalPlan.Filter _ i _ | PhysicalPlan.Limit _ _ i | PhysicalPlan.Insert _ _ _ i
  | PhysicalPlan.Sort _ i | PhysicalPlan.Aggregate i _ _ _ _ => result +:+ input i
  | PhysicalPlan.NestedLoopJoin _ _ left_input right_input _ _ => result +:+ input left_input +:+ input right_input
  | PhysicalPlan.Empty _ _ | PhysicalPlan.CreateTable _ _ | PhysicalPlan.CreateIndex _ _ _ _
  | PhysicalPlan.SeqScan _ _ _ | PhysicalPlan.IndexScan _ _ _ _ _ | PhysicalPlan.Values _ _
  | PhysicalPlan.Update _ _ _ _ => result
  end.

Definition pretty_format_physical_plan (plan : PhysicalPlan.t) : string :=
  pretty_format_physical_plan_recursively plan 0.

(** ** Tables *)
Module ComfyTable.
(** The text of the cells; the preset of the lines is the same everywhere. *)
Record t := Mk { header : option (list string); table_rows : list (list string) }.
Definition new : t := Mk None [].
Definition set_header (cells : list string) (self : t) : t := Mk (Some cells) (table_rows self).
Definition add_row (cells : list string) (self : t) : t := Mk (header self) (table_rows self ++ [cells]).
End ComfyTable.

Class ComfyTable := { show_table : ComfyTable.t → string }.

Definition pretty_format_tuples (tuples : list Tuple.t) : ComfyTable.t :=
  match tuples with
  | [] => ComfyTable.new
  | first :: _ =>
      let table := ComfyTable.set_header (Column.name <$> Schema.columns (Tuple.schema first)) ComfyTable.new in
      foldl (λ table tuple, ComfyTable.add_row (ScalarValue.display <$> Tuple.data tuple) table) table tuples
  end.

(** ** The pages of an index, level by level *)
Section index.
Context {D : Type} `{Disk D} `{ComfyTable}.
Notation Idx := (BPlusTreeIndex.t D).

Definition show_key (tuple : Tuple.t) : string := comma_list ScalarValue.display (Tuple.data tuple).

Definition show_rid (rid : RecordId.t) : string :=
  pretty (RecordId.page_id rid) +:+ "-" +:+ pretty (RecordId.slot_num rid).

(** The table of one page: its keys above what they lead to. *)
Definition page_table {A} (show : A → string) (array : list (Tuple.t * A)) : ComfyTable.t :=
  ComfyTable.add_row ((show ∘ snd) <$> array) (ComfyTable.set_header ((show_key ∘ fst) <$> array) ComfyTable.new).

Definition internal_header (page_id : Z) (header : BPlusTreeInternalPage.header_t) : string :=
  "page_id=" +:+ pretty page_id +:+ ", size: " +:+ pretty (BPlusTreeInternalPage.current_size header) +:+ "/" +:+
    pretty (BPlusTreeInternalPage.max_size header).
Definition leaf_header (page_id : Z) (header : BPlusTreeLeafPage.header_t) : string :=
  "page_id=" +:+ pretty page_id +:+ ", size: " +:+ pretty (BPlusTreeLeafPage.current_size header) +:+ "/" +:+
    pretty (BPlusTreeLeafPage.max_size header) +:+ ", next_page_id=" +:+
    pretty (BPlusTreeLeafPage.next_page_id header).

(** [while let Some(page_id) = curr_queue.pop_front() { .. }]: the header and the row of
    the level, and the pages of the next level. *)
Fixpoint show_level (curr_queue : list Z) : SR Idx (list string * list string * list Z) :=
  match curr_queue with
  | [] => ret ([], [], [])
  | page_id :: curr_queue' =>
      curr_page ← BPlusTreeIndex.read_page (BPlusTreeIndex.fetch_tree_page page_id);
      '(level_header, level_row, next_queue) ← show_level curr_queue';
      match curr_page with
      | BPlusTreePage.Internal page =>
          ret (internal_header page_id (BPlusTreeInternalPage.header page) :: level_header,
               show_table (page_table pretty (BPlusTreeInternalPage.array page)) :: level_row,
               BPlusTreeInternalPage.values page ++ next_queue)
      | BPlusTreePage.Leaf page =>
          ret (leaf_header page_id (BPlusTreeLeafPage.header page) :: level_header,
               show_table (page_table show_rid (BPlusTreeLeafPage.array page)) :: level_row,
               next_queue)
      end
  end.

(** [loop { .. }]: one round for each level. *)
Fixpoint show_levels (fuel : nat) (level_index : Z) (curr_queue : list Z) (display : string) : SR Idx string :=
  match fuel with
  | O => lift Panic
  | S fuel' =>
      match curr_queue with
      | [] => ret display
      | _ =>
          let display := display +:+ "B+ Tree Level No." +:+ pretty level_index +:+ ":" +:+ newline in
          '(level_header, level_row, next_queue) ← show_level curr_queue;
          let level_table := ComfyTable.add_row level_row (ComfyTable.set_header level_header ComfyTable.new) in
          show_levels fuel' (level_index + 1) next_queue (display +:+ show_table level_table +:+ newline)
      end
  end.

Definition pretty_format_index_tree (fuel : nat) : SR Idx string :=
  empty ← gets BPlusTreeIndex.is_empty;
  if empty : bool then ret "Empty tree."%string
  else
    root ← gets BPlusTreeIndex.root_page_id;
    show_levels fuel 1 [root] "".
End index.

(** ** Facts and examples *)
Module PrintingFacts.

Lemma string_app_nil_r (s : string) : s +:+ EmptyString = s.
Proof.
  induction s as [|c s IH]; [done|]. change (String c (s +:+ EmptyString) = String c s). by rewrite IH.
Qed.

Lemma string_app_nil_l (s : string) : EmptyString +:+ s = s.
Proof. done. Qed.

(** The inputs of a plan are printed below it. *)
Lemma logical_plan_inputs plan indent :
  pretty_format_logical_plan_recursively plan indent
  = indented indent (show_logical_plan plan) +:+ String.concat ""
      ((λ input, newline +:+ pretty_format_logical_plan_recursively input (indent + 2)) <$> LogicalPlan.inputs plan).
Proof. destruct plan; simpl; rewrite ?string_app_nil_l, ?string_app_nil_r; done. Qed.

Lemma physical_plan_inputs plan indent :
  pretty_format_physical_plan_recursively plan indent
  = indented indent (show_physical_plan plan) +:+ String.concat ""
      ((λ input, newline +:+ pretty_format_physical_plan_recursively input (indent + 2)) <$> PhysicalPlan.inputs plan).
Proof. destruct plan; simpl; rewrite ?string_app_nil_l, ?string_app_nil_r; done. Qed.

(** One row for each tuple. *)
Lemma tuples_rows tuples :
  ComfyTable.table_rows (pretty_format_tuples tuples) = (λ t, ScalarValue.display <$> Tuple.data t) <$> tuples.
Proof.
  destruct tuples as [|t tuples]; [done|]. unfold pretty_format_tuples. set (table := ComfyTable.set_header _ _).
  assert (∀ l table, ComfyTable.table_rows (foldl (λ table tuple,
    ComfyTable.add_row (ScalarValue.display <$> Tuple.data tuple) table) table l)
    = ComfyTable.table_rows table ++ ((λ t, ScalarValue.display <$> Tuple.data t) <$> l)) as H; [|by rewrite H].
  clear. induction l as [|t l IH]; intros table; simpl; [by rewrite app_nil_r|].
  rewrite IH. simpl. by rewrite <- (assoc_L (++)).
Qed.

(** Cells between bars, rows between semicolons. *)
#[local] Instance plain_tables : ComfyTable := {|
  show_table := λ t, "[" +:+ String.concat ";"
    (String.concat "|" <$> (default [] (ComfyTable.header t) :: ComfyTable.table_rows t)) +:+ "]"
|}.

Definition column (s : string) : Expr.t := Expr.Column None s.
Definition scan : LogicalPlan.t :=
  LogicalPlan.TableScan (TableReference.Partial "public" "t") Schema.empty [] None.

Definition lines (l : list string) : string := String.concat newline l.

Example prints_plan :
  pretty_format_logical_plan
    (LogicalPlan.Limit (Some 3%Z) 0 (LogicalPlan.Sort [OrderByExpr.Mk (column "a") true false]
      (LogicalPlan.Join scan (LogicalPlan.Filter (Expr.Binary (column "a") BinaryOp.Gt
        (Expr.Literal (ScalarValue.Int64 (Some 1%Z)))) scan) JoinType.LeftOuter None Schema.empty) None))
  = lines ["Limit: 3, offset: 0"; "  Sort: a ASC NULLS LAST"; "    LeftOuter Join"; "      TableScan: public.t";
           "      Filter: (a Gt 1)"; "        TableScan: public.t"].
Proof. vm_compute. reflexivity. Qed.

Definition key_schema : Schema.t := Schema.Mk [Column.new "a" DataType.Int8 false].
Definition key (z : Z) : Tuple.t := Tuple.Mk key_schema [ScalarValue.Int8 (Some z)].

(** Three keys in an index with pages of two. *)
Definition small_index : result string :=
  disk ← DiskManager.try_new 0 1 None;
  let index := BPlusTreeIndex.Mk key_schema (BufferPoolManager.new 10 disk) 3 2 INVALID_PAGE_ID in
  ((_ ← BPlusTreeIndex.insert (key 1) (RecordId.Mk 9 0); _ ← BPlusTreeIndex.insert (key 2) (RecordId.Mk 9 1);
   _ ← BPlusTreeIndex.insert (key 3) (RecordId.Mk 9 2); pretty_format_index_tree 5) index).2.

Example prints_index :
  small_index = Ok (lines ["B+ Tree Level No.1:"; "[page_id=8, size: 2/3;[NULL|2;6|7]]"; "B+ Tree Level No.2:";
    "[page_id=6, size: 1/2, next_page_id=7|page_id=7, size: 2/2, next_page_id=0;[1;9-0]|[2|3;9-1|9-2]]"; ""]).
Proof. vm_compute. reflexivity. Qed.

End PrintingFacts.
