(* ===== verification/Session.v ===== *)
(** * Session: statements on a new database

    The whole system, run on a few statements: a database is created in an empty file,
    written, queried, saved and opened again; and a transaction manager over it, to which
    the theorems of [Transactions] are applied. The parser is a table of the statements of
    the session. *)
From S2P Require Import Prelude CommonCodec Floats Text Scalar Schema TupleCodec TablePage IndexPage.
From S2P Require Import DiskPages DiskManager Replacer BufferPool PageStore TableHeap Index Catalog.
From S2P Require Import Expressions LogicalPlan Ast SqlPlanner Operators Optimizer Execution Planner.
From S2P Require Import Journal Transactions Database.

Module Session.

(** ** Statements *)
Definition ident (s : string) : Ast.Ident := Ast.MkIdent s None.
Definition col (s : string) : Ast.Expr := Ast.Identifier (ident s).
Definition num (s : string) : Ast.Expr := Ast.ValueExpr (Ast.Number s false).
Definition str (s : string) : Ast.Expr := Ast.ValueExpr (Ast.SingleQuotedString s).
Definition is_str (c s : string) : Ast.Expr := Ast.BinaryOp (col c) Ast.Eq (str s).

Definition select (items : list Ast.SelectItem) (from : list string) (where_ : option Ast.Expr) : Ast.Statement :=
  Ast.QueryStatement (Ast.MkQuery (Ast.SelectExpr (Ast.MkSelect items
    [Ast.MkTable (Ast.Table (ident <$> from)) []] where_ [])) [] None None).

Definition insert (columns : list string) (rows : list (list Ast.Expr)) : Ast.Statement :=
  Ast.Insert [ident "t"] (ident <$> columns) (Ast.MkQuery (Ast.ValuesExpr rows) [] None None).

Definition statements : list (string * Ast.Statement) := [
  ("select * from information_schema.schemas",
   select [Ast.Wildcard] ["information_schema"; "schemas"] None);
  ("select * from information_schema.tables",
   select [Ast.Wildcard] ["information_schema"; "tables"] None);
  ("select * from information_schema.indexes",
   select [Ast.Wildcard] ["information_schema"; "indexes"] None);
  ("select * from information_schema.columns where table_catalog = 'bustubx' and table_schema = 'public' and table_name = 't'",
   select [Ast.Wildcard] ["information_schema"; "columns"]
     (Some (Ast.BinaryOp (Ast.BinaryOp (is_str "table_catalog" "bustubx") Ast.And
        (is_str "table_schema" "public")) Ast.And (is_str "table_name" "t"))));
  ("create table t (a int not null, b varchar)",
   Ast.CreateTable [ident "t"]
     [Ast.MkColumnDef (ident "a") (Ast.Int None) [Ast.NotNull];
      Ast.MkColumnDef (ident "b") (Ast.Varchar None) []]);
  ("insert into t values (2, 'x'), (1, 'y')", insert [] [[num "2"; str "x"]; [num "1"; str "y"]]);
  ("insert into t(b, a) values ('z', 3)", insert ["b"; "a"] [[str "z"; num "3"]]);
  ("create index i on t (a)", Ast.CreateIndex [ident "i"] [ident "t"] [Ast.MkOrderBy (col "a") None None]);
  ("select * from t", select [Ast.Wildcard] ["t"] None);
  ("select b from t where a > 1",
   select [Ast.UnnamedExpr (col "b")] ["t"] (Some (Ast.BinaryOp (col "a") Ast.Gt (num "1"))));
  ("select count(a) from t",
   select [Ast.UnnamedExpr (Ast.Function [ident "count"] [Ast.Unnamed (Ast.ArgExpr (col "a"))] false)] ["t"] None);
  ("select t.a from t",
   select [Ast.UnnamedExpr (Ast.CompoundIdentifier [ident "t"; ident "a"])] ["t"] None)
]%string.

Fixpoint find (sql : string) (l : list (string * Ast.Statement)) : option Ast.Statement :=
  match l with
  | [] => None
  | (s, stmt) :: l' => if String.eqb sql s then Some stmt else find sql l'
  end.

#[local] Instance session_parser : Sqlparser := {|
  parse_sql := λ sql, stmt ← ok_or (find sql statements) (Parser sql); Ok [stmt];
  parse_data_type := λ s, Ok (if String.eqb s "INTEGER" then Ast.Integer None else Ast.Varchar None);
  show_object_name := λ name, String.concat "." (Ast.value <$> name);
  show_data_type := λ dt, match dt with Ast.Integer _ => "INTEGER" | _ => "VARCHAR" end;
|}.

#[local] Instance session_platform : Platform := {| spawn_fails := λ _, None; hash_order := λ _ g, g |}.

(** The values of the rows of a statement. *)
Definition run (sql : string) (db : Database.t DiskManager.t) :
    Database.t DiskManager.t * result (list (list ScalarValue.t)) :=
  let '(db, r) := Database.run 100 sql db in
  (db, match r with Ok tuples => Ok (map Tuple.data tuples) | Err e => Err e | Panic => Panic end).

(** One statement after the other, with their results. *)
Fixpoint run_all (sqls : list string) (db : Database.t DiskManager.t) :
    Database.t DiskManager.t * list (result (list (list ScalarValue.t))) :=
  match sqls with
  | [] => (db, [])
  | sql :: sqls' =>
      let '(db, r) := run sql db in
      let '(db, rs) := run_all sqls' db in (db, r :: rs)
  end.

(** A session on a new database, then another one on its saved bytes. *)
Definition session (sqls1 sqls2 : list string) :
    result (list (result (list (list ScalarValue.t))) * list (result (list (list ScalarValue.t)))) :=
  db ← Database.new_temp 0 1 100;
  let '(db, rs1) := run_all sqls1 db in
  bytes ← (Database.snapshot_bytes 100 db).2;
  db ← Database.from_snapshot 0 1 100 bytes;
  let '(_, rs2) := run_all sqls2 db in Ok (rs1, rs2).

Definition int (z : Z) : ScalarValue.t := ScalarValue.Int32 (Some z).
Definition text (s : string) : ScalarValue.t := ScalarValue.Varchar (Some s).

(** Tables, rows and indexes are there after the database is opened again; with the
    index the rows come in the order of its key. *)
Example session_reopens :
  session ["create table t (a int not null, b varchar)"; "insert into t values (2, 'x'), (1, 'y')";
           "select * from t"; "select b from t where a > 1"; "select count(a) from t";
           "create index i on t (a)"; "select * from t"]
          ["select * from t"; "select b from t where a > 1"; "insert into t values (2, 'x'), (1, 'y')";
           "select count(a) from t"]
  = Ok ([Ok []; Ok [[int 2]]; Ok [[int 2; text "x"]; [int 1; text "y"]]; Ok [[text "x"]];
         Ok [[ScalarValue.Int64 (Some 2%Z)]]; Ok []; Ok [[int 1; text "y"]; [int 2; text "x"]]],
        [Ok [[int 1; text "y"]; [int 2; text "x"]]; Ok [[text "x"]]; Ok [[int 2]];
         Ok [[ScalarValue.Int64 (Some 4%Z)]]]).
Proof. vm_compute. reflexivity. Qed.

(** An insert with a list of columns puts the values in the order of the list into the
    columns of the table, here of other types, which panics. *)
Example insert_columns_panics :
  session ["create table t (a int not null, b varchar)"; "insert into t(b, a) values ('z', 3)"] []
  = Ok ([Ok []; Panic], []).
Proof. vm_compute. reflexivity. Qed.

(** The columns that are loaded have no relation: a qualified name is not found any
    more after the database is opened again. *)
Example qualified_name_lost :
  session ["create table t (a int not null, b varchar)"; "select t.a from t"] ["select t.a from t"]
  = Ok ([Ok []; Ok []], [Err (Plan "Unable to get column named {name}")]).
Proof. vm_compute. reflexivity. Qed.

(** ** Transactions on this database *)
Local Open Scope Z_scope.
#[local] Instance session_database : Transactions.Database (Database.t DiskManager.t) :=
  disk_Database 0 1 100.

(** One transaction creates a table with two rows, two snapshot transactions write to it
    at the same time, of which the second is refused, and a reader still sees two rows. *)
Definition session_calls : list ManagerRun.event := [
  ManagerRun.Begin Serializable;
  ManagerRun.Run 1 "create table t (a int not null, b varchar)";
  ManagerRun.Run 1 "insert into t values (2, 'x'), (1, 'y')";
  ManagerRun.Commit 1 Journal.Written;
  ManagerRun.Begin SnapshotIsolation; ManagerRun.Begin SnapshotIsolation; ManagerRun.Begin Serializable;
  ManagerRun.SetParallelism 4 2;
  ManagerRun.Run 2 "insert into t values (2, 'x'), (1, 'y')";
  ManagerRun.Run 3 "insert into t values (2, 'x'), (1, 'y')";
  ManagerRun.Abort 4;
  ManagerRun.Commit 2 Journal.Written; ManagerRun.Commit 3 Journal.Written;
  ManagerRun.Begin Serializable; ManagerRun.Run 5 "select count(a) from t"]%string.

(** The manager that was opened, and what the calls leave. *)
Definition after (m : result (ManagerState (Database.t DiskManager.t))) (calls : list ManagerRun.event) :
    option (ManagerState (Database.t DiskManager.t) * ManagerRun.config (Database.t DiskManager.t)) :=
  match m with
  | Ok s => match ManagerRun.exec_all calls (ManagerRun.start s) with Some c => Some (s, c) | None => None end
  | _ => None
  end.

Lemma after_reached m calls s c :
  after m calls = Some (s, c) → m = Ok s ∧ ManagerRun.exec_all calls (ManagerRun.start s) = Some c.
Proof.
  unfold after. destruct m as [s'|e|]; [|done..].
  destruct (ManagerRun.exec_all calls (ManagerRun.start s')) as [c'|] eqn:He; [|done]. by intros [= -> ->].
Qed.

(** The version of what the session leaves, its transactions that committed, and the rows
    that the last one was answered. *)
Definition summary (c : ManagerRun.config (Database.t DiskManager.t)) : Z * list Z * list (list ScalarValue.t) :=
  (version (ManagerRun.manager c), (ManagerRun.commits c).*1,
   match last (ManagerRun.log_of c 5) with
   | Some (ManagerRun.Ran _ rows) => map Tuple.data rows
   | _ => []
   end).

Lemma commits_serializable_witness :
  ∃ s0 c, after Transactions.new_temp session_calls = Some (s0, c) ∧
    summary c = (2, [1; 2], [[ScalarValue.Int64 (Some 4)]]) ∧
    ManagerRun.serial (ManagerRun.published c) (ManagerRun.commits c).
Proof.
  assert (match after Transactions.new_temp session_calls with
          | Some (s, c) => next_id s = 1 ∧ locks s = LockManager.default ∧
                           summary c = (2, [1; 2], [[ScalarValue.Int64 (Some 4)]])
          | None => False
          end) as Hs by (vm_compute; repeat split).
  destruct (after Transactions.new_temp session_calls) as [[s0 c]|] eqn:Ha; [|destruct Hs].
  destruct Hs as (Hid & Hl & Hs). apply after_reached in Ha as [_ Hc].
  exists s0, c. split; [reflexivity|]. split; [exact Hs|].
  exact (proj1 (TransactionSpec.commits_serializable s0 c (conj Hid Hl)
    (ManagerRun.exec_all_reachable s0 _ _ _ (ManagerRun.reach_start s0) Hc))).
Defined.

(** A manager on an empty journal file, and the crash of the write of a commit after 5000
    of its bytes. *)
Definition journal_manager : result (ManagerState (Database.t DiskManager.t)) :=
  Transactions.new_on_disk false [] Journal.Written.

Definition crash_calls : list ManagerRun.event := [
  ManagerRun.Begin Serializable;
  ManagerRun.Run 1 "create table t (a int not null, b varchar)";
  ManagerRun.Commit 1 (Journal.FailedAfter 5000)]%string.

Lemma journal_durability_witness :
  ∃ s0 c j j' v p d, after journal_manager crash_calls = Some (s0, c) ∧
    length (ManagerRun.failures c) = 1%nat ∧
    journal (ManagerRun.manager c) = Some j ∧
    Journal.open false (Journal.file j) = Ok (j', Some (v, p)) ∧
    last (ManagerRun.published c) = Some d ∧ kept d (database (ManagerRun.manager c)).
Proof.
  assert (match after journal_manager crash_calls with
          | Some (s, c) => length (ManagerRun.failures c) = 1%nat ∧
              ManagerRun.all_u8 crash_calls (ManagerRun.start s) = true
          | None => False
          end ∧ ManagerRun.first_u8 = true) as [Hs Hfirst] by (vm_compute; repeat split).
  destruct (after journal_manager crash_calls) as [[s0 c]|] eqn:Ha; [|destruct Hs].
  destruct Hs as [Hf Hu8]. apply after_reached in Ha as [Hj Hc].
  pose proof (ManagerRun.all_u8_reachable s0 crash_calls _ (ManagerRun.reach_u8_start s0) Hu8) as Hr.
  rewrite Hc in Hr.
  destruct (TransactionSpec.journal_durability false [] Journal.Written s0 c
    (List.Forall_nil _) eq_refl Hfirst Hj Hr) as (j & j' & v & p & d & Hjm & Ho & _ & Hd & Hk & _).
  exists s0, c, j, j', v, p, d. split; [reflexivity|].
  exact (conj Hf (conj Hjm (conj Ho (conj Hd Hk)))).
Defined.

End Session.
