(* ===== verification/FrontEnds.v ===== *)
(** * FrontEnds: the programs around the database

    Models [bustubx-cli/src/main.rs], [bustubx-wasm/src/main.rs] and the adapter of the
    logic tests, [tests/sqllogictest/src/lib.rs]: loops that run the lines they read and
    print what comes back. A front end is a computation on the database and on what was
    printed so far; what the terminal or the standard input delivers is a list. Writing
    to the standard output does not fail, and the history of the editor is left out. *)
From S2P Require Import Prelude CommonCodec Floats Text Scalar Schema TupleCodec TablePage IndexPage.
From S2P Require Import DiskPages DiskManager Replacer BufferPool PageStore TableHeap Index Catalog.
From S2P Require Import Expressions LogicalPlan Ast SqlPlanner Operators Optimizer Execution Planner.
From S2P Require Import Transactions Database Printing Session.

(** [Display for BustubxError] *)
Definition show_error (e : BustubxError) : string :=
  match e with
  | Transaction msg => "Transaction error: " +:+ msg
  | NotSupport msg => "Not support: " +:+ msg
  | Internal msg => "Internal error: " +:+ msg
  | Io msg => "IO error: " +:+ msg
  | Parser msg => "Parser error: " +:+ msg
  | Plan msg => "Plan error: " +:+ msg
  | Execution msg => "Execution error: " +:+ msg
  | Storage msg => "Storage error: " +:+ msg
  end.

(** The database, and the lines that were printed. *)
Local Notation Db := (Database.t DiskManager.t).
Local Notation World := (Db * list string)%type.

Definition on_db {A} (m : SR Db A) : SR World A := λ '(db, out),
  let '(db, r) := m db in ((db, out), r).
Definition println (line : string) : SR World unit := λ '(db, out), ((db, out ++ [line]), Ok tt).

(** ** The command line *)
Module Cli.

(** What [readline] returns. *)
Inductive Readline :=
  | Line (line : string)
  | Interrupted
  | Eof
  | OtherError (debug : string).

Section main.
Context `{Platform} `{Sqlparser} `{ComfyTable} (fuel : nat).

(** The result of a statement. *)
Definition answer (r : result (list Tuple.t)) : SR World unit :=
  match r with
  | Ok tuples =>
      if (length tuples =? 0)%nat then ret tt else println (show_table (pretty_format_tuples tuples))
  | Err e => println (show_error e)
  | Panic => lift Panic
  end.

(** The file of the [-f] option, on its contents if it exists, or a new one. *)
Definition open (major minor : Z) (file : option (option (list Z))) : result Db :=
  match match file with
        | Some contents => Database.new_on_disk major minor fuel contents
        | None => Database.new_temp major minor fuel
        end with
  | Ok db => Ok db
  | _ => Panic
  end.

(** The loop of [main]; a terminal with nothing more to deliver is at its end. *)
Fixpoint session (inputs : list Readline) : SR World unit :=
  match inputs with
  | Line line :: inputs' =>
      if String.eqb line "exit" || String.eqb line "\q" then println "bye!"
      else
        r ← catch (on_db (Database.run fuel line));
        _ ← answer r;
        session inputs'
  | Interrupted :: _ => println "CTRL-C"
  | OtherError err :: _ => println ("Error: " +:+ err)
  | Eof :: _ | [] => println "CTRL-D"
  end.

(** [main] on an open database: the greeting, the loop, and [db.flush().unwrap()]. *)
Definition main (inputs : list Readline) : SR World unit :=
  _ ← println ":) Welcome to the bustubx, please input sql.";
  _ ← session inputs;
  flushed ← catch (on_db (Database.flush fuel));
  match flushed with Ok _ => ret tt | _ => lift Panic end.

End main.
End Cli.

(** ** The command of the WebAssembly build *)
Module Wasm.

Definition empty (s : string) : bool := match s with EmptyString => true | _ => false end.

Section main.
Context `{Platform} `{Sqlparser} `{ComfyTable} (fuel : nat).

(** A statement, saved before it is acknowledged. *)
Definition statement (line : string) : SR World unit :=
  r ← catch (on_db (Database.run fuel line));
  match r with
  | Ok rows =>
      _ ← on_db (Database.flush fuel);
      _ ← println ("OK rows=" +:+ pretty (Z.of_nat (length rows)));
      if (length rows =? 0)%nat then ret tt else println (show_table (pretty_format_tuples rows))
  | Err error => println ("ERROR " +:+ show_error error)
  | Panic => lift Panic
  end.

(** [run], on the lines of the standard input, which may fail to be read. *)
Fixpoint run (lines : list (result string)) : SR World unit :=
  match lines with
  | [] => ret tt
  | line :: lines' =>
      line ← lift line;
      if empty (Text.trim line) then run lines'
      else _ ← statement line; run lines'
  end.

(** The exit code of [main]; its message goes to the standard error. *)
Definition main (lines : list (result string)) : SR World Z :=
  r ← catch (run lines);
  match r with Ok _ => ret 0%Z | Err _ => ret 1%Z | Panic => lift Panic end.

End main.
End Wasm.

(** ** The adapter of the logic tests *)
Module LogicTest.

Inductive DBOutput :=
  | Rows (types : nat) (rows : list (list string))
  | StatementComplete (count : Z).

Section adapter.
Context `{Platform} `{Sqlparser} (fuel : nat).

(** [with_parallelism], which unwraps. *)
Definition with_parallelism (major minor : Z) (workers : nat) : result Db :=
  match Database.new_temp major minor fuel with
  | Ok db => match Database.set_parallelism workers db with (db, Ok _) => Ok db | _ => Panic end
  | _ => Panic
  end.

Definition tuples_to_sqllogictest_string (tuples : list Tuple.t) : list (list string) :=
  (λ tuple, ScalarValue.display <$> Tuple.data tuple) <$> tuples.

(** [run]; each column has the type [Any], so their number is what [types] holds. *)
Definition run (sql : string) : SR Db DBOutput :=
  let is_query_sql := String.prefix "select" (Text.map_string Text.to_lower (Text.trim_start sql)) in
  tuples ← Database.run fuel sql;
  match tuples with
  | [] => ret (if is_query_sql then Rows 0 [] else StatementComplete 0)
  | first :: _ =>
      ret (Rows (Schema.column_count (Tuple.schema first)) (tuples_to_sqllogictest_string tuples))
  end.

End adapter.
End LogicTest.

(** ** What the loops do *)
Module FrontEndFacts.
Section facts.
Context `{Platform} `{Sqlparser} `{ComfyTable} (fuel : nat).

(** Nothing after the line that leaves is read. *)
Lemma session_exit before after line (w : Db * list string) :
  line = "exit" ∨ line = "\q" →
  Cli.session fuel (before ++ Cli.Line line :: after) w = Cli.session fuel (before ++ [Cli.Line line]) w.
Proof.
  intros Hl. revert w. induction before as [|[l| | |err] before IH]; intros w; cbn [app Cli.session]; [|..|done|done|done].
  - by destruct Hl as [-> | ->].
  - destruct (_ || _); [done|]. unfold mbind, SR_bind. destruct (catch _ w) as [w1 [r| |]]; [|done..].
    destruct (Cli.answer r w1) as [w2 [[]| |]]; [apply IH|done..].
Qed.

(** Reading the lines of one input and then those of another. *)
Lemma run_app lines lines' (w : Db * list string) :
  Wasm.run fuel (lines ++ lines') w = (_ ← Wasm.run fuel lines; Wasm.run fuel lines') w.
Proof.
  revert w. induction lines as [|line lines IH]; intros w; [done|]. cbn [app Wasm.run]. unfold mbind, SR_bind in *.
  destruct (lift line w) as [w1 [l| |]]; [|done..]. destruct (Wasm.empty _); [apply IH|].
  destruct (Wasm.statement fuel l w1) as [w2 [[]| |]]; [apply IH|done..].
Qed.

(** A statement is acknowledged in one case: it ran, and then the database was saved. *)
Lemma statement_acknowledged line (db db' : Db) out out' rows :
  Database.run fuel line db = (db', Ok rows) →
  Wasm.statement fuel line (db, out) = (out', Ok tt) →
  ∃ db2 shown, Database.flush fuel db' = (db2, Ok tt) ∧
    out' = (db2, out ++ ("OK rows=" +:+ pretty (Z.of_nat (length rows))) :: shown).
Proof.
  intros Hrun. unfold Wasm.statement, mbind, SR_bind, catch, on_db. rewrite Hrun.
  destruct (Database.flush fuel db') as [db2 [[]| |]] eqn:Hf; [|done..]. cbn [println].
  destruct (length rows =? 0)%nat; intros [= <-]; exists db2; eexists; (split; [done|]); [done|].
  by rewrite <- (assoc_L (++)).
Qed.

End facts.
End FrontEndFacts.

(** ** A session at the terminal *)
Module FrontEndDemo.
#[local] Existing Instances Session.session_parser Session.session_platform.

(** Tables as the text of their cells. *)
#[local] Instance plain_tables : ComfyTable := {|
  show_table := λ table, String.concat "; "
    (String.concat " " <$> option_list (ComfyTable.header table) ++ ComfyTable.table_rows table);
|}.

Definition printed (r : result (list string)) : list string := match r with Ok out => out | _ => [] end.

(** A statement that the planner refuses is answered by its error, and the loop goes on. *)
Example cli_session :
  printed (db ← Cli.open 100 0 1 None;
    Ok (Cli.main 100 (Cli.Line <$> ["create table t (a int not null, b varchar)"; "insert into t values (2, 'x'), (1, 'y')";
      "select * from t"; "select"; "exit"; "select * from t"]) (db, [])).1.2)
  = [":) Welcome to the bustubx, please input sql."; "insert_rows; 2"; "a b; 2 x; 1 y"; "Parser error: select"; "bye!"].
Proof. vm_compute. reflexivity. Qed.

Example wasm_session :
  printed (db ← Database.new_temp 0 1 100;
    Ok (Wasm.main 100 (Ok <$> ["create table t (a int not null, b varchar)"; "  "; "select * from t"; "select"]) (db, [])).1.2)
  = ["OK rows=0"; "OK rows=0"; "ERROR Parser error: select"].
Proof. vm_compute. reflexivity. Qed.

Example logic_test :
  (db ← LogicTest.with_parallelism 100 0 1 4;
   let '(db, r1) := LogicTest.run 100 "create table t (a int not null, b varchar)" db in
   let '(db, r2) := LogicTest.run 100 "select * from t" db in
   let '(db, r3) := LogicTest.run 100 "insert into t values (2, 'x'), (1, 'y')" db in
   let '(_, r4) := LogicTest.run 100 "select * from t" db in Ok [r1; r2; r3; r4])
  = Ok [Ok (LogicTest.StatementComplete 0); Ok (LogicTest.Rows 0 []); Ok (LogicTest.Rows 1 [["2"]]);
        Ok (LogicTest.Rows 2 [["2"; "x"]; ["1"; "y"]])].
Proof. vm_compute. reflexivity. Qed.

End FrontEndDemo.
